(* ===== verification/_CoqProject ===== *)
-Q . S2P
Prelude.v
Conc.v
Text.v
AsioHeap.v
AsioTimerQueue.v
AsioTimer.v
AsioTimerService.v
AsioOpQueue.v
AsioScheduler.v
AsioStreambuf.v
ResultState.v
ResultProtocol.v
ResultRaces.v
WhenAny.v
WhenAll.v
SharedResult.v
ResultApi.v
WhenResult.v
Timers.v
TimerQueue.v
TimerObject.v
Task.v
Executor.v
Rescheduling.v
Coroutines.v
ManualExecutor.v
WorkerThread.v
ThreadExecutor.v
IdleWorkers.v
ThreadPool.v
ThreadPoolProofs.v
ThreadPoolLive.v
Slist.v
AsyncLock.v
AsyncCondVar.v
Socket.v
AsioReadUntil.v
AsioSocketOps.v
AsioReactor.v
AsioWrite.v
AsioConnect.v
AsioSignals.v
CallbackAwaiter.v
HttpRequest.v
HttpResponse.v
Connection.v
HttpClient.v
Tcp.v
HttpServer.v
Runtime.v
Generator.v
Lazy.v
