(* ===== verification/Prelude.v ===== *)
(** * concurrencpp-X: a verification development

    concurrencpp is a C++ library of coroutines, results, executors, timers and
    synchronisation primitives ([source/], [include/concurrencpp/]); the X version
    adds TCP and HTTP clients and servers on top of its lazy coroutines
    ([include/concurrencpp/net/]).  This library translates that code into
    executable definitions, file by file, and proves what makes it correct.

    ** The program and the files that model it

    _Foundations_.  [Prelude] (this file): the exceptions of [errors.h], outcomes of
    C++ calls, [size_t], lemmas and tactics that the files share.  [Conc]: programs
    of atomic accesses to a shared memory, their interleavings, faults, and a
    sequential state monad with faults and its weakest preconditions.  [Text]: what
    the code uses of [char], [std::string], [<cctype>] and [std::to_string].

    _Results_ ([results/]).  [ResultState] is [result_state.h/.cpp],
    [producer_context.h] and [consumer_context.h/.cpp]: a record for the state, one
    program for each operation, an atomic access for each atomic operation of the
    source.  [ResultProtocol] runs one producer and one consumer on it in every
    interleaving.  [WhenAny] is [when_result.h], several states and their producers
    with the caller of [when_any] or [when_all]; [WhenAll] proves the latter in every
    interleaving, while [ResultRaces] and [WhenAny] show two executions in which
    [wait_for] and [when_any] go wrong; [WhenResult] is what the two functions do before
    their coroutines start.  [SharedResult] is [shared_result_state], and
    [ResultApi] the objects [result] and [result_promise] and [make_result.h], over a
    heap of states.  [Lazy] is [lazy_result.h] with its state and awaitables,
    [Generator] is [generator.h] and [generator_state.h]; in both, coroutine frames
    are a heap and the bodies of coroutines are arguments.  [Rescheduling] is
    [await_via_functor], and [Coroutines] is [promises.h], [resume_on.h] and
    [executor::submit]: eager and parallel coroutines, with the executors they run on.

    _Executors_ ([executors/], [task.h/.cpp]).  [Task] is the move-only callable with
    its buffer and tables.  [Executor] states, as a type class with laws, what an
    executor promises; [post], [bulk_post], [bulk_submit] are proved against it, and
    the executors are instances where the law fits.  [ManualExecutor],
    [WorkerThread] and [ThreadExecutor] are the executors of those names;
    [IdleWorkers], [ThreadPool], [ThreadPoolProofs] and [ThreadPoolLive] are the thread
    pool, with several pools and the threads that use them as one state machine.

    _Timers_ ([timers/]).  [Timers] is [timer_queue_internal], [TimerQueue] the queue
    with its worker thread, [TimerObject] the timer and delay objects.

    _Synchronisation_ ([threads/], [utils/slist.h]).  [Slist] is the intrusive list,
    [AsyncLock] and [AsyncCondVar] the lock and the condition variable.

    _Network_ ([net/], [runtime/]).  [CallbackAwaiter] is the awaiter of
    [asio_coro_util.hpp]; [Socket] says what sockets give to the
    coroutines; [HttpRequest], [HttpResponse], [Connection], [HttpServer] and
    [HttpClient] are the files of [net/http/]; [Tcp] is [server.hpp], [client.hpp] and
    [io_context_pool.hpp].  [Runtime] is [runtime.cpp], which owns the executors, the
    timer queue and the pool; it shuts down the queue of [TimerQueue] and the pool of [Tcp].

    _asio_ ([net/asio/]).  The parts of the vendored library that the network code rests
    on.  [AsioHeap], [AsioTimerQueue], [AsioTimer] and [AsioTimerService] are
    [timer_queue.hpp], [chrono_time_traits.hpp], [deadline_timer_service.hpp] and what
    [epoll_reactor] does for timers.  [AsioScheduler] is [scheduler.ipp] with
    [posix_event.hpp]: the loop of an [io_context] and the threads in it;
    [AsioOpQueue] is [op_queue.hpp].  [AsioStreambuf] is [basic_streambuf.hpp], and
    [AsioReadUntil] the composed operation of [impl/read_until.hpp], which is proved to
    do what [Socket] says; [AsioWrite] is that of [impl/write.hpp] with
    [consuming_buffers.hpp], and [AsioConnect] that of [impl/connect.hpp].
    [AsioSocketOps] is what a read, a write, an accept and a connect do with the
    system calls ([socket_ops.ipp], [reactive_socket_*_op.hpp]), and
    [AsioReactor] is [epoll_reactor.ipp] with [reactive_socket_service_base.ipp]: the
    queues of one descriptor, the edge-triggered [epoll] and the threads that perform.
    The state of the socket in the kernel is a parameter of type class [Os], with what
    POSIX says of the calls as the laws [OsLaws] and [EpollLaws].  [AsioSignals] is
    [signal_set_service.ipp], the registrations of signals with their pointers.

    State is a record with the fields of the class; an operation that runs under a
    mutex, or on one thread, is a function or a computation on it, with the
    assertions and null or dangling pointers as faults; concurrency is a step
    relation with one step for each critical section and each atomic operation, in
    the order of the source.  Relaxed and acquire-release orderings are modelled as
    sequentially consistent.  Exceptions are values of [outcome].

    ** What the theorems show

    - _Results_: in every interleaving of a producer and a consumer that asks for the status, waits,
      resolves, gets, awaits or drops, no assertion fails, nothing is used after it
      was freed, but for the notification of a consumer that blocks, no wake-up is lost, and the
      value or exception is delivered ([ResultProtocol]); the same for [when_all] and any number of producers
      ([WhenAll]); operations on result objects never misuse or leak a state,
      and block only on a promise that can still deliver ([ResultApi]); every awaiter
      of a shared result is resumed once and in order ([SharedResult]).
    - _Coroutines_: lazy coroutines refine a direct evaluation ([Lazy]); loops over a
      generator see what its body yields ([Generator]); a coroutine that is
      rescheduled is resumed exactly once ([Rescheduling]); every eager or parallel
      coroutine is with one executor, in its body, or published once ([Coroutines]);
      a coroutine that awaits asio sees what the handlers were given, and no frame is
      used when it is gone ([CallbackAwaiter]).
    - _Executors_: each task is in one place and run or destroyed once; when nothing
      can go on every task has been run; shutdowns join every thread that was created.  For the
      thread pool this needs that no worker times out: [thread_pool_strands_task]
      shows why.  The semaphores of workers are released when they are at their maximum
      ([binary_release]); the theorems hold whatever positive count that leaves.
    - _Timers_: due timers are posted in the order of their deadlines, requests are
      always served, and after a timer was cancelled it is called only by executions that looked
      at it before.
    - _Lock and condition variable_: mutual exclusion, no waiter is forgotten, no
      notification is lost, before or after the lock is given up, guards and lock agree.
    - _Network_: the request parser accepts exactly a grammar; the server gives each
      connection a session, and answers in order and from files below its root only;
      an HTTP client gets from the server what the path names, end to end, however the
      data is cut; TCP sessions and calls handle all that arrives; the sessions are
      spread over the contexts in turn.
    - _asio_: the heap and list of timers implement a map from timers to deadlines, a
      wait is posted in time, completes once and is never lost; operations of the
      scheduler are completed once, its count of work is right, no wake-up is lost and
      a stop lets all threads go; a [streambuf] is a queue of bytes,
      [async_read_until] finds the first delimiter however the data is cut, and
      [async_write] writes everything once, [async_connect] tries the endpoints in order
      ([AsioConnect]); operations on a socket are performed in
      order, none is stranded although [epoll] reports a change only once, and the
      reactor finds every descriptor out of the queues; the linked lists of signal
      registrations implement a list without pointers, and no signal is missed.
    - _Runtime_: its destructor shuts everything down once and in order, if the executors let it.
    - The theorems of kind error describe behaviour that the code does not intend:
      lost wake-ups of [when_any], a use after free in [wait_for], a notification of a state that
      was freed, a task stranded in a
      thread pool, a shutdown that hangs after the creation of a thread has failed, an exception that ends
      the thread of the timers, a condition variable that deadlocks with an inline executor,
      TCP calls that can only time out, a timer that is cancelled too late,
      a buffer that changes when [prepare] fails, a read after the end of the stream that
      waits, a connection that is not accepted, a connect that outlives its timeout.

    ** Fuel

    Recursion that is not structural takes fuel.  The loops of [HttpClient] and [Tcp]
    are given more than the number of bytes and arrivals, and with that much more
    fuel changes nothing ([read_counted_fuel], [read_to_end_fuel],
    [parse_headers_fuel]; [session] and [call] are proved to return with it).  The loop
    of [process_timers] has a round for each timer that is due and one more
    ([process_loop_spec]); the block-wise reading of files ([read_blocks_all]) and the
    decimal digits of [Text] ([dec_digits_spec]) likewise.  The loop of
    [result_state::wait] is unrolled, and [ResultProtocol] shows that it never runs out;
    that of [when_any] occurs in a single execution only.  The theorem on [Lazy] gives
    fuel with which the run ends.  The loops on the heap of timers have a turn for each
    entry, and the theorems on them and on [async_read_until] and [async_write], which
    have a turn for each byte and arrival, show that the calls return.  A system call is
    repeated while it is interrupted, and [patience] bounds how often that happens
    ([perform_spec]).  The loops of [AsioSignals] are given the number of objects
    ([set_chain_length], [table_length], [listed_length]).

    ** Not modelled

    - The rest of asio: resolvers, executors, datagrams, other platforms; of the reactor
      its internal descriptors; [fork].  The network code takes what a socket gives as
      an argument, and the reactor of [AsioScheduler] completes operations in any order.
      Cancellation slots, handlers that throw and the calls [poll], [run_one] and
      [wait_one], which this code does not use.
    - The printing to [std::cout]; the timers of ten seconds of the clients and the
      signal handlers of the servers are modelled in asio ([AsioTimerService],
      [AsioSignals]), and for clients and servers only as an error that a read or an
      accept may meet.
    - [thread.cpp], a wrapper of [std::thread]; thread names and callbacks.
    - Memory orderings weaker than sequential consistency, and allocation failure. *)

From stdpp Require Export base gmap list strings relations sorting.
From stdpp Require Import options.

(** ** Exceptions and outcomes

    [exn] has one constructor for each exception class of
    [errors.h] that the modelled code throws, and for the standard exceptions
    it throws.  [user_exn] stands for whatever a callable given by the
    application throws. *)
Inductive exn : Type :=
  | empty_result
  | empty_result_promise
  | empty_timer
  | empty_generator
  | broken_task
  | runtime_shutdown (executor_name : string)
  | result_already_retrieved
  | invalid_argument
  | operation_not_permitted
  | resource_deadlock_would_occur
  | timed_out
  | system_error (code : Z)
  | user_exn (id : nat).

#[global] Instance exn_eq_dec : EqDecision exn.
Proof. solve_decision. Defined.

(** What a C++ call does: return, throw, or leave a [noexcept] function by an
    exception, which calls [std::terminate]. *)
Inductive outcome (A : Type) : Type :=
  | Ret (a : A)
  | Throw (e : exn)
  | Terminate.
Arguments Ret {A} a.
Arguments Throw {A} e.
Arguments Terminate {A}.

Definition outcome_bind {A B} (m : outcome A) (k : A → outcome B) : outcome B :=
  match m with
  | Ret a => k a
  | Throw e => Throw e
  | Terminate => Terminate
  end.

(** A [noexcept] function that throws terminates the program. *)
Definition noexcept {A} (m : outcome A) : outcome A :=
  match m with
  | Throw _ => Terminate
  | _ => m
  end.

Declare Scope cpp_scope.
Delimit Scope cpp_scope with cpp.
Notation "'let!' x := m 'in' k" := (outcome_bind m (fun x => k))
  (at level 10, x pattern, m at level 100, k at level 200) : cpp_scope.

(** ** Machine integers *)

(** [size_t] is 64 bits wide: arithmetic wraps at [2 ^ 64]. *)
Definition size_t_mod : Z := 18446744073709551616.
Definition size_t_wrap (z : Z) : Z := z mod size_t_mod.
(** [static_cast<size_t>(-1)] *)
Definition size_t_npos : Z := size_t_mod - 1.

Lemma size_t_wrap_small z : (0 ≤ z < size_t_mod)%Z → size_t_wrap z = z.
Proof. apply Z.mod_small. Qed.

Lemma size_t_wrap_bounds z : (0 ≤ size_t_wrap z < size_t_mod)%Z.
Proof. apply Z.mod_pos_bound. done. Qed.

(** ** Tactics *)

(** Splits on the first [match] or [if] of the goal, or of a hypothesis. *)
Ltac case_split :=
  match goal with
  | |- context [match ?x with _ => _ end] => destruct x eqn:?
  | H : context [match ?x with _ => _ end] |- _ => destruct x eqn:?
  end.

(** The common tail of the case analyses over finite states. *)
Ltac crush :=
  repeat (simplify_eq/=; try case_split); simplify_eq/=; try done; eauto.

(** Destructs conjunctions and existentials of the context. *)
Ltac destr :=
  repeat match goal with
  | H : _ ∧ _ |- _ => destruct H
  | H : ∃ _, _ |- _ => destruct H
  | H : _ * _ |- _ => destruct H
  end.

(** Propositional closure with equalities: [fwd] splits the context and uses
    the implications whose premise is at hand, [prop_solve] then splits the goal
    and closes it by congruence. *)
Ltac fwd :=
  repeat match goal with
  | H : _ ∧ _ |- _ => destruct H
  | H : ∃ _, _ |- _ => destruct H
  | H : ?P → _, H' : ?P |- _ => match type of P with Prop => specialize (H H') end
  | H : ?a = ?b → _ |- _ =>
      let E := fresh in assert (a = b) as E by congruence; specialize (H E); clear E
  | H : _ ∨ _ |- _ => destruct H; try congruence
  end.

Ltac prop_solve :=
  fwd; repeat match goal with |- _ ∧ _ => split | |- _ → _ => intro | |- ∀ _, _ => intro end;
  fwd; try congruence;
  try first
    [ solve [eauto 3]
    | solve [left; prop_solve]
    | solve [right; prop_solve]
    | match goal with x : ?A |- ∃ _ : ?A, _ => solve [exists x; prop_solve] end
    | solve [eexists; prop_solve] ].

(** Decides a closed proposition by evaluation. *)
Ltac by_decide := apply (bool_decide_unpack _); vm_compute; exact I.

Create HintDb ccpp.

(** ** Lists *)

Lemma forall_snoc {A} (P : A → Prop) l x : Forall P l → P x → Forall P (l ++ [x]).
Proof. intros. apply Forall_app. split; [done|]. by constructor. Qed.

Section lists.
Context {A : Type}.
Implicit Types (l k : list A) (x : A).

(** The slice [begin, end) of a sequence, as the iterator pairs of the code. *)
Definition slice (b e : nat) l : list A := take (e - b) (drop b l).

Lemma slice_nil_range b l : slice b b l = [].
Proof. unfold slice. by rewrite Nat.sub_diag. Qed.

Lemma slice_full l : slice 0 (length l) l = l.
Proof. unfold slice. by rewrite Nat.sub_0_r, drop_0, firstn_all. Qed.

Lemma slice_length b e l : e ≤ length l → length (slice b e l) = e - b.
Proof. intros. unfold slice. rewrite length_take, length_drop. lia. Qed.

Lemma slice_app b m e l : b ≤ m → m ≤ e → slice b m l ++ slice m e l = slice b e l.
Proof.
  intros. unfold slice.
  replace (e - b) with ((m - b) + (e - m)) by lia.
  rewrite <- take_take_drop, drop_drop. by replace (b + (m - b)) with m by lia.
Qed.

Lemma slice_to_end b l : slice b (length l) l = drop b l.
Proof. unfold slice. apply take_ge. rewrite length_drop. lia. Qed.

Lemma StronglySorted_filter (R : relation A) (P : A → Prop) `{!∀ x, Decision (P x)} l :
  StronglySorted R l → StronglySorted R (filter P l).
Proof.
  induction 1 as [|x l Hl IH Hx]; [constructor|]. rewrite filter_cons. case_decide; [|done].
  constructor; [done|]. rewrite Forall_forall in *. intros y [_ ?]%list_elem_of_filter. auto.
Qed.

Lemma filter_all (P : A → Prop) `{!∀ x, Decision (P x)} l : (∀ x, x ∈ l → P x) → filter P l = l.
Proof.
  induction l as [|x l IH]; intros HP; [done|].
  rewrite filter_cons_True by set_solver. f_equal. set_solver.
Qed.

Lemma filter_none (P : A → Prop) `{!∀ x, Decision (P x)} l : (∀ x, x ∈ l → ¬ P x) → filter P l = [].
Proof.
  induction l as [|x l IH]; intros HP; [done|].
  rewrite filter_cons_False by set_solver. set_solver.
Qed.

Lemma filter_ext_in (P Q : A → Prop) `{!∀ x, Decision (P x), !∀ x, Decision (Q x)} l :
  (∀ x, x ∈ l → (P x ↔ Q x)) → filter P l = filter Q l.
Proof.
  induction l as [|x l IH]; intros HPQ; [done|]. rewrite !filter_cons, IH by set_solver.
  repeat case_decide; set_solver.
Qed.

Lemma StronglySorted_impl (R R' : relation A) l :
  (∀ x y, x ∈ l → y ∈ l → R x y → R' x y) → StronglySorted R l → StronglySorted R' l.
Proof.
  intros HR Hl. induction Hl as [|x l Hl IH Hx]; constructor.
  - apply IH. set_solver.
  - rewrite Forall_forall in *. set_solver.
Qed.
(** How many elements of a list have a property, after an update. *)
Lemma filter_insert_length (P : A → Prop) `{!∀ x, Decision (P x)} l i x y :
  l !! i = Some x →
  length (filter P (<[i := y]> l)) + (if decide (P x) then 1 else 0) =
  length (filter P l) + (if decide (P y) then 1 else 0).
Proof.
  intros Hi. rewrite (insert_take_drop l i y) by (by eapply lookup_lt_Some).
  rewrite <- (take_drop_middle l i x Hi) at 3. rewrite !filter_app, !length_app, !filter_cons.
  repeat case_decide; simpl; lia.
Qed.

Lemma alter_as_insert (f : A → A) l i x : l !! i = Some x → alter f i l = <[i := f x]> l.
Proof.
  intros Hx. apply list_eq. intros j. destruct (decide (j = i)) as [->|].
  - rewrite list_lookup_alter_eq, Hx. simpl. rewrite list_lookup_insert_eq; [done|].
    by eapply lookup_lt_Some.
  - by rewrite list_lookup_alter_ne, list_lookup_insert_ne.
Qed.
End lists.

(** Occurrences: equations between lists up to order become arithmetic. *)
Section occurrences.
Context {A : Type} `{!EqDecision A}.
Implicit Types (l k : list A) (x : A).

Definition occ x l : nat := count_occ (decide_rel (=)) l x.

Lemma occ_nil x : occ x [] = 0.
Proof. done. Qed.
Lemma occ_app x l k : occ x (l ++ k) = occ x l + occ x k.
Proof. apply count_occ_app. Qed.
Lemma occ_cons x y l : occ x (y :: l) = occ x [y] + occ x l.
Proof. apply (occ_app x [y] l). Qed.
Lemma occ_perm l k : (∀ x, occ x l = occ x k) ↔ l ≡ₚ k.
Proof. symmetry. apply Permutation_count_occ. Qed.
Lemma occ_pos x l : 0 < occ x l ↔ x ∈ l.
Proof. rewrite list_elem_of_In. symmetry. apply count_occ_In. Qed.
Lemma occ_self x : occ x [x] = 1.
Proof. unfold occ. simpl. by destruct (decide_rel _ x x). Qed.
Lemma occ_singleton x y : occ x [y] = if decide (x = y) then 1 else 0.
Proof. unfold occ. simpl. destruct (decide_rel _ y x), (decide (x = y)); congruence. Qed.

Lemma occ_concat_insert {B} (f : B → list A) (bs : list B) i b b' x :
  bs !! i = Some b →
  occ x (concat (f <$> <[i := b']> bs)) + occ x (f b) = occ x (concat (f <$> bs)) + occ x (f b').
Proof.
  intros Hi. rewrite (insert_take_drop bs i b') by (by eapply lookup_lt_Some).
  rewrite <- (take_drop_middle bs i b Hi) at 3.
  rewrite !fmap_app, !fmap_cons, !concat_app. simpl. rewrite !occ_app. lia.
Qed.
Lemma occ_concat_snoc {B} (f : B → list A) (bs : list B) b x :
  occ x (concat (f <$> (bs ++ [b]))) = occ x (concat (f <$> bs)) + occ x (f b).
Proof. rewrite fmap_app, concat_app. simpl. rewrite app_nil_r. apply occ_app. Qed.
End occurrences.
Arguments occ : simpl never.

(** Equations between occurrences. *)
Ltac occ_lia := intros; rewrite ?occ_app, ?occ_nil in *; lia.

Lemma filter_remove_perm `{EqDecision A} (x : A) (l : list A) :
  NoDup l → x ∈ l → l ≡ₚ x :: filter (λ y, y ≠ x) l.
Proof.
  induction 1 as [|y l Hy Hl IH]; intros Hx; [by apply elem_of_nil in Hx|].
  rewrite filter_cons. destruct (decide (y ≠ x)) as [Hne|Heq].
  - apply elem_of_cons in Hx as [->|Hx]; [done|]. rewrite (IH Hx) at 1. apply Permutation_swap.
  - assert (y = x) as -> by (by destruct (decide (y = x))). f_equiv. rewrite filter_all; [done|].
    intros z Hz ->. done.
Qed.

(** In a list without duplicates an element splits it in one way. *)
Lemma NoDup_app_cons_eq {A} (l1 l2 k1 k2 : list A) x :
  NoDup (l1 ++ x :: l2) → l1 ++ x :: l2 = k1 ++ x :: k2 → l1 = k1 ∧ l2 = k2.
Proof.
  revert k1. induction l1 as [|y l1 IH]; intros [|z k1] Hnd Heq; simplify_eq/=.
  - done.
  - apply NoDup_cons in Hnd as [Hx _]. set_solver.
  - apply NoDup_cons in Hnd as [Hx _]. set_solver.
  - apply NoDup_cons in Hnd as [_ Hnd]. destruct (IH k1); naive_solver.
Qed.

Lemma filter_fmap_list {A B} (f : A → B) (P : B → Prop) `{!∀ x, Decision (P x)} (l : list A) :
  filter P (f <$> l) = f <$> filter (λ x, P (f x)) l.
Proof. induction l as [|x l IH]; csimpl; [done|]. rewrite !filter_cons. repeat case_decide; csimpl; by rewrite ?IH. Qed.

#[export] Hint Resolve slice_length : ccpp.

(** ** Transition systems

    A component whose operations interleave is given by its initial states and
    its step relation; [reachable] is the least set closed under steps. *)
Section sts.
Context {S : Type} (init : S → Prop) (step : S → S → Prop).

Definition reachable (s : S) : Prop := ∃ s0, init s0 ∧ rtc step s0 s.

Lemma reachable_init s : init s → reachable s.
Proof. exists s. split; [done | apply rtc_refl]. Qed.

Lemma reachable_step s s' : reachable s → step s s' → reachable s'.
Proof. intros (s0 & ? & ?) ?. exists s0. eauto using rtc_r. Qed.

Lemma reachable_inv (I : S → Prop) :
  (∀ s, init s → I s) → (∀ s s', I s → step s s' → I s') →
  ∀ s, reachable s → I s.
Proof.
  intros Hi Hs s (s0 & H0 & Hsteps). apply Hi in H0.
  induction Hsteps as [|s1 s2 s3 ? _ IH]; eauto.
Qed.
End sts.

Section rtc_stable.
Context {S : Type}.

Definition stable (R : S → S → Prop) (P : S → Prop) : Prop := ∀ s s', P s → R s s' → P s'.

Lemma stable_rtc R P s s' : stable R P → rtc R s s' → P s → P s'.
Proof. intros Hst Hr. induction Hr as [|s1 s2 s3 ? _ IH]; eauto. Qed.

Lemma stable_and R P Q : stable R P → stable R Q → stable R (λ s, P s ∧ Q s).
Proof. unfold stable. naive_solver. Qed.

Lemma stable_True R : stable R (λ _, True).
Proof. done. Qed.
End rtc_stable.
#[export] Hint Resolve stable_and stable_True : ccpp.
