(* ===== verification/Conc.v ===== *)
(** * Threads that share memory

    The C++ code synchronises with atomics, mutexes, semaphores and condition
    variables.  A piece of such code is a [prog]: a tree of atomic accesses to
    a shared state [S].  The code between locking and unlocking a
    [std::mutex] is one access, and so is every operation on a [std::atomic];
    memory orders weaker than sequential consistency are not modelled.
    [exec] runs one access of one thread, so a list of thread numbers is a
    schedule, and schedules can be evaluated.

    [safe] is a rely/guarantee judgement on such programs, and [rg_sound] shows
    that programs that satisfy it under compatible guarantees have no fault but
    those of [X] in any interleaving, that a thread is only ever blocked in a state its [W]
    allows, and that a finished thread has its postcondition. *)

From S2P Require Import Prelude.
From stdpp Require Import options.

(** What goes wrong in a C++ program without an exception: an [assert] that
    fails, an access to memory that was deleted (or a second deletion), a
    resumption of a coroutine that is not suspended, a notification of an atomic
    that was deleted, a [release] of a semaphore over its maximum, a null
    dereference, a signed overflow, an index or pointer out of bounds, an exception
    that leaves a thread.  [out_of_fuel] is not a fault of the code: a retry loop is unrolled a fixed number of times, and a proof that a
    program does not fault shows that the number is large enough. *)
Inductive fault : Type :=
  | assert_failed
  | use_after_free
  | notify_after_free
  | bad_resume
  | semaphore_overflow
  | null_deref
  | signed_overflow
  | out_of_bounds
  | uncaught_exception
  | out_of_fuel.

Inductive access (S B : Type) : Type :=
  | Done (b : B) (s : S)
  | Block
  | Fault (f : fault).
Arguments Done {S B} b s.
Arguments Block {S B}.
Arguments Fault {S B} f.

(** [release()] of a [std::binary_semaphore] whose count is [n].  The standard leaves it
    undefined when the count is one, the maximum, already; implementations count on or
    stay at one, and here any positive number, [S c], may come of it. *)
Definition binary_release (c n : nat) : nat := match n with 0 => 1 | S _ => S c end.

Lemma binary_release_pos c n : 1 ≤ binary_release c n.
Proof. destruct n; simpl; lia. Qed.

(** [act f k] performs the access [f]; [pick k] lets the environment decide
    (a timeout that fires or not, a spurious failure of a weak exchange). *)
Inductive prog (S A : Type) : Type :=
  | ret (a : A)
  | act (B : Type) (f : S → access S B) (k : B → prog S A)
  | pick (k : bool → prog S A).
Arguments ret {S A} a.
Arguments act {S A B} f k.
Arguments pick {S A} k.

Fixpoint bind {S A B} (p : prog S A) (k : A → prog S B) : prog S B :=
  match p with
  | ret a => k a
  | act f k' => act f (λ b, bind (k' b) k)
  | pick k' => pick (λ b, bind (k' b) k)
  end.

Declare Scope prog_scope.
Delimit Scope prog_scope with prog.
Bind Scope prog_scope with prog.
Notation "x <-- p ;; q" := (bind p (λ x, q))
  (at level 62, p at next level, right associativity) : prog_scope.
Notation "p ;;; q" := (bind p (λ _, q))
  (at level 62, right associativity) : prog_scope.

(** One access as a program. *)
Definition step_of {S B} (f : S → access S B) : prog S B := act f ret.
Definition choose {S} : prog S bool := pick ret.

(** ** Schedules *)

Abbreviation pool S A := (list (prog S A)).

Section exec.
Context {S A : Type}.
Implicit Types (ts : pool S A) (s : S).

Definition exec (d : nat * bool) (c : pool S A * S) : option ((pool S A * S) + fault) :=
  match c.1 !! d.1 with
  | Some (act f k) =>
      match f c.2 with
      | Done b s' => Some (inl (<[d.1 := k b]> c.1, s'))
      | Block => None
      | Fault e => Some (inr e)
      end
  | Some (pick k) => Some (inl (<[d.1 := k d.2]> c.1, c.2))
  | _ => None
  end.

Inductive pstep : pool S A * S → pool S A * S → Prop :=
  | pstep_exec d c c' : exec d c = Some (inl c') → pstep c c'.

Inductive pfault : pool S A * S → fault → Prop :=
  | pfault_exec d c e : exec d c = Some (inr e) → pfault c e.

(** A schedule that does not fault nor block: the configuration it ends in. *)
Fixpoint run_schedule (ds : list (nat * bool)) (c : pool S A * S) : option ((pool S A * S) + fault) :=
  match ds with
  | [] => Some (inl c)
  | d :: ds =>
      match exec d c with
      | Some (inl c') => run_schedule ds c'
      | r => r
      end
  end.

Lemma run_schedule_steps ds c c' :
  run_schedule ds c = Some (inl c') → rtc pstep c c'.
Proof.
  revert c. induction ds as [|d ds IH]; intros c Hr; simplify_eq/=; [done|].
  destruct (exec d c) as [[c1|]|] eqn:He; simplify_eq.
  eapply rtc_l; [by econstructor|eauto].
Qed.

Lemma run_schedule_fault ds c e :
  run_schedule ds c = Some (inr e) → ∃ c', rtc pstep c c' ∧ pfault c' e.
Proof.
  revert c. induction ds as [|d ds IH]; intros c Hr; simplify_eq/=.
  destruct (exec d c) as [[c1|]|] eqn:He; simplify_eq.
  - destruct (IH _ Hr) as (c' & ? & ?). exists c'. split; [|done].
    eapply rtc_l; [by econstructor|done].
  - exists c. split; [done|by econstructor].
Qed.

(** Thread [i] is blocked: its next access has to wait. *)
Definition blocked (i : nat) (c : pool S A * S) : Prop :=
  ∃ B (f : S → access S B) k, c.1 !! i = Some (act f k) ∧ f c.2 = Block.

Definition finished (i : nat) (c : pool S A * S) : Prop := ∃ a, c.1 !! i = Some (ret a).

(** The same, executable. *)
Definition is_blocked (i : nat) (c : pool S A * S) : bool :=
  match c.1 !! i with
  | Some (act f k) => match f c.2 with Block => true | _ => false end
  | _ => false
  end.
Definition is_finished (i : nat) (c : pool S A * S) : bool :=
  match c.1 !! i with Some (ret _) => true | _ => false end.

Lemma is_blocked_spec i c : is_blocked i c = true → blocked i c.
Proof.
  unfold is_blocked, blocked. destruct (c.1 !! i) as [[|B f k|]|]; try done.
  destruct (f c.2) eqn:?; try done. eauto 6.
Qed.
Lemma is_finished_spec i c : is_finished i c = true → finished i c.
Proof. unfold is_finished, finished. destruct (c.1 !! i) as [[| |]|]; naive_solver. Qed.

(** Nothing can happen any more: every thread is finished or blocked. *)
Definition is_stuck (c : pool S A * S) : bool :=
  forallb (λ i, is_blocked i c || is_finished i c) (seq 0 (length c.1)).

Lemma is_stuck_spec c : is_stuck c = true → ∀ c', ¬ pstep c c'.
Proof.
  unfold is_stuck. rewrite forallb_forall. intros Hs c' Hc.
  destruct Hc as [[i b] c c' He]. unfold exec in He; simpl in He.
  destruct (c.1 !! i) as [p|] eqn:Hi; [|done].
  specialize (Hs i). rewrite in_seq in Hs.
  pose proof (lookup_lt_Some _ _ _ Hi) as Hlt. specialize (Hs ltac:(lia)).
  unfold is_blocked, is_finished in Hs. rewrite Hi in Hs.
  destruct p as [|B f k|]; [done| |done]. by destruct (f c.2).
Qed.

(** A schedule whose last configuration passes a test. *)
Definition run_check (ds : list (nat * bool)) (c : pool S A * S) (φ : pool S A * S → bool) : bool :=
  match run_schedule ds c with Some (inl c') => φ c' | _ => false end.

Lemma run_check_spec ds c φ : run_check ds c φ = true → ∃ c', rtc pstep c c' ∧ φ c' = true.
Proof.
  unfold run_check. destruct (run_schedule ds c) as [[c'|]|] eqn:Hr; try done.
  intros. exists c'. split; [by eapply run_schedule_steps|done].
Qed.
End exec.

(** ** Rely and guarantee

    [X]: the faults that are accepted. *)

Section safe.
Context {S : Type} (E G : S → S → Prop) (W : S → Prop) (X : fault → S → Prop).

Fixpoint safe {A} (p : prog S A) (Q : A → S → Prop) (s : S) : Prop :=
  match p with
  | ret a => ∀ s', rtc E s s' → Q a s'
  | act f k => ∀ s', rtc E s s' →
      match f s' with
      | Done b s'' => G s' s'' ∧ safe (k b) Q s''
      | Block => W s'
      | Fault e => X e s'
      end
  | pick k => ∀ b, safe (k b) Q s
  end.

Lemma safe_rely {A} (p : prog S A) Q s s' : safe p Q s → rtc E s s' → safe p Q s'.
Proof.
  revert s s'. induction p as [a|B f k IH|k IH]; intros s s' Hp Hs; simpl in *.
  - intros. apply Hp. by etrans.
  - intros. apply Hp. by etrans.
  - eauto.
Qed.

Lemma safe_mono {A} (p : prog S A) (Q Q' : A → S → Prop) s :
  (∀ a s', Q a s' → Q' a s') → safe p Q s → safe p Q' s.
Proof.
  intros HQ. revert s. induction p as [a|B f k IH|k IH]; intros s Hp; simpl in *.
  - eauto.
  - intros s' Hs. specialize (Hp s' Hs). destruct (f s'); naive_solver.
  - eauto.
Qed.

Lemma safe_bind {A B} (p : prog S A) (k : A → prog S B) Q s :
  safe p (λ a, safe (k a) Q) s → safe (bind p k) Q s.
Proof.
  revert s. induction p as [a|C f k' IH|k' IH]; intros s Hp; simpl in *.
  - by apply Hp.
  - intros s' Hs. specialize (Hp s' Hs). destruct (f s'); naive_solver.
  - eauto.
Qed.

(** The rule for one access: an assertion [P] that holds now and that the
    other threads keep. *)
Lemma safe_act {A B} (P : S → Prop) (f : S → access S B) (k : B → prog S A) Q s :
  stable E P → P s →
  (∀ s', P s' →
     match f s' with
     | Done b s'' => G s' s'' ∧ safe (k b) Q s''
     | Block => W s'
     | Fault e => X e s'
     end) →
  safe (act f k) Q s.
Proof. intros Hst HP Hk s' Hs. apply Hk. by eapply stable_rtc. Qed.

Lemma safe_ret {A} (a : A) (Q : A → S → Prop) s : stable E (Q a) → Q a s → safe (ret a) Q s.
Proof. intros Hst HQ s' Hs. by eapply stable_rtc. Qed.

Lemma safe_pick {A} (k : bool → prog S A) Q s : (∀ b, safe (k b) Q s) → safe (pick k) Q s.
Proof. done. Qed.

(** Triples, and their rules. *)
Definition triple {A} (P : S → Prop) (p : prog S A) (Q : A → S → Prop) : Prop :=
  ∀ s, P s → safe p Q s.

Lemma triple_step {B} P (f : S → access S B) (Q : B → S → Prop) :
  stable E P → (∀ b, stable E (Q b)) →
  (∀ s, P s → match f s with Done b s' => G s s' ∧ Q b s' | Block => W s | Fault e => X e s end) →
  triple P (step_of f) Q.
Proof.
  intros HP HQ Hf s Hs. apply (safe_act P); [done..|]. intros s' Hs'.
  specialize (Hf s' Hs'). destruct (f s'); [|done..]. destruct Hf. eauto using safe_ret.
Qed.

Lemma triple_ret {A} (P : S → Prop) (a : A) (Q : A → S → Prop) :
  stable E (Q a) → (∀ s, P s → Q a s) → triple P (ret a) Q.
Proof. intros HQ HPQ s Hs. apply safe_ret; auto. Qed.

Lemma triple_bind {A B} P (p : prog S A) (k : A → prog S B) R Q :
  triple P p R → (∀ a, triple (R a) (k a) Q) → triple P (bind p k) Q.
Proof. intros Hp Hk s Hs. apply safe_bind. eapply safe_mono; [|by apply Hp]. intros. by apply Hk. Qed.

Lemma triple_pick {A} P (k : bool → prog S A) Q : (∀ b, triple P (k b) Q) → triple P (pick k) Q.
Proof. intros Hk s Hs. apply safe_pick. intros b. by apply Hk. Qed.

Lemma triple_conseq {A} (P P' : S → Prop) (p : prog S A) (Q Q' : A → S → Prop) :
  triple P' p Q' → (∀ s, P s → P' s) → (∀ a s, Q' a s → Q a s) → triple P p Q.
Proof. intros Hp HP HQ s Hs. eapply safe_mono; [apply HQ|]. by apply Hp, HP. Qed.

Lemma triple_or {A} (P P' : S → Prop) (p : prog S A) Q :
  triple P p Q → triple P' p Q → triple (λ s, P s ∨ P' s) p Q.
Proof. intros ? ? s [?|?]; auto. Qed.

Lemma triple_pure {A} (φ : Prop) (P : S → Prop) (p : prog S A) Q :
  (φ → triple P p Q) → triple (λ s, φ ∧ P s) p Q.
Proof. intros Hp s [??]. by apply Hp. Qed.
End safe.

(** Thread [i] runs under the guarantees [G j] of the others. *)
Definition rely {S} (G : nat → S → S → Prop) (i : nat) (s s' : S) : Prop := ∃ j, j ≠ i ∧ G j s s'.

Section sound.
Context {S A : Type} (G : nat → S → S → Prop) (W : nat → S → Prop) (X : nat → fault → S → Prop) (Q : nat → A → S → Prop).

Definition pool_safe (c : pool S A * S) : Prop :=
  ∀ i p, c.1 !! i = Some p → safe (rely G i) (G i) (W i) (X i) p (Q i) c.2.

Lemma exec_safe d c c' : pool_safe c → exec d c = Some (inl c') → pool_safe c'.
Proof.
  destruct c as [ts s], d as [i b0]. unfold exec, pool_safe; simpl. intros Hs He.
  destruct (ts !! i) as [[a|B f k|k]|] eqn:Hi; simplify_eq.
  - pose proof (Hs _ _ Hi s (rtc_refl _ s)) as Hf.
    destruct (f s) as [b s'| |]; simplify_eq/=. destruct Hf as [HG Hk]. intros j p Hj.
    destruct (decide (i = j)) as [->|Hne].
    + rewrite list_lookup_insert_eq in Hj by (by eapply lookup_lt_Some). by simplify_eq.
    + rewrite list_lookup_insert_ne in Hj by done.
      eapply safe_rely; [by apply Hs|]. apply rtc_once. by exists i.
  - simpl. intros j p Hj. pose proof (Hs _ _ Hi) as Hk; simpl in Hk.
    destruct (decide (i = j)) as [->|Hne].
    + rewrite list_lookup_insert_eq in Hj by (by eapply lookup_lt_Some). by simplify_eq.
    + rewrite list_lookup_insert_ne in Hj by done. by apply Hs.
Qed.

Lemma exec_fault d c e : pool_safe c → exec d c = Some (inr e) → X d.1 e c.2.
Proof.
  destruct c as [ts s], d as [i b0]. unfold exec, pool_safe; simpl. intros Hs He.
  destruct (ts !! i) as [[a|B f k|k]|] eqn:Hi; simplify_eq.
  pose proof (Hs _ _ Hi s (rtc_refl _ s)) as Hf. by destruct (f s); simplify_eq/=.
Qed.

Lemma steps_safe c c' : pool_safe c → rtc pstep c c' → pool_safe c'.
Proof.
  intros Hc Hs. induction Hs as [|c c1 c' [d ? ? He] _ IH]; [done|]. eauto using exec_safe.
Qed.

(** Soundness of the judgement over every interleaving. *)
Lemma rg_sound c c' :
  pool_safe c → rtc pstep c c' →
  (∀ d e, exec d c' = Some (inr e) → X d.1 e c'.2) ∧
  (∀ i, blocked i c' → W i c'.2) ∧
  (∀ i a, c'.1 !! i = Some (ret a) → Q i a c'.2).
Proof.
  intros Hc Hs. pose proof (steps_safe _ _ Hc Hs) as Hc'. split_and!.
  - intros d e. by apply exec_fault.
  - intros i (B & f & k & Hi & Hb).
    pose proof (Hc' _ _ Hi _ (rtc_refl _ _)) as Hf. by rewrite Hb in Hf.
  - intros i a Hi. exact (Hc' _ _ Hi _ (rtc_refl _ _)).
Qed.
End sound.

(** ** Runs are finite

    A program is a finite tree, and every access moves one thread to a subtree. *)
Section finite.
Context {S A : Type}.

Definition subprog (q p : prog S A) : Prop :=
  match p with
  | ret _ => False
  | act f k => ∃ b, q = k b
  | pick k => ∃ b, q = k b
  end.

Lemma subprog_wf : well_founded subprog.
Proof. intros p. induction p; constructor; simpl; naive_solver. Qed.

Inductive subpool : pool S A → pool S A → Prop :=
  | subpool_insert i p q ts : ts !! i = Some p → subprog q p → subpool (<[i := q]> ts) ts.

Lemma subpool_inv ts' ts :
  subpool ts' ts → ∃ i p q, ts' = <[i := q]> ts ∧ ts !! i = Some p ∧ subprog q p.
Proof. destruct 1; eauto 6. Qed.

Lemma subpool_cons_acc p ts :
  Acc subprog p → Acc subpool ts → Acc subpool (p :: ts).
Proof.
  intros Hp. revert ts. induction Hp as [p _ IHp]. intros ts Hts.
  induction Hts as [ts Hts IHts]. constructor. intros ts' Hs.
  destruct (subpool_inv _ _ Hs) as ([|i] & p' & q & -> & Hi & Hq); simplify_eq/=.
  - apply IHp; [done|]. by constructor.
  - apply IHts. by econstructor.
Qed.

Lemma subpool_wf : well_founded subpool.
Proof.
  intros ts. induction ts as [|p ts IH].
  - constructor. by intros ts' (? & ? & ? & ? & ? & ?)%subpool_inv.
  - apply subpool_cons_acc; [apply subprog_wf|done].
Qed.

Lemma pstep_subpool (c c' : pool S A * S) : pstep c c' → subpool c'.1 c.1.
Proof.
  intros Hs. destruct Hs as [[i b] [ts s] c' He]. unfold exec in He; simpl in He.
  destruct (ts !! i) as [[a|B f k|k]|] eqn:Hi; simplify_eq.
  - destruct (f s); simplify_eq. econstructor; [done|by eexists].
  - econstructor; [done|by eexists].
Qed.

Lemma pstep_wf : well_founded (flip (pstep (S := S) (A := A))).
Proof.
  apply (wf_projected subpool fst); [|apply subpool_wf].
  intros c' c. apply pstep_subpool.
Qed.

Lemma steps_length (c c' : pool S A * S) : rtc pstep c c' → length c'.1 = length c.1.
Proof.
  induction 1 as [|c1 c2 c3 Hs _ ->]; [done|].
  apply pstep_subpool, subpool_inv in Hs as (? & ? & ? & -> & _). by rewrite length_insert.
Qed.
End finite.

(** A thread is finished, blocked, about to fault, or can take a step. *)
Lemma thread_cases {S A} i (c : pool S A * S) :
  i < length c.1 → finished i c ∨ blocked i c ∨ (∃ e, exec (i, true) c = Some (inr e)) ∨ ∃ c', pstep c c'.
Proof.
  intros [p Hp]%lookup_lt_is_Some. destruct p as [a|B f k|k].
  - left. by exists a.
  - destruct (f c.2) as [b s'| |e] eqn:Hf.
    + do 3 right. eexists. apply (pstep_exec (i, true)). unfold exec; simpl. by rewrite Hp, Hf.
    + right; left. by exists B, f, k.
    + do 2 right; left. exists e. unfold exec; simpl. by rewrite Hp, Hf.
  - do 3 right. eexists. apply (pstep_exec (i, true)). unfold exec; simpl. by rewrite Hp.
Qed.

(** ** Sequential code

    Code that runs under a lock, or on one thread, is a state transformer that
    may fault.  The notations of [stdpp]'s monads apply to it. *)
Definition comp (S A : Type) : Type := S → access S A.

#[global] Instance comp_ret S : MRet (comp S) := λ A a s, Done a s.
#[global] Instance comp_bind S : MBind (comp S) := λ A B k m s,
  match m s with Done a s' => k a s' | Block => Block | Fault f => Fault f end.

Definition get_state {S} : comp S S := λ s, Done s s.
Definition modify {S} (f : S → S) : comp S unit := λ s, Done tt (f s).
Definition abort_with {S A} (f : fault) : comp S A := λ _, Fault f.
(** A step that has to wait. *)
Definition block {S A} : comp S A := λ _, Block.
Definition assert {S} (b : bool) : comp S unit := if b then mret tt else abort_with assert_failed.

Lemma comp_bind_done {S A B} (m : comp S A) (k : A → comp S B) s a s' :
  m s = Done a s' → (m ≫= k) s = k a s'.
Proof. unfold mbind, comp_bind. by intros ->. Qed.

Lemma get_state_bind {S A} (k : S → comp S A) s : (get_state ≫= k) s = k s s.
Proof. done. Qed.

Lemma assert_bind {S A} (b : bool) (k : unit → comp S A) s : b = true → (assert b ≫= k) s = k tt s.
Proof. by intros ->. Qed.

(** Inversion of sequential code. *)
Lemma bind_done {S B C} (m : comp S B) (k : B → comp S C) s c s' :
  (m ≫= k) s = Done c s' → ∃ b s1, m s = Done b s1 ∧ k b s1 = Done c s'.
Proof. unfold mbind, comp_bind. destruct (m s); naive_solver. Qed.

Lemma bind_fault {S B C} (m : comp S B) (k : B → comp S C) s f :
  (m ≫= k) s = Fault f → m s = Fault f ∨ ∃ b s1, m s = Done b s1 ∧ k b s1 = Fault f.
Proof. unfold mbind, comp_bind. destruct (m s); naive_solver. Qed.

Lemma bind_block {S B C} (m : comp S B) (k : B → comp S C) s :
  (m ≫= k) s = Block → m s = Block ∨ ∃ b s1, m s = Done b s1 ∧ k b s1 = Block.
Proof. unfold mbind, comp_bind. destruct (m s); naive_solver. Qed.

Lemma assert_done {S} b u (s s' : S) : assert b s = Done u s' → b = true ∧ s' = s.
Proof. unfold assert, mret, comp_ret. destruct b; intros; by simplify_eq. Qed.

Lemma modify_done {S} (f : S → S) u (s s' : S) : modify f s = Done u s' → s' = f s.
Proof. unfold modify. intros. by simplify_eq. Qed.

(** Sequential code that does not fault, and what holds when it is done; it may
    have to wait. *)
Definition wp {S A} (m : comp S A) (Q : A → S → Prop) (s : S) : Prop :=
  match m s with Done a s' => Q a s' | Block => True | Fault _ => False end.

Section wp.
Context {S : Type}.
Implicit Types s : S.

Lemma wp_ret {A} (a : A) Q s : Q a s → wp (mret a) Q s.
Proof. done. Qed.
Lemma wp_bind {A B} (m : comp S A) (k : A → comp S B) Q s : wp m (λ a, wp (k a) Q) s → wp (m ≫= k) Q s.
Proof. unfold wp, mbind, comp_bind. by destruct (m s). Qed.
Lemma wp_mono {A} (m : comp S A) (Q Q' : A → S → Prop) s : (∀ a s', Q a s' → Q' a s') → wp m Q s → wp m Q' s.
Proof. unfold wp. destruct (m s); auto. Qed.
Lemma wp_assert b Q s : b = true → Q tt s → wp (assert b) Q s.
Proof. by intros ->. Qed.
Lemma wp_block {A} (Q : A → S → Prop) s : wp block Q s.
Proof. done. Qed.
Lemma wp_modify (f : S → S) Q s : Q tt (f s) → wp (modify f) Q s.
Proof. done. Qed.
Lemma wp_get Q s : Q s s → wp get_state Q s.
Proof. done. Qed.
(** What is known of a run that is done. *)
Lemma wp_done {A} (m : comp S A) (Q : A → S → Prop) s a s' : wp m Q s → m s = Done a s' → Q a s'.
Proof. unfold wp. intros H Hm. by rewrite Hm in H. Qed.
Lemma wp_no_fault {A} (m : comp S A) (Q : A → S → Prop) s f : wp m Q s → m s ≠ Fault f.
Proof. unfold wp. by destruct (m s). Qed.
Lemma wp_and_done {A} (m : comp S A) (P Q : A → S → Prop) s :
  (∀ a s', m s = Done a s' → P a s') → wp m Q s → wp m (λ a s', P a s' ∧ Q a s') s.
Proof. unfold wp. destruct (m s); auto. Qed.
Lemma wp_both {A} (m : comp S A) (P Q : A → S → Prop) s : wp m P s → wp m Q s → wp m (λ a s', P a s' ∧ Q a s') s.
Proof. unfold wp. destruct (m s); auto. Qed.
End wp.

(** Code that never has to wait. *)
Definition nonblocking {S A} (m : comp S A) : Prop := ∀ s, m s ≠ Block.

Lemma nonblocking_bind {S A B} (m : comp S A) (k : A → comp S B) :
  nonblocking m → (∀ a, nonblocking (k a)) → nonblocking (m ≫= k).
Proof. intros Hm Hk s [?|(a & s1 & _ & ?)]%bind_block; [by eapply Hm|by eapply Hk]. Qed.
Lemma nonblocking_ret {S A} (a : A) : nonblocking (S := S) (mret a).
Proof. done. Qed.
Lemma nonblocking_assert {S} b : nonblocking (S := S) (assert b).
Proof. by destruct b. Qed.
Lemma nonblocking_get {S} : nonblocking (S := S) get_state.
Proof. done. Qed.
Lemma nonblocking_modify {S} (f : S → S) : nonblocking (modify f).
Proof. done. Qed.
Lemma nonblocking_abort {S A} f : nonblocking (S := S) (A := A) (abort_with f).
Proof. done. Qed.
#[export] Hint Resolve nonblocking_bind nonblocking_ret nonblocking_assert nonblocking_get nonblocking_modify
  nonblocking_abort : ccpp.

Lemma wp_total {S A} (m : comp S A) (Q : A → S → Prop) s : nonblocking m → wp m Q s → ∃ r s', m s = Done r s' ∧ Q r s'.
Proof. unfold wp. intros Hm Hq. destruct (m s) as [r s'| |] eqn:E; [eauto|by destruct (Hm s)|done]. Qed.

(** The result of [m] is not used. *)
Lemma wp_keep {S A B} (m : comp S A) (b : B) (P : S → Prop) s : wp m (λ _, P) s → wp (m;; mret b) (λ _, P) s.
Proof. intros Hm. apply wp_bind. eapply wp_mono; [|exact Hm]. intros a s' HP. by apply wp_ret. Qed.

(** A list of steps, one after the other. *)
Fixpoint run_deeds {S D} (do_deed : D → comp S unit) (l : list D) (s : S) : option S :=
  match l with
  | [] => Some s
  | d :: l => match do_deed d s with Done _ s' => run_deeds do_deed l s' | _ => None end
  end.
Lemma run_deeds_reachable {S D} init step (do_deed : D → comp S unit) l s s' :
  (∀ d s s', do_deed d s = Done tt s' → step s s') → reachable init step s → run_deeds do_deed l s = Some s' → reachable init step s'.
Proof.
  intros Hstep. revert s. induction l as [|d l IH]; intros s Hs; simpl; [by intros [= <-]|].
  destruct (do_deed d s) as [[] s1| |] eqn:Hd; [|done..]. apply IH. eapply reachable_step; [exact Hs|by eapply Hstep].
Qed.

(** Through binds and case distinctions to the operations that are known. *)
Ltac solve_nonblocking :=
  repeat (intros; cbv beta iota; first
    [ solve [auto 2 with ccpp]
    | apply nonblocking_bind
    | match goal with |- nonblocking (match ?x with _ => _ end) => destruct x end ]).
