(* ===== verification/Text.v ===== *)
(** * Characters and [std::string]

    A [char] is a byte, signed when it is promoted to [int]; a [std::string] is
    a list of them.  What the network layer uses of [std::string], [<cctype>] and
    [std::to_string]. *)

From S2P Require Import Prelude.
From Stdlib Require Import Ascii.
From stdpp Require Import options.

Notation text := (list ascii).

Definition lit (s : string) : text := String.list_ascii_of_string s.

Definition CR : ascii := "013"%char.
Definition LF : ascii := "010"%char.
Definition SP : ascii := " "%char.
Definition HT : ascii := "009"%char.
Definition CRLF : text := [CR; LF].

(** ** Characters as integers *)

(** [static_cast<unsigned char>(c)], and [c] itself as an [int]. *)
Definition uchar (c : ascii) : Z := Z.of_N (N_of_ascii c).
Definition char_val (c : ascii) : Z := if (uchar c <? 128)%Z then uchar c else (uchar c - 256)%Z.
(** [static_cast<char>(z)] *)
Definition char_of (z : Z) : ascii := ascii_of_N (Z.to_N (z mod 256)).

Lemma uchar_range c : (0 ≤ uchar c < 256)%Z.
Proof. unfold uchar. pose proof (N_ascii_bounded c). lia. Qed.
Lemma char_of_uchar c : char_of (uchar c) = c.
Proof.
  unfold char_of. rewrite Z.mod_small by apply uchar_range. unfold uchar. rewrite N2Z.id. apply ascii_N_embedding.
Qed.
Lemma uchar_of z : uchar (char_of z) = (z mod 256)%Z.
Proof.
  unfold uchar, char_of. pose proof (Z.mod_pos_bound z 256). rewrite N_ascii_embedding by lia. lia.
Qed.
Lemma char_of_val c : char_of (char_val c) = c.
Proof.
  unfold char_val. destruct (Z.ltb_spec (uchar c) 128); [apply char_of_uchar|]. pose proof (uchar_range c).
  unfold char_of. replace ((uchar c - 256) mod 256)%Z with (uchar c mod 256)%Z; [apply char_of_uchar|].
  rewrite <- (Z_mod_plus_full (uchar c - 256) 1 256). f_equal. lia.
Qed.

(** ** [<cctype>], in the classic locale *)

Definition isspace (c : ascii) : bool := let z := uchar c in ((z =? 32) || ((9 <=? z) && (z <=? 13)))%Z.
Definition tolower (c : ascii) : ascii :=
  let z := uchar c in if ((65 <=? z) && (z <=? 90))%Z then char_of (z + 32) else c.
Definition isdigit (c : ascii) : bool := let z := char_val c in ((48 <=? z) && (z <=? 57))%Z.
Definition digit (c : ascii) : Z := (char_val c - 48)%Z.

(** ** [std::string] *)

Fixpoint starts_with (p s : text) : bool :=
  match p, s with
  | [], _ => true
  | _ :: _, [] => false
  | a :: p, b :: s => bool_decide (a = b) && starts_with p s
  end.

(** [s.find(p)] *)
Fixpoint find (p s : text) : option nat :=
  if starts_with p s then Some 0 else
  match s with
  | [] => None
  | _ :: s => S <$> find p s
  end.

(** [s.rfind(c)], which is [s.find_last_of(c)] for a single character. *)
Fixpoint rfind (c : ascii) (s : text) : option nat :=
  match s with
  | [] => None
  | a :: s =>
      match rfind c s with
      | Some i => Some (S i)
      | None => if decide (a = c) then Some 0 else None
      end
  end.

Definition substr (pos n : nat) (s : text) : text := take n (drop pos s).

(** Both ends without white space. *)
Definition drop_space : text → text :=
  fix go s := match s with c :: s' => if isspace c then go s' else s | [] => [] end.
Definition trim (s : text) : text := rev (drop_space (rev (drop_space s))).

Lemma starts_with_spec p s : starts_with p s = true ↔ ∃ k, s = p ++ k.
Proof.
  revert s. induction p as [|a p IH]; intros s; simpl; [split; [by eexists|done]|]. destruct s as [|b s].
  - split; [done|]. by intros [k ?].
  - rewrite andb_true_iff, bool_decide_eq_true, IH. split.
    + intros [-> [k ->]]. by exists k.
    + intros [k [= -> ->]]. eauto.
Qed.

Lemma find_some p s i : find p s = Some i → ∃ k k', s = k ++ p ++ k' ∧ length k = i.
Proof.
  revert i. induction s as [|a s IH]; intros i; simpl.
  - destruct (starts_with p []) eqn:E; [|done]. intros [= <-]. apply starts_with_spec in E as [k E]. by exists [], k.
  - destruct (starts_with p (a :: s)) eqn:E.
    + intros [= <-]. apply starts_with_spec in E as [k E]. by exists [], k.
    + destruct (find p s) as [j|] eqn:Hj; simpl; [|done]. intros [= <-]. destruct (IH j eq_refl) as (k & k' & -> & <-).
      by exists (a :: k), k'.
Qed.

Lemma find_none p s : find p s = None ↔ ∀ k k', s ≠ k ++ p ++ k'.
Proof.
  induction s as [|a s IH]; simpl.
  - destruct (starts_with p []) eqn:E.
    + apply starts_with_spec in E as [k Hk]. split; [done|]. intros H. by destruct (H [] k).
    + split; [|done]. intros _ k k' Hk. symmetry in Hk. apply app_eq_nil in Hk as [-> Hk]. apply app_eq_nil in Hk as [-> ->].
      done.
  - destruct (starts_with p (a :: s)) eqn:E.
    + apply starts_with_spec in E as [k Hk]. split; [done|]. intros H. by destruct (H [] k).
    + rewrite fmap_None, IH. split.
      * intros H [|b k] k' Hk; [|injection Hk as -> Hk; by apply (H k k')].
        assert (starts_with p (a :: s) = true); [|congruence]. apply starts_with_spec. by exists k'.
      * intros H k k' ->. by apply (H (a :: k) k').
Qed.

(** The first occurrence, when the first character of [p] does not come before. *)
Lemma find_app a p k k' : a ∉ k → find (a :: p) (k ++ (a :: p) ++ k') = Some (length k).
Proof.
  induction k as [|b k IH]; intros Ha.
  - simpl. rewrite bool_decide_true by done. simpl. assert (starts_with p (p ++ k') = true) as -> by (apply starts_with_spec; eauto).
    done.
  - apply not_elem_of_cons in Ha as [Hab Ha]. simpl. rewrite bool_decide_false by done. simpl.
    change (a :: p ++ k') with ((a :: p) ++ k'). by rewrite (IH Ha).
Qed.
Lemma find_cons p a s : starts_with p (a :: s) = false → find p (a :: s) = S <$> find p s.
Proof. intros H. cbn [find]. by rewrite H. Qed.
Lemma find_skip a p k s : a ∉ k → find (a :: p) (k ++ s) = (λ i, length k + i) <$> find (a :: p) s.
Proof.
  intros Ha. induction k as [|b k IH]; cbn [app length]; [by destruct (find _ s)|]. apply not_elem_of_cons in Ha as [Hb Hk].
  cbn [find starts_with]. rewrite bool_decide_false by done. cbn [andb]. rewrite (IH Hk). by destruct (find _ s).
Qed.
Lemma find_absent a p s : a ∉ s → find (a :: p) s = None.
Proof. intros Ha. apply find_none. intros k k' ->. set_solver. Qed.

Lemma starts_with_app p s x : starts_with p s = true → starts_with p (s ++ x) = true.
Proof. rewrite !starts_with_spec. intros [k ->]. exists (k ++ x). by rewrite app_assoc. Qed.
Lemma starts_with_long p s x : length p ≤ length s → starts_with p (s ++ x) = starts_with p s.
Proof.
  revert s. induction p as [|a p IH]; intros s Hl; [done|]. destruct s as [|b s]; simpl in *; [lia|]. f_equal. apply IH. lia.
Qed.

(** What comes after the first occurrence does not matter. *)
Lemma find_mono p s x i : find p s = Some i → find p (s ++ x) = Some i.
Proof.
  revert i. induction s as [|a s IH]; intros i.
  - simpl. destruct (starts_with p []) eqn:E; [|done]. intros [= <-]. destruct p; [|done]. by destruct x.
  - simpl. destruct (starts_with p (a :: s)) eqn:E.
    + intros [= <-]. pose proof (starts_with_app _ _ x E) as E'. simpl in E'. by rewrite E'.
    + destruct (find p s) as [j|] eqn:Hj; simpl; [|done]. intros [= <-]. pose proof (IH j eq_refl) as ->. simpl.
      destruct (find_some p s j Hj) as (k & k' & -> & _). change (a :: (k ++ p ++ k') ++ x) with ((a :: k ++ p ++ k') ++ x).
      rewrite starts_with_long, E; [done|]. simpl. rewrite !length_app. lia.
Qed.

(** A prefix that has the delimiter has all that comes before it. *)
Lemma find_prefix p k r s x :
  s ++ x = k ++ p ++ r → find p (k ++ p ++ r) = Some (length k) → find p s ≠ None → ∃ b, s = k ++ p ++ b ∧ r = b ++ x.
Proof.
  intros Hs Hf Hn. destruct (find p s) as [i|] eqn:Hi; [|done]. pose proof (find_mono p s x i Hi) as Hm. rewrite Hs, Hf in Hm.
  injection Hm as Hm. subst i. destruct (find_some p s _ Hi) as (k' & b & -> & Hl).
  rewrite <- !app_assoc in Hs. apply app_inj_1 in Hs as [-> Hs]; [|done]. apply app_inv_head in Hs. by exists b.
Qed.

Lemma rfind_absent c s : c ∉ s → rfind c s = None.
Proof. induction s as [|a s IH]; simpl; [done|]. intros [Hc Hs]%not_elem_of_cons. rewrite (IH Hs). by rewrite decide_False. Qed.
Lemma rfind_app c k k' : c ∉ k' → rfind c (k ++ c :: k') = Some (length k).
Proof.
  intros Hc. induction k as [|a k IH]; simpl; [by rewrite rfind_absent, decide_True by done|]. by rewrite IH.
Qed.
Lemma rfind_some c s i : rfind c s = Some i → ∃ k k', s = k ++ c :: k' ∧ length k = i ∧ c ∉ k'.
Proof.
  revert i. induction s as [|a s IH]; intros i; simpl; [done|]. destruct (rfind c s) as [j|] eqn:Hj.
  - intros [= <-]. destruct (IH j eq_refl) as (k & k' & -> & <- & ?). by exists (a :: k), k'.
  - case_decide; [|done]. intros [= <-]. subst a. exists [], s. split_and!; [done..|].
    clear IH. induction s as [|b s IH]; [by intros ?%elem_of_nil|]. simpl in Hj. destruct (rfind c s); [done|]. case_decide; [done|].
    apply not_elem_of_cons. split; [done|]. by apply IH.
Qed.

Lemma drop_space_id s : Forall (λ c, isspace c = false) s → drop_space s = s.
Proof. destruct 1 as [|c s Hc _]; [done|]. simpl. by rewrite Hc. Qed.
Lemma trim_id s : Forall (λ c, isspace c = false) s → trim s = s.
Proof. intros Hs. unfold trim. rewrite (drop_space_id s Hs), drop_space_id by by apply Forall_rev. apply rev_involutive. Qed.

Lemma substr_to_end i (s : text) : substr i (length s) s = drop i s.
Proof. unfold substr. apply take_ge. rewrite length_drop. lia. Qed.

(** ** Decimal numerals *)

Definition digit_char (d : N) : ascii := char_of (48 + Z.of_N d).

Fixpoint dec_digits (fuel : nat) (n : N) : list N :=
  match fuel with
  | 0 => [n]
  | S k => if (n <? 10)%N then [n] else dec_digits k (n / 10) ++ [(n mod 10)%N]
  end.

(** [std::to_string] of an unsigned number: the digits are fewer than the bits. *)
Definition to_string (n : N) : text := digit_char <$> dec_digits (N.to_nat (N.size n)) n.

(** The value of a numeral, from the left. *)
Definition dec_value (s : text) : Z := foldl (λ v c, v * 10 + digit c)%Z 0%Z s.

Lemma digit_char_val d : (d < 10)%N → char_val (digit_char d) = (48 + Z.of_N d)%Z.
Proof.
  intros Hd. unfold char_val, digit_char. rewrite uchar_of, Z.mod_small by lia. by destruct (Z.ltb_spec (48 + Z.of_N d) 128); [|lia].
Qed.

Lemma dec_digits_spec fuel n :
  (n < 2 ^ N.of_nat fuel)%N →
  Forall (λ d, d < 10)%N (dec_digits fuel n) ∧ dec_digits fuel n ≠ [] ∧
  foldl (λ v d, v * 10 + d)%N 0%N (dec_digits fuel n) = n.
Proof.
  revert n. induction fuel as [|k IH]; intros n Hn; simpl.
  - simpl in Hn. split_and!; [constructor; [lia|constructor]|done|lia].
  - destruct (N.ltb_spec n 10) as [Hs|Hs]; simpl.
    + split_and!; [by repeat constructor|done|lia].
    + destruct (IH (n / 10)%N) as (H1 & H2 & H3).
      { apply N.Div0.div_lt_upper_bound. rewrite Nat2N.inj_succ, N.pow_succ_r' in Hn. lia. }
      split_and!.
      * apply Forall_app. split; [done|]. constructor; [|constructor]. apply N.mod_lt. lia.
      * by destruct (dec_digits k (n / 10)).
      * rewrite foldl_app. simpl. rewrite H3. rewrite (N.div_mod' n 10) at 3. lia.
Qed.

Lemma to_string_digits n :
  ∃ ds, to_string n = digit_char <$> ds ∧ Forall (λ d, d < 10)%N ds ∧ ds ≠ [] ∧ foldl (λ v d, v * 10 + d)%N 0%N ds = n.
Proof.
  eexists. split; [done|]. apply dec_digits_spec. rewrite N2Nat.id. apply N.size_gt.
Qed.

Lemma isdigit_char d : (d < 10)%N → isdigit (digit_char d) = true.
Proof. intros Hd. unfold isdigit. rewrite digit_char_val by done. lia. Qed.

Lemma dec_value_chars ds z :
  Forall (λ d, d < 10)%N ds →
  foldl (λ v c, v * 10 + digit c)%Z (Z.of_N z) (digit_char <$> ds) = Z.of_N (foldl (λ v d, v * 10 + d)%N z ds).
Proof.
  intros Hd. revert z. induction Hd as [|d ds Hd Hds IH]; intros z; simpl; [done|].
  rewrite <- IH. f_equal. unfold digit. rewrite digit_char_val by done. lia.
Qed.

Lemma to_string_value n : dec_value (to_string n) = Z.of_N n.
Proof.
  destruct (to_string_digits n) as (ds & -> & Hd & _ & Hv). unfold dec_value. change 0%Z with (Z.of_N 0).
  rewrite dec_value_chars by done. by rewrite Hv.
Qed.
Lemma to_string_isdigit n : Forall (λ c, isdigit c = true) (to_string n).
Proof.
  destruct (to_string_digits n) as (ds & -> & Hd & _). apply Forall_fmap. eapply Forall_impl; [exact Hd|]. intros d. apply isdigit_char.
Qed.
Lemma to_string_nonempty n : to_string n ≠ [].
Proof. destruct (to_string_digits n) as (ds & -> & _ & Hd & _). by destruct ds. Qed.

#[global] Arguments lit : simpl never.
#[global] Arguments uchar : simpl never.
#[global] Arguments char_val : simpl never.
#[global] Arguments char_of : simpl never.
#[global] Arguments isdigit : simpl never.
#[global] Arguments isspace : simpl never.
#[global] Arguments tolower : simpl never.
#[global] Arguments to_string : simpl never.
