(* ===== verification/AsioHeap.v ===== *)
(** * The heap of [asio::detail::timer_queue]

    A binary heap of deadlines in a vector, each entry with a pointer to its timer
    and each timer with its index in the heap.  Sifting up and down keeps the
    entries, restores the order, and keeps the indices exact. *)

From S2P Require Import Prelude Conc.
From stdpp Require Import options.

(** ** The queue and its timers *)

(** [wait_op]: its identity, its [cancellation_key_] and the [ec_] it completes with. *)
Inductive wait_ec : Type := wait_success | wait_aborted.
Record wait_op : Type := WaitOp { wo_id : nat; cancellation_key_ : nat; wo_ec : wait_ec }.

(** [heap_index_] is [None] for the largest [size_t], which no index of a vector
    reaches. *)
Record per_timer_data : Type := PerTimerData {
  op_queue_ : list wait_op;
  heap_index_ : option nat;
  next_ : option nat;
  prev_ : option nat }.

Record heap_entry : Type := HeapEntry { time_ : Z; timer_ : nat }.

(** The fields of [timer_queue], and the timer objects that exist. *)
Record timer_queue : Type := TimerQueue {
  timers_ : option nat;
  heap_ : list heap_entry;
  timer_objects : gmap nat per_timer_data }.

Definition new_timer_data : per_timer_data := PerTimerData [] None None None.

Definition set_index (i : option nat) (d : per_timer_data) : per_timer_data :=
  PerTimerData (op_queue_ d) i (next_ d) (prev_ d).

Definition timer_at (t : nat) : comp timer_queue per_timer_data := λ s,
  match timer_objects s !! t with Some d => Done d s | None => Fault use_after_free end.
Definition put_timer (t : nat) (d : per_timer_data) : comp timer_queue unit :=
  modify (λ s, TimerQueue (timers_ s) (heap_ s) (<[t := d]> (timer_objects s))).
Definition alter_timer (f : per_timer_data → per_timer_data) (t : nat) : comp timer_queue unit :=
  d ← timer_at t; put_timer t (f d).
Definition heap_at (i : nat) : comp timer_queue heap_entry := λ s,
  match heap_ s !! i with Some e => Done e s | None => Fault out_of_bounds end.
Definition store_heap (i : nat) (e : heap_entry) : comp timer_queue unit := λ s,
  if decide (i < length (heap_ s))
  then Done tt (TimerQueue (timers_ s) (<[i := e]> (heap_ s)) (timer_objects s))
  else Fault out_of_bounds.

(** ** The operations *)

Definition swap_heap (index1 index2 : nat) : comp timer_queue unit :=
  tmp ← heap_at index1;
  e2 ← heap_at index2;
  store_heap index1 e2;;
  store_heap index2 tmp;;
  e1 ← heap_at index1; alter_timer (set_index (Some index1)) (timer_ e1);;
  e2 ← heap_at index2; alter_timer (set_index (Some index2)) (timer_ e2).

Definition parent_of (index : nat) : nat := (index - 1) / 2.

Fixpoint up_heap_loop (fuel index : nat) : comp timer_queue unit :=
  match fuel with
  | 0 => abort_with out_of_fuel
  | S n =>
      if decide (0 < index) then
        e ← heap_at index;
        p ← heap_at (parent_of index);
        if decide (time_ e < time_ p)%Z
        then swap_heap index (parent_of index);; up_heap_loop n (parent_of index)
        else mret tt
      else mret tt
  end.
Definition up_heap (index : nat) : comp timer_queue unit := up_heap_loop (S index) index.

(** The smaller of the children, of which [child] is the left one. *)
Definition min_child_of (child : nat) : comp timer_queue nat :=
  s ← get_state;
  if decide (child + 1 = length (heap_ s)) then mret child
  else c ← heap_at child; c' ← heap_at (child + 1);
       mret (if decide (time_ c < time_ c')%Z then child else child + 1).

Fixpoint down_heap_loop (fuel index : nat) : comp timer_queue unit :=
  match fuel with
  | 0 => abort_with out_of_fuel
  | S n =>
      s ← get_state;
      let child := index * 2 + 1 in
      if decide (child < length (heap_ s)) then
        min_child ← min_child_of child;
        e ← heap_at index;
        m ← heap_at min_child;
        if decide (time_ e < time_ m)%Z then mret tt
        else swap_heap index min_child;; down_heap_loop n min_child
      else mret tt
  end.
Definition down_heap (index : nat) : comp timer_queue unit :=
  s ← get_state; down_heap_loop (S (length (heap_ s))) index.

(** ** Order *)

(** The order of [n] keys, and the order but for one place: [sift_up i] if only
    [i] may be smaller than its parent, [sift_down i] if only [i] may be larger
    than its children. *)
Section order.
Context (n : nat).
Implicit Types f : nat → Z.

Lemma parent_cases j : 0 < j → j = 2 * parent_of j + 1 ∨ j = 2 * parent_of j + 2.
Proof.
  intros Hj. unfold parent_of. pose proof (Nat.div_mod_eq (j - 1) 2).
  pose proof (Nat.mod_upper_bound (j - 1) 2). lia.
Qed.

Definition transpose (i j k : nat) : nat := if decide (k = i) then j else if decide (k = j) then i else k.

Definition heap_ordered f : Prop := ∀ j, 0 < j → j < n → (f (parent_of j) ≤ f j)%Z.
Definition sift_up i f : Prop :=
  (∀ j, 0 < j → j < n → j ≠ i → (f (parent_of j) ≤ f j)%Z) ∧
  (∀ j, 0 < j → j < n → 0 < i → parent_of j = i → (f (parent_of i) ≤ f j)%Z).
Definition sift_down i f : Prop :=
  (∀ j, 0 < j → j < n → parent_of j ≠ i → (f (parent_of j) ≤ f j)%Z) ∧
  (∀ j, 0 < j → j < n → 0 < i → parent_of j = i → (f (parent_of i) ≤ f j)%Z).

Lemma sift_up_ext i f g : (∀ k, g k = f k) → sift_up i f → sift_up i g.
Proof. intros E [H1 H2]. split; intros; rewrite !E; auto. Qed.
Lemma sift_down_ext i f g : (∀ k, g k = f k) → sift_down i f → sift_down i g.
Proof. intros E [H1 H2]. split; intros; rewrite !E; auto. Qed.

Lemma sift_up_done i f : sift_up i f → (i = 0 ∨ (f (parent_of i) ≤ f i)%Z) → heap_ordered f.
Proof. intros [Hf _] Hi j ? ?. destruct (decide (j = i)) as [->|]; [|by apply Hf]. destruct Hi; [lia|done]. Qed.

(** [lia] over the keys at equal places. *)
Local Ltac keys :=
  repeat case_decide; try lia;
  repeat match goal with H : parent_of _ = _ |- _ => rewrite H in * end; subst; try lia.

Lemma sift_up_step i f : 0 < i → sift_up i f → (f i < f (parent_of i))%Z →
  sift_up (parent_of i) (λ k, f (transpose i (parent_of i) k)).
Proof.
  intros Hi [Hf Hg] Hlt. pose proof (parent_cases i Hi). unfold transpose. split.
  - intros j Hj Hn Hne. pose proof (parent_cases j Hj).
    destruct (decide (j = i)) as [->|Hji]; [keys|].
    pose proof (Hf j Hj Hn Hji). destruct (decide (parent_of j = i)) as [E|].
    + pose proof (Hg j Hj Hn Hi E). keys.
    + keys.
  - intros j Hj Hn Hp E. pose proof (parent_cases j Hj). pose proof (parent_cases _ Hp).
    destruct (decide (j = i)) as [->|Hji].
    + assert (parent_of i < n) as Hpn by lia. pose proof (Hf (parent_of i) Hp Hpn). keys.
    + pose proof (Hf j Hj Hn Hji).
      assert (parent_of i < n) as Hpn by lia. pose proof (Hf (parent_of i) Hp Hpn). keys.
Qed.

Lemma sift_down_done i f :
  sift_down i f → (∀ j, 0 < j → j < n → parent_of j = i → (f i ≤ f j)%Z) → heap_ordered f.
Proof.
  intros [Hf _] Hi j Hj Hn. destruct (decide (parent_of j = i)) as [E|]; [|by apply Hf].
  rewrite E. by apply Hi.
Qed.

Lemma sift_down_step i c f :
  0 < c → c < n → parent_of c = i → sift_down i f →
  (∀ j, 0 < j → j < n → parent_of j = i → (f c ≤ f j)%Z) → (f c ≤ f i)%Z →
  sift_down c (λ k, f (transpose i c k)).
Proof.
  intros Hc Hcn Hp [Hf Hg] Hmin Hle. pose proof (parent_cases c Hc). unfold transpose. split.
  - intros j Hj Hn Hne. pose proof (parent_cases j Hj).
    destruct (decide (parent_of j = i)) as [E|E].
    + pose proof (Hmin j Hj Hn E). keys.
    + pose proof (Hf j Hj Hn E). destruct (decide (j = i)) as [->|]; [|keys].
      pose proof (Hg c Hc Hcn Hj Hp). keys.
  - intros j Hj Hn _ E. pose proof (parent_cases j Hj).
    assert (parent_of j ≠ i) as Hji by lia. pose proof (Hf j Hj Hn Hji). keys.
Qed.

(** The least key is at the root. *)
Lemma heap_root_least f : heap_ordered f → ∀ j, j < n → (f 0%nat ≤ f j)%Z.
Proof.
  intros Hf j. induction j as [j IH] using lt_wf_ind. intros Hn.
  destruct (decide (0 < j)) as [Hj|]; [|replace j with 0 by lia; lia].
  pose proof (parent_cases j Hj). pose proof (IH (parent_of j) ltac:(lia) ltac:(lia)).
  pose proof (Hf j Hj Hn). lia.
Qed.
End order.

(** ** Vectors of entries *)

Definition key (h : list heap_entry) (i : nat) : Z := from_option time_ 0%Z (h !! i).
Definition ordered (h : list heap_entry) : Prop := heap_ordered (length h) (key h).

Definition swap (i j : nat) (h : list heap_entry) : list heap_entry :=
  match h !! i, h !! j with
  | Some a, Some b => <[j := a]> (<[i := b]> h)
  | _, _ => h
  end.

Lemma length_swap i j h : length (swap i j h) = length h.
Proof. unfold swap. repeat case_match; by rewrite ?length_insert. Qed.

Lemma lookup_swap i j k h :
  i < length h → j < length h → swap i j h !! k = h !! transpose i j k.
Proof.
  intros [a Ha]%lookup_lt_is_Some [b Hb]%lookup_lt_is_Some. unfold swap. rewrite Ha, Hb.
  pose proof (lookup_lt_Some _ _ _ Ha). pose proof (lookup_lt_Some _ _ _ Hb).
  unfold transpose. destruct (decide (k = j)) as [->|].
  - rewrite list_lookup_insert_eq by (by rewrite length_insert). case_decide; congruence.
  - rewrite list_lookup_insert_ne by done. case_decide as E; [subst|by rewrite list_lookup_insert_ne].
    by rewrite list_lookup_insert_eq.
Qed.

Lemma key_swap i j k h :
  i < length h → j < length h → key (swap i j h) k = key h (transpose i j k).
Proof. intros. unfold key. by rewrite lookup_swap. Qed.

Lemma swap_perm i j h : swap i j h ≡ₚ h.
Proof.
  destruct (decide (i < length h ∧ j < length h)) as [[Hi Hj]|H].
  - apply Permutation_inj. split; [apply length_swap|]. exists (transpose i j). split.
    + intros x y. unfold transpose. repeat case_decide; congruence.
    + intros k. by apply lookup_swap.
  - unfold swap. destruct (h !! i) eqn:Hi, (h !! j) eqn:Hj; try done.
    destruct H. split; by eapply lookup_lt_Some.
Qed.

(** ** The operations keep the indices exact *)

Definition index_of (s : timer_queue) (t : nat) : option nat := timer_objects s !! t ≫= heap_index_.
Definition indexed (s : timer_queue) : Prop :=
  ∀ t i, index_of s t = Some i ↔ timer_ <$> heap_ s !! i = Some t.

(** Everything of a timer but its index. *)
Definition forget_index (d : per_timer_data) : list wait_op * option nat * option nat :=
  (op_queue_ d, next_ d, prev_ d).
Definition same_timers (s s' : timer_queue) : Prop :=
  timers_ s' = timers_ s ∧ ∀ t, forget_index <$> timer_objects s' !! t = forget_index <$> timer_objects s !! t.

Lemma same_timers_refl s : same_timers s s.
Proof. done. Qed.
Lemma same_timers_trans s1 s2 s3 : same_timers s1 s2 → same_timers s2 s3 → same_timers s1 s3.
Proof. intros [? Ha] [? Hb]. split; [congruence|]. intros t. by rewrite Hb, Ha. Qed.

Lemma same_timers_set_index s t d i h :
  timer_objects s !! t = Some d →
  same_timers s (TimerQueue (timers_ s) h (<[t := set_index i d]> (timer_objects s))).
Proof.
  intros Ht. split; [done|]. intros t'. simpl. destruct (decide (t' = t)) as [->|].
  - by rewrite lookup_insert_eq, Ht.
  - by rewrite lookup_insert_ne.
Qed.

Lemma wp_heap_at i e Q s : heap_ s !! i = Some e → Q e s → wp (heap_at i) Q s.
Proof. unfold wp, heap_at. by intros ->. Qed.
Lemma wp_timer_at t d Q s : timer_objects s !! t = Some d → Q d s → wp (timer_at t) Q s.
Proof. unfold wp, timer_at. by intros ->. Qed.
Lemma wp_store_heap i e (Q : unit → timer_queue → Prop) s : i < length (heap_ s) →
  Q tt (TimerQueue (timers_ s) (<[i := e]> (heap_ s)) (timer_objects s)) → wp (store_heap i e) Q s.
Proof. unfold wp, store_heap. intros Hi. by rewrite decide_True by done. Qed.
Lemma wp_alter_timer f t d (Q : unit → timer_queue → Prop) s : timer_objects s !! t = Some d →
  Q tt (TimerQueue (timers_ s) (heap_ s) (<[t := f d]> (timer_objects s))) → wp (alter_timer f t) Q s.
Proof. intros Ht HQ. apply wp_bind. eapply wp_timer_at; [done|]. by apply wp_modify. Qed.

Lemma indexed_timer s i e : indexed s → heap_ s !! i = Some e →
  ∃ d, timer_objects s !! timer_ e = Some d ∧ heap_index_ d = Some i.
Proof.
  intros Hs He. assert (index_of s (timer_ e) = Some i) as Hi by (apply Hs; by rewrite He).
  apply bind_Some in Hi. naive_solver.
Qed.
Lemma indexed_inj s i j e e' : indexed s →
  heap_ s !! i = Some e → heap_ s !! j = Some e' → timer_ e = timer_ e' → i = j.
Proof.
  intros Hs Hi Hj He. destruct (indexed_timer _ _ _ Hs Hi) as (d & Hd & ?).
  destruct (indexed_timer _ _ _ Hs Hj) as (d' & Hd' & ?). rewrite He in Hd. congruence.
Qed.

Lemma fmap_swap_index s i j t k : indexed s → i < length (heap_ s) → j < length (heap_ s) →
  index_of s t = Some (transpose i j k) ↔ timer_ <$> swap i j (heap_ s) !! k = Some t.
Proof. intros Hs Hi Hj. rewrite lookup_swap by done. apply Hs. Qed.

Lemma swap_heap_spec s i j :
  indexed s → i < length (heap_ s) → j < length (heap_ s) → i ≠ j →
  wp (swap_heap i j) (λ _ s', heap_ s' = swap i j (heap_ s) ∧ indexed s' ∧ same_timers s s') s.
Proof.
  intros Hs Hi Hj Hij. pose proof Hi as [a Ha]%lookup_lt_is_Some. pose proof Hj as [b Hb]%lookup_lt_is_Some.
  destruct (indexed_timer _ _ _ Hs Ha) as (da & Hda & Hia). destruct (indexed_timer _ _ _ Hs Hb) as (db & Hdb & Hib).
  assert (timer_ a ≠ timer_ b) as Hab by (intros E; by destruct Hij; eapply indexed_inj).
  apply wp_bind. eapply wp_heap_at; [done|]. apply wp_bind. eapply wp_heap_at; [done|].
  apply wp_bind, wp_store_heap; [done|]. apply wp_bind, wp_store_heap; [simpl; by rewrite length_insert|].
  simpl. assert (<[j := a]> (<[i := b]> (heap_ s)) = swap i j (heap_ s)) as -> by (unfold swap; by rewrite Ha, Hb).
  apply wp_bind. eapply (wp_heap_at _ b).
  { simpl. rewrite lookup_swap by done. unfold transpose. by rewrite decide_True. }
  apply wp_bind. eapply wp_alter_timer; [simpl; done|]. simpl. apply wp_bind. eapply (wp_heap_at _ a).
  { simpl. rewrite lookup_swap by done. unfold transpose. by rewrite decide_False, decide_True. }
  eapply wp_alter_timer; [simpl; by rewrite lookup_insert_ne|]. simpl. split_and!; [done| |].
  - intros t k. rewrite <- (fmap_swap_index _ _ _ _ _ Hs Hi Hj).
    unfold index_of. simpl. destruct (decide (t = timer_ a)) as [->|].
    + rewrite lookup_insert_eq, Hda. simpl. rewrite Hia. unfold transpose. repeat case_decide; naive_solver.
    + rewrite lookup_insert_ne by done. destruct (decide (t = timer_ b)) as [->|].
      * rewrite lookup_insert_eq, Hdb. simpl. rewrite Hib. unfold transpose. repeat case_decide; naive_solver.
      * rewrite lookup_insert_ne by done. fold (index_of s t).
        assert (index_of s t ≠ Some i) by (rewrite (Hs t i), Ha; naive_solver).
        assert (index_of s t ≠ Some j) by (rewrite (Hs t j), Hb; naive_solver).
        unfold transpose. repeat case_decide; naive_solver.
  - eapply same_timers_trans; [exact (same_timers_set_index s _ _ (Some i) (swap i j (heap_ s)) Hdb)|].
    eapply (same_timers_set_index (TimerQueue _ _ _) (timer_ a)). simpl. by rewrite lookup_insert_ne.
Qed.

(** ** Sifting *)

Lemma up_heap_loop_spec fuel i s :
  i < fuel → i < length (heap_ s) → indexed s → sift_up (length (heap_ s)) i (key (heap_ s)) →
  wp (up_heap_loop fuel i) (λ _ s', ordered (heap_ s') ∧ heap_ s' ≡ₚ heap_ s ∧ indexed s' ∧ same_timers s s') s.
Proof.
  revert i s. induction fuel as [|fuel IH]; intros i s Hfuel Hi Hs Hup; [lia|]. simpl.
  case_decide as H0.
  - pose proof (parent_cases i H0). assert (parent_of i < length (heap_ s)) as Hpi by lia.
    pose proof Hi as [e He]%lookup_lt_is_Some. pose proof Hpi as [p Hp]%lookup_lt_is_Some.
    apply wp_bind. eapply wp_heap_at; [done|]. apply wp_bind. eapply wp_heap_at; [done|].
    assert (key (heap_ s) i = time_ e ∧ key (heap_ s) (parent_of i) = time_ p) as [Hke Hkp].
    { unfold key. by rewrite He, Hp. }
    case_decide as Hlt.
    + apply wp_bind. eapply wp_mono; [|apply swap_heap_spec; [done..|lia]].
      intros _ s1 (Hh & Hs1 & Hsame). pose proof (length_swap i (parent_of i) (heap_ s)) as Hlen.
      eapply wp_mono; [|apply IH; rewrite ?Hh, ?Hlen; [lia|done|done|]].
      * intros _ s2 (? & Hperm & ? & ?). split_and!; [done| |done|by eapply same_timers_trans].
        by rewrite Hperm, Hh, swap_perm.
      * eapply sift_up_ext; [|apply sift_up_step; [done|done|by rewrite Hke, Hkp]].
        intros k. simpl. by rewrite key_swap.
    + apply wp_ret. split_and!; [|done..]. eapply sift_up_done; [done|]. right. rewrite Hke, Hkp. lia.
  - apply wp_ret. split_and!; [|done..]. eapply sift_up_done; [done|]. left. lia.
Qed.

Lemma up_heap_spec i s :
  i < length (heap_ s) → indexed s → sift_up (length (heap_ s)) i (key (heap_ s)) →
  wp (up_heap i) (λ _ s', ordered (heap_ s') ∧ heap_ s' ≡ₚ heap_ s ∧ indexed s' ∧ same_timers s s') s.
Proof. intros. apply up_heap_loop_spec; [lia|done..]. Qed.

Lemma key_lookup h i e : h !! i = Some e → key h i = time_ e.
Proof. unfold key. by intros ->. Qed.

(** The smaller child, in range, of which [i] is the parent. *)
Lemma min_child_of_spec i s :
  i * 2 + 1 < length (heap_ s) →
  wp (min_child_of (i * 2 + 1)) (λ c s', s' = s ∧ 0 < c ∧ c < length (heap_ s) ∧ i < c ∧ parent_of c = i ∧
    ∀ j, 0 < j → j < length (heap_ s) → parent_of j = i → (key (heap_ s) c ≤ key (heap_ s) j)%Z) s.
Proof.
  intros Hc. apply wp_bind, wp_get.
  pose proof (parent_cases (i * 2 + 1)). pose proof (parent_cases (i * 2 + 1 + 1)).
  case_decide as Hlast.
  - apply wp_ret. split_and!; [done|lia..|]. intros j Hj Hn Hp. pose proof (parent_cases j Hj).
    replace j with (i * 2 + 1) by lia. lia.
  - pose proof Hc as [c He]%lookup_lt_is_Some. assert (i * 2 + 1 + 1 < length (heap_ s)) as Hc' by lia.
    pose proof Hc' as [c' He']%lookup_lt_is_Some.
    apply wp_bind. eapply wp_heap_at; [done|]. apply wp_bind. eapply wp_heap_at; [done|]. apply wp_ret.
    pose proof (key_lookup _ _ _ He) as Hk. pose proof (key_lookup _ _ _ He') as Hk'.
    case_decide; (split_and!; [done|lia..|]); intros j Hj Hn Hp; pose proof (parent_cases j Hj);
      (assert (j = i * 2 + 1 ∨ j = i * 2 + 1 + 1) as [-> | ->] by lia; rewrite ?Hk, ?Hk'; lia).
Qed.

Lemma down_heap_loop_spec fuel i s :
  length (heap_ s) < fuel + i → i < length (heap_ s) → indexed s → sift_down (length (heap_ s)) i (key (heap_ s)) →
  wp (down_heap_loop fuel i) (λ _ s', ordered (heap_ s') ∧ heap_ s' ≡ₚ heap_ s ∧ indexed s' ∧ same_timers s s') s.
Proof.
  revert i s. induction fuel as [|fuel IH]; intros i s Hfuel Hi Hs Hdown; [lia|]. simpl.
  apply wp_bind, wp_get. case_decide as Hc.
  - apply wp_bind. eapply wp_mono; [|by apply min_child_of_spec].
    intros c s0 (-> & H0 & Hn & Hic & Hp & Hmin). pose proof Hi as [e He]%lookup_lt_is_Some.
    pose proof Hn as [m Hm]%lookup_lt_is_Some.
    apply wp_bind. eapply wp_heap_at; [done|]. apply wp_bind. eapply wp_heap_at; [done|].
    pose proof (key_lookup _ _ _ He) as Hke. pose proof (key_lookup _ _ _ Hm) as Hkm.
    case_decide as Hlt.
    + apply wp_ret. split_and!; [|done..]. eapply sift_down_done; [done|]. intros j Hj Hjn Hpj.
      specialize (Hmin j Hj Hjn Hpj). lia.
    + apply wp_bind. eapply wp_mono; [|apply swap_heap_spec; [done..|lia]].
      intros _ s1 (Hh & Hs1 & Hsame). pose proof (length_swap i c (heap_ s)) as Hlen.
      eapply wp_mono; [|apply IH; rewrite ?Hh, ?Hlen; [lia|done|done|]].
      * intros _ s2 (? & Hperm & ? & ?). split_and!; [done| |done|by eapply same_timers_trans].
        by rewrite Hperm, Hh, swap_perm.
      * eapply sift_down_ext; [|apply (sift_down_step _ i c); [done..|lia]].
        intros k. simpl. by rewrite key_swap.
  - apply wp_ret. split_and!; [|done..]. eapply sift_down_done; [done|]. intros j Hj Hjn Hpj.
    pose proof (parent_cases j Hj). lia.
Qed.

Lemma down_heap_spec i s :
  i < length (heap_ s) → indexed s → sift_down (length (heap_ s)) i (key (heap_ s)) →
  wp (down_heap i) (λ _ s', ordered (heap_ s') ∧ heap_ s' ≡ₚ heap_ s ∧ indexed s' ∧ same_timers s s') s.
Proof. intros. apply wp_bind, wp_get, down_heap_loop_spec; [lia|done..]. Qed.
