(* ===== verification/AsioTimerQueue.v ===== *)
(** * [asio::detail::timer_queue]

    The timers of a service: a heap of deadlines, a doubly linked list of the timers
    with waits, and a queue of waits for each timer.  The queue is shown to be a map
    from timers to deadlines and waits: a wait completes once, with success when its
    deadline has passed and in the order of the deadlines, or aborted when its timer
    is cancelled. *)

From S2P Require Import Prelude Conc AsioHeap.
From stdpp Require Import options.

(** ** The operations *)

Definition set_ops (q : list wait_op) (d : per_timer_data) : per_timer_data :=
  PerTimerData q (heap_index_ d) (next_ d) (prev_ d).
Definition set_next (n : option nat) (d : per_timer_data) : per_timer_data :=
  PerTimerData (op_queue_ d) (heap_index_ d) n (prev_ d).
Definition set_prev (p : option nat) (d : per_timer_data) : per_timer_data :=
  PerTimerData (op_queue_ d) (heap_index_ d) (next_ d) p.
Definition set_ec (ec : wait_ec) (op : wait_op) : wait_op :=
  WaitOp (wo_id op) (cancellation_key_ op) ec.

Definition set_timers (t : option nat) : comp timer_queue unit :=
  modify (λ s, TimerQueue t (heap_ s) (timer_objects s)).
Definition set_heap (h : list heap_entry) : comp timer_queue unit :=
  modify (λ s, TimerQueue (timers_ s) h (timer_objects s)).
(** A store through a pointer that is not null. *)
Definition if_set (p : option nat) (f : per_timer_data → per_timer_data) : comp timer_queue unit :=
  match p with Some t => alter_timer f t | None => mret tt end.

(** [timer.prev_ != 0 || &timer == timers_] *)
Definition is_active (timer : nat) : comp timer_queue bool :=
  d ← timer_at timer; s ← get_state;
  mret (bool_decide (prev_ d ≠ None ∨ timers_ s = Some timer)).

(** [heap_.pop_back()] *)
Definition pop_back : comp timer_queue unit :=
  s ← get_state; set_heap (take (length (heap_ s) - 1) (heap_ s)).

(** [up_heap] or [down_heap], for an entry that was put in the place of another. *)
Definition restore_heap (index : nat) : comp timer_queue unit :=
  if decide (0 < index) then
    e ← heap_at index; p ← heap_at (parent_of index);
    if decide (time_ e < time_ p)%Z then up_heap index else down_heap index
  else down_heap index.

(** The timer, whose entry is the last, leaves the heap. *)
Definition drop_last (timer : nat) : comp timer_queue unit :=
  alter_timer (set_index None) timer;; pop_back.

Definition remove_from_heap (timer : nat) : comp timer_queue unit :=
  d ← timer_at timer; s ← get_state;
  match heap_index_ d with
  | None => mret tt
  | Some index =>
      if decide (index < length (heap_ s)) then
        if decide (index = length (heap_ s) - 1) then
          drop_last timer
        else
          swap_heap index (length (heap_ s) - 1);;
          drop_last timer;;
          restore_heap index
      else mret tt
  end.

Definition remove_from_list (timer : nat) : comp timer_queue unit :=
  d ← timer_at timer; s ← get_state;
  (if decide (timers_ s = Some timer) then set_timers (next_ d) else mret tt);;
  if_set (prev_ d) (set_next (next_ d));;
  if_set (next_ d) (set_prev (prev_ d));;
  alter_timer (set_next None) timer;;
  alter_timer (set_prev None) timer.

Definition remove_timer (timer : nat) : comp timer_queue unit :=
  remove_from_heap timer;; remove_from_list timer.

Section queue.
(** For the clocks of [std::chrono] no time is infinite; a date of Boost may be. *)
Context (is_positive_infinity : Z → bool).

Definition insert_into_heap (time : Z) (timer : nat) : comp timer_queue unit :=
  if is_positive_infinity time then alter_timer (set_index None) timer
  else s ← get_state;
       alter_timer (set_index (Some (length (heap_ s)))) timer;;
       set_heap (heap_ s ++ [HeapEntry time timer]);;
       up_heap (length (heap_ s)).

Definition insert_into_list (timer : nat) : comp timer_queue unit :=
  s ← get_state;
  alter_timer (set_next (timers_ s)) timer;;
  alter_timer (set_prev None) timer;;
  if_set (timers_ s) (set_prev (Some timer));;
  set_timers (Some timer).

Definition enqueue_timer (time : Z) (timer : nat) (op : wait_op) : comp timer_queue bool :=
  active ← is_active timer;
  (if (active : bool) then mret tt else insert_into_heap time timer;; insert_into_list timer);;
  alter_timer (λ d, set_ops (op_queue_ d ++ [op]) d) timer;;
  d ← timer_at timer;
  mret (bool_decide (heap_index_ d = Some 0) && bool_decide (wo_id <$> head (op_queue_ d) = Some (wo_id op))).

(** [while (wait_op* op = timer->op_queue_.front())] of [get_ready_timers]; [q] is
    what is left in the queue. *)
Fixpoint complete_ops (timer : nat) (q ops : list wait_op) : comp timer_queue (list wait_op) :=
  match q with
  | [] => mret ops
  | op :: q => alter_timer (set_ops q) timer;; complete_ops timer q (ops ++ [set_ec wait_success op])
  end.

Fixpoint ready_loop (fuel : nat) (now : Z) (ops : list wait_op) : comp timer_queue (list wait_op) :=
  match fuel with
  | 0 => abort_with out_of_fuel
  | S n =>
      s ← get_state;
      match heap_ s with
      | [] => mret ops
      | e :: _ =>
          if decide (now < time_ e)%Z then mret ops else
          d ← timer_at (timer_ e);
          ops ← complete_ops (timer_ e) (op_queue_ d) ops;
          remove_timer (timer_ e);;
          ready_loop n now ops
      end
  end.

Definition get_ready_timers (now : Z) (ops : list wait_op) : comp timer_queue (list wait_op) :=
  s ← get_state; ready_loop (S (length (heap_ s))) now ops.

(** The loop of [cancel_timer]; [max_cancelled] is [None] for the largest [size_t]. *)
Fixpoint cancel_loop (timer : nat) (max_cancelled : option nat) (q ops : list wait_op) (num_cancelled : nat)
    : comp timer_queue (list wait_op * nat) :=
  match q with
  | op :: q =>
      if decide (Some num_cancelled = max_cancelled) then mret (ops, num_cancelled)
      else alter_timer (set_ops q) timer;;
           cancel_loop timer max_cancelled q (ops ++ [set_ec wait_aborted op]) (S num_cancelled)
  | [] => mret (ops, num_cancelled)
  end.

Definition remove_if_idle (timer : nat) : comp timer_queue unit :=
  d ← timer_at timer; if decide (op_queue_ d = []) then remove_timer timer else mret tt.

Definition cancel_timer (timer : nat) (ops : list wait_op) (max_cancelled : option nat)
    : comp timer_queue (list wait_op * nat) :=
  active ← is_active timer;
  if (active : bool) then
    d ← timer_at timer;
    r ← cancel_loop timer max_cancelled (op_queue_ d) ops 0;
    remove_if_idle timer;; mret r
  else mret (ops, 0).

(** The loop of [cancel_timer_by_key]. *)
Fixpoint key_loop (timer : nat) (cancellation_key : nat) (q ops other_ops : list wait_op)
    : comp timer_queue (list wait_op * list wait_op) :=
  match q with
  | [] => mret (ops, other_ops)
  | op :: q =>
      alter_timer (set_ops q) timer;;
      if decide (cancellation_key_ op = cancellation_key)
      then key_loop timer cancellation_key q (ops ++ [set_ec wait_aborted op]) other_ops
      else key_loop timer cancellation_key q ops (other_ops ++ [op])
  end.

Definition cancel_timer_by_key (timer : nat) (ops : list wait_op) (cancellation_key : nat)
    : comp timer_queue (list wait_op) :=
  active ← is_active timer;
  if (active : bool) then
    d ← timer_at timer;
    r ← key_loop timer cancellation_key (op_queue_ d) ops [];
    alter_timer (λ d, set_ops (op_queue_ d ++ r.2) d) timer;;
    remove_if_idle timer;; mret r.1
  else mret ops.

(** The three parts of [move_timer], for a source whose fields were [src]: the waits
    and the index, the entry of the heap and the head of the list, the neighbours. *)
Definition move_fields (target source : nat) (src : per_timer_data) : comp timer_queue unit :=
  alter_timer (λ d, set_ops (op_queue_ d ++ op_queue_ src) d) target;;
  alter_timer (set_ops []) source;;
  alter_timer (set_index (heap_index_ src)) target;;
  alter_timer (set_index None) source.

Definition move_roots (target source : nat) (src : per_timer_data) : comp timer_queue unit :=
  s ← get_state;
  (match heap_index_ src with
   | Some i => if decide (i < length (heap_ s))
               then e ← heap_at i; store_heap i (HeapEntry (time_ e) target) else mret tt
   | None => mret tt
   end);;
  if decide (timers_ s = Some source) then set_timers (Some target) else mret tt.

Definition move_links (target source : nat) (src : per_timer_data) : comp timer_queue unit :=
  if_set (prev_ src) (set_next (Some target));;
  if_set (next_ src) (set_prev (Some target));;
  alter_timer (set_next (next_ src)) target;;
  alter_timer (set_prev (prev_ src)) target;;
  alter_timer (set_next None) source;;
  alter_timer (set_prev None) source.

Definition move_timer (target source : nat) : comp timer_queue unit :=
  src ← timer_at source;
  move_fields target source src;;
  move_roots target source src;;
  move_links target source src.

(** The loop of [get_all_timers]. *)
Fixpoint all_loop (fuel : nat) (ops : list wait_op) : comp timer_queue (list wait_op) :=
  match fuel with
  | 0 => abort_with out_of_fuel
  | S n =>
      s ← get_state;
      match timers_ s with
      | None => mret ops
      | Some timer =>
          d ← timer_at timer;
          set_timers (next_ d);;
          alter_timer (set_ops []) timer;;
          alter_timer (set_next None) timer;;
          alter_timer (set_prev None) timer;;
          all_loop n (ops ++ op_queue_ d)
      end
  end.
Definition get_all_timers (ops : list wait_op) : comp timer_queue (list wait_op) :=
  s ← get_state;
  ops ← all_loop (S (size (timer_objects s))) ops;
  set_heap [];; mret ops.

Definition queue_empty : comp timer_queue bool := s ← get_state; mret (bool_decide (timers_ s = None)).
End queue.

(** ** Well-formed queues *)

Definition new_timer_queue : timer_queue := TimerQueue None [] ∅.

Definition next_of (s : timer_queue) (t : nat) : option nat := timer_objects s !! t ≫= next_.
Definition prev_of (s : timer_queue) (t : nat) : option nat := timer_objects s !! t ≫= prev_.

(** The timers of the list, in order. *)
Definition links (l : list nat) (s : timer_queue) : Prop :=
  timers_ s = head l ∧ NoDup l ∧
  (∀ l1 t l2, l = l1 ++ t :: l2 → is_Some (timer_objects s !! t) ∧ next_of s t = head l2 ∧ prev_of s t = last l1) ∧
  (∀ t, t ∉ l → next_of s t = None ∧ prev_of s t = None).

Definition queue_struct (l : list nat) (s : timer_queue) : Prop :=
  links l s ∧ ordered (heap_ s) ∧ indexed s ∧ ∀ e, e ∈ heap_ s → timer_ e ∈ l.

Definition ops_of (s : timer_queue) (t : nat) : list wait_op := from_option op_queue_ [] (timer_objects s !! t).

Definition queue_wf (s : timer_queue) : Prop :=
  ∃ l, queue_struct l s ∧ ∀ t, ops_of s t ≠ [] ↔ t ∈ l.

(** The deadline of a timer, if it has one. *)
Definition deadline_of (s : timer_queue) (t : nat) : option Z :=
  i ← index_of s t; time_ <$> heap_ s !! i.

Lemma deadline_elem s t z : indexed s → deadline_of s t = Some z ↔ HeapEntry z t ∈ heap_ s.
Proof.
  intros Hs. unfold deadline_of. rewrite bind_Some, list_elem_of_lookup. split.
  - intros (i & Hi%Hs & Hz). exists i. destruct (heap_ s !! i) as [[z' t']|]; naive_solver.
  - intros (i & Hi). exists i. rewrite (Hs t i), Hi. done.
Qed.

Lemma deadline_same s s' t t' : indexed s → indexed s' →
  (∀ z, HeapEntry z t ∈ heap_ s ↔ HeapEntry z t' ∈ heap_ s') → deadline_of s' t' = deadline_of s t.
Proof.
  intros Hs Hs' He. apply option_eq. intros z. rewrite !deadline_elem by done. symmetry. apply He.
Qed.

(** ** The list *)

Lemma links_exists l s t : links l s → t ∈ l → is_Some (timer_objects s !! t).
Proof. intros (_ & _ & Hl & _) (l1 & l2 & ->)%list_elem_of_split. by eapply Hl. Qed.

Lemma links_ext l s s' :
  timers_ s' = timers_ s →
  (∀ t, is_Some (timer_objects s !! t) → is_Some (timer_objects s' !! t)) →
  (∀ t, next_of s' t = next_of s t) → (∀ t, prev_of s' t = prev_of s t) → links l s → links l s'.
Proof.
  intros Ht He Hn Hp (H1 & H2 & H3 & H4). split_and!; [congruence|done| |].
  - intros l1 t l2 Hl. rewrite Hn, Hp. destruct (H3 _ _ _ Hl) as (? & ? & ?). auto.
  - intros t. rewrite Hn, Hp. apply H4.
Qed.

Lemma links_active l s t d : links l s → timer_objects s !! t = Some d →
  (prev_ d ≠ None ∨ timers_ s = Some t) ↔ t ∈ l.
Proof.
  intros (Hh & _ & Hl & Hn) Ht. assert (prev_of s t = prev_ d) as Hp by (unfold prev_of; by rewrite Ht). split.
  - intros Hd. destruct (decide (t ∈ l)) as [|Ht']; [done|]. destruct (Hn t Ht') as [_ Hpn].
    destruct Hd as [|Hd]; [congruence|]. rewrite Hh in Hd. destruct l; simplify_eq/=. set_solver.
  - intros (l1 & l2 & ->)%list_elem_of_split. destruct (Hl l1 t l2 eq_refl) as (_ & _ & Hlast).
    destruct l1 as [|x l1 _] using rev_ind; [by right|]. left. rewrite <- Hp, Hlast, last_snoc. done.
Qed.

Lemma wp_is_active l s t (Q : bool → timer_queue → Prop) :
  links l s → is_Some (timer_objects s !! t) → Q (bool_decide (t ∈ l)) s → wp (is_active t) Q s.
Proof.
  intros Hl [d Ht] HQ. apply wp_bind. eapply wp_timer_at; [done|]. apply wp_bind, wp_get, wp_ret.
  by rewrite (bool_decide_ext _ _ (links_active _ _ _ _ Hl Ht)).
Qed.

(** A store to a timer that exists. *)
Lemma wp_alter f t (Q : unit → timer_queue → Prop) s : is_Some (timer_objects s !! t) →
  Q tt (TimerQueue (timers_ s) (heap_ s) (alter f t (timer_objects s))) → wp (alter_timer f t) Q s.
Proof.
  intros [d Ht] HQ. eapply wp_alter_timer; [done|]. replace (<[t := f d]> (timer_objects s)) with (alter f t (timer_objects s)); [done|].
  apply map_eq. intros x. destruct (decide (x = t)) as [->|].
  - by rewrite lookup_alter_eq, lookup_insert_eq, Ht.
  - by rewrite lookup_alter_ne, lookup_insert_ne.
Qed.
Lemma wp_if_set p f (Q : unit → timer_queue → Prop) s :
  (∀ t, p = Some t → is_Some (timer_objects s !! t)) →
  Q tt (TimerQueue (timers_ s) (heap_ s) (match p with Some t => alter f t (timer_objects s) | None => timer_objects s end)) →
  wp (if_set p f) Q s.
Proof. intros Hp HQ. destruct p as [t|]; [by apply wp_alter; [apply Hp|]|]. apply wp_ret. by destruct s. Qed.

Lemma app_cons_inv {A} (l1 l2 k1 k2 : list A) x : l1 ++ l2 = k1 ++ x :: k2 →
  (∃ k, l1 = k1 ++ x :: k ∧ k2 = k ++ l2) ∨ (∃ k, k1 = l1 ++ k ∧ l2 = k ++ x :: k2).
Proof.
  intros [(k & -> & E)|(k & -> & ->)]%app_eq_inv; [|naive_solver].
  destruct k as [|y k]; simplify_eq/=; [|naive_solver]. right. exists []. by rewrite !app_nil_r.
Qed.

(** What is left of the list when [t] is taken out. *)
Lemma links_remove l1 t l2 s s' :
  links (l1 ++ t :: l2) s → timers_ s' = head (l1 ++ l2) →
  (∀ x, is_Some (timer_objects s !! x) → is_Some (timer_objects s' !! x)) →
  (∀ x, next_of s' x = if decide (x = t) then None else if decide (last l1 = Some x) then head l2 else next_of s x) →
  (∀ x, prev_of s' x = if decide (x = t) then None else if decide (head l2 = Some x) then last l1 else prev_of s x) →
  links (l1 ++ l2) s'.
Proof.
  intros (_ & Hnd & Hl & Hout) Hhd He Hn Hp.
  assert (t ∉ l1 ++ l2 ∧ NoDup (l1 ++ l2)) as [Ht Hnd'].
  { rewrite <- Permutation_middle in Hnd. by apply NoDup_cons. }
  split_and!; [done..| |].
  - intros k1 x k2 E. assert (x ≠ t) as Hxt by (intros ->; apply Ht; rewrite E; set_solver).
    rewrite Hn, Hp, !(decide_False (P := x = t)) by done.
    assert (NoDup (k1 ++ x :: k2)) as HndE by (by rewrite <- E).
    apply app_cons_inv in E as [(k & -> & ->)|(k & -> & ->)].
    + destruct (Hl k1 x (k ++ t :: l2)) as (? & Hnx & Hpx); [by rewrite <- (assoc_L (++))|].
      split; [auto|]. split.
      * destruct k as [|y k _] using rev_ind.
        -- by rewrite last_snoc, decide_True.
        -- rewrite decide_False; [rewrite Hnx; by destruct k|].
           rewrite app_comm_cons, (assoc_L (++)), last_snoc. intros [= ->].
           apply NoDup_app in HndE as (_ & _ & HndE). apply NoDup_cons in HndE as [HndE _]. set_solver.
      * rewrite decide_False; [done|]. destruct l2 as [|z l2]; [done|]. intros [= ->].
        apply NoDup_app in HndE as (_ & _ & HndE). apply NoDup_cons in HndE as [HndE _]. set_solver.
    + destruct (Hl (l1 ++ t :: k) x k2) as (? & Hnx & Hpx); [by rewrite <- (assoc_L (++))|].
      split; [auto|]. rewrite <- (assoc_L (++)) in HndE. apply NoDup_app in HndE as (_ & Hdis & HndE). split.
      * rewrite decide_False; [done|]. intros Hlast. apply last_Some_elem_of in Hlast. set_solver.
      * destruct k as [|y k].
        -- rewrite decide_True by done. by rewrite app_nil_r.
        -- rewrite decide_False; [rewrite Hpx|]; [by rewrite !last_app|]. intros [= ->].
           simpl in HndE. apply NoDup_cons in HndE as [HndE _]. set_solver.
  - intros x Hx. rewrite Hn, Hp. destruct (decide (x = t)) as [->|Hxt]; [done|].
    destruct (Hout x) as [-> ->]; [set_solver|].
    rewrite !decide_False; [done|intros E..]; apply Hx, elem_of_app; [right|left].
    + destruct l2; simplify_eq/=. set_solver.
    + by apply last_Some_elem_of.
Qed.

Definition keeps (s s' : timer_queue) : Prop :=
  (∀ x, index_of s' x = index_of s x) ∧ (∀ x, ops_of s' x = ops_of s x) ∧
  ∀ x, is_Some (timer_objects s' !! x) ↔ is_Some (timer_objects s !! x).

(** A field of a timer after stores to some. *)
Ltac observe :=
  intros; unfold next_of, prev_of, index_of, ops_of in *; simpl in *;
  repeat (rewrite lookup_alter; case_decide; subst; simplify_eq; try done);
  rewrite ?fmap_is_Some; repeat case_decide; simplify_eq/=; try done;
  repeat match goal with |- context [timer_objects ?s !! ?x] => destruct (timer_objects s !! x) eqn:? end;
  simplify_eq/=; try done.

(** Stores to the pointers of a timer. *)
Lemma keeps_refl s tm h : keeps s (TimerQueue tm h (timer_objects s)).
Proof. done. Qed.
Lemma keeps_alter s tm h m f t :
  (∀ d, heap_index_ (f d) = heap_index_ d ∧ op_queue_ (f d) = op_queue_ d) →
  keeps s (TimerQueue tm h m) → keeps s (TimerQueue tm h (alter f t m)).
Proof.
  intros Hf (Hi & Ho & Hd). split_and!; intros x; specialize (Hi x); specialize (Ho x); specialize (Hd x);
    unfold index_of, ops_of in *; simpl in *; [| |by rewrite lookup_alter_is_Some];
    rewrite lookup_alter; case_decide; subst; try done; destruct (m !! x); try done; simpl in *; destruct (Hf p); congruence.
Qed.

Lemma remove_from_list_spec l1 t l2 s :
  links (l1 ++ t :: l2) s →
  wp (remove_from_list t) (λ _ s', links (l1 ++ l2) s' ∧ heap_ s' = heap_ s ∧ keeps s s') s.
Proof.
  intros Hlinks. pose proof Hlinks as (Hhd & Hnd & Hl & _).
  destruct (Hl l1 t l2 eq_refl) as ([d Ht] & Hnt & Hpt). unfold next_of, prev_of in Hnt, Hpt. rewrite Ht in Hnt, Hpt. simpl in Hnt, Hpt.
  assert (∀ x, last l1 = Some x → x ≠ t ∧ is_Some (timer_objects s !! x)) as Hlast.
  { intros x Hx%last_Some_elem_of. split; [|eapply links_exists; [done|set_solver]].
    intros ->. apply NoDup_app in Hnd as (_ & Hd & _). set_solver. }
  assert (∀ x, head l2 = Some x → x ≠ t ∧ is_Some (timer_objects s !! x)) as Hhead.
  { intros x Hx. destruct l2 as [|? l2]; simplify_eq/=. split; [|eapply links_exists; [done|set_solver]].
    intros ->. apply NoDup_app in Hnd as (_ & _ & Hnd). apply NoDup_cons in Hnd. set_solver. }
  apply wp_bind. eapply wp_timer_at; [done|]. apply wp_bind, wp_get. rewrite Hnt, Hpt.
  apply wp_bind. eapply (wp_mono _ (λ _ s1, s1 = TimerQueue (head (l1 ++ l2)) (heap_ s) (timer_objects s))).
  2: { case_decide as E; rewrite Hhd in E; (destruct l1 as [|y l1]; [|simpl in E]).
       - by apply wp_modify.
       - injection E as ->. apply NoDup_cons in Hnd. set_solver.
       - done.
       - apply wp_ret. destruct s. simpl in *. by rewrite Hhd. }
  intros _ s1 ->. apply wp_bind, wp_if_set; [intros x Hx; by apply Hlast|]. simpl.
  apply wp_bind, wp_if_set; [intros x Hx; simpl; destruct (last l1); rewrite ?lookup_alter_is_Some; by apply Hhead|]. simpl.
  set (m1 := match last l1 with Some _ => _ | None => _ end). set (m2 := match head l2 with Some _ => _ | None => _ end).
  assert (∀ x, is_Some (m2 !! x) ↔ is_Some (timer_objects s !! x)) as Hdom.
  { intros x. unfold m2, m1. destruct (last l1), (head l2); by rewrite ?lookup_alter_is_Some. }
  apply wp_bind, wp_alter; [by apply Hdom; eexists|]. simpl.
  apply wp_alter; [simpl; rewrite lookup_alter_is_Some; by apply Hdom; eexists|]. simpl. unfold m2, m1 in *. clear m2 m1 Hdom.
  split_and!; [|done|].
  - eapply links_remove; [done|done|..]; clear -Hlast Hhead; destruct (last l1), (head l2); observe;
      first [edestruct Hlast as [_ []]; [done|congruence] | edestruct Hhead as [_ []]; [done|congruence]].
  - do 2 (apply keeps_alter; [done|]). destruct (last l1), (head l2); repeat (apply keeps_alter; [done|]); apply keeps_refl.
Qed.

(** ** The heap *)

(** The entries of the other timers. *)
Abbreviation without t h := (filter (λ e, timer_ e ≠ t) h).

Lemma last_entry (h : list heap_entry) : 0 < length h → ∃ e, h !! (length h - 1) = Some e ∧ h = take (length h - 1) h ++ [e].
Proof.
  intros Hh. assert (length h - 1 < length h) as [e He]%lookup_lt_is_Some by lia. exists e. split; [done|].
  rewrite <- (take_drop (length h - 1) h) at 1. f_equal. rewrite (drop_S _ _ _ He).
  f_equal. apply drop_ge. lia.
Qed.

Lemma drop_last_spec s e :
  indexed s → heap_ s !! (length (heap_ s) - 1) = Some e →
  wp (drop_last (timer_ e))
    (λ _ s', heap_ s' = take (length (heap_ s) - 1) (heap_ s) ∧ heap_ s' ≡ₚ without (timer_ e) (heap_ s) ∧
       indexed s' ∧ same_timers s s' ∧ index_of s' (timer_ e) = None) s.
Proof.
  intros Hs He. destruct (indexed_timer _ _ _ Hs He) as (d & Hd & Hi).
  apply wp_bind. eapply wp_alter_timer; [done|]. apply wp_bind, wp_get, wp_modify. simpl.
  pose proof (lookup_lt_Some _ _ _ He) as Hlen.
  destruct (last_entry (heap_ s)) as (e' & He' & Happ); [lia|]. simplify_eq.
  assert (∀ j, j < length (heap_ s) - 1 → take (length (heap_ s) - 1) (heap_ s) !! j = heap_ s !! j) as Htake.
  { intros j Hj. by apply lookup_take_lt. }
  split_and!; [done| | |by apply same_timers_set_index|by unfold index_of; simpl; rewrite lookup_insert_eq].
  - assert (without (timer_ e) (heap_ s) = take (length (heap_ s) - 1) (heap_ s)) as ->; [|done].
    rewrite Happ at 1. rewrite filter_app, filter_cons_False by naive_solver. rewrite filter_nil, app_nil_r.
    apply filter_all. intros x (j & Hj)%list_elem_of_lookup E. pose proof (lookup_lt_Some _ _ _ Hj) as Hjl.
    rewrite length_take in Hjl. rewrite Htake in Hj by lia. pose proof (indexed_inj _ _ _ _ _ Hs Hj He E). lia.
  - intros t j. unfold index_of. simpl. destruct (decide (t = timer_ e)) as [->|].
    + rewrite lookup_insert_eq. simpl. split; [done|]. intros (x & Hj & E)%fmap_Some. exfalso.
      pose proof (lookup_lt_Some _ _ _ Hj) as Hjl. rewrite length_take in Hjl. rewrite Htake in Hj by lia.
      pose proof (indexed_inj _ _ _ _ _ Hs Hj He (eq_sym E)). lia.
    + rewrite lookup_insert_ne by done. fold (index_of s t). rewrite (Hs t j).
      destruct (decide (j < length (heap_ s) - 1)) as [Hj|Hj]; [by rewrite Htake|].
      rewrite (lookup_take_ge _ (length (heap_ s) - 1)) by lia. split; [|done].
      destruct (decide (j = length (heap_ s) - 1)) as [->|]; [rewrite He; naive_solver|].
      rewrite (lookup_ge_None_2 _ j) by lia. done.
Qed.

Lemma index_without s t h : indexed s → heap_ s ≡ₚ without t h → index_of s t = None.
Proof.
  intros Hs Hp. destruct (index_of s t) as [i|] eqn:Hi; [|done]. exfalso.
  apply Hs, fmap_Some in Hi as (e & He%list_elem_of_lookup_2 & ->).
  rewrite Hp in He. by apply list_elem_of_filter in He as [? _].
Qed.

(** An ordered heap in which the entry at [i] was replaced and the last dropped. *)
Lemma replaced_order n i f g :
  heap_ordered (S n) f → i < n → (∀ k, k < n → k ≠ i → g k = f k) →
  (0 < i → (g i < g (parent_of i))%Z → sift_up n i g) ∧
  (i = 0 ∨ (g (parent_of i) ≤ g i)%Z → sift_down n i g).
Proof.
  intros Hf Hi Hg.
  assert (∀ j, 0 < j → j < n → 0 < i → parent_of j = i → (g (parent_of i) ≤ g j)%Z) as Hgrand.
  { intros j Hj Hn H0 E. pose proof (parent_cases j Hj). pose proof (parent_cases i H0).
    rewrite !Hg by lia. pose proof (Hf i H0). pose proof (Hf j Hj). rewrite E in *. lia. }
  assert (∀ j, 0 < j → j < n → j ≠ i → parent_of j ≠ i → (g (parent_of j) ≤ g j)%Z) as Hrest.
  { intros j Hj Hn ? ?. pose proof (parent_cases j Hj). rewrite !Hg by lia. apply Hf; lia. }
  split.
  - intros H0 Hlt. split; [|done]. intros j Hj Hn Hne. destruct (decide (parent_of j = i)) as [E|]; [|auto].
    pose proof (Hgrand j Hj Hn H0 E). rewrite E. lia.
  - intros Hle. split; [|done]. intros j Hj Hn Hne. destruct (decide (j = i)) as [->|]; [|auto]. lia.
Qed.

Lemma ordered_take h n : ordered h → ordered (take n h).
Proof.
  intros Hh j Hj Hn. rewrite length_take in Hn. pose proof (parent_cases j Hj).
  unfold key. rewrite !lookup_take_lt by lia. apply Hh; lia.
Qed.

Lemma restore_heap_spec i s f :
  indexed s → i < length (heap_ s) → heap_ordered (S (length (heap_ s))) f →
  (∀ k, k < length (heap_ s) → k ≠ i → key (heap_ s) k = f k) →
  wp (restore_heap i) (λ _ s', ordered (heap_ s') ∧ heap_ s' ≡ₚ heap_ s ∧ indexed s' ∧ same_timers s s') s.
Proof.
  intros Hs Hi Hf Hk. destruct (replaced_order _ _ _ _ Hf Hi Hk) as [Hup Hdown]. unfold restore_heap.
  case_decide as H0; [|apply down_heap_spec; [done..|apply Hdown; lia]].
  pose proof (parent_cases i H0). assert (parent_of i < length (heap_ s)) as Hp by lia.
  pose proof Hi as [e He]%lookup_lt_is_Some. pose proof Hp as [p Hpe]%lookup_lt_is_Some.
  apply wp_bind. eapply wp_heap_at; [done|]. apply wp_bind. eapply wp_heap_at; [done|].
  rewrite (key_lookup _ _ _ He), (key_lookup _ _ _ Hpe) in *.
  case_decide; [apply up_heap_spec|apply down_heap_spec]; try done; [by apply Hup|apply Hdown; right; lia].
Qed.

Lemma remove_from_heap_spec s t :
  ordered (heap_ s) → indexed s → is_Some (timer_objects s !! t) →
  wp (remove_from_heap t) (λ _ s', ordered (heap_ s') ∧ heap_ s' ≡ₚ without t (heap_ s) ∧
    indexed s' ∧ same_timers s s') s.
Proof.
  intros Ho Hs [d Ht]. apply wp_bind. eapply wp_timer_at; [done|]. apply wp_bind, wp_get.
  assert (index_of s t = heap_index_ d) as Hidx by (unfold index_of; by rewrite Ht).
  destruct (heap_index_ d) as [i|] eqn:Hi.
  - pose proof Hidx as (e & He & Ee)%Hs%fmap_Some. pose proof (lookup_lt_Some _ _ _ He) as Hlt.
    rewrite decide_True by done. case_decide as Hlast.
    + rewrite Ee. eapply wp_mono; [|apply drop_last_spec; [done|by rewrite <- Hlast]].
      intros _ s' (Hh & Hp & Hs' & Hsame & _). split_and!; [|done..]. rewrite Hh. by apply ordered_take.
    + assert (length (heap_ s) - 1 < length (heap_ s)) as Hl1 by lia.
      apply wp_bind. eapply wp_mono; [|by apply (swap_heap_spec s i)]. intros _ s1 (Hh1 & Hs1 & Hsame1).
      pose proof (length_swap i (length (heap_ s) - 1) (heap_ s)) as Hlen. rewrite <- Hh1 in Hlen.
      assert (heap_ s1 !! (length (heap_ s1) - 1) = Some e) as He1.
      { rewrite Hlen, Hh1, lookup_swap by done. unfold transpose. by rewrite decide_False, decide_True by lia. }
      apply wp_bind. rewrite Ee. eapply wp_mono; [|by apply drop_last_spec]. intros _ s2 (Hh2 & Hp2 & Hs2 & Hsame2 & _).
      assert (length (heap_ s2) = length (heap_ s) - 1) as Hlen2 by (rewrite Hh2, length_take; lia).
      eapply wp_mono; [|apply (restore_heap_spec i s2 (key (heap_ s))); [done|lia|rewrite Hlen2|]].
      * intros _ s3 (? & Hp3 & ? & ?). split_and!; [done| |done|].
        -- by rewrite Hp3, Hp2, Hh1, swap_perm.
        -- eapply same_timers_trans; [done|]. by eapply same_timers_trans.
      * by replace (S (length (heap_ s) - 1)) with (length (heap_ s)) by lia.
      * intros k Hk Hki. unfold key. rewrite Hh2, lookup_take_lt, Hh1, lookup_swap by lia.
        unfold transpose. by rewrite decide_False, decide_False by lia.
  - apply wp_ret. split_and!; [done| |done..]. rewrite filter_all; [done|].
    intros e (i & He)%list_elem_of_lookup E. assert (index_of s t = Some i) by (apply Hs; rewrite He; simpl; congruence). congruence.
Qed.

(** ** Removing a timer *)

Definition same_dom (s s' : timer_queue) : Prop :=
  ∀ x, is_Some (timer_objects s' !! x) ↔ is_Some (timer_objects s !! x).

Lemma same_timers_obs s s' : same_timers s s' →
  same_dom s s' ∧ (∀ x, ops_of s' x = ops_of s x) ∧ (∀ x, next_of s' x = next_of s x) ∧ (∀ x, prev_of s' x = prev_of s x).
Proof.
  intros [_ Hsame]. split_and!; intros x; specialize (Hsame x); unfold ops_of, next_of, prev_of;
    destruct (timer_objects s !! x) as [d|], (timer_objects s' !! x) as [d'|]; try done;
    unfold forget_index in Hsame; simplify_eq/=; try done; split; eauto.
Qed.

Lemma same_timers_links l s s' : same_timers s s' → links l s → links l s'.
Proof.
  intros Hsame. destruct (same_timers_obs _ _ Hsame) as (Hd & _ & ? & ?). destruct Hsame.
  apply links_ext; [done| |done..]. intros t. by rewrite (Hd t).
Qed.

(** The deadlines that are left, as entries of the heap. *)
Lemma deadline_without s s' t x :
  indexed s → indexed s' → heap_ s' ≡ₚ without t (heap_ s) →
  deadline_of s' x = if decide (x = t) then None else deadline_of s x.
Proof.
  intros Hs Hs' Hp. case_decide as Hx; [subst|].
  - unfold deadline_of. by rewrite (index_without _ _ _ Hs' Hp).
  - apply deadline_same; [done..|]. intros z. rewrite Hp, list_elem_of_filter. simpl. naive_solver.
Qed.

Lemma remove_timer_spec l s t :
  queue_struct l s → t ∈ l →
  wp (remove_timer t) (λ _ s', (∃ l', queue_struct l' s' ∧ ∀ x, x ∈ l' ↔ x ∈ l ∧ x ≠ t) ∧
    heap_ s' ≡ₚ without t (heap_ s) ∧ same_dom s s' ∧ ∀ x, ops_of s' x = ops_of s x) s.
Proof.
  intros (Hl & Ho & Hs & Hin) Ht. apply wp_bind.
  eapply wp_mono; [|apply remove_from_heap_spec; [done..|by eapply links_exists]].
  intros _ s1 (Ho1 & Hp1 & Hs1 & Hsame). destruct (same_timers_obs _ _ Hsame) as (Hd1 & Hops1 & _).
  apply (same_timers_links _ _ _ Hsame) in Hl. apply list_elem_of_split in Ht as (l1 & l2 & ->).
  eapply wp_mono; [|by apply remove_from_list_spec]. intros _ s2 (Hl2 & Hh2 & Hidx & Hops2 & Hd2).
  assert (∀ x, x ∈ l1 ++ l2 ↔ x ∈ l1 ++ t :: l2 ∧ x ≠ t) as Hx.
  { destruct Hl as (_ & Hnd & _). rewrite <- Permutation_middle in Hnd. apply NoDup_cons in Hnd. set_solver. }
  split_and!.
  - exists (l1 ++ l2). split; [|done]. split_and!; [done|by rewrite Hh2| |].
    + intros x i. rewrite Hidx, Hh2. apply Hs1.
    + intros e. rewrite Hh2, Hp1, list_elem_of_filter, Hx. naive_solver.
  - by rewrite Hh2.
  - intros x. by rewrite (Hd2 x), (Hd1 x).
  - intros x. by rewrite Hops2, Hops1.
Qed.

(** ** The map it stands for *)

Abbreviation timer_map := (gmap nat (option Z * list wait_op)).

Definition contents (s : timer_queue) : timer_map :=
  map_imap (λ t d, Some (deadline_of s t, op_queue_ d)) (timer_objects s).

Lemma contents_lookup s t :
  contents s !! t = if decide (is_Some (timer_objects s !! t)) then Some (deadline_of s t, ops_of s t) else None.
Proof.
  unfold contents, ops_of. rewrite map_lookup_imap. case_decide as Ht.
  - destruct Ht as [d ->]. done.
  - destruct (timer_objects s !! t) eqn:E; [|done]. by destruct Ht.
Qed.

Lemma contents_Some s t dl q : contents s !! t = Some (dl, q) ↔
  is_Some (timer_objects s !! t) ∧ deadline_of s t = dl ∧ ops_of s t = q.
Proof. rewrite contents_lookup. case_decide; naive_solver. Qed.

(** The contents after an operation that changed one timer. *)
Lemma contents_insert s s' t dl q :
  is_Some (timer_objects s !! t) → same_dom s s' →
  (∀ x, deadline_of s' x = if decide (x = t) then dl else deadline_of s x) →
  (∀ x, ops_of s' x = if decide (x = t) then q else ops_of s x) →
  contents s' = <[t := (dl, q)]> (contents s).
Proof.
  intros Ht Hdom Hd Hq. apply map_eq. intros x. rewrite lookup_insert, !contents_lookup, Hd, Hq.
  rewrite (decide_ext _ _ _ _ (Hdom x)). destruct (decide (t = x)) as [->|].
  - by rewrite !decide_True.
  - by rewrite !(decide_False (P := x = t)).
Qed.

(** ** Adding a timer *)

Section operations.
Context (is_positive_infinity : Z → bool).

Definition entries (time : Z) (t : nat) : list heap_entry :=
  if is_positive_infinity time then [] else [HeapEntry time t].

Lemma timer_snoc h e i t : timer_ <$> (h ++ [e]) !! i = Some t ↔
  (i < length h ∧ timer_ <$> h !! i = Some t) ∨ (i = length h ∧ timer_ e = t).
Proof.
  rewrite fmap_Some. setoid_rewrite lookup_snoc_Some. split.
  - intros (x & [[? Hx]|[-> ->]] & ->); [left; by rewrite Hx|by right].
  - intros [[? (x & Hx & ->)%fmap_Some]|[-> <-]]; eauto 6.
Qed.

Lemma ordered_snoc h e : ordered h → sift_up (S (length h)) (length h) (key (h ++ [e])).
Proof.
  intros Hh. assert (∀ k, k < length h → key (h ++ [e]) k = key h k) as Hk.
  { intros k ?. unfold key. by rewrite lookup_app_l. }
  split; intros j Hj Hn; pose proof (parent_cases j Hj); [|lia]. intros Hne. rewrite !Hk by lia. apply Hh; lia.
Qed.

Lemma insert_into_heap_spec s time t :
  ordered (heap_ s) → indexed s → is_Some (timer_objects s !! t) → index_of s t = None →
  wp (insert_into_heap is_positive_infinity time t) (λ _ s',
    ordered (heap_ s') ∧ heap_ s' ≡ₚ entries time t ++ heap_ s ∧ indexed s' ∧ same_timers s s') s.
Proof.
  intros Ho Hs [d Hd] Hn. unfold insert_into_heap, entries. destruct (is_positive_infinity time).
  - eapply wp_alter_timer; [done|]. split_and!; [done|done| |by apply (same_timers_set_index s)].
    intros x i. rewrite <- (Hs x i). unfold index_of. simpl.
    destruct (decide (x = t)) as [->|]; [|by rewrite lookup_insert_ne].
    rewrite lookup_insert_eq. unfold index_of in Hn. rewrite Hd in *. simpl in *. by rewrite Hn.
  - apply wp_bind, wp_get, wp_bind. eapply wp_alter_timer; [done|]. apply wp_bind, wp_modify. simpl.
    set (s1 := TimerQueue _ _ _).
    assert (indexed s1) as Hs1.
    { intros x i. unfold index_of. simpl. destruct (decide (x = t)) as [->|].
      - rewrite lookup_insert_eq. simpl. rewrite timer_snoc. split; [naive_solver|].
        intros [[Hi Hx]|[-> _]]; [|done]. apply Hs in Hx. congruence.
      - rewrite lookup_insert_ne by done. fold (index_of s x). rewrite (Hs x i), timer_snoc. split.
        + intros Hx. left. split; [|done]. apply fmap_Some in Hx as (? & ?%lookup_lt_Some & _). done.
        + naive_solver. }
    eapply wp_mono; [|apply up_heap_spec; [|done|]].
    + intros _ s2 (? & Hp & ? & Hsame). split_and!; [done| |done|].
      * rewrite Hp. simpl. symmetry. apply Permutation_cons_append.
      * eapply same_timers_trans; [|done]. by apply (same_timers_set_index s).
    + simpl. rewrite length_app. simpl. lia.
    + simpl. rewrite length_app, Nat.add_1_r. by apply ordered_snoc.
Qed.

Lemma insert_into_list_spec l s t :
  links l s → is_Some (timer_objects s !! t) → t ∉ l →
  wp (insert_into_list t) (λ _ s', links (t :: l) s' ∧ heap_ s' = heap_ s ∧ keeps s s') s.
Proof.
  intros Hl Ht Hn. pose proof Hl as (Hhd & Hnd & Hin & Hout).
  assert (∀ x, head l = Some x → x ≠ t ∧ is_Some (timer_objects s !! x)) as Hhead.
  { intros x Hx. destruct l as [|? l]; simplify_eq/=. split; [set_solver|]. eapply links_exists; [done|set_solver]. }
  apply wp_bind, wp_get. rewrite Hhd. apply wp_bind, wp_alter; [done|]. simpl.
  apply wp_bind, wp_alter; [simpl; by rewrite lookup_alter_is_Some|]. simpl.
  apply wp_bind, wp_if_set; [simpl; intros x Hx; rewrite !lookup_alter_is_Some; by apply Hhead|]. simpl.
  apply wp_modify. simpl. set (s' := TimerQueue _ _ _).
  assert (∀ x, is_Some (timer_objects s' !! x) ↔ is_Some (timer_objects s !! x)) as Hdom.
  { intros x. simpl. destruct (head l); by rewrite !lookup_alter_is_Some. }
  assert (∀ x, next_of s' x = if decide (x = t) then head l else next_of s x) as Hnx.
  { clear -Hhead Ht. destruct Ht as [d Ht], (head l); observe;
      edestruct Hhead as [? []]; done || congruence. }
  assert (∀ x, prev_of s' x = if decide (x = t) then None else if decide (head l = Some x) then Some t else prev_of s x) as Hpx.
  { clear -Hhead Ht. destruct Ht as [d Ht], (head l); observe;
      edestruct Hhead as [? []]; done || congruence. }
  split_and!; [|done|].
  - split_and!; [done|by apply NoDup_cons| |].
    + intros [|y l1] x l2 E; simplify_eq/=.
      * rewrite Hnx, Hpx, !decide_True by done. split; [by apply Hdom|done].
      * assert (x ≠ y) as Hxy by set_solver. destruct (Hin l1 x l2 eq_refl) as (? & ? & Hlx).
        rewrite Hnx, Hpx, !(decide_False (P := x = y)) by done. split_and!; [by apply Hdom|done|].
        destruct l1 as [|z l1]; simpl; [by rewrite decide_True|].
        rewrite decide_False; [done|]. intros [= ->]. apply NoDup_cons in Hnd. set_solver.
    + intros x Hx. apply not_elem_of_cons in Hx as [Hxt Hx]. rewrite Hnx, Hpx, !(decide_False (P := x = t)) by done.
      destruct (Hout x Hx) as [-> ->]. rewrite decide_False; [done|]. intros E. destruct l; simplify_eq/=. set_solver.
  - unfold s'. destruct (head l); repeat (apply keeps_alter; [done|]); apply keeps_refl.
Qed.

(** A store to the queue of waits of a timer. *)
Lemma alter_ops_obs l s t q (s' := TimerQueue (timers_ s) (heap_ s) (alter (λ d, set_ops (q (op_queue_ d)) d) t (timer_objects s))) :
  is_Some (timer_objects s !! t) → queue_struct l s →
  queue_struct l s' ∧ same_dom s s' ∧ (∀ x, deadline_of s' x = deadline_of s x) ∧
  ∀ x, ops_of s' x = if decide (x = t) then q (ops_of s t) else ops_of s x.
Proof.
  intros [d Ht] (Hl & Ho & Hs & Hin).
  assert (∀ x, index_of s' x = index_of s x) as Hi by (unfold s'; observe).
  split_and!.
  - split_and!; [|done| |done].
    + eapply links_ext; [..|exact Hl]; [done|..]; intros x; [simpl; by rewrite lookup_alter_is_Some|unfold s'; observe..].
    + intros x i. rewrite Hi. apply Hs.
  - intros x. simpl. by rewrite lookup_alter_is_Some.
  - intros x. unfold deadline_of. by rewrite Hi.
  - unfold s'. observe.
Qed.

(** The timer at the root has the earliest deadline. *)
Lemma root_earliest s t : ordered (heap_ s) → indexed s → index_of s t = Some 0 →
  ∃ z0, deadline_of s t = Some z0 ∧ ∀ x z, deadline_of s x = Some z → (z0 ≤ z)%Z.
Proof.
  intros Ho Hs Hi. pose proof Hi as (e & He & ->)%Hs%fmap_Some. exists (time_ e).
  split; [by unfold deadline_of; rewrite Hi; simpl; rewrite He|]. intros x z.
  rewrite deadline_elem, list_elem_of_lookup by done. intros (j & Hj).
  pose proof (heap_root_least _ _ Ho j (lookup_lt_Some _ _ _ Hj)).
  by rewrite (key_lookup _ _ _ He), (key_lookup _ _ _ Hj) in *.
Qed.

Lemma earliest_root s t z0 : ordered (heap_ s) → indexed s → deadline_of s t = Some z0 →
  (∀ x z, x ≠ t → deadline_of s x = Some z → (z0 < z)%Z) → index_of s t = Some 0.
Proof.
  intros Ho Hs Ht Hx. assert (0 < length (heap_ s)) as [[z x] He]%lookup_lt_is_Some.
  { apply deadline_elem, list_elem_of_lookup in Ht as (j & ?%lookup_lt_Some); [lia|done]. }
  assert (deadline_of s x = Some z) as Hdx by (apply deadline_elem; [done|by eapply list_elem_of_lookup_2]).
  assert (index_of s x = Some 0) as Hix by (apply Hs; by rewrite He).
  destruct (decide (x = t)) as [->|Hne]; [done|]. pose proof (Hx _ _ Hne Hdx).
  destruct (root_earliest s x Ho Hs Hix) as (z1 & Hz1 & Hle). specialize (Hle _ _ Ht). simplify_eq. lia.
Qed.

Lemma idle_not_listed s (l : list nat) t : (∀ t, ops_of s t ≠ [] ↔ t ∈ l) → ops_of s t = [] → t ∉ l.
Proof. intros Hl Ht ?%Hl. done. Qed.

Lemma unlisted_index l s t : queue_struct l s → t ∉ l → index_of s t = None.
Proof.
  intros (_ & _ & Hs & Hin) Ht. destruct (index_of s t) as [i|] eqn:Hi; [|done].
  apply Hs, fmap_Some in Hi as (e & He%list_elem_of_lookup_2 & ->). by apply Hin in He.
Qed.

Definition first_deadline (time : Z) : option Z := if is_positive_infinity time then None else Some time.

Lemma deadline_insert s s' time t x :
  indexed s → indexed s' → index_of s t = None → heap_ s' ≡ₚ entries time t ++ heap_ s →
  deadline_of s' x = if decide (x = t) then first_deadline time else deadline_of s x.
Proof.
  intros Hs Hs' Ht Hp. assert (∀ z, HeapEntry z t ∉ heap_ s) as Hn.
  { intros z Hz. apply deadline_elem in Hz; [|done]. unfold deadline_of in Hz. by rewrite Ht in Hz. }
  apply option_eq. intros z. rewrite deadline_elem, Hp, elem_of_app by done.
  unfold entries, first_deadline. case_decide as Hx; [subst|rewrite deadline_elem by done];
    destruct (is_positive_infinity time); rewrite ?elem_of_nil, ?list_elem_of_singleton; naive_solver.
Qed.

Lemma enqueue_idle_spec s time t op :
  queue_wf s → is_Some (timer_objects s !! t) → ops_of s t = [] →
  wp (enqueue_timer is_positive_infinity time t op) (λ b s', queue_wf s' ∧
    contents s' = <[t := (first_deadline time, [op])]> (contents s) ∧
    (b = true ↔ index_of s' t = Some 0)) s.
Proof.
  intros (l & Hstruct & Hops) Ht Hidle. pose proof (idle_not_listed _ _ _ Hops Hidle) as Hn.
  pose proof Hstruct as (Hl & Ho & Hs & Hin). pose proof (unlisted_index _ _ _ Hstruct Hn) as Hidx.
  apply wp_bind. eapply wp_is_active; [done..|]. rewrite bool_decide_false by done.
  apply wp_bind, wp_bind. eapply wp_mono; [|by apply insert_into_heap_spec].
  intros _ s1 (Ho1 & Hp1 & Hs1 & Hsame). destruct (same_timers_obs _ _ Hsame) as (Hd1 & Hops1 & _).
  eapply wp_mono; [|apply insert_into_list_spec; [by eapply same_timers_links|by apply Hd1|done]].
  intros _ s2 (Hl2 & Hh2 & Hidx2 & Hops2 & Hd2).
  assert (queue_struct (t :: l) s2) as Hstruct2.
  { split_and!; [done|by rewrite Hh2|intros x i; rewrite Hidx2, Hh2; apply Hs1|].
    intros e. rewrite Hh2, Hp1, elem_of_app. unfold entries. destruct (is_positive_infinity time); set_solver. }
  assert (is_Some (timer_objects s2 !! t)) as Ht2 by (by apply Hd2, Hd1).
  destruct (alter_ops_obs (t :: l) s2 t (λ q, q ++ [op]) Ht2 Hstruct2) as (Hst3 & Hd3 & Hdl3 & Hops3).
  apply wp_bind, wp_alter; [done|]. simpl in *. set (s3 := TimerQueue _ _ _) in *.
  assert (is_Some (timer_objects s3 !! t)) as [d3 Hd] by (by apply Hd3).
  rewrite Hops2, Hops1, Hidle in Hops3. simpl in Hops3.
  assert (∀ x, ops_of s3 x = if decide (x = t) then [op] else ops_of s x) as Hops'.
  { intros x. rewrite Hops3. case_decide; [done|]. by rewrite Hops2, Hops1. }
  apply wp_bind. eapply wp_timer_at; [done|]. apply wp_ret. split_and!.
  - exists (t :: l). split; [done|]. intros x. rewrite Hops', elem_of_cons. case_decide; [naive_solver|].
    rewrite Hops. naive_solver.
  - apply contents_insert; [done|intros x; by rewrite (Hd3 x), (Hd2 x), (Hd1 x)| |done].
    intros x. rewrite Hdl3. eapply deadline_insert; [done|apply Hstruct2|done|by rewrite Hh2].
  - unfold index_of. rewrite Hd. simpl. specialize (Hops' t). unfold ops_of in Hops'. rewrite Hd in Hops'. simpl in Hops'.
    rewrite decide_True in Hops' by done. rewrite Hops'. simpl.
    rewrite andb_true_iff, !bool_decide_eq_true. naive_solver.
Qed.

Lemma enqueue_busy_spec s time t op :
  queue_wf s → ops_of s t ≠ [] → wo_id op ∉ (wo_id <$> ops_of s t) →
  wp (enqueue_timer is_positive_infinity time t op) (λ b s', queue_wf s' ∧
    contents s' = <[t := (deadline_of s t, ops_of s t ++ [op])]> (contents s) ∧ b = false) s.
Proof.
  intros (l & Hstruct & Hops) Hbusy Hop. pose proof (proj1 (Hops t) Hbusy) as Hin.
  pose proof Hstruct as (Hl & _). pose proof (links_exists _ _ _ Hl Hin) as Ht.
  apply wp_bind. eapply wp_is_active; [done..|]. rewrite bool_decide_true by done. apply wp_bind, wp_ret.
  destruct (alter_ops_obs l s t (λ q, q ++ [op]) Ht Hstruct) as (Hst3 & Hd3 & Hdl3 & Hops3).
  apply wp_bind, wp_alter; [done|]. simpl in *. set (s3 := TimerQueue _ _ _) in *.
  assert (is_Some (timer_objects s3 !! t)) as [d3 Hd] by (by apply Hd3).
  apply wp_bind. eapply wp_timer_at; [done|]. apply wp_ret. split_and!.
  - exists l. split; [done|]. intros x. rewrite Hops3. case_decide; [subst|apply Hops].
    split; [done|]. intros _. by destruct (ops_of s t).
  - apply contents_insert; [done..| |done]. intros x. rewrite Hdl3. case_decide; congruence.
  - specialize (Hops3 t). rewrite decide_True in Hops3 by done. unfold ops_of at 1 in Hops3. rewrite Hd in Hops3. simpl in Hops3.
    rewrite Hops3. destruct (ops_of s t) as [|o q]; [done|]. simpl in *.
    apply andb_false_intro2, bool_decide_false. intros [= E]. apply Hop. rewrite E. set_solver.
Qed.

End operations.

(** ** Taking waits from a timer *)

Definition ops_set (l : list nat) (t : nat) (q : list wait_op) (s s' : timer_queue) : Prop :=
  queue_struct l s' ∧ same_dom s s' ∧ heap_ s' = heap_ s ∧ (∀ x, deadline_of s' x = deadline_of s x) ∧
  ∀ x, ops_of s' x = if decide (x = t) then q else ops_of s x.

Lemma ops_set_trans l t q q' s1 s2 s3 : ops_set l t q s1 s2 → ops_set l t q' s2 s3 → ops_set l t q' s1 s3.
Proof.
  intros (_ & Hd & Hh & Hdl & Ho) (Hst & Hd' & Hh' & Hdl' & Ho'). split_and!; [done| |congruence| |].
  - intros x. by rewrite (Hd' x), (Hd x).
  - intros x. by rewrite Hdl', Hdl.
  - intros x. rewrite Ho', Ho. by case_decide.
Qed.

Lemma ops_set_refl l t s : queue_struct l s → ops_set l t (ops_of s t) s s.
Proof. intros. split_and!; [done..|]. intros x. case_decide; congruence. Qed.

Lemma wp_set_ops l s t q (Q : unit → timer_queue → Prop) :
  queue_struct l s → t ∈ l → (∀ s', ops_set l t q s s' → Q tt s') → wp (alter_timer (set_ops q) t) Q s.
Proof.
  intros Hs Ht HQ. assert (is_Some (timer_objects s !! t)) as He by (eapply links_exists; [apply Hs|done]).
  destruct (alter_ops_obs l s t (λ _, q) He Hs) as (? & ? & ? & ?). apply wp_alter; [done|]. by apply HQ.
Qed.

Lemma complete_ops_spec l t q ops s :
  queue_struct l s → t ∈ l → ops_of s t = q →
  wp (complete_ops t q ops) (λ r s', r = ops ++ (set_ec wait_success <$> q) ∧ ops_set l t [] s s') s.
Proof.
  intros Hs Ht. revert s ops Hs. induction q as [|op q IH]; intros s ops Hs Hq; simpl.
  - apply wp_ret. rewrite app_nil_r. split; [done|]. rewrite <- Hq. by apply ops_set_refl.
  - apply wp_bind. eapply wp_set_ops; [done..|]. intros s1 H1. pose proof H1 as (Hst1 & _ & _ & _ & Ho1).
    eapply wp_mono; [|apply IH; [done|]]; [|by rewrite Ho1, decide_True].
    intros r s2 [-> H2]. rewrite <- (assoc_L (++)). split; [done|]. by eapply ops_set_trans.
Qed.

(** How many waits are cancelled. *)
Definition cancel_count (max_cancelled : option nat) (n : nat) : nat :=
  match max_cancelled with None => n | Some m => m `min` n end.

Lemma cancel_loop_spec l t mx q ops s n :
  queue_struct l s → t ∈ l → ops_of s t = q → (∀ m, mx = Some m → n ≤ m) →
  let k := cancel_count ((λ m, m - n) <$> mx) (length q) in
  wp (cancel_loop t mx q ops n) (λ r s', r = (ops ++ (set_ec wait_aborted <$> take k q), n + k) ∧
    ops_set l t (drop k q) s s') s.
Proof.
  intros Hs Ht. revert s ops n Hs. induction q as [|op q IH]; intros s ops n Hs Hq Hn; simpl.
  - apply wp_ret. rewrite take_nil, drop_nil, app_nil_r. split; [f_equal|].
    + unfold cancel_count. destruct mx; simpl; lia.
    + rewrite <- Hq. by apply ops_set_refl.
  - case_decide as Hm.
    + subst mx. simpl. rewrite Nat.sub_diag. simpl. apply wp_ret. rewrite app_nil_r, Nat.add_0_r.
      split; [done|]. rewrite <- Hq. by apply ops_set_refl.
    + assert (∃ k, cancel_count ((λ m, m - n) <$> mx) (S (length q)) = S k ∧
        k = cancel_count ((λ m, m - S n) <$> mx) (length q)) as (k & Hk & Hk').
      { destruct mx as [m|]; simpl; [|eauto]. specialize (Hn m eq_refl). assert (n ≠ m) by congruence.
        exists ((m - S n) `min` length q). split; [lia|done]. }
      rewrite Hk. apply wp_bind. eapply wp_set_ops; [done..|]. intros s1 H1. pose proof H1 as (Hst1 & _ & _ & _ & Ho1).
      eapply wp_mono; [|apply IH; [done|by rewrite Ho1, decide_True|]].
      * simpl. rewrite <- Hk'. intros r s2 [-> H2]. rewrite <- (assoc_L (++)). split; [f_equal; lia|]. by eapply ops_set_trans.
      * intros m ->. specialize (Hn m eq_refl). assert (n ≠ m) by congruence. lia.
Qed.

Lemma key_loop_spec l t ck q ops other s :
  queue_struct l s → t ∈ l → ops_of s t = q →
  wp (key_loop t ck q ops other) (λ r s',
    r = (ops ++ (set_ec wait_aborted <$> filter (λ op, cancellation_key_ op = ck) q),
         other ++ filter (λ op, cancellation_key_ op ≠ ck) q) ∧ ops_set l t [] s s') s.
Proof.
  intros Hs Ht. revert s ops other Hs. induction q as [|op q IH]; intros s ops other Hs Hq; simpl.
  - apply wp_ret. rewrite !app_nil_r. split; [done|]. rewrite <- Hq. by apply ops_set_refl.
  - apply wp_bind. eapply wp_set_ops; [done..|]. intros s1 H1. pose proof H1 as (Hst1 & _ & _ & _ & Ho1).
    assert (ops_of s1 t = q) as Hq1 by (by rewrite Ho1, decide_True).
    rewrite !filter_cons. case_decide; [rewrite (decide_False (P := _ ≠ _)) by tauto|rewrite decide_True by done];
      (eapply wp_mono; [|by apply IH]); intros r s2 [-> H2]; csimpl; rewrite <- (assoc_L (++)); (split; [done|]);
      by eapply ops_set_trans.
Qed.

(** A timer without waits, as far as the map goes. *)
Definition settled (dl : option Z) (q : list wait_op) : option Z * list wait_op :=
  match q with [] => (None, []) | _ => (dl, q) end.

(** [remove_timer] for a timer that has run out of waits. *)
Lemma remove_idle_spec l s t :
  queue_struct l s → t ∈ l → (∀ x, x ≠ t → ops_of s x ≠ [] ↔ x ∈ l) → ops_of s t = [] →
  wp (remove_timer t) (λ _ s', queue_wf s' ∧ contents s' = <[t := (None, [])]> (contents s) ∧
    length (heap_ s') ≤ length (heap_ s) ∧ (index_of s t ≠ None → length (heap_ s') < length (heap_ s)) ∧
    ∀ x, deadline_of s' x = if decide (x = t) then None else deadline_of s x) s.
Proof.
  intros Hs Ht Hother Hidle. eapply wp_mono; [|by apply remove_timer_spec].
  intros _ s' ((l' & Hs' & Hl') & Hp & Hd & Ho). pose proof Hs as (Hl & _ & Hidx & _).
  assert (∀ x, deadline_of s' x = if decide (x = t) then None else deadline_of s x) as Hdl.
  { intros x. apply deadline_without; [done|apply Hs'|done]. }
  split_and!; [| |by rewrite Hp; apply length_filter| |done].
  - exists l'. split; [done|]. intros x. rewrite Ho, Hl'. destruct (decide (x = t)) as [->|]; [naive_solver|].
    rewrite Hother by done. naive_solver.
  - apply contents_insert; [by eapply links_exists|done|done|]. intros x. rewrite Ho. case_decide; congruence.
  - rewrite Hp. intros [i Hi]%not_eq_None_Some. apply Hidx, fmap_Some in Hi as (e & He%list_elem_of_lookup_2 & E).
    apply length_filter_lt with e; [done|]. naive_solver.
Qed.

Lemma remove_if_idle_spec l s t :
  queue_struct l s → t ∈ l → (∀ x, x ≠ t → ops_of s x ≠ [] ↔ x ∈ l) →
  wp (remove_if_idle t) (λ _ s', queue_wf s' ∧
    contents s' = <[t := settled (deadline_of s t) (ops_of s t)]> (contents s)) s.
Proof.
  intros Hs Ht Hother. pose proof Hs as (Hl & _). destruct (links_exists _ _ _ Hl Ht) as [d Hd].
  apply wp_bind. eapply wp_timer_at; [done|]. assert (ops_of s t = op_queue_ d) as Ho by (unfold ops_of; by rewrite Hd).
  rewrite <- Ho. case_decide as Hidle.
  - rewrite Hidle. eapply wp_mono; [|by eapply remove_idle_spec]. naive_solver.
  - apply wp_ret. split.
    + exists l. split; [done|]. intros x. destruct (decide (x = t)) as [->|]; [done|auto].
    + symmetry. apply insert_id. replace (settled _ _) with (deadline_of s t, ops_of s t) by (by destruct (ops_of s t)).
      apply contents_Some. split_and!; [by eexists|done..].
Qed.

(** The state in which the waits of a timer were taken, as a map. *)
Lemma ops_set_contents l t q s s' :
  is_Some (timer_objects s !! t) → ops_set l t q s s' →
  contents s' = <[t := (deadline_of s t, q)]> (contents s).
Proof.
  intros Ht (_ & Hd & _ & Hdl & Ho). apply contents_insert; [done..| |done]. intros x. rewrite Hdl. case_decide; congruence.
Qed.

Lemma cancel_timer_spec s t ops mx :
  queue_wf s → is_Some (timer_objects s !! t) →
  let k := cancel_count mx (length (ops_of s t)) in
  wp (cancel_timer t ops mx) (λ r s', queue_wf s' ∧ r = (ops ++ (set_ec wait_aborted <$> take k (ops_of s t)), k) ∧
    contents s' = <[t := settled (deadline_of s t) (drop k (ops_of s t))]> (contents s)) s.
Proof.
  intros (l & Hs & Hops) Ht k. pose proof Hs as (Hl & _). apply wp_bind. eapply wp_is_active; [done..|].
  case_bool_decide as Hin.
  - pose proof Ht as [d Hd]. apply wp_bind. eapply wp_timer_at; [done|].
    assert (ops_of s t = op_queue_ d) as Ho by (unfold ops_of; by rewrite Hd). rewrite <- Ho.
    apply wp_bind. eapply wp_mono; [|apply (cancel_loop_spec l); [done..|lia]]. simpl.
    replace (cancel_count _ _) with k by (unfold k, cancel_count; destruct mx; simpl; f_equal; lia).
    intros r s1 [-> H1]. pose proof H1 as (Hs1 & Hd1 & _ & Hdl1 & Ho1). apply wp_bind.
    eapply wp_mono; [|apply (remove_if_idle_spec l); [done..|]].
    + intros _ s2 [Hwf Hc]. apply wp_ret. split_and!; [done..|].
      rewrite Hc, Hdl1, Ho1, decide_True, (ops_set_contents _ _ _ _ _ Ht H1), insert_insert_eq by done. done.
    + intros x Hx. rewrite Ho1, decide_False by done. apply Hops.
  - apply wp_ret. assert (ops_of s t = []) as Hidle by (destruct (decide (ops_of s t = [])) as [|?%Hops]; done).
    unfold k. rewrite Hidle. simpl. rewrite take_nil, drop_nil. simpl. rewrite app_nil_r.
    replace (cancel_count mx 0) with 0 by (destruct mx; simpl; lia).
    split_and!; [by exists l|done|]. symmetry. apply insert_id, contents_Some. split_and!; [done| |done].
    unfold deadline_of. by rewrite (unlisted_index _ _ _ Hs Hin).
Qed.

Lemma cancel_timer_by_key_spec s t ops ck :
  queue_wf s → is_Some (timer_objects s !! t) →
  wp (cancel_timer_by_key t ops ck) (λ r s', queue_wf s' ∧
    r = ops ++ (set_ec wait_aborted <$> filter (λ op, cancellation_key_ op = ck) (ops_of s t)) ∧
    contents s' = <[t := settled (deadline_of s t) (filter (λ op, cancellation_key_ op ≠ ck) (ops_of s t))]> (contents s)) s.
Proof.
  intros (l & Hs & Hops) Ht. pose proof Hs as (Hl & _). apply wp_bind. eapply wp_is_active; [done..|].
  case_bool_decide as Hin.
  - pose proof Ht as [d Hd]. apply wp_bind. eapply wp_timer_at; [done|].
    assert (ops_of s t = op_queue_ d) as Ho by (unfold ops_of; by rewrite Hd). rewrite <- Ho.
    apply wp_bind. eapply wp_mono; [|by apply (key_loop_spec l)].
    intros r s1 [-> H1]. pose proof H1 as (Hs1 & Hd1 & Hh1 & Hdl1 & Ho1). simpl.
    assert (is_Some (timer_objects s1 !! t)) as Ht1 by (by apply Hd1).
    destruct (alter_ops_obs l s1 t (λ q, q ++ filter (λ op, cancellation_key_ op ≠ ck) (ops_of s t)) Ht1 Hs1) as (Hs2 & Hd2 & Hdl2 & Ho2).
    rewrite Ho1, decide_True in Ho2 by done. simpl in Ho2.
    apply wp_bind, wp_alter; [done|]. set (s2 := TimerQueue _ _ _) in *. apply wp_bind.
    eapply wp_mono; [|apply (remove_if_idle_spec l); [done..|]].
    + intros _ s3 [Hwf Hc]. apply wp_ret. split_and!; [done..|].
      rewrite Hc, Hdl2, Hdl1, Ho2, decide_True by done.
      rewrite (contents_insert s1 s2 t (deadline_of s t) (filter (λ op, cancellation_key_ op ≠ ck) (ops_of s t))); [|done..| |done].
      * by rewrite insert_insert_eq, (ops_set_contents _ _ _ _ _ Ht H1), insert_insert_eq.
      * intros x. rewrite Hdl2, Hdl1. case_decide; congruence.
    + intros x Hx. rewrite Ho2, decide_False, Ho1, decide_False by done. apply Hops.
  - apply wp_ret. assert (ops_of s t = []) as Hidle by (destruct (decide (ops_of s t = [])) as [|?%Hops]; done).
    rewrite Hidle. simpl. rewrite app_nil_r.
    split_and!; [by exists l|done|]. symmetry. apply insert_id, contents_Some. split_and!; [done| |done].
    unfold deadline_of. by rewrite (unlisted_index _ _ _ Hs Hin).
Qed.

(** ** Timers that are due *)

Definition deadline_in (A : timer_map) (t : nat) : option Z := A !! t ≫= fst.
Definition ops_in (A : timer_map) (t : nat) : list wait_op := from_option snd [] (A !! t).
Definition due (now : Z) (A : timer_map) (t : nat) : Prop := ∃ z, deadline_in A t = Some z ∧ (z ≤ now)%Z.
Definition no_later (A : timer_map) (t u : nat) : Prop :=
  ∀ z z', deadline_in A t = Some z → deadline_in A u = Some z' → (z ≤ z')%Z.

(** The due timers, in the order of their deadlines, give their waits and are idle. *)
Definition ready_spec (now : Z) (A : timer_map) (out : list wait_op) (A' : timer_map) : Prop :=
  ∃ ts, NoDup ts ∧ StronglySorted (no_later A) ts ∧ (∀ t, t ∈ ts ↔ due now A t) ∧
    out = (ts ≫= λ t, set_ec wait_success <$> ops_in A t) ∧ A' = foldr (λ t, <[t := (None, [])]>) A ts.

Lemma deadline_in_contents s t : deadline_in (contents s) t = deadline_of s t.
Proof.
  unfold deadline_in. rewrite contents_lookup. case_decide as Ht; [done|]. unfold deadline_of, index_of.
  destruct (timer_objects s !! t); [|done]. by destruct Ht.
Qed.
Lemma ops_in_contents s t : ops_in (contents s) t = ops_of s t.
Proof.
  unfold ops_in. rewrite contents_lookup. case_decide as Ht; [done|]. unfold ops_of.
  destruct (timer_objects s !! t); [|done]. by destruct Ht.
Qed.
Lemma foldr_idle_insert (A : timer_map) t ts :
  foldr (λ t, <[t := (None, [])]>) (<[t := (None, [])]> A) ts = <[t := (None, [])]> (foldr (λ t, <[t := (None, [])]>) A ts).
Proof.
  induction ts as [|u ts IH]; simpl; [done|]. rewrite IH. destruct (decide (t = u)) as [->|]; [done|].
  by apply insert_insert_ne.
Qed.

(** One due timer, the earliest, and then the rest. *)
Lemma ready_spec_cons now A t z out A' :
  deadline_in A t = Some z → (z ≤ now)%Z → (∀ u z', deadline_in A u = Some z' → (z ≤ z')%Z) →
  ready_spec now (<[t := (None, [])]> A) out A' →
  ready_spec now A ((set_ec wait_success <$> ops_in A t) ++ out) A'.
Proof.
  intros Ht Hz Hmin (ts & Hnd & Hsort & Hdue & -> & ->).
  assert (∀ u, deadline_in (<[t := (None, [])]> A) u = if decide (u = t) then None else deadline_in A u) as Hdl.
  { intros u. unfold deadline_in. rewrite lookup_insert. repeat case_decide; subst; done. }
  assert (∀ u, u ∈ ts → u ≠ t) as Hnt.
  { intros u (z' & Hu & _)%Hdue ->. by rewrite Hdl, decide_True in Hu. }
  exists (t :: ts). split_and!.
  - apply NoDup_cons. split; [|done]. intros Hin. by apply (Hnt t).
  - constructor.
    + eapply StronglySorted_impl; [|exact Hsort]. intros u v Hu%Hnt Hv%Hnt Huv z1 z2.
      specialize (Huv z1 z2). by rewrite !Hdl, !decide_False in Huv by done.
    + apply Forall_forall. intros u _ z1 z2 H1 H2. simplify_eq. by eapply Hmin.
  - intros u. rewrite elem_of_cons, Hdue. unfold due. setoid_rewrite Hdl.
    destruct (decide (u = t)) as [->|]; naive_solver.
  - simpl. f_equal. apply Forall_bind_ext, Forall_forall. intros u Hu.
    unfold ops_in. rewrite lookup_insert_ne; [done|]. symmetry. auto.
  - simpl. apply foldr_idle_insert.
Qed.

Lemma ready_spec_none now s :
  (∀ t z, deadline_of s t = Some z → (now < z)%Z) → ready_spec now (contents s) [] (contents s).
Proof.
  intros Hn. exists []. split_and!; try done; [constructor..|]. intros t. split; [intros []%elem_of_nil|].
  intros (z & Hz & ?). rewrite deadline_in_contents in Hz. specialize (Hn _ _ Hz). lia.
Qed.

(** One round of the loop, for the timer at the root. *)
Lemma ready_round_spec l s ops t i {B} (k : list wait_op → comp timer_queue B) Q :
  queue_struct l s → (∀ t, ops_of s t ≠ [] ↔ t ∈ l) → index_of s t = Some i →
  (∀ s', queue_wf s' → contents s' = <[t := (None, [])]> (contents s) → length (heap_ s') < length (heap_ s) →
     wp (k (ops ++ (set_ec wait_success <$> ops_of s t))) Q s') →
  wp (d ← timer_at t; ops ← complete_ops t (op_queue_ d) ops; remove_timer t;; k ops) Q s.
Proof.
  intros Hs Hops Hi Hk. assert (t ∈ l) as Hel.
  { destruct (decide (t ∈ l)) as [|Hn]; [done|]. by rewrite (unlisted_index _ _ _ Hs Hn) in Hi. }
  pose proof Hs as (Hl & Ho & Hidx & Hin). destruct (links_exists _ _ _ Hl Hel) as [d Hd].
  apply wp_bind. eapply wp_timer_at; [done|].
  assert (ops_of s t = op_queue_ d) as Hoq by (unfold ops_of; by rewrite Hd). rewrite <- Hoq.
  apply wp_bind. eapply wp_mono; [|by apply (complete_ops_spec l)]. intros r s1 [-> H1].
  pose proof H1 as (Hs1 & Hd1 & Hh1 & Hdl1 & Ho1). apply wp_bind.
  eapply wp_mono; [|apply (remove_idle_spec l); [done..|intros x Hx; rewrite Ho1, decide_False by done; apply Hops|by rewrite Ho1, decide_True]].
  intros _ s2 (Hwf2 & Hc2 & _ & Hlt & _). apply Hk; [done| |].
  - rewrite Hc2, (ops_set_contents _ _ _ _ _ (mk_is_Some _ _ Hd) H1). by rewrite insert_insert_eq.
  - rewrite <- Hh1. apply Hlt. intros Hn. pose proof (Hdl1 t) as E. unfold deadline_of in E. rewrite Hn, Hi in E. simpl in E.
    apply Hidx, fmap_Some in Hi as (e & He & _). rewrite He in E. done.
Qed.

Lemma ready_loop_spec fuel now ops s :
  queue_wf s → length (heap_ s) < fuel →
  wp (ready_loop fuel now ops) (λ r s', queue_wf s' ∧ ∃ out, r = ops ++ out ∧ ready_spec now (contents s) out (contents s')) s.
Proof.
  revert ops s. induction fuel as [|fuel IH]; intros ops s Hwf Hfuel; [lia|]. simpl. apply wp_bind, wp_get.
  pose proof Hwf as (l & Hs & Hops). pose proof Hs as (Hl & Ho & Hidx & Hin).
  assert (∀ e h, heap_ s = e :: h → index_of s (timer_ e) = Some 0) as Hroot by (intros e h Hh; apply Hidx; by rewrite Hh).
  destruct (heap_ s) as [|e h] eqn:Hh.
  - apply wp_ret. split; [done|]. exists []. rewrite app_nil_r. split; [done|]. apply ready_spec_none.
    intros t z Hz. rewrite deadline_elem, Hh in Hz by done. by apply elem_of_nil in Hz.
  - specialize (Hroot e h eq_refl). rewrite <- Hh in Ho, Hin, Hfuel.
    destruct (root_earliest s (timer_ e) Ho Hidx Hroot) as (z & Hz & Hmin).
    assert (z = time_ e) as ->.
    { unfold deadline_of in Hz. rewrite Hroot in Hz. simpl in Hz. rewrite Hh in Hz. by simplify_eq/=. }
    case_decide as Hnow.
    + apply wp_ret. split; [done|]. exists []. rewrite app_nil_r. split; [done|]. apply ready_spec_none.
      intros t z Hz'. specialize (Hmin _ _ Hz'). lia.
    + eapply (ready_round_spec l); [done..|]. intros s' Hwf' Hc Hlt.
      eapply wp_mono; [|apply IH; [done|lia]]. intros r s'' (Hwf'' & out & -> & Hr). split; [done|].
      exists ((set_ec wait_success <$> ops_of s (timer_ e)) ++ out). rewrite (assoc_L (++)). split; [done|].
      rewrite <- ops_in_contents. apply (ready_spec_cons _ _ _ (time_ e)); [by rewrite deadline_in_contents|lia| |by rewrite <- Hc].
      intros u z'. rewrite deadline_in_contents. apply Hmin.
Qed.

(** ** Moving a timer

    The target takes the place of the source: the queue is the same up to an
    exchange of the two names. *)
Definition renames (ρ : nat → nat) (s s' : timer_queue) : Prop :=
  (∀ x, ρ (ρ x) = x) ∧ timers_ s' = ρ <$> timers_ s ∧
  heap_ s' = (λ e, HeapEntry (time_ e) (ρ (timer_ e))) <$> heap_ s ∧
  (∀ x, is_Some (timer_objects s' !! x) ↔ is_Some (timer_objects s !! ρ x)) ∧
  (∀ x, next_of s' x = ρ <$> next_of s (ρ x)) ∧ (∀ x, prev_of s' x = ρ <$> prev_of s (ρ x)) ∧
  (∀ x, index_of s' x = index_of s (ρ x)) ∧ (∀ x, ops_of s' x = ops_of s (ρ x)).

Section rename.
Context (ρ : nat → nat) (s s' : timer_queue) (Hr : renames ρ s s').

Lemma rename_inj : Inj (=) (=) ρ.
Proof using Hr. destruct Hr as (Hρ & _). intros x y E. rewrite <- (Hρ x), E. apply Hρ. Qed.
Lemma rename_elem x (l : list nat) : x ∈ ρ <$> l ↔ ρ x ∈ l.
Proof using Hr.
  destruct Hr as (Hρ & _). rewrite list_elem_of_fmap. split; [intros (y & -> & ?); by rewrite Hρ|].
  intros ?. exists (ρ x). by rewrite Hρ.
Qed.

Lemma rename_links l : links l s → links (ρ <$> l) s'.
Proof using Hr.
  pose proof rename_inj. destruct Hr as (Hρ & Ht & _ & He & Hn & Hp & _). intros (Hhd & Hnd & Hin & Hout). split_and!.
  - rewrite Ht, Hhd. by destruct l.
  - by apply NoDup_fmap.
  - intros l1 x l2 E. apply fmap_app_inv in E as (k1 & k2 & -> & E & ->).
    symmetry in E. apply fmap_cons_inv in E as (y & k3 & -> & -> & ->).
    rewrite He, Hn, Hp, Hρ. destruct (Hin k1 y k3 eq_refl) as (? & -> & ->).
    rewrite fmap_last. split_and!; [done|by destruct k3|done].
  - intros x Hx. rewrite rename_elem in Hx. rewrite Hn, Hp. by destruct (Hout _ Hx) as [-> ->].
Qed.

Lemma rename_deadline x : deadline_of s' x = deadline_of s (ρ x).
Proof using Hr.
  destruct Hr as (_ & _ & Hh & _ & _ & _ & Hi & _). unfold deadline_of. rewrite Hi, Hh.
  destruct (index_of s (ρ x)); simpl; [|done]. rewrite list_lookup_fmap. by destruct (heap_ s !! n).
Qed.

Lemma rename_wf : queue_wf s → queue_wf s'.
Proof using Hr.
  intros (l & (Hl & Ho & Hidx & Hin) & Hops). exists (ρ <$> l). pose proof (rename_links _ Hl).
  pose proof Hr as (Hρ & Ht & Hh & He & _ & _ & Hi & Hq). split; [split_and!; [done|..]|].
  - intros j Hj Hlen. rewrite Hh, length_fmap in Hlen. specialize (Ho j Hj Hlen). unfold key in *. rewrite Hh.
    rewrite !list_lookup_fmap. by destruct (heap_ s !! j), (heap_ s !! parent_of j).
  - intros x i. rewrite Hi, (Hidx (ρ x) i), Hh, list_lookup_fmap.
    destruct (heap_ s !! i) as [e|]; simpl; [|done]. split; intros [= E]; f_equal; [by rewrite E, Hρ|by rewrite <- E, Hρ].
  - intros e. rewrite Hh, list_elem_of_fmap, rename_elem. intros (e' & -> & He'). simpl. rewrite Hρ. by apply Hin.
  - intros x. by rewrite Hq, rename_elem.
Qed.
End rename.

Lemma links_next_prev l s x y : links l s → next_of s x = Some y ↔ prev_of s y = Some x.
Proof.
  intros (_ & _ & Hin & Hout). split.
  - intros Hx. destruct (decide (x ∈ l)) as [(l1 & l2 & ->)%list_elem_of_split|Hn]; [|by destruct (Hout x Hn); congruence].
    destruct (Hin l1 x l2 eq_refl) as (_ & Hx' & _). rewrite Hx in Hx'. destruct l2 as [|z l2]; simplify_eq/=.
    destruct (Hin (l1 ++ [x]) z l2) as (_ & _ & ->); [by rewrite <- (assoc_L (++))|]. apply last_snoc.
  - intros Hy. destruct (decide (y ∈ l)) as [(l1 & l2 & ->)%list_elem_of_split|Hn]; [|by destruct (Hout y Hn); congruence].
    destruct (Hin l1 y l2 eq_refl) as (_ & _ & Hy'). rewrite Hy in Hy'. symmetry in Hy'. apply last_Some in Hy' as (l1' & ->).
    by destruct (Hin l1' x (y :: l2)) as (_ & -> & _); [rewrite <- (assoc_L (++))|].
Qed.

Lemma links_next_in l s x y : links l s → next_of s x = Some y → x ∈ l ∧ y ∈ l ∧ x ≠ y.
Proof.
  intros Hl Hx. pose proof Hl as (_ & Hnd & Hin & Hout).
  destruct (decide (x ∈ l)) as [(l1 & l2 & ->)%list_elem_of_split|Hn]; [|by destruct (Hout x Hn); congruence].
  destruct (Hin l1 x l2 eq_refl) as (_ & Hx' & _). rewrite Hx in Hx'. destruct l2 as [|z l2]; simplify_eq/=.
  split_and!; [set_solver..|]. intros ->. apply NoDup_app in Hnd as (_ & _ & Hnd). apply NoDup_cons in Hnd. set_solver.
Qed.

(** The heap after the entry of the source was redirected. *)
Definition redirect (target : nat) (i : option nat) (h : list heap_entry) : list heap_entry :=
  match i with Some i => alter (λ e, HeapEntry (time_ e) target) i h | None => h end.

Lemma redirect_renames s target source :
  indexed s → index_of s target = None →
  redirect target (index_of s source) (heap_ s) =
  (λ e, HeapEntry (time_ e) (transpose target source (timer_ e))) <$> heap_ s.
Proof.
  intros Hs Ht. apply list_eq. intros j. rewrite list_lookup_fmap.
  assert (∀ e, heap_ s !! j = Some e → timer_ e ≠ target ∧ (timer_ e = source ↔ index_of s source = Some j)) as Hj.
  { intros e He. rewrite (Hs source j), He. split; [|simpl; naive_solver].
    intros <-. assert (index_of s (timer_ e) = Some j) by (apply Hs; by rewrite He). congruence. }
  unfold redirect. destruct (index_of s source) as [i|] eqn:Hi; [destruct (decide (j = i)) as [->|]|].
  - rewrite list_lookup_alter_eq. destruct (heap_ s !! i) as [e|]; [|done]. simpl. destruct (Hj e eq_refl) as [? Hsrc].
    unfold transpose. rewrite decide_False, decide_True by naive_solver. done.
  - rewrite list_lookup_alter_ne by done. destruct (heap_ s !! j) as [[z x]|]; [|done]. simpl. destruct (Hj _ eq_refl) as [? Hsrc].
    unfold transpose. simpl in *. rewrite !decide_False by naive_solver. done.
  - destruct (heap_ s !! j) as [[z x]|]; [|done]. simpl. destruct (Hj _ eq_refl) as [? Hsrc].
    unfold transpose. simpl in *. rewrite !decide_False by naive_solver. done.
Qed.

Section move.
Context (l : list nat) (s : timer_queue) (target source : nat) (src : per_timer_data).
Context (Hstr : queue_struct l s) (Hnt : target ∉ l) (Hne : target ≠ source).
Context (Htgt : is_Some (timer_objects s !! target)) (Hsrc : timer_objects s !! source = Some src).
Let ρ := transpose target source.

Lemma move_fields_spec :
  ops_of s target = [] →
  wp (move_fields target source src) (λ _ s', timers_ s' = timers_ s ∧ heap_ s' = heap_ s ∧ same_dom s s' ∧
    (∀ x, next_of s' x = next_of s x) ∧ (∀ x, prev_of s' x = prev_of s x) ∧
    (∀ x, index_of s' x = index_of s (ρ x)) ∧ (∀ x, ops_of s' x = ops_of s (ρ x))) s.
Proof using Hne Hnt Hsrc Hstr Htgt.
  intros Hidle. pose proof (unlisted_index _ _ _ Hstr Hnt) as Hit. destruct Htgt as [d Hd].
  apply wp_bind, wp_alter; [done|]. simpl. apply wp_bind, wp_alter; [simpl; rewrite lookup_alter_is_Some; by eexists|]. simpl.
  apply wp_bind, wp_alter; [simpl; by rewrite !lookup_alter_is_Some|]. simpl.
  apply wp_alter; [simpl; rewrite !lookup_alter_is_Some; by eexists|]. simpl.
  unfold same_dom, ρ, transpose in *.
  split_and!; [done|done|simpl; intros x; by rewrite !lookup_alter_is_Some|observe..].
  by rewrite Hidle.
Qed.

Lemma move_roots_spec s1 :
  timers_ s1 = timers_ s → heap_ s1 = heap_ s →
  wp (move_roots target source src) (λ _ s', s' = TimerQueue (ρ <$> timers_ s)
    ((λ e, HeapEntry (time_ e) (ρ (timer_ e))) <$> heap_ s) (timer_objects s1)) s1.
Proof using Hne Hnt Hsrc Hstr Htgt.
  intros Ht Hh. pose proof Hstr as ((Hhd & _) & _ & Hidx & _).
  pose proof (unlisted_index _ _ _ Hstr Hnt) as Hit. pose proof (redirect_renames s target source Hidx Hit) as Hheap.
  assert (index_of s source = heap_index_ src) as Ei by (unfold index_of; by rewrite Hsrc). rewrite Ei in Hheap.
  fold ρ in Hheap. rewrite <- Hheap. apply wp_bind, wp_get. rewrite Ht, Hh. apply wp_bind.
  eapply (wp_mono _ (λ _ s', s' = TimerQueue (timers_ s) (redirect target (heap_index_ src) (heap_ s)) (timer_objects s1))).
  - intros _ s' ->. unfold ρ, transpose. case_decide as Hsrc'.
    + rewrite Hsrc'. simpl. apply wp_modify. simpl. by rewrite decide_False, decide_True.
    + apply wp_ret. f_equal. rewrite Hhd in *. destruct l as [|x l']; [done|]. simpl in *.
      rewrite !decide_False; [done|congruence|set_solver].
  - destruct (heap_index_ src) as [i|]; [|apply wp_ret; destruct s1; simpl in *; congruence].
    apply Hidx, fmap_Some in Ei as (e & He & _). rewrite decide_True by (by eapply lookup_lt_Some).
    apply wp_bind. eapply wp_heap_at; [by rewrite Hh|]. apply wp_store_heap; [rewrite Hh; by eapply lookup_lt_Some|].
    simpl. rewrite Ht, Hh. by rewrite (alter_as_insert _ _ _ e).
Qed.

Lemma neighbours_exist x y : next_of s x = Some y →
  is_Some (timer_objects s !! x) ∧ is_Some (timer_objects s !! y) ∧ x ≠ target ∧ y ≠ target ∧ x ≠ y.
Proof using Hnt Hstr.
  pose proof Hstr as (Hl & _). intros Hxy. destruct (links_next_in _ _ _ _ Hl Hxy) as (Hx & Hy & ?).
  split_and!; [by eapply links_exists..|intros ->|intros ->|]; done.
Qed.

Lemma rename_next_of x :
  (if decide (x = source) then None else if decide (x = target) then next_of s source else
   if decide (prev_of s source = Some x) then Some target else next_of s x) = ρ <$> next_of s (ρ x).
Proof using Hne Hnt Hstr.
  pose proof Hstr as (Hl & _). pose proof neighbours_exist as Hin.
  assert (next_of s target = None) as Htn by (pose proof Hl as (_ & _ & _ & Hout); by apply Hout).
  unfold ρ, transpose. destruct (decide (x = source)) as [->|]; [|destruct (decide (x = target)) as [->|]].
  - rewrite decide_False by congruence. by rewrite Htn.
  - destruct (next_of s source) as [y|] eqn:Hy; [|done]. simpl. apply Hin in Hy as (_ & _ & _ & ? & ?).
    by rewrite !decide_False by congruence.
  - rewrite <- (decide_ext _ _ _ _ (links_next_prev l s x source Hl)). case_decide as Hx; [rewrite Hx|].
    + simpl. by rewrite decide_False, decide_True by congruence.
    + destruct (next_of s x) as [y|] eqn:Hy; [|done]. simpl. pose proof (Hin _ _ Hy) as (_ & _ & _ & ? & ?).
      by rewrite !decide_False by congruence.
Qed.

Lemma rename_prev_of x :
  (if decide (x = source) then None else if decide (x = target) then prev_of s source else
   if decide (next_of s source = Some x) then Some target else prev_of s x) = ρ <$> prev_of s (ρ x).
Proof using Hne Hnt Hstr.
  pose proof Hstr as (Hl & _).
  assert (∀ x y, prev_of s x = Some y → x ≠ target ∧ y ≠ target ∧ x ≠ y) as Hin.
  { intros y z Hyz%(links_next_prev _ _ _ _ Hl). apply neighbours_exist in Hyz. naive_solver. }
  assert (prev_of s target = None) as Htn by (pose proof Hl as (_ & _ & _ & Hout); by apply Hout).
  unfold ρ, transpose. destruct (decide (x = source)) as [->|]; [|destruct (decide (x = target)) as [->|]].
  - rewrite decide_False by congruence. by rewrite Htn.
  - destruct (prev_of s source) as [y|] eqn:Hy; [|done]. simpl. apply Hin in Hy as (_ & ? & ?).
    by rewrite !decide_False by congruence.
  - rewrite (decide_ext _ _ _ _ (links_next_prev l s source x Hl)). case_decide as Hx; [rewrite Hx|].
    + simpl. by rewrite decide_False, decide_True by congruence.
    + destruct (prev_of s x) as [y|] eqn:Hy; [|done]. simpl. pose proof (Hin _ _ Hy) as (_ & ? & ?).
      by rewrite !decide_False by congruence.
Qed.

Lemma move_links_spec s1 :
  same_dom s s1 → (∀ x, next_of s1 x = next_of s x) → (∀ x, prev_of s1 x = prev_of s x) →
  wp (move_links target source src) (λ _ s', timers_ s' = timers_ s1 ∧ heap_ s' = heap_ s1 ∧ keeps s1 s' ∧
    (∀ x, next_of s' x = ρ <$> next_of s (ρ x)) ∧ (∀ x, prev_of s' x = ρ <$> prev_of s (ρ x))) s1.
Proof using Hne Hnt Hsrc Hstr Htgt.
  intros Hd Hn Hp. pose proof Hstr as (Hl & _).
  assert (next_of s source = next_ src ∧ prev_of s source = prev_ src) as [En Ep] by (unfold next_of, prev_of; by rewrite Hsrc).
  assert (is_Some (timer_objects s1 !! source)) as Hs1 by (apply Hd; by eexists).
  assert (is_Some (timer_objects s1 !! target)) as Ht1 by (by apply Hd).
  assert (∀ x, prev_ src = Some x → x ≠ target ∧ x ≠ source ∧ is_Some (timer_objects s1 !! x)) as Hprev.
  { intros x Hx. rewrite <- Ep, <- (links_next_prev _ _ _ _ Hl) in Hx.
    apply neighbours_exist in Hx. rewrite (Hd x). naive_solver. }
  assert (∀ x, next_ src = Some x → x ≠ target ∧ x ≠ source ∧ is_Some (timer_objects s1 !! x)) as Hnext.
  { intros x Hx. rewrite <- En in Hx. apply neighbours_exist in Hx. rewrite (Hd x). naive_solver. }
  apply wp_bind, wp_if_set; [intros x Hx; by apply Hprev|]. simpl.
  apply wp_bind, wp_if_set; simpl.
  { intros x Hx. destruct (prev_ src); rewrite ?lookup_alter_is_Some; by apply Hnext. }
  set (m := match next_ src with Some _ => _ | None => _ end).
  assert (∀ x, is_Some (m !! x) ↔ is_Some (timer_objects s1 !! x)) as Hdom.
  { intros x. unfold m. destruct (prev_ src), (next_ src); by rewrite ?lookup_alter_is_Some. }
  do 3 (apply wp_bind, wp_alter; [simpl; rewrite ?lookup_alter_is_Some; by apply Hdom|]; simpl).
  apply wp_alter; [simpl; rewrite ?lookup_alter_is_Some; by apply Hdom|]. simpl. unfold m. clear m Hdom.
  destruct Hs1 as [ds1 Hs1], Ht1 as [dt1 Ht1].
  split_and!; [done|done| | |].
  - do 4 (apply keeps_alter; [done|]). destruct (prev_ src), (next_ src); repeat (apply keeps_alter; [done|]); apply keeps_refl.
  - intros x. rewrite <- rename_next_of, En, Ep. transitivity (if decide (x = source) then None else
      if decide (x = target) then next_ src else if decide (prev_ src = Some x) then Some target else next_of s1 x).
    + clear -Hne Hs1 Ht1 Hprev Hnext. destruct (prev_ src), (next_ src); observe;
        edestruct Hprev as (_ & _ & []); done || congruence.
    + by rewrite Hn.
  - intros x. rewrite <- rename_prev_of, En, Ep. transitivity (if decide (x = source) then None else
      if decide (x = target) then prev_ src else if decide (next_ src = Some x) then Some target else prev_of s1 x).
    + clear -Hne Hs1 Ht1 Hprev Hnext. destruct (prev_ src), (next_ src); observe;
        edestruct Hnext as (_ & _ & []); done || congruence.
    + by rewrite Hp.
Qed.

Lemma move_timer_renames : ops_of s target = [] →
  wp (move_timer target source) (λ _ s', renames ρ s s') s.
Proof using Hne Hnt Hsrc Hstr Htgt.
  intros Hidle. apply wp_bind. eapply wp_timer_at; [done|]. apply wp_bind.
  eapply wp_mono; [|by apply move_fields_spec]. intros _ s1 (Ht1 & Hh1 & Hd1 & Hn1 & Hp1 & Hi1 & Ho1).
  apply wp_bind. eapply wp_mono; [|by apply move_roots_spec]. intros _ s2 ->.
  eapply wp_mono; [|apply move_links_spec; done]. simpl.
  intros _ s3 (Ht3 & Hh3 & (Hi3 & Ho3 & Hd3) & Hn3 & Hp3). split_and!; [|done|done| |done|done| |].
  - intros x. unfold ρ, transpose. repeat case_decide; congruence.
  - intros x. rewrite (Hd3 x). simpl. rewrite (Hd1 x). unfold ρ, transpose.
    repeat case_decide; subst; [|by rewrite Hsrc|done]. rewrite Hsrc. split; [done|]. intros _. done.
  - intros x. by rewrite Hi3, <- Hi1.
  - intros x. by rewrite Ho3, <- Ho1.
Qed.
End move.

Lemma move_timer_spec s target source :
  queue_wf s → target ≠ source → contents s !! target = Some (None, []) → is_Some (contents s !! source) →
  wp (move_timer target source) (λ _ s', queue_wf s' ∧
    ∃ x, contents s !! source = Some x ∧ contents s' = <[target := x]> (<[source := (None, [])]> (contents s))) s.
Proof.
  intros Hwf Hne Ht [[dl q] Hs]. pose proof Hwf as (l & Hstr & Hops).
  pose proof Ht as (Het & Hdt & Hot)%contents_Some. pose proof Hs as ([src Hsrc] & <- & <-)%contents_Some.
  eapply wp_mono; [|eapply (move_timer_renames l); [done|by eapply idle_not_listed|done..]].
  intros [] s' Hr. cbv beta in Hr. split; [by eapply rename_wf|]. eexists. split; [done|]. apply map_eq. intros x.
  rewrite !lookup_insert, !contents_lookup, (rename_deadline _ _ _ Hr). pose proof Hr as (_ & _ & _ & He & _ & _ & _ & Ho).
  rewrite Ho, (decide_ext _ _ _ _ (He x)). unfold transpose.
  destruct (decide (target = x)) as [<-|]; [|destruct (decide (source = x)) as [<-|]].
  - rewrite !(decide_True (P := target = target)) by done. by rewrite decide_True by (by eexists).
  - rewrite (decide_False (P := source = target)), (decide_True (P := source = source)) by done.
    rewrite decide_True by done. by rewrite Hdt, Hot.
  - by rewrite !(decide_False (P := x = _)) by done.
Qed.

(** ** All timers *)

(** The part of the list that [get_all_timers] has not reached, whose back pointers
    may lead to timers that were dropped. *)
Definition chain (l : list nat) (s : timer_queue) : Prop :=
  timers_ s = head l ∧ NoDup l ∧
  ∀ l1 t l2, l = l1 ++ t :: l2 → is_Some (timer_objects s !! t) ∧ next_of s t = head l2.

Lemma chain_length l s : chain l s → length l ≤ size (timer_objects s).
Proof.
  intros (_ & Hnd & Hin). rewrite <- (size_list_to_set (C := gset nat) l Hnd), <- (size_dom (D := gset nat)).
  apply subseteq_size. intros t (l1 & l2 & ->)%elem_of_list_to_set%list_elem_of_split.
  apply elem_of_dom. by destruct (Hin l1 t l2 eq_refl).
Qed.

Lemma all_loop_spec l fuel ops s :
  chain l s → length l < fuel →
  wp (all_loop fuel ops) (λ r s', r = ops ++ (l ≫= ops_of s) ∧ timers_ s' = None ∧ same_dom s s' ∧
    ∀ t, ops_of s' t = (if decide (t ∈ l) then [] else ops_of s t) ∧
         next_of s' t = (if decide (t ∈ l) then None else next_of s t) ∧
         prev_of s' t = (if decide (t ∈ l) then None else prev_of s t)) s.
Proof.
  revert l ops s. induction fuel as [|fuel IH]; intros l ops s Hl Hfuel; [lia|]. simpl. apply wp_bind, wp_get.
  pose proof Hl as (Hhd & Hnd & Hin). rewrite Hhd. destruct l as [|t l]; cbn [head].
  - apply wp_ret. simpl. rewrite app_nil_r. split_and!; [congruence|done|done|]. intros t. by destruct (decide (t ∈ [])) as [[]%elem_of_nil|].
  - destruct (Hin [] t l eq_refl) as ([d Hd] & Hnx). unfold next_of in Hnx. rewrite Hd in Hnx. simpl in Hnx.
    apply NoDup_cons in Hnd as [Hnt Hnd]. simpl in Hfuel.
    apply wp_bind. eapply wp_timer_at; [done|]. apply wp_bind, wp_modify.
    do 3 (apply wp_bind, wp_alter; [simpl; rewrite ?lookup_alter_is_Some; by eexists|]; simpl).
    set (s1 := TimerQueue _ _ _).
    assert (∀ x, ops_of s1 x = if decide (x = t) then [] else ops_of s x) as Ho by (unfold s1; clear -Hd; observe).
    assert (∀ x, next_of s1 x = if decide (x = t) then None else next_of s x) as Hn by (unfold s1; clear -Hd; observe).
    assert (∀ x, prev_of s1 x = if decide (x = t) then None else prev_of s x) as Hp by (unfold s1; clear -Hd; observe).
    assert (chain l s1) as Hl1.
    { split_and!; [done|done|]. intros l1 x l2 ->. destruct (Hin (t :: l1) x l2 eq_refl) as (He & Hx). split.
      - simpl. by rewrite !lookup_alter_is_Some.
      - rewrite <- Hx, Hn, decide_False; [done|]. intros ->. apply Hnt, elem_of_app. right. apply list_elem_of_here. }
    eapply wp_mono; [|apply (IH l); [done|lia]]. intros r s2 (-> & ? & Hdom & Hobs2). split_and!; [|done| |].
    + rewrite <- (assoc_L (++)). do 2 f_equal; [unfold ops_of; by rewrite Hd|].
      apply Forall_bind_ext, Forall_forall. intros x Hx. rewrite Ho, decide_False; [done|]. intros ->. done.
    + intros x. rewrite (Hdom x). simpl. by rewrite !lookup_alter_is_Some.
    + intros x. destruct (Hobs2 x) as (-> & -> & ->). rewrite Ho, Hn, Hp.
      pose proof (elem_of_cons l x t) as E. destruct (decide (x = t)) as [->|].
      * rewrite !(decide_True (P := t ∈ t :: l)) by (apply E; by left). by case_decide.
      * rewrite !(decide_ext (x ∈ t :: l) (x ∈ l)) by tauto. done.
Qed.

Lemma get_all_timers_spec s ops :
  queue_wf s →
  wp (get_all_timers ops) (λ r s', (∃ ts, NoDup ts ∧ (∀ t, t ∈ ts ↔ ops_of s t ≠ []) ∧ r = ops ++ (ts ≫= ops_of s)) ∧
    timers_ s' = None ∧ heap_ s' = [] ∧ same_dom s s' ∧
    ∀ t, ops_of s' t = [] ∧ next_of s' t = None ∧ prev_of s' t = None) s.
Proof.
  intros (l & (Hl & _) & Hops). assert (chain l s) as Hc.
  { destruct Hl as (? & ? & Hin & _). split_and!; [done..|]. intros l1 t l2 E. by destruct (Hin _ _ _ E) as (? & ? & _). }
  apply wp_bind, wp_get, wp_bind. eapply wp_mono; [|apply (all_loop_spec l); [done|]].
  - intros r s1 (-> & ? & Hdom & Hobs). apply wp_bind, wp_modify, wp_ret. split_and!; [|done|done|done|].
    + exists l. split_and!; [apply Hl| |done]. intros t. by rewrite Hops.
    + intros t. change (ops_of s1 t = [] ∧ next_of s1 t = None ∧ prev_of s1 t = None).
      destruct (Hobs t) as (-> & -> & ->). destruct Hl as (_ & _ & _ & Hout).
      case_decide as Ht; [done|]. destruct (Hout t Ht) as [-> ->].
      destruct (decide (ops_of s t = [])) as [|?%Hops]; done.
  - pose proof (chain_length _ _ Hc). lia.
Qed.

(** ** The interface *)

(** What the services do with a queue: timers are constructed and destroyed when they
    have no waits. *)
Inductive queue_call : Type :=
  | call_construct (t : nat)
  | call_destroy (t : nat)
  | call_enqueue (time : Z) (t : nat) (op : wait_op)
  | call_ready (now : Z)
  | call_cancel (t : nat) (max_cancelled : option nat)
  | call_cancel_by_key (t : nat) (key : nat)
  | call_move (target source : nat).

(** What a call gives back: waits that are complete, how many were cancelled, whether
    the timer is the first to expire. *)
Record queue_answer : Type := Answer { an_ops : list wait_op; an_count : nat; an_first : bool }.

Definition run_queue_call (inf : Z → bool) (c : queue_call) : comp timer_queue queue_answer :=
  match c with
  | call_construct t => put_timer t new_timer_data;; mret (Answer [] 0 false)
  | call_destroy t => modify (λ s, TimerQueue (timers_ s) (heap_ s) (delete t (timer_objects s)));; mret (Answer [] 0 false)
  | call_enqueue time t op => b ← enqueue_timer inf time t op; mret (Answer [] 0 b)
  | call_ready now => ops ← get_ready_timers now []; mret (Answer ops 0 false)
  | call_cancel t mx => r ← cancel_timer t [] mx; mret (Answer r.1 r.2 false)
  | call_cancel_by_key t k => ops ← cancel_timer_by_key t [] k; mret (Answer ops 0 false)
  | call_move target source => move_timer target source;; mret (Answer [] 0 false)
  end.

(** When a call is allowed. *)
Definition call_allowed (A : timer_map) (c : queue_call) : Prop :=
  match c with
  | call_construct t => A !! t = None
  | call_destroy t => A !! t = Some (None, [])
  | call_enqueue _ t op => is_Some (A !! t) ∧ wo_id op ∉ (wo_id <$> ops_in A t)
  | call_ready _ => True
  | call_cancel t _ | call_cancel_by_key t _ => is_Some (A !! t)
  | call_move target source => target ≠ source ∧ A !! target = Some (None, []) ∧ is_Some (A !! source)
  end.

(** The specification: what a call answers and makes of the map. *)
Inductive queue_spec (inf : Z → bool) (A : timer_map) : queue_call → queue_answer → timer_map → Prop :=
  | spec_construct t : queue_spec inf A (call_construct t) (Answer [] 0 false) (<[t := (None, [])]> A)
  | spec_destroy t : queue_spec inf A (call_destroy t) (Answer [] 0 false) (delete t A)
  | spec_enqueue_idle time t op b :
      ops_in A t = [] →
      (b = true → inf time = false ∧ ∀ u z, u ≠ t → deadline_in A u = Some z → (time ≤ z)%Z) →
      (inf time = false → (∀ u z, u ≠ t → deadline_in A u = Some z → (time < z)%Z) → b = true) →
      queue_spec inf A (call_enqueue time t op) (Answer [] 0 b) (<[t := (first_deadline inf time, [op])]> A)
  | spec_enqueue_busy time t op :
      ops_in A t ≠ [] →
      queue_spec inf A (call_enqueue time t op) (Answer [] 0 false) (<[t := (deadline_in A t, ops_in A t ++ [op])]> A)
  | spec_ready now out A' : ready_spec now A out A' → queue_spec inf A (call_ready now) (Answer out 0 false) A'
  | spec_cancel t mx k :
      k = cancel_count mx (length (ops_in A t)) →
      queue_spec inf A (call_cancel t mx) (Answer (set_ec wait_aborted <$> take k (ops_in A t)) k false)
        (<[t := settled (deadline_in A t) (drop k (ops_in A t))]> A)
  | spec_cancel_by_key t key :
      queue_spec inf A (call_cancel_by_key t key)
        (Answer (set_ec wait_aborted <$> filter (λ op, cancellation_key_ op = key) (ops_in A t)) 0 false)
        (<[t := settled (deadline_in A t) (filter (λ op, cancellation_key_ op ≠ key) (ops_in A t))]> A)
  | spec_move target source x :
      A !! source = Some x →
      queue_spec inf A (call_move target source) (Answer [] 0 false) (<[target := x]> (<[source := (None, [])]> A)).

Definition queue_step (inf : Z → bool) (s s' : timer_queue) : Prop :=
  ∃ c r, call_allowed (contents s) c ∧ run_queue_call inf c s = Done r s'.

Lemma nonblocking_alter f t : nonblocking (alter_timer f t).
Proof. apply nonblocking_bind; [|done]. intros s. unfold timer_at. by case_match. Qed.
Lemma nonblocking_timer_at t : nonblocking (timer_at t).
Proof. intros s. unfold timer_at. by case_match. Qed.
Lemma nonblocking_heap_at i : nonblocking (heap_at i).
Proof. intros s. unfold heap_at. by case_match. Qed.
Lemma nonblocking_store_heap i e : nonblocking (store_heap i e).
Proof. intros s. unfold store_heap. by case_match. Qed.
Lemma nonblocking_if_set p f : nonblocking (if_set p f).
Proof. destruct p; [apply nonblocking_alter|done]. Qed.
Local Hint Resolve nonblocking_alter nonblocking_timer_at nonblocking_heap_at nonblocking_store_heap nonblocking_if_set : ccpp.

Lemma nonblocking_swap i j : nonblocking (swap_heap i j).
Proof. unfold swap_heap. solve_nonblocking. Qed.
Local Hint Resolve nonblocking_swap : ccpp.
Lemma nonblocking_up fuel i : nonblocking (up_heap_loop fuel i).
Proof. revert i. induction fuel; intros i; simpl; solve_nonblocking. Qed.
Lemma nonblocking_down fuel i : nonblocking (down_heap_loop fuel i).
Proof. revert i. induction fuel; intros i; simpl; unfold min_child_of; solve_nonblocking. Qed.
Local Hint Resolve nonblocking_up nonblocking_down : ccpp.
Lemma nonblocking_remove t : nonblocking (remove_timer t).
Proof.
  unfold remove_timer, remove_from_heap, remove_from_list, restore_heap, drop_last, pop_back, up_heap, down_heap, set_heap, set_timers.
  solve_nonblocking.
Qed.
Local Hint Resolve nonblocking_remove : ccpp.
Lemma nonblocking_complete t q ops : nonblocking (complete_ops t q ops).
Proof. revert ops. induction q; intros ops; simpl; solve_nonblocking. Qed.
Lemma nonblocking_cancel t mx q ops n : nonblocking (cancel_loop t mx q ops n).
Proof. revert ops n. induction q; intros ops n; simpl; solve_nonblocking. Qed.
Lemma nonblocking_key t k q ops o : nonblocking (key_loop t k q ops o).
Proof. revert ops o. induction q; intros ops o; simpl; solve_nonblocking. Qed.
Local Hint Resolve nonblocking_complete nonblocking_cancel nonblocking_key : ccpp.
Lemma nonblocking_ready fuel now ops : nonblocking (ready_loop fuel now ops).
Proof. revert ops. induction fuel; intros ops; simpl; solve_nonblocking. Qed.
Lemma nonblocking_all fuel ops : nonblocking (all_loop fuel ops).
Proof. revert ops. induction fuel; intros ops; simpl; unfold set_timers; solve_nonblocking. Qed.
Local Hint Resolve nonblocking_ready nonblocking_all : ccpp.

Lemma nonblocking_call inf c : nonblocking (run_queue_call inf c).
Proof.
  destruct c; simpl; unfold put_timer, enqueue_timer, is_active, insert_into_heap, insert_into_list, get_ready_timers, cancel_timer,
    cancel_timer_by_key, remove_if_idle, move_timer, move_fields, move_roots, move_links, up_heap, set_heap, set_timers;
    solve_nonblocking.
Qed.

(** A timer without waits that appears or disappears. *)
Lemma idle_object_changes s t o (s' := TimerQueue (timers_ s) (heap_ s) (partial_alter (λ _, o) t (timer_objects s))) :
  queue_wf s → ops_of s t = [] → (o = None ∨ o = Some new_timer_data) →
  queue_wf s' ∧ contents s' = partial_alter (λ _, (λ _, (None, [])) <$> o) t (contents s).
Proof.
  intros (l & Hstr & Hops) Hidle Ho. pose proof (idle_not_listed _ _ _ Hops Hidle) as Hnt.
  pose proof Hstr as (Hl & Hord & Hidx & Hin). pose proof (unlisted_index _ _ _ Hstr Hnt) as Hit.
  assert (∀ x, index_of s' x = index_of s x ∧ ops_of s' x = ops_of s x ∧ next_of s' x = next_of s x ∧ prev_of s' x = prev_of s x) as Hx.
  { intros x. destruct (decide (x = t)) as [->|]; [|unfold index_of, ops_of, next_of, prev_of; simpl; by rewrite lookup_partial_alter_ne].
    destruct Hl as (_ & _ & _ & Hout). destruct (Hout t Hnt) as [-> ->]. rewrite Hit, Hidle.
    unfold index_of, ops_of, next_of, prev_of; simpl. rewrite lookup_partial_alter_eq. by destruct Ho as [->| ->]. }
  assert (∀ x, deadline_of s' x = deadline_of s x) as Hdl by (intros x; unfold deadline_of; by destruct (Hx x) as (-> & _)).
  split.
  - exists l. split; [split_and!; [|done| |done]|].
    + destruct Hl as (Hhd & Hnd & Hl & Hout). split_and!; [done|done| |].
      * intros l1 x l2 E. destruct (Hx x) as (_ & _ & -> & ->). destruct (Hl _ _ _ E) as (? & ? & ?). split_and!; [|done..].
        simpl. rewrite lookup_partial_alter_ne; [done|]. intros ->. apply Hnt. rewrite E. set_solver.
      * intros x. destruct (Hx x) as (_ & _ & -> & ->). apply Hout.
    + intros x i. destruct (Hx x) as (-> & _). apply Hidx.
    + intros x. destruct (Hx x) as (_ & -> & _). apply Hops.
  - apply map_eq. intros x. rewrite contents_lookup, Hdl. destruct (Hx x) as (_ & -> & _).
    destruct (decide (x = t)) as [->|]; simpl.
    + rewrite !lookup_partial_alter_eq. unfold deadline_of. rewrite Hit, Hidle. by destruct Ho as [->| ->].
    + rewrite !lookup_partial_alter_ne by done. by rewrite contents_lookup.
Qed.

Lemma first_to_expire inf s s' time t op :
  queue_wf s' → contents s' = <[t := (first_deadline inf time, [op])]> (contents s) →
  (index_of s' t = Some 0 → inf time = false ∧ ∀ u z, u ≠ t → deadline_in (contents s) u = Some z → (time ≤ z)%Z) ∧
  (inf time = false → (∀ u z, u ≠ t → deadline_in (contents s) u = Some z → (time < z)%Z) → index_of s' t = Some 0).
Proof.
  intros (l & (_ & Ho & Hidx & _) & _) Hc.
  assert (∀ u, deadline_of s' u = if decide (u = t) then first_deadline inf time else deadline_in (contents s) u) as Hdl.
  { intros u. rewrite <- deadline_in_contents, Hc. unfold deadline_in. rewrite lookup_insert. repeat case_decide; by subst. }
  split.
  - intros Hi. destruct (root_earliest _ _ Ho Hidx Hi) as (z0 & Hz0 & Hmin). rewrite Hdl, decide_True in Hz0 by done.
    unfold first_deadline in Hz0. destruct (inf time); [done|]. simplify_eq. split; [done|].
    intros u z Hu Hz. apply (Hmin u). by rewrite Hdl, decide_False.
  - intros Hf Hlt. apply (earliest_root _ _ time); [done..| |].
    + rewrite Hdl, decide_True by done. unfold first_deadline. by rewrite Hf.
    + intros u z Hu. rewrite Hdl, decide_False by done. by apply Hlt.
Qed.

Lemma queue_call_spec inf s c :
  queue_wf s → call_allowed (contents s) c →
  wp (run_queue_call inf c) (λ r s', queue_wf s' ∧ queue_spec inf (contents s) c r (contents s')) s.
Proof.
  intros Hwf Ha. destruct c as [t|t|time t op|now|t mx|t k|tgt src]; simpl in *; apply wp_bind.
  - apply wp_modify, wp_ret. destruct (idle_object_changes s t (Some new_timer_data) Hwf) as [? E]; [|by right|].
    + rewrite contents_lookup in Ha. case_decide as He; [done|]. unfold ops_of. destruct (timer_objects s !! t); [|done]. by destruct He.
    + split; [done|]. exact (eq_ind_r (queue_spec inf _ _ _) (spec_construct inf _ t) E).
  - apply contents_Some in Ha as (_ & _ & Hq). apply wp_modify, wp_ret.
    destruct (idle_object_changes s t None Hwf Hq) as [? E]; [by left|]. split; [done|].
    exact (eq_ind_r (queue_spec inf _ _ _) (spec_destroy inf _ t) E).
  - destruct Ha as [[[dl q] (He & _)%contents_Some] Hop]. rewrite ops_in_contents in Hop.
    destruct (decide (ops_of s t = [])) as [Hq|Hq].
    + eapply wp_mono; [|by apply enqueue_idle_spec]. intros b s' (Hwf' & Hc & Hb). apply wp_ret. split; [done|].
      destruct (first_to_expire inf s s' time t op Hwf' Hc) as [H1 H2]. rewrite Hc.
      constructor; [by rewrite ops_in_contents|rewrite Hb; exact H1|rewrite Hb; exact H2].
    + eapply wp_mono; [|by apply enqueue_busy_spec]. intros b s' (Hwf' & Hc & ->). apply wp_ret. split; [done|].
      rewrite Hc, <- deadline_in_contents, <- ops_in_contents. constructor. by rewrite ops_in_contents.
  - apply wp_bind, wp_get. eapply wp_mono; [|apply ready_loop_spec; [done|lia]]. simpl.
    intros r s' (Hwf' & out & -> & Hr). apply wp_ret. split; [done|]. by constructor.
  - destruct Ha as [[dl q] (He & _)%contents_Some]. eapply wp_mono; [|by apply cancel_timer_spec]. simpl.
    intros r s' (Hwf' & -> & Hc). apply wp_ret. split; [done|]. simpl.
    rewrite Hc, <- deadline_in_contents, <- ops_in_contents. by constructor.
  - destruct Ha as [[dl q] (He & _)%contents_Some]. eapply wp_mono; [|by apply cancel_timer_by_key_spec]. simpl.
    intros r s' (Hwf' & -> & Hc). apply wp_ret. split; [done|]. simpl.
    rewrite Hc, <- deadline_in_contents, <- ops_in_contents. by constructor.
  - destruct Ha as (Hne & Ht & Hs). eapply wp_mono; [|by apply move_timer_spec].
    intros _ s' (Hwf' & x & Hx & Hc). apply wp_ret. split; [done|]. rewrite Hc. by constructor.
Qed.

Lemma new_queue_wf : queue_wf new_timer_queue.
Proof.
  exists []. split; [split_and!|].
  - split_and!; [done|constructor| |done]. intros l1 t l2 E. by destruct l1.
  - intros j Hj Hn. simpl in Hn. lia.
  - intros t i. unfold index_of. simpl. by rewrite lookup_empty.
  - intros e []%elem_of_nil.
  - intros t. unfold ops_of. simpl. rewrite lookup_empty. simpl. split; [done|]. by intros []%elem_of_nil.
Qed.

Lemma reachable_queue_wf inf s : reachable (eq new_timer_queue) (queue_step inf) s → queue_wf s.
Proof.
  revert s. apply reachable_inv; [intros s <-; apply new_queue_wf|].
  intros s s' Hs (c & r & Ha & Hr). by apply (wp_done _ _ _ _ _ (queue_call_spec inf s c Hs Ha)) in Hr as [? _].
Qed.

(** ** Theorems *)

(** C13: The queue of timers of asio is a map from timers to deadlines and waits.
    However timers are constructed, given waits, moved, cancelled, destroyed and
    polled, a call that is allowed returns, without an index or a pointer going wrong,
    and answers as the map does: [get_ready_timers] completes the waits of the due
    timers, each once and in the order of the deadlines; a cancellation aborts the
    waits of one timer, in order; and [enqueue_timer] reports a timer that is the
    first to expire. *)
Theorem asio_timer_queue_refines inf s c :
  reachable (eq new_timer_queue) (queue_step inf) s → call_allowed (contents s) c →
  ∃ r s', run_queue_call inf c s = Done r s' ∧ queue_spec inf (contents s) c r (contents s').
Proof.
  intros Hs%reachable_queue_wf Ha. pose proof (queue_call_spec inf s c Hs Ha) as Hc.
  apply wp_total in Hc as (r & s' & Hr & _ & Hsp); [eauto|apply nonblocking_call].
Qed.

Definition after_call (c : queue_call) (s : timer_queue) : timer_queue :=
  match run_queue_call (λ _, false) c s with Done _ s' => s' | _ => s end.

Lemma after_call_reachable c s :
  call_allowed (contents s) c →
  reachable (eq new_timer_queue) (queue_step (λ _, false)) s →
  reachable (eq new_timer_queue) (queue_step (λ _, false)) (after_call c s).
Proof.
  intros Ha Hs. destruct (wp_total _ _ _ (nonblocking_call _ c) (queue_call_spec (λ _, false) s c (reachable_queue_wf _ _ Hs) Ha))
    as (r & s' & Hr & _). eapply reachable_step; [done|]. unfold after_call. rewrite Hr. by exists c, r.
Qed.

Definition two_timers : timer_queue :=
  after_call (call_enqueue 3 2 (WaitOp 11 0 wait_success)) (after_call (call_enqueue 5 1 (WaitOp 10 0 wait_success))
    (after_call (call_construct 2) (after_call (call_construct 1) new_timer_queue))).

Lemma two_timers_reachable : reachable (eq new_timer_queue) (queue_step (λ _, false)) two_timers.
Proof.
  unfold two_timers. repeat (apply after_call_reachable; [try by_decide|]); [..|by apply reachable_init]; split; by_decide.
Qed.

Lemma asio_timer_queue_refines_witness :
  ∃ r s', run_queue_call (λ _, false) (call_ready 4) two_timers = Done r s' ∧
    queue_spec (λ _, false) (contents two_timers) (call_ready 4) r (contents s').
Proof. apply (asio_timer_queue_refines (λ _, false) two_timers (call_ready 4)); [exact two_timers_reachable|exact I]. Defined.
