(* ===== verification/AsioTimer.v ===== *)
(** * Timers of asio: clocks and the timeouts of the reactor

    [chrono_time_traits.hpp] computes with 64-bit ticks and saturates; the queues of
    [timer_queue_set] and [epoll_reactor::get_timeout] turn the earliest deadline into
    the timeout of the descriptor the reactor sleeps on. *)

From S2P Require Import Prelude Conc AsioHeap AsioTimerQueue.
From stdpp Require Import options.

(** ** [chrono_time_traits] *)

Definition int64_min : Z := -9223372036854775808.
Definition int64_max : Z := 9223372036854775807.

Section chrono.
Local Open Scope Z_scope.

(** The result of an operation on [int64_t], if it does not overflow. *)
Definition int64 (z : Z) : option Z := if decide (int64_min ≤ z ≤ int64_max) then Some z else None.

(** Times and durations are counts of ticks; the epoch is [0]. *)
Definition chrono_add (t d : Z) : option Z :=
  if decide (0 ≤ t) then
    m ← int64 (int64_max - t);
    if decide (m < d) then Some int64_max else int64 (t + d)
  else
    m ← int64 (t - int64_min); m ← int64 (- m);
    if decide (m > d) then Some int64_min else int64 (t + d).

Definition chrono_subtract (t1 t2 : Z) : option Z :=
  if decide (0 ≤ t1) then
    if decide (0 ≤ t2) then int64 (t1 - t2)
    else if decide (t2 = int64_min) then Some int64_max
    else a ← int64 (int64_max - t1); b ← int64 (0 - t2);
         if decide (a < b) then Some int64_max else int64 (t1 - t2)
  else
    if decide (t2 < 0) then int64 (t1 - t2)
    else if decide (t1 = int64_min) then Some int64_min
    else a ← int64 (int64_max - t2); b ← int64 (0 - t1);
         if decide (a < b) then Some int64_min
         else m ← int64 (t2 - t1); int64 (- m).

(** [duration_cast<Num, Den>] for a clock with the period [pnum / pden]. *)
Definition duration_cast (pnum pden num den ticks : Z) : option Z :=
  let num1 := pnum / Z.gcd pnum num in
  let num2 := num / Z.gcd pnum num in
  let den1 := pden / Z.gcd pden den in
  let den2 := den / Z.gcd pden den in
  n ← int64 (num1 * den2);
  d ← int64 (num2 * den1);
  if decide (n = 1 ∧ d = 1) then Some ticks
  else if decide (n ≠ 1 ∧ d = 1) then int64 (ticks * n)
  else if decide (n = 1 ∧ pden ≠ 1) then Some (Z.quot ticks d)
  else m ← int64 (ticks * n); Some (Z.quot m d).

(** The steady clock counts nanoseconds. *)
Definition total_milliseconds (ticks : Z) : option Z := duration_cast 1 1000000000 1 1000 ticks.
Definition total_microseconds (ticks : Z) : option Z := duration_cast 1 1000000000 1 1000000 ticks.

Definition saturate (z : Z) : Z := Z.max int64_min (Z.min int64_max z).

Lemma int64_in z : int64_min ≤ z ≤ int64_max → int64 z = Some z.
Proof. intros. unfold int64. by rewrite decide_True. Qed.

Ltac chrono_solve :=
  unfold saturate, int64_min, int64_max in *;
  repeat first
    [ case_decide
    | match goal with
      | |- int64 ?z ≫= _ = _ => rewrite (int64_in z) by (unfold int64_min, int64_max; lia); simpl
      | |- int64 ?z = _ => rewrite (int64_in z) by (unfold int64_min, int64_max; lia)
      end ];
  f_equal; lia.

Lemma chrono_add_saturates t d : int64_min ≤ t ≤ int64_max → int64_min ≤ d ≤ int64_max →
  chrono_add t d = Some (saturate (t + d)).
Proof. intros. unfold chrono_add. chrono_solve. Qed.

Lemma chrono_subtract_saturates t1 t2 : int64_min ≤ t1 ≤ int64_max → int64_min ≤ t2 ≤ int64_max →
  chrono_subtract t1 t2 = Some (saturate (t1 - t2)).
Proof. intros. unfold chrono_subtract. chrono_solve. Qed.

Lemma total_milliseconds_nano ticks : total_milliseconds ticks = Some (Z.quot ticks 1000000).
Proof. done. Qed.
Lemma total_microseconds_nano ticks : total_microseconds ticks = Some (Z.quot ticks 1000).
Proof. done. Qed.

(** ** Timeouts *)

Definition to_msec (ticks max_duration : Z) : option Z :=
  if decide (ticks ≤ 0) then Some 0 else
  msec ← total_milliseconds ticks;
  Some (if decide (msec = 0) then 1 else if decide (msec > max_duration) then max_duration else msec).
Definition to_usec (ticks max_duration : Z) : option Z :=
  if decide (ticks ≤ 0) then Some 0 else
  usec ← total_microseconds ticks;
  Some (if decide (usec = 0) then 1 else if decide (usec > max_duration) then max_duration else usec).

Definition wait_duration_msec (now : Z) (s : timer_queue) (max_duration : Z) : option Z :=
  match heap_ s with
  | [] => Some max_duration
  | e :: _ => d ← chrono_subtract (time_ e) now; to_msec d max_duration
  end.
Definition wait_duration_usec (now : Z) (s : timer_queue) (max_duration : Z) : option Z :=
  match heap_ s with
  | [] => Some max_duration
  | e :: _ => d ← chrono_subtract (time_ e) now; to_usec d max_duration
  end.

(** [timer_queue_set]: the queues of the services, in a list. *)
Fixpoint set_wait_duration (wait : timer_queue → Z → option Z) (qs : list timer_queue) (min_duration : Z) : option Z :=
  match qs with
  | [] => Some min_duration
  | q :: qs => d ← wait q min_duration; set_wait_duration wait qs d
  end.

(** [epoll_reactor::get_timeout(int)] *)
Definition get_timeout_msec (now : Z) (qs : list timer_queue) (msec : Z) : option Z :=
  let max_msec := 5 * 60 * 1000 in
  set_wait_duration (wait_duration_msec now) qs (if decide (msec < 0 ∨ max_msec < msec) then max_msec else msec).

(** [epoll_reactor::get_timeout(itimerspec&)]: [it_value], and whether it is an
    absolute time. *)
Record itimerspec : Type := Itimerspec { tv_sec : Z; tv_nsec : Z; tfd_timer_abstime : bool }.
Definition get_timeout (now : Z) (qs : list timer_queue) : option itimerspec :=
  usec ← set_wait_duration (wait_duration_usec now) qs (5 * 60 * 1000 * 1000);
  Some (Itimerspec (Z.quot usec 1000000) (if decide (usec = 0) then 1 else Z.rem usec 1000000 * 1000)
          (bool_decide (usec = 0))).

Definition times (s : timer_queue) : list Z := time_ <$> heap_ s.

(** A wait of [r] microseconds, of at most [mx], for some deadlines: it is over at most
    a microsecond after each of them, at once only if one is due, and it ends early
    only by the rounding to microseconds. *)
Definition wait_ok (now mx : Z) (deadlines : list Z) (r : Z) : Prop :=
  0 ≤ r ≤ mx ∧
  (r = 0 → ∃ z, z ∈ deadlines ∧ z ≤ now) ∧
  (∀ z, z ∈ deadlines → r ≤ 1 ∨ (r - 1) * 1000 < z - now) ∧
  (r = mx ∨ ∃ z, z ∈ deadlines ∧ z - now < (r + 1) * 1000).

Lemma to_usec_cases now m z :
  int64_min ≤ now ≤ int64_max → int64_min ≤ z ≤ int64_max → 0 ≤ m ≤ 300000000 →
  ∃ r, (d ← chrono_subtract z now; to_usec d m) = Some r ∧
    (z ≤ now ∧ r = 0 ∨ now < z ∧ z - now < 1000 ∧ r = 1 ∨
     0 < r ≤ m ∧ r * 1000 ≤ z - now < (r + 1) * 1000 ∨ r = m ∧ r * 1000 ≤ z - now ∧ now < z).
Proof.
  intros Hn Hz Hm. rewrite chrono_subtract_saturates by done. simpl. unfold to_usec, saturate.
  rewrite total_microseconds_nano. set (d := Z.max _ _). unfold int64_min, int64_max in *.
  case_decide as Hd; simpl; [exists 0; split; [done|]; lia|].
  pose proof (Z.quot_rem' d 1000). pose proof (Z.rem_bound_pos d 1000 ltac:(lia) ltac:(lia)).
  case_decide; [exists 1|case_decide; [exists m|exists (Z.quot d 1000)]]; (split; [done|]); lia.
Qed.

(** The queues whose deadlines are times of the clock. *)
Definition clock_times (s : timer_queue) : Prop :=
  ordered (heap_ s) ∧ ∀ z, z ∈ times s → int64_min ≤ z ≤ int64_max.

Lemma wait_duration_usec_spec now mx D s m :
  int64_min ≤ now ≤ int64_max → 0 < mx ≤ 300000000 → clock_times s → wait_ok now mx D m →
  ∃ r, wait_duration_usec now s m = Some r ∧ wait_ok now mx (D ++ times s) r.
Proof.
  intros Hn Hm [Ho Ht] (Hm1 & Hm2 & Hm3 & Hm4). unfold wait_duration_usec, times in *. destruct (heap_ s) as [|e h] eqn:Hh.
  - exists m. simpl. rewrite app_nil_r. done.
  - assert (∀ z, z ∈ time_ <$> e :: h → time_ e ≤ z) as Hroot.
    { intros z (x & -> & (j & Hj)%list_elem_of_lookup)%list_elem_of_fmap.
      pose proof (heap_root_least _ _ Ho j (lookup_lt_Some _ _ _ Hj)) as Hle.
      by rewrite (key_lookup _ 0 e), (key_lookup _ _ _ Hj) in Hle. }
    assert (time_ e ∈ time_ <$> e :: h) as Hin by (rewrite fmap_cons; set_solver).
    destruct (to_usec_cases now m (time_ e)) as (r & -> & Hr); [done|by apply Ht|lia|]. exists r. split; [done|].
    split_and!; [lia|lia|intros H0|intros z [Hz|Hz]%elem_of_app|].
    + destruct (decide (time_ e ≤ now)); [exists (time_ e); set_solver|].
      destruct Hm2 as (z & ? & ?); [lia|]. exists z. set_solver.
    + destruct (Hm3 z Hz); lia.
    + specialize (Hroot z Hz). lia.
    + destruct (decide (time_ e - now < (r + 1) * 1000)); [right; exists (time_ e); set_solver|].
      destruct Hm4 as [|(z & ? & ?)]; [left; lia|]. right. exists z. split; [set_solver|]. lia.
Qed.

Lemma set_wait_duration_spec now mx qs D m :
  int64_min ≤ now ≤ int64_max → 0 < mx ≤ 300000000 → Forall clock_times qs → wait_ok now mx D m →
  ∃ r, set_wait_duration (wait_duration_usec now) qs m = Some r ∧ wait_ok now mx (D ++ (qs ≫= times)) r.
Proof.
  intros Hn Hm Hqs. revert D m. induction Hqs as [|q qs Hq _ IH]; intros D m Hok; simpl.
  - exists m. by rewrite app_nil_r.
  - destruct (wait_duration_usec_spec now mx D q m Hn Hm Hq Hok) as (r & -> & Hr). simpl.
    destruct (IH _ _ Hr) as (r' & -> & Hr'). exists r'. by rewrite <- (assoc_L (++)) in Hr'.
Qed.

Lemma get_timeout_spec now qs :
  int64_min ≤ now ≤ int64_max → Forall clock_times qs →
  ∃ ts, get_timeout now qs = Some ts ∧ 0 ≤ tv_sec ts ∧ 0 ≤ tv_nsec ts < 1000000000 ∧
    let wait := tv_sec ts * 1000000000 + tv_nsec ts in
    0 < wait ≤ 300 * 1000000000 ∧
    (tfd_timer_abstime ts = true → wait = 1 ∧ ∃ z, z ∈ (qs ≫= times) ∧ z ≤ now) ∧
    (tfd_timer_abstime ts = false → ∀ z, z ∈ (qs ≫= times) → wait <= 1000 ∨ wait < z - now + 1000) ∧
    (tfd_timer_abstime ts = false → wait = 300 * 1000000000 ∨ ∃ z, z ∈ (qs ≫= times) ∧ z - now < wait + 1000).
Proof.
  intros Hn Hqs. destruct (set_wait_duration_spec now 300000000 qs [] 300000000) as (r & Hr & H1 & H2 & H3 & H4); [done|lia|done| |].
  { split_and!; [lia..| |by left]. intros z Hz. by apply elem_of_nil in Hz. }
  unfold get_timeout. change (5 * 60 * 1000 * 1000) with 300000000. rewrite Hr. eexists. split; [done|]. simpl in *.
  pose proof (Z.quot_rem' r 1000000). pose proof (Z.rem_bound_pos r 1000000 ltac:(lia) ltac:(lia)).
  assert (0 ≤ Z.quot r 1000000) by (apply Z.quot_pos; lia).
  destruct (decide (r = 0)) as [->|]; [rewrite bool_decide_true by done|rewrite bool_decide_false by done].
  - change (Z.quot 0 1000000) with 0. split_and!; try lia; try done. intros _. auto.
  - split_and!; try lia; try done.
    + intros _ z Hz. destruct (H3 z Hz); lia.
    + intros _. destruct H4 as [|(z & ? & ?)]; [left; lia|]. right. exists z. split; [done|lia].
Qed.

(** The timer descriptor of the reactor is always armed, with a wait that ends at most
    a microsecond after the earliest deadline of all queues and that is at most five
    minutes long; it fires at once only when a timer is due, and no arithmetic on the
    64-bit times overflows. *)
Theorem reactor_timeout_correct now qs :
  int64_min ≤ now ≤ int64_max → Forall clock_times qs →
  ∃ ts, get_timeout now qs = Some ts ∧ 0 ≤ tv_sec ts ∧ 0 ≤ tv_nsec ts < 1000000000 ∧
    let wait := tv_sec ts * 1000000000 + tv_nsec ts in
    0 < wait ≤ 300 * 1000000000 ∧
    (tfd_timer_abstime ts = true → wait = 1 ∧ ∃ z, z ∈ (qs ≫= times) ∧ z ≤ now) ∧
    (tfd_timer_abstime ts = false → ∀ z, z ∈ (qs ≫= times) → wait <= 1000 ∨ wait < z - now + 1000) ∧
    (tfd_timer_abstime ts = false → wait = 300 * 1000000000 ∨ ∃ z, z ∈ (qs ≫= times) ∧ z - now < wait + 1000).
Proof. apply get_timeout_spec. Qed.
End chrono.

Lemma two_timers_clock : clock_times two_timers.
Proof.
  destruct (reachable_queue_wf _ _ two_timers_reachable) as (l & (_ & Ho & _) & _). split; [exact Ho|].
  assert (Forall (λ z, int64_min ≤ z ≤ int64_max)%Z (times two_timers)) as Hf by by_decide.
  exact (proj1 (Forall_forall _ _) Hf).
Qed.

Lemma reactor_timeout_correct_witness :
  ∃ ts, get_timeout (-2000) [two_timers] = Some ts ∧ (0 ≤ tv_sec ts)%Z ∧ (0 ≤ tv_nsec ts < 1000000000)%Z.
Proof.
  assert (int64_min ≤ -2000 ≤ int64_max)%Z as Hn by by_decide.
  assert (Forall clock_times [two_timers]) as Hc by exact (Forall_cons_2 _ _ _ two_timers_clock (Forall_nil_2 _)).
  destruct (reactor_timeout_correct (-2000) [two_timers] Hn Hc) as (ts & H1 & H2 & H3 & _).
  exact (ex_intro _ ts (conj H1 (conj H2 H3))).
Defined.
