(* ===== verification/AsioTimerService.v ===== *)
(** * Timers of asio: [deadline_timer_service] on [epoll_reactor]

    What a [steady_timer] calls.  A wait that is started is in one place at any time:
    in the queue, posted to the scheduler, run, or destroyed by a shutdown; no
    operation leaves the queue with a pointer to a timer that is gone; and the
    descriptor the reactor sleeps on is armed for the earliest deadline. *)

From S2P Require Import Prelude Conc AsioHeap AsioTimerQueue AsioTimer.
From stdpp Require Import options.

(** ** The reactor and the service *)

(** [deadline_timer_service::implementation_type], without the timer of the queue. *)
Record timer_impl : Type := TimerImpl { expiry : Z; might_have_pending_waits : bool }.

(** The queue, under the mutex of the reactor; the time at which the timer descriptor
    was armed and the time at which it fires; the waits that were posted to the
    scheduler and not run yet; [outstanding_work_], as far as timers go; the timers
    that exist; the waits that have been run, those that a shutdown destroyed, and all
    that were started. *)
Record timer_service : Type := TimerService {
  ts_queue : timer_queue;
  ts_shutdown : bool;
  ts_timeout : option (Z * Z);
  ts_posted : list wait_op;
  ts_work : Z;
  ts_impls : gmap nat timer_impl;
  ts_run : list wait_op;
  ts_abandoned : list wait_op;
  ts_started : list wait_op }.

Definition with_queue (q : timer_queue) (s : timer_service) : timer_service :=
  TimerService q (ts_shutdown s) (ts_timeout s) (ts_posted s) (ts_work s) (ts_impls s) (ts_run s) (ts_abandoned s) (ts_started s).
Definition with_timeout (o : option (Z * Z)) (s : timer_service) : timer_service :=
  TimerService (ts_queue s) (ts_shutdown s) o (ts_posted s) (ts_work s) (ts_impls s) (ts_run s) (ts_abandoned s) (ts_started s).
Definition with_posted (ops : list wait_op) (s : timer_service) : timer_service :=
  TimerService (ts_queue s) (ts_shutdown s) (ts_timeout s) ops (ts_work s) (ts_impls s) (ts_run s) (ts_abandoned s) (ts_started s).
Definition with_work (n : Z) (s : timer_service) : timer_service :=
  TimerService (ts_queue s) (ts_shutdown s) (ts_timeout s) (ts_posted s) n (ts_impls s) (ts_run s) (ts_abandoned s) (ts_started s).
Definition with_impls (m : gmap nat timer_impl) (s : timer_service) : timer_service :=
  TimerService (ts_queue s) (ts_shutdown s) (ts_timeout s) (ts_posted s) (ts_work s) m (ts_run s) (ts_abandoned s) (ts_started s).
Definition with_started (ops : list wait_op) (s : timer_service) : timer_service :=
  TimerService (ts_queue s) (ts_shutdown s) (ts_timeout s) (ts_posted s) (ts_work s) (ts_impls s) (ts_run s) (ts_abandoned s) ops.

Definition on_queue {A} (m : comp timer_queue A) : comp timer_service A := λ s,
  match m (ts_queue s) with
  | Done a q => Done a (with_queue q s)
  | Block => Block
  | Fault f => Fault f
  end.
Definition post_ops (ops : list wait_op) : comp timer_service unit := modify (λ s, with_posted (ts_posted s ++ ops) s).
Definition add_work (n : Z) : comp timer_service unit := modify (λ s, with_work (ts_work s + n) s).
Definition note_started (op : wait_op) : comp timer_service unit := modify (λ s, with_started (op :: ts_started s) s).
Definition impl_at (t : nat) : comp timer_service timer_impl := λ s,
  match ts_impls s !! t with Some i => Done i s | None => Fault use_after_free end.
Definition put_impl (t : nat) (i : timer_impl) : comp timer_service unit :=
  modify (λ s, with_impls (<[t := i]> (ts_impls s)) s).

(** *** [epoll_reactor] *)

(** With a timer descriptor, which is there on Linux, and the queue of one service.
    An absolute time is in the past, and the descriptor fires at once. *)
Definition update_timeout (now : Z) : comp timer_service unit :=
  s ← get_state;
  match get_timeout now [ts_queue s] with
  | None => abort_with signed_overflow
  | Some new_timeout =>
      modify (with_timeout (Some (now, if tfd_timer_abstime new_timeout then now
                                       else now + (tv_sec new_timeout * 1000000000 + tv_nsec new_timeout))%Z))
  end.

(** The times of a [std::chrono] clock are finite. *)
Definition is_positive_infinity (time : Z) : bool := false.

Definition schedule_timer (now time : Z) (t : nat) (op : wait_op) : comp timer_service unit :=
  s ← get_state;
  if ts_shutdown s then add_work 1;; post_ops [op]
  else
    earliest ← on_queue (enqueue_timer is_positive_infinity time t op);
    add_work 1;;
    if earliest : bool then update_timeout now else mret tt.

Definition reactor_cancel_timer (t : nat) (max_cancelled : option nat) : comp timer_service nat :=
  r ← on_queue (cancel_timer t [] max_cancelled);
  post_ops r.1;; mret r.2.

Definition reactor_cancel_timer_by_key (t : nat) (key : nat) : comp timer_service unit :=
  ops ← on_queue (cancel_timer_by_key t [] key); post_ops ops.

Definition reactor_move_timer (target source : nat) : comp timer_service unit :=
  r ← on_queue (cancel_timer target [] None);
  on_queue (move_timer target source);;
  post_ops r.1.

(** [check_timers] of [run]; what it collects is queued by the scheduler.  The clock is
    read for the queue, and again for the timeout. *)
Definition reactor_check_timers (now now' : Z) : comp timer_service unit :=
  ops ← on_queue (get_ready_timers now []);
  update_timeout now';;
  post_ops ops.

(** *** [deadline_timer_service] *)

Definition service_construct (t : nat) : comp timer_service unit :=
  on_queue (put_timer t new_timer_data);; put_impl t (TimerImpl 0 false).

Definition service_cancel (t : nat) : comp timer_service nat :=
  impl ← impl_at t;
  if might_have_pending_waits impl then
    count ← reactor_cancel_timer t None;
    put_impl t (TimerImpl (expiry impl) false);; mret count
  else mret 0.

Definition service_cancel_one (t : nat) : comp timer_service nat :=
  impl ← impl_at t;
  if might_have_pending_waits impl then
    count ← reactor_cancel_timer t (Some 1);
    (if decide (count = 0) then put_impl t (TimerImpl (expiry impl) false) else mret tt);; mret count
  else mret 0.

(** [destroy], and the storage of the timer goes. *)
Definition service_destroy (t : nat) : comp timer_service unit :=
  service_cancel t;;
  on_queue (modify (λ q, TimerQueue (timers_ q) (heap_ q) (delete t (timer_objects q))));;
  modify (λ s, with_impls (delete t (ts_impls s)) s).

Definition take_over (t other : nat) (impl : timer_impl) : comp timer_service unit :=
  put_impl t impl;; put_impl other (TimerImpl 0 false).

Definition service_move_construct (t other : nat) : comp timer_service unit :=
  on_queue (put_timer t new_timer_data);;
  impl ← impl_at other;
  (if might_have_pending_waits impl then reactor_move_timer t other else mret tt);;
  take_over t other impl.

(** Between timers of the same service. *)
Definition service_move_assign (t other : nat) : comp timer_service unit :=
  impl_at t;;
  reactor_move_timer t other;;
  impl ← impl_at other; take_over t other impl.

Definition service_expires_at (t : nat) (time : Z) : comp timer_service nat :=
  count ← service_cancel t;
  impl ← impl_at t; put_impl t (TimerImpl time (might_have_pending_waits impl));; mret count.

Definition service_expires_after (t : nat) (now d : Z) : comp timer_service nat :=
  match chrono_add now d with
  | Some time => service_expires_at t time
  | None => abort_with signed_overflow
  end.

Definition service_async_wait (now : Z) (t : nat) (op : wait_op) : comp timer_service unit :=
  impl ← impl_at t;
  put_impl t (TimerImpl (expiry impl) true);;
  note_started op;;
  schedule_timer now (expiry impl) t op.

(** The scheduler runs the first wait that is posted, and its work is done. *)
Definition run_posted : comp timer_service unit :=
  s ← get_state;
  match ts_posted s with
  | [] => block
  | op :: ops => modify (λ s, TimerService (ts_queue s) (ts_shutdown s) (ts_timeout s) ops (ts_work s - 1) (ts_impls s) (ts_run s ++ [op]) (ts_abandoned s) (ts_started s))
  end.

(** [epoll_reactor::shutdown], as far as timers go: [abandon_operations] destroys the
    waits that are left. *)
Definition reactor_shutdown : comp timer_service unit :=
  modify (λ s, TimerService (ts_queue s) true (ts_timeout s) (ts_posted s) (ts_work s) (ts_impls s) (ts_run s) (ts_abandoned s) (ts_started s));;
  ops ← on_queue (get_all_timers []);
  modify (λ s, TimerService (ts_queue s) (ts_shutdown s) (ts_timeout s) (ts_posted s) (ts_work s) (ts_impls s) (ts_run s) (ts_abandoned s ++ ops) (ts_started s)).

(** ** Waits by timer *)

Definition waits_by_timer (q : timer_queue) : gmap nat (list wait_op) := op_queue_ <$> timer_objects q.
Definition all_waits (m : gmap nat (list wait_op)) : list nat := map_to_list m ≫= λ p, wo_id <$> p.2.

Lemma all_waits_insert m t x y :
  m !! t = Some x → all_waits (<[t := y]> m) ++ (wo_id <$> x) ≡ₚ all_waits m ++ (wo_id <$> y).
Proof.
  intros Ht. rewrite <- (insert_delete_id m t x Ht) at 2. unfold all_waits. rewrite <- insert_delete_eq.
  rewrite !map_to_list_insert by apply lookup_delete_eq. csimpl. solve_Permutation.
Qed.
Lemma all_waits_new m t : m !! t = None → all_waits (<[t := []]> m) ≡ₚ all_waits m.
Proof. intros Ht. unfold all_waits. by rewrite map_to_list_insert. Qed.
Lemma all_waits_delete m t : m !! t = Some [] → all_waits (delete t m) ≡ₚ all_waits m.
Proof.
  intros Ht. rewrite <- (insert_delete_id m t [] Ht) at 2. by rewrite all_waits_new by apply lookup_delete_eq.
Qed.

(** The two regimes of a queue: in use, or drained by a shutdown. *)
Definition drained (q : timer_queue) : Prop :=
  timers_ q = None ∧ heap_ q = [] ∧ ∀ t, ops_of q t = [] ∧ next_of q t = None ∧ prev_of q t = None.
Definition regime (shutdown : bool) (q : timer_queue) : Prop := if shutdown then drained q else queue_wf q.

Lemma waits_contents q : waits_by_timer q = snd <$> contents q.
Proof.
  apply map_eq. intros t. unfold waits_by_timer. rewrite !lookup_fmap, contents_lookup. unfold ops_of.
  by destruct (timer_objects q !! t).
Qed.
Lemma waits_lookup q t : is_Some (timer_objects q !! t) → waits_by_timer q !! t = Some (ops_of q t).
Proof. intros [d Hd]. unfold waits_by_timer, ops_of. by rewrite lookup_fmap, Hd. Qed.

Lemma drained_inactive q t (Q : bool → timer_queue → Prop) :
  drained q → is_Some (timer_objects q !! t) → Q false q → wp (is_active t) Q q.
Proof.
  intros (Ht & _ & Hd) [d Hq] HQ. apply wp_bind. eapply wp_timer_at; [done|]. apply wp_bind, wp_get, wp_ret.
  rewrite bool_decide_false; [done|]. rewrite Ht. destruct (Hd t) as (_ & _ & Hp). unfold prev_of in Hp. rewrite Hq in Hp. naive_solver.
Qed.

(** The deadlines of a queue. *)
Lemma times_deadlines q z : queue_wf q → z ∈ times q ↔ ∃ t, deadline_in (contents q) t = Some z.
Proof.
  intros (l & (_ & _ & Hidx & _) & _). unfold times. rewrite list_elem_of_fmap. split.
  - intros ([z' t] & -> & He). exists t. by rewrite deadline_in_contents, deadline_elem.
  - intros [t Ht]. rewrite deadline_in_contents, deadline_elem in Ht by done. by exists (HeapEntry z t).
Qed.

Definition fewer_times (q q' : timer_queue) : Prop := ∀ z, z ∈ times q' → z ∈ times q.
#[local] Instance fewer_times_preorder : PreOrder fewer_times.
Proof. split; [by intros q z|]. intros q1 q2 q3 H1 H2 z Hz. by apply H1, H2. Qed.
Lemma no_times q q' : heap_ q' = [] → fewer_times q q'.
Proof. intros Hh z. unfold times. rewrite Hh. by intros []%elem_of_nil. Qed.

Lemma fewer_settled q q' t x :
  queue_wf q → queue_wf q' → contents q' = <[t := x]> (contents q) → (x.1 = None ∨ x.1 = deadline_of q t) → fewer_times q q'.
Proof.
  intros Hq Hq' Hc Hdl z. rewrite !times_deadlines by done. intros [u Hu]. rewrite Hc in Hu. unfold deadline_in in Hu.
  rewrite lookup_insert in Hu. case_decide as E; [|by exists u]. subst u. exists t. rewrite deadline_in_contents.
  simpl in Hu. destruct Hdl; congruence.
Qed.

Lemma settled_fst dl q : (settled dl q).1 = None ∨ (settled dl q).1 = dl.
Proof. destruct q; simpl; auto. Qed.
Lemma settled_snd dl q : (settled dl q).2 = q.
Proof. by destruct q. Qed.

Lemma cancel_any sh q t mx :
  regime sh q → is_Some (timer_objects q !! t) →
  let k := cancel_count mx (length (ops_of q t)) in
  wp (cancel_timer t [] mx) (λ r q', regime sh q' ∧ fewer_times q q' ∧ r = (set_ec wait_aborted <$> take k (ops_of q t), k) ∧
    waits_by_timer q' = <[t := drop k (ops_of q t)]> (waits_by_timer q)) q.
Proof.
  intros Hq Ht k. destruct sh; simpl in *.
  - apply wp_bind. eapply drained_inactive; [done..|]. apply wp_ret. pose proof Hq as (_ & _ & Hd). destruct (Hd t) as (Ho & _).
    unfold k. rewrite Ho. simpl. rewrite take_nil, drop_nil. do 2 (split; [done|]). split; [by destruct mx; simpl; rewrite ?Nat.min_0_r|].
    symmetry. apply insert_id. by rewrite waits_lookup, Ho.
  - eapply wp_mono; [|by apply cancel_timer_spec]. simpl. intros r q' (? & -> & Hc). split_and!; [done| |done|].
    + eapply fewer_settled; [done..|apply settled_fst].
    + by rewrite !waits_contents, Hc, fmap_insert, settled_snd.
Qed.

Lemma key_any sh q t k :
  regime sh q → is_Some (timer_objects q !! t) →
  wp (cancel_timer_by_key t [] k) (λ r q', regime sh q' ∧ fewer_times q q' ∧
    r = set_ec wait_aborted <$> filter (λ op, cancellation_key_ op = k) (ops_of q t) ∧
    waits_by_timer q' = <[t := filter (λ op, cancellation_key_ op ≠ k) (ops_of q t)]> (waits_by_timer q)) q.
Proof.
  intros Hq Ht. destruct sh; simpl in *.
  - apply wp_bind. eapply drained_inactive; [done..|]. apply wp_ret. pose proof Hq as (_ & _ & Hd). destruct (Hd t) as (Ho & _).
    rewrite Ho. simpl. do 3 (split; [done|]). symmetry. apply insert_id. by rewrite waits_lookup, Ho.
  - eapply wp_mono; [|by apply cancel_timer_by_key_spec]. simpl. intros r q' (? & -> & Hc). split_and!; [done| |done|].
    + eapply fewer_settled; [done..|apply settled_fst].
    + by rewrite !waits_contents, Hc, fmap_insert, settled_snd.
Qed.

Lemma idle_contents q t : queue_wf q → is_Some (timer_objects q !! t) → ops_of q t = [] → contents q !! t = Some (None, []).
Proof.
  intros (l & Hs & Hops) Ht Ho. apply contents_Some. split_and!; [done| |done].
  pose proof (idle_not_listed _ _ _ Hops Ho) as Hn. unfold deadline_of. by rewrite (unlisted_index _ _ _ Hs Hn).
Qed.

Lemma move_drained q target source :
  drained q → target ≠ source → is_Some (timer_objects q !! target) → is_Some (timer_objects q !! source) →
  wp (move_timer target source) (λ _ q', drained q' ∧ waits_by_timer q' = waits_by_timer q) q.
Proof.
  intros (Ht & Hh & Hd) Hne [dt Htgt] [src Hsrc]. pose proof (Hd source) as (Hs1 & Hs2 & Hs3). pose proof (Hd target) as (Ht1 & Ht2 & Ht3).
  unfold ops_of, next_of, prev_of in Hs1, Hs2, Hs3, Ht1, Ht2, Ht3. rewrite Hsrc in Hs1, Hs2, Hs3. rewrite Htgt in Ht1, Ht2, Ht3. simpl in *.
  apply wp_bind. eapply wp_timer_at; [done|]. apply wp_bind. unfold move_fields, move_links. rewrite Hs1, Hs2, Hs3. simpl.
  do 3 (apply wp_bind, wp_alter; [simpl; rewrite ?lookup_alter_is_Some; by eexists|]; simpl).
  apply wp_alter; [simpl; rewrite ?lookup_alter_is_Some; by eexists|]. simpl.
  apply wp_bind, wp_bind, wp_get. simpl. apply wp_bind.
  set (m := alter _ _ _).
  eapply (wp_mono _ (λ _ q', q' = TimerQueue (timers_ q) (heap_ q) m)).
  2: { destruct (heap_index_ src) as [i|]; [|by apply wp_ret]. rewrite Hh. rewrite decide_False by (simpl; lia). by apply wp_ret. }
  intros _ q1 ->. rewrite Ht. rewrite decide_False by done. apply wp_ret. apply wp_bind, wp_ret, wp_bind, wp_ret. simpl.
  assert (∀ x, is_Some (m !! x) ↔ is_Some (timer_objects q !! x)) as Hdom by (intros x; unfold m; by rewrite !lookup_alter_is_Some).
  do 3 (apply wp_bind, wp_alter; [simpl; rewrite ?lookup_alter_is_Some; apply Hdom; by eexists|]; simpl).
  apply wp_alter; [simpl; rewrite ?lookup_alter_is_Some; apply Hdom; by eexists|]. simpl. unfold m. clear m Hdom.
  assert (∀ t, op_queue_ <$> timer_objects q !! t = (λ _, []) <$> timer_objects q !! t) as Hops.
  { intros t. destruct (Hd t) as (Ho & _). unfold ops_of in Ho. destruct (timer_objects q !! t); [|done]. simpl in *. by rewrite Ho. }
  split.
  - split_and!; [done..|]. intros t. specialize (Hd t). clear -Hd Hne Hsrc Htgt Hs1 Hs2 Hs3 Ht1 Ht2 Ht3.
    unfold ops_of, next_of, prev_of in *. simpl. rewrite !lookup_alter.
    repeat case_decide; subst; destruct (timer_objects q !! t) eqn:E; simplify_eq/=; rewrite ?app_nil_r; naive_solver.
  - apply map_eq. intros t. unfold waits_by_timer. rewrite !lookup_fmap. simpl. rewrite !lookup_alter.
    repeat case_decide; subst; destruct (timer_objects q !! t) eqn:E; simplify_eq/=; rewrite ?app_nil_r; congruence.
Qed.

Lemma move_any sh q target source :
  regime sh q → target ≠ source → is_Some (timer_objects q !! target) → is_Some (timer_objects q !! source) → ops_of q target = [] →
  wp (move_timer target source) (λ _ q', regime sh q' ∧ fewer_times q q' ∧
    waits_by_timer q' = <[source := []]> (<[target := ops_of q source]> (waits_by_timer q))) q.
Proof.
  intros Hq Hne Ht Hs Ho. destruct sh; simpl in *.
  - eapply wp_mono; [|by apply move_drained]. simpl. intros _ q' (Hd' & ->). split; [done|]. split; [apply no_times, Hd'|].
    destruct Hq as (_ & _ & Hd).
    destruct (Hd source) as (Hos & _). rewrite Hos. rewrite !insert_id; [done|by rewrite waits_lookup, Ho|].
    rewrite insert_id; by rewrite waits_lookup, ?Ho, ?Hos.
  - eapply wp_mono; [|apply move_timer_spec; [done..|by apply idle_contents|]].
    2: { rewrite contents_lookup. by rewrite decide_True. }
    simpl. intros _ q' (Hq' & x & Hx & Hc). split; [done|]. destruct x as [dl ops]. pose proof Hx as (_ & <- & <-)%contents_Some. split.
    { intros z. rewrite !times_deadlines by done. intros [u Hu]. rewrite Hc in Hu. unfold deadline_in in Hu. rewrite !lookup_insert in Hu.
      repeat case_decide; [exists source; unfold deadline_in; by rewrite Hx|done|by exists u]. }
    rewrite !waits_contents, Hc, !fmap_insert. simpl. by rewrite insert_insert_ne.
Qed.

Lemma object_any sh q t o (q' := TimerQueue (timers_ q) (heap_ q) (partial_alter (λ _, o) t (timer_objects q))) :
  regime sh q → ops_of q t = [] → (o = None ∨ o = Some new_timer_data) →
  regime sh q' ∧ waits_by_timer q' = partial_alter (λ _, (λ _, []) <$> o) t (waits_by_timer q).
Proof.
  intros Hq Ho Hnew. destruct sh; simpl in *.
  - split.
    + destruct Hq as (? & ? & Hd). split_and!; [done..|]. intros x. specialize (Hd x). unfold q', ops_of, next_of, prev_of in *. simpl.
      destruct (decide (x = t)) as [->|]; [rewrite lookup_partial_alter_eq; by destruct Hnew as [->| ->]|by rewrite lookup_partial_alter_ne].
    + apply map_eq. intros x. unfold waits_by_timer. rewrite lookup_fmap. simpl.
      destruct (decide (x = t)) as [->|]; [rewrite !lookup_partial_alter_eq; by destruct Hnew as [->| ->]|].
      by rewrite !lookup_partial_alter_ne, lookup_fmap.
  - destruct (idle_object_changes q t o) as [? Hc]; [done..|]. split; [done|]. rewrite !waits_contents. unfold q'. rewrite Hc.
    apply map_eq. intros x. rewrite lookup_fmap.
    destruct (decide (x = t)) as [->|]; [rewrite !lookup_partial_alter_eq; by destruct Hnew as [->| ->]|].
    by rewrite !lookup_partial_alter_ne, lookup_fmap.
Qed.

(** A wait that is enqueued makes its deadline the earliest, and says so, or there is a
    deadline that is no later. *)
Definition new_deadline (q : timer_queue) (time : Z) (earliest : bool) (q' : timer_queue) : Prop :=
  ∀ z, z ∈ times q' → z ∈ times q ∨ z = time ∧ (earliest = true ∨ ∃ z', z' ∈ times q ∧ (z' ≤ time)%Z).

Lemma new_deadline_idle q q' time t op b :
  queue_wf q → queue_wf q' → contents q' = <[t := (Some time, [op])]> (contents q) →
  (b = true ↔ index_of q' t = Some 0) → new_deadline q time b q'.
Proof.
  intros Hq Hq' Hc Hb z. rewrite times_deadlines by done. intros [u Hu]. rewrite Hc in Hu. unfold deadline_in in Hu.
  rewrite lookup_insert in Hu. case_decide as E; [|left; apply times_deadlines; [done|by exists u]].
  simplify_eq/=. right. split; [done|]. destruct (decide (Forall (λ z', z < z')%Z (times q))) as [Hf|Hf].
  - left. apply Hb, (first_to_expire (λ _, false) q q' z u op); [done..|]. intros v z' _ Hv.
    rewrite Forall_forall in Hf. apply Hf, times_deadlines; [done|]. by exists v.
  - right. apply not_Forall_Exists, Exists_exists in Hf as (z' & ? & ?); [|apply _]. exists z'. split; [done|]. simpl in *. lia.
Qed.

Lemma enqueue_live q time t op :
  queue_wf q → is_Some (timer_objects q !! t) → wo_id op ∉ (wo_id <$> ops_of q t) →
  wp (enqueue_timer is_positive_infinity time t op) (λ b q', queue_wf q' ∧ new_deadline q time b q' ∧
    waits_by_timer q' = <[t := ops_of q t ++ [op]]> (waits_by_timer q)) q.
Proof.
  intros Hq Ht Hop. destruct (decide (ops_of q t = [])) as [Ho|Ho].
  - eapply wp_mono; [|by apply enqueue_idle_spec]. simpl. intros b q' (? & Hc & Hb). split; [done|].
    split; [by eapply new_deadline_idle|]. by rewrite !waits_contents, Hc, fmap_insert, Ho.
  - eapply wp_mono; [|by apply enqueue_busy_spec]. simpl. intros b q' (? & Hc & _). split; [done|]. split.
    + intros z Hz. left. revert z Hz. eapply fewer_settled; [done..|by right].
    + by rewrite !waits_contents, Hc, fmap_insert.
Qed.

(** What a queue gives out is what it loses. *)
Definition gives (sh : bool) (q : timer_queue) (out : list wait_op) (q' : timer_queue) : Prop :=
  regime sh q' ∧ fewer_times q q' ∧ dom (waits_by_timer q') = dom (waits_by_timer q) ∧
  (wo_id <$> out) ++ all_waits (waits_by_timer q') ≡ₚ all_waits (waits_by_timer q) ∧
  ∀ t, ops_of q t = [] → ops_of q' t = [].

Lemma waits_ops q t : ops_of q t = default [] (waits_by_timer q !! t).
Proof. unfold ops_of, waits_by_timer. rewrite lookup_fmap. by destruct (_ !! t). Qed.

Lemma ids_set_ec e (l : list wait_op) : wo_id <$> (set_ec e <$> l) = wo_id <$> l.
Proof. rewrite <- list_fmap_compose. by apply list_fmap_ext. Qed.

Lemma gives_part sh q q' t out rest :
  regime sh q' → fewer_times q q' → is_Some (timer_objects q !! t) → waits_by_timer q' = <[t := rest]> (waits_by_timer q) →
  out ++ (wo_id <$> rest) ≡ₚ wo_id <$> ops_of q t → (ops_of q t = [] → rest = []) →
  ∀ l, wo_id <$> l = out → gives sh q l q'.
Proof.
  intros Hr Hf Ht Hw Hout Hnil l Hl. pose proof (waits_lookup q t Ht) as Hlk. do 2 (split; [done|]). split_and!.
  - rewrite Hw, dom_insert_L. apply elem_of_dom_2 in Hlk. set_solver.
  - rewrite Hw, Hl. pose proof (all_waits_insert _ t _ rest Hlk) as Hp.
    rewrite <- Hout in Hp. apply (Permutation_app_inv_r (wo_id <$> rest)). rewrite <- Hp. solve_Permutation.
  - intros x Hx. rewrite waits_ops, Hw, lookup_insert. case_decide as E; [|by rewrite <- waits_ops]. subst x. simpl. auto.
Qed.

Lemma cancel_gives sh q t mx :
  regime sh q → is_Some (timer_objects q !! t) →
  wp (cancel_timer t [] mx) (λ r q', gives sh q r.1 q' ∧ length r.1 = r.2 ∧ Forall (λ op, wo_ec op = wait_aborted) r.1 ∧
    (mx = None ∨ r.2 = 0 ∧ mx ≠ Some 0 → ops_of q' t = [])) q.
Proof.
  intros Hq Ht. eapply wp_mono; [|by apply cancel_any]. simpl. intros r q' (Hr & Hf & -> & Hw). simpl.
  set (k := cancel_count mx (length (ops_of q t))) in *. split_and!.
  - eapply gives_part; [done..| | |done].
    + rewrite ids_set_ec, <- fmap_app, take_drop. done.
    + intros ->. apply drop_nil.
  - rewrite length_fmap, length_take. unfold k. destruct mx; simpl; lia.
  - apply Forall_fmap, Forall_true. done.
  - intros Hc. rewrite waits_ops, Hw, lookup_insert_eq. simpl. apply drop_ge. unfold k in *. destruct mx as [m|]; simpl in *; [|lia].
    destruct Hc as [|[Hc Hm]]; [done|]. assert (m ≠ 0) by congruence. lia.
Qed.

Lemma key_gives sh q t key :
  regime sh q → is_Some (timer_objects q !! t) →
  wp (cancel_timer_by_key t [] key) (λ r q', gives sh q r q') q.
Proof.
  intros Hq Ht. eapply wp_mono; [|by apply key_any]. simpl. intros r q' (Hr & Hf & -> & Hw).
  eapply gives_part; [done..| | |done].
  - rewrite ids_set_ec, <- fmap_app. apply fmap_Permutation. clear.
    induction (ops_of q t) as [|op l IH]; [done|]. rewrite !filter_cons. repeat case_decide; simpl; try done; [by f_equiv|].
    rewrite <- Permutation_middle. by f_equiv.
  - intros ->. done.
Qed.

Definition cleared (ts : list nat) (m : gmap nat (list wait_op)) : gmap nat (list wait_op) := foldr (λ t, <[t := []]>) m ts.

Lemma cleared_lookup ts m t :
  (∀ t, t ∈ ts → is_Some (m !! t)) → cleared ts m !! t = if decide (t ∈ ts) then Some [] else m !! t.
Proof.
  intros Hm. induction ts as [|u ts IH]; [by rewrite decide_False by apply not_elem_of_nil|]. unfold cleared in *. cbn [foldr].
  rewrite lookup_insert. rewrite IH by (intros x Hx; apply Hm; by right).
  destruct (decide (u = t)) as [->|Hne]; [by rewrite decide_True by left|].
  apply decide_ext. rewrite elem_of_cons. naive_solver.
Qed.

Lemma all_waits_cleared ts m :
  NoDup ts → (∀ t, t ∈ ts → is_Some (m !! t)) →
  (ts ≫= λ t, wo_id <$> default [] (m !! t)) ++ all_waits (cleared ts m) ≡ₚ all_waits m.
Proof.
  intros Hnd Hm. induction Hnd as [|t ts Hn Hnd IH]; [done|].
  assert (∀ t, t ∈ ts → is_Some (m !! t)) as Hm' by (intros x Hx; apply Hm; by right).
  destruct (Hm t) as [x Hx]; [by left|]. csimpl. rewrite Hx. simpl.
  assert (cleared ts m !! t = Some x) as Hc by (by rewrite cleared_lookup, decide_False).
  pose proof (all_waits_insert _ _ _ [] Hc) as Hp. rewrite app_nil_r in Hp. rewrite <- (IH Hm'), <- Hp. simpl. solve_Permutation.
Qed.

Lemma all_waits_none m : (∀ t x, m !! t = Some x → x = []) → all_waits m = [].
Proof.
  intros Hm. unfold all_waits. assert (Forall (λ p, p.2 = []) (map_to_list m)) as Hf.
  { apply Forall_forall. intros [t x] ?%elem_of_map_to_list. eauto. }
  induction Hf as [|[t x] l E _ IH]; [done|]. csimpl. simpl in E. by rewrite E, IH.
Qed.

Lemma ready_live q now :
  queue_wf q → wp (get_ready_timers now []) (λ r q', gives false q r q' ∧ Forall (λ op, wo_ec op = wait_success) r) q.
Proof.
  intros Hq. apply wp_bind, wp_get. eapply wp_mono; [|apply ready_loop_spec; [done|lia]]. simpl.
  intros r q' (Hq' & out & -> & ts & Hnd & _ & Hts & -> & Hc). simpl.
  assert (waits_by_timer q' = cleared ts (waits_by_timer q)) as Hw.
  { rewrite !waits_contents, Hc. clear. induction ts as [|t ts IH]; [done|]. simpl. by rewrite fmap_insert, IH. }
  assert (∀ t, t ∈ ts → is_Some (waits_by_timer q !! t)) as Hin.
  { intros t (z & Hz & _)%Hts. unfold deadline_in in Hz. rewrite waits_contents, lookup_fmap. by destruct (contents q !! t). }
  assert (fewer_times q q') as Hf.
  { intros z. rewrite !times_deadlines by done. intros [t Ht]. exists t. rewrite Hc in Ht. clear -Ht.
    induction ts as [|u ts IH]; [done|]. apply IH. unfold deadline_in in Ht |- *. simpl in Ht. rewrite lookup_insert in Ht.
    by case_decide. }
  split; [do 2 (split; [done|]); split_and!|].
  - rewrite Hw. apply set_eq. intros t. rewrite !elem_of_dom, cleared_lookup by done. case_decide; [|done]. split; [intros _; by apply Hin|eauto].
  - rewrite Hw, <- (all_waits_cleared ts (waits_by_timer q)) by done. apply reflexive_eq. f_equal. clear.
    induction ts as [|t ts IH]; [done|]. csimpl. by rewrite fmap_app, IH, ids_set_ec, ops_in_contents, waits_ops.
  - intros t Ht. rewrite waits_ops, Hw, cleared_lookup by done. case_decide; [done|]. by rewrite <- waits_ops.
  - apply Forall_forall. intros op (x & Hx & _)%list_elem_of_bind. by apply list_elem_of_fmap in Hx as (y & -> & _).
Qed.

Lemma gives_nothing sh q : regime sh q → gives sh q [] q.
Proof. intros Hq. split; [done|]. by split. Qed.

Lemma ready_gives sh q now :
  regime sh q → wp (get_ready_timers now []) (λ r q', gives sh q r q' ∧ Forall (λ op, wo_ec op = wait_success) r) q.
Proof.
  intros Hq. destruct sh; [|by apply ready_live]. pose proof Hq as (_ & Hh & _).
  apply wp_bind, wp_get. rewrite Hh. simpl. apply wp_bind, wp_get. rewrite Hh. apply wp_ret. by split; [apply gives_nothing|].
Qed.

(** A shutdown takes everything, and a second one finds nothing. *)
Lemma all_any sh q :
  regime sh q → wp (get_all_timers []) (λ r q', drained q' ∧ dom (waits_by_timer q') = dom (waits_by_timer q) ∧
    (wo_id <$> r) ≡ₚ all_waits (waits_by_timer q)) q.
Proof.
  intros Hq. destruct sh; simpl in Hq.
  - pose proof Hq as (Ht & Hh & Hd). apply wp_bind, wp_get, wp_bind.
    eapply (wp_mono _ (λ r q', r = [] ∧ q' = q)); [|simpl; apply wp_bind, wp_get; rewrite Ht; by apply wp_ret].
    intros _ q' [-> ->]. apply wp_bind, wp_modify, wp_ret. split_and!; [done..|]. rewrite all_waits_none; [done|].
    intros t x Hx. destruct (Hd t) as (Ho & _). rewrite waits_ops, Hx in Ho. done.
  - eapply wp_mono; [|by apply get_all_timers_spec]. simpl. intros r q' ((ts & Hnd & Hts & ->) & ? & ? & Hdom & Hd).
    assert (∀ t, t ∈ ts → is_Some (waits_by_timer q !! t)) as Hin.
    { intros t Ht%Hts. rewrite waits_ops in Ht. by destruct (waits_by_timer q !! t). }
    split_and!; [done| |].
    + apply set_eq. intros t. unfold waits_by_timer. rewrite !dom_fmap_L, !elem_of_dom. apply Hdom.
    + simpl. rewrite <- (all_waits_cleared ts) by done. rewrite (all_waits_none (cleared _ _)), app_nil_r.
      * apply reflexive_eq. clear. induction ts as [|t ts IH]; [done|]. csimpl. by rewrite fmap_app, IH, waits_ops.
      * intros t x. rewrite cleared_lookup by done. case_decide as E; [congruence|]. rewrite Hts, waits_ops in E. intros Hx.
        rewrite Hx in E. simpl in E. destruct x; [done|]. by destruct E.
Qed.

(** ** The service *)

Definition pending (s : timer_service) : list nat := all_waits (waits_by_timer (ts_queue s)).
Definition ids (ops : list wait_op) : list nat := wo_id <$> ops.

(** The queue is in the regime of the reactor and has the timers of the service; a
    timer that has waits is marked; and every wait that was started is in one place:
    in the queue, posted, run, or destroyed by a shutdown. *)
Record service_inv (s : timer_service) : Prop := {
  si_queue : regime (ts_shutdown s) (ts_queue s);
  si_timers : dom (ts_impls s) = dom (timer_objects (ts_queue s));
  si_marked : ∀ t i, ts_impls s !! t = Some i → might_have_pending_waits i = false → ops_of (ts_queue s) t = [];
  si_clock : ∀ z, z ∈ times (ts_queue s) → (int64_min ≤ z ≤ int64_max)%Z;
  si_expiry : ∀ t i, ts_impls s !! t = Some i → (int64_min ≤ expiry i ≤ int64_max)%Z;
  si_waits : ids (ts_started s) ≡ₚ pending s ++ ids (ts_posted s) ++ ids (ts_run s) ++ ids (ts_abandoned s);
  si_distinct : NoDup (ids (ts_started s));
  si_work : ts_work s = Z.of_nat (length (pending s) + length (ts_posted s) + length (ts_abandoned s)) }.

(** The timer descriptor fires at most a microsecond after a deadline, or after it was
    armed if the deadline had passed. *)
Definition armed (s : timer_service) : Prop :=
  ∀ z, z ∈ times (ts_queue s) → ∃ since fires, ts_timeout s = Some (since, fires) ∧ (fires ≤ Z.max z since + 1000)%Z.

Lemma wp_on_queue {B} (m : comp timer_queue B) (Q : B → timer_service → Prop) s :
  wp m (λ a q, Q a (with_queue q s)) (ts_queue s) → wp (on_queue m) Q s.
Proof. unfold wp, on_queue. by destruct (m (ts_queue s)). Qed.

Lemma wp_impl_at t i (Q : timer_impl → timer_service → Prop) s : ts_impls s !! t = Some i → Q i s → wp (impl_at t) Q s.
Proof. unfold wp, impl_at. by intros ->. Qed.

Lemma impl_object s t : service_inv s → is_Some (ts_impls s !! t) ↔ is_Some (timer_objects (ts_queue s) !! t).
Proof. intros Hs. rewrite <- !elem_of_dom. by rewrite (si_timers s Hs). Qed.

Lemma waits_dom q : dom (waits_by_timer q) = dom (timer_objects q).
Proof. apply dom_fmap_L. Qed.

(** Waits that the queue gives out are posted. *)
Lemma inv_posted s q' out :
  service_inv s → gives (ts_shutdown s) (ts_queue s) out q' → service_inv (with_posted (ts_posted s ++ out) (with_queue q' s)).
Proof.
  intros [Hq Hd Hm Hc He Hw Hn Hk] (Hq' & Hf & Hd' & Hp & Ho). rewrite !waits_dom in Hd'. fold (pending s) in Hp. split; simpl; try done.
  - congruence.
  - intros t i Hi Hb. apply Ho. eauto.
  - auto.
  - rewrite Hw, <- Hp. unfold pending, ids. simpl. rewrite fmap_app. solve_Permutation.
  - rewrite Hk, <- Hp. unfold pending. simpl. rewrite !length_app, length_fmap. lia.
Qed.

(** The mark of a timer may go up at any time, and down when it has no waits. *)
Lemma inv_impl s t i :
  service_inv s → is_Some (ts_impls s !! t) → (might_have_pending_waits i = false → ops_of (ts_queue s) t = []) →
  (int64_min ≤ expiry i ≤ int64_max)%Z → service_inv (with_impls (<[t := i]> (ts_impls s)) s).
Proof.
  intros [Hq Hd Hm Hc He Hw Hn Hk] Ht Hi Hx. split; simpl; try done.
  - rewrite dom_insert_L, <- Hd. apply elem_of_dom in Ht. set_solver.
  - intros u j. rewrite lookup_insert. case_decide as E; [|apply Hm]. subst u. by intros [= ->].
  - intros u j. rewrite lookup_insert. case_decide as E; [|apply He]. by intros [= ->].
Qed.

Lemma armed_fewer s s' : armed s → fewer_times (ts_queue s) (ts_queue s') → ts_timeout s' = ts_timeout s → armed s'.
Proof. intros Ha Hf Ht z Hz. rewrite Ht. by apply Ha, Hf. Qed.

Lemma inv_clock s : service_inv s → clock_times (ts_queue s).
Proof.
  intros Hs. split; [|apply (si_clock s Hs)]. pose proof (si_queue s Hs) as Hq. destruct (ts_shutdown s); simpl in Hq.
  - destruct Hq as (_ & -> & _). intros j Hj Hn. simpl in Hn. lia.
  - by destruct Hq as (l & (_ & Ho & _) & _).
Qed.

Lemma inv_timeout s o : service_inv s → service_inv (with_timeout o s).
Proof. by intros []. Qed.

Lemma wp_update_timeout now (Q : unit → timer_service → Prop) s :
  clock_times (ts_queue s) → (int64_min ≤ now ≤ int64_max)%Z →
  (∀ o, armed (with_timeout o s) → Q tt (with_timeout o s)) → wp (update_timeout now) Q s.
Proof.
  intros Hct%Forall_singleton Hnow HQ. apply wp_bind, wp_get.
  destruct (get_timeout_spec now [ts_queue s] Hnow Hct) as (r & -> & _ & _ & Hw & Habs & Hrel & _).
  apply wp_modify, HQ. intros z Hz. do 2 eexists. split; [done|]. simpl in *. rewrite app_nil_r in *.
  destruct (tfd_timer_abstime r); [lia|]. destruct (Hrel eq_refl z Hz); lia.
Qed.

Record service_ok (s : timer_service) : Prop := { ok_inv : service_inv s; ok_armed : armed s }.

Lemma ok_posted s q' out :
  service_ok s → gives (ts_shutdown s) (ts_queue s) out q' → service_ok (with_posted (ts_posted s ++ out) (with_queue q' s)).
Proof. intros [Hs Ha] Hg. split; [by apply inv_posted|]. eapply armed_fewer; [done|apply Hg|done]. Qed.
Lemma ok_impl s t i :
  service_ok s → is_Some (ts_impls s !! t) → (might_have_pending_waits i = false → ops_of (ts_queue s) t = []) →
  (int64_min ≤ expiry i ≤ int64_max)%Z → service_ok (with_impls (<[t := i]> (ts_impls s)) s).
Proof. intros [Hs Ha] ???. split; [by apply inv_impl|done]. Qed.

(** What a call leaves alone. *)
Definition same_waits (s s' : timer_service) : Prop := ts_started s' = ts_started s ∧ ts_shutdown s' = ts_shutdown s.

Lemma reactor_cancel_ok s t mx :
  service_ok s → is_Some (ts_impls s !! t) →
  wp (reactor_cancel_timer t mx) (λ n s', service_ok s' ∧ ts_impls s' = ts_impls s ∧ same_waits s s' ∧
    (mx = None ∨ n = 0 ∧ mx ≠ Some 0 → ops_of (ts_queue s') t = [])) s.
Proof.
  intros Hs Ht. apply wp_bind, wp_on_queue.
  eapply wp_mono; [|apply cancel_gives; [apply Hs|by apply impl_object; [apply Hs|]]]. simpl.
  intros r q' (Hg & _ & _ & Hn). apply wp_bind, wp_modify, wp_ret. simpl. split_and!; [by apply ok_posted|done..|exact Hn].
Qed.

Lemma reactor_key_ok s t key :
  service_ok s → is_Some (ts_impls s !! t) →
  wp (reactor_cancel_timer_by_key t key) (λ _ s', service_ok s' ∧ ts_impls s' = ts_impls s ∧ same_waits s s') s.
Proof.
  intros Hs Ht. apply wp_bind, wp_on_queue.
  eapply wp_mono; [|apply key_gives; [apply Hs|by apply impl_object; [apply Hs|]]].
  intros r q' Hg. apply wp_modify. simpl. split_and!; [by apply ok_posted|done..].
Qed.

Lemma service_cancel_ok s t i :
  service_ok s → ts_impls s !! t = Some i →
  wp (service_cancel t) (λ _ s', service_ok s' ∧ same_waits s s' ∧ ops_of (ts_queue s') t = [] ∧
    ts_impls s' = <[t := TimerImpl (expiry i) false]> (ts_impls s)) s.
Proof.
  intros Hs Hi. apply wp_bind. eapply wp_impl_at; [done|]. destruct (might_have_pending_waits i) eqn:Hb.
  - apply wp_bind. eapply wp_mono; [|apply reactor_cancel_ok; [done|by eexists]]. simpl.
    intros n s' (Hs' & Hi' & Hsame & Hn). apply wp_bind, wp_modify, wp_ret. simpl.
    split_and!; [|done|by apply Hn; left|by rewrite Hi'].
    apply (ok_impl s' t (TimerImpl (expiry i) false)); [done|rewrite Hi'; by eexists|intros _; by apply Hn; left|].
    exact (si_expiry s (ok_inv s Hs) t i Hi).
  - apply wp_ret. split_and!; [done..|by eapply si_marked; [apply Hs|..]|]. rewrite insert_id; [done|].
    rewrite Hi. destruct i as [x b]. simpl in *. by rewrite Hb.
Qed.

Lemma service_cancel_one_ok s t :
  service_ok s → is_Some (ts_impls s !! t) →
  wp (service_cancel_one t) (λ _ s', service_ok s' ∧ same_waits s s' ∧ dom (ts_impls s') = dom (ts_impls s)) s.
Proof.
  intros Hs [i Hi]. apply wp_bind. eapply wp_impl_at; [done|]. destruct (might_have_pending_waits i) eqn:Hb.
  - apply wp_bind. eapply wp_mono; [|apply reactor_cancel_ok; [done|by eexists]]. simpl.
    intros n s' (Hs' & Hi' & Hsame & Hn). apply wp_bind. case_decide as Hn0.
    + apply wp_modify, wp_ret. simpl. split_and!; [|done..|rewrite Hi', dom_insert_L; apply elem_of_dom_2 in Hi; set_solver].
      apply (ok_impl s' t (TimerImpl (expiry i) false)); [done|rewrite Hi'; by eexists|intros _; by apply Hn; right|].
      exact (si_expiry s (ok_inv s Hs) t i Hi).
    + apply wp_ret, wp_ret. split_and!; [done..|]. by rewrite Hi'.
  - by apply wp_ret.
Qed.

Lemma zero_in_clock : (int64_min ≤ 0 ≤ int64_max)%Z.
Proof. unfold int64_min, int64_max. lia. Qed.

Definition with_object (t : nat) (o : option per_timer_data) (s : timer_service) : timer_service :=
  with_queue (TimerQueue (timers_ (ts_queue s)) (heap_ (ts_queue s)) (partial_alter (λ _, o) t (timer_objects (ts_queue s)))) s.

(** A timer appears, or one without waits disappears. *)
Lemma ok_object s t o (i : option timer_impl) :
  service_ok s → ops_of (ts_queue s) t = [] →
  (is_Some (ts_impls s !! t) ∧ o = None ∧ i = None ∨ ts_impls s !! t = None ∧ o = Some new_timer_data ∧ i = Some (TimerImpl 0 false)) →
  service_ok (with_impls (partial_alter (λ _, i) t (ts_impls s)) (with_object t o s)).
Proof.
  intros [Hs Ha] Hops Ho. pose proof Hs as [Hq Hd Hm Hc He Hw Hn Hk].
  destruct (object_any (ts_shutdown s) (ts_queue s) t o Hq Hops) as [Hr Hwt]; [naive_solver|].
  assert (pending (with_object t o s) ≡ₚ pending s) as Hp.
  { unfold pending, with_object. simpl. rewrite Hwt. destruct Ho as [(Ht & -> & _)|(Ht & -> & _)].
    - apply all_waits_delete. rewrite waits_lookup, Hops; [done|]. by apply impl_object.
    - apply all_waits_new. apply eq_None_not_Some. intros Hx. apply elem_of_dom in Hx. rewrite waits_dom, <- Hd in Hx.
      apply elem_of_dom in Hx. rewrite Ht in Hx. by apply is_Some_None in Hx. }
  split; [|done]. unfold with_object in *. split; simpl; try done.
  - apply set_eq. intros x. rewrite !elem_of_dom.
    destruct (decide (x = t)) as [->|]; [|rewrite !lookup_partial_alter_ne by done; by apply impl_object].
    rewrite !lookup_partial_alter_eq. naive_solver.
  - intros x j Hj Hb. rewrite waits_ops, Hwt. destruct (decide (x = t)) as [->|].
    + rewrite lookup_partial_alter_eq. by destruct o.
    + rewrite lookup_partial_alter_ne in Hj by done. rewrite lookup_partial_alter_ne by done. rewrite <- waits_ops. eauto.
  - intros x j. destruct (decide (x = t)) as [->|]; [|rewrite lookup_partial_alter_ne by done; apply He].
    rewrite lookup_partial_alter_eq. destruct Ho as [(_ & _ & ->)|(_ & _ & ->)]; [done|]. intros [= <-]. apply zero_in_clock.
  - unfold pending in *. simpl in *. by rewrite Hp.
  - unfold pending in *. simpl in *. by rewrite Hp.
Qed.

Lemma new_object_idle s t : service_inv s → ts_impls s !! t = None → ops_of (ts_queue s) t = [].
Proof.
  intros Hs Ht. pose proof (impl_object s t Hs) as Hi. rewrite Ht in Hi. unfold ops_of.
  destruct (timer_objects (ts_queue s) !! t); [|done]. by destruct (proj2 Hi (ltac:(by eexists))).
Qed.

Lemma service_construct_ok s t :
  service_ok s → ts_impls s !! t = None →
  wp (service_construct t) (λ _ s', service_ok s' ∧ same_waits s s' ∧ dom (ts_impls s') = {[t]} ∪ dom (ts_impls s)) s.
Proof.
  intros Hs Ht. apply wp_bind, wp_on_queue, wp_modify, wp_modify. simpl. split_and!; [|done|apply dom_insert_L].
  apply (ok_object s t (Some new_timer_data) (Some (TimerImpl 0 false))); [done| |by right]. by apply new_object_idle; [apply Hs|].
Qed.

Lemma service_destroy_ok s t :
  service_ok s → is_Some (ts_impls s !! t) →
  wp (service_destroy t) (λ _ s', service_ok s' ∧ same_waits s s' ∧ dom (ts_impls s') = dom (ts_impls s) ∖ {[t]}) s.
Proof.
  intros Hs [i Hi]. apply wp_bind. eapply wp_mono; [|by apply service_cancel_ok]. simpl. intros n s' (Hs' & Hsame & Ho & Hi').
  apply wp_bind, wp_on_queue, wp_modify, wp_modify. simpl. split_and!; [|done|].
  - apply (ok_object s' t None None); [done..|]. left. rewrite Hi', lookup_insert_eq. by eauto.
  - rewrite dom_delete_L, Hi', dom_insert_L. set_solver.
Qed.

Lemma service_expires_at_ok s t time :
  service_ok s → is_Some (ts_impls s !! t) → (int64_min ≤ time ≤ int64_max)%Z →
  wp (service_expires_at t time) (λ _ s', service_ok s' ∧ same_waits s s' ∧ dom (ts_impls s') = dom (ts_impls s) ∧
    ts_impls s' !! t = Some (TimerImpl time false)) s.
Proof.
  intros Hs [i Hi] Htime. apply wp_bind. eapply wp_mono; [|by apply service_cancel_ok]. simpl. intros n s' (Hs' & Hsame & Ho & Hi').
  assert (ts_impls s' !! t = Some (TimerImpl (expiry i) false)) as Ht by by rewrite Hi', lookup_insert_eq.
  apply wp_bind. eapply wp_impl_at; [done|]. apply wp_bind, wp_modify, wp_ret. simpl. split_and!; [|done| |by rewrite lookup_insert_eq].
  - apply (ok_impl s' t (TimerImpl time false)); [done|by eexists|done|done].
  - rewrite dom_insert_L, Hi', dom_insert_L. apply elem_of_dom_2 in Hi. set_solver.
Qed.

(** *** Moves *)

(** The waits of a timer pass to another. *)
Definition passes (sh : bool) (target source : nat) (q q' : timer_queue) : Prop :=
  regime sh q' ∧ fewer_times q q' ∧ ops_of q target = [] ∧
  waits_by_timer q' = <[source := []]> (<[target := ops_of q source]> (waits_by_timer q)).

Lemma reactor_move_wp s target source :
  regime (ts_shutdown s) (ts_queue s) → target ≠ source →
  is_Some (timer_objects (ts_queue s) !! target) → is_Some (timer_objects (ts_queue s) !! source) →
  wp (reactor_move_timer target source) (λ _ s', ∃ out q1 q2, s' = with_posted (ts_posted s ++ out) (with_queue q2 s) ∧
    gives (ts_shutdown s) (ts_queue s) out q1 ∧ passes (ts_shutdown s) target source q1 q2) s.
Proof.
  intros Hq Hne Ht Hs. apply wp_bind, wp_on_queue. eapply wp_mono; [|by apply cancel_gives]. simpl.
  intros r q1 (Hg & _ & _ & Hn). specialize (Hn (or_introl eq_refl)). apply wp_bind, wp_on_queue.
  assert (∀ x, is_Some (timer_objects q1 !! x) ↔ is_Some (timer_objects (ts_queue s) !! x)) as Hdom.
  { intros x. destruct Hg as (_ & _ & Hd & _). rewrite !waits_dom in Hd. by rewrite <- !elem_of_dom, Hd. }
  eapply wp_mono; [|apply (move_any (ts_shutdown s)); [apply Hg|done|by apply Hdom..|done]]. simpl.
  intros _ q2 (Hq2 & Hf & Hw). apply wp_modify. by exists r.1, q1, q2.
Qed.

Lemma passes_waits sh target source q q' :
  target ≠ source → is_Some (timer_objects q !! target) → is_Some (timer_objects q !! source) → passes sh target source q q' →
  dom (timer_objects q') = dom (timer_objects q) ∧ all_waits (waits_by_timer q') ≡ₚ all_waits (waits_by_timer q) ∧
  ∀ t, ops_of q' t = if decide (t = source) then [] else if decide (t = target) then ops_of q source else ops_of q t.
Proof.
  intros Hne Ht%waits_lookup Hs%waits_lookup (_ & _ & Ho & Hw). rewrite Ho in Ht. split_and!.
  - rewrite <- !waits_dom, Hw, !dom_insert_L. apply elem_of_dom_2 in Ht, Hs. set_solver.
  - rewrite Hw. assert (<[target := ops_of q source]> (waits_by_timer q) !! source = Some (ops_of q source)) as H1
      by by rewrite lookup_insert_ne.
    pose proof (all_waits_insert _ _ _ [] H1) as Hp1. pose proof (all_waits_insert _ _ _ (ops_of q source) Ht) as Hp2.
    simpl in *. rewrite app_nil_r in *. apply (Permutation_app_inv_r (wo_id <$> ops_of q source)). by rewrite Hp1, Hp2.
  - intros t. rewrite waits_ops, Hw, !lookup_insert. repeat case_decide; subst; try done. by rewrite <- waits_ops.
Qed.

(** [x] is what was known of the target before. *)
Lemma ok_moved s target source x i out q1 q2 :
  service_ok (with_impls (<[target := x]> (ts_impls s)) s) → target ≠ source → ts_impls s !! source = Some i →
  gives (ts_shutdown s) (ts_queue s) out q1 → passes (ts_shutdown s) target source q1 q2 →
  service_ok (with_impls (<[source := TimerImpl 0 false]> (<[target := i]> (ts_impls s)))
    (with_posted (ts_posted s ++ out) (with_queue q2 s))).
Proof.
  intros Hs0 Hne Hi Hg Hp. pose proof (ok_posted _ _ _ Hs0 Hg) as [[Hq Hd Hm Hc He Hw Hn Hk] Ha]. simpl in *. clear Hs0.
  assert (∀ y, is_Some (<[target := x]> (ts_impls s) !! y) ↔ is_Some (timer_objects q1 !! y)) as Hobj
    by (intros y; by rewrite <- !elem_of_dom, Hd).
  assert (<[target := x]> (ts_impls s) !! source = Some i) as Hi' by by rewrite lookup_insert_ne.
  destruct (passes_waits _ _ _ _ _ Hne (proj1 (Hobj target) ltac:(rewrite lookup_insert_eq; by eexists))
    (proj1 (Hobj source) ltac:(by eexists)) Hp) as (Hd2 & Hall & Hops).
  destruct Hp as (Hq2 & Hf & Ho & _). split; [|by eapply armed_fewer].
  split; simpl; try done.
  - rewrite Hd2, <- Hd, !dom_insert_L. apply elem_of_dom_2 in Hi. set_solver.
  - intros y j. rewrite !lookup_insert, Hops. repeat case_decide; subst; intros Hj; simplify_eq; try done.
    + intros Hb. by eapply (Hm source).
    + apply (Hm y). by rewrite lookup_insert_ne.
  - auto.
  - intros y j. rewrite !lookup_insert. repeat case_decide; subst; intros Hj; simplify_eq; [apply zero_in_clock|by apply (He source)|].
    apply (He y). by rewrite lookup_insert_ne.
  - unfold pending in *. simpl in *. by rewrite Hall.
  - unfold pending in *. simpl in *. by rewrite Hall.
Qed.

Lemma service_move_assign_ok s target source :
  service_ok s → target ≠ source → is_Some (ts_impls s !! target) → is_Some (ts_impls s !! source) →
  wp (service_move_assign target source) (λ _ s', service_ok s' ∧ same_waits s s' ∧ dom (ts_impls s') = dom (ts_impls s)) s.
Proof.
  intros Hs Hne [x Hx] [i Hi]. pose proof (ok_inv s Hs) as Hinv. apply wp_bind. eapply wp_impl_at; [done|]. apply wp_bind.
  eapply wp_mono; [|apply reactor_move_wp; [apply Hinv|done|apply impl_object; [done|by eexists]..]]. simpl.
  intros _ s' (out & q1 & q2 & -> & Hg & Hp). apply wp_bind. eapply wp_impl_at; [done|].
  apply wp_bind, wp_modify, wp_modify. simpl. split_and!; [|done|].
  - eapply (ok_moved s target source x); [|done..]. rewrite insert_id by done. by destruct s.
  - rewrite !dom_insert_L. apply elem_of_dom_2 in Hx, Hi. set_solver.
Qed.

Lemma service_move_construct_ok s target source :
  service_ok s → ts_impls s !! target = None → is_Some (ts_impls s !! source) →
  wp (service_move_construct target source) (λ _ s', service_ok s' ∧ same_waits s s' ∧ dom (ts_impls s') = {[target]} ∪ dom (ts_impls s)) s.
Proof.
  intros Hs Ht [i Hi]. pose proof (new_object_idle s target (ok_inv s Hs) Ht) as Hidle. assert (target ≠ source) as Hne by congruence.
  pose proof (ok_object s target (Some new_timer_data) (Some (TimerImpl 0 false)) Hs Hidle (or_intror (conj Ht (conj eq_refl eq_refl)))) as Hs1.
  change (partial_alter _ target (ts_impls s)) with (<[target := TimerImpl 0 false]> (ts_impls s)) in Hs1.
  apply wp_bind, wp_on_queue, wp_modify, wp_bind. fold (with_object target (Some new_timer_data) s).
  change (with_queue _ s) with (with_object target (Some new_timer_data) s). set (s1 := with_object _ _ s) in *.
  assert (ts_impls s1 = ts_impls s) as Hi1 by done. eapply (wp_impl_at source i); [done|]. apply wp_bind.
  assert (dom (<[source := TimerImpl 0 false]> (<[target := i]> (ts_impls s))) = {[target]} ∪ dom (ts_impls s)) as Hdom.
  { rewrite !dom_insert_L. apply elem_of_dom_2 in Hi. set_solver. }
  destruct (might_have_pending_waits i) eqn:Hb.
  - assert (∀ x, is_Some (<[target := TimerImpl 0 false]> (ts_impls s) !! x) → is_Some (timer_objects (ts_queue s1) !! x)) as Hobj.
    { intros x. apply (impl_object _ x (ok_inv _ Hs1)). }
    eapply wp_mono; [|apply reactor_move_wp; [apply (ok_inv _ Hs1)|done|apply Hobj..]]; simpl.
    2: by rewrite lookup_insert_eq. 2: by rewrite lookup_insert_ne, Hi.
    intros _ s' (out & q1 & q2 & -> & Hg & Hp). apply wp_bind, wp_modify, wp_modify. simpl. split_and!; [|done..].
    by eapply (ok_moved s1 target source (TimerImpl 0 false)).
  - apply wp_ret, wp_bind, wp_modify, wp_modify. simpl. split_and!; [|done..].
    assert (ops_of (ts_queue s1) target = []) as Ho by (eapply (si_marked _ (ok_inv _ Hs1)); [apply lookup_insert_eq|done]).
    pose proof (ok_impl _ target i Hs1) as Hs2. simpl in Hs2. rewrite insert_insert_eq in Hs2.
    pose proof (ok_impl (with_impls (<[target := i]> (ts_impls s)) s1) source (TimerImpl 0 false)) as Hs3. simpl in Hs3.
    apply Hs3; [| | |apply zero_in_clock].
    + apply Hs2; [by rewrite lookup_insert_eq|done|]. by apply (si_expiry s (ok_inv s Hs) source).
    + by rewrite lookup_insert_ne, Hi.
    + intros _. apply (si_marked _ (ok_inv _ Hs1) source i); [|done]. simpl. by rewrite lookup_insert_ne.
Qed.

(** *** Waits *)

Definition with_wait (t : nat) (op : wait_op) (i : timer_impl) (s : timer_service) : timer_service :=
  with_work (ts_work s + 1) (with_started (op :: ts_started s) (with_impls (<[t := TimerImpl (expiry i) true]> (ts_impls s)) s)).

Lemma all_waits_push m t x op : m !! t = Some x → all_waits (<[t := x ++ [op]]> m) ≡ₚ wo_id op :: all_waits m.
Proof.
  intros Hx. pose proof (all_waits_insert _ _ _ (x ++ [op]) Hx) as Hp. apply (Permutation_app_inv_r (wo_id <$> x)). rewrite Hp, fmap_app.
  simpl. solve_Permutation.
Qed.

Lemma inv_enqueued s t op i q' b :
  service_inv s → ts_impls s !! t = Some i → wo_id op ∉ ids (ts_started s) → ts_shutdown s = false → queue_wf q' →
  new_deadline (ts_queue s) (expiry i) b q' → waits_by_timer q' = <[t := ops_of (ts_queue s) t ++ [op]]> (waits_by_timer (ts_queue s)) →
  service_inv (with_queue q' (with_wait t op i s)).
Proof.
  intros Hs Hi Hop Hsh Hq' Hnew Hwt. pose proof Hs as [Hq Hd Hm Hc He Hw Hn Hk].
  pose proof (waits_lookup _ _ (proj1 (impl_object s t Hs) ltac:(by eexists))) as Hlk.
  pose proof (all_waits_push _ _ _ op Hlk) as Hp. rewrite <- Hwt in Hp. split; simpl.
  - by rewrite Hsh.
  - rewrite <- waits_dom, Hwt, !dom_insert_L, waits_dom. set_solver.
  - intros u j Hj Hb. rewrite waits_ops, Hwt, lookup_insert. rewrite lookup_insert in Hj. case_decide; [by simplify_eq/=|].
    rewrite <- waits_ops. eauto.
  - intros z [Hz|[-> _]]%Hnew; [by apply Hc|by apply (He t)].
  - intros u j. rewrite lookup_insert. case_decide; [|apply He]. intros [= <-]. exact (He t i Hi).
  - unfold pending in *. simpl. rewrite Hp, Hw. done.
  - by constructor.
  - unfold pending in *. simpl. rewrite Hp, Hk. simpl. lia.
Qed.

Lemma service_async_wait_ok s now t op :
  service_ok s → is_Some (ts_impls s !! t) → wo_id op ∉ ids (ts_started s) → (int64_min ≤ now ≤ int64_max)%Z →
  wp (service_async_wait now t op) (λ _ s', service_ok s' ∧ ts_started s' = op :: ts_started s ∧ dom (ts_impls s') = dom (ts_impls s)) s.
Proof.
  intros [Hs Ha] [i Hi] Hop Hnow. pose proof Hs as [Hq Hd Hm Hc He Hw Hn Hk].
  assert (dom (<[t := TimerImpl (expiry i) true]> (ts_impls s)) = dom (ts_impls s)) as Hdom.
  { rewrite dom_insert_L. apply elem_of_dom_2 in Hi. set_solver. }
  apply wp_bind. eapply wp_impl_at; [done|]. apply wp_bind, wp_modify, wp_bind, wp_modify, wp_bind, wp_get. simpl.
  destruct (ts_shutdown s) eqn:Hsh.
  - apply wp_bind, wp_modify, wp_modify. simpl. split_and!; [|done..]. split; [|done]. split; simpl; try done.
    + by rewrite Hsh.
    + by rewrite Hdom.
    + intros u j. rewrite lookup_insert. case_decide; [by intros [= <-]|apply Hm].
    + intros u j. rewrite lookup_insert. case_decide; [|apply He]. intros [= <-]. exact (He t i Hi).
    + unfold ids, pending in *. simpl. rewrite fmap_app, Hw. simpl. solve_Permutation.
    + by constructor.
    + unfold pending in *. simpl. rewrite Hk, length_app. simpl. lia.
  - simpl in Hq. pose proof (proj1 (impl_object s t Hs) ltac:(by eexists)) as Hobj. apply wp_bind, wp_on_queue. simpl.
    assert (wo_id op ∉ (wo_id <$> ops_of (ts_queue s) t)) as Hfresh.
    { intros Hin. apply Hop. rewrite Hw. apply elem_of_app. left. unfold pending, all_waits. apply list_elem_of_bind.
      exists (t, ops_of (ts_queue s) t). split; [done|]. by apply elem_of_map_to_list, waits_lookup. }
    eapply wp_mono; [|by apply enqueue_live]. simpl. intros b q' (Hq' & Hnew & Hwt). apply wp_bind, wp_modify.
    pose proof (inv_enqueued s t op i q' b Hs Hi Hop Hsh Hq' Hnew Hwt) as Hinv.
    destruct b.
    + eapply wp_update_timeout; [apply (inv_clock _ Hinv)|done|]. intros o Ho. split_and!; [|done..].
      split; [by apply inv_timeout|done].
    + apply wp_ret. split_and!; [|done..]. split; [exact Hinv|]. intros z Hz. apply Hnew in Hz as [Hz|[-> [|(z' & Hz' & Hle)]]]; [by apply Ha|done|].
      destruct (Ha z' Hz') as (since & fires & ? & ?). exists since, fires. split; [done|]. lia.
Qed.

Lemma reactor_check_timers_ok s now now' :
  service_ok s → (int64_min ≤ now' ≤ int64_max)%Z →
  wp (reactor_check_timers now now') (λ _ s', service_ok s' ∧ same_waits s s' ∧ ts_impls s' = ts_impls s) s.
Proof.
  intros [Hs Ha] Hnow. apply wp_bind, wp_on_queue. eapply wp_mono; [|apply ready_gives, Hs]. simpl. intros ops q' [Hg _].
  pose proof (inv_posted s q' ops Hs Hg) as Hs'. apply wp_bind. eapply wp_update_timeout; [exact (inv_clock _ Hs')|done|].
  intros o Ho. apply wp_modify. split_and!; [|done..]. split; [by apply (inv_timeout _ o) in Hs'|exact Ho].
Qed.

Lemma run_posted_ok s :
  service_ok s → wp run_posted (λ _ s', service_ok s' ∧ same_waits s s' ∧ ts_impls s' = ts_impls s) s.
Proof.
  intros [Hs Ha]. apply wp_bind, wp_get. destruct (ts_posted s) as [|op ops] eqn:Hp; [done|]. apply wp_modify.
  split_and!; [|done..]. split; [|done]. destruct Hs as [Hq Hd Hm Hc He Hw Hn Hk]. rewrite Hp in *. split; simpl; try done.
  - rewrite Hw. unfold pending, ids. simpl. rewrite fmap_app. simpl. solve_Permutation.
  - rewrite Hk. unfold pending. simpl. lia.
Qed.

Lemma reactor_shutdown_ok s :
  service_ok s → wp reactor_shutdown (λ _ s', service_ok s' ∧ ts_started s' = ts_started s ∧ ts_impls s' = ts_impls s ∧
    ts_shutdown s' = true ∧ pending s' = []) s.
Proof.
  intros [Hs Ha]. pose proof Hs as [Hq Hd Hm Hc He Hw Hn Hk]. apply wp_bind, wp_modify, wp_bind, wp_on_queue. simpl.
  eapply wp_mono; [|by apply (all_any (ts_shutdown s))]. simpl. intros ops q' (Hq' & Hd' & Hp). apply wp_modify.
  pose proof Hq' as (_ & Hh & Ho). rewrite !waits_dom in Hd'. fold (pending s) in Hp.
  assert (all_waits (waits_by_timer q') = []) as Hnil.
  { apply all_waits_none. intros t x Hx. destruct (Ho t) as [E _]. by rewrite waits_ops, Hx in E. }
  split_and!; [|done..]. split; [split; simpl; try done|].
  - congruence.
  - intros t i _ _. apply Ho.
  - intros z. unfold times. rewrite Hh. by intros []%elem_of_nil.
  - rewrite Hw, <- Hp. unfold pending, ids. simpl. rewrite Hnil, fmap_app. simpl. solve_Permutation.
  - rewrite Hk, <- Hp. unfold pending. simpl. rewrite Hnil, !length_app, length_fmap. simpl. lia.
  - intros z. simpl. unfold times. rewrite Hh. by intros []%elem_of_nil.
Qed.

(** *** Calls *)

(** What the program does with timers, and what the scheduler and the reactor do. *)
Inductive service_call : Type :=
  | svc_construct (t : nat)
  | svc_destroy (t : nat)
  | svc_move_construct (t other : nat)
  | svc_move_assign (t other : nat)
  | svc_cancel (t : nat)
  | svc_cancel_one (t : nat)
  | svc_cancel_by_key (t key : nat)
  | svc_expires_at (t : nat) (time : Z)
  | svc_expires_after (t : nat) (now d : Z)
  | svc_async_wait (now : Z) (t : nat) (op : wait_op)
  | svc_check_timers (now now' : Z)
  | svc_run
  | svc_shutdown.

Definition run_service_call (c : service_call) : comp timer_service unit :=
  match c with
  | svc_construct t => service_construct t
  | svc_destroy t => service_destroy t
  | svc_move_construct t other => service_move_construct t other
  | svc_move_assign t other => service_move_assign t other
  | svc_cancel t => service_cancel t;; mret tt
  | svc_cancel_one t => service_cancel_one t;; mret tt
  | svc_cancel_by_key t key => reactor_cancel_timer_by_key t key
  | svc_expires_at t time => service_expires_at t time;; mret tt
  | svc_expires_after t now d => service_expires_after t now d;; mret tt
  | svc_async_wait now t op => service_async_wait now t op
  | svc_check_timers now now' => reactor_check_timers now now'
  | svc_run => run_posted
  | svc_shutdown => reactor_shutdown
  end.

Definition in_int64 (z : Z) : Prop := (int64_min ≤ z ≤ int64_max)%Z.

(** Timers exist when they are used, times are times of the clock, and a wait is a new
    object. *)
Definition service_allowed (s : timer_service) (c : service_call) : Prop :=
  match c with
  | svc_construct t => ts_impls s !! t = None
  | svc_destroy t | svc_cancel t | svc_cancel_one t | svc_cancel_by_key t _ => is_Some (ts_impls s !! t)
  | svc_move_construct t other => ts_impls s !! t = None ∧ is_Some (ts_impls s !! other)
  | svc_move_assign t other => t ≠ other ∧ is_Some (ts_impls s !! t) ∧ is_Some (ts_impls s !! other)
  | svc_expires_at t time => is_Some (ts_impls s !! t) ∧ in_int64 time
  | svc_expires_after t now d => is_Some (ts_impls s !! t) ∧ in_int64 now ∧ in_int64 d
  | svc_async_wait now t op => is_Some (ts_impls s !! t) ∧ wo_id op ∉ ids (ts_started s) ∧ in_int64 now
  | svc_check_timers _ now' => in_int64 now'
  | svc_run => ts_posted s ≠ []
  | svc_shutdown => True
  end.

Definition new_timer_service : timer_service := TimerService new_timer_queue false None [] 0 ∅ [] [] [].

Definition service_step (s s' : timer_service) : Prop := ∃ c, service_allowed s c ∧ run_service_call c s = Done tt s'.

Lemma new_service_ok : service_ok new_timer_service.
Proof.
  split; [split; simpl|intros z []%elem_of_nil].
  - apply new_queue_wf.
  - done.
  - by intros t i []%lookup_empty_Some.
  - intros z []%elem_of_nil.
  - by intros t i []%lookup_empty_Some.
  - done.
  - constructor.
  - done.
Qed.

Lemma service_call_ok s c : service_ok s → service_allowed s c → wp (run_service_call c) (λ _ s', service_ok s') s.
Proof.
  intros Hs Ha. destruct c; simpl in *; destruct_and?.
  - eapply wp_mono; [|by apply service_construct_ok]. by intros _ s' (? & _).
  - eapply wp_mono; [|by apply service_destroy_ok]. by intros _ s' (? & _).
  - eapply wp_mono; [|by apply service_move_construct_ok]. by intros _ s' (? & _).
  - eapply wp_mono; [|by apply service_move_assign_ok]. by intros _ s' (? & _).
  - destruct Ha as [i Hi]. apply wp_bind. eapply wp_mono; [|by apply service_cancel_ok]. by intros _ s' (? & _).
  - apply wp_bind. eapply wp_mono; [|by apply service_cancel_one_ok]. by intros _ s' (? & _).
  - eapply wp_mono; [|by apply reactor_key_ok]. by intros _ s' (? & _).
  - apply wp_bind. eapply wp_mono; [|by apply service_expires_at_ok]. by intros _ s' (? & _).
  - apply wp_bind. unfold service_expires_after. rewrite chrono_add_saturates by done.
    eapply wp_mono; [|apply service_expires_at_ok; [done..|]]; [by intros _ s' (? & _)|].
    unfold saturate, int64_min, int64_max. lia.
  - eapply wp_mono; [|by apply service_async_wait_ok]. by intros _ s' (? & _).
  - eapply wp_mono; [|by apply reactor_check_timers_ok]. by intros _ s' (? & _).
  - eapply wp_mono; [|by apply run_posted_ok]. by intros _ s' (? & _).
  - eapply wp_mono; [|by apply reactor_shutdown_ok]. by intros _ s' (? & _).
Qed.

Lemma reachable_service_ok s : reachable (eq new_timer_service) service_step s → service_ok s.
Proof.
  revert s. apply reachable_inv; [intros s <-; apply new_service_ok|].
  intros s s' Hs (c & Ha & Hr). exact (wp_done _ _ _ _ _ (service_call_ok s c Hs Ha) Hr).
Qed.

Lemma nonblocking_on_queue {B} (m : comp timer_queue B) : nonblocking m → nonblocking (on_queue m).
Proof. intros Hm s. unfold on_queue. specialize (Hm (ts_queue s)). by destruct (m (ts_queue s)). Qed.
Lemma nonblocking_impl_at t : nonblocking (impl_at t).
Proof. intros s. unfold impl_at. by case_match. Qed.

(** A queue call that does not block is made of operations that do not. *)
Lemma nonblocking_first {S B C} (m : comp S B) (k : B → comp S C) : nonblocking (m ≫= k) → nonblocking m.
Proof. intros Hm s Hs. apply (Hm s). unfold mbind, comp_bind. by rewrite Hs. Qed.
Lemma nonblocking_enqueue inf time t op : nonblocking (enqueue_timer inf time t op).
Proof. eapply nonblocking_first, (nonblocking_call inf (call_enqueue time t op)). Qed.
Lemma nonblocking_get_ready now : nonblocking (get_ready_timers now []).
Proof. eapply nonblocking_first, (nonblocking_call (λ _, false) (call_ready now)). Qed.
Lemma nonblocking_cancel_timer t mx : nonblocking (cancel_timer t [] mx).
Proof. eapply nonblocking_first, (nonblocking_call (λ _, false) (call_cancel t mx)). Qed.
Lemma nonblocking_cancel_key t k : nonblocking (cancel_timer_by_key t [] k).
Proof. eapply nonblocking_first, (nonblocking_call (λ _, false) (call_cancel_by_key t k)). Qed.
Lemma nonblocking_move t u : nonblocking (move_timer t u).
Proof. eapply nonblocking_first, (nonblocking_call (λ _, false) (call_move t u)). Qed.
Lemma nonblocking_get_all : nonblocking (get_all_timers []).
Proof. unfold get_all_timers, set_heap. apply nonblocking_bind; [done|]. intros. apply nonblocking_bind; [apply nonblocking_all|]. solve_nonblocking. Qed.
Local Hint Resolve nonblocking_on_queue nonblocking_impl_at nonblocking_enqueue nonblocking_get_ready nonblocking_cancel_timer
  nonblocking_cancel_key nonblocking_move nonblocking_get_all : ccpp.

Lemma nonblocking_service c : c ≠ svc_run → nonblocking (run_service_call c).
Proof.
  intros Hc. destruct c; try done; simpl; unfold service_construct, service_destroy, service_move_construct, service_move_assign,
    service_expires_after, service_expires_at, service_cancel, service_cancel_one, service_async_wait, reactor_cancel_timer_by_key,
    reactor_check_timers, reactor_shutdown, reactor_move_timer, reactor_cancel_timer, schedule_timer, update_timeout, take_over, put_timer, put_impl,
    note_started, post_ops, add_work; solve_nonblocking.
Qed.

Lemma service_call_done s c : service_ok s → service_allowed s c → ∃ s', run_service_call c s = Done tt s' ∧ service_ok s'.
Proof.
  intros Hs Ha. pose proof (service_call_ok s c Hs Ha) as Hc. unfold wp in Hc. destruct (run_service_call c s) as [[] s'| |f] eqn:E; [eauto| |done].
  assert (c = svc_run ∨ c ≠ svc_run) as [->|Hne]; [destruct c; auto| |by apply nonblocking_service in E].
  simpl in *. unfold run_posted, mbind, comp_bind, get_state in E. by destruct (ts_posted s).
Qed.
(** What the reactor does with a timer that is due. *)
Definition due_posted (t : nat) (s s' : timer_service) : Prop :=
  ops_of (ts_queue s') t = [] ∧ ∀ op, op ∈ ops_of (ts_queue s) t → set_ec wait_success op ∈ ts_posted s'.

Lemma deadline_live s t z :
  service_inv s → deadline_in (contents (ts_queue s)) t = Some z → ts_shutdown s = false ∧ queue_wf (ts_queue s).
Proof.
  intros Hs Hz. pose proof (si_queue s Hs) as Hq. destruct (ts_shutdown s); [|done]. destruct Hq as (_ & Hh & _).
  rewrite deadline_in_contents in Hz. unfold deadline_of in Hz. rewrite Hh in Hz. by destruct (index_of _ _).
Qed.

Lemma check_timers_due s t z now now' s' :
  service_inv s → deadline_in (contents (ts_queue s)) t = Some z → (z ≤ now)%Z → in_int64 now' →
  reactor_check_timers now now' s = Done tt s' → due_posted t s s'.
Proof.
  intros Hs Hz Hnow Hnow'. pose proof (deadline_live s t z Hs Hz) as [Hsh Hq].
  assert (wp (reactor_check_timers now now') (λ _ s', due_posted t s s') s) as Hwp; [|intros Hr; exact (wp_done _ _ _ _ _ Hwp Hr)].
  apply wp_bind, wp_on_queue. eapply wp_mono; [|apply wp_both; [apply ready_gives, Hs|apply wp_bind, wp_get, ready_loop_spec; [done|lia]]].
  simpl. intros r q' [[Hg _] (_ & out & -> & ts & _ & _ & Hts & -> & Hc)]. simpl in *.
  pose proof (inv_posted s q' _ Hs Hg) as Hs'. apply wp_bind. eapply wp_update_timeout; [exact (inv_clock _ Hs')|done|].
  intros o _. apply wp_modify. unfold due_posted. simpl. assert (t ∈ ts) as Ht by (apply Hts; by exists z). split.
  - rewrite <- ops_in_contents, Hc. clear -Ht. induction ts as [|u ts IH]; [by apply elem_of_nil in Ht|]. simpl. unfold ops_in in *.
    rewrite lookup_insert. case_decide; [done|]. apply IH. by apply elem_of_cons in Ht as [->|].
  - intros op Hop. apply elem_of_app. right. apply list_elem_of_bind. exists t. split; [|done].
    apply list_elem_of_fmap. exists op. by rewrite ops_in_contents.
Qed.

Lemma cancel_idle s t i :
  service_ok s → ts_impls s !! t = Some i → ops_of (ts_queue s) t = [] →
  wp (service_cancel t) (λ n s', n = 0 ∧ ts_posted s' = ts_posted s) s.
Proof.
  intros [Hs _] Hi Ho. apply wp_bind. eapply wp_impl_at; [done|]. destruct (might_have_pending_waits i); [|by apply wp_ret].
  apply wp_bind, wp_bind, wp_on_queue. eapply wp_mono; [|apply cancel_any; [apply Hs|apply impl_object; [done|by eexists]]].
  simpl. intros r q' (_ & _ & -> & _). rewrite Ho. simpl. apply wp_bind, wp_modify, wp_ret, wp_bind, wp_modify, wp_ret. simpl.
  by rewrite app_nil_r.
Qed.

(** ** Theorems *)

(** However a program uses the timers of a service, an allowed call returns: nothing
    is read through a pointer to a timer that is gone, no index of the heap is out of
    bounds and no time overflows.  Every wait that was started is in exactly one
    place: in the queue, posted to the scheduler, run, or destroyed by a shutdown, so
    a wait completes at most once and none is lost; and [outstanding_work_] counts the
    waits that have not run. *)
Theorem timer_waits_accounted s :
  reachable (eq new_timer_service) service_step s →
  NoDup (pending s ++ ids (ts_posted s) ++ ids (ts_run s) ++ ids (ts_abandoned s)) ∧
  ids (ts_started s) ≡ₚ pending s ++ ids (ts_posted s) ++ ids (ts_run s) ++ ids (ts_abandoned s) ∧
  ts_work s = Z.of_nat (length (pending s) + length (ts_posted s) + length (ts_abandoned s)) ∧
  ∀ c, service_allowed s c → ∃ s', run_service_call c s = Done tt s'.
Proof.
  intros Hs%reachable_service_ok. pose proof Hs as [[Hq Hd Hm Hc He Hw Hn Hk] _]. split_and!; [by rewrite <- Hw|done..|].
  intros c Ha. destruct (service_call_done s c Hs Ha) as (s' & ? & _). eauto.
Qed.

(** C20: The timer descriptor is armed for every wait: it fires at most a microsecond after
    the deadline, or after it was armed if the deadline had passed by then.  The
    reactor that wakes at or after the deadline takes the waits of the timer from the
    queue and posts each of them, with success. *)
Theorem timer_expires_in_time s t z :
  reachable (eq new_timer_service) service_step s → deadline_in (contents (ts_queue s)) t = Some z →
  (∃ since fires, ts_timeout s = Some (since, fires) ∧ (fires ≤ Z.max z since + 1000)%Z) ∧
  ∀ now now', (z ≤ now)%Z → in_int64 now' →
    ∃ s', reactor_check_timers now now' s = Done tt s' ∧ ops_of (ts_queue s') t = [] ∧
      ∀ op, op ∈ ops_of (ts_queue s) t → set_ec wait_success op ∈ ts_posted s'.
Proof.
  intros Hs%reachable_service_ok Hz. pose proof Hs as [Hinv Ha]. destruct (deadline_live s t z Hinv Hz) as [_ Hq].
  split; [apply Ha, times_deadlines; eauto|]. intros now now' Hnow Hnow'.
  destruct (service_call_done s (svc_check_timers now now') Hs Hnow') as (s' & Hr & _). exists s'. split; [done|].
  by eapply check_timers_due.
Qed.

(** A cancellation that comes after the reactor has seen the deadline is too late: it
    reports that no wait was cancelled, and the waits of the timer are still posted,
    with success. *)
Theorem cancel_too_late s t z now now' s' :
  reachable (eq new_timer_service) service_step s → deadline_in (contents (ts_queue s)) t = Some z → (z ≤ now)%Z → in_int64 now' →
  reactor_check_timers now now' s = Done tt s' →
  ∃ s'', service_cancel t s' = Done 0 s'' ∧ ts_posted s'' = ts_posted s' ∧
    ∀ op, op ∈ ops_of (ts_queue s) t → set_ec wait_success op ∈ ts_posted s''.
Proof.
  intros Hs%reachable_service_ok Hz Hnow Hnow' Hr. pose proof Hs as [Hinv _].
  destruct (check_timers_due s t z now now' s' Hinv Hz Hnow Hnow' Hr) as [Ho Hp].
  pose proof (wp_done _ _ _ _ _ (reactor_check_timers_ok s now now' Hs Hnow') Hr) as (Hs' & _ & Hi).
  assert (is_Some (ts_impls s' !! t)) as [i Hi'].
  { rewrite Hi. apply impl_object; [done|]. unfold deadline_in in Hz. rewrite contents_lookup in Hz. by case_decide. }
  pose proof (cancel_idle s' t i Hs' Hi' Ho) as Hc. apply wp_total in Hc as (n & s'' & Hc & -> & E).
  - exists s''. rewrite E. done.
  - eapply nonblocking_first, (nonblocking_service (svc_cancel t)). done.
Qed.

(** ** Witnesses *)

Definition after_service_call (c : service_call) (s : timer_service) : timer_service :=
  match run_service_call c s with Done _ s' => s' | _ => s end.

Lemma after_service_reachable c s :
  service_allowed s c → reachable (eq new_timer_service) service_step s →
  reachable (eq new_timer_service) service_step (after_service_call c s).
Proof.
  intros Ha Hs. destruct (service_call_done s c (reachable_service_ok s Hs) Ha) as (s' & Hr & _). eapply reachable_step; [done|].
  unfold after_service_call. rewrite Hr. by exists c.
Qed.

(** A timer with a wait of ten seconds, and another that took over the waits of a
    third. *)
Definition waiting_service : timer_service :=
  after_service_call (svc_move_construct 3 2) (after_service_call (svc_async_wait 1000 2 (WaitOp 21 0 wait_success))
  (after_service_call (svc_expires_at 2 500) (after_service_call (svc_construct 2)
  (after_service_call (svc_async_wait 1000 1 (WaitOp 20 0 wait_success))
  (after_service_call (svc_expires_after 1 1000 10000000000) (after_service_call (svc_construct 1) new_timer_service)))))).

Lemma waiting_service_reachable : reachable (eq new_timer_service) service_step waiting_service.
Proof.
  unfold waiting_service. repeat (apply after_service_reachable; [cbn [service_allowed]; unfold in_int64; by_decide|]). by apply reachable_init.
Qed.

Lemma timer_waits_accounted_witness :
  NoDup (pending waiting_service ++ ids (ts_posted waiting_service) ++ ids (ts_run waiting_service) ++ ids (ts_abandoned waiting_service)) ∧
  length (pending waiting_service) = 2.
Proof.
  split; [|vm_compute; reflexivity].
  exact (proj1 (timer_waits_accounted waiting_service waiting_service_reachable)).
Defined.

Lemma timer_expires_in_time_witness :
  ∃ since fires, ts_timeout waiting_service = Some (since, fires) ∧ (fires ≤ Z.max 10000001000 since + 1000)%Z.
Proof.
  exact (proj1 (timer_expires_in_time waiting_service 1 10000001000 waiting_service_reachable ltac:(vm_compute; reflexivity))).
Defined.

Lemma cancel_too_late_witness :
  ∃ s'', service_cancel 1 (after_service_call (svc_check_timers 10000001000 10000001000) waiting_service) = Done 0 s'' ∧
    WaitOp 20 0 wait_success ∈ ts_posted s''.
Proof.
  assert (in_int64 10000001000) as Hn by (unfold in_int64; by_decide).
  assert (reactor_check_timers 10000001000 10000001000 waiting_service =
    Done tt (after_service_call (svc_check_timers 10000001000 10000001000) waiting_service)) as Hr by (vm_compute; reflexivity).
  destruct (cancel_too_late waiting_service 1 10000001000 10000001000 10000001000 _ waiting_service_reachable
    ltac:(vm_compute; reflexivity) (Z.le_refl _) Hn Hr) as (s'' & Hc & _ & Hp).
  exists s''. split; [exact Hc|]. apply (Hp (WaitOp 20 0 wait_success)). vm_compute. left.
Defined.
