(* ===== verification/AsioOpQueue.v ===== *)
(** * [op_queue] of asio

    The intrusive queue in which operations travel between timers, descriptors, the
    reactor, the threads and the scheduler: an operation has one [next_] pointer and is
    in one queue at a time; queues are spliced without touching the operations between
    their ends. *)

From S2P Require Import Prelude Conc.
From stdpp Require Import options.

(** The operations with their [next_], and the queues with [front_] and [back_]. *)
Record op_store : Type := OpStore {
  op_next : gmap nat (option nat);
  op_queues : gmap nat (option nat * option nat) }.

Definition next_of_op (o : nat) : comp op_store (option nat) := λ s,
  match op_next s !! o with Some n => Done n s | None => Fault use_after_free end.
Definition set_next_of_op (o : nat) (n : option nat) : comp op_store unit :=
  next_of_op o;; modify (λ s, OpStore (<[o := n]> (op_next s)) (op_queues s)).
Definition queue_at (q : nat) : comp op_store (option nat * option nat) := λ s,
  match op_queues s !! q with Some x => Done x s | None => Fault use_after_free end.
Definition set_queue_ends (q : nat) (front_ back_ : option nat) : comp op_store unit :=
  modify (λ s, OpStore (op_next s) (<[q := (front_, back_)]> (op_queues s))).

(** ** Operations *)

Definition new_queue (q : nat) : comp op_store unit := set_queue_ends q None None.

Definition front (q : nat) : comp op_store (option nat) := x ← queue_at q; mret x.1.
Definition empty (q : nat) : comp op_store bool := x ← queue_at q; mret (bool_decide (x.1 = None)).

Definition pop (q : nat) : comp op_store unit :=
  x ← queue_at q;
  match x.1 with
  | None => mret tt
  | Some tmp =>
      n ← next_of_op tmp;
      set_queue_ends q n (if decide (n = None) then None else x.2);;
      set_next_of_op tmp None
  end.

Definition push (q h : nat) : comp op_store unit :=
  set_next_of_op h None;;
  x ← queue_at q;
  match x.2 with
  | Some back_ => set_next_of_op back_ (Some h);; set_queue_ends q x.1 (Some h)
  | None => set_queue_ends q (Some h) (Some h)
  end.

(** [push] of another queue. *)
Definition push_all (q other : nat) : comp op_store unit :=
  y ← queue_at other;
  match y.1 with
  | None => mret tt
  | Some other_front =>
      x ← queue_at q;
      (match x.2 with
       | Some back_ => set_next_of_op back_ (Some other_front);; set_queue_ends q x.1 y.2
       | None => set_queue_ends q (Some other_front) y.2
       end);;
      set_queue_ends other None None
  end.

Definition is_enqueued (q o : nat) : comp op_store bool :=
  n ← next_of_op o;
  x ← queue_at q;
  mret (bool_decide (n ≠ None) || bool_decide (x.2 = Some o)).

(** The destructor destroys the operations that are left; [destroy] frees one. *)
Fixpoint destroy_loop (fuel q : nat) (destroyed : list nat) : comp op_store (list nat) :=
  match fuel with
  | 0 => abort_with out_of_fuel
  | S n =>
      f ← front q;
      match f with
      | None => mret destroyed
      | Some op =>
          pop q;;
          modify (λ s, OpStore (delete op (op_next s)) (op_queues s));;
          destroy_loop n q (destroyed ++ [op])
      end
  end.
Definition destroy_queue (q : nat) : comp op_store (list nat) :=
  s ← get_state;
  ops ← destroy_loop (S (size (op_next s))) q [];
  modify (λ s, OpStore (op_next s) (delete q (op_queues s)));;
  mret ops.

(** ** Lists *)

Abbreviation op_lists := (gmap nat (list nat)).

(** The store represents lists: the ends of a queue are those of its list, the pointers
    follow the lists, an operation that is in none has no successor, and no operation
    is in two places. *)
Definition linked (nx : gmap nat (option nat)) (l : list nat) : Prop := ∀ i x, l !! i = Some x → nx !! x = Some (l !! S i).
Definition free (A : op_lists) (x : nat) : Prop := ∀ q l, A !! q = Some l → x ∉ l.

Record represents (s : op_store) (A : op_lists) : Prop := Represents {
  rp_ends : op_queues s = (λ l, (head l, last l)) <$> A;
  rp_linked : ∀ q l, A !! q = Some l → linked (op_next s) l;
  rp_free : ∀ x n, free A x → op_next s !! x = Some n → n = None;
  rp_nodup : ∀ q l, A !! q = Some l → NoDup l;
  rp_apart : ∀ q q' l l' x, A !! q = Some l → A !! q' = Some l' → x ∈ l → x ∈ l' → q = q' }.

Lemma rp_queue s A q l : represents s A → A !! q = Some l → op_queues s !! q = Some (head l, last l).
Proof. intros Hs Hq. by rewrite (rp_ends s A Hs), lookup_fmap, Hq. Qed.

Lemma wp_queue_at q x (Q : _ → op_store → Prop) s : op_queues s !! q = Some x → Q x s → wp (queue_at q) Q s.
Proof. unfold wp, queue_at. by intros ->. Qed.
Lemma wp_next_of o n (Q : _ → op_store → Prop) s : op_next s !! o = Some n → Q n s → wp (next_of_op o) Q s.
Proof. unfold wp, next_of_op. by intros ->. Qed.
Lemma wp_set_next o n (Q : unit → op_store → Prop) s :
  is_Some (op_next s !! o) → Q tt (OpStore (<[o := n]> (op_next s)) (op_queues s)) → wp (set_next_of_op o n) Q s.
Proof. intros [m Hm] HQ. apply wp_bind. eapply wp_next_of; [done|]. by apply wp_modify. Qed.

Lemma linked_elem nx l x : linked nx l → x ∈ l → is_Some (nx !! x).
Proof. intros Hl [i Hi]%list_elem_of_lookup. rewrite (Hl i x Hi). by eexists. Qed.

Lemma op_linked_ext nx nx' l : linked nx l → (∀ x, x ∈ l → nx' !! x = nx !! x) → linked nx' l.
Proof. intros Hl Hx i x Hi. rewrite Hx by (by eapply list_elem_of_lookup_2). by apply Hl. Qed.

Lemma linked_head nx x l : linked nx (x :: l) → nx !! x = Some (head l).
Proof. intros Hl. rewrite (Hl 0 x eq_refl). by destruct l. Qed.
Lemma linked_tail nx x l : linked nx (x :: l) → linked nx l.
Proof. intros Hl i y Hi. apply (Hl (S i) y Hi). Qed.

(** Lists are joined by setting the pointer of the last operation. *)
Lemma linked_app nx l x l' :
  linked nx (l ++ [x]) → linked nx l' → NoDup (l ++ [x]) → x ∉ l' → linked (<[x := head l']> nx) ((l ++ [x]) ++ l').
Proof.
  intros Hl Hl' Hnd Hx i y Hi. destruct (decide (i < length l)) as [Hlt|Hge].
  - rewrite lookup_app_l in Hi by (rewrite length_app; simpl; lia).
    assert (x ≠ y) as Hne.
    { intros ->. pose proof (NoDup_lookup (l ++ [y]) i (length l) y Hnd Hi) as E. rewrite lookup_app_r, Nat.sub_diag in E by done.
      specialize (E eq_refl). lia. }
    rewrite lookup_insert_ne by done. rewrite (Hl i y Hi). f_equal. symmetry. apply lookup_app_l. rewrite length_app. simpl. lia.
  - destruct (decide (i = length l)) as [->|Hne].
    + rewrite lookup_app_l, lookup_app_r, Nat.sub_diag in Hi by (rewrite ?length_app; simpl; lia). simplify_eq/=.
      rewrite lookup_insert_eq, lookup_app_r by (rewrite length_app; simpl; lia). rewrite length_app. simpl.
      replace (S (length l) - (length l + 1)) with 0 by lia. by destruct l'.
    + rewrite lookup_app_r in Hi by (rewrite length_app; simpl; lia). rewrite length_app in Hi. simpl in Hi.
      rewrite lookup_insert_ne by (intros ->; by apply list_elem_of_lookup_2 in Hi).
      rewrite (Hl' _ y Hi), lookup_app_r by (rewrite length_app; simpl; lia). rewrite length_app. simpl. do 2 f_equal. lia.
Qed.

Lemma free_insert A q l x : free (<[q := l]> A) x ↔ x ∉ l ∧ ∀ q' l', q' ≠ q → A !! q' = Some l' → x ∉ l'.
Proof.
  unfold free. split.
  - intros Hf. split; [apply (Hf q), lookup_insert_eq|]. intros q' l' Hne Hq'. apply (Hf q'). by rewrite lookup_insert_ne.
  - intros [Hl Ho] q' l'. rewrite lookup_insert. case_decide as E; [by intros [= <-]|]. intros Hq'. by apply (Ho q').
Qed.

(** The list of one queue is changed, and with it the pointers of operations that are
    in it before or after. *)
Lemma represents_update s A q l l' nx' :
  represents s A → A !! q = Some l → linked nx' l' → NoDup l' →
  (∀ x, x ∈ l' → x ∈ l ∨ free A x) → (∀ x, x ∉ l → x ∉ l' → nx' !! x = op_next s !! x) →
  (∀ x n, x ∈ l → x ∉ l' → nx' !! x = Some n → n = None) →
  represents (OpStore nx' (<[q := (head l', last l')]> (op_queues s))) (<[q := l']> A).
Proof.
  intros [H1 H2 H3 H4 H5] Hq Hl Hnd Hin Hout Hgone.
  assert (∀ q' l0 x, q' ≠ q → A !! q' = Some l0 → x ∈ l0 → x ∉ l ∧ x ∉ l') as Hap.
  { intros q' l0 x Hne Hq' Hx. assert (x ∉ l) as Hnl by (intros Hx'; by destruct Hne; eapply H5). split; [done|].
    intros Hx'. destruct (Hin x Hx') as [|Hf]; [done|]. by apply (Hf q' l0). }
  split; simpl.
  - by rewrite H1, fmap_insert.
  - intros q' l0. rewrite lookup_insert. case_decide as E; [by intros [= <-]|]. intros Hq'. eapply op_linked_ext; [by eapply H2|].
    intros x Hx. destruct (Hap q' l0 x) as [? ?]; [done..|]. by apply Hout.
  - intros x n [Hx Hf]%free_insert Hn. destruct (decide (x ∈ l)) as [Hxl|Hxl]; [by eapply Hgone|]. rewrite Hout in Hn by done.
    eapply H3; [|done]. intros q' l0 Hq'. destruct (decide (q' = q)) as [->|]; [by simplify_eq|by eapply Hf].
  - intros q' l0. rewrite lookup_insert. case_decide; [by intros [= <-]|apply H4].
  - intros q1 q2 l1 l2 x. rewrite !lookup_insert. intros Hq1 Hq2 Hx1 Hx2. repeat case_decide; simplify_eq; [done|..|by eapply H5].
    + exfalso. by eapply (Hap q1 l1 x).
    + exfalso. by eapply (Hap q2 l2 x).
Qed.

Lemma wp_set_ends q f b (Q : unit → op_store → Prop) s :
  Q tt (OpStore (op_next s) (<[q := (f, b)]> (op_queues s))) → wp (set_queue_ends q f b) Q s.
Proof. intros HQ. by apply wp_modify. Qed.

Lemma front_spec s A q l : represents s A → A !! q = Some l → wp (front q) (λ r s', r = head l ∧ s' = s) s.
Proof. intros Hs Hq. apply wp_bind. eapply wp_queue_at; [by eapply rp_queue|]. by apply wp_ret. Qed.

Lemma empty_spec s A q l : represents s A → A !! q = Some l → wp (empty q) (λ r s', r = bool_decide (l = []) ∧ s' = s) s.
Proof.
  intros Hs Hq. apply wp_bind. eapply wp_queue_at; [by eapply rp_queue|]. apply wp_ret. split; [|done]. apply bool_decide_ext. by destruct l.
Qed.

Lemma pop_spec s A q l : represents s A → A !! q = Some l → wp (pop q) (λ _ s', represents s' (<[q := tail l]> A)) s.
Proof.
  intros Hs Hq. apply wp_bind. eapply wp_queue_at; [by eapply rp_queue|]. destruct l as [|x l]; simpl.
  { apply wp_ret. by rewrite insert_id. }
  pose proof (rp_linked s A Hs q _ Hq) as Hl. pose proof (linked_head _ _ _ Hl) as Hx.
  apply wp_bind. eapply wp_next_of; [done|]. apply wp_bind, wp_set_ends, wp_set_next; [by eexists|]. simpl.
  pose proof (rp_nodup s A Hs q _ Hq) as [Hn Hnd]%NoDup_cons.
  replace (if decide (head l = None) then None else last (x :: l)) with (last l) by (destruct l; by case_decide).
  eapply (represents_update s A q (x :: l) l); [done..| | | | |].
  - eapply op_linked_ext; [by eapply linked_tail|]. intros y Hy. rewrite lookup_insert_ne; [done|]. by intros ->.
  - done.
  - intros y Hy. left. by right.
  - intros y Hy _. rewrite lookup_insert_ne; [done|]. intros ->. apply Hy. by left.
  - intros y n [->|Hy]%elem_of_cons Hy'; [|done]. by rewrite lookup_insert_eq; intros [= <-].
Qed.

Lemma push_spec s A q l h :
  represents s A → A !! q = Some l → is_Some (op_next s !! h) → free A h → wp (push q h) (λ _ s', represents s' (<[q := l ++ [h]]> A)) s.
Proof.
  intros Hs Hq Hh Hf. pose proof (rp_linked s A Hs q _ Hq) as Hl. pose proof (rp_nodup s A Hs q _ Hq) as Hnd. pose proof (Hf q l Hq) as Hhl.
  apply wp_bind, wp_set_next; [done|]. apply wp_bind. eapply wp_queue_at; [by eapply (rp_queue s)|]. simpl.
  assert (linked (<[h := None]> (op_next s)) l) as Hl1 by (eapply op_linked_ext; [done|]; intros x Hx; rewrite lookup_insert_ne; [done|by intros ->]).
  assert (linked (<[h := None]> (op_next s)) [h]) as Hl2 by (intros [|i] x Hi; [|done]; simplify_eq/=; apply lookup_insert_eq).
  destruct (last l) as [b|] eqn:Hb.
  - apply last_Some in Hb as [l' ->]. apply wp_bind, wp_set_next; simpl.
    { rewrite lookup_insert_is_Some. right. split; [intros ->; set_solver|]. eapply linked_elem; [exact Hl|set_solver]. }
    apply wp_set_ends. simpl.
    replace (head (l' ++ [b]), Some h) with (head ((l' ++ [b]) ++ [h]), last ((l' ++ [b]) ++ [h])) by (rewrite last_snoc; by destruct l').
    eapply (represents_update s A q (l' ++ [b])); [done..| | | | |].
    + apply linked_app; [done..|]. set_solver.
    + apply NoDup_app. split_and!; [done| |apply NoDup_singleton]. set_solver.
    + intros x [Hx|Hx]%elem_of_app; [by left|]. right. by apply list_elem_of_singleton in Hx as ->.
    + intros x Hx Hx'. rewrite !lookup_insert_ne; [done| |]; intros ->; set_solver.
    + intros x n Hx []. set_solver.
  - apply last_None in Hb as ->. apply wp_set_ends. simpl. apply (represents_update s A q [] [h]); [done..| | | |].
    + apply NoDup_singleton.
    + intros x ->%list_elem_of_singleton. by right.
    + intros x _ Hx. rewrite lookup_insert_ne; [done|]. intros ->. set_solver.
    + intros x n []%elem_of_nil.
Qed.

(** Two lists change: one takes over the operations of the other. *)
Lemma represents_join s A q other l l' nx' :
  represents s A → q ≠ other → A !! q = Some l → A !! other = Some l' → linked nx' (l ++ l') →
  (∀ x, x ∉ l → x ∉ l' → nx' !! x = op_next s !! x) →
  represents (OpStore nx' (<[other := (None, None)]> (<[q := (head (l ++ l'), last (l ++ l'))]> (op_queues s))))
    (<[other := []]> (<[q := l ++ l']> A)).
Proof.
  intros [H1 H2 H3 H4 H5] Hne Hq Ho Hl Hout.
  assert (∀ x, x ∈ l → x ∉ l') as Hap by (intros x Hx Hx'; by destruct Hne; eapply H5).
  assert (∀ q' l0 x, q' ≠ q → q' ≠ other → A !! q' = Some l0 → x ∈ l0 → x ∉ l ∧ x ∉ l') as Hap'.
  { intros q' l0 x ?? Hq' Hx. split; intros Hx'; [by apply H; eapply H5|by apply H0; eapply H5]. }
  split; simpl.
  - by rewrite H1, !fmap_insert.
  - intros q' l0. rewrite !lookup_insert. repeat case_decide; [by intros [= <-]|by intros [= <-]|]. intros Hq'. eapply op_linked_ext; [by eapply H2|].
    intros x Hx. destruct (Hap' q' l0 x) as [? ?]; [done..|]. by apply Hout.
  - intros x n Hf Hn. apply free_insert in Hf as [_ Hf].
    assert (x ∉ l ++ l') as Hx by (apply (Hf q); [done|apply lookup_insert_eq]). rewrite elem_of_app in Hx. rewrite Hout in Hn by naive_solver.
    eapply H3; [|done]. intros q' l0 Hq'. destruct (decide (q' = q)) as [->|]; [naive_solver|]. destruct (decide (q' = other)) as [->|]; [naive_solver|].
    apply (Hf q'); [done|]. by rewrite lookup_insert_ne.
  - intros q' l0. rewrite !lookup_insert. repeat case_decide; [intros [= <-]; constructor|intros [= <-]|apply H4].
    apply NoDup_app. split_and!; [by eapply H4|done|by eapply H4].
  - intros q1 q2 l1 l2 x. rewrite !lookup_insert. intros Hq1 Hq2 Hx1 Hx2.
    repeat case_decide; simplify_eq; try done; try (by apply elem_of_nil in Hx1); try (by apply elem_of_nil in Hx2); [..|by eapply H5].
    + destruct (Hap' q1 l1 x) as [? ?]; [done..|]. by apply elem_of_app in Hx2 as [|].
    + destruct (Hap' q2 l2 x) as [? ?]; [done..|]. by apply elem_of_app in Hx1 as [|].
Qed.

Lemma push_all_spec s A q other l l' :
  represents s A → q ≠ other → A !! q = Some l → A !! other = Some l' →
  wp (push_all q other) (λ _ s', represents s' (<[other := []]> (<[q := l ++ l']> A))) s.
Proof.
  intros Hs Hne Hq Ho. apply wp_bind. eapply wp_queue_at; [by eapply rp_queue|]. simpl. destruct l' as [|y l']; simpl.
  { apply wp_ret. rewrite app_nil_r, (insert_id A q l), insert_id; done. }
  pose proof (rp_linked s A Hs q _ Hq) as Hl. pose proof (rp_linked s A Hs other _ Ho) as Hl'. pose proof (rp_nodup s A Hs q _ Hq) as Hnd.
  apply wp_bind. eapply wp_queue_at; [by eapply rp_queue|]. simpl. apply wp_bind. destruct (last l) as [b|] eqn:Hb.
  - apply last_Some in Hb as [l0 ->]. apply wp_bind, wp_set_next; [eapply linked_elem; [exact Hl|set_solver]|]. apply wp_set_ends, wp_set_ends. simpl.
    assert (b ∉ y :: l') as Hby.
    { intros Hx. apply Hne. eapply (rp_apart s A Hs); [exact Hq|exact Ho| |exact Hx]. set_solver. }
    replace (head (l0 ++ [b]), last (y :: l')) with (head ((l0 ++ [b]) ++ y :: l'), last ((l0 ++ [b]) ++ y :: l'))
      by (rewrite last_app_cons; by destruct l0).
    eapply (represents_join s A q other); [done..| |].
    + change (Some y) with (head (y :: l')). by apply linked_app.
    + intros x Hx _. rewrite lookup_insert_ne; [done|]. intros ->. set_solver.
  - apply last_None in Hb as ->. apply wp_set_ends, wp_set_ends. by apply (represents_join s A q other [] (y :: l')).
Qed.

Lemma is_enqueued_spec s A q l o :
  represents s A → A !! q = Some l → is_Some (op_next s !! o) → (o ∈ l ∨ free A o) →
  wp (is_enqueued q o) (λ r s', r = bool_decide (o ∈ l) ∧ s' = s) s.
Proof.
  intros Hs Hq [n Hn] Ho. apply wp_bind. eapply wp_next_of; [done|]. apply wp_bind. eapply wp_queue_at; [by eapply rp_queue|].
  apply wp_ret. split; [|done]. simpl. destruct Ho as [Hin|Hf].
  - rewrite (bool_decide_true (o ∈ l)) by done. apply list_elem_of_lookup in Hin as [i Hi].
    pose proof (rp_linked s A Hs q l Hq i o Hi) as E. rewrite Hn in E. injection E as ->.
    destruct (l !! S i) as [x|] eqn:Hx; [done|]. simpl. rewrite bool_decide_true; [done|].
    rewrite last_lookup. apply lookup_ge_None in Hx. pose proof (lookup_lt_Some _ _ _ Hi). by replace (pred (length l)) with i by lia.
  - pose proof (rp_free s A Hs o n Hf Hn) as ->. simpl. rewrite (bool_decide_false (o ∈ l)) by by apply (Hf q).
    apply bool_decide_false. intros [l' ->]%last_Some. apply (Hf q _ Hq). set_solver.
Qed.

(** ** Which operations exist *)

Definition keeps_ops {B} (m : comp op_store B) : Prop := ∀ s a s', m s = Done a s' → dom (op_next s') = dom (op_next s).

Lemma keeps_bind {B C} (m : comp op_store B) (k : B → comp op_store C) :
  keeps_ops m → (∀ a, keeps_ops (k a)) → keeps_ops (m ≫= k).
Proof. intros Hm Hk s a s' (b & s1 & H1 & H2)%bind_done. rewrite (Hk _ _ _ _ H2). by apply Hm in H1. Qed.
Lemma keeps_ret {B} (a : B) : keeps_ops (mret a).
Proof. by intros s b s' [= _ ->]. Qed.
Lemma keeps_queue_at q : keeps_ops (queue_at q).
Proof. intros s a s'. unfold queue_at. case_match; [|done]. by intros [= _ ->]. Qed.
Lemma keeps_next_of o : keeps_ops (next_of_op o).
Proof. intros s a s'. unfold next_of_op. case_match; [|done]. by intros [= _ ->]. Qed.
Lemma keeps_set_next o n : keeps_ops (set_next_of_op o n).
Proof.
  intros s a s' (m & s1 & H1 & H2)%bind_done. unfold next_of_op in H1. destruct (op_next s !! o) eqn:Ho; [|done]. simplify_eq.
  unfold modify in H2. simplify_eq. simpl. rewrite dom_insert_L. apply elem_of_dom_2 in Ho. set_solver.
Qed.
Lemma keeps_set_ends q f b : keeps_ops (set_queue_ends q f b).
Proof. intros s a s'. unfold set_queue_ends, modify. intros E. by simplify_eq. Qed.
Create HintDb op_queue.
#[local] Hint Resolve keeps_ret keeps_queue_at keeps_next_of keeps_set_next keeps_set_ends : op_queue.
Ltac solve_keeps :=
  repeat (intros; cbv beta iota; first
    [ solve [auto 2 with op_queue]
    | apply keeps_bind
    | match goal with |- keeps_ops (match ?x with _ => _ end) => destruct x end ]).

Lemma keeps_pop q : keeps_ops (pop q).
Proof. unfold pop. solve_keeps. Qed.
Lemma keeps_push q h : keeps_ops (push q h).
Proof. unfold push. solve_keeps. Qed.
Lemma keeps_push_all q q' : keeps_ops (push_all q q').
Proof. unfold push_all. solve_keeps. Qed.

Lemma wp_keeps {B} (m : comp op_store B) (Q : B → op_store → Prop) s :
  keeps_ops m → wp m Q s → wp m (λ a s', dom (op_next s') = dom (op_next s) ∧ Q a s') s.
Proof. intros Hm. apply wp_and_done. intros a s'. apply Hm. Qed.

(** An operation that is in no queue may appear and disappear. *)
Lemma represents_object s A h o :
  represents s A → free A h → o = None ∨ o = Some None →
  represents (OpStore (partial_alter (λ _, o) h (op_next s)) (op_queues s)) A.
Proof.
  intros [H1 H2 H3 H4 H5] Hf Ho. split; simpl; try done.
  - intros q l Hq. eapply op_linked_ext; [by eapply H2|]. intros x Hx. apply lookup_partial_alter_ne. intros ->. by apply (Hf q l).
  - intros x n Hx. destruct (decide (x = h)) as [->|]; [rewrite lookup_partial_alter_eq; destruct Ho; naive_solver|].
    rewrite lookup_partial_alter_ne by done. by apply H3.
Qed.

(** The destructor. *)
Lemma destroy_loop_spec fuel s A q l ds :
  represents s A → A !! q = Some l → length l < fuel →
  wp (destroy_loop fuel q ds) (λ r s', r = ds ++ l ∧ represents s' (<[q := []]> A) ∧
    dom (op_next s') = dom (op_next s) ∖ list_to_set l) s.
Proof.
  revert s A l ds. induction fuel as [|fuel IH]; intros s A l ds Hs Hq Hn; [lia|]. simpl. apply wp_bind.
  eapply wp_mono; [|by eapply front_spec]. intros f s' [-> ->]. destruct l as [|x l]; simpl.
  - apply wp_ret. rewrite app_nil_r, insert_id by done. split_and!; [done..|]. set_solver.
  - apply wp_bind. eapply wp_mono; [|apply wp_keeps, (pop_spec s A q (x :: l)); [apply keeps_pop|done..]]. simpl. intros _ s1 [Hd1 Hs1].
    apply wp_bind, wp_modify. assert (free (<[q := l]> A) x) as Hf.
    { pose proof (rp_nodup s A Hs q _ Hq) as [Hx _]%NoDup_cons. apply free_insert. split; [done|]. intros q' l' Hne Hq' Hx'. apply Hne.
      eapply (rp_apart s A Hs); [exact Hq'|exact Hq|done|by left]. }
    eapply wp_mono; [|apply (IH _ (<[q := l]> A) l); [|apply lookup_insert_eq|simpl in Hn; lia]].
    + simpl. intros r s' (-> & Hs' & Hd). split_and!; [by rewrite <- (assoc_L (++))|by rewrite insert_insert_eq in Hs'|].
      rewrite Hd, dom_delete_L, Hd1. set_solver.
    + by apply (represents_object s1 (<[q := l]> A) x None); [..|left].
Qed.

Lemma represents_delete s A q : represents s (<[q := []]> A) → represents (OpStore (op_next s) (delete q (op_queues s))) (delete q A).
Proof.
  intros [H1 H2 H3 H4 H5]. assert (∀ q' l, delete q A !! q' = Some l → <[q := []]> A !! q' = Some l) as Hd.
  { intros q' l [Hne Hq']%lookup_delete_Some. by rewrite lookup_insert_ne. }
  split; simpl; [|eauto|..].
  - rewrite H1, fmap_insert, delete_insert_eq, fmap_delete. done.
  - intros x n Hf. apply H3. apply free_insert. split; [by apply not_elem_of_nil|]. intros q' l Hne Hq'. apply (Hf q'). by rewrite lookup_delete_ne.
  - eauto.
  - eauto.
Qed.

(** ** The interface *)

Inductive opq_call : Type :=
  | opq_construct (o : nat)
  | opq_delete (o : nat)
  | opq_new (q : nat)
  | opq_front (q : nat)
  | opq_empty (q : nat)
  | opq_pop (q : nat)
  | opq_push (q h : nat)
  | opq_push_all (q other : nat)
  | opq_is_enqueued (q o : nat)
  | opq_destroy (q : nat).

(** What a call answers. *)
Inductive opq_answer : Type := ans_unit | ans_op (o : option nat) | ans_bool (b : bool) | ans_ops (l : list nat).

Definition run_opq_call (c : opq_call) : comp op_store opq_answer :=
  match c with
  | opq_construct o => modify (λ s, OpStore (<[o := None]> (op_next s)) (op_queues s));; mret ans_unit
  | opq_delete o => modify (λ s, OpStore (delete o (op_next s)) (op_queues s));; mret ans_unit
  | opq_new q => new_queue q;; mret ans_unit
  | opq_front q => o ← front q; mret (ans_op o)
  | opq_empty q => b ← empty q; mret (ans_bool b)
  | opq_pop q => pop q;; mret ans_unit
  | opq_push q h => push q h;; mret ans_unit
  | opq_push_all q other => push_all q other;; mret ans_unit
  | opq_is_enqueued q o => b ← is_enqueued q o; mret (ans_bool b)
  | opq_destroy q => l ← destroy_queue q; mret (ans_ops l)
  end.

(** The specification: lists of operations, and the operations that exist.  [c] is
    allowed, answers [r], and makes [A'] and [N'] of [A] and [N]. *)
Inductive opq_spec (A : op_lists) (N : gset nat) : opq_call → opq_answer → op_lists → gset nat → Prop :=
  | sp_construct o : o ∉ N → free A o → opq_spec A N (opq_construct o) ans_unit A ({[o]} ∪ N)
  | sp_delete o : o ∈ N → free A o → opq_spec A N (opq_delete o) ans_unit A (N ∖ {[o]})
  | sp_new q : A !! q = None → opq_spec A N (opq_new q) ans_unit (<[q := []]> A) N
  | sp_front q l : A !! q = Some l → opq_spec A N (opq_front q) (ans_op (head l)) A N
  | sp_empty q l : A !! q = Some l → opq_spec A N (opq_empty q) (ans_bool (bool_decide (l = []))) A N
  | sp_pop q l : A !! q = Some l → opq_spec A N (opq_pop q) ans_unit (<[q := tail l]> A) N
  | sp_push q l h : A !! q = Some l → h ∈ N → free A h → opq_spec A N (opq_push q h) ans_unit (<[q := l ++ [h]]> A) N
  | sp_push_all q other l l' : q ≠ other → A !! q = Some l → A !! other = Some l' →
      opq_spec A N (opq_push_all q other) ans_unit (<[other := []]> (<[q := l ++ l']> A)) N
  | sp_is_enqueued q l o : A !! q = Some l → o ∈ N → o ∈ l ∨ free A o →
      opq_spec A N (opq_is_enqueued q o) (ans_bool (bool_decide (o ∈ l))) A N
  | sp_destroy q l : A !! q = Some l → opq_spec A N (opq_destroy q) (ans_ops l) (delete q A) (N ∖ list_to_set l).

(** Calls one after the other. *)
Inductive opq_run : op_lists → gset nat → list (opq_call * opq_answer) → op_lists → gset nat → Prop :=
  | run_nil A N : opq_run A N [] A N
  | run_cons A N c r A1 N1 cs A' N' :
      opq_spec A N c r A1 N1 → opq_run A1 N1 cs A' N' → opq_run A N ((c, r) :: cs) A' N'.

Fixpoint run_opq_calls (cs : list opq_call) : comp op_store (list opq_answer) :=
  match cs with
  | [] => mret []
  | c :: cs => r ← run_opq_call c; rs ← run_opq_calls cs; mret (r :: rs)
  end.

Record op_store_ok (s : op_store) (A : op_lists) (N : gset nat) : Prop := {
  os_rep : represents s A;
  os_dom : dom (op_next s) = N }.

Lemma represents_new s A q : represents s A → A !! q = None → represents (OpStore (op_next s) (<[q := (None, None)]> (op_queues s))) (<[q := []]> A).
Proof.
  intros [H1 H2 H3 H4 H5] Hq. split; simpl.
  - by rewrite H1, fmap_insert.
  - intros q' l. rewrite lookup_insert. case_decide; [by intros [= <-]|apply H2].
  - intros x n [_ Hf]%free_insert. apply H3. intros q' l Hq'. apply (Hf q'); [congruence|done].
  - intros q' l. rewrite lookup_insert. case_decide; [intros [= <-]; constructor|apply H4].
  - intros q1 q2 l1 l2 x. rewrite !lookup_insert. intros Hq1 Hq2 Hx1 Hx2. repeat case_decide; simplify_eq; try done;
      try (by apply elem_of_nil in Hx1); try (by apply elem_of_nil in Hx2). by eapply H5.
Qed.

Lemma opq_call_spec s A N c r A' N' :
  op_store_ok s A N → opq_spec A N c r A' N' → wp (run_opq_call c) (λ r' s', r' = r ∧ op_store_ok s' A' N') s.
Proof.
  intros [Hs Hd] Hc. assert (∀ o, o ∈ N → is_Some (op_next s !! o)) as HN by (intros o Ho; apply elem_of_dom; by rewrite Hd).
  destruct Hc; apply wp_bind.
  - apply wp_modify, wp_ret. split; [done|]. split; [by apply (represents_object s A o (Some None)); [..|right]|]. simpl. by rewrite dom_insert_L, Hd.
  - apply wp_modify, wp_ret. split; [done|]. split; [by apply (represents_object s A o None); [..|left]|]. simpl. by rewrite dom_delete_L, Hd.
  - apply wp_set_ends, wp_ret. split; [done|]. split; [by apply represents_new|done].
  - eapply wp_mono; [|by eapply front_spec]. intros o s' [-> ->]. by apply wp_ret.
  - eapply wp_mono; [|by eapply empty_spec]. intros b s' [-> ->]. by apply wp_ret.
  - eapply wp_mono; [|apply wp_keeps; [apply keeps_pop|by eapply pop_spec]]. simpl. intros _ s' [Hd' Hs']. apply wp_ret.
    split; [done|]. split; [done|congruence].
  - eapply wp_mono; [|apply wp_keeps; [apply keeps_push|eapply push_spec; eauto]]. simpl. intros _ s' [Hd' Hs']. apply wp_ret.
    split; [done|]. split; [done|congruence].
  - eapply wp_mono; [|apply wp_keeps; [apply keeps_push_all|by eapply push_all_spec]]. simpl. intros _ s' [Hd' Hs']. apply wp_ret.
    split; [done|]. split; [done|congruence].
  - eapply wp_mono; [|eapply is_enqueued_spec; eauto]. intros b s' [-> ->]. by apply wp_ret.
  - apply wp_bind, wp_get, wp_bind. eapply wp_mono; [|eapply destroy_loop_spec; [done..|]].
    + simpl. intros ops s' (-> & Hs' & Hd'). apply wp_bind, wp_modify, wp_ret, wp_ret. split; [done|].
      split; [by apply represents_delete|]. simpl. by rewrite Hd', Hd.
    + pose proof (rp_nodup s A Hs q l H) as Hnd. assert (list_to_set l ⊆ dom (op_next s)) as Hsub.
      { intros x Hx%elem_of_list_to_set. apply elem_of_dom. eapply linked_elem; [by eapply (rp_linked s A Hs)|done]. }
      apply subseteq_size in Hsub. rewrite size_list_to_set, size_dom in Hsub by done. lia.
Qed.

Lemma opq_calls_spec cs s A N A' N' :
  op_store_ok s A N → opq_run A N cs A' N' → wp (run_opq_calls cs.*1) (λ rs s', rs = cs.*2 ∧ op_store_ok s' A' N') s.
Proof.
  intros Hs Hr. revert s Hs. induction Hr as [|A N c r A1 N1 cs A' N' Hc _ IH]; intros s Hs; csimpl.
  - by apply wp_ret.
  - apply wp_bind. eapply wp_mono; [|by eapply opq_call_spec]. intros r' s' [-> Hs']. apply wp_bind. eapply wp_mono; [|by apply IH].
    intros rs s'' [-> Hs'']. by apply wp_ret.
Qed.

Lemma nonblocking_queue_at q : nonblocking (queue_at q).
Proof. intros s. unfold queue_at. by case_match. Qed.
Lemma nonblocking_next_of o : nonblocking (next_of_op o).
Proof. intros s. unfold next_of_op. by case_match. Qed.
#[local] Hint Resolve nonblocking_queue_at nonblocking_next_of : ccpp.
Lemma nonblocking_destroy fuel q ds : nonblocking (destroy_loop fuel q ds).
Proof. revert ds. induction fuel; intros ds; simpl; unfold front, pop, set_next_of_op, set_queue_ends; solve_nonblocking. Qed.
#[local] Hint Resolve nonblocking_destroy : ccpp.
Lemma nonblocking_opq cs : nonblocking (run_opq_calls cs).
Proof.
  induction cs as [|c cs IH]; simpl; [done|]. apply nonblocking_bind; [|solve_nonblocking].
  destruct c; simpl; unfold front, empty, push, push_all, pop, is_enqueued, destroy_queue, new_queue, set_next_of_op, set_queue_ends; solve_nonblocking.
Qed.

Lemma empty_store_ok : op_store_ok (OpStore ∅ ∅) ∅ ∅.
Proof.
  split; [|done]. split; simpl; [done|..].
  - by intros q l []%lookup_empty_Some.
  - by intros x n _ []%lookup_empty_Some.
  - by intros q l []%lookup_empty_Some.
  - by intros q q' l l' x []%lookup_empty_Some.
Qed.

(** The intrusive queues are lists.  Calls that push only operations that are in no
    queue get the answers of lists: the front is the head, a pop drops it, a queue that
    is pushed onto another goes to its end and leaves nothing behind, [is_enqueued]
    tells whether an operation is in the queue, and the destructor frees what is left.
    No pointer to an operation that is gone is followed. *)
Theorem op_queue_refines_lists cs A N :
  opq_run ∅ ∅ cs A N → ∃ s, run_opq_calls cs.*1 (OpStore ∅ ∅) = Done cs.*2 s ∧ represents s A ∧ dom (op_next s) = N.
Proof.
  intros Hr. pose proof (opq_calls_spec cs _ ∅ ∅ A N empty_store_ok Hr) as Hw.
  apply wp_total in Hw as (rs & s & Hs & -> & [? ?]); [eauto|apply nonblocking_opq].
Qed.

Lemma free_decide A x : map_Forall (λ _ l, x ∉ l) A → free A x.
Proof. intros HA q l Hq. exact (HA q l Hq). Qed.

Definition some_calls : list (opq_call * opq_answer) :=
  [(opq_construct 1, ans_unit); (opq_construct 2, ans_unit); (opq_new 10, ans_unit); (opq_new 11, ans_unit); (opq_push 10 1, ans_unit);
   (opq_push 11 2, ans_unit); (opq_push_all 10 11, ans_unit); (opq_is_enqueued 10 2, ans_bool true); (opq_empty 11, ans_bool true);
   (opq_destroy 10, ans_ops [1; 2])].

Lemma some_calls_run : ∃ A N, opq_run ∅ ∅ some_calls A N.
Proof.
  do 2 eexists. unfold some_calls.
  eapply run_cons; [apply sp_construct; [by_decide|apply free_decide; by_decide]|].
  eapply run_cons; [apply sp_construct; [by_decide|apply free_decide; by_decide]|].
  eapply run_cons; [apply sp_new; vm_compute; reflexivity|].
  eapply run_cons; [apply sp_new; vm_compute; reflexivity|].
  eapply run_cons; [eapply sp_push; [vm_compute; reflexivity|by_decide|apply free_decide; by_decide]|].
  eapply run_cons; [eapply sp_push; [vm_compute; reflexivity|by_decide|apply free_decide; by_decide]|].
  eapply run_cons; [eapply sp_push_all; [discriminate|vm_compute; reflexivity..]|].
  eapply run_cons; [eapply (sp_is_enqueued _ _ _ [1; 2]); [vm_compute; reflexivity|by_decide|left; by_decide]|].
  eapply run_cons; [eapply (sp_empty _ _ _ []); vm_compute; reflexivity|].
  eapply run_cons; [eapply sp_destroy; vm_compute; reflexivity|]. apply run_nil.
Qed.

Lemma op_queue_refines_lists_witness : ∃ s, run_opq_calls some_calls.*1 (OpStore ∅ ∅) = Done some_calls.*2 s.
Proof.
  destruct some_calls_run as (A & N & Hr). destruct (op_queue_refines_lists some_calls A N Hr) as (s & Hs & _). exists s. exact Hs.
Defined.
