(* ===== verification/AsioScheduler.v ===== *)
(** * The scheduler of asio

    [detail::scheduler] is what an [io_context] runs: a queue of completed operations
    under a mutex, the reactor as an operation of the queue, and threads that sleep on
    an event when there is nothing to do.  The step relation has a step for each
    critical section, each operation on the atomic count of work, and each call of
    [pthread_cond_signal] after the mutex has been unlocked. *)

From S2P Require Import Prelude Conc.
From stdpp Require Import options.

(** ** [posix_event] *)

(** [state_] has a bit that says whether the event is signalled, and counts the
    threads that wait in steps of two. *)
Definition event_signal (state_ : Z) : Z := Z.lor state_ 1.
Definition event_have_waiters (state_ : Z) : bool := bool_decide (1 < state_)%Z.
Definition event_is_signalled (state_ : Z) : bool := negb (bool_decide (Z.land state_ 1 = 0%Z)).
Definition event_clear (state_ : Z) : Z := Z.land state_ (Z.lnot 1).
Definition event_enter (state_ : Z) : Z := (state_ + 2)%Z.
Definition event_leave (state_ : Z) : Z := (state_ - 2)%Z.

(** [maybe_unlock_and_signal_one]: the new state, and whether a thread is signalled
    after the unlock; [unlock_and_signal_one] does the same. *)
Definition maybe_unlock_and_signal_one (state_ : Z) : Z * bool :=
  (event_signal state_, event_have_waiters (event_signal state_)).

(** ** [scheduler] *)

(** An operation that was completed; a descriptor of the reactor that has events, which
    is not counted as work. *)
Inductive ready_op : Type := completion (op : nat) | descriptor (d : nat).
(** The reactor is an operation of the queue, too. *)
Inductive operation : Type := task_operation_ | ready (o : ready_op).
#[global] Instance ready_op_eq_dec : EqDecision ready_op.
Proof. solve_decision. Defined.
#[global] Instance operation_eq_dec : EqDecision operation.
Proof. solve_decision. Defined.

(** [interrupter_] tells whether the reactor was interrupted and has not noticed yet. *)
Record scheduler : Type := Scheduler {
  op_queue_ : list operation;
  task_ : bool;
  task_interrupted_ : bool;
  stopped_ : bool;
  shutdown_ : bool;
  wakeup_event_ : Z;
  interrupter_ : bool }.

Definition new_scheduler : scheduler := Scheduler [] false true false false 0 false.

Definition set_queue (q : list operation) (s : scheduler) : scheduler :=
  Scheduler q (task_ s) (task_interrupted_ s) (stopped_ s) (shutdown_ s) (wakeup_event_ s) (interrupter_ s).
Definition set_event (e : Z) (s : scheduler) : scheduler :=
  Scheduler (op_queue_ s) (task_ s) (task_interrupted_ s) (stopped_ s) (shutdown_ s) e (interrupter_ s).
Definition set_interrupted (b : bool) (s : scheduler) : scheduler :=
  Scheduler (op_queue_ s) (task_ s) b (stopped_ s) (shutdown_ s) (wakeup_event_ s) (interrupter_ s).
Definition set_stopped (b : bool) (s : scheduler) : scheduler :=
  Scheduler (op_queue_ s) (task_ s) (task_interrupted_ s) b (shutdown_ s) (wakeup_event_ s) (interrupter_ s).
Definition set_interrupter (b : bool) (s : scheduler) : scheduler :=
  Scheduler (op_queue_ s) (task_ s) (task_interrupted_ s) (stopped_ s) (shutdown_ s) (wakeup_event_ s) b.

(** The tail of [wake_one_thread_and_unlock] and of [stop_all_threads]. *)
Definition interrupt_task (s : scheduler) : scheduler :=
  if negb (task_interrupted_ s) && task_ s then set_interrupter true (set_interrupted true s) else s.

(** The boolean says whether [pthread_cond_signal] follows. *)
Definition wake_one_thread_and_unlock (s : scheduler) : scheduler * bool :=
  let (e, signalled) := maybe_unlock_and_signal_one (wakeup_event_ s) in
  if signalled then (set_event e s, true) else (interrupt_task (set_event e s), false).

Definition stop_all_threads (s : scheduler) : scheduler :=
  interrupt_task (set_event (event_signal (wakeup_event_ s)) (set_stopped true s)).

Definition init_task (s : scheduler) : scheduler * bool :=
  if negb (shutdown_ s) && negb (task_ s) then
    wake_one_thread_and_unlock (Scheduler (op_queue_ s ++ [task_operation_]) true (task_interrupted_ s) (stopped_ s) (shutdown_ s)
                                  (wakeup_event_ s) (interrupter_ s))
  else (s, false).

(** What a thread does next, after it has unlocked. *)
Inductive turn : Type :=
  | turn_return
  | turn_sleep
  | turn_task (block : bool)
  | turn_complete (op : nat)
  | turn_descriptor (d : nat)
  | turn_again.

Section scheduler.
Context (one_thread_ : bool).

(** The front of the queue is not the reactor. *)
Definition run_front (tn : turn) (more_handlers : bool) (s : scheduler) : turn * scheduler * bool :=
  if more_handlers && negb one_thread_ then let (s, signalled) := wake_one_thread_and_unlock s in (tn, s, signalled)
  else (tn, s, false).

(** The front of the queue is the reactor, which may block if nothing else is there. *)
Definition run_reactor (more_handlers : bool) (s : scheduler) : turn * scheduler * bool :=
  let s := set_interrupted more_handlers s in
  if more_handlers && negb one_thread_ then
    let (e, signalled) := maybe_unlock_and_signal_one (wakeup_event_ s) in (turn_task (negb more_handlers), set_event e s, signalled)
  else (turn_task (negb more_handlers), s, false).

(** [do_run_one] under the lock.  [task_usec_] and [wait_usec_] are [-1], as the
    configuration of an [io_context] has them. *)
Definition do_run_one (s : scheduler) : turn * scheduler * bool :=
  if stopped_ s then (turn_return, s, false) else
  match op_queue_ s with
  | [] =>
      let e := event_clear (wakeup_event_ s) in
      if event_is_signalled e then (turn_again, set_event e s, false)
      else (turn_sleep, set_event (event_enter e) s, false)
  | o :: ops =>
      let more_handlers := bool_decide (ops ≠ []) in
      match o with
      | task_operation_ => run_reactor more_handlers (set_queue ops s)
      | ready (completion op) => run_front (turn_complete op) more_handlers (set_queue ops s)
      | ready (descriptor d) => run_front (turn_descriptor d) more_handlers (set_queue ops s)
      end
  end.

(** A thread that [pthread_cond_wait] has given the lock back to. *)
Definition wait_resumed (s : scheduler) : turn * scheduler * bool :=
  let e := event_leave (wakeup_event_ s) in
  if event_is_signalled e then do_run_one (set_event e s)
  else (turn_sleep, set_event (event_enter e) s, false).

(** ** Threads *)

(** Where a thread is in [run]: about to read [outstanding_work_]; about to [stop]
    because there is none; about to lock; asleep in [pthread_cond_wait], or woken and
    about to lock; in the reactor, which may block; in [~task_cleanup], before the
    count and before the lock; about to call [perform_io] of a descriptor; in a
    handler, or back from a descriptor that had none; in [~work_cleanup], about to [stop], or
    about to lock; out. *)
Inductive run_pc : Type :=
  | run_entry
  | run_entry_stop
  | run_locking
  | run_asleep
  | run_woken
  | run_task (block : bool)
  | run_task_cleanup
  | run_task_locking
  | run_descriptor (d : nat)
  | run_handler (op : option nat)
  | run_stop
  | run_cleanup
  | run_returned.

Record thread_info : Type := ThreadInfo {
  run_at : run_pc;
  private_op_queue : list ready_op;
  private_outstanding_work : Z;
  run_count : Z }.

Definition at_pc (pc : run_pc) (i : thread_info) : thread_info :=
  ThreadInfo pc (private_op_queue i) (private_outstanding_work i) (run_count i).

Definition size_max : Z := 18446744073709551615.
Definition count_one (i : thread_info) : thread_info :=
  ThreadInfo (run_at i) (private_op_queue i) (private_outstanding_work i)
    (if decide (run_count i = size_max) then run_count i else run_count i + 1)%Z.

Definition pc_of_turn (tn : turn) : run_pc :=
  match tn with
  | turn_return => run_returned
  | turn_sleep => run_asleep
  | turn_task block => run_task block
  | turn_complete op => run_handler (Some op)
  | turn_descriptor d => run_descriptor d
  | turn_again => run_locking
  end.

(** The threads in [run]; operations whose work is counted and that a client is about
    to push; calls of [pthread_cond_signal] and of [stop] that are due; operations that
    the reactor waits for; work guards; and what was completed, destroyed and started. *)
Record world : Type := World {
  sch : scheduler;
  outstanding_work_ : Z;
  runners : list thread_info;
  posting : list nat;
  signals : nat;
  stops : nat;
  in_reactor : list nat;
  guards : nat;
  completed : list nat;
  destroyed : list nat;
  started : list nat }.

Definition new_world : world := World new_scheduler 0 [] [] 0 0 [] 0 [] [] [].

Definition set_sch (r : scheduler * bool) (w : world) : world :=
  World r.1 (outstanding_work_ w) (runners w) (posting w) (if r.2 then S (signals w) else signals w) (stops w) (in_reactor w)
    (guards w) (completed w) (destroyed w) (started w).
Definition set_work (n : Z) (w : world) : world :=
  World (sch w) n (runners w) (posting w) (signals w) (stops w) (in_reactor w) (guards w) (completed w) (destroyed w) (started w).
Definition set_runners (l : list thread_info) (w : world) : world :=
  World (sch w) (outstanding_work_ w) l (posting w) (signals w) (stops w) (in_reactor w) (guards w) (completed w) (destroyed w) (started w).
Definition set_runner (t : nat) (i : thread_info) (w : world) : world := set_runners (<[t := i]> (runners w)) w.

(** [stop]: every thread that sleeps on the event is woken. *)
Definition wake (i : thread_info) : thread_info := match run_at i with run_asleep => at_pc run_woken i | _ => i end.
Definition stop (w : world) : world := set_runners (wake <$> runners w) (set_sch (stop_all_threads (sch w), false) w).

(** Thread [t] holds the lock in [do_run_one]; [r] is what it does there. *)
Definition take_turn (t : nat) (i : thread_info) (r : turn * scheduler * bool) (w : world) : world :=
  set_runner t (at_pc (pc_of_turn r.1.1) i) (set_sch (r.1.2, r.2) w).

(** [~task_cleanup] up to the lock, and what it does with the lock; the end of
    [~work_cleanup]. *)
Definition count_private_work (t : nat) (i : thread_info) (w : world) : world :=
  set_runner t (ThreadInfo run_task_locking (private_op_queue i) 0 (run_count i))
    (set_work (if decide (0 < private_outstanding_work i)%Z then outstanding_work_ w + private_outstanding_work i
               else outstanding_work_ w)%Z w).
Definition return_task (i : thread_info) (s : scheduler) : scheduler :=
  set_queue (op_queue_ s ++ (ready <$> private_op_queue i) ++ [task_operation_]) (set_interrupted true s).
Definition return_private_queue (i : thread_info) (s : scheduler) : scheduler :=
  set_queue (op_queue_ s ++ (ready <$> private_op_queue i)) s.

(** One step of a thread that does not wait for anything but the lock. *)
Definition runner_step (t : nat) (w : world) : option world :=
  i ← runners w !! t;
  match run_at i with
  | run_entry =>
      Some (set_runner t (at_pc (if decide (outstanding_work_ w = 0%Z) then run_entry_stop else run_locking) i) w)
  | run_entry_stop => Some (set_runner t (at_pc run_returned i) (stop w))
  | run_locking => Some (take_turn t i (do_run_one (sch w)) w)
  | run_woken => Some (take_turn t i (wait_resumed (sch w)) w)
  | run_task_cleanup => Some (count_private_work t i w)
  | run_task_locking =>
      Some (take_turn t (ThreadInfo run_locking [] (private_outstanding_work i) (run_count i)) (do_run_one (return_task i (sch w))) w)
  | run_stop => Some (set_runner t (at_pc run_cleanup i) (stop w))
  | run_cleanup =>
      Some (take_turn t (count_one (ThreadInfo run_locking [] (private_outstanding_work i) (run_count i)))
              (do_run_one (return_private_queue i (sch w))) w)
  | run_asleep | run_task _ | run_descriptor _ | run_handler _ | run_returned => None
  end.

(** The handler returns; [~work_cleanup] up to the queue. *)
Definition handler_returns (t : nat) (w : world) : option world :=
  i ← runners w !! t;
  match run_at i with
  | run_handler op =>
      let p := private_outstanding_work i in
      let n := (if decide (1 < p) then outstanding_work_ w + (p - 1)
                else if decide (p < 1) then outstanding_work_ w - 1 else outstanding_work_ w)%Z in
      let pc := if decide (p < 1 ∧ n = 0)%Z then run_stop else run_cleanup in
      Some (set_runner t (ThreadInfo pc (private_op_queue i) 0 (run_count i))
        (World (sch w) n (runners w) (posting w) (signals w) (stops w) (in_reactor w) (guards w) (completed w ++ option_list op) (destroyed w) (started w)))
  | _ => None
  end.

(** [perform_io] completes the operations [ops] of the reactor and leaves [rest]: the
    first is completed now, the others are posted, and if there is none the count is
    made up for the [work_finished] to come. *)
Definition perform_io (t : nat) (ops rest : list nat) (w : world) : option world :=
  i ← runners w !! t;
  match run_at i with
  | run_descriptor _ =>
      let w1 := World (sch w) (outstanding_work_ w) (runners w) (if one_thread_ then posting w else tail ops ++ posting w) (signals w)
                  (stops w) rest (guards w) (completed w) (destroyed w) (started w) in
      Some (set_runner t
        (ThreadInfo (run_handler (head ops)) (private_op_queue i ++ (if one_thread_ then completion <$> tail ops else []))
           (match ops with [] => private_outstanding_work i + 1 | _ => private_outstanding_work i end) (run_count i)) w1)
  | _ => None
  end.

(** The reactor returns with the operations [ops] and the descriptors [ds], and leaves
    [rest]; it may have noticed an interruption. *)
Definition reactor_returns (t : nat) (ds ops rest : list nat) (noticed : bool) (w : world) : option world :=
  i ← runners w !! t;
  match run_at i with
  | run_task _ =>
      Some (set_runner t (ThreadInfo run_task_cleanup (private_op_queue i ++ (descriptor <$> ds) ++ (completion <$> ops))
              (private_outstanding_work i) (run_count i))
        (World (set_interrupter (interrupter_ (sch w) && negb noticed) (sch w)) (outstanding_work_ w) (runners w) (posting w) (signals w)
           (stops w) rest (guards w) (completed w) (destroyed w) (started w)))
  | _ => None
  end.

(** ** Clients *)

(** [post_immediate_completion] outside the threads of the scheduler, and
    [do_dispatch]: the work is counted, then the operation is pushed.
    [post_deferred_completions] pushes several at once. *)
Definition post_counted (op : nat) (w : world) : world :=
  World (sch w) (outstanding_work_ w + 1) (runners w) (op :: posting w) (signals w) (stops w) (in_reactor w) (guards w)
    (completed w) (destroyed w) (op :: started w).
Definition push_posted (ops rest : list nat) (w : world) : world :=
  set_sch (wake_one_thread_and_unlock (set_queue (op_queue_ (sch w) ++ (ready <$> (completion <$> ops))) (sch w)))
    (World (sch w) (outstanding_work_ w) (runners w) rest (signals w) (stops w) (in_reactor w) (guards w) (completed w) (destroyed w) (started w)).

(** The same inside a handler, if there is one thread or [is_continuation]. *)
Definition post_private (t op : nat) (is_continuation : bool) (w : world) : option world :=
  i ← runners w !! t;
  match run_at i with
  | run_handler (Some _) =>
      if one_thread_ || is_continuation then
        Some (set_runner t (ThreadInfo (run_at i) (private_op_queue i ++ [completion op]) (private_outstanding_work i + 1) (run_count i))
          (World (sch w) (outstanding_work_ w) (runners w) (posting w) (signals w) (stops w) (in_reactor w) (guards w) (completed w)
             (destroyed w) (op :: started w)))
      else None
  | _ => None
  end.

(** An operation is started that the reactor completes: the work is counted. *)
Definition start_op (op : nat) (w : world) : world :=
  World (sch w) (outstanding_work_ w + 1) (runners w) (posting w) (signals w) (stops w) (op :: in_reactor w) (guards w)
    (completed w) (destroyed w) (op :: started w).

(** [post_deferred_completions] of operations that were taken from the reactor, outside
    the threads of the scheduler, or in a handler when there is one thread. *)
Definition defer (ops rest : list nat) (w : world) : world :=
  World (sch w) (outstanding_work_ w) (runners w) (ops ++ posting w) (signals w) (stops w) rest (guards w) (completed w) (destroyed w) (started w).
Definition defer_private (t : nat) (ops rest : list nat) (w : world) : option world :=
  i ← runners w !! t;
  match run_at i with
  | run_handler (Some _) =>
      if one_thread_ then
        Some (set_runner t (ThreadInfo (run_at i) (private_op_queue i ++ (completion <$> ops)) (private_outstanding_work i) (run_count i))
          (World (sch w) (outstanding_work_ w) (runners w) (posting w) (signals w) (stops w) rest (guards w) (completed w) (destroyed w) (started w)))
      else None
  | _ => None
  end.

(** [work_started] and [work_finished] of a work guard. *)
Definition new_guard (w : world) : world :=
  World (sch w) (outstanding_work_ w + 1) (runners w) (posting w) (signals w) (stops w) (in_reactor w) (S (guards w)) (completed w)
    (destroyed w) (started w).
Definition drop_guard (w : world) : option world :=
  match guards w with
  | 0 => None
  | S n => Some (World (sch w) (outstanding_work_ w - 1) (runners w) (posting w) (signals w)
             (if decide (outstanding_work_ w - 1 = 0)%Z then S (stops w) else stops w) (in_reactor w) n (completed w) (destroyed w) (started w))
  end.

Definition due_stop (w : world) : option world :=
  match stops w with
  | 0 => None
  | S n => Some (stop (World (sch w) (outstanding_work_ w) (runners w) (posting w) (signals w) n (in_reactor w) (guards w)
                   (completed w) (destroyed w) (started w)))
  end.

Definition restart (w : world) : world := set_sch (set_stopped false (sch w), false) w.

(** [pthread_cond_signal] wakes a thread that sleeps, if there is one. *)
Definition due_signal (w : world) : option world :=
  match signals w with
  | 0 => None
  | S n => Some (World (sch w) (outstanding_work_ w) (runners w) (posting w) n (stops w) (in_reactor w) (guards w) (completed w)
             (destroyed w) (started w))
  end.
Definition wake_thread (t : nat) (w : world) : world := set_runners (alter wake t (runners w)) w.
Definition asleep (w : world) (t : nat) : Prop := ∃ i, runners w !! t = Some i ∧ run_at i = run_asleep.

(** [shutdown], when no thread is in [run]: the operations of the queue and of the
    reactor are destroyed. *)
Definition op_of (o : ready_op) : option nat := match o with completion op => Some op | descriptor _ => None end.
Definition completions (q : list operation) : list nat :=
  omap (λ o, match o with ready o => op_of o | task_operation_ => None end) q.
Definition shutdown (w : world) : world :=
  World (Scheduler [] false (task_interrupted_ (sch w)) (stopped_ (sch w)) true (wakeup_event_ (sch w)) (interrupter_ (sch w)))
    (outstanding_work_ w) (runners w) (posting w) (signals w) (stops w) [] (guards w) (completed w)
    (destroyed w ++ completions (op_queue_ (sch w)) ++ in_reactor w) (started w).

(** ** Steps *)

Inductive sched_step (w : world) : world → Prop :=
  | step_run : shutdown_ (sch w) = false →
      sched_step w (set_runners (runners w ++ [ThreadInfo run_entry [] 0 0]) w)
  | step_runner t w' : runner_step t w = Some w' → sched_step w w'
  | step_handler t w' : handler_returns t w = Some w' → sched_step w w'
  | step_reactor t ds ops rest noticed w' :
      in_reactor w ≡ₚ ops ++ rest → reactor_returns t ds ops rest noticed w = Some w' → sched_step w w'
  | step_perform_io t ops rest w' : in_reactor w ≡ₚ ops ++ rest → perform_io t ops rest w = Some w' → sched_step w w'
  | step_init : sched_step w (set_sch (init_task (sch w)) w)
  | step_post op : op ∉ started w → sched_step w (post_counted op w)
  | step_push ops rest : posting w ≡ₚ ops ++ rest → sched_step w (push_posted ops rest w)
  | step_private t op c w' : op ∉ started w → post_private t op c w = Some w' → sched_step w w'
  | step_start op : op ∉ started w → sched_step w (start_op op w)
  | step_defer ops rest : in_reactor w ≡ₚ ops ++ rest → sched_step w (defer ops rest w)
  | step_defer_private t ops rest w' : in_reactor w ≡ₚ ops ++ rest → defer_private t ops rest w = Some w' → sched_step w w'
  | step_guard : sched_step w (new_guard w)
  | step_drop_guard w' : drop_guard w = Some w' → sched_step w w'
  | step_stop : sched_step w (stop w)
  | step_due_stop w' : due_stop w = Some w' → sched_step w w'
  | step_restart : sched_step w (restart w)
  | step_signal t w' : asleep w t → due_signal w = Some w' → sched_step w (wake_thread t w')
  | step_signal_none w' : (∀ t, ¬ asleep w t) → due_signal w = Some w' → sched_step w w'
  | step_spurious t : asleep w t → sched_step w (wake_thread t w)
  | step_shutdown : (∀ t i, runners w !! t = Some i → run_at i = run_returned) → sched_step w (shutdown w).

Definition sched_reachable : world → Prop := reachable (eq new_world) sched_step.

End scheduler.

(** ** The event *)

Definition event_rep (e : Z) (n : nat) (b : bool) : Prop := e = (2 * Z.of_nat n + Z.b2z b)%Z.

Lemma event_rep_bits e n b i : event_rep e n b → (0 ≤ i)%Z → Z.testbit e i = if decide (i = 0)%Z then b else Z.testbit (Z.of_nat n) (i - 1).
Proof.
  intros -> Hi. case_decide as E; [subst; by rewrite Z.testbit_0_r|].
  replace i with (Z.succ (i - 1)) at 1 by lia. rewrite Z.testbit_succ_r; [done|lia].
Qed.

Lemma event_rep_eq e n b : (∀ i, (0 ≤ i)%Z → Z.testbit e i = if decide (i = 0)%Z then b else Z.testbit (Z.of_nat n) (i - 1)) → event_rep e n b.
Proof.
  intros He. apply Z.bits_inj'. intros i Hi. rewrite He by done. by rewrite (event_rep_bits (2 * Z.of_nat n + Z.b2z b) n b).
Qed.

Lemma testbit_one i : (0 ≤ i)%Z → Z.testbit 1 i = bool_decide (i = 0)%Z.
Proof. intros Hi. destruct (decide (i = 0)%Z) as [->|Hne]; [done|]. rewrite bool_decide_false by done. apply (Z.pow2_bits_false 0). lia. Qed.

Lemma event_signal_rep e n b : event_rep e n b → event_rep (event_signal e) n true.
Proof.
  intros He. apply event_rep_eq. intros i Hi. unfold event_signal. rewrite Z.lor_spec, testbit_one, (event_rep_bits _ _ _ _ He) by done.
  case_decide; [rewrite bool_decide_true by done; apply orb_true_r|rewrite bool_decide_false by done; apply orb_false_r].
Qed.
Lemma event_clear_rep e n b : event_rep e n b → event_rep (event_clear e) n false.
Proof.
  intros He. apply event_rep_eq. intros i Hi. unfold event_clear.
  rewrite Z.land_spec, Z.lnot_spec, testbit_one, (event_rep_bits _ _ _ _ He) by done.
  case_decide; [rewrite bool_decide_true by done; apply andb_false_r|rewrite bool_decide_false by done; apply andb_true_r].
Qed.
Lemma event_signalled_rep e n b : event_rep e n b → event_is_signalled e = b.
Proof.
  intros He. assert (Z.land e 1 = Z.b2z b) as E.
  { rewrite He. change 1%Z with (Z.ones 1) at 1. rewrite Z.land_ones by lia. symmetry. apply (Z.mod_unique _ _ (Z.of_nat n)); [|lia].
    left. destruct b; simpl; lia. }
  unfold event_is_signalled. rewrite E. by destruct b.
Qed.
Lemma event_waiters_rep e n : event_rep e n true → event_have_waiters e = bool_decide (n ≠ 0).
Proof. intros ->. unfold event_have_waiters. apply bool_decide_ext. simpl. lia. Qed.
Lemma event_enter_rep e n b : event_rep e n b → event_rep (event_enter e) (S n) b.
Proof. unfold event_rep, event_enter. lia. Qed.
Lemma event_leave_rep e n b : event_rep e (S n) b → event_rep (event_leave e) n b.
Proof. unfold event_rep, event_leave. lia. Qed.

(** ** Who sleeps and who does not *)

Definition waits (pc : run_pc) : bool := match pc with run_asleep | run_woken => true | _ => false end.
Definition has_task (pc : run_pc) : bool := match pc with run_task _ | run_task_cleanup | run_task_locking => true | _ => false end.
Definition count_pc (P : run_pc → bool) (l : list thread_info) : nat := length (filter (λ i, P (run_at i) = true) l).
Definition count_task (q : list operation) : nat := length (filter (λ o, o = task_operation_) q).

#[global] Instance count_pc_proper P : Proper ((≡ₚ) ==> eq) (count_pc P).
Proof. intros l l' Hl. unfold count_pc. by rewrite Hl. Qed.

Lemma count_pc_cons P i l : count_pc P (i :: l) = (if P (run_at i) then 1 else 0) + count_pc P l.
Proof. unfold count_pc. rewrite filter_cons. case_decide as E; [by rewrite E|]. by destruct (P (run_at i)). Qed.
Lemma count_task_app q q' : count_task (q ++ q') = count_task q + count_task q'.
Proof. unfold count_task. by rewrite filter_app, length_app. Qed.
Lemma count_task_cons o q : count_task (o :: q) = (if decide (o = task_operation_) then 1 else 0) + count_task q.
Proof. unfold count_task. rewrite filter_cons. by case_decide. Qed.

(** The event counts the threads that wait; the reactor is in the queue or with one
    thread; a thread that may block in it can be interrupted; and once the scheduler
    is stopped nobody sleeps. *)
Record base_inv (s : scheduler) (l : list thread_info) : Prop := BaseInv {
  bi_event : event_rep (wakeup_event_ s) (count_pc waits l) (event_is_signalled (wakeup_event_ s));
  bi_task : count_task (op_queue_ s) + count_pc has_task l = if task_ s then 1 else 0;
  bi_interrupt : ∀ i, i ∈ l → run_at i = run_task true → interrupter_ s = true ∨ task_interrupted_ s = false;
  bi_stopped : stopped_ s = true → event_is_signalled (wakeup_event_ s) = true ∧
    ∀ i, i ∈ l → run_at i ≠ run_asleep ∧ (run_at i = run_task true → interrupter_ s = true) }.

(** A thread that looks at the queue again before it sleeps. *)
Definition awake (pc : run_pc) : bool :=
  match pc with run_asleep | run_woken | run_task true | run_returned => false | _ => true end.
Definition moves (s : scheduler) (signals : nat) (i : thread_info) : Prop :=
  match run_at i with
  | run_task true => interrupter_ s = true
  | run_woken => event_is_signalled (wakeup_event_ s) = true
  | run_asleep => event_is_signalled (wakeup_event_ s) = true ∧ signals ≠ 0
  | pc => awake pc = true
  end.

(** While there is something in the queue somebody moves. *)
Record live_inv (s : scheduler) (l : list thread_info) (signals : nat) : Prop := LiveInv {
  li_base : base_inv s l;
  li_moves : op_queue_ s ≠ [] → (∃ i, i ∈ l ∧ run_at i ≠ run_returned) → ∃ i, i ∈ l ∧ moves s signals i }.

#[global] Instance base_inv_proper s : Proper ((≡ₚ) ==> iff) (base_inv s).
Proof.
  assert (∀ l l', l ≡ₚ l' → base_inv s l → base_inv s l') as H; [|intros l l' Hl; split; by apply H].
  intros l l' Hl [H1 H2 H3 H4]. split.
  - by rewrite <- Hl.
  - by rewrite <- Hl.
  - intros i. rewrite <- Hl. apply H3.
  - intros Hs. destruct (H4 Hs) as [? Hx]. split; [done|]. intros i. rewrite <- Hl. apply Hx.
Qed.
#[global] Instance live_inv_proper s : Proper ((≡ₚ) ==> eq ==> iff) (live_inv s).
Proof.
  assert (∀ l l' n, l ≡ₚ l' → live_inv s l n → live_inv s l' n) as H; [|intros l l' Hl n n' <-; split; by apply H].
  intros l l' n Hl [H1 H2]. split; [by rewrite <- Hl|]. intros Hq (i & Hi & Hr). rewrite <- Hl in Hi.
  destruct H2 as (j & Hj & ?); [done|by exists i|]. exists j. by rewrite <- Hl.
Qed.

(** A thread that neither waits nor has the reactor does not count. *)
Lemma base_cons s i l : waits (run_at i) = false → has_task (run_at i) = false → base_inv s (i :: l) ↔ base_inv s l.
Proof.
  intros Hw Ht. assert (run_at i ≠ run_asleep ∧ run_at i ≠ run_task true) as [Ha Hb] by (split; intros E; by rewrite E in *).
  split; intros [H1 H2 H3 H4]; split.
  - by rewrite count_pc_cons, Hw in H1.
  - by rewrite count_pc_cons, Ht in H2.
  - intros j Hj. apply H3. by right.
  - intros Hs. destruct (H4 Hs) as [? Hx]. split; [done|]. intros j Hj. apply Hx. by right.
  - by rewrite count_pc_cons, Hw.
  - by rewrite count_pc_cons, Ht.
  - intros j [->|Hj]%elem_of_cons; [done|]. by apply H3.
  - intros Hs. destruct (H4 Hs) as [? Hx]. split; [done|]. intros j [->|Hj]%elem_of_cons; [done|]. by apply Hx.
Qed.

Lemma stopped_all_move s l n i : base_inv s l → stopped_ s = true → i ∈ l → run_at i ≠ run_returned → moves s n i.
Proof.
  intros Hb Hs Hi Hr. destruct (bi_stopped _ _ Hb Hs) as [He Hx]. destruct (Hx i Hi) as [Ha Hk]. unfold moves.
  destruct (run_at i) as [| | | | |[]| | | | | | |]; try done. by apply Hk.
Qed.

Lemma count_pc_elem P i l : i ∈ l → P (run_at i) = true → count_pc P l ≠ 0.
Proof.
  intros Hi HP. unfold count_pc. rewrite length_zero_iff_nil. intros E. assert (i ∈ filter (λ i, P (run_at i) = true) l) as Hf.
  { by apply list_elem_of_filter. }
  rewrite E in Hf. by apply elem_of_nil in Hf.
Qed.
Lemma count_pc_exists P l : count_pc P l ≠ 0 → ∃ i, i ∈ l ∧ P (run_at i) = true.
Proof.
  unfold count_pc. intros Hn. destruct (filter _ l) as [|i f] eqn:E; [done|]. exists i.
  assert (i ∈ filter (λ i, P (run_at i) = true) l) as Hf by (rewrite E; left). by apply list_elem_of_filter in Hf as [? ?].
Qed.

Lemma base_signal s l e : event_rep e (count_pc waits l) true → base_inv s l → base_inv (set_event e s) l.
Proof.
  intros He [H1 H2 H3 H4]. pose proof (event_signalled_rep _ _ _ He) as Hs. split; simpl; rewrite ?Hs; try done.
  intros Hst. destruct (H4 Hst) as [_ ?]. done.
Qed.

Lemma base_interrupt s l : base_inv s l → base_inv (interrupt_task s) l.
Proof.
  unfold interrupt_task. case_match; [|done]. intros [H1 H2 H3 H4]. split; simpl; [done..|by auto|]. intros Hs. destruct (H4 Hs) as [? Hx].
  split; [done|]. intros i Hi. split; [by apply Hx|done].
Qed.

(** After an interruption a thread that has the reactor does not stay in it. *)
Lemma interrupt_moves s l i :
  base_inv s l → i ∈ l → run_at i = run_task true → interrupter_ (interrupt_task s) = true.
Proof.
  intros Hb Hi Hr. pose proof (bi_task _ _ Hb) as Ht. assert (count_pc has_task l ≠ 0) as Hc by (eapply count_pc_elem; [done|by rewrite Hr]).
  unfold interrupt_task. destruct (task_ s); [|lia]. destruct (bi_interrupt _ _ Hb i Hi Hr) as [E|E]; [by case_match|by rewrite E].
Qed.

Definition signals_after (r : bool) (n : nat) : nat := if r then S n else n.

(** Somebody moves after [wake_one_thread_and_unlock]. *)
Lemma wake_one_live s l n (r := wake_one_thread_and_unlock s) : base_inv s l → live_inv r.1 l (signals_after r.2 n).
Proof.
  intros Hb. pose proof (event_signal_rep _ _ _ (bi_event _ _ Hb)) as He. pose proof (base_signal s l _ He Hb) as Hb'.
  pose proof (event_signalled_rep _ _ _ He) as Hsig. unfold r, wake_one_thread_and_unlock, maybe_unlock_and_signal_one.
  rewrite (event_waiters_rep _ _ He). case_bool_decide as Hw; simpl.
  - split; [done|]. intros _ _. apply count_pc_exists in Hw as (i & Hi & Hp). exists i. split; [done|]. unfold moves. simpl.
    by destruct (run_at i).
  - split; [by apply base_interrupt|]. intros _ (i & Hi & Hr). exists i. split; [done|]. unfold moves.
    pose proof (count_pc_elem waits i l Hi) as Hel. destruct (run_at i) as [| | | | |[]| | | | | | |] eqn:Ei; try done.
    + by destruct Hel.
    + unfold interrupt_task. by case_match.
    + by eapply interrupt_moves.
Qed.

Section turns.
Context (one_thread_ : bool).

Lemma front_live s i rest tn more n (r := run_front one_thread_ tn more s) :
  base_inv s rest → awake (pc_of_turn tn) = true → has_task (pc_of_turn tn) = false →
  live_inv r.1.2 (at_pc (pc_of_turn r.1.1) i :: rest) (signals_after r.2 n).
Proof.
  intros Hb Ha Ht. assert (waits (pc_of_turn tn) = false) as Hw by by destruct (pc_of_turn tn).
  assert (∀ s' n', moves s' n' (at_pc (pc_of_turn tn) i)) as Hm.
  { intros s' n'. unfold moves. simpl. by destruct (pc_of_turn tn) as [| | | | |[]| | | | | | |]. }
  assert (∀ s' n', base_inv s' rest → live_inv s' (at_pc (pc_of_turn tn) i :: rest) n') as Hl.
  { intros s' n' Hb'. split; [by apply base_cons|]. intros _ _. exists (at_pc (pc_of_turn tn) i). split; [by left|done]. }
  unfold r, run_front. case_match; [|by apply Hl]. pose proof (wake_one_live s rest 0 Hb) as [Hb' _].
  destruct (wake_one_thread_and_unlock s) as [s' b]. by apply Hl.
Qed.

Lemma reactor_live s i rest ops more n (r := run_reactor one_thread_ more (set_queue ops s)) :
  base_inv s rest → op_queue_ s = task_operation_ :: ops → stopped_ s = false → more = bool_decide (ops ≠ []) →
  live_inv r.1.2 (at_pc (pc_of_turn r.1.1) i :: rest) (signals_after r.2 n).
Proof.
  intros Hb Hq Hs Hm. pose proof (bi_task _ _ Hb) as Ht. rewrite Hq, count_task_cons, decide_True in Ht by done.
  assert (count_pc has_task rest = 0 ∧ count_task ops = 0 ∧ task_ s = true) as (Hr & Ho & Htask) by (destruct (task_ s); lia).
  set (i' := at_pc (run_task (negb more)) i).
  assert (∀ e b n', event_rep e (count_pc waits rest) b → live_inv (set_event e (set_interrupted more (set_queue ops s))) (i' :: rest) n') as Hl.
  { intros e b n' He. pose proof (event_signalled_rep _ _ _ He) as Hb'. split; [split; simpl|].
    - by rewrite count_pc_cons, Hb'.
    - by rewrite count_pc_cons, Hr, Ho, Htask.
    - intros j [->|Hj]%elem_of_cons Hpc; [right; by destruct more|]. destruct (count_pc_elem has_task j rest Hj); [by rewrite Hpc|done].
    - congruence.
    - simpl. intros Hne _. rewrite bool_decide_true in Hm by done. subst more. exists i'. split; [by left|done]. }
  unfold r, run_reactor, maybe_unlock_and_signal_one. destruct (more && negb one_thread_); simpl.
  - eapply Hl, event_signal_rep, Hb.
  - apply (Hl (wakeup_event_ s) (event_is_signalled (wakeup_event_ s))), Hb.
Qed.

Lemma turn_live s i rest n (r := do_run_one one_thread_ s) :
  base_inv s rest → live_inv r.1.2 (at_pc (pc_of_turn r.1.1) i :: rest) (signals_after r.2 n).
Proof.
  intros Hb. unfold r, do_run_one. destruct (stopped_ s) eqn:Hs; simpl.
  - split; [by apply base_cons|]. intros _ (j & [->|Hj]%elem_of_cons & Hr); [done|]. exists j. split; [by right|]. by eapply stopped_all_move.
  - destruct (op_queue_ s) as [|o ops] eqn:Hq.
    + pose proof (event_clear_rep _ _ _ (bi_event _ _ Hb)) as He. rewrite (event_signalled_rep _ _ _ He). simpl.
      apply event_enter_rep in He. split; [|done]. pose proof (event_signalled_rep _ _ _ He) as Hf. destruct Hb as [H1 H2 H3 H4]. split; simpl.
      * by rewrite count_pc_cons, Hf.
      * by rewrite count_pc_cons.
      * intros j [->|Hj]%elem_of_cons; [done|]. by apply H3.
      * congruence.
    + destruct o as [|[]].
      * by apply reactor_live.
      * apply front_live; [|done..]. destruct Hb as [H1 H2 H3 H4]. split; simpl; try done. rewrite Hq, count_task_cons in H2. done.
      * apply front_live; [|done..]. destruct Hb as [H1 H2 H3 H4]. split; simpl; try done. rewrite Hq, count_task_cons in H2. done.
Qed.
End turns.

(** ** Nobody sleeps while there is work *)

Lemma select_runner (l : list thread_info) t i : l !! t = Some i → ∃ rest, l ≡ₚ i :: rest ∧ ∀ i', <[t := i']> l ≡ₚ i' :: rest.
Proof.
  intros Hi. exists (take t l ++ drop (S t) l). pose proof (lookup_lt_Some _ _ _ Hi). split.
  - rewrite <- (take_drop_middle l t i Hi) at 1. by rewrite Permutation_middle.
  - intros i'. rewrite insert_take_drop by done. by rewrite Permutation_middle.
Qed.

Lemma count_task_ready q : count_task (ready <$> q) = 0.
Proof. induction q; [done|]. by rewrite fmap_cons, count_task_cons. Qed.

Lemma awake_live s i l n :
  base_inv s l → awake (run_at i) = true → has_task (run_at i) = false → live_inv s (i :: l) n.
Proof.
  intros Hb Ha Ht. split; [apply base_cons; [by destruct (run_at i)|done..]|]. intros _ _. exists i. split; [by left|]. unfold moves.
  by destruct (run_at i) as [| | | | |[]| | | | | | |].
Qed.

(** A thread that moves on with the reactor in hand. *)
Lemma task_live s i i' l n :
  base_inv s (i :: l) → has_task (run_at i) = true → has_task (run_at i') = true → awake (run_at i') = true → live_inv s (i' :: l) n.
Proof.
  intros [H1 H2 H3 H4] Ht Ht' Ha.
  assert (waits (run_at i) = false ∧ waits (run_at i') = false) as [Hw Hw'] by (split; [by destruct (run_at i)|by destruct (run_at i')]).
  assert (run_at i' ≠ run_task true ∧ run_at i' ≠ run_asleep) as [Hn Hn'] by (split; intros E; by rewrite E in *).
  split; [split|].
  - rewrite count_pc_cons, Hw in H1. by rewrite count_pc_cons, Hw'.
  - rewrite count_pc_cons, Ht in H2. by rewrite count_pc_cons, Ht'.
  - intros j [->|Hj]%elem_of_cons; [done|]. apply H3. by right.
  - intros Hs. destruct (H4 Hs) as [? Hx]. split; [done|]. intros j [->|Hj]%elem_of_cons; [done|]. apply Hx. by right.
  - intros _ _. exists i'. split; [by left|]. unfold moves. by destruct (run_at i') as [| | | | |[]| | | | | | |].
Qed.

Lemma wake_moves i : run_at (wake i) ≠ run_asleep ∧ waits (run_at (wake i)) = waits (run_at i) ∧ has_task (run_at (wake i)) = has_task (run_at i) ∧
  (run_at (wake i) = run_task true ↔ run_at i = run_task true) ∧ (run_at (wake i) = run_returned ↔ run_at i = run_returned).
Proof. unfold wake, at_pc. destruct (run_at i) eqn:E; simpl; rewrite ?E; naive_solver. Qed.

Lemma count_pc_wake P l : (∀ i, P (run_at (wake i)) = P (run_at i)) → count_pc P (wake <$> l) = count_pc P l.
Proof. intros HP. induction l as [|i l IH]; [done|]. by rewrite fmap_cons, !count_pc_cons, HP, IH. Qed.

(** After [stop] nobody sleeps. *)
Lemma stop_live s l n : base_inv s l → live_inv (stop_all_threads s) (wake <$> l) n.
Proof.
  intros Hb. assert (stopped_ (stop_all_threads s) = true) as Hst by (unfold stop_all_threads, interrupt_task; simpl; by destruct (_ && _)).
  assert (base_inv (stop_all_threads s) (wake <$> l)) as Hb'.
  { pose proof (event_signal_rep _ _ _ (bi_event _ _ Hb)) as He. pose proof (base_signal s l _ He Hb) as Hb1.
    set (s1 := set_event (event_signal (wakeup_event_ s)) s) in *.
    assert (wakeup_event_ (stop_all_threads s) = wakeup_event_ s1 ∧ op_queue_ (stop_all_threads s) = op_queue_ s1 ∧
      task_ (stop_all_threads s) = task_ s1 ∧ interrupter_ (stop_all_threads s) = interrupter_ (interrupt_task s1)) as (E1 & E2 & E3 & E4).
    { unfold stop_all_threads, interrupt_task. simpl. by destruct (_ && _). }
    assert (∀ i, i ∈ wake <$> l → run_at i = run_task true → interrupter_ (stop_all_threads s) = true) as Hint.
    { intros i (j & -> & Hj)%list_elem_of_fmap Hr. rewrite E4. eapply interrupt_moves; [exact Hb1|exact Hj|].
      destruct (wake_moves j) as (_ & _ & _ & Hk & _). by apply Hk. }
    destruct Hb1 as [H1 H2 H3 H4]. split.
    - rewrite E1, count_pc_wake; [done|]. intros i. apply wake_moves.
    - rewrite E2, E3, count_pc_wake; [done|]. intros i. apply wake_moves.
    - eauto.
    - intros _. rewrite E1. split; [by apply event_signalled_rep in He|]. intros i Hi. split; [|by apply Hint].
      apply list_elem_of_fmap in Hi as (j & -> & _). apply wake_moves. }
  split; [done|]. intros _ (i & Hi & Hr). exists i. split; [done|]. by eapply stopped_all_move.
Qed.

Definition world_live (w : world) : Prop := live_inv (sch w) (runners w) (signals w).

Section steps.
Context (one_thread_ : bool).

Lemma take_turn_live t i rest s w :
  (∀ j, <[t := j]> (runners w) ≡ₚ j :: rest) → base_inv s rest → world_live (take_turn t i (do_run_one one_thread_ s) w).
Proof. intros Hl Hb. unfold world_live, take_turn. simpl. rewrite Hl. by apply turn_live. Qed.

Lemma woken_live t i rest w :
  runners w ≡ₚ i :: rest → (∀ j, <[t := j]> (runners w) ≡ₚ j :: rest) → run_at i = run_woken → world_live w →
  world_live (take_turn t i (wait_resumed one_thread_ (sch w)) w).
Proof.
  intros Hr Hl Hi Hw. unfold world_live in Hw. rewrite Hr in Hw. destruct Hw as [Hb Hm]. pose proof Hb as [H1 H2 H3 H4].
  rewrite count_pc_cons, Hi in H1. pose proof (event_leave_rep _ _ _ H1) as He. pose proof (event_signalled_rep _ _ _ He) as Hsig.
  unfold wait_resumed. rewrite Hsig. destruct (event_is_signalled (wakeup_event_ (sch w))) eqn:Hb0.
  - apply (take_turn_live t i rest); [done|]. rewrite count_pc_cons, Hi in H2. split; simpl.
    + by rewrite Hsig.
    + done.
    + intros j Hj. apply H3. by right.
    + intros Hs. destruct (H4 Hs) as [? Hx]. split; [done|]. intros j Hj. apply Hx. by right.
  - unfold world_live, take_turn. simpl. rewrite Hl. replace (event_enter (event_leave (wakeup_event_ (sch w)))) with (wakeup_event_ (sch w))
      by (unfold event_enter, event_leave; lia).
    split; [split; simpl; rewrite ?Hb0|].
    + by rewrite count_pc_cons.
    + rewrite count_pc_cons, Hi in H2. by rewrite count_pc_cons.
    + intros j [->|Hj]%elem_of_cons; [done|]. apply H3. by right.
    + intros Hs. destruct (H4 Hs) as [? _]. done.
    + simpl. intros Hq _. destruct Hm as (j & [->|Hj]%elem_of_cons & Hmv); [done|exists i; split; [by left|by rewrite Hi]| |].
      * unfold moves in Hmv. rewrite Hi in Hmv. congruence.
      * exists j. split; [by right|]. unfold moves in *. done.
Qed.

Lemma stop_world_live t i' w :
  base_inv (sch w) (runners w) → awake (run_at i') = true ∨ run_at i' = run_returned → has_task (run_at i') = false →
  (∀ i, runners w !! t = Some i → has_task (run_at i) = false ∧ waits (run_at i) = false) →
  world_live (set_runner t i' (stop w)).
Proof.
  intros Hb Hi' Ht' Hi. pose proof (stop_live _ _ (signals w) Hb) as Hl. unfold world_live, set_runner, stop in *. simpl in *.
  destruct (runners w !! t) as [i|] eqn:Hlk.
  - destruct (select_runner (wake <$> runners w) t (wake i)) as (rest & Hp & Hins); [by rewrite list_lookup_fmap, Hlk|].
    rewrite Hins. rewrite Hp in Hl. destruct (Hi i eq_refl) as [Hti Hwi]. destruct (wake_moves i) as (_ & Hw1 & Ht1 & _).
    destruct Hl as [Hb' _]. apply base_cons in Hb'; [|congruence..].
    assert (base_inv (stop_all_threads (sch w)) (i' :: rest)) as Hb1.
    { apply base_cons; [|done..]. destruct Hi' as [Ha| ->]; [by destruct (run_at i')|done]. }
    split; [done|]. intros _ (j & Hj & Hr). exists j. split; [done|]. eapply stopped_all_move; [done| |done..].
    unfold stop_all_threads, interrupt_task. simpl. by destruct (_ && _).
  - rewrite list_insert_ge; [done|]. rewrite length_fmap. by apply lookup_ge_None.
Qed.

Lemma runner_step_live t w w' : world_live w → runner_step one_thread_ t w = Some w' → world_live w'.
Proof.
  intros Hw Hs. unfold runner_step, count_private_work, return_task, return_private_queue in Hs. destruct (runners w !! t) as [i|] eqn:Hi; [|done]. simpl in Hs.
  destruct (select_runner _ _ _ Hi) as (rest & Hp & Hins). pose proof Hw as [Hb _]. 
  assert (base_inv (sch w) (i :: rest)) as Hbi by by rewrite <- Hp.
  destruct (run_at i) eqn:Hpc; simplify_eq.
  - unfold world_live. simpl. rewrite Hins. apply base_cons in Hbi; [|by rewrite Hpc..]. apply awake_live; [done|by simpl; case_decide..].
  - apply stop_world_live; [done|by right|done|]. intros j Hj. rewrite Hi in Hj. simplify_eq. by rewrite Hpc.
  - apply base_cons in Hbi; [|by rewrite Hpc..]. by apply (take_turn_live t i rest).
  - by eapply woken_live.
  - unfold world_live. simpl. rewrite Hins. by eapply task_live; [done|rewrite Hpc|..].
  - apply (take_turn_live t _ rest); [done|]. destruct Hbi as [H1 H2 H3 H4].
    rewrite count_pc_cons, Hpc in H1, H2. simpl in H1, H2. split; simpl.
    + done.
    + rewrite !count_task_app, count_task_ready. change (count_task [task_operation_]) with 1. lia.
    + intros j Hj Hj'. exfalso. assert (count_pc has_task rest ≠ 0) as Hc by (eapply count_pc_elem; [done|by rewrite Hj']).
      destruct (task_ (sch w)); lia.
    + intros Hs. destruct (H4 Hs) as [? Hx]. split; [done|]. intros j Hj. apply Hx. by right.
  - apply stop_world_live; [done|by left|done|]. intros j Hj. rewrite Hi in Hj. simplify_eq. by rewrite Hpc.
  - apply base_cons in Hbi; [|by rewrite Hpc..]. apply (take_turn_live t _ rest); [done|]. destruct Hbi as [H1 H2 H3 H4]. split; simpl; try done.
    rewrite count_task_app, count_task_ready. lia.
Qed.

(** A thread in a handler or with a descriptor stays awake. *)
Lemma handler_live t i i' w w' :
  world_live w → runners w !! t = Some i → awake (run_at i) = true → has_task (run_at i) = false →
  awake (run_at i') = true → has_task (run_at i') = false → sch w' = sch w → runners w' = <[t := i']> (runners w) → world_live w'.
Proof.
  intros [Hb _] Hi Ha Ht Ha' Ht' Hs Hr. destruct (select_runner _ _ _ Hi) as (rest & Hp & Hins). unfold world_live. rewrite Hs, Hr, Hins.
  apply awake_live; [|done..]. rewrite Hp in Hb. apply base_cons in Hb; [done|by destruct (run_at i)|done].
Qed.

Lemma wake_thread_live t w n :
  world_live w → asleep w t → signals w ≤ S n →
  live_inv (sch w) (alter wake t (runners w)) n.
Proof.
  intros Hw (i & Hi & Hpc) Hn. destruct (select_runner _ _ _ Hi) as (rest & Hp & Hins).
  assert (alter wake t (runners w) ≡ₚ at_pc run_woken i :: rest) as Ha.
  { rewrite <- Hins. replace (alter wake t (runners w)) with (<[t := wake i]> (runners w)); [unfold wake; by rewrite Hpc|].
    apply list_eq. intros j. rewrite list_insert_alter, !list_lookup_alter. case_decide; [by rewrite Hi|done]. }
  unfold world_live in Hw. rewrite Hp in Hw. rewrite Ha. destruct Hw as [[H1 H2 H3 H4] Hm]. rewrite count_pc_cons, Hpc in H1, H2. split; [split|].
  - by rewrite count_pc_cons.
  - by rewrite count_pc_cons.
  - intros j [->|Hj]%elem_of_cons; [done|]. apply H3. by right.
  - intros Hs. destruct (H4 Hs) as [_ Hx]. destruct (Hx i) as [? _]; [by left|done].
  - intros Hq _. destruct Hm as (j & Hj & Hmv); [done|exists i; split; [by left|by rewrite Hpc]|].
    assert (event_is_signalled (wakeup_event_ (sch w)) = true → ∃ i0, i0 ∈ at_pc run_woken i :: rest ∧ moves (sch w) n i0) as Hsig.
    { intros Hb. exists (at_pc run_woken i). by split; [left|]. }
    apply elem_of_cons in Hj as [->|Hj].
    + unfold moves in Hmv. rewrite Hpc in Hmv. apply Hsig, Hmv.
    + unfold moves in Hmv. destruct (run_at j) as [| | | | |[]| | | | | | |] eqn:Hj'; try (by exfalso);
        try (exists j; split; [by right|]; unfold moves; by rewrite Hj'); apply Hsig; naive_solver.
Qed.

Lemma signal_none_live w n : world_live w → (∀ t, ¬ asleep w t) → live_inv (sch w) (runners w) n.
Proof.
  intros [Hb Hm] Ha. split; [done|]. intros Hq Hl. destruct (Hm Hq Hl) as (i & Hi & Hmv). exists i. split; [done|]. unfold moves in *.
  destruct (run_at i) eqn:Hpc; try done. apply list_elem_of_lookup in Hi as [t Ht]. by destruct (Ha t); exists i.
Qed.

Lemma init_live s l n (r := init_task s) : live_inv s l n → live_inv r.1 l (signals_after r.2 n).
Proof.
  intros Hl. unfold r, init_task. destruct (negb (shutdown_ s) && negb (task_ s)) eqn:E; [|done]. apply wake_one_live.
  destruct Hl as [[H1 H2 H3 H4] _]. apply andb_true_iff in E as [_ E]. destruct (task_ s); [done|]. split; simpl; try done.
  rewrite count_task_app. change (count_task [task_operation_]) with 1. lia.
Qed.

Lemma push_live s l ops n (r := wake_one_thread_and_unlock (set_queue (op_queue_ s ++ (ready <$> (completion <$> ops))) s)) :
  live_inv s l n → live_inv r.1 l (signals_after r.2 n).
Proof.
  intros [[H1 H2 H3 H4] _]. apply wake_one_live. split; simpl; try done. rewrite count_task_app, count_task_ready. lia.
Qed.

(** The reactor comes back: the thread has it still in hand. *)
Lemma reactor_returns_live t ds ops rest noticed w w' :
  world_live w → reactor_returns t ds ops rest noticed w = Some w' → world_live w'.
Proof.
  intros Hw Hs. unfold reactor_returns in Hs. destruct (runners w !! t) as [i|] eqn:Hi; [|done]. simpl in Hs.
  destruct (select_runner _ _ _ Hi) as (l & Hp & Hins). destruct Hw as [Hb _]. rewrite Hp in Hb.
  destruct (run_at i) eqn:Hpc; simplify_eq. unfold world_live. simpl. rewrite Hins. destruct Hb as [H1 H2 H3 H4].
  rewrite count_pc_cons, Hpc in H1, H2. simpl in H1, H2.
  assert (count_pc has_task l = 0) as Hc by (destruct (task_ (sch w)); lia).
  assert (∀ j, j ∈ l → run_at j ≠ run_task true) as Hno.
  { intros j Hj E. destruct (count_pc_elem has_task j l Hj); [by rewrite E|done]. }
  split; [split; simpl|].
  - by rewrite count_pc_cons.
  - by rewrite count_pc_cons.
  - intros j [->|Hj]%elem_of_cons E; [done|]. by destruct (Hno j Hj).
  - intros Hs. destruct (H4 Hs) as [? Hx]. split; [done|]. intros j [->|Hj]%elem_of_cons; [done|]. split; [apply Hx; by right|].
    intros E. by destruct (Hno j Hj).
  - intros _ _. eexists. split; [by left|]. done.
Qed.

Lemma sched_step_live w w' : world_live w → sched_step one_thread_ w w' → world_live w'.
Proof.
  intros Hw Hs. pose proof Hw as [Hb Hm]. destruct Hs.
  - unfold world_live. simpl. rewrite <- Permutation_cons_append. by apply awake_live.
  - by eapply runner_step_live.
  - unfold handler_returns in *. destruct (runners w !! t) as [i|] eqn:Hi; [|done]. simpl in *. destruct (run_at i) eqn:Hpc; simplify_eq.
    eapply handler_live; [done..|by rewrite Hpc|by rewrite Hpc| | |done|done]; simpl; by case_decide.
  - by eapply reactor_returns_live.
  - unfold perform_io in *. destruct (runners w !! t) as [i|] eqn:Hi; [|done]. simpl in *. destruct (run_at i) eqn:Hpc; simplify_eq.
    eapply handler_live; [done..|by rewrite Hpc|by rewrite Hpc| | |done|done]; done.
  - by apply init_live.
  - done.
  - by apply push_live.
  - unfold post_private in *. destruct (runners w !! t) as [i|] eqn:Hi; [|done]. simpl in *.
    destruct (run_at i) as [| | | | | | | | |[]| | |] eqn:Hpc; simplify_eq.
    destruct (one_thread_ || c); simplify_eq. eapply handler_live; [done..|by rewrite Hpc|by rewrite Hpc| | |done|done]; done.
  - done.
  - done.
  - unfold defer_private in *. destruct (runners w !! t) as [i|] eqn:Hi; [|done]. simpl in *.
    destruct (run_at i) as [| | | | | | | | |[]| | |] eqn:Hpc; simplify_eq.
    destruct one_thread_; simplify_eq. eapply handler_live; [done..|by rewrite Hpc|by rewrite Hpc| | |done|done]; done.
  - done.
  - unfold drop_guard in *. destruct (guards w); by simplify_eq.
  - unfold world_live, stop. simpl. by apply stop_live.
  - unfold due_stop in *. destruct (stops w); simplify_eq. unfold world_live, stop. simpl. by apply stop_live.
  - unfold world_live, restart. simpl. split; [|done]. by destruct Hb; split.
  - unfold due_signal in *. destruct (signals w) as [|n] eqn:Hn; simplify_eq. unfold world_live, wake_thread. simpl.
    apply wake_thread_live; [done..|]. lia.
  - unfold due_signal in *. destruct (signals w) as [|n] eqn:Hn; simplify_eq. unfold world_live. simpl. by apply signal_none_live.
  - unfold world_live, wake_thread. simpl. apply wake_thread_live; [done..|]. lia.
  - assert (∀ i, i ∈ runners w → run_at i = run_returned) as Hret by (intros i (t & Ht)%list_elem_of_lookup; eauto).
    split; [|done]. destruct Hb as [H1 H2 H3 H4]. split; simpl; [done| | |].
    + destruct (count_pc has_task (runners w)) eqn:E; [done|]. destruct (count_pc_exists has_task (runners w)) as (i & Hi & Hp); [lia|].
      by rewrite (Hret i Hi) in Hp.
    + intros i Hi Hp. by rewrite (Hret i Hi) in Hp.
    + intros Hs. destruct (H4 Hs) as [? Hx]. split; [done|]. intros i Hi. by rewrite (Hret i Hi).
Qed.

Lemma reachable_live w : sched_reachable one_thread_ w → world_live w.
Proof.
  revert w. apply reachable_inv; [intros w <-; split; [split; simpl|]; [done|done|by intros i []%elem_of_nil|done|done]|].
  apply sched_step_live.
Qed.
End steps.

(** ** Operations and work *)

Definition held (i : thread_info) : list nat :=
  (match run_at i with run_handler op => option_list op | _ => [] end) ++ omap op_of (private_op_queue i).
Definition sum_runners (f : thread_info → Z) (l : list thread_info) : Z := foldr (λ i n, f i + n)%Z 0%Z l.
Definition running (i : thread_info) : Z := match run_at i with run_handler _ => 1 | _ => 0 end.
Definition thread_work (i : thread_info) : Z := (running i + Z.of_nat (length (omap op_of (private_op_queue i))) - private_outstanding_work i)%Z.

(** The count of a thread is for operations of its own queue, and is made good before
    the thread leaves the handler. *)
Definition private_ok (i : thread_info) : Prop :=
  match run_at i with
  | run_handler (Some _) => (0 ≤ private_outstanding_work i ≤ Z.of_nat (length (omap op_of (private_op_queue i))))%Z
  | run_handler None => private_outstanding_work i = 1%Z ∧ private_op_queue i = []
  | run_task_cleanup | run_task_locking | run_stop | run_cleanup => private_outstanding_work i = 0%Z
  | _ => private_outstanding_work i = 0%Z ∧ private_op_queue i = []
  end.

(** Every operation is in one place, and [outstanding_work_] counts those that are not
    complete, and the guards; for a queue and threads. *)
Record work_rel (w : world) (q : list operation) (l : list thread_info) : Prop := WorkRel {
  wi_ops : started w ≡ₚ posting w ++ completions q ++ (l ≫= held) ++ in_reactor w ++ completed w ++ destroyed w;
  wi_distinct : NoDup (started w);
  wi_work : outstanding_work_ w = (Z.of_nat (guards w + length (posting w) + length (completions q) + length (in_reactor w) +
    length (destroyed w)) + sum_runners thread_work l)%Z;
  wi_private : ∀ i, i ∈ l → private_ok i }.
Definition work_inv (w : world) : Prop := work_rel w (op_queue_ (sch w)) (runners w).

#[global] Instance sum_runners_proper f : Proper ((≡ₚ) ==> eq) (sum_runners f).
Proof. intros l l' Hl. induction Hl; simpl; lia. Qed.
#[global] Instance work_rel_proper w q : Proper ((≡ₚ) ==> iff) (work_rel w q).
Proof.
  assert (∀ l l', l ≡ₚ l' → work_rel w q l → work_rel w q l') as H; [|intros l l' Hl; split; by apply H].
  intros l l' Hl [H1 H2 H3 H4]. split; [|done| |]; [by rewrite <- Hl..|]. intros i. rewrite <- Hl. apply H4.
Qed.

Definition turn_op (tn : turn) : list nat := match tn with turn_complete op => [op] | _ => [] end.

Section work.
Context (one_thread_ : bool).

Lemma wake_one_queue s : op_queue_ (wake_one_thread_and_unlock s).1 = op_queue_ s.
Proof. unfold wake_one_thread_and_unlock, maybe_unlock_and_signal_one, interrupt_task. simpl. by repeat case_match. Qed.

Lemma front_queue tn more s (r := run_front one_thread_ tn more s) : op_queue_ r.1.2 = op_queue_ s ∧ r.1.1 = tn.
Proof.
  unfold r, run_front. destruct (more && negb one_thread_); [|done]. pose proof (wake_one_queue s). by destruct (wake_one_thread_and_unlock s).
Qed.

Lemma turn_queue s (r := do_run_one one_thread_ s) : completions (op_queue_ s) = turn_op r.1.1 ++ completions (op_queue_ r.1.2).
Proof.
  unfold r, do_run_one. destruct (stopped_ s); [done|]. destruct (op_queue_ s) as [|[|[]] ops] eqn:Hq.
  - case_match; simpl; by rewrite Hq.
  - unfold run_reactor, maybe_unlock_and_signal_one. by destruct (_ && _).
  - match goal with |- context [run_front _ ?tn ?m ?x] => destruct (front_queue tn m x) as [-> ->] end. done.
  - match goal with |- context [run_front _ ?tn ?m ?x] => destruct (front_queue tn m x) as [-> ->] end. done.
Qed.

Lemma take_turn_work t i rest s w :
  (∀ j, <[t := j]> (runners w) ≡ₚ j :: rest) → private_op_queue i = [] → private_outstanding_work i = 0%Z →
  work_rel w (op_queue_ s) rest → work_inv (take_turn t i (do_run_one one_thread_ s) w).
Proof.
  intros Hl Hq Hp [H1 H2 H3 H4]. pose proof (turn_queue s) as Ht. unfold work_inv, take_turn. destruct (do_run_one one_thread_ s) as [[tn s'] b].
  simpl in *. rewrite Hl. rewrite Ht in H1, H3. rewrite length_app in H3.
  assert (held (at_pc (pc_of_turn tn) i) = turn_op tn) as Eh by (unfold held; simpl; rewrite Hq; by destruct tn).
  assert (thread_work (at_pc (pc_of_turn tn) i) = Z.of_nat (length (turn_op tn))) as Ew.
  { unfold thread_work, running. simpl. rewrite Hq, Hp. by destruct tn. }
  split; simpl; [| |rewrite Ew; lia|].
  - csimpl. rewrite Eh, H1. solve_Permutation.
  - done.
  - intros j [->|Hj]%elem_of_cons; [|by apply H4]. unfold private_ok. simpl. rewrite Hq, Hp. destruct tn; simpl; try done; lia.
Qed.

Lemma completions_app q q' : completions (q ++ q') = completions q ++ completions q'.
Proof. apply omap_app. Qed.
Lemma completions_ready q : completions (ready <$> q) = omap op_of q.
Proof. induction q as [|o q IH]; [done|]. csimpl. unfold completions in *. csimpl. by rewrite IH. Qed.
Lemma ops_of_completions (ops : list nat) : omap op_of (completion <$> ops) = ops.
Proof. induction ops as [|o q IH]; [done|]. csimpl. by rewrite IH. Qed.
Lemma ops_of_descriptors (ds : list nat) : omap op_of (descriptor <$> ds) = [].
Proof. by induction ds. Qed.

(** A thread with nothing in hand but its queue, which it is about to push. *)
Lemma work_push w q i rest extra :
  work_rel w q (i :: rest) → running i = 0%Z → private_outstanding_work i = 0%Z → completions extra = [] →
  work_rel w (q ++ (ready <$> private_op_queue i) ++ extra) rest.
Proof.
  intros [H1 H2 H3 H4] Hr Hp He. split; [|done| |].
  - rewrite H1. csimpl. rewrite !completions_app, He, completions_ready. unfold held at 1. unfold running in Hr.
    destruct (run_at i); try done; simpl; solve_Permutation.
  - rewrite !completions_app, He, completions_ready, !length_app, H3. simpl. unfold thread_work at 1. rewrite Hr, Hp. simpl. lia.
  - intros j Hj. apply H4. by right.
Qed.
Lemma work_drop w q i rest :
  work_rel w q (i :: rest) → running i = 0%Z → private_outstanding_work i = 0%Z → private_op_queue i = [] → work_rel w q rest.
Proof.
  intros Hw Hr Hp Hq. pose proof (work_push w q i rest [] Hw Hr Hp eq_refl) as Hx. rewrite Hq in Hx. simpl in Hx. by rewrite app_nil_r in Hx.
Qed.

(** A thread moves on with what it has in hand. *)
Lemma work_swap w w' q i i' rest :
  work_rel w q (i :: rest) → held i' = held i → thread_work i' = thread_work i → private_ok i' →
  posting w' = posting w → in_reactor w' = in_reactor w → completed w' = completed w → destroyed w' = destroyed w →
  started w' = started w → guards w' = guards w → outstanding_work_ w' = outstanding_work_ w → work_rel w' q (i' :: rest).
Proof.
  intros [H1 H2 H3 H4] Hh Ht Hp E1 E2 E3 E4 E5 E6 E7. split.
  - by rewrite E1, E2, E3, E4, E5, H1, !bind_cons, Hh.
  - by rewrite E5.
  - rewrite E1, E2, E4, E6, E7, H3. simpl. by rewrite Ht.
  - intros j [->|Hj]%elem_of_cons; [done|]. apply H4. by right.
Qed.

Lemma held_wake i : held (wake i) = held i ∧ thread_work (wake i) = thread_work i ∧ (private_ok i → private_ok (wake i)).
Proof.
  unfold held, thread_work, running, private_ok, wake, at_pc. destruct (run_at i) eqn:E; simpl; rewrite ?E; split_and!; try done.
Qed.
Lemma stop_work w : work_inv w → work_inv (stop w).
Proof.
  intros [H1 H2 H3 H4]. assert (op_queue_ (stop_all_threads (sch w)) = op_queue_ (sch w)) as Eq.
  { unfold stop_all_threads, interrupt_task. simpl. by destruct (_ && _). }
  unfold work_inv, stop. simpl. rewrite Eq. split; simpl.
  - rewrite H1. assert ((wake <$> runners w) ≫= held = runners w ≫= held) as ->; [|done].
    clear. induction (runners w) as [|i l IH]; [done|]. csimpl. rewrite IH. by destruct (held_wake i) as (-> & _).
  - done.
  - rewrite H3. assert (sum_runners thread_work (wake <$> runners w) = sum_runners thread_work (runners w)) as ->; [|done].
    clear. induction (runners w) as [|i l IH]; [done|]. csimpl. rewrite IH. by destruct (held_wake i) as (_ & -> & _).
  - intros i (j & -> & Hj)%list_elem_of_fmap. apply held_wake. by apply H4.
Qed.

Lemma stop_then_work t i i' w :
  work_inv w → runners w !! t = Some i → run_at i ≠ run_asleep → held i' = held i → thread_work i' = thread_work i → private_ok i' →
  work_inv (set_runner t i' (stop w)).
Proof.
  intros Hw%stop_work Hi Ha Hh Ht Hp. assert (runners (stop w) !! t = Some i) as Hi'.
  { simpl. rewrite list_lookup_fmap, Hi. simpl. unfold wake. by destruct (run_at i). }
  destruct (select_runner _ _ _ Hi') as (rest & Hl & Hins). unfold work_inv in *. rewrite Hl in Hw.
  change (runners (set_runner t i' (stop w))) with (<[t := i']> (runners (stop w))). rewrite Hins. by eapply work_swap.
Qed.

Lemma runner_step_work t w w' : work_inv w → runner_step one_thread_ t w = Some w' → work_inv w'.
Proof.
  intros Hw Hs. unfold runner_step, count_private_work, return_task, return_private_queue in Hs. destruct (runners w !! t) as [i|] eqn:Hi; [|done]. simpl in Hs.
  destruct (select_runner _ _ _ Hi) as (rest & Hl & Hins). pose proof (wi_private _ _ _ Hw i) as Hp.
  rewrite list_elem_of_lookup in Hp. specialize (Hp (ex_intro _ t Hi)).
  assert (work_rel w (op_queue_ (sch w)) (i :: rest)) as Hwi by by rewrite <- Hl.
  assert (∀ n, running i = n → n = match run_at i with run_handler _ => 1%Z | _ => 0%Z end) as Hrun by by intros n <-.
  destruct (run_at i) eqn:Hpc; simplify_eq; unfold private_ok in Hp; rewrite Hpc in Hp.
  - unfold work_inv. simpl. rewrite Hins. destruct Hp as [Hp1 Hp2].
    eapply work_swap; [done|..]; try done; unfold held, thread_work, running, private_ok; simpl; rewrite ?Hpc; case_decide; done.
  - destruct Hp as [Hp1 Hp2]. eapply stop_then_work; [done..| | | |]; try done;
      unfold held, thread_work, running, private_ok; simpl; rewrite ?Hpc; done.
  - destruct Hp as [Hp1 Hp2]. eapply take_turn_work; [done..|]. eapply work_drop; [done| |done..]. unfold running. by rewrite Hpc.
  - destruct Hp as [Hp1 Hp2]. unfold wait_resumed. destruct (event_is_signalled _).
    + eapply take_turn_work; [done..|]. simpl. eapply work_drop; [done| |done..]. unfold running. by rewrite Hpc.
    + unfold work_inv, take_turn. simpl. rewrite Hins. eapply work_swap; [done|..]; try done;
        unfold held, thread_work, running, private_ok; simpl; rewrite ?Hpc; done.
  - unfold work_inv. simpl. rewrite Hins. rewrite Hp. eapply work_swap; [done|..]; try done;
      unfold held, thread_work, running, private_ok; simpl; rewrite ?Hpc, ?Hp; done.
  - eapply take_turn_work; [done|done|done|]. simpl. eapply work_push; [done| |done..]. unfold running. by rewrite Hpc.
  - eapply stop_then_work; [done..| | | |]; try done; unfold held, thread_work, running, private_ok; simpl; rewrite ?Hpc, ?Hp; done.
  - eapply take_turn_work; [done|done|done|]. simpl. rewrite <- (app_nil_r (ready <$> _)). eapply work_push; [done| |done..]. unfold running. by rewrite Hpc.
Qed.

(** What threads have in hand, with the thread of a step in front. *)
Ltac select_step t Hw :=
  match goal with
  | H : context [runners ?w !! t] |- _ =>
      let i := fresh "i" in let Hi := fresh "Hi" in
      destruct (runners w !! t) as [i|] eqn:Hi; [|done];
      let rest := fresh "others" in let Hl := fresh "Hl" in let Hins := fresh "Hins" in
      destruct (select_runner _ _ _ Hi) as (rest & Hl & Hins);
      unfold work_inv in Hw |- *; rewrite Hl in Hw; simpl in H;
      destruct (run_at i) as [| | | | | | | | |[]| | |] eqn:Hpc; simplify_eq; simpl; try rewrite Hins
  end.

Lemma handler_returns_work t w w' : work_inv w → handler_returns t w = Some w' → work_inv w'.
Proof.
  intros Hw Hs. unfold handler_returns in Hs. select_step t Hw; destruct Hw as [H1 H2 H3 H4];
    pose proof (H4 i (list_elem_of_here _ _)) as Hp; unfold private_ok in Hp; rewrite Hpc in Hp; rewrite bind_cons in H1; simpl in H1, H3;
    unfold held at 1 in H1; unfold thread_work at 1, running in H3; rewrite Hpc in H1, H3; (split; simpl;
    [ rewrite H1; csimpl; unfold held at 3; simpl; destruct (decide _); simpl; solve_Permutation
    | done
    | unfold thread_work at 1, running; simpl; repeat case_decide; simpl; lia
    | intros j [->|Hj]%elem_of_cons; [unfold private_ok; simpl; by case_decide|apply H4; by right] ]).
Qed.

Lemma reactor_returns_work t ds ops rest noticed w w' :
  work_inv w → in_reactor w ≡ₚ ops ++ rest → reactor_returns t ds ops rest noticed w = Some w' → work_inv w'.
Proof.
  intros Hw Hr Hs. unfold reactor_returns in Hs. select_step t Hw. destruct Hw as [H1 H2 H3 H4].
  pose proof (H4 i (list_elem_of_here _ _)) as Hp. unfold private_ok in Hp. rewrite Hpc in Hp. destruct Hp as [Hp1 Hp2].
  rewrite bind_cons in H1. simpl in H1, H3. unfold held at 1 in H1. unfold thread_work at 1, running in H3. rewrite Hpc, Hp2, ?Hp1 in H1, H3.
  rewrite Hr in H1, H3. rewrite length_app in H3. simpl in H1, H3. split; simpl.
  - rewrite H1. csimpl. unfold held at 2. simpl. rewrite Hp2. simpl. rewrite omap_app, ops_of_descriptors, ops_of_completions. simpl. solve_Permutation.
  - done.
  - unfold thread_work at 1, running. simpl. rewrite Hp1, Hp2. simpl. rewrite omap_app, ops_of_descriptors, ops_of_completions. simpl. lia.
  - intros j [->|Hj]%elem_of_cons; [|apply H4; by right]. done.
Qed.

Lemma perform_io_work t ops rest w w' :
  work_inv w → in_reactor w ≡ₚ ops ++ rest → perform_io one_thread_ t ops rest w = Some w' → work_inv w'.
Proof.
  intros Hw Hr Hs. unfold perform_io in Hs. select_step t Hw. destruct Hw as [H1 H2 H3 H4].
  pose proof (H4 i (list_elem_of_here _ _)) as Hp. unfold private_ok in Hp. rewrite Hpc in Hp. destruct Hp as [Hp1 Hp2].
  rewrite bind_cons in H1. simpl in H1, H3. unfold held at 1 in H1. unfold thread_work at 1, running in H3. rewrite Hpc, Hp2, ?Hp1 in H1, H3.
  rewrite Hr in H1, H3. rewrite length_app in H3. simpl in H1, H3. split; simpl.
  - rewrite H1. csimpl. unfold held at 2. simpl. rewrite Hp2.
    destruct ops as [|o ops], one_thread_; simpl; rewrite ?ops_of_completions; simpl; solve_Permutation.
  - done.
  - unfold thread_work at 1, running. simpl. rewrite Hp1, Hp2. simpl.
    destruct ops as [|o ops], one_thread_; simpl in *; rewrite ?ops_of_completions, ?length_app; simpl; lia.
  - intros j [->|Hj]%elem_of_cons; [|apply H4; by right]. unfold private_ok. simpl. rewrite Hp1, Hp2.
    destruct ops, one_thread_; simpl; first [lia|by split].
Qed.

Lemma post_private_work t op c w w' :
  work_inv w → op ∉ started w → post_private one_thread_ t op c w = Some w' → work_inv w'.
Proof.
  intros Hw Ho Hs. unfold post_private in Hs. select_step t Hw. destruct (one_thread_ || c); simplify_eq. simpl. rewrite Hins.
  destruct Hw as [H1 H2 H3 H4].
  pose proof (H4 i (list_elem_of_here _ _)) as Hp. unfold private_ok in Hp. rewrite Hpc in Hp. rewrite bind_cons in H1. simpl in H1, H3.
  unfold held at 1 in H1. unfold thread_work at 1, running in H3. rewrite Hpc in H1, H3. split; simpl.
  - rewrite H1. csimpl. unfold held at 2. simpl. rewrite omap_app. simpl. solve_Permutation.
  - by constructor.
  - unfold thread_work at 1, running. simpl. rewrite omap_app, length_app. simpl. lia.
  - intros j [->|Hj]%elem_of_cons; [|apply H4; by right]. unfold private_ok. simpl. rewrite omap_app, length_app. simpl. lia.
Qed.

Lemma defer_private_work t ops rest w w' :
  work_inv w → in_reactor w ≡ₚ ops ++ rest → defer_private one_thread_ t ops rest w = Some w' → work_inv w'.
Proof.
  intros Hw Hr Hs. unfold defer_private in Hs. select_step t Hw. destruct one_thread_; simplify_eq. simpl. rewrite Hins.
  destruct Hw as [H1 H2 H3 H4].
  pose proof (H4 i (list_elem_of_here _ _)) as Hp. unfold private_ok in Hp. rewrite Hpc in Hp. rewrite bind_cons in H1. simpl in H1, H3.
  unfold held at 1 in H1. unfold thread_work at 1, running in H3. rewrite Hpc in H1, H3. rewrite Hr in H1, H3. rewrite length_app in H3. split; simpl.
  - rewrite H1. csimpl. unfold held at 2. simpl. rewrite omap_app, ops_of_completions. simpl. solve_Permutation.
  - done.
  - unfold thread_work at 1, running. simpl. rewrite omap_app, ops_of_completions, length_app. simpl. lia.
  - intros j [->|Hj]%elem_of_cons; [|apply H4; by right]. unfold private_ok. simpl. rewrite omap_app, ops_of_completions, length_app. lia.
Qed.

Lemma init_queue s : completions (op_queue_ (init_task s).1) = completions (op_queue_ s).
Proof.
  unfold init_task. destruct (_ && _); [|done]. rewrite wake_one_queue. simpl. rewrite completions_app. apply app_nil_r.
Qed.

Lemma wake_thread_work t w n : work_inv w → work_inv (wake_thread t (World (sch w) (outstanding_work_ w) (runners w) (posting w) n (stops w)
  (in_reactor w) (guards w) (completed w) (destroyed w) (started w))).
Proof.
  intros Hw. unfold work_inv, wake_thread. simpl. destruct (runners w !! t) as [i|] eqn:Hi.
  - destruct (select_runner _ _ _ Hi) as (rest & Hl & Hins).
    replace (alter wake t (runners w)) with (<[t := wake i]> (runners w)).
    2: { apply list_eq. intros j. rewrite list_insert_alter, !list_lookup_alter. case_decide; [by rewrite Hi|done]. }
    set (w1 := set_runners _ _). rewrite Hins. unfold work_inv in Hw. rewrite Hl in Hw. destruct (held_wake i) as (? & ? & Hp).
    eapply work_swap; [exact Hw|done|done| |done..]. apply Hp, (wi_private _ _ _ Hw). left.
  - assert (alter wake t (runners w) = runners w) as ->; [|by destruct Hw].
    apply list_eq. intros j. rewrite list_lookup_alter. case_decide; [subst; by rewrite Hi|done].
Qed.

Lemma sched_step_work w w' : work_inv w → sched_step one_thread_ w w' → work_inv w'.
Proof.
  intros Hw Hs. destruct Hs.
  - unfold work_inv in *. simpl. set (w1 := set_runners _ _). rewrite <- Permutation_cons_append. destruct Hw as [H1 H2 H3 H4]. split; simpl; [done|done|done|].
    intros j [->|Hj]%elem_of_cons; [done|]. by apply H4.
  - by eapply runner_step_work.
  - by eapply handler_returns_work.
  - by eapply reactor_returns_work.
  - by eapply perform_io_work.
  - destruct Hw as [H1 H2 H3 H4]. unfold work_inv. simpl. split; simpl; rewrite ?init_queue; done.
  - destruct Hw as [H1 H2 H3 H4]. unfold work_inv. simpl. split; simpl; [by rewrite H1|by constructor|lia|done].
  - destruct Hw as [H1 H2 H3 H4]. unfold work_inv. simpl. rewrite H in H1, H3. rewrite length_app in H3.
    split; simpl; rewrite ?wake_one_queue; simpl; rewrite ?completions_app, ?completions_ready, ?ops_of_completions, ?length_app; [|done|lia|done].
    rewrite H1. solve_Permutation.
  - by eapply post_private_work.
  - destruct Hw as [H1 H2 H3 H4]. unfold work_inv. simpl. split; simpl; [rewrite H1; solve_Permutation|by constructor|lia|done].
  - destruct Hw as [H1 H2 H3 H4]. unfold work_inv. simpl. rewrite H in H1, H3. rewrite length_app in H3.
    split; simpl; rewrite ?length_app; [|done|lia|done]. rewrite H1. solve_Permutation.
  - by eapply defer_private_work.
  - destruct Hw as [H1 H2 H3 H4]. unfold work_inv. simpl. split; simpl; [done|done|lia|done].
  - unfold drop_guard in *. destruct Hw as [H1 H2 H3 H4]. destruct (guards w) eqn:Hg; simplify_eq. unfold work_inv. simpl.
    split; simpl; [done|done|lia|done].
  - by apply stop_work.
  - unfold due_stop in *. destruct (stops w); simplify_eq. apply stop_work. by destruct Hw.
  - by destruct Hw.
  - unfold due_signal in *. destruct (signals w); simplify_eq. by apply wake_thread_work.
  - unfold due_signal in *. destruct (signals w); simplify_eq. by destruct Hw.
  - replace w with (World (sch w) (outstanding_work_ w) (runners w) (posting w) (signals w) (stops w) (in_reactor w) (guards w) (completed w)
      (destroyed w) (started w)) by by destruct w. by apply wake_thread_work.
  - destruct Hw as [H1 H2 H3 H4]. unfold work_inv. simpl. split; simpl; [|done| |done].
    + rewrite H1. solve_Permutation.
    + rewrite !length_app. lia.
Qed.

Lemma reachable_work w : sched_reachable one_thread_ w → work_inv w.
Proof.
  revert w. apply reachable_inv; [intros w <-; split; simpl; [done|constructor|done|by intros i []%elem_of_nil]|]. apply sched_step_work.
Qed.

Lemma thread_work_spec i : private_ok i → (0 ≤ thread_work i)%Z ∧ (thread_work i = 0%Z → held i = []).
Proof.
  unfold private_ok, thread_work, running, held. destruct (run_at i) as [| | | | | | | | |[]| | |]; simpl; intros Hp;
    try (destruct Hp as [-> ->]; simpl; split; [lia|done]); try (rewrite Hp; split; [lia|]; intros Hz; apply length_zero_iff_nil; lia).
  split; lia.
Qed.

Lemma threads_work_spec l :
  (∀ i, i ∈ l → private_ok i) → (0 ≤ sum_runners thread_work l)%Z ∧ (sum_runners thread_work l = 0%Z → l ≫= held = []).
Proof.
  induction l as [|i l IH]; intros Hl; [done|]. destruct (thread_work_spec i) as [H1 H2]; [apply Hl; left|].
  destruct IH as [H3 H4]; [intros j Hj; apply Hl; by right|]. csimpl. split; [lia|]. intros Hz. rewrite H2, H4 by lia. done.
Qed.

(** ** Descriptors *)

(** The reactor is queued behind all descriptors that it has returned. *)
Definition tailed (q : list operation) : Prop :=
  ∀ k d, q !! k = Some (ready (descriptor d)) → ∃ k', k < k' ∧ q !! k' = Some task_operation_.
(** Only a thread that is about to queue the reactor has descriptors of its own. *)
Definition returns_task (pc : run_pc) : bool := match pc with run_task_cleanup | run_task_locking => true | _ => false end.
Definition no_descriptor (q : list ready_op) : Prop := ∀ d, descriptor d ∉ q.
Definition private_clean (i : thread_info) : Prop := returns_task (run_at i) = true ∨ no_descriptor (private_op_queue i).
Definition desc_inv (w : world) : Prop := tailed (op_queue_ (sch w)) ∧ ∀ t i, runners w !! t = Some i → private_clean i.

Lemma tailed_ready q l : tailed q → no_descriptor l → tailed (q ++ (ready <$> l)).
Proof.
  intros Hq Hl k d Hk. apply lookup_app_Some in Hk as [Hk|[_ Hk]].
  - destruct (Hq k d Hk) as (k' & Hlt & Hk'). exists k'. split; [done|]. by apply lookup_app_l_Some.
  - rewrite list_lookup_fmap in Hk. destruct (l !! _) as [o|] eqn:E; simplify_eq/=. destruct (Hl d). by eapply list_elem_of_lookup_2.
Qed.
Lemma tailed_task q : tailed (q ++ [task_operation_]).
Proof.
  intros k d Hk. apply lookup_app_Some in Hk as [Hk|[Hl Hk]].
  - exists (length q). split; [by eapply lookup_lt_Some|]. by rewrite lookup_app_r, Nat.sub_diag by done.
  - apply list_lookup_singleton_Some in Hk as [_ Hk]. done.
Qed.
Lemma tailed_tail o q : tailed (o :: q) → tailed q.
Proof. intros Hq k d Hk. destruct (Hq (S k) d Hk) as ([|k'] & Hlt & Hk'); [lia|]. exists k'. split; [lia|done]. Qed.
Lemma no_descriptor_completions ops : no_descriptor (completion <$> ops).
Proof. intros d (o & ? & _)%list_elem_of_fmap. done. Qed.
Lemma no_descriptor_app q q' : no_descriptor q → no_descriptor q' → no_descriptor (q ++ q').
Proof. intros H1 H2 d [|]%elem_of_app; [by eapply H1|by eapply H2]. Qed.

Lemma turn_tailed s (r := do_run_one one_thread_ s) : tailed (op_queue_ s) → tailed (op_queue_ r.1.2).
Proof.
  unfold r, do_run_one. destruct (stopped_ s); [done|]. intros Ht. destruct (op_queue_ s) as [|[|[]] ops] eqn:Hq.
  - case_match; simpl; by rewrite Hq.
  - apply tailed_tail in Ht. unfold run_reactor, maybe_unlock_and_signal_one. by destruct (_ && _).
  - apply tailed_tail in Ht. match goal with |- context [run_front _ ?tn ?m ?x] => destruct (front_queue tn m x) as [-> _] end. done.
  - apply tailed_tail in Ht. match goal with |- context [run_front _ ?tn ?m ?x] => destruct (front_queue tn m x) as [-> _] end. done.
Qed.

(** A thread changes, and the queue may. *)
Lemma desc_set t i w w' :
  desc_inv w → tailed (op_queue_ (sch w')) → runners w' = <[t := i]> (runners w) → private_clean i → desc_inv w'.
Proof.
  intros [_ Hr] Ht Hw' Hi. split; [done|]. intros u j Hj. rewrite Hw' in Hj. apply list_lookup_insert_Some in Hj as [(-> & -> & _)|[_ Hj]]; [done|].
  by eapply Hr.
Qed.
Lemma private_clean_at pc i : private_clean i → returns_task (run_at i) = false → private_clean (at_pc pc i).
Proof. intros [?|?] Hn; [congruence|by right]. Qed.
Lemma stop_desc w : desc_inv w → desc_inv (stop w).
Proof.
  intros [Ht Hr]. split.
  - simpl. unfold stop_all_threads, interrupt_task. by case_match.
  - simpl. intros t i Hi. rewrite list_lookup_fmap in Hi. destruct (runners w !! t) as [j|] eqn:Hj; simplify_eq/=. specialize (Hr t j Hj).
    unfold wake. case_match eqn:E; [done|done|done| |done..]. apply private_clean_at; [done|by rewrite E].
Qed.

Lemma runner_step_desc t w w' : desc_inv w → runner_step one_thread_ t w = Some w' → desc_inv w'.
Proof.
  intros Hw Hs. pose proof Hw as [Ht Hr]. unfold runner_step in Hs. destruct (runners w !! t) as [i|] eqn:Hi; [|done]. simpl in Hs.
  specialize (Hr t i Hi). assert (∀ pc, returns_task (run_at i) = false → private_clean (at_pc pc i)) as Hat by (intros; by apply private_clean_at).
  destruct (run_at i) eqn:Hpc; simplify_eq.
  - eapply desc_set; [done|done|done|auto].
  - eapply desc_set; [by apply stop_desc|apply (stop_desc w Hw)|done|auto].
  - eapply desc_set; [done|by apply turn_tailed|done|auto].
  - eapply desc_set; [done| |done|auto]. unfold wait_resumed. case_match; [by apply turn_tailed|done].
  - eapply desc_set; [done|done|done|by left].
  - eapply desc_set; [done| |done|]; [|right; by intros d []%not_elem_of_nil]. apply turn_tailed. simpl. rewrite (assoc (++)). apply tailed_task.
  - eapply desc_set; [by apply stop_desc|apply (stop_desc w Hw)|done|auto].
  - eapply desc_set; [done| |done|]; [|right; by intros d []%not_elem_of_nil]. apply turn_tailed. simpl. apply tailed_ready; [done|].
    destruct Hr as [Hr|Hr]; [by rewrite Hpc in Hr|done].
Qed.

(** A step of the thread that is at [pc], which has no descriptors of its own. *)
Lemma desc_private t i i' l w w' :
  desc_inv w → runners w !! t = Some i → returns_task (run_at i) = false → op_queue_ (sch w') = op_queue_ (sch w) →
  runners w' = <[t := i']> (runners w) → private_op_queue i' = private_op_queue i ++ (completion <$> l) → desc_inv w'.
Proof.
  intros Hw Hi Hpc Hq Hr Hp. eapply desc_set; [done|rewrite Hq; apply Hw|done|]. right. rewrite Hp. apply no_descriptor_app; [|apply no_descriptor_completions].
  destruct (proj2 Hw t i Hi) as [?|?]; [congruence|done].
Qed.

(** Looks up the thread of a step, which is a definition on its place in [run]. *)
Ltac find_thread t :=
  match goal with
  | H : _ ≫= _ = Some _ |- _ => apply bind_Some in H as (?i & ?Hi & H)
  end; destruct (run_at _) eqn:?Hpc; simplify_eq.

Lemma wake_thread_desc t w : desc_inv w → desc_inv (wake_thread t w).
Proof.
  intros [Ht Hr]. split; [done|]. simpl. intros u i Hi. rewrite list_lookup_alter in Hi. case_decide; [|by eapply Hr].
  subst u. destruct (runners w !! t) as [j|] eqn:Hj; simplify_eq/=. specialize (Hr t j Hj).
  unfold wake. case_match eqn:E; try done. apply private_clean_at; [done|by rewrite E].
Qed.

Lemma sched_step_desc w w' : desc_inv w → sched_step one_thread_ w w' → desc_inv w'.
Proof.
  intros Hw Hs. destruct Hs.
  - split; [apply Hw|]. simpl. intros t i [Hi|[_ Hi]]%lookup_app_Some; [by eapply Hw|]. apply list_lookup_singleton_Some in Hi as [_ <-].
    right. by intros d []%not_elem_of_nil.
  - by eapply runner_step_desc.
  - unfold handler_returns in *. find_thread t. eapply (desc_private t _ _ []); [done..|by rewrite Hpc|done|done|]. simpl. by rewrite app_nil_r.
  - unfold reactor_returns in *. find_thread t. eapply desc_set; [done|apply Hw|done|by left].
  - unfold perform_io in *. find_thread t. eapply (desc_private t _ _ (if one_thread_ then tail ops else [])); [done..|by rewrite Hpc|done|done|]. simpl.
    by destruct one_thread_.
  - split; [|apply Hw]. simpl. unfold init_task. case_match; [rewrite wake_one_queue; apply tailed_task|apply Hw].
  - done.
  - split; [|apply Hw]. simpl. rewrite wake_one_queue. apply tailed_ready; [apply Hw|apply no_descriptor_completions].
  - unfold post_private in *. find_thread t. destruct op0; [|done]. destruct (one_thread_ || c); simplify_eq.
    eapply (desc_private t _ _ [op]); [done..|by rewrite Hpc|done|done|done].
  - done.
  - done.
  - unfold defer_private in *. find_thread t. destruct op; [|done]. destruct one_thread_; simplify_eq.
    eapply (desc_private t _ _ ops); [done..|by rewrite Hpc|done|done|done].
  - done.
  - unfold drop_guard in *. by case_match; simplify_eq.
  - by apply stop_desc.
  - unfold due_stop in *. case_match; simplify_eq. by apply stop_desc.
  - done.
  - unfold due_signal in *. case_match; simplify_eq. by apply wake_thread_desc.
  - unfold due_signal in *. by case_match; simplify_eq.
  - by apply wake_thread_desc.
  - split; [|apply Hw]. by intros k d.
Qed.

Lemma reachable_desc w : sched_reachable one_thread_ w → desc_inv w.
Proof. revert w. apply reachable_inv; [|apply sched_step_desc]. intros w <-. split; [by intros k d|by intros t i]. Qed.

Lemma count_task_elem q : task_operation_ ∈ q → count_task q ≠ 0.
Proof.
  induction q as [|o q IH]; intros Hin; [by apply not_elem_of_nil in Hin|]. rewrite count_task_cons.
  apply elem_of_cons in Hin as [<-|Hin]; [by rewrite decide_True|]. specialize (IH Hin). lia.
Qed.

(** ** Theorems *)

(** C22: Whatever threads run the scheduler, and whatever clients, handlers and the reactor
    post, each operation that was started is in exactly one place: about to be pushed,
    in the queue, with a thread, with the reactor, completed, or destroyed by a
    shutdown.  So it is completed at most once and never lost. *)
Theorem scheduler_conserves_ops w :
  sched_reachable one_thread_ w →
  let places := posting w ++ completions (op_queue_ (sch w)) ++ (runners w ≫= held) ++ in_reactor w ++ completed w ++ destroyed w in
  started w ≡ₚ places ∧ NoDup places.
Proof. intros [H1 H2 _ _]%reachable_work. split; [done|]. by rewrite <- H1. Qed.

(** The count of outstanding work is right, although threads keep parts of it to
    themselves: it is never negative, and when it is zero, which is when the scheduler
    stops itself, there is no work guard and every operation that was started is
    complete. *)
Theorem scheduler_counts_work w :
  sched_reachable one_thread_ w →
  (0 ≤ outstanding_work_ w)%Z ∧ (outstanding_work_ w = 0%Z → guards w = 0 ∧ started w ≡ₚ completed w).
Proof.
  intros [H1 H2 H3 H4]%reachable_work. destruct (threads_work_spec _ H4) as [Hn Hz]. split; [lia|]. intros E.
  assert (guards w = 0 ∧ length (posting w) = 0 ∧ length (completions (op_queue_ (sch w))) = 0 ∧ length (in_reactor w) = 0 ∧
    length (destroyed w) = 0) as (Hg & Hp%length_zero_iff_nil & Hq%length_zero_iff_nil & Hr%length_zero_iff_nil & Hd%length_zero_iff_nil) by lia.
  split; [done|]. rewrite H1, Hp, Hq, Hr, Hd, Hz by lia. simpl. by rewrite app_nil_r.
Qed.

(** C11: No wake-up is lost: when every thread in [run] sleeps on the event or blocks in
    the reactor without an interruption, and no [pthread_cond_signal] is due, the
    queue is empty and the scheduler is not stopped. *)
Theorem scheduler_no_lost_wakeup w :
  sched_reachable one_thread_ w → signals w = 0 →
  (∀ i, i ∈ runners w → run_at i = run_returned ∨ run_at i = run_asleep ∨ run_at i = run_task true ∧ interrupter_ (sch w) = false) →
  (∃ i, i ∈ runners w ∧ run_at i ≠ run_returned) →
  op_queue_ (sch w) = [] ∧ stopped_ (sch w) = false.
Proof.
  intros [Hb Hm]%reachable_live Hsig Hall Hex. split.
  - destruct (op_queue_ (sch w)) eqn:Hq; [done|]. destruct Hm as (i & Hi & Hmv); [done|done|]. exfalso. unfold moves in Hmv.
    destruct (Hall i Hi) as [E|[E|[E Hint]]]; rewrite E in Hmv; [done|destruct Hmv; congruence|congruence].
  - destruct (stopped_ (sch w)) eqn:Hs; [|done]. destruct (bi_stopped _ _ Hb Hs) as [_ Hx]. destruct Hex as (i & Hi & Hr).
    destruct (Hx i Hi) as [Ha Ht]. destruct (Hall i Hi) as [E|[E|[E Hint]]]; [done..|]. rewrite (Ht E) in Hint. done.
Qed.

(** A scheduler that is stopped lets its threads go: none of them sleeps, the reactor
    is interrupted, and a thread that gets the lock returns from [run]. *)
Theorem scheduler_stop_returns w t i :
  sched_reachable one_thread_ w → stopped_ (sch w) = true → runners w !! t = Some i →
  run_at i ≠ run_asleep ∧ (run_at i = run_task true → interrupter_ (sch w) = true) ∧
  (run_at i = run_locking ∨ run_at i = run_woken ∨ run_at i = run_cleanup ∨ run_at i = run_task_locking →
    ∃ w' i', runner_step one_thread_ t w = Some w' ∧ runners w' !! t = Some i' ∧ run_at i' = run_returned).
Proof.
  intros [Hb _]%reachable_live Hs Hi. destruct (bi_stopped _ _ Hb Hs) as [Hsig Hx].
  destruct (Hx i) as [Ha Ht]; [by eapply list_elem_of_lookup_2|]. split_and!; [done..|].
  assert (∀ s j, stopped_ s = true → ∃ i', runners (take_turn t j (do_run_one one_thread_ s) w) !! t = Some i' ∧ run_at i' = run_returned) as Hturn.
  { intros s j Hst. unfold do_run_one. rewrite Hst. exists (at_pc run_returned j). split; [|done]. simpl.
    apply list_lookup_insert_eq. by eapply lookup_lt_Some. }
  unfold runner_step, return_task, return_private_queue. rewrite Hi. simpl. intros [Hp|[Hp|[Hp|Hp]]]; rewrite Hp.
  - destruct (Hturn (sch w) i Hs) as (i' & ? & ?). eauto.
  - assert (count_pc waits (runners w) ≠ 0) as Hc by (eapply count_pc_elem; [by eapply list_elem_of_lookup_2|by rewrite Hp]).
    pose proof (bi_event _ _ Hb) as He. destruct (count_pc waits (runners w)) as [|n]; [done|].
    apply event_leave_rep, event_signalled_rep in He. unfold wait_resumed. rewrite He, Hsig.
    match goal with |- context [do_run_one _ ?s] => destruct (Hturn s i Hs) as (i' & ? & ?) end. eauto.
  - match goal with |- context [do_run_one _ ?s] => match goal with |- context [take_turn t ?j (do_run_one _ s)] => destruct (Hturn s j Hs) as (i' & ? & ?) end end. eauto.
  - match goal with |- context [do_run_one _ ?s] => match goal with |- context [take_turn t ?j (do_run_one _ s)] => destruct (Hturn s j Hs) as (i' & ? & ?) end end. eauto.
Qed.

(** When a thread is in the reactor, every descriptor that the reactor has returned has
    been taken from the queue: none is in the queue of the scheduler, nor in that of a
    thread.  So the reactor may set the events of a descriptor and queue it again. *)
Theorem reactor_runs_behind_descriptors w t i block :
  sched_reachable one_thread_ w → runners w !! t = Some i → run_at i = run_task block →
  (∀ d, ready (descriptor d) ∉ op_queue_ (sch w)) ∧ ∀ u j d, runners w !! u = Some j → descriptor d ∉ private_op_queue j.
Proof.
  intros Hw Hi Hpc. destruct (reachable_desc w Hw) as [Ht Hr]. destruct (reachable_live _ w Hw) as [Hb _]. pose proof (bi_task _ _ Hb) as Hn.
  destruct (select_runner _ _ _ Hi) as (rest & Hl & _). assert (count_pc has_task (runners w) = S (count_pc has_task rest)) as Hc.
  { unfold count_pc. rewrite Hl. fold (count_pc has_task (i :: rest)). rewrite count_pc_cons, Hpc. done. }
  split.
  - intros d Hd. apply list_elem_of_lookup in Hd as [k Hk]. destruct (Ht k d Hk) as (k' & _ & Hk').
    pose proof (count_task_elem _ (list_elem_of_lookup_2 _ _ _ Hk')). destruct (task_ (sch w)); lia.
  - intros u j d Hj. destruct (Hr u j Hj) as [Hret|Hno]; [|by apply Hno]. exfalso.
    assert (j ∈ rest) as Hin.
    { assert (j ∈ i :: rest) as [->|?]%elem_of_cons; [rewrite <- Hl; by eapply list_elem_of_lookup_2| |done]. by rewrite Hpc in Hret. }
    assert (count_pc has_task rest ≠ 0); [|destruct (task_ (sch w)); lia]. eapply count_pc_elem; [done|]. by destruct (run_at j).
Qed.
End work.

(** ** Witnesses *)

(** One step of thread [t], by whichever function it takes. *)
Definition advance (t : nat) (w : world) : world := default w (runner_step false t w).

Lemma advance_reachable t w :
  is_Some (runner_step false t w) → sched_reachable false w → sched_reachable false (advance t w).
Proof. intros [w' Hw'] Hw. unfold advance. rewrite Hw'. eapply reachable_step; [done|]. by eapply step_runner. Qed.

(** A work guard, the reactor, and two threads: one blocks in the reactor, the other
    sleeps on the event; then an operation is about to be pushed. *)
Definition two_idle : world :=
  let w := new_guard new_world in
  let w := set_sch (init_task (sch w)) w in
  let w := set_runners (runners w ++ [ThreadInfo run_entry [] 0 0]) w in
  let w := set_runners (runners w ++ [ThreadInfo run_entry [] 0 0]) w in
  advance 1 (advance 1 (advance 0 (advance 0 w))).

Lemma two_idle_reachable : sched_reachable false two_idle.
Proof.
  unfold two_idle. do 4 (apply advance_reachable; [by vm_compute; eexists|]).
  eapply reachable_step; [|by apply step_run]. eapply reachable_step; [|by apply step_run].
  eapply reachable_step; [|by apply step_init]. eapply reachable_step; [|by apply step_guard]. by apply reachable_init.
Qed.

Lemma scheduler_conserves_ops_witness :
  NoDup (let w := push_posted [7] [] (post_counted 7 two_idle) in
    posting w ++ completions (op_queue_ (sch w)) ++ (runners w ≫= held) ++ in_reactor w ++ completed w ++ destroyed w).
Proof.
  refine (proj2 (scheduler_conserves_ops false (push_posted [7] [] (post_counted 7 two_idle)) _)).
  eapply reachable_step; [|apply step_push; by vm_compute]. eapply reachable_step; [exact two_idle_reachable|]. apply step_post. by_decide.
Defined.

Lemma scheduler_counts_work_witness : (0 ≤ outstanding_work_ two_idle)%Z.
Proof. exact (proj1 (scheduler_counts_work false two_idle two_idle_reachable)). Defined.

Lemma scheduler_no_lost_wakeup_witness : op_queue_ (sch two_idle) = [] ∧ stopped_ (sch two_idle) = false.
Proof.
  apply (scheduler_no_lost_wakeup false two_idle two_idle_reachable); [vm_compute; reflexivity| |].
  - apply Forall_forall. vm_compute. apply Forall_cons_2; [right; right; split; reflexivity|].
    apply Forall_cons_2; [right; left; reflexivity|apply Forall_nil_2].
  - exists (ThreadInfo run_asleep [] 0 0). split; [|discriminate]. vm_compute. right. left.
Defined.

Lemma scheduler_stop_returns_witness : interrupter_ (sch (stop two_idle)) = true.
Proof.
  refine (proj1 (proj2 (scheduler_stop_returns false (stop two_idle) 0 (ThreadInfo (run_task true) [] 0 0) _ _ _)) _);
    [eapply reachable_step; [exact two_idle_reachable|apply step_stop]|vm_compute; reflexivity..].
Defined.

Lemma reactor_runs_behind_descriptors_witness : run_at <$> runners two_idle = [run_task true; run_asleep] ∧ ready (descriptor 0) ∉ op_queue_ (sch two_idle).
Proof.
  split; [vm_compute; reflexivity|].
  exact (proj1 (reactor_runs_behind_descriptors false two_idle 0 (ThreadInfo (run_task true) [] 0 0) true two_idle_reachable
    ltac:(vm_compute; reflexivity) ltac:(reflexivity)) 0).
Defined.
