(* ===== verification/AsioStreambuf.v ===== *)
(** * [basic_streambuf] of asio

    The buffer that [async_read_until] fills and an [std::istream] drains: a vector
    with a get area and a put area.  The end of the get area lags behind the put
    pointer and is brought up when it is needed; the contents are moved to the front
    of the vector when the put area is too small, and the vector grows up to
    [max_size_]. *)

From S2P Require Import Prelude Conc Text.
From Stdlib Require Import Ascii.
From stdpp Require Import options.

(** [gptr], [egptr], [pptr] and [epptr] as offsets into [buffer_]; [eback] is its start.
    [buffer_capacity] is the capacity of the vector. *)
Record streambuf : Type := Streambuf {
  max_size_ : Z;
  buffer_ : text;
  buffer_capacity : nat;
  gptr : nat;
  egptr : nat;
  pptr : nat;
  epptr : nat }.

Definition buffer_delta : nat := 128.
Definition int_max : Z := 2147483647.
(** [static_cast<int>] of a size *)
Definition to_int (n : Z) : Z := ((n + 2147483648) mod 4294967296 - 2147483648)%Z.

(** A vector grows to at least what is asked for; how much is left to the library. *)
Section streambuf.
Context (grow : nat → nat → nat).

Definition resized_capacity (capacity n : nat) : nat := if decide (n ≤ capacity) then capacity else grow capacity n.
Definition resize (n : nat) (b : text) : text := take n b ++ replicate (n - length b) zero.

Definition new_streambuf (maximum_size : Z) : streambuf :=
  let pend := Z.to_nat (Z.min maximum_size (Z.of_nat buffer_delta)) in
  let n := Nat.max pend 1 in
  Streambuf maximum_size (resize n []) (resized_capacity 0 n) 0 0 0 pend.

Definition sb_size (s : streambuf) : nat := pptr s - gptr s.
Definition sb_data (s : streambuf) : text := take (pptr s - gptr s) (drop (gptr s) (buffer_ s)).

Definition setg (g e : nat) (s : streambuf) : streambuf :=
  Streambuf (max_size_ s) (buffer_ s) (buffer_capacity s) g e (pptr s) (epptr s).
Definition setp (p e : nat) (s : streambuf) : streambuf :=
  Streambuf (max_size_ s) (buffer_ s) (buffer_capacity s) (gptr s) (egptr s) p e.

(** A pointer is moved by an [int]; it must stay in the vector. *)
Definition bump (p : nat) (n : Z) (s : streambuf) : option nat :=
  let q := (Z.of_nat p + to_int n)%Z in
  if decide (0 ≤ q ≤ Z.of_nat (length (buffer_ s)))%Z then Some (Z.to_nat q) else None.
Definition pbump (n : Z) : comp streambuf unit := λ s,
  match bump (pptr s) n s with Some p => Done tt (setp p (epptr s) s) | None => Fault out_of_bounds end.
Definition gbump (n : Z) : comp streambuf unit := λ s,
  match bump (gptr s) n s with Some g => Done tt (setg g (egptr s) s) | None => Fault out_of_bounds end.

(** [std::memmove] to the start of the vector. *)
Definition shift_down (gnext pnext : nat) (b : text) : text := take pnext (drop gnext b) ++ drop pnext b.

(** [false] if [std::length_error] is thrown. *)
Definition reserve (n : Z) : comp streambuf bool :=
  s ← get_state;
  let gnext := gptr s in
  let pend := epptr s in
  if decide (n ≤ Z.of_nat (pend - pptr s))%Z then mret true else
  let pnext := pptr s - gnext in
  let b := if decide (0 < gnext) then shift_down gnext pnext (buffer_ s) else buffer_ s in
  if decide (n ≤ Z.of_nat (pend - pnext))%Z then
    modify (λ s, Streambuf (max_size_ s) b (buffer_capacity s) 0 pnext pnext pend);; mret true
  else if decide (n ≤ max_size_ s ∧ Z.of_nat pnext ≤ max_size_ s - n)%Z then
    let pend := pnext + Z.to_nat n in
    modify (λ s, Streambuf (max_size_ s) (resize (Nat.max pend 1) b) (resized_capacity (buffer_capacity s) (Nat.max pend 1)) 0 pnext pnext pend);;
    mret true
  else
    modify (λ s, Streambuf (max_size_ s) b (buffer_capacity s) (gptr s) (egptr s) (pptr s) (epptr s));; mret false.

(** [prepare]: the caller gets [n] bytes from [pptr]; [write_prepared] is what a read
    puts there. *)
Definition prepare (n : Z) : comp streambuf bool := reserve n.
Definition write_prepared (d : text) : comp streambuf unit := λ s,
  if decide (pptr s + length d ≤ length (buffer_ s)) then
    Done tt (Streambuf (max_size_ s) (take (pptr s) (buffer_ s) ++ d ++ drop (pptr s + length d) (buffer_ s)) (buffer_capacity s)
               (gptr s) (egptr s) (pptr s) (epptr s))
  else Fault out_of_bounds.

Definition commit (n : Z) : comp streambuf unit :=
  s ← get_state;
  pbump (Z.min n (Z.of_nat (epptr s - pptr s)));;
  modify (λ s, setg (gptr s) (pptr s) s).

Definition consume (n : Z) : comp streambuf unit :=
  modify (λ s, if decide (egptr s < pptr s) then setg (gptr s) (pptr s) s else s);;
  s ← get_state;
  gbump (if decide (Z.of_nat (gptr s) + n > Z.of_nat (pptr s))%Z then Z.of_nat (pptr s - gptr s) else n).

Definition char_at (p : nat) : comp streambuf ascii := λ s,
  match buffer_ s !! p with Some c => Done c s | None => Fault out_of_bounds end.

Definition underflow : comp streambuf (option ascii) :=
  s ← get_state;
  if decide (gptr s < pptr s) then
    modify (λ s, setg (gptr s) (pptr s) s);; c ← char_at (gptr s); mret (Some c)
  else mret None.

(** [false] if [std::length_error] is thrown. *)
Definition overflow (c : ascii) : comp streambuf bool :=
  s ← get_state;
  ok ← (if decide (pptr s = epptr s) then
          let size := Z.of_nat (pptr s - gptr s) in
          if decide (size < max_size_ s ∧ max_size_ s - size < Z.of_nat buffer_delta)%Z
          then reserve (max_size_ s - size) else reserve (Z.of_nat buffer_delta)
        else mret true);
  if ok : bool then write_prepared [c];; pbump 1;; mret true else mret false.

(** [std::streambuf]: a character is taken from the get area, or by [underflow]; one is
    put into the put area, or by [overflow]. *)
Definition sgetc : comp streambuf (option ascii) :=
  s ← get_state;
  if decide (gptr s < egptr s) then c ← char_at (gptr s); mret (Some c) else underflow.
Definition sbumpc : comp streambuf (option ascii) :=
  c ← sgetc;
  match c with
  | Some c => gbump 1;; mret (Some c)
  | None => mret None
  end.
Definition sputc (c : ascii) : comp streambuf bool :=
  s ← get_state;
  if decide (pptr s < epptr s) then write_prepared [c];; pbump 1;; mret true else overflow c.

(** How reads fill the buffer: [commit(read(prepare(n)))], when [d] is read. *)
Definition fill (n : Z) (d : text) : comp streambuf bool :=
  ok ← prepare n;
  if ok : bool then write_prepared d;; commit (Z.of_nat (length d));; mret true else mret false.

(** [read_size_helper], and the size of the reads of [read_until]. *)
Definition read_size_helper (s : streambuf) (max_size : Z) : Z :=
  Z.min (Z.max 512 (Z.of_nat (buffer_capacity s) - Z.of_nat (sb_size s))) (Z.min max_size (max_size_ s - Z.of_nat (sb_size s))).

(** ** Invariant *)

Record streambuf_ok (s : streambuf) : Prop := StreambufOk {
  so_get : gptr s ≤ egptr s;
  so_end : egptr s ≤ pptr s;
  so_put : pptr s ≤ epptr s;
  so_length : length (buffer_ s) = Nat.max (epptr s) 1;
  so_max : (Z.of_nat (epptr s) ≤ max_size_ s)%Z;
  so_capacity : length (buffer_ s) ≤ buffer_capacity s }.


End streambuf.

Lemma to_int_small n : (0 ≤ n ≤ int_max)%Z → to_int n = n.
Proof. unfold to_int, int_max. intros. rewrite Z.mod_small; lia. Qed.

Lemma length_resize n b : length (resize n b) = n.
Proof. unfold resize. rewrite length_app, length_take, length_replicate. lia. Qed.

(** What is in a vector from [p] on, for [n] bytes. *)
Definition slice (p n : nat) (b : text) : text := take n (drop p b).

Lemma slice_shift g p b : g + p ≤ length b → slice 0 p (shift_down g p b) = slice g p b.
Proof.
  intros Hl. unfold slice, shift_down. rewrite drop_0, take_app_le by (rewrite length_take, length_drop; lia).
  rewrite take_take. by rewrite Nat.min_id.
Qed.
Lemma length_shift g p b : g + p ≤ length b → length (shift_down g p b) = length b.
Proof. intros Hl. unfold shift_down. rewrite length_app, length_take, !length_drop. lia. Qed.
Lemma slice_resize p n m b : p + n ≤ m → p + n ≤ length b → slice p n (resize m b) = slice p n b.
Proof.
  intros Hm Hl. unfold slice, resize. rewrite drop_app_le by (rewrite length_take; lia).
  rewrite take_app_le by (rewrite length_drop, length_take; lia).
  rewrite skipn_firstn_comm, take_take. f_equal. lia.
Qed.

Lemma nonblocking_pbump n : nonblocking (pbump n).
Proof. intros s. unfold pbump. by case_match. Qed.
Lemma nonblocking_gbump n : nonblocking (gbump n).
Proof. intros s. unfold gbump. by case_match. Qed.
Lemma nonblocking_write d : nonblocking (write_prepared d).
Proof. intros s. unfold write_prepared. by case_match. Qed.
Lemma nonblocking_char_at p : nonblocking (char_at p).
Proof. intros s. unfold char_at. by case_match. Qed.
#[export] Hint Resolve nonblocking_pbump nonblocking_gbump nonblocking_write nonblocking_char_at : ccpp.
Lemma nonblocking_reserve grow n : nonblocking (reserve grow n).
Proof. unfold reserve. solve_nonblocking. Qed.
#[export] Hint Resolve nonblocking_reserve : ccpp.

Section correct.
Context (grow : nat → nat → nat) (grow_enough : ∀ c n, n ≤ grow c n).

Lemma resized_enough c n : n ≤ resized_capacity grow c n.
Proof using grow_enough. unfold resized_capacity. case_decide; [done|]. apply grow_enough. Qed.

Lemma new_streambuf_ok mx : (0 ≤ mx)%Z → streambuf_ok (new_streambuf grow mx) ∧ sb_data (new_streambuf grow mx) = [].
Proof using grow_enough.
  intros Hm. unfold new_streambuf, sb_data. split; [|done]. split; cbn [gptr egptr pptr epptr buffer_ max_size_ buffer_capacity]; try lia.
  - apply length_resize.
  - rewrite length_resize. apply resized_enough.
Qed.


Lemma sb_data_slice s : sb_data s = slice (gptr s) (pptr s - gptr s) (buffer_ s).
Proof. done. Qed.
Lemma length_sb_data s : streambuf_ok s → length (sb_data s) = sb_size s.
Proof. intros [H1 H2 H3 H4 H5 H6]. unfold sb_data, sb_size. rewrite length_take, length_drop. lia. Qed.

(** There is room for [n] more bytes, and the input sequence has not changed. *)
Definition has_room (n : Z) (s s' : streambuf) : Prop :=
  streambuf_ok s' ∧ sb_data s' = sb_data s ∧ max_size_ s' = max_size_ s ∧ (n ≤ Z.of_nat (epptr s' - pptr s'))%Z.

(** The pointers have not moved; what they point to may have changed. *)
Definition still_ok (s s' : streambuf) : Prop := streambuf_ok s' ∧ sb_size s' = sb_size s ∧ max_size_ s' = max_size_ s.

Lemma reserve_spec s n :
  streambuf_ok s → (0 ≤ n)%Z →
  wp (reserve grow n) (λ ok s', if ok then has_room n s s'
                                 else (max_size_ s < Z.of_nat (sb_size s) + n)%Z ∧ (gptr s = 0 → s' = s) ∧ still_ok s s') s.
Proof using grow_enough.
  unfold has_room, still_ok. intros Hs Hn. pose proof Hs as [H1 H2 H3 H4 H5 H6]. apply wp_bind, wp_get. cbv zeta.
  destruct (decide (n ≤ Z.of_nat (epptr s - pptr s))%Z) as [D1|D1]; [apply wp_ret; cbv beta iota; by split_and!|].
  set (b := if decide (0 < gptr s) then _ else _).
  assert (length b = length (buffer_ s) ∧ slice 0 (pptr s - gptr s) b = sb_data s) as [Hlb Hb].
  { unfold b. case_decide as Hg; [rewrite length_shift, slice_shift by lia; done|]. split; [done|]. unfold sb_data, slice. by replace (gptr s) with 0 by lia. }
  destruct (decide (n ≤ Z.of_nat (epptr s - (pptr s - gptr s)))%Z) as [D2|D2]; [|case_decide as D3]; apply wp_bind, wp_modify, wp_ret; cbv beta iota.
  - split_and!; [| |done|simpl; lia]; [split; simpl; lia|]. rewrite sb_data_slice. simpl. by rewrite Nat.sub_0_r.
  - split_and!; [split; simpl| |done|simpl; lia].
    + lia.
    + lia.
    + lia.
    + apply length_resize.
    + lia.
    + rewrite length_resize. apply resized_enough.
    + rewrite sb_data_slice. simpl. rewrite Nat.sub_0_r, slice_resize by lia. exact Hb.
  - unfold sb_size. split; [lia|]. split; [|split; [split; simpl; lia|done]].
    intros Hg. unfold b. rewrite decide_False by lia. by destruct s.
Qed.

Lemma wp_pbump n (Q : unit → streambuf → Prop) s :
  streambuf_ok s → (0 ≤ n ≤ int_max)%Z → (Z.of_nat (pptr s) + n ≤ Z.of_nat (epptr s))%Z →
  Q tt (setp (pptr s + Z.to_nat n) (epptr s) s) → wp (pbump n) Q s.
Proof.
  intros [H1 H2 H3 H4 H5 H6] Hn Hp HQ. unfold wp, pbump, bump. rewrite to_int_small by done. rewrite decide_True by lia.
  by replace (Z.to_nat (Z.of_nat (pptr s) + n)) with (pptr s + Z.to_nat n) by lia.
Qed.
Lemma wp_gbump n (Q : unit → streambuf → Prop) s :
  streambuf_ok s → (0 ≤ n ≤ int_max)%Z → (Z.of_nat (gptr s) + n ≤ Z.of_nat (pptr s))%Z →
  Q tt (setg (gptr s + Z.to_nat n) (egptr s) s) → wp (gbump n) Q s.
Proof.
  intros [H1 H2 H3 H4 H5 H6] Hn Hp HQ. unfold wp, gbump, bump. rewrite to_int_small by done. rewrite decide_True by lia.
  by replace (Z.to_nat (Z.of_nat (gptr s) + n)) with (gptr s + Z.to_nat n) by lia.
Qed.

Lemma slice_write g p d b :
  g ≤ p → p + length d ≤ length b → slice g (p + length d - g) (take p b ++ d ++ drop (p + length d) b) = slice g (p - g) b ++ d.
Proof.
  intros Hg Hl. unfold slice. rewrite (assoc_L (++)), drop_app_le by (rewrite length_app, length_take; lia).
  rewrite take_app_le by (rewrite length_drop, length_app, length_take; lia).
  rewrite take_ge by (rewrite length_drop, length_app, length_take; lia).
  rewrite drop_app_le by (rewrite length_take; lia). f_equal. rewrite skipn_firstn_comm. done.
Qed.

(** Bytes that are written behind the input sequence, which is then extended. *)
Lemma write_put_spec s d (Q : unit → streambuf → Prop) (s1 := Streambuf (max_size_ s) (take (pptr s) (buffer_ s) ++ d ++ drop (pptr s + length d) (buffer_ s))
    (buffer_capacity s) (gptr s) (egptr s) (pptr s) (epptr s)) :
  streambuf_ok s → pptr s + length d ≤ epptr s →
  (streambuf_ok s1 → streambuf_ok (setp (pptr s + length d) (epptr s) s1) →
   sb_data (setp (pptr s + length d) (epptr s) s1) = sb_data s ++ d → Q tt s1) → wp (write_prepared d) Q s.
Proof.
  intros [H1 H2 H3 H4 H5 H6] Hd HQ. unfold wp, write_prepared. rewrite decide_True by lia.
  assert (length (buffer_ s1) = length (buffer_ s)) as Hl.
  { simpl. rewrite !length_app, length_take, length_drop. lia. }
  apply HQ; [split; simpl in *; lia..|]. unfold sb_data. simpl. by apply slice_write; lia.
Qed.

Lemma wp_write_commit {B} s d (k : comp streambuf B) Q :
  streambuf_ok s → (Z.of_nat (length d) ≤ Z.of_nat (epptr s - pptr s))%Z → (Z.of_nat (length d) ≤ int_max)%Z →
  (∀ s', streambuf_ok s' → sb_data s' = sb_data s ++ d → max_size_ s' = max_size_ s → wp k Q s') →
  wp (write_prepared d;; commit (Z.of_nat (length d));; k) Q s.
Proof.
  intros Hs Hroom Hi HQ. pose proof (so_put _ Hs). apply wp_bind, write_put_spec; [done|lia|]. intros Hs2 Hs3 Hd3.
  set (s2 := Streambuf _ _ _ _ _ _ _) in *. apply wp_bind, wp_bind, wp_get, wp_bind.
  replace (Z.min (Z.of_nat (length d)) (Z.of_nat (epptr s2 - pptr s2))) with (Z.of_nat (length d)) by (simpl; lia).
  apply wp_pbump; [done|lia|simpl; lia|]. rewrite Nat2Z.id. apply wp_modify, HQ; [|done|done].
  destruct Hs3 as [E1 E2 E3 E4 E5 E6]. split; simpl in *; lia.
Qed.

Lemma wp_commit_nothing {B} s (k : comp streambuf B) Q :
  streambuf_ok s → (∀ s', streambuf_ok s' → sb_data s' = sb_data s → max_size_ s' = max_size_ s → wp k Q s') → wp (commit 0;; k) Q s.
Proof.
  intros Hs HQ. pose proof Hs as [H1 H2 H3 H4 H5 H6]. apply wp_bind, wp_bind, wp_get, wp_bind. rewrite Z.min_l by lia.
  apply wp_pbump; [done|unfold int_max; lia|lia|]. simpl. rewrite Nat.add_0_r. apply wp_modify, HQ; [split; simpl; lia|done..].
Qed.

Lemma fill_spec s n d :
  streambuf_ok s → (Z.of_nat (length d) ≤ n)%Z → (Z.of_nat (length d) ≤ int_max)%Z →
  wp (fill grow n d) (λ ok s',
    if ok then (Z.of_nat (sb_size s) + n ≤ max_size_ s)%Z ∧ streambuf_ok s' ∧ sb_data s' = sb_data s ++ d ∧ max_size_ s' = max_size_ s
    else (max_size_ s < Z.of_nat (sb_size s) + n)%Z ∧ still_ok s s') s.
Proof using grow_enough.
  intros Hs Hd Hi. apply wp_bind. eapply wp_mono; [|apply reserve_spec; [done|lia]]. intros ok s1 Hok. destruct ok.
  - destruct Hok as (Hs1 & Hdata & Hmx & Hroom). apply wp_write_commit; [done|lia|done|]. intros s' Hs' Hd' Hm'. apply wp_ret.
    rewrite Hd', Hdata, Hm'. split; [|done]. rewrite <- (length_sb_data s Hs), <- Hdata, (length_sb_data s1 Hs1).
    pose proof (so_max _ Hs1). pose proof (so_put _ Hs1). unfold sb_size. lia.
  - apply wp_ret. by destruct Hok as (? & _ & ?).
Qed.

Lemma consume_spec s n :
  streambuf_ok s → (0 ≤ n)%Z → (Z.min n (Z.of_nat (sb_size s)) ≤ int_max)%Z →
  wp (consume n) (λ _ s', streambuf_ok s' ∧ sb_data s' = drop (Z.to_nat n) (sb_data s) ∧ max_size_ s' = max_size_ s) s.
Proof.
  intros Hs Hn Hsm. pose proof Hs as [H1 H2 H3 H4 H5 H6]. apply wp_bind, wp_modify.
  set (s1 := if decide (egptr s < pptr s) then _ else _).
  assert (egptr s1 = pptr s ∧ gptr s1 = gptr s ∧ pptr s1 = pptr s ∧ epptr s1 = epptr s ∧ buffer_ s1 = buffer_ s ∧ max_size_ s1 = max_size_ s ∧
    buffer_capacity s1 = buffer_capacity s) as (E1 & E2 & E3 & E4 & E5 & E6 & E7).
  { unfold s1. case_decide; simpl; split_and!; try done. lia. }
  assert (streambuf_ok s1) as Hs1 by (split; rewrite ?E1, ?E2, ?E3, ?E4, ?E5, ?E6, ?E7; lia).
  apply wp_bind, wp_get. rewrite E2, E3. set (k := if decide (_ + n > _)%Z then _ else n).
  assert (k = Z.min n (Z.of_nat (pptr s - gptr s))) as Ek by (unfold k; case_decide; lia).
  unfold sb_size in Hsm. apply wp_gbump; [done|lia|lia|]. split_and!; [split; simpl; rewrite ?E1, ?E2, ?E3, ?E4, ?E5, ?E6, ?E7; lia| |done].
  unfold sb_data. simpl. rewrite E2, E3, E5, <- drop_drop, skipn_firstn_comm, Ek, Z2Nat.inj_min, Nat2Z.id by lia.
  destruct (decide (Z.to_nat n ≤ pptr s - gptr s)); [rewrite Nat.min_l by lia; f_equal; lia|].
  replace (pptr s - (gptr s + Z.to_nat n `min` (pptr s - gptr s))) with 0 by lia. by replace (pptr s - gptr s - Z.to_nat n) with 0 by lia.
Qed.

Lemma wp_char_at p c (Q : ascii → streambuf → Prop) s : buffer_ s !! p = Some c → Q c s → wp (char_at p) Q s.
Proof. unfold wp, char_at. by intros ->. Qed.

Lemma sb_data_head s : streambuf_ok s → gptr s < pptr s → ∃ c, buffer_ s !! gptr s = Some c ∧ head (sb_data s) = Some c.
Proof.
  intros [H1 H2 H3 H4 H5 H6] Hg. destruct (lookup_lt_is_Some_2 (buffer_ s) (gptr s)) as [c Hc]; [lia|]. exists c. split; [done|].
  unfold sb_data. rewrite (drop_S _ c (gptr s) Hc). by destruct (pptr s - gptr s) eqn:E; [lia|].
Qed.

Lemma sgetc_spec s :
  streambuf_ok s → wp sgetc (λ r s', r = head (sb_data s) ∧ streambuf_ok s' ∧ sb_data s' = sb_data s ∧ max_size_ s' = max_size_ s ∧
    gptr s' = gptr s ∧ pptr s' = pptr s ∧ (sb_data s ≠ [] → gptr s' < egptr s')) s.
Proof.
  intros Hs. pose proof Hs as [H1 H2 H3 H4 H5 H6]. apply wp_bind, wp_get. case_decide as Hg.
  - destruct (sb_data_head s Hs) as (c & Hc & Hh); [lia|]. apply wp_bind. eapply wp_char_at; [done|]. apply wp_ret. by rewrite Hh.
  - apply wp_bind, wp_get. case_decide as Hp.
    + destruct (sb_data_head s Hs Hp) as (c & Hc & Hh). apply wp_bind, wp_modify, wp_bind. eapply wp_char_at; [exact Hc|]. apply wp_ret.
      rewrite Hh. split_and!; try done. split; simpl; lia.
    + apply wp_ret. assert (sb_data s = []) as E by (unfold sb_data; by replace (pptr s - gptr s) with 0 by lia). rewrite E. by split_and!.
Qed.

Lemma sbumpc_spec s :
  streambuf_ok s → wp sbumpc (λ r s', r = head (sb_data s) ∧ streambuf_ok s' ∧ sb_data s' = tail (sb_data s) ∧ max_size_ s' = max_size_ s) s.
Proof.
  intros Hs. apply wp_bind. eapply wp_mono; [|by apply sgetc_spec]. intros r s' (-> & Hs' & Hd & Hm & Hg & Hp & He).
  pose proof (length_sb_data s Hs) as Hl. unfold sb_size in Hl. destruct (sb_data s) as [|c l] eqn:Hc; simpl.
  - apply wp_ret. split_and!; [done..|by rewrite Hd|done].
  - pose proof Hs' as [H1 H2 H3 H4 H5 H6]. simpl in Hl. apply wp_bind, wp_gbump; [done|unfold int_max; lia|lia|]. apply wp_ret.
    split_and!; [done| | |done].
    + specialize (He ltac:(done)). split; simpl; lia.
    + unfold sb_data in *. simpl. rewrite <- drop_drop. replace (pptr s' - (gptr s' + Z.to_nat 1)) with (pptr s' - gptr s' - Z.to_nat 1) by lia.
      rewrite <- skipn_firstn_comm, Hd. done.
Qed.

Lemma sputc_spec s c :
  streambuf_ok s →
  wp (sputc grow c) (λ ok s', if ok then streambuf_ok s' ∧ sb_data s' = sb_data s ++ [c] ∧ max_size_ s' = max_size_ s
                              else s' = s ∧ Z.of_nat (sb_size s) = max_size_ s) s.
Proof using grow_enough.
  intros Hs. pose proof Hs as [H1 H2 H3 H4 H5 H6].
  assert (∀ s1, streambuf_ok s1 → sb_data s1 = sb_data s → max_size_ s1 = max_size_ s → pptr s1 < epptr s1 →
    wp (write_prepared [c];; pbump 1;; mret true) (λ (ok : bool) s', if ok then streambuf_ok s' ∧ sb_data s' = sb_data s ++ [c] ∧ max_size_ s' = max_size_ s
                              else s' = s ∧ Z.of_nat (sb_size s) = max_size_ s) s1) as Hput.
  { intros s1 Hs1 Hd Hm Hp. apply wp_bind, write_put_spec; [done|simpl; lia|]. intros Hs2 Hs3 Hd3. apply wp_bind, wp_pbump; [done|unfold int_max; lia|simpl; lia|].
    apply wp_ret. split_and!; [done|by rewrite <- Hd|done]. }
  apply wp_bind, wp_get. case_decide as Hp; [by apply Hput|]. apply wp_bind, wp_get, wp_bind. rewrite decide_True by lia. cbv zeta.
  set (n := if decide (Z.of_nat (pptr s - gptr s) < max_size_ s ∧ max_size_ s - Z.of_nat (pptr s - gptr s) < Z.of_nat buffer_delta)%Z
            then (max_size_ s - Z.of_nat (pptr s - gptr s))%Z else Z.of_nat buffer_delta).
  eapply (wp_mono _ (λ (ok : bool) s', if ok then has_room n s s'
                         else (max_size_ s < Z.of_nat (sb_size s) + n)%Z ∧ (gptr s = 0 → s' = s) ∧ still_ok s s')).
  - intros ok s1 Hok. unfold sb_size, buffer_delta in *. destruct ok.
    + destruct Hok as (Hs1 & Hd & Hm & Hr). apply Hput; [done..|]. unfold n in Hr. case_decide; lia.
    + apply wp_ret. destruct Hok as (Hok & Hsame & _). unfold n in Hok. split; [apply Hsame|]; case_decide; lia.
  - unfold n. case_decide; apply reserve_spec; [done| |done|]; unfold buffer_delta; lia.
Qed.

(** ** The interface *)

(** What reads, streams and their users do with a buffer, and what they get back. *)
Inductive sb_call : Type :=
  | call_fill (n : Z) (d : text)
  | call_consume (n : Z)
  | call_size
  | call_getc
  | call_bumpc
  | call_putc (c : ascii).
Inductive sb_answer : Type := sb_unit | sb_bool (b : bool) | sb_num (n : nat) | sb_char (c : option ascii).

Definition run_sb_call (c : sb_call) : comp streambuf sb_answer :=
  match c with
  | call_fill n d => b ← fill grow n d; mret (sb_bool b)
  | call_consume n => consume n;; mret sb_unit
  | call_size => s ← get_state; mret (sb_num (sb_size s))
  | call_getc => c ← sgetc; mret (sb_char c)
  | call_bumpc => c ← sbumpc; mret (sb_char c)
  | call_putc c => b ← sputc grow c; mret (sb_bool b)
  end.

(** The specification is a sequence of at most [mx] bytes.  A [prepare] that fails, because what is
    asked for does not fit, may leave other bytes in it. *)
Inductive sb_spec (mx : Z) (l : text) : sb_call → sb_answer → text → Prop :=
  | sb_spec_fill n d :
      (Z.of_nat (length d) ≤ n)%Z → (Z.of_nat (length d) ≤ int_max)%Z → (Z.of_nat (length l) + n ≤ mx)%Z →
      sb_spec mx l (call_fill n d) (sb_bool true) (l ++ d)
  | sb_spec_fill_fails n d l' :
      (mx < Z.of_nat (length l) + n)%Z → length l' = length l → sb_spec mx l (call_fill n d) (sb_bool false) l'
  | sb_spec_consume n :
      (0 ≤ n)%Z →
      sb_spec mx l (call_consume n) sb_unit (drop (Z.to_nat n) l)
  | sb_spec_size : sb_spec mx l call_size (sb_num (length l)) l
  | sb_spec_getc : sb_spec mx l call_getc (sb_char (head l)) l
  | sb_spec_bumpc : sb_spec mx l call_bumpc (sb_char (head l)) (tail l)
  | sb_spec_putc c : (Z.of_nat (length l) < mx)%Z → sb_spec mx l (call_putc c) (sb_bool true) (l ++ [c])
  | sb_spec_putc_full c : (Z.of_nat (length l) = mx)%Z → sb_spec mx l (call_putc c) (sb_bool false) l.

Definition sb_inv (mx : Z) (l : text) (s : streambuf) : Prop := streambuf_ok s ∧ sb_data s = l ∧ max_size_ s = mx.

(** What is read fits in what was prepared, and the bytes that are committed or consumed
    at once can be counted by an [int]. *)
Definition sb_call_ok (mx : Z) (c : sb_call) : Prop :=
  match c with
  | call_fill n d => (Z.of_nat (length d) ≤ n)%Z ∧ (Z.of_nat (length d) ≤ int_max)%Z
  | call_consume n => (0 ≤ n)%Z ∧ (Z.min n mx ≤ int_max)%Z
  | _ => True
  end.

Lemma sb_call_spec mx l s c :
  sb_inv mx l s → sb_call_ok mx c → wp (run_sb_call c) (λ r s', ∃ l', sb_spec mx l c r l' ∧ sb_inv mx l' s') s.
Proof using grow_enough.
  unfold sb_inv. intros (Hs & <- & <-) Hc. pose proof (length_sb_data s Hs) as Hl.
  assert (Z.of_nat (sb_size s) ≤ max_size_ s)%Z as Hsz by (destruct Hs; unfold sb_size; lia).
  destruct c as [n d|n| | | |c]; apply wp_bind.
  - destruct Hc as [H1 H2]. eapply wp_mono; [|by apply fill_spec]. intros [] s' Hok; apply wp_ret; eexists.
    + destruct Hok as (? & ? & ? & ?). split; [apply sb_spec_fill; [done..|by rewrite Hl]|done].
    + destruct Hok as (? & Hs' & He & Hm). split; [|split; [exact Hs'|by split; [reflexivity|]]].
      apply sb_spec_fill_fails; [by rewrite Hl|]. by rewrite Hl, length_sb_data.
  - destruct Hc as [H1 H2]. eapply wp_mono; [|apply consume_spec; [done..|lia]]. intros ok s' (? & ? & ?). apply wp_ret.
    eexists. by split; [apply sb_spec_consume|].
  - apply wp_get, wp_ret. eexists. split; [rewrite <- Hl; apply sb_spec_size|done].
  - eapply wp_mono; [|by apply sgetc_spec]. intros ok s' (-> & ? & ? & ? & _). apply wp_ret. eexists. by split; [apply sb_spec_getc|].
  - eapply wp_mono; [|by apply sbumpc_spec]. intros ok s' (-> & ? & ? & ?). apply wp_ret. eexists. by split; [apply sb_spec_bumpc|].
  - eapply wp_mono; [|by apply sputc_spec]. intros [] s' Hok; apply wp_ret; eexists.
    + destruct Hok as (Hs' & Hd & Hm). split; [apply sb_spec_putc|done]. rewrite Hl. apply (f_equal length) in Hd.
      rewrite length_app, Hl, length_sb_data in Hd by done. destruct Hs'. unfold sb_size in *. simpl in Hd. lia.
    + destruct Hok as [-> He]. split; [apply sb_spec_putc_full; by rewrite Hl|done].
Qed.

(** Calls one after the other. *)
Inductive sb_run (mx : Z) : text → list (sb_call * sb_answer) → text → Prop :=
  | sb_run_nil l : sb_run mx l [] l
  | sb_run_cons l c r l1 cs l' : sb_spec mx l c r l1 → sb_run mx l1 cs l' → sb_run mx l ((c, r) :: cs) l'.

Fixpoint run_sb_calls (cs : list sb_call) : comp streambuf (list sb_answer) :=
  match cs with
  | [] => mret []
  | c :: cs => r ← run_sb_call c; rs ← run_sb_calls cs; mret (r :: rs)
  end.

Lemma sb_calls_spec mx cs l s :
  sb_inv mx l s → Forall (sb_call_ok mx) cs →
  wp (run_sb_calls cs) (λ rs s', ∃ tr l', tr.*1 = cs ∧ tr.*2 = rs ∧ sb_run mx l tr l' ∧ sb_inv mx l' s') s.
Proof using grow_enough.
  intros Hs Hcs. revert l s Hs. induction Hcs as [|c cs Hc _ IH]; intros l s Hs; simpl.
  - apply wp_ret. exists [], l. split_and!; [done..|apply sb_run_nil|done].
  - apply wp_bind. eapply wp_mono; [|by eapply sb_call_spec]. intros r s' (l1 & Hr & Hs'). apply wp_bind. eapply wp_mono; [|by apply IH].
    intros rs s'' (tr & l' & <- & <- & Hrun & Hs''). apply wp_ret. exists ((c, r) :: tr), l'. split_and!; [done..| |done].
    by eapply sb_run_cons.
Qed.

Lemma nonblocking_fill n d : nonblocking (fill grow n d).
Proof. unfold fill, prepare, commit. solve_nonblocking. Qed.
#[local] Hint Resolve nonblocking_fill : ccpp.
Lemma nonblocking_sb cs : nonblocking (run_sb_calls cs).
Proof.
  induction cs as [|c cs IH]; simpl; [done|]. apply nonblocking_bind; [|solve_nonblocking].
  destruct c; simpl; unfold consume, sgetc, sbumpc, sgetc, sputc, underflow, overflow; solve_nonblocking.
Qed.

(** ** Theorems *)

(** C24: A [streambuf] is well formed after every operation: the pointers are in order and
    point into the vector, which has its maximal size at most, whatever was filled in,
    consumed, read and written before, as long as no more than [INT_MAX] bytes are committed or
    consumed at once.  And it is a sequence of bytes: what is filled in
    or put comes out in order, [sputc] fails exactly when the buffer is full, and a fill exactly
    when what is prepared for it does not fit; one that fails may change the bytes in the
    buffer, but not their number. *)
Theorem streambuf_well_formed mx cs :
  (0 ≤ mx)%Z → Forall (sb_call_ok mx) cs →
  ∃ tr s, tr.*1 = cs ∧ run_sb_calls cs (new_streambuf grow mx) = Done tr.*2 s ∧ sb_run mx [] tr (sb_data s) ∧
    gptr s ≤ egptr s ≤ pptr s ∧ pptr s ≤ epptr s ∧ length (buffer_ s) = Nat.max (epptr s) 1 ∧ (Z.of_nat (epptr s) ≤ mx)%Z.
Proof using grow_enough.
  intros Hm Hcs. destruct (new_streambuf_ok mx Hm) as [Hs Hd]. assert (sb_inv mx [] (new_streambuf grow mx)) as Hi by done.
  pose proof (sb_calls_spec mx cs [] _ Hi Hcs) as Hw.
  apply wp_total in Hw as (rs & s & Hrun & tr & l & Hc & <- & Hr & [H1 H2 H3 H4 H5 H6] & <- & <-); [|apply nonblocking_sb].
  exists tr, s. split_and!; done.
Qed.
End correct.

(** The end of the buffer is only moved when the new size is known to fit, but the
    contents are moved before that: when [prepare] fails with [std::length_error], the
    bytes have moved and the pointers have not, and what was in the buffer is lost. *)
Theorem prepare_failure_corrupts grow :
  ∃ s1 s2, (fill grow 8 (lit "abcdefgh");; consume 1) (new_streambuf grow 8) = Done tt s1 ∧ sb_data s1 = lit "bcdefgh" ∧
    prepare grow 8 s1 = Done false s2 ∧ sb_data s2 = lit "cdefghh".
Proof. do 2 eexists. split_and!; vm_compute; reflexivity. Qed.

(** The last fill asks for too much. *)
Definition some_sb_calls : list sb_call :=
  [call_fill 512 (lit "GET"); call_bumpc; call_putc "!"%char; call_consume 2; call_size; call_fill 600 []].

Lemma streambuf_well_formed_witness :
  ∃ tr s, tr.*1 = some_sb_calls ∧
    tr.*2 = [sb_bool true; sb_char (Some "G"%char); sb_bool true; sb_unit; sb_num 1; sb_bool false] ∧
    run_sb_calls (λ _ n, n) some_sb_calls (new_streambuf (λ _ n, n) 600) = Done tr.*2 s ∧ pptr s ≤ epptr s.
Proof.
  destruct (streambuf_well_formed (λ _ n, n) (λ _ n, Nat.le_refl n) 600 some_sb_calls ltac:(by_decide))
    as (tr & s & H1 & H2 & _ & _ & H3 & _).
  - repeat (constructor; [vm_compute; try split; discriminate || exact I|]). constructor.
  - exists tr, s. split; [exact H1|]. split; [|exact (conj H2 H3)].
    remember (run_sb_calls (λ _ n, n) some_sb_calls (new_streambuf (λ _ n, n) 600)) as r eqn:Hr. vm_compute in Hr. subst r. by injection H2.
Defined.
