(* ===== verification/ResultState.v ===== *)
(** * Result states: the rendezvous of one producer and one consumer

    [results/impl/producer_context.h], [consumer_context.h/.cpp],
    [result_state.h/.cpp].  A [result_state] is shared by the task that
    produces an asynchronous value and by the [result] object that consumes it.
    The two sides synchronise on [m_pc_state] alone; this file translates every
    operation of either side, access by access.  [ResultProtocol] proves the
    protocol correct, [ResultRaces] shows where it is not, and [WhenAny] and
    [SharedResult] build on these definitions. *)

From S2P Require Import Prelude Conc.
From stdpp Require Import options.

(** ** Data *)

Inductive result_status : Type := status_idle | status_value | status_exception.

Inductive pc_state : Type :=
  | pc_idle | pc_consumer_set | pc_consumer_waiting | pc_consumer_done | pc_producer_done.

#[global] Instance pc_state_eq_dec : EqDecision pc_state.
Proof. solve_decision. Defined.

#[global] Instance result_status_eq_dec : EqDecision result_status.
Proof. solve_decision. Defined.

(** Coroutines are named by numbers; a [coroutine_handle] is such a name. *)
Abbreviation handle := nat.

(** [producer_context]: the union of a value and an exception, with the
    [m_status] that says which member is alive. *)
Inductive producer_context (T : Type) : Type :=
  | produced_nothing
  | produced_value (v : T)
  | produced_exception (e : exn).
Arguments produced_nothing {T}.
Arguments produced_value {T} v.
Arguments produced_exception {T} e.

(** [consumer_context]: how the consumer waits. The contexts of [wait_for],
    [when_any] and [shared] live in shared pointers, named by numbers. *)
Inductive consumer_context : Type :=
  | consumer_idle
  | consumer_await (caller_handle : handle)
  | consumer_wait_for (wait_ctx : nat)
  | consumer_when_any (when_any_ctx : nat)
  | consumer_shared (shared_ctx : nat).

(** [alive] is false once [delete_self] has run.  The last three fields are
    ghosts, which no operation reads: [armed], the consumer has set
    [m_pc_state] to [consumer_set] and the producer has not answered yet; [published] and
    [dropped], the exchange of [complete_producer], respectively of
    [complete_consumer], has happened. *)
Record rstate (T : Type) : Type := RState {
  m_pc_state : pc_state;
  m_consumer : consumer_context;
  m_producer : producer_context T;
  m_done_handle : option handle;
  alive : bool;
  armed : bool;
  published : bool;
  dropped : bool }.
Arguments RState {T}.
Arguments m_pc_state {T} _.
Arguments m_consumer {T} _.
Arguments m_producer {T} _.
Arguments m_done_handle {T} _.
Arguments alive {T} _.
Arguments armed {T} _.
Arguments published {T} _.
Arguments dropped {T} _.

(** A state as its constructor leaves it. *)
Definition new_state {T} : rstate T := 
  RState pc_idle consumer_idle produced_nothing None true false false false.

(** ** The producer's union *)

Definition producer_status {T} (p : producer_context T) : result_status :=
  match p with
  | produced_nothing => status_idle
  | produced_value _ => status_value
  | produced_exception _ => status_exception
  end.

(** [build_result] and [build_exception] assert that nothing was built. *)
Definition build_result {T} (v : T) (p : producer_context T) : option (producer_context T) :=
  match p with produced_nothing => Some (produced_value v) | _ => None end.

Definition build_exception {T} (e : exn) (p : producer_context T) : option (producer_context T) :=
  match p with produced_nothing => Some (produced_exception e) | _ => None end.

(** [get]/[get_ref]: the value, or the stored exception rethrown; [None] where
    [m_status != result_status::idle] is asserted and fails. *)
Definition producer_get {T} (p : producer_context T) : option (outcome T) :=
  match p with
  | produced_nothing => None
  | produced_value v => Some (Ret v)
  | produced_exception e => Some (Throw e)
  end.

(** The move assignment of the [void] and reference specialisations: the source
    is left idle; the target is asserted idle. *)
Definition producer_move_assign {T} (lhs rhs : producer_context T)
    : option (producer_context T * producer_context T) :=
  match lhs with
  | produced_nothing => Some (rhs, produced_nothing)
  | _ => None
  end.

(** ** The interface of the surrounding memory

    What [result_state] needs of the memory [M] it lives in: its own storage,
    and what happens when the producer wakes a consumer. *)
Class result_env (M T : Type) : Type := ResultEnv {
  cell : M → rstate T;
  set_cell : rstate T → M → M;
  (** threads blocked in [std::atomic::wait] on [m_pc_state] *)
  parked : M → bool;
  set_parked : bool → M → M;
  (** [coroutine_handle::done] *)
  frame_done : handle → M → bool;
  resume_handle : handle → M → access M unit;
  new_semaphore : M → access M nat;
  semaphore_release : nat → M → access M unit;
  semaphore_acquire : nat → M → access M unit;
  when_any_try_resume : nat → prog M unit;
  shared_on_result_finished : nat → prog M unit }.

Section ops.
Context {M T : Type} (env : result_env M T).
Local Open Scope prog_scope.

(** Field updates. *)
Definition set_pc (p : pc_state) (c : rstate T) : rstate T :=
  RState p (m_consumer c) (m_producer c) (m_done_handle c) (alive c) (armed c) (published c) (dropped c).
Definition set_consumer (k : consumer_context) (c : rstate T) : rstate T :=
  RState (m_pc_state c) k (m_producer c) (m_done_handle c) (alive c) (armed c) (published c) (dropped c).
Definition set_producer (p : producer_context T) (c : rstate T) : rstate T :=
  RState (m_pc_state c) (m_consumer c) p (m_done_handle c) (alive c) (armed c) (published c) (dropped c).
Definition set_done_handle (h : option handle) (c : rstate T) : rstate T :=
  RState (m_pc_state c) (m_consumer c) (m_producer c) h (alive c) (armed c) (published c) (dropped c).
Definition kill (c : rstate T) : rstate T :=
  RState (m_pc_state c) (m_consumer c) (m_producer c) (m_done_handle c) false (armed c) (published c) (dropped c).
Definition set_armed (a : bool) (c : rstate T) : rstate T :=
  RState (m_pc_state c) (m_consumer c) (m_producer c) (m_done_handle c) (alive c) a (published c) (dropped c).

(** The ghosts that an exchange to [new] moves. *)
Definition mark_exchange (new : pc_state) (c : rstate T) : rstate T :=
  RState (m_pc_state c) (m_consumer c) (m_producer c) (m_done_handle c) (alive c) (armed c)
    (match new with pc_producer_done => true | _ => published c end)
    (match new with pc_consumer_done => true | _ => dropped c end).
Definition mark_compare_exchange (new : pc_state) (c : rstate T) : rstate T :=
  set_armed (match new with pc_consumer_set => true | _ => false end) c.

(** An access to the state: a fault if it was deleted. *)
Definition on_cell {B} (f : rstate T → access (rstate T) B) (m : M) : access M B :=
  if alive (cell m) then
    match f (cell m) with
    | Done b c => Done b (set_cell c m)
    | Block => Block
    | Fault e => Fault e
    end
  else Fault use_after_free.

(** *** The atomic [m_pc_state] *)

Definition pc_load : prog M pc_state := step_of (on_cell (λ c, Done (m_pc_state c) c)).

Definition pc_exchange (new : pc_state) : prog M pc_state :=
  step_of (on_cell (λ c, Done (m_pc_state c) (mark_exchange new (set_pc new c)))).

Definition pc_compare_exchange (expected new : pc_state) : prog M bool :=
  step_of (on_cell (λ c,
    if decide (m_pc_state c = expected)
    then Done true (mark_compare_exchange new (set_pc new c))
    else Done false c)).

(** [m_pc_state.wait(old)]: parks the thread if the value is [old], until it
    is notified, and then compares again. *)
Definition pc_wait (old : pc_state) : prog M unit :=
  must_park <-- step_of (λ m,
    match on_cell (λ c, Done (if decide (m_pc_state c = old) then true else false) c) m with
    | Done true m' => Done true (set_parked true m')
    | r => r
    end) ;;
  if (must_park : bool) then step_of (λ m, if parked m then Block else Done tt m) else ret tt.

(** [m_pc_state.notify_one()]: a call on an atomic that may have been deleted,
    which is told apart from other accesses. *)
Definition pc_notify_one : prog M unit :=
  step_of (λ m, if alive (cell m) then Done tt (set_parked false m) else Fault notify_after_free).

Definition assert_done : prog M unit :=
  step_of (on_cell (λ c,
    if decide (m_pc_state c = pc_producer_done) then Done tt c else Fault assert_failed)).

(** *** [consumer_context] *)

Definition consumer_set_context (k : consumer_context) : prog M unit :=
  step_of (on_cell (λ c,
    match m_consumer c with
    | consumer_idle => Done tt (set_consumer k c)
    | _ => Fault assert_failed
    end)).

Definition set_await_handle (h : handle) : prog M unit := consumer_set_context (consumer_await h).
Definition set_wait_for_context (x : nat) : prog M unit := consumer_set_context (consumer_wait_for x).
Definition set_when_any_context (x : nat) : prog M unit := consumer_set_context (consumer_when_any x).
Definition set_shared_context (x : nat) : prog M unit := consumer_set_context (consumer_shared x).

(** [clear]: destroys the active member and becomes idle. *)
Definition consumer_clear : prog M unit :=
  step_of (on_cell (λ c, Done tt (set_consumer consumer_idle c))).

(** [resume_consumer] reads the union and wakes whoever is there. *)
Definition resume_consumer : prog M unit :=
  k <-- step_of (on_cell (λ c, Done (m_consumer c) c)) ;;
  match k with
  | consumer_idle => ret tt
  | consumer_await h => step_of (resume_handle h)
  | consumer_wait_for x => step_of (semaphore_release x)
  | consumer_when_any x => when_any_try_resume x
  | consumer_shared x => shared_on_result_finished x
  end.

(** *** [result_state], the producer's side *)

Definition set_result (v : T) : prog M unit :=
  step_of (on_cell (λ c,
    match build_result v (m_producer c) with
    | Some p => Done tt (set_producer p c)
    | None => Fault assert_failed
    end)).

Definition set_exception (e : exn) : prog M unit :=
  step_of (on_cell (λ c,
    match build_exception e (m_producer c) with
    | Some p => Done tt (set_producer p c)
    | None => Fault assert_failed
    end)).

(** [from_callable]: the callable's outcome, an exception caught and stored. *)
Definition from_callable (callable : T + exn) : prog M unit :=
  match callable with
  | inl v => set_result v
  | inr e => set_exception e
  end.

(** [delete_self]: destroys the coroutine frame the state is embedded in, which
    must be done, or deletes the state; either way the storage is gone. *)
Definition delete_self : prog M unit :=
  step_of (λ m, on_cell (λ c,
    match m_done_handle c with
    | Some done_handle => if frame_done done_handle m then Done tt (kill c) else Fault assert_failed
    | None => Done tt (kill c)
    end) m).

Definition complete_producer (done_handle : option handle) : prog M unit :=
  step_of (on_cell (λ c, Done tt (set_done_handle done_handle c))) ;;;
  state_before <-- pc_exchange pc_producer_done ;;
  match state_before with
  | pc_consumer_set => resume_consumer
  | pc_idle => ret tt
  | pc_consumer_waiting => pc_notify_one
  | pc_consumer_done => delete_self
  | pc_producer_done => step_of (λ _, Fault assert_failed)
  end.

(** *** [result_state], the consumer's side *)

Definition read_producer_status : prog M result_status :=
  step_of (on_cell (λ c, Done (producer_status (m_producer c)) c)).

Definition status : prog M result_status :=
  state <-- pc_load ;;
  match state with
  | pc_consumer_set => step_of (λ _, Fault assert_failed)
  | pc_idle => ret status_idle
  | _ => read_producer_status
  end.

(** The loop of [wait], unrolled: [pc_wait] returns once the value has left
    [consumer_waiting], so the second round ends it. *)
Fixpoint wait_loop (fuel : nat) : prog M unit :=
  match fuel with
  | 0 => step_of (λ _, Fault out_of_fuel)
  | S n =>
      state <-- pc_load ;;
      if decide (state = pc_producer_done) then ret tt
      else pc_wait pc_consumer_waiting ;;; wait_loop n
  end.

Definition wait : prog M unit :=
  state <-- pc_load ;;
  if decide (state = pc_producer_done) then ret tt else
  idle <-- pc_compare_exchange pc_idle pc_consumer_waiting ;;
  if (idle : bool) then wait_loop 2 ;;; assert_done else assert_done.

(** [wait_for]: whether the semaphore is acquired in time is the
    environment's choice. *)
Definition wait_for : prog M result_status :=
  state_0 <-- pc_load ;;
  if decide (state_0 = pc_producer_done) then read_producer_status else
  wait_ctx <-- step_of new_semaphore ;;
  set_wait_for_context wait_ctx ;;;
  idle_0 <-- pc_compare_exchange pc_idle pc_consumer_set ;;
  if (idle_0 : bool) then
    in_time <-- choose ;;
    if (in_time : bool) then
      step_of (semaphore_acquire wait_ctx) ;;;
      pc_load ;;; assert_done ;;; read_producer_status
    else
      idle_1 <-- pc_compare_exchange pc_consumer_set pc_idle ;;
      if (idle_1 : bool) then consumer_clear ;;; ret status_idle
      else assert_done ;;; read_producer_status
  else assert_done ;;; read_producer_status.

(** [wait_until]: the clock decides whether the deadline has passed. *)
Definition wait_until : prog M result_status :=
  expired <-- choose ;; if (expired : bool) then status else wait_for.

(** [await]: [true] tells the coroutine to stay suspended. *)
Definition await (caller_handle : handle) : prog M bool :=
  state <-- pc_load ;;
  if decide (state = pc_producer_done) then ret false else
  set_await_handle caller_handle ;;;
  idle <-- pc_compare_exchange pc_idle pc_consumer_set ;;
  if (idle : bool) then ret true else assert_done ;;; ret false.

(** [when_any] returns the state it loaded before the exchange. *)
Definition when_any (ctx : nat) : prog M pc_state :=
  state <-- pc_load ;;
  if decide (state = pc_producer_done) then ret state else
  set_when_any_context ctx ;;;
  idle <-- pc_compare_exchange pc_idle pc_consumer_set ;;
  if (idle : bool) then ret state else assert_done ;;; ret state.

Definition share (ctx : nat) : prog M unit :=
  state <-- pc_load ;;
  if decide (state = pc_producer_done) then shared_on_result_finished ctx else
  set_shared_context ctx ;;;
  idle <-- pc_compare_exchange pc_idle pc_consumer_set ;;
  if (idle : bool) then ret tt else assert_done ;;; shared_on_result_finished ctx.

Definition try_rewind_consumer : prog M unit :=
  state <-- pc_load ;;
  if decide (state ≠ pc_consumer_set) then ret tt else
  consumer <-- pc_compare_exchange pc_consumer_set pc_idle ;;
  if (consumer : bool) then consumer_clear else assert_done.

Definition state_get : prog M (outcome T) :=
  assert_done ;;;
  step_of (on_cell (λ c,
    match producer_get (m_producer c) with
    | Some r => Done r c
    | None => Fault assert_failed
    end)).

Definition complete_consumer : prog M unit :=
  state <-- pc_load ;;
  if decide (state = pc_producer_done) then delete_self else
  state1 <-- pc_exchange pc_consumer_done ;;
  match state1 with
  | pc_producer_done => delete_self
  | pc_idle => ret tt
  | _ => step_of (λ _, Fault assert_failed)
  end.

Definition complete_joined_consumer : prog M unit := assert_done ;;; delete_self.

(** *** The operations of [result] and of its awaitables *)

(** [result::get]: waits, moves the state into a joined pointer, and reads
    the outcome; the joined pointer deletes the state. *)
Definition result_get : prog M (outcome T) :=
  wait ;;; r <-- state_get ;; complete_joined_consumer ;;; ret r.

(** [awaitable::await_resume] *)
Definition await_resume : prog M (outcome T) :=
  r <-- state_get ;; complete_joined_consumer ;;; ret r.
End ops.
