(* ===== verification/ResultProtocol.v ===== *)
(** * The result protocol is correct for waiting, awaiting and dropping

    One producer and one consumer run the operations of [ResultState] on a state
    of their own, in any interleaving.  The consumer polls, waits and resolves
    as often as it likes and finally gets the value, awaits it, or drops the
    result. *)

From S2P Require Import Prelude Conc ResultState.
From stdpp Require Import options.
Local Open Scope prog_scope.

(** ** One result in memory *)

(** [s_coro]: the suspended coroutine, if any; [s_sems]: the binary semaphores
    of [wait_for] calls; [s_notified]: the [when_any] and [shared] contexts the
    producer has called; [s_final]: the coroutine that produces, once it is suspended at its
    end. *)
Record solo (T : Type) : Type := Solo {
  s_cell : rstate T;
  s_parked : bool;
  s_coro : option handle;
  s_sems : list nat;
  s_notified : list nat;
  s_final : option handle }.
Arguments Solo {T}.
Arguments s_cell {T} _.
Arguments s_parked {T} _.
Arguments s_coro {T} _.
Arguments s_sems {T} _.
Arguments s_notified {T} _.
Arguments s_final {T} _.

Definition solo_init {T} : solo T := Solo new_state false None [] [] None.

Definition solo_resume {T} (h : handle) (m : solo T) : access (solo T) unit :=
  if decide (s_coro m = Some h)
  then Done tt (Solo (set_armed false (s_cell m)) (s_parked m) None (s_sems m) (s_notified m) (s_final m))
  else Fault bad_resume.

Definition solo_notify {T} (x : nat) : prog (solo T) unit :=
  step_of (λ m, Done tt (Solo (set_armed false (s_cell m)) (s_parked m) (s_coro m) (s_sems m)
                           (x :: s_notified m) (s_final m))).

Definition solo_sem_release {T} (x : nat) (m : solo T) : access (solo T) unit :=
  match s_sems m !! x with
  | Some 0 => Done tt (Solo (set_armed false (s_cell m)) (s_parked m) (s_coro m)
                         (<[x := 1]> (s_sems m)) (s_notified m) (s_final m))
  | Some _ => Fault semaphore_overflow
  | None => Fault null_deref
  end.

Definition solo_sem_acquire {T} (x : nat) (m : solo T) : access (solo T) unit :=
  match s_sems m !! x with
  | Some (S n) => Done tt (Solo (s_cell m) (s_parked m) (s_coro m) (<[x := n]> (s_sems m)) (s_notified m) (s_final m))
  | Some 0 => Block
  | None => Fault null_deref
  end.

#[global] Instance solo_env (T : Type) : result_env (solo T) T := {|
  cell := s_cell;
  set_cell c m := Solo c (s_parked m) (s_coro m) (s_sems m) (s_notified m) (s_final m);
  parked := s_parked;
  set_parked b m := Solo (s_cell m) b (s_coro m) (s_sems m) (s_notified m) (s_final m);
  frame_done h m := if decide (s_final m = Some h) then true else false;
  resume_handle := solo_resume;
  new_semaphore m := Done (length (s_sems m))
                       (Solo (s_cell m) (s_parked m) (s_coro m) (s_sems m ++ [0]) (s_notified m) (s_final m));
  semaphore_release := solo_sem_release;
  semaphore_acquire := solo_sem_acquire;
  when_any_try_resume := solo_notify;
  shared_on_result_finished := solo_notify |}.

(** ** The two sides *)

Section sides.
Context {T : Type}.
Let env := solo_env T.

(** A coroutine is suspended before [await_suspend] runs; if that returns
    [false] it goes on by itself, otherwise the producer resumes it. *)
Definition suspend (h : handle) : prog (solo T) unit :=
  step_of (λ m, Done tt (Solo (s_cell m) (s_parked m) (Some h) (s_sems m) (s_notified m) (s_final m))).
Definition resume_self : prog (solo T) unit :=
  step_of (λ m, Done tt (Solo (s_cell m) (s_parked m) None (s_sems m) (s_notified m) (s_final m))).
Definition wait_resumed (h : handle) : prog (solo T) unit :=
  step_of (λ m, if decide (s_coro m = Some h) then Block else Done tt m).

Definition await_until_resumed (h : handle) : prog (solo T) unit :=
  suspend h ;;;
  suspended <-- await env h ;;
  if (suspended : bool) then wait_resumed h else resume_self.

(** [co_await result] *)
Definition co_await_result (h : handle) : prog (solo T) (outcome T) :=
  await_until_resumed h ;;; await_resume env.

(** The consumer: any number of these, then one of those. [resolve] gives the
    same result back. *)
Inductive consumer_op : Type := op_status | op_wait | op_resolve (h : handle).
Inductive consumer_end : Type := end_get | end_co_await (h : handle) | end_drop.

(** Whether it blocks its thread: [get] waits. *)
Definition blocking (ops : list consumer_op) (e : consumer_end) : bool :=
  existsb (λ o, match o with op_wait => true | _ => false end) ops || match e with end_get => true | _ => false end.

Definition run_op (o : consumer_op) : prog (solo T) unit :=
  match o with
  | op_status => status env ;;; ret tt
  | op_wait => wait env
  | op_resolve h => await_until_resumed h
  end.

Definition run_end (e : consumer_end) : prog (solo T) (option (outcome T)) :=
  match e with
  | end_get => r <-- result_get env ;; ret (Some r)
  | end_co_await h => r <-- co_await_result h ;; ret (Some r)
  | end_drop => complete_consumer env ;;; ret None
  end.

Fixpoint consumer_side (ops : list consumer_op) (e : consumer_end) : prog (solo T) (option (outcome T)) :=
  match ops with
  | [] => run_end e
  | o :: ops => run_op o ;;; consumer_side ops e
  end.

(** The producer: the task's outcome, then publication.  A coroutine publishes when it is
    suspended at its end. *)
Definition final_suspend (done_handle : option handle) : prog (solo T) unit :=
  step_of (λ m, Done tt (Solo (s_cell m) (s_parked m) (s_coro m) (s_sems m) (s_notified m) done_handle)).
Definition producer_side (r : T + exn) (done_handle : option handle) : prog (solo T) (option (outcome T)) :=
  from_callable env r ;;; final_suspend done_handle ;;; complete_producer env done_handle ;;; ret None.

Definition sides (r : T + exn) (done_handle : option handle) (ops : list consumer_op)
    (e : consumer_end) : pool (solo T) (option (outcome T)) * solo T :=
  ([producer_side r done_handle; consumer_side ops e], solo_init).
End sides.

(** ** Assertions *)

(** The producer union a callable's outcome leads to, and what [get] makes of it. *)
Definition built {T} (r : T + exn) : producer_context T :=
  match r with inl v => produced_value v | inr e => produced_exception e end.

Definition delivered {T} (r : T + exn) : outcome T :=
  match r with inl v => Ret v | inr e => Throw e end.

Section assertions.
Context {T : Type} (r : T + exn) (bl : bool).
Implicit Types s : solo T.

Abbreviation pc s := (m_pc_state (s_cell s)).
Abbreviation cons s := (m_consumer (s_cell s)).
Abbreviation prod s := (m_producer (s_cell s)).
Abbreviation live s := (alive (s_cell s) = true).
Abbreviation arm s := (armed (s_cell s)).
Abbreviation pub s := (published (s_cell s)).
Abbreviation drp s := (dropped (s_cell s)).

(** What both sides maintain. *)
Definition inv s : Prop :=
  (pub s = true → prod s = built r ∧
     (pc s = pc_producer_done ∨ pc s = pc_consumer_done ∧ drp s = true)) ∧
  (pub s = false → pc s ≠ pc_producer_done ∧ live s) ∧
  (drp s = true → arm s = false ∧ (pc s = pc_consumer_done ∨ pc s = pc_producer_done ∧ pub s = true)) ∧
  (pc s = pc_consumer_done → drp s = true) ∧
  (arm s = true → live s ∧ (∃ h, cons s = consumer_await h ∧ s_coro s = Some h) ∧
     (pc s = pc_consumer_set ∨ pub s = true)) ∧
  (pc s = pc_consumer_set → arm s = true) ∧
  (s_parked s = true → live s ∧ drp s = false ∧ (pc s = pc_consumer_waiting ∨ pub s = true)) ∧
  (pc s = pc_consumer_waiting → bl = true) ∧
  (m_done_handle (s_cell s) = None ∨ m_done_handle (s_cell s) = s_final s).

(** The producer's accesses: it may publish once, resume an armed consumer
    once, unpark, and delete the state if the consumer left first. *)
Definition guar_producer s s' : Prop :=
  inv s → inv s' ∧ cons s' = cons s ∧ drp s' = drp s ∧
  (alive (s_cell s') = alive (s_cell s) ∨
   alive (s_cell s') = false ∧ drp s = true ∧ pub s = true ∧ pc s = pc_producer_done) ∧
  (pub s' = pub s ∧ pc s' = pc s ∨
   pub s = false ∧ pub s' = true ∧ pc s' = pc_producer_done) ∧
  (arm s' = arm s ∧ s_coro s' = s_coro s ∨
   arm s = true ∧ pub s = true ∧ arm s' = false ∧ s_coro s' = None) ∧
  (s_parked s' = s_parked s ∨ pub s = true ∧ s_parked s' = false).

(** The consumer's accesses: nothing while it is armed; it parks only in
    [consumer_waiting]; it frees the state only if the producer published and
    it is the last to leave. *)
Definition guar_consumer s s' : Prop :=
  inv s → inv s' ∧ prod s' = prod s ∧ pub s' = pub s ∧
  (arm s = true → cons s' = cons s ∧ pc s' = pc s ∧ s_coro s' = s_coro s ∧ arm s' = true) ∧
  (arm s = false → arm s' = false ∨ pub s = false) ∧
  (alive (s_cell s') = alive (s_cell s) ∨
   alive (s_cell s') = false ∧ pub s = true ∧ (drp s = true → pc s = pc_consumer_done)) ∧
  (drp s' = drp s ∨ pc s' = pc_consumer_done) ∧
  (drp s = true → pc s' = pc s ∧ drp s' = true) ∧
  (s_parked s' = s_parked s ∨ pc s = pc_consumer_waiting ∧ pub s = false) ∧
  s_final s' = s_final s ∧ m_done_handle (s_cell s') = m_done_handle (s_cell s).

(** The consumer owns its pointer and is not registered; its coroutine is
    suspended as [c] says. *)
Definition owns (c : option handle) s : Prop :=
  inv s ∧ live s ∧ arm s = false ∧ drp s = false ∧ s_coro s = c ∧ s_parked s = false.
Definition owns_idle c s : Prop := owns c s ∧ (pub s = true ∨ pc s = pc_idle ∧ cons s = consumer_idle).
Definition owns_done c s : Prop := owns c s ∧ pub s = true.

(** It has seen the state idle, and then stored its handle. *)
Definition saw_idle c s : Prop := owns_idle c s ∧ cons s = consumer_idle.
Definition prepared h s : Prop :=
  owns (Some h) s ∧ cons s = consumer_await h ∧ (pub s = true ∨ pc s = pc_idle).

(** It has registered to be resumed, or to be notified. *)
Definition registered h s : Prop :=
  inv s ∧ live s ∧ drp s = false ∧ s_parked s = false ∧
  (arm s = true ∧ s_coro s = Some h ∨ arm s = false ∧ pub s = true ∧ s_coro s = None).
Definition waiting s : Prop := owns None s ∧ (pub s = true ∨ pc s = pc_consumer_waiting).
Definition parked_or_done s : Prop :=
  inv s ∧ live s ∧ arm s = false ∧ drp s = false ∧ s_coro s = None ∧ (pub s = true ∨ s_parked s = true).

Definition unpublished (p : producer_context T) s : Prop :=
  inv s ∧ pub s = false ∧ prod s = p.

Definition building (p : producer_context T) s : Prop := unpublished p s ∧ m_done_handle (s_cell s) = None.
Definition ends_with (dh : option handle) s : Prop := unpublished (built r) s ∧ s_final s = dh.

(** What the producer knows after its exchange returned [before]. *)
Definition after_publish (before : pc_state) s : Prop :=
  inv s ∧ pub s = true ∧
  match before with
  | pc_idle => arm s = false ∧ s_parked s = false ∧ (drp s = true → pc s = pc_consumer_done)
  | pc_consumer_set => arm s = true ∧ s_parked s = false ∧ pc s = pc_producer_done
  | pc_consumer_waiting => bl = true ∧ arm s = false ∧ (drp s = true → pc s = pc_consumer_done)
  | pc_consumer_done => drp s = true ∧ s_parked s = false ∧ live s ∧ pc s = pc_producer_done
  | pc_producer_done => False
  end.

(** Postconditions: with both of them, the state has been freed. *)
Definition post_producer s : Prop :=
  inv s ∧ pub s = true ∧ arm s = false ∧ s_parked s = false ∧
  (drp s = true → pc s = pc_producer_done → alive (s_cell s) = false).

Definition gone_consumer s : Prop :=
  inv s ∧ (alive (s_cell s) = false ∨ drp s = true ∧ (pub s = true → pc s = pc_producer_done)).

(** What the consumer's thread ends with. *)
Definition expected (e : consumer_end) : option (outcome T) :=
  match e with end_drop => None | _ => Some (delivered r) end.

Definition post_consumer (e : consumer_end) (a : option (outcome T)) s : Prop :=
  gone_consumer s ∧ a = expected e.

Definition guar (i : nat) : solo T → solo T → Prop :=
  match i with 0 => guar_producer | 1 => guar_consumer | _ => λ _ _, False end.
Definition waits (i : nat) s : Prop :=
  match i with 1 => arm s = true ∨ s_parked s = true | _ => False end.
(** The fault that is left: the producer notifies a consumer that blocks after the
    consumer has seen the result and freed it. *)
Definition accepted (i : nat) (f : fault) s : Prop :=
  match i with 0 => f = notify_after_free ∧ bl = true ∧ inv s ∧ alive (s_cell s) = false | _ => False end.
Definition post (e : consumer_end) (i : nat) (a : option (outcome T)) s : Prop :=
  match i with 0 => post_producer s ∧ a = None | 1 => post_consumer e a s | _ => True end.
End assertions.

Ltac solo_unfold := unfold guar_producer, guar_consumer, saw_idle, owns_idle, owns_done, prepared,
  registered, waiting, parked_or_done, owns, building, ends_with, unpublished, accepted, after_publish,
  post_producer, post_consumer, gone_consumer, waits in *.
(** ** Proofs *)

Section proofs.
Context {T : Type} (r : T + exn) (bl : bool).
Implicit Types s : solo T.
Let env := solo_env T.

Lemma rely_consumer s s' : rely (guar r bl) 1 s s' → guar_producer r bl s s'.
Proof. intros (j & ? & HG). by destruct j as [|[|]]. Qed.
Lemma rely_producer s s' : rely (guar r bl) 0 s s' → guar_consumer r bl s s'.
Proof. intros (j & ? & HG). by destruct j as [|[|]]. Qed.

Ltac stable_consumer :=
  let HG := fresh in intros ? ? ? HG%rely_consumer; solo_unfold; prop_solve.
Ltac stable_producer :=
  let HG := fresh in intros ? ? ? HG%rely_producer; solo_unfold; prop_solve.

Lemma owns_stable c : stable (rely (guar r bl) 1) (owns r bl c).
Proof. stable_consumer. Qed.
Lemma owns_idle_stable c : stable (rely (guar r bl) 1) (owns_idle r bl c).
Proof. stable_consumer. Qed.
Lemma owns_done_stable c : stable (rely (guar r bl) 1) (owns_done r bl c).
Proof. stable_consumer. Qed.
Lemma saw_idle_stable c : stable (rely (guar r bl) 1) (saw_idle r bl c).
Proof. stable_consumer. Qed.
Lemma prepared_stable h : stable (rely (guar r bl) 1) (prepared r bl h).
Proof. stable_consumer. Qed.
Lemma registered_stable h : stable (rely (guar r bl) 1) (registered r bl h).
Proof. stable_consumer. Qed.
Lemma waiting_stable : stable (rely (guar r bl) 1) (waiting r bl).
Proof. stable_consumer. Qed.
Lemma parked_or_done_stable : stable (rely (guar r bl) 1) (parked_or_done r bl).
Proof. stable_consumer. Qed.
Lemma gone_consumer_stable : stable (rely (guar r bl) 1) (gone_consumer r bl).
Proof. stable_consumer. Qed.
Lemma post_consumer_stable e a : stable (rely (guar r bl) 1) (post_consumer r bl e a).
Proof. stable_consumer. Qed.
Lemma unpublished_stable p : stable (rely (guar r bl) 0) (unpublished r bl p).
Proof. stable_producer. Qed.
Lemma building_stable p : stable (rely (guar r bl) 0) (building r bl p).
Proof. stable_producer. Qed.
Lemma ends_with_stable dh : stable (rely (guar r bl) 0) (ends_with r bl dh).
Proof. stable_producer. Qed.
Lemma after_publish_stable p : stable (rely (guar r bl) 0) (after_publish r bl p).
Proof. destruct p; stable_producer. Qed.
Lemma post_producer_stable : stable (rely (guar r bl) 0) (post_producer r bl).
Proof. stable_producer. Qed.

Abbreviation triple_c := (triple (rely (guar r bl) 1) (guar_consumer r bl) (waits 1) (accepted r bl 1)).
Abbreviation triple_p := (triple (rely (guar r bl) 0) (guar_producer r bl) (waits 0) (accepted r bl 0)).

Local Hint Resolve owns_stable owns_idle_stable owns_done_stable saw_idle_stable prepared_stable
  registered_stable waiting_stable parked_or_done_stable post_consumer_stable gone_consumer_stable
  unpublished_stable building_stable ends_with_stable after_publish_stable post_producer_stable : ccpp.

Ltac access :=
  let s := fresh "s" in
  intros s ?; unfold on_cell; solo_unfold;
  fwd; destruct (published (s_cell s)) eqn:?;
  match goal with H : inv _ _ s |- _ => unfold inv in H end; fwd; simpl;
  repeat case_match; simplify_eq; try discriminate;
  try (split; [intros _|]; unfold inv; simpl); prop_solve.

Lemma load_c c : triple_c (owns_idle r bl c) (pc_load env)
  (λ st s, (st = pc_producer_done ∧ owns_done r bl c s) ∨ (st = pc_idle ∧ saw_idle r bl c s)).
Proof.
  apply triple_step; [auto with ccpp|..].
  - intros st s s' [[??]|[??]] ?; [left|right]; (split; [done|]).
    + by eapply owns_done_stable.
    + by eapply saw_idle_stable.
  - access.
Qed.
Lemma assert_done_c c : triple_c (owns_done r bl c) (assert_done env) (λ _, owns_done r bl c).
Proof. apply triple_step; [auto with ccpp..|]. access. Qed.
Lemma set_await_handle_c h : triple_c (saw_idle r bl (Some h)) (set_await_handle env h) (λ _, prepared r bl h).
Proof. apply triple_step; [auto with ccpp..|]. access. Qed.
Lemma cas_set_c h : triple_c (prepared r bl h) (pc_compare_exchange env pc_idle pc_consumer_set)
   (λ b, if b then registered r bl h else owns_done r bl (Some h)).
Proof. apply triple_step; [auto with ccpp|intros []; auto with ccpp|]. access. Qed.
Lemma cas_wait_c : bl = true → triple_c (saw_idle r bl None) (pc_compare_exchange env pc_idle pc_consumer_waiting)
   (λ b, if b then waiting r bl else owns_done r bl None).
Proof. intros Hbl. apply triple_step; [auto with ccpp|intros []; auto with ccpp|]. access. Qed.

Lemma read_status_c c : triple_c (owns_done r bl c) (read_producer_status env) (λ _, owns_done r bl c).
Proof. apply triple_step; [auto with ccpp..|]. access. Qed.
Lemma suspend_c h : triple_c (owns_idle r bl None) (suspend h) (λ _, owns_idle r bl (Some h)).
Proof. apply triple_step; [auto with ccpp..|]. access. Qed.
Lemma resume_self_c h : triple_c (owns_done r bl (Some h)) resume_self (λ _, owns_done r bl None).
Proof. apply triple_step; [auto with ccpp..|]. access. Qed.
Lemma wait_resumed_c h : triple_c (registered r bl h) (wait_resumed h) (λ _, owns_done r bl None).
Proof. apply triple_step; [auto with ccpp..|]. access. Qed.
Lemma load_waiting_c : triple_c (waiting r bl) (pc_load env)
  (λ st s, waiting r bl s ∧ (st = pc_producer_done → published (s_cell s) = true)).
Proof.
  apply triple_step; [auto with ccpp| |access].
  intros st. stable_consumer.
Qed.
Lemma delete_joined_c : triple_c (owns_done r bl None) (delete_self env) (λ _ s, inv r bl s ∧ alive (s_cell s) = false).
Proof. apply triple_step; [auto with ccpp|intros []; stable_consumer|access]. Qed.
Lemma producer_get_built : producer_get (built r) = Some (delivered r).
Proof. by destruct r. Qed.

Lemma get_value_c : triple_c (owns_done r bl None)
  (step_of (on_cell env (λ c, match producer_get (m_producer c) with
                              | Some o => Done o c | None => Fault assert_failed end)))
  (λ o s, o = delivered r ∧ owns_done r bl None s).
Proof.
  pose proof producer_get_built.
  apply triple_step; [auto with ccpp|intros o; stable_consumer|access].
Qed.

(** *** Operations *)

Ltac branch :=
  try first [rewrite decide_True by done | rewrite decide_False by done]; cbv beta iota.


Lemma state_get_c :
  triple_c (owns_done r bl None) (state_get env) (λ o s, o = delivered r ∧ owns_done r bl None s).
Proof. eapply triple_bind; [apply assert_done_c|intros []; apply get_value_c]. Qed.

Lemma joined_c {A} (a : A) (Q : A → solo T → Prop) :
  stable (rely (guar r bl) 1) (Q a) →
  (∀ s, inv r bl s → alive (s_cell s) = false → Q a s) →
  triple_c (owns_done r bl None) (complete_joined_consumer env ;;; ret a) Q.
Proof.
  intros HQ Ha. eapply triple_bind; [|intros []; apply triple_ret; [done|]].
  - eapply triple_bind; [apply assert_done_c|intros []; apply delete_joined_c].
  - intros s []. auto.
Qed.

Lemma await_resume_c :
  triple_c (owns_done r bl None) (await_resume env)
    (λ o s, o = delivered r ∧ inv r bl s ∧ alive (s_cell s) = false).
Proof.
  eapply triple_bind; [apply state_get_c|]. intros o. apply triple_pure; intros ->.
  apply joined_c; [stable_consumer|done].
Qed.

Lemma await_c h : triple_c (owns_idle r bl (Some h)) (await env h)
  (λ b, if b then registered r bl h else owns_done r bl (Some h)).
Proof.
  eapply triple_bind; [apply load_c|]. intros st.
  apply triple_or; apply triple_pure; intros ->; branch.
  - by apply triple_ret; [auto with ccpp|].
  - eapply triple_bind; [apply set_await_handle_c|intros []].
    eapply triple_bind; [apply cas_set_c|]. intros []; [by apply triple_ret; [auto with ccpp|]|].
    eapply triple_bind; [apply assert_done_c|intros []]. by apply triple_ret; [auto with ccpp|].
Qed.

Lemma await_until_resumed_c h :
  triple_c (owns_idle r bl None) (await_until_resumed h) (λ _, owns_done r bl None).
Proof.
  eapply triple_bind; [apply suspend_c|intros []].
  eapply triple_bind; [apply await_c|intros []].
  - apply wait_resumed_c.
  - apply resume_self_c.
Qed.

Lemma park_c : triple_c (waiting r bl) (pc_wait env pc_consumer_waiting) (λ _, owns_done r bl None).
Proof.
  eapply triple_bind with (R := λ b : bool, if b then parked_or_done r bl else owns_done r bl None).
  - apply triple_step; [auto with ccpp|intros []; auto with ccpp|]. access.
  - intros []; [|by apply triple_ret; [auto with ccpp|]].
    apply triple_step; [auto with ccpp..|]. access.
Qed.

Lemma load_done_c c : triple_c (owns_done r bl c) (pc_load env)
  (λ st s, st = pc_producer_done ∧ owns_done r bl c s).
Proof. apply triple_step; [auto with ccpp|intros st; stable_consumer|access]. Qed.

Lemma wait_loop_c : triple_c (waiting r bl) (wait_loop env 2) (λ _, owns_done r bl None).
Proof.
  eapply triple_bind; [apply load_waiting_c|]. intros st. case_decide as Hst.
  - apply triple_ret; [auto with ccpp|]. solo_unfold. prop_solve.
  - eapply triple_bind with (R := λ _, owns_done r bl None).
    + eapply triple_conseq; [apply park_c|naive_solver..].
    + intros []. eapply triple_bind; [apply load_done_c|]. intros st'.
      apply triple_pure; intros ->. branch. by apply triple_ret; [auto with ccpp|].
Qed.

Lemma wait_c : bl = true → triple_c (owns_idle r bl None) (wait env) (λ _, owns_done r bl None).
Proof.
  intros Hbl.
  eapply triple_bind; [apply load_c|]. intros st.
  apply triple_or; apply triple_pure; intros ->; branch.
  - by apply triple_ret; [auto with ccpp|].
  - eapply triple_bind; [by apply cas_wait_c|]. intros []; [|apply assert_done_c].
    eapply triple_bind; [apply wait_loop_c|intros []; apply assert_done_c].
Qed.

Lemma status_c : triple_c (owns_idle r bl None) (status env) (λ _, owns_idle r bl None).
Proof.
  eapply triple_bind; [apply load_c|]. intros st.
  apply triple_or; apply triple_pure; intros ->; branch.
  - eapply triple_conseq; [apply (read_status_c None)|done|]. solo_unfold. prop_solve.
  - apply triple_ret; [auto with ccpp|]. solo_unfold. prop_solve.
Qed.

Lemma drop_c : triple_c (owns_idle r bl None) (complete_consumer env)
  (λ _, gone_consumer r bl).
Proof.
  eapply triple_bind; [apply load_c|]. intros st.
  apply triple_or; apply triple_pure; intros ->; branch.
  - eapply triple_conseq; [apply delete_joined_c|done|]. solo_unfold. prop_solve.
  - eapply triple_bind with (R := λ st s,
      st = pc_idle ∧ gone_consumer r bl s ∨
      st = pc_producer_done ∧ inv r bl s ∧ alive (s_cell s) = true ∧ published (s_cell s) = true ∧
      dropped (s_cell s) = true ∧ m_pc_state (s_cell s) = pc_consumer_done).
    + apply triple_step; [auto with ccpp|intros st; stable_consumer|access].
    + intros st. apply triple_or; apply triple_pure; intros ->; branch.
      * by apply triple_ret; [auto with ccpp|].
      * apply triple_step; [stable_consumer|auto with ccpp|access].
Qed.

Lemma consumer_side_c ops e : (blocking ops e = true → bl = true) →
  triple_c (owns_idle r bl None) (consumer_side ops e) (post_consumer r bl e).
Proof.
  induction ops as [|o ops IH]; intros Hbl.
  - destruct e as [|h|].
    + eapply triple_bind; [eapply triple_bind; [by apply wait_c, Hbl|intros []; apply await_resume_c]|].
      intros o. apply triple_ret; [auto with ccpp|]. solo_unfold. simpl. prop_solve.
    + eapply triple_bind; [eapply triple_bind; [apply await_until_resumed_c|intros []; apply await_resume_c]|].
      intros o. apply triple_ret; [auto with ccpp|]. solo_unfold. simpl. prop_solve.
    + eapply triple_bind; [apply drop_c|intros []]. by apply triple_ret; [auto with ccpp|].
  - eapply triple_bind with (R := λ _, owns_idle r bl None); [|intros []; apply IH; intros Hb; apply Hbl; unfold blocking in *; simpl; by destruct o].
    destruct o as [| |h].
    + eapply triple_bind; [apply status_c|intros ?]. by apply triple_ret; [auto with ccpp|].
    + eapply triple_conseq; [by apply wait_c, Hbl|done|]. solo_unfold. prop_solve.
    + eapply triple_conseq; [apply await_until_resumed_c|done|]. solo_unfold. prop_solve.
Qed.

(** *** The producer *)

Lemma build_p q : built q = built r →
  triple_p (building r bl produced_nothing) (from_callable env q) (λ _, building r bl (built r)).
Proof.
  intros Hq. destruct q; simpl in *; unfold set_result, set_exception, build_result, build_exception;
    (apply triple_step; [auto with ccpp..|access]).
Qed.

Lemma final_suspend_p dh : triple_p (building r bl (built r))
  (final_suspend dh) (λ _, ends_with r bl dh).
Proof. apply triple_step; [stable_producer|auto with ccpp|]. access. Qed.
Lemma set_done_handle_p dh : triple_p (ends_with r bl dh)
  (step_of (on_cell env (λ c, Done tt (set_done_handle dh c)))) (λ _, ends_with r bl dh).
Proof. apply triple_step; [auto with ccpp..|]. access. Qed.

Lemma publish_p dh : triple_p (ends_with r bl dh) (pc_exchange env pc_producer_done)
  (after_publish r bl).
Proof.
  apply triple_step; [auto with ccpp..|]. intros s Hs.
  destruct (m_pc_state (s_cell s)) eqn:?, (armed (s_cell s)) eqn:?, (s_parked s) eqn:?,
    (dropped (s_cell s)) eqn:?; revert s Hs Heqp Heqb Heqb0 Heqb1; access.
Qed.

Lemma read_consumer_p : triple_p (after_publish r bl pc_consumer_set)
  (step_of (on_cell env (λ c, Done (m_consumer c) c)))
  (λ k s, ∃ h, k = consumer_await h ∧ after_publish r bl pc_consumer_set s ∧ s_coro s = Some h).
Proof. apply triple_step; [auto with ccpp|intros k; stable_producer|access]. Qed.

Lemma resume_p h : triple_p (λ s, after_publish r bl pc_consumer_set s ∧ s_coro s = Some h)
  (step_of (solo_resume h)) (λ _, post_producer r bl).
Proof. apply triple_step; [stable_producer|auto with ccpp|]. unfold solo_resume. access. Qed.

Lemma complete_producer_p dh :
  triple_p (ends_with r bl dh) (complete_producer env dh) (λ _, post_producer r bl).
Proof.
  eapply triple_bind; [apply set_done_handle_p|intros []].
  eapply triple_bind; [apply publish_p|intros []]; cbv beta iota.
  - apply triple_ret; [auto with ccpp|]. solo_unfold. prop_solve.
  - eapply triple_bind; [apply read_consumer_p|]. intros k s (h & -> & ?). by apply resume_p.
  - apply triple_step; [auto with ccpp..|]. access.
  - apply triple_step; [auto with ccpp..|]. access.
  - intros s (_ & _ & []).
Qed.

Lemma producer_side_p dh :
  triple_p (building r bl produced_nothing) (producer_side r dh) (λ a s, post_producer r bl s ∧ a = None).
Proof.
  eapply triple_bind; [by apply build_p|intros []].
  eapply triple_bind; [apply final_suspend_p|intros []].
  eapply triple_bind; [apply complete_producer_p|intros []]. by apply triple_ret; [stable_producer|].
Qed.

Lemma inv_init : inv r bl solo_init.
Proof. unfold inv. simpl. prop_solve. Qed.

Lemma sides_safe dh ops e : (blocking ops e = true → bl = true) →
  pool_safe (guar r bl) waits (accepted r bl) (post r bl e) (sides r dh ops e).
Proof.
  intros Hbl. pose proof inv_init. intros i p Hp. destruct i as [|[|]]; simplify_eq/=.
  - apply producer_side_p. solo_unfold. prop_solve.
  - apply consumer_side_c; [done|]. solo_unfold. prop_solve.
Qed.

(** The facts that the theorems below are made of. *)
Lemma sides_stuck dh ops e c : (blocking ops e = true → bl = true) →
  rtc pstep (sides r dh ops e) c → (∀ c', ¬ pstep c c') →
  c.1 !! 1 = Some (ret (expected r e)) ∧ alive (s_cell c.2) = false ∧
  (c.1 !! 0 = Some (ret None) ∨ bl = true ∧ pfault c notify_after_free).
Proof.
  intros Hbl Hc Hstuck. destruct (rg_sound _ _ _ _ _ _ (sides_safe dh ops e Hbl) Hc) as (Hf & Hb & Hq).
  pose proof (steps_length _ _ Hc) as Hlen. simpl in Hlen.
  assert (finished 0 c ∧ post_producer r bl c.2 ∨
    pfault c notify_after_free ∧ bl = true ∧ inv r bl c.2 ∧ alive (s_cell c.2) = false) as H0.
  { destruct (thread_cases 0 c) as [[a Ha]|[Hw%Hb|[[f Hx]|[? ?%Hstuck]]]]; [lia| |done| |done].
    - left. split; [by exists a|]. by destruct (Hq _ _ Ha).
    - right. destruct (Hf _ _ Hx) as (-> & ? & ? & ?). split_and!; [by econstructor|done..]. }
  assert (finished 1 c) as [b H1].
  { destruct (thread_cases 1 c) as [?|[Hw%Hb|[[f Hx]|[? ?%Hstuck]]]]; [lia|done| | |done].
    - solo_unfold. unfold inv in *. prop_solve.
    - by destruct (Hf _ _ Hx). }
  destruct (Hq _ _ H1) as [Hgone ->]. split; [done|].
  destruct H0 as [[[a Ha] Hp]|(Hx & ? & ? & ?)]; [|naive_solver]. destruct (Hq _ _ Ha) as [_ ->].
  split; [solo_unfold; prop_solve|by left].
Qed.
End proofs.

(** ** Theorems *)

(** C1: whatever a producer and a consumer that polls the status, waits, resolves, and
    finally gets, awaits or drops the result do, and however their atomic
    accesses interleave, no assertion of [result_state] fails, no side reads, writes
    or frees the state after it was freed, and no coroutine is resumed that is
    not suspended.  The one thing that can go wrong is that the producer calls
    [notify_one] on a state that was freed, and only with a consumer that blocks its
    thread in [wait] or [get].  The consumers of [wait_for] and [when_any] are not
    among these. *)
Theorem result_protocol_fault_free {T} (r : T + exn) dh ops e c f :
  rtc pstep (sides r dh ops e) c → pfault c f → f = notify_after_free ∧ blocking ops e = true.
Proof.
  intros Hc Hf. destruct Hf as [[i b] c f Hx].
  destruct (rg_sound _ _ _ _ _ _ (sides_safe r (blocking ops e) dh ops e id) Hc) as (Hf & _ & _).
  apply Hf in Hx. destruct i; [|done]. by destruct Hx as (? & ? & _).
Qed.

(** The consumer sees the result before it would block, gets it and frees the state; the
    producer, which found the consumer waiting, then notifies it. *)
Definition freed_before_notify : list (nat * bool) :=
  (λ i, (i, false)) <$> [1; 1; 0; 0; 0; 0; 1; 1; 1; 1; 1; 1; 0].

(** A result that is got while it is produced can be freed before [complete_producer] calls
    [notify_one] on it. *)
Theorem notify_after_get : ∃ c, rtc pstep (sides (inl 42) None [] end_get) c ∧ pfault c notify_after_free.
Proof. by apply (run_schedule_fault freed_before_notify). Qed.

Lemma result_protocol_fault_free_witness :
  ∃ c f, rtc pstep (sides (inl 42) None [] end_get) c ∧ pfault c f ∧ f = notify_after_free ∧ blocking [] end_get = true.
Proof.
  destruct (run_schedule_fault freed_before_notify (sides (inl 42) None [] end_get) notify_after_free) as (c & Hc & Hf); [reflexivity|].
  exists c, notify_after_free. split; [exact Hc|]. split; [exact Hf|]. exact (result_protocol_fault_free _ _ _ _ _ _ Hc Hf).
Defined.

(** C6: a producer and a consumer that polls the status, waits, resolves, and finally gets,
    awaits or drops the result cannot run for ever, and when they cannot go on, no
    wake-up was lost: the consumer has finished with exactly the value or the exception
    that the producer stored, or dropped the result, the state has been freed, and
    the producer has finished too, unless it is at the [notify_one] of a consumer that
    blocks and has freed the state. *)
Theorem result_protocol_completes {T} (r : T + exn) dh ops e :
  Acc (flip pstep) (sides r dh ops e) ∧
  ∀ c, rtc pstep (sides r dh ops e) c → (∀ c', ¬ pstep c c') →
    c.1 !! 1 = Some (ret (expected r e)) ∧ alive (s_cell c.2) = false ∧
    (c.1 !! 0 = Some (ret None) ∨ blocking ops e = true ∧ pfault c notify_after_free).
Proof.
  split; [apply pstep_wf|]. intros c Hc Hstuck. by apply (sides_stuck r (blocking ops e) dh ops e c id).
Qed.
