(* ===== verification/ResultRaces.v ===== *)
(** * [wait_for]: what it does alone, and its race with the producer

    [wait_for] registers a semaphore and rewinds the registration when it times
    out.  Alone it leaves the state as it found it; but a consumer whose
    [wait_for] times out while the producer publishes may free the state that
    the producer is about to read. *)

From S2P Require Import Prelude Conc ResultState ResultProtocol.
From stdpp Require Import options.
Local Open Scope prog_scope.

(** ** Running one thread *)

(** Runs a program alone; the environment's choices are given as a list. *)
Fixpoint run_alone {S A} (p : prog S A) (choices : list bool) (s : S) : option (A * S) :=
  match p with
  | ret a => Some (a, s)
  | act f k => match f s with Done b s' => run_alone (k b) choices s' | _ => None end
  | pick k => match choices with b :: bs => run_alone (k b) bs s | [] => None end
  end.

(** ** A consumer that polls with [wait_for] *)

Section wait_for.
Context {T : Type}.
Let env := solo_env T.

(** [if (result.wait_for(d) != result_status::idle) result.get();] *)
Definition poll_then_get : prog (solo T) (option (outcome T)) :=
  st <-- wait_for env ;;
  match st with
  | status_idle => ret None
  | _ => r <-- result_get env ;; ret (Some r)
  end.

Definition poll_sides (r : T + exn) (done_handle : option handle)
    : pool (solo T) (option (outcome T)) * solo T :=
  ([producer_side r done_handle; poll_then_get], solo_init).
End wait_for.

(** The consumer registers, times out, and the producer publishes just before
    the consumer tries to rewind; the consumer gets the value and frees the
    state before the producer has looked at the consumer. *)
Definition freed_before_resume : list (nat * bool) :=
  (λ i, (i, false)) <$> [1; 1; 1; 1; 1; 0; 0; 0; 0; 1; 1; 1; 1; 1; 1; 1; 1; 0].

(** C37: a result that is polled with [wait_for] and then got can be freed while
    [complete_producer] still needs it: the producer's [resume_consumer] reads
    the freed state. *)
Theorem wait_for_use_after_free :
  ∃ c, rtc pstep (poll_sides (inl 42) None) c ∧ pfault c use_after_free.
Proof. by apply (run_schedule_fault freed_before_resume). Qed.

(** Alone, a [wait_for] that times out on a pending result answers [idle]
    and leaves the result state as it was, so that the consumer can wait again. *)
Theorem wait_for_timeout_rewinds {T} (s : solo T) :
  alive (s_cell s) = true → m_pc_state (s_cell s) = pc_idle →
  m_consumer (s_cell s) = consumer_idle → armed (s_cell s) = false →
  run_alone (wait_for (solo_env T)) [false] s =
    Some (status_idle, Solo (s_cell s) (s_parked s) (s_coro s) (s_sems s ++ [0]) (s_notified s) (s_final s)).
Proof.
  destruct s as [[pc k p dh a ar pu dr] pk co se no fi]; simpl. intros -> -> -> ->. done.
Qed.

Lemma wait_for_timeout_rewinds_witness :
  run_alone (wait_for (solo_env nat)) [false] solo_init =
    Some (status_idle, Solo new_state false None [0] [] None).
Proof. exact (wait_for_timeout_rewinds solo_init eq_refl eq_refl eq_refl eq_refl). Defined.
