(* ===== verification/WhenAny.v ===== *)
(** * [when_any] and [when_all] over a vector of results

    The results of one [when_any] call, each with its own state and producer,
    and the [when_any_context] the call shares with the producers. *)

From S2P Require Import Prelude Conc ResultState.
From stdpp Require Import options.
Local Open Scope prog_scope.

(** [m_status]: [k_processing], [k_done_processing] or the address of the state
    that completed first, here its index. *)
Inductive any_status : Type :=
  | k_processing
  | k_done_processing
  | completed (i : nat).

#[global] Instance any_status_eq_dec : EqDecision any_status.
Proof. solve_decision. Defined.

(** A slot is the state of a result and the flag of a parked waiter; [w_coro] is
    the coroutine that awaits, if it is suspended. *)
Record wstate (T : Type) : Type := WState {
  w_slots : list (rstate T * bool);
  w_status : any_status;
  w_coro : option handle }.
Arguments WState {T}.
Arguments w_slots {T} _.
Arguments w_status {T} _.
Arguments w_coro {T} _.

Definition slot {T} (i : nat) (m : wstate T) : rstate T * bool :=
  default (kill new_state, false) (w_slots m !! i).

Section when_any.
Context {T : Type}.
Implicit Types m : wstate T.

(** ** [when_any_context] *)

Definition status_load : prog (wstate T) any_status := step_of (λ m, Done (w_status m) m).

Definition status_compare_exchange (old new : any_status) : prog (wstate T) bool :=
  step_of (λ m, if decide (w_status m = old)
                then Done true (WState (w_slots m) new (w_coro m)) else Done false m).

Definition resume_coro (h : handle) m : access (wstate T) unit :=
  if decide (w_coro m = Some h) then Done tt (WState (w_slots m) (w_status m) None)
  else Fault bad_resume.

Definition assert_that (b : bool) : prog (wstate T) unit :=
  if b then ret tt else step_of (λ _, Fault assert_failed).

Definition any_result_finished : prog (wstate T) bool :=
  status <-- status_load ;;
  assert_that (bool_decide (status ≠ k_done_processing)) ;;;
  ret (bool_decide (status ≠ k_processing)).

Definition finish_processing : prog (wstate T) bool :=
  status <-- status_load ;;
  assert_that (bool_decide (status ≠ k_done_processing)) ;;;
  status_compare_exchange k_processing k_done_processing.

(** The loop of [try_resume], unrolled: the status never returns to
    [k_processing], so the second round returns. *)
Fixpoint try_resume_loop (fuel : nat) (m_coro_handle : handle) (completed_result : nat)
    : prog (wstate T) unit :=
  match fuel with
  | 0 => step_of (λ _, Fault out_of_fuel)
  | S n =>
      status <-- status_load ;;
      match status with
      | completed _ => ret tt
      | k_done_processing =>
          swapped <-- status_compare_exchange k_done_processing (completed completed_result) ;;
          if (swapped : bool) then step_of (resume_coro m_coro_handle) else ret tt
      | k_processing =>
          res <-- status_compare_exchange k_processing (completed completed_result) ;;
          if (res : bool) then ret tt else try_resume_loop n m_coro_handle completed_result
      end
  end.

Definition try_resume : handle → nat → prog (wstate T) unit := try_resume_loop 2.

Definition resume_inline (completed_result : nat) : prog (wstate T) bool :=
  status <-- status_load ;;
  assert_that (bool_decide (status ≠ k_done_processing)) ;;;
  if decide (status ≠ k_processing) then ret false
  else status_compare_exchange k_processing (completed completed_result) ;;; ret false.

Definition completed_result : prog (wstate T) any_status := status_load.

(** ** The results of the call

    No other consumer waits for them: there is no semaphore and no shared
    result in this memory.  The only context is that of the caller [h].  The
    producers are promises, not coroutines, and have no frame. *)
Definition set_slot (i : nat) (x : rstate T * bool) m : wstate T :=
  WState (<[i := x]> (w_slots m)) (w_status m) (w_coro m).

(** The producer of result [i] resumes the coroutine that awaits this result
    alone, which also ends the ghost [armed] of the state. *)
Definition resume_awaiting (i : nat) (h : handle) m : access (wstate T) unit :=
  match resume_coro h m with
  | Done _ m' => Done tt (set_slot i (set_armed false (slot i m').1, (slot i m').2) m')
  | Block => Block
  | Fault e => Fault e
  end.

Definition slot_env (h : handle) (i : nat) : result_env (wstate T) T := {|
  cell m := (slot i m).1;
  set_cell c m := set_slot i (c, (slot i m).2) m;
  parked m := (slot i m).2;
  set_parked b m := set_slot i ((slot i m).1, b) m;
  frame_done _ _ := false;
  resume_handle := resume_awaiting i;
  new_semaphore _ := Fault null_deref;
  semaphore_release _ _ := Fault null_deref;
  semaphore_acquire _ _ := Fault null_deref;
  when_any_try_resume _ := try_resume h i;
  shared_on_result_finished _ := step_of (λ _, Fault null_deref) |}.

(** ** [when_any_awaitable] *)

(** [std::make_shared<when_any_context>(coro_handle)] *)
Definition new_context : prog (wstate T) unit :=
  step_of (λ m, Done tt (WState (w_slots m) k_processing (w_coro m))).

(** The loop of [await_suspend] from index [i] on, over [k] results. *)
Fixpoint await_suspend_loop (h : handle) (i k : nat) : prog (wstate T) bool :=
  match k with
  | 0 => finish_processing
  | S k =>
      finished <-- any_result_finished ;;
      if (finished : bool) then ret false else
      status <-- when_any (slot_env h i) 0 ;;
      if decide (status = pc_producer_done) then resume_inline i
      else await_suspend_loop h (S i) k
  end.

(** [await_suspend]: [false] resumes the coroutine at once. *)
Definition when_any_await_suspend (h : handle) (n : nat) : prog (wstate T) bool :=
  new_context ;;; await_suspend_loop h 0 n.

(** The loop of [await_resume]: [index] is the index found so far. *)
Fixpoint await_resume_loop (h : handle) (done : any_status) (i k : nat) (index : option nat)
    : prog (wstate T) (option nat) :=
  match k with
  | 0 => ret index
  | S k =>
      try_rewind_consumer (slot_env h i) ;;;
      await_resume_loop h done (S i) k (if decide (done = completed i) then Some i else index)
  end.

Definition when_any_await_resume (h : handle) (n : nat) : prog (wstate T) nat :=
  done <-- completed_result ;;
  index <-- await_resume_loop h done 0 n None ;;
  match index with
  | Some i => ret i
  | None => step_of (λ _, Fault assert_failed)
  end.

(** [when_any_impl] up to [resume_on]: [h] awaits [n] results. *)
Definition when_any_suspend (h : handle) : prog (wstate T) unit :=
  step_of (λ m, Done tt (WState (w_slots m) (w_status m) (Some h))).
Definition when_any_continue : prog (wstate T) unit :=
  step_of (λ m, Done tt (WState (w_slots m) (w_status m) None)).
Definition when_any_wait_resumed (h : handle) : prog (wstate T) unit :=
  step_of (λ m, if decide (w_coro m = Some h) then Block else Done tt m).

Definition when_any_impl (h : handle) (n : nat) : prog (wstate T) (option nat) :=
  when_any_suspend h ;;;
  suspended <-- when_any_await_suspend h n ;;
  (if (suspended : bool) then when_any_wait_resumed h else when_any_continue) ;;;
  i <-- when_any_await_resume h n ;; ret (Some i).

Definition any_producer (h : handle) (i : nat) (r : T + exn) : prog (wstate T) (option nat) :=
  from_callable (slot_env h i) r ;;; complete_producer (slot_env h i) None ;;; ret None.

(** [when_all_impl]: awaits the results one after the other.  The [resume_on] after the
    loop, which touches no result, is that of [Coroutines]. *)
Fixpoint when_all_loop (h : handle) (i k : nat) : prog (wstate T) unit :=
  match k with
  | 0 => ret tt
  | S k =>
      when_any_suspend h ;;;
      suspended <-- await (slot_env h i) h ;;
      (if (suspended : bool) then when_any_wait_resumed h else when_any_continue) ;;;
      when_all_loop h (S i) k
  end.

Definition when_all_impl (h : handle) (n : nat) : prog (wstate T) (option nat) :=
  when_all_loop h 0 n ;;; ret None.

(** The pool of one call: thread [i] produces result [i], the last thread is
    the caller. *)
Definition fresh_slots (n : nat) : list (rstate T * bool) := replicate n (new_state, false).

Definition any_pool (h : handle) (rs : list (T + exn)) : pool (wstate T) (option nat) * wstate T :=
  (imap (any_producer h) rs ++ [when_any_impl h (length rs)],
   WState (fresh_slots (length rs)) k_processing None).

Definition all_pool (h : handle) (rs : list (T + exn)) : pool (wstate T) (option nat) * wstate T :=
  (imap (any_producer h) rs ++ [when_all_impl h (length rs)],
   WState (fresh_slots (length rs)) k_processing None).
End when_any.

(** ** A wake-up that [when_any] loses *)

(** The caller loads [m_pc_state], the producer publishes, and the exchange of
    the caller fails. *)
Definition lost_wakeup : list (nat * bool) :=
  (λ i, (i, true)) <$> [1; 1; 1; 1; 0; 0; 0; 1; 1; 1; 1; 1].

(** C36: [when_any] can lose its wake-up: with one result there is a run after
    which the result is ready and its producer gone, nothing can happen any
    more, and the caller is still suspended.  [result_state_base::when_any]
    returns the state it loaded before the failed exchange, so [await_suspend]
    takes the result for pending. *)
Theorem when_any_loses_wakeup :
  ∃ c, rtc pstep (any_pool 7 [inl 42]) c ∧
    finished 0 c ∧ blocked 1 c ∧ published (slot 0 c.2).1 = true ∧ ∀ c', ¬ pstep c c'.
Proof.
  destruct (run_check_spec lost_wakeup (any_pool 7 [inl 42])
    (λ c, is_finished 0 c && is_blocked 1 c && published (slot 0 c.2).1 && is_stuck c))
    as (c & Hc & Hφ); [by vm_compute|].
  rewrite !andb_true_iff in Hφ. destruct Hφ as [[[? ?] ?] ?].
  exists c. split_and!; [done|by apply is_finished_spec|by apply is_blocked_spec|done|].
  by apply is_stuck_spec.
Qed.
