(* ===== verification/WhenAll.v ===== *)
(** * [when_all] over every interleaving

    [when_all_impl] awaits the results of a vector one after the other, while
    their producers publish in any order.  The rely-guarantee proof of
    [ResultProtocol] is carried over to a memory with several states and one
    coroutine: the coroutine is armed in at most one state, and while it is,
    nobody but the producer of that state touches it. *)

From S2P Require Import Prelude Conc ResultState ResultProtocol WhenAny.
From stdpp Require Import options.
Local Open Scope prog_scope.

(** ** Slots *)

Section slots.
Context {T : Type}.
Implicit Types s : wstate T.

Abbreviation pc i s := (m_pc_state (slot i s).1).
Abbreviation cons i s := (m_consumer (slot i s).1).
Abbreviation prod i s := (m_producer (slot i s).1).
Abbreviation arm i s := (armed (slot i s).1).
Abbreviation pub i s := (published (slot i s).1).

Lemma slot_set_eq i x s : i < length (w_slots s) → slot i (set_slot i x s) = x.
Proof. intros Hi. unfold slot, set_slot; simpl. by rewrite list_lookup_insert_eq. Qed.
Lemma slot_set_ne i k x s : k ≠ i → slot k (set_slot i x s) = slot k s.
Proof. intros Hk. unfold slot, set_slot; simpl. by rewrite list_lookup_insert_ne. Qed.
Lemma set_slot_id i s : i < length (w_slots s) → set_slot i (slot i s) s = s.
Proof.
  intros [x Hx]%lookup_lt_is_Some. destruct s as [l ? ?]. unfold slot, set_slot; simpl in *.
  rewrite Hx; simpl. by rewrite list_insert_id.
Qed.

(** ** Assertions *)

Context (h : handle) (rs : list (T + exn)).

(** The phase of a state follows from what its two sides have done. *)
Definition phase (c : rstate T) : pc_state :=
  if published c then pc_producer_done else if armed c then pc_consumer_set else pc_idle.

Definition slot_inv (r : T + exn) (coro : option handle) (x : rstate T * bool) : Prop :=
  x.2 = false ∧ alive x.1 = true ∧ m_pc_state x.1 = phase x.1 ∧
  (published x.1 = true → m_producer x.1 = built r) ∧
  (armed x.1 = true → m_consumer x.1 = consumer_await h ∧ coro = Some h).

Definition all_inv s : Prop :=
  length (w_slots s) = length rs ∧
  (∀ i r, rs !! i = Some r → slot_inv r (w_coro s) (slot i s)) ∧
  (∀ i k, arm i s = true → arm k s = true → i = k).

(** Producer [i] changes its own state alone; it publishes once, and resumes
    the coroutine once, if it is armed there. *)
Definition guar_all_producer (i : nat) s s' : Prop :=
  all_inv s → all_inv s' ∧ (∀ k, k ≠ i → slot k s' = slot k s) ∧
  cons i s' = cons i s ∧ (pub i s = true → pub i s' = true) ∧
  (arm i s' = arm i s ∧ w_coro s' = w_coro s ∨
   arm i s = true ∧ pub i s = true ∧ arm i s' = false ∧ w_coro s' = None).

(** The caller does nothing while it is armed, and arms itself only in a state
    that has not been published. *)
Definition guar_all_caller s s' : Prop :=
  all_inv s → all_inv s' ∧ ∀ i, pub i s' = pub i s ∧ prod i s' = prod i s ∧
  (arm i s = true → arm i s' = true) ∧ (pub i s = true → arm i s' = arm i s).

(** The caller has passed the first [j] results and has not registered with the
    others. *)
Definition at_result (j : nat) (coro : option handle) s : Prop :=
  all_inv s ∧ w_coro s = coro ∧ ∀ k,
    arm k s = false ∧ (k < j → pub k s = true) ∧ (j ≤ k → k < length rs → cons k s = consumer_idle).

Definition handle_stored (j : nat) s : Prop :=
  all_inv s ∧ w_coro s = Some h ∧ cons j s = consumer_await h ∧ ∀ k,
    arm k s = false ∧ (k < j → pub k s = true) ∧ (j < k → k < length rs → cons k s = consumer_idle).

Definition registered_at (j : nat) s : Prop :=
  all_inv s ∧ j < length rs ∧
  (arm j s = true ∨ arm j s = false ∧ pub j s = true ∧ w_coro s = None) ∧ ∀ k,
    (k ≠ j → arm k s = false) ∧ (k < j → pub k s = true) ∧
    (j < k → k < length rs → cons k s = consumer_idle).

Definition producing (i : nat) (p : producer_context T) s : Prop :=
  all_inv s ∧ pub i s = false ∧ prod i s = p.

Definition has_published (i : nat) (before : pc_state) s : Prop :=
  all_inv s ∧ pub i s = true ∧
  match before with
  | pc_idle => arm i s = false
  | pc_consumer_set => arm i s = true
  | _ => False
  end.

Definition produced (i : nat) s : Prop := all_inv s ∧ pub i s = true ∧ arm i s = false.

Definition guar_all (i : nat) : wstate T → wstate T → Prop :=
  if decide (i < length rs) then guar_all_producer i
  else if decide (i = length rs) then guar_all_caller else λ _ _, False.
Definition waits_all (i : nat) s : Prop :=
  i = length rs ∧ ∃ j, j < length rs ∧ arm j s = true.
Definition post_all (i : nat) (a : option nat) s : Prop :=
  a = None ∧ if decide (i < length rs) then produced i s else at_result (length rs) None s.

(** ** Stability *)

Lemma rely_caller s s' :
  rely guar_all (length rs) s s' → ∃ i, i < length rs ∧ guar_all_producer i s s'.
Proof. intros (j & ? & HG). unfold guar_all in HG. repeat case_decide; naive_solver. Qed.

Lemma rely_all_producer i s s' :
  i < length rs → rely guar_all i s s' → all_inv s →
  all_inv s' ∧ pub i s' = pub i s ∧ prod i s' = prod i s ∧
  (arm i s = true → arm i s' = true) ∧ (pub i s = true → arm i s' = arm i s).
Proof.
  intros Hi (j & Hj & HG) Hs. unfold guar_all in HG. repeat case_decide; [| |done].
  - destruct (HG Hs) as (? & Hk & _). by rewrite !Hk.
  - destruct (HG Hs) as (? & Hk). split; [done|apply Hk].
Qed.

(** What every other thread leaves of each state, for the caller. *)
Lemma rely_all_caller s s' :
  rely guar_all (length rs) s s' → all_inv s →
  all_inv s' ∧ (∀ k, cons k s' = cons k s ∧ (pub k s = true → pub k s' = true) ∧
    (arm k s' = arm k s ∨ arm k s = true ∧ arm k s' = false ∧ pub k s' = true ∧ w_coro s' = None)) ∧
  (w_coro s' = w_coro s ∨ ∃ k, arm k s = true).
Proof.
  intros (i & Hi & HG)%rely_caller Hs. destruct (HG Hs) as (? & Hne & Hc & Hp & Ha).
  split; [done|]. split; [|naive_solver]. intros k. destruct (decide (k = i)) as [->|Hk].
  - naive_solver.
  - rewrite !Hne by done. naive_solver.
Qed.

Ltac stable_caller :=
  let s := fresh "s" in let s' := fresh "s'" in let HP := fresh "HP" in let HR := fresh "HR" in
  let Hk := fresh "Hk" in let Hco := fresh "Hco" in
  intros s s' HP HR; pose proof (proj1 HP);
  destruct (rely_all_caller s s' HR) as (? & Hk & Hco); [done|].

Lemma at_result_stable j c : stable (rely guar_all (length rs)) (at_result j c).
Proof.
  stable_caller. destruct HP as (_ & ? & HP). split_and!; [done|naive_solver congruence|].
  intros k. specialize (Hk k). specialize (HP k). fwd; split_and!; prop_solve.
Qed.
Lemma handle_stored_stable j : stable (rely guar_all (length rs)) (handle_stored j).
Proof.
  stable_caller. destruct HP as (_ & ? & ? & HP). split_and!; [done|naive_solver congruence|..].
  - destruct (Hk j) as (-> & _); done.
  - intros k. specialize (Hk k). specialize (HP k). fwd; split_and!; prop_solve.
Qed.
Lemma registered_at_stable j : stable (rely guar_all (length rs)) (registered_at j).
Proof.
  stable_caller. destruct HP as (_ & ? & Hj & HP). split_and!; [done|done|..].
  - destruct (Hk j) as (_ & ? & ?). destruct Hj as [|(Haj & ? & Hc)]; [naive_solver congruence|].
    right. split_and!; [naive_solver congruence|naive_solver|].
    destruct Hco as [->|(k & Hak)]; [done|].
    destruct (decide (k = j)) as [->|]; [congruence|]. destruct (HP k). naive_solver congruence.
  - intros k. specialize (Hk k). specialize (HP k). fwd; split_and!; prop_solve.
Qed.

Ltac stable_all_producer :=
  let s := fresh "s" in let s' := fresh "s'" in let HP := fresh "HP" in let HR := fresh "HR" in
  intros s s' HP HR; pose proof (rely_all_producer _ s s' ltac:(eassumption) HR (proj1 HP)).

Lemma producing_stable i p : i < length rs → stable (rely guar_all i) (producing i p).
Proof. intros Hi. stable_all_producer. unfold producing in *. prop_solve. Qed.
Lemma has_published_stable i p : i < length rs → stable (rely guar_all i) (has_published i p).
Proof. intros Hi. stable_all_producer. unfold has_published in *. destruct p; prop_solve. Qed.
Lemma produced_stable i : i < length rs → stable (rely guar_all i) (produced i).
Proof. intros Hi. stable_all_producer. unfold produced in *. prop_solve. Qed.

(** ** Updates of one state *)

Lemma all_inv_slot i s : all_inv s → i < length rs →
  ∃ r c, rs !! i = Some r ∧ slot i s = (c, false) ∧ slot_inv r (w_coro s) (c, false).
Proof.
  intros (_ & Hs & _) [r Hr]%lookup_lt_is_Some. specialize (Hs _ _ Hr).
  destruct (slot i s) as [c b]. exists r, c. destruct Hs as (Hb & ?). simpl in Hb. by subst.
Qed.

(** An update that neither arms nor disarms. *)
Lemma all_inv_set i r c s :
  all_inv s → rs !! i = Some r → slot_inv r (w_coro s) (c, false) →
  (armed c = true → ∀ k, k ≠ i → arm k s = false) →
  all_inv (set_slot i (c, false) s).
Proof.
  intros (Hlen & Hs & Hu) Hr Hc Ha. pose proof (lookup_lt_Some _ _ _ Hr) as Hi.
  split; [simpl; by rewrite length_insert|]. split.
  - intros k r' Hr'. destruct (decide (k = i)) as [->|].
    + rewrite slot_set_eq by lia. by simplify_eq.
    + rewrite slot_set_ne by done. by apply Hs.
  - intros k k'. destruct (decide (k = i)) as [->|], (decide (k' = i)) as [->|];
      rewrite ?slot_set_eq, ?slot_set_ne by (done || lia); naive_solver congruence.
Qed.

(** The coroutine leaves the state it was armed in. *)
Lemma all_inv_disarm i c s :
  all_inv s → i < length rs → slot i s = (c, false) → armed c = true → published c = true →
  all_inv (set_slot i (set_armed false c, false) (WState (w_slots s) (w_status s) None)).
Proof.
  intros (Hlen & Hs & Hu) Hi Hc Ha Hp. split; [simpl; by rewrite length_insert|].
  assert (∀ k, k ≠ i → arm k s = false) as Hothers.
  { intros k Hk. destruct (arm k s) eqn:Hk'; [|done]. destruct Hk. apply Hu; [done|]. by rewrite Hc. }
  split.
  - intros k r Hr. specialize (Hs k r Hr). destruct (decide (k = i)) as [->|Hk].
    + rewrite slot_set_eq by (simpl; lia). rewrite Hc in Hs. unfold slot_inv, phase in *; simpl in *.
      rewrite Hp in *. naive_solver.
    + rewrite slot_set_ne by done. specialize (Hothers k Hk). unfold slot_inv in *; simpl.
      change (slot k (WState _ _ None)) with (slot k s). rewrite Hothers. naive_solver.
  - intros k k' Hk. exfalso. revert Hk. destruct (decide (k = i)) as [->|].
    + by rewrite slot_set_eq by (simpl; lia).
    + rewrite slot_set_ne by done. change (slot k (WState _ _ None)) with (slot k s).
      by rewrite Hothers.
Qed.

Lemma on_cell_slot {B} i s c (f : rstate T → access (rstate T) B) :
  slot i s = (c, false) → alive c = true →
  on_cell (slot_env h i) f s =
    match f c with
    | Done b c' => Done b (set_slot i (c', false) s)
    | Block => Block
    | Fault e => Fault e
    end.
Proof. intros Hs Hc. unfold on_cell; simpl. rewrite Hs; simpl. by rewrite Hc. Qed.

Abbreviation triple_all i := (triple (rely guar_all i) (guar_all i) (waits_all i) (λ _ _, False)).

(** One access of producer [i] to its state. *)
Lemma producer_access {B} i r (f : rstate T → access (rstate T) B) (P : wstate T → Prop) Q :
  rs !! i = Some r → stable (rely guar_all i) P → (∀ b, stable (rely guar_all i) (Q b)) →
  (∀ s, P s → all_inv s) →
  (∀ s c, P s → slot i s = (c, false) → slot_inv r (w_coro s) (c, false) →
     ∃ b c', f c = Done b c' ∧ slot_inv r (w_coro s) (c', false) ∧
       armed c' = armed c ∧ m_consumer c' = m_consumer c ∧ (published c = true → published c' = true) ∧
       (all_inv (set_slot i (c', false) s) → slot i (set_slot i (c', false) s) = (c', false) →
        Q b (set_slot i (c', false) s))) →
  triple_all i P (step_of (on_cell (slot_env h i) f)) Q.
Proof.
  intros Hr HP HQ Hinv Hf. pose proof (lookup_lt_Some _ _ _ Hr) as Hi.
  apply triple_step; [done..|]. intros s Hs. pose proof (Hinv s Hs) as Hs'.
  destruct (all_inv_slot i s Hs' Hi) as (r' & c & Hr' & Hc & Hcinv). simplify_eq.
  destruct (Hf s c Hs Hc Hcinv) as (b & c' & Hfc & Hc' & Ha & Hcons & Hpub & HQb).
  rewrite (on_cell_slot _ _ c), Hfc by (done || apply Hcinv).
  assert (all_inv (set_slot i (c', false) s)) as Hnew.
  { eapply all_inv_set; [done..|]. rewrite Ha. intros Hac k Hk. destruct (arm k s) eqn:Hk'; [|done].
    destruct Hk. apply Hs'; [done|]. by rewrite Hc. }
  assert (slot i (set_slot i (c', false) s) = (c', false)) as Heq.
  { apply slot_set_eq. destruct Hs'. lia. }
  split; [|auto]. unfold guar_all. rewrite decide_True by done. intros _.
  rewrite Heq, Hc. split_and!; [done|intros; by apply slot_set_ne|done|done|by left].
Qed.

(** One access of the caller to the state of result [j]. *)
Lemma caller_access {B} j r (f : rstate T → access (rstate T) B) (P : wstate T → Prop) Q :
  rs !! j = Some r → stable (rely guar_all (length rs)) P →
  (∀ b, stable (rely guar_all (length rs)) (Q b)) →
  (∀ s, P s → all_inv s ∧ ∀ k, arm k s = false) →
  (∀ s c, P s → slot j s = (c, false) → slot_inv r (w_coro s) (c, false) → armed c = false →
     ∃ b c', f c = Done b c' ∧ slot_inv r (w_coro s) (c', false) ∧
       published c' = published c ∧ m_producer c' = m_producer c ∧
       (published c = true → armed c' = false) ∧
       (all_inv (set_slot j (c', false) s) → slot j (set_slot j (c', false) s) = (c', false) →
        (∀ k, k ≠ j → slot k (set_slot j (c', false) s) = slot k s) →
        Q b (set_slot j (c', false) s))) →
  triple_all (length rs) P (step_of (on_cell (slot_env h j) f)) Q.
Proof.
  intros Hr HP HQ Hinv Hf. pose proof (lookup_lt_Some _ _ _ Hr) as Hj.
  apply triple_step; [done..|]. intros s Hs. destruct (Hinv s Hs) as [Hs' Hfree].
  destruct (all_inv_slot j s Hs' Hj) as (r' & c & Hr' & Hc & Hcinv). simplify_eq.
  pose proof (Hfree j) as Hcj. rewrite Hc in Hcj; simpl in Hcj.
  destruct (Hf s c Hs Hc Hcinv Hcj) as (b & c' & Hfc & Hc' & Hpub & Hprod & Ha & HQb).
  rewrite (on_cell_slot _ _ c), Hfc by (done || apply Hcinv).
  assert (all_inv (set_slot j (c', false) s)) as Hnew by (by eapply all_inv_set).
  assert (slot j (set_slot j (c', false) s) = (c', false)) as Heq.
  { apply slot_set_eq. destruct Hs'. lia. }
  split; [|auto using slot_set_ne]. unfold guar_all. rewrite decide_False, decide_True by lia.
  intros _. split; [done|]. intros i. destruct (decide (i = j)) as [->|].
  - rewrite Heq, Hc; simpl. rewrite Hcj. naive_solver.
  - by rewrite slot_set_ne.
Qed.

(** ** The producers *)

Section producer.
Context (i : nat) (r : T + exn) (Hr : rs !! i = Some r).
Let Hi : i < length rs := lookup_lt_Some _ _ _ Hr.

Ltac producer_step :=
  eapply producer_access;
  [exact Hr
  |eauto using producing_stable, has_published_stable, produced_stable..
  |unfold producing, has_published, produced; naive_solver
  |].

Ltac slot_solve :=
  let s := fresh "s" in let c := fresh "c" in let Hs := fresh "Hs" in let Hc := fresh "Hc" in
  let HI := fresh "HI" in
  intros s c Hs Hc HI; unfold producing, has_published, produced in Hs; rewrite Hc in Hs;
  destruct HI as (? & ? & Hph & ? & ?); unfold phase in *; destruct c as [?????[] []?]; simpl in *; fwd; subst; try done;
  eexists _, _; (split; [done|]); unfold slot_inv, phase, producing, has_published, produced; simpl;
  split_and!; try done; try (let Hn := fresh in let He := fresh in
    intros Hn He; rewrite He; simpl; split_and!; try done).

Lemma build_all q : built q = built r →
  triple_all i (producing i produced_nothing) (from_callable (slot_env h i) q)
    (λ _, producing i (built r)).
Proof using Hr.
  intros Hq. destruct q as [v|e]; simpl in *; unfold set_result, set_exception; producer_step.
  - slot_solve.
  - slot_solve.
Qed.

Lemma set_done_handle_all dh : triple_all i (producing i (built r))
  (step_of (on_cell (slot_env h i) (λ c, Done tt (set_done_handle dh c)))) (λ _, producing i (built r)).
Proof using Hr. producer_step. slot_solve. Qed.

Lemma publish_all : triple_all i (producing i (built r)) (pc_exchange (slot_env h i) pc_producer_done)
  (has_published i).
Proof using Hr.
  unfold pc_exchange. producer_step. slot_solve.
Qed.

Lemma read_consumer_all : triple_all i (has_published i pc_consumer_set)
  (step_of (on_cell (slot_env h i) (λ c, Done (m_consumer c) c)))
  (λ k s, k = consumer_await h ∧ has_published i pc_consumer_set s).
Proof using Hr.
  eapply producer_access; [exact Hr|eauto using has_published_stable|..].
  - intros k s s' [-> ?] ?. split; [done|]. by eapply has_published_stable.
  - unfold has_published. naive_solver.
  - slot_solve.
Qed.

(** The one access of a producer that reaches beyond its own state. *)
Lemma resume_all : triple_all i (has_published i pc_consumer_set)
  (step_of (resume_awaiting i h)) (λ _, produced i).
Proof using Hr.
  apply triple_step; [eauto using has_published_stable, produced_stable..|].
  intros s (Hs & Hp & Ha). destruct (all_inv_slot i s Hs Hi) as (r' & c & Hr' & Hc & HI).
  rewrite Hc in Hp, Ha; simpl in *. destruct HI as (_ & _ & _ & _ & [_ Hcoro]); [done|].
  set (m' := WState (w_slots s) (w_status s) None).
  assert (slot i (set_slot i (set_armed false c, false) m') = (set_armed false c, false)) as Heq.
  { apply slot_set_eq. simpl. destruct Hs. lia. }
  pose proof (all_inv_disarm i c s Hs Hi Hc Ha Hp) as Hnew. fold m' in Hnew.
  unfold resume_awaiting, resume_coro. rewrite decide_True by done. fold m'.
  change (slot i m') with (slot i s). rewrite Hc; simpl.
  split; [|split_and!; [done|by rewrite Heq..]].
  unfold guar_all. rewrite decide_True by done. intros _. rewrite Heq, Hc; simpl.
  split_and!; [done|intros; by rewrite slot_set_ne|done|done|by right].
Qed.

Lemma complete_producer_all :
  triple_all i (producing i (built r)) (complete_producer (slot_env h i) None) (λ _, produced i).
Proof using Hr.
  eapply triple_bind; [apply set_done_handle_all|intros []].
  eapply triple_bind; [apply publish_all|intros before]; destruct before; cbv beta iota.
  - apply triple_ret; [eauto using produced_stable|]. unfold has_published, produced. naive_solver.
  - eapply triple_bind; [apply read_consumer_all|]. intros k. apply triple_pure. intros ->. apply resume_all.
  - intros s (_ & _ & []).
  - intros s (_ & _ & []).
  - intros s (_ & _ & []).
Qed.

Lemma any_producer_all :
  triple_all i (producing i produced_nothing) (any_producer h i r) (post_all i).
Proof using Hr.
  eapply triple_bind; [by apply build_all|intros []].
  eapply triple_bind; [apply complete_producer_all|intros []].
  apply triple_ret; unfold post_all.
  - intros s s'. rewrite !decide_True by done. intros [_ ?] ?. split; [done|]. by eapply produced_stable.
  - intros s. by rewrite decide_True.
Qed.
End producer.

(** ** The caller *)

Lemma at_result_next j c s : at_result j c s → pub j s = true → at_result (S j) c s.
Proof.
  intros (? & ? & Hk) Hp. split_and!; [done..|]. intros k. destruct (Hk k) as (? & ? & ?).
  split_and!; [done| |intros; auto with lia]. destruct (decide (k = j)) as [->|]; [done|].
  intros. auto with lia.
Qed.

Section caller.
Context (j : nat) (r : T + exn) (Hr : rs !! j = Some r).
Let Hj : j < length rs := lookup_lt_Some _ _ _ Hr.

(** An access that only reads. *)
Lemma caller_reads {B} (f : rstate T → access (rstate T) B) (P : wstate T → Prop) Q :
  stable (rely guar_all (length rs)) P → (∀ b, stable (rely guar_all (length rs)) (Q b)) →
  (∀ s, P s → all_inv s ∧ ∀ k, arm k s = false) →
  (∀ s c, P s → slot j s = (c, false) → slot_inv r (w_coro s) (c, false) → armed c = false →
     ∃ b, f c = Done b c ∧ Q b s) →
  triple_all (length rs) P (step_of (on_cell (slot_env h j) f)) Q.
Proof using Hr.
  intros HP HQ Hinv Hf. eapply caller_access; [done..|]. intros s c Hs Hc HI Ha.
  destruct (Hf s c Hs Hc HI Ha) as (b & Hfc & Hb). exists b, c. split_and!; [done..|].
  intros _ _ _. destruct (Hinv s Hs) as [(Hlen & _) _].
  rewrite <- Hc, set_slot_id by (rewrite Hlen; exact Hj). done.
Qed.

Lemma load_all c : triple_all (length rs) (at_result j c) (pc_load (slot_env h j))
  (λ st s, (st = pc_producer_done ∧ at_result (S j) c s) ∨ (st = pc_idle ∧ at_result j c s)).
Proof using Hr.
  apply caller_reads; [eauto using at_result_stable|..].
  - intros st s s' [[??]|[??]] ?; [left|right]; (split; [done|]); by eapply at_result_stable.
  - intros s (? & ? & Hk). split; [done|]. intros k. apply Hk.
  - intros s x Hs Hx (_ & _ & Hph & _) Ha. eexists. split; [done|].
    unfold phase in Hph. simpl in Hph. rewrite Ha in Hph.
    destruct (published x) eqn:Hp; [left|by right]. split; [done|].
    apply at_result_next; [done|by rewrite Hx].
Qed.

Lemma assert_done_all c :
  triple_all (length rs) (at_result (S j) c) (assert_done (slot_env h j)) (λ _, at_result (S j) c).
Proof using Hr.
  apply caller_reads; [eauto using at_result_stable..| |].
  - intros s (? & ? & Hk). split; [done|]. intros k. apply Hk.
  - intros s x Hs Hx (_ & _ & Hph & _) Ha. exists tt. destruct Hs as (? & ? & Hk).
    destruct (Hk j) as (_ & Hp & _). rewrite Hx in Hp. simpl in *. rewrite Hph. unfold phase.
    rewrite Hp by lia. done.
Qed.

Lemma set_await_handle_all :
  triple_all (length rs) (at_result j (Some h)) (set_await_handle (slot_env h j) h)
    (λ _, handle_stored j).
Proof using Hr.
  eapply caller_access; [exact Hr|eauto using at_result_stable, handle_stored_stable..| |].
  - intros s (? & ? & Hk). split; [done|]. intros k. apply Hk.
  - intros s c (Hs & Hco & Hk) Hc (? & ? & ? & ? & _) Ha.
    destruct (Hk j) as (_ & _ & Hidle). rewrite Hc in Hidle. simpl in *.
    rewrite Hidle by (done || exact Hj). eexists _, _. split; [done|]. simpl.
    split_and!; [|done..|]; [unfold slot_inv; simpl; rewrite Ha; split_and!; done|].
    intros Hn He Hne. split_and!; [done|done|by rewrite He|].
    intros k. specialize (Hk k). destruct (decide (k = j)) as [->|Hkj].
    + rewrite He, Hc in *. simpl in *. split_and!; [done|lia|lia].
    + rewrite Hne by done. destruct Hk as (? & ? & ?). split_and!; [done..|]. intros. auto with lia.
Qed.

Lemma cas_all :
  triple_all (length rs) (handle_stored j)
    (pc_compare_exchange (slot_env h j) pc_idle pc_consumer_set)
    (λ b, if b then registered_at j else at_result (S j) (Some h)).
Proof using Hr.
  eapply caller_access; [exact Hr|eauto using handle_stored_stable|..].
  - intros []; eauto using registered_at_stable, at_result_stable.
  - intros s (? & ? & ? & Hk). split; [done|]. intros k. apply Hk.
  - intros s c (Hs & Hco & Hcj & Hk) Hc HI Ha. rewrite Hc in Hcj. pose proof HI as (? & ? & Hph & ? & _).
    simpl in *. unfold phase in Hph. rewrite Ha in Hph.
    destruct (published c) eqn:Hp; rewrite Hph; simpl.
    + exists false, c. split_and!; [done|done|done|done|done|]. intros Hn He Hne.
      split_and!; [done|done|]. intros k. specialize (Hk k).
      destruct (decide (k = j)) as [->|Hkj]; [rewrite He; simpl; split_and!; [done|done|lia]|].
      rewrite Hne by done. destruct Hk as (? & ? & ?). split_and!; [done|..]; intros; auto with lia.
    + eexists true, _. split_and!; [done|..|done|done|done|].
      * unfold slot_inv, phase; simpl. by rewrite Hp.
      * intros Hn He Hne. split_and!; [done|exact Hj|left; by rewrite He|]. intros k. specialize (Hk k).
        destruct (decide (k = j)) as [->|Hkj]; [split_and!; [done|lia|lia]|].
        rewrite Hne by done. naive_solver.
Qed.

Lemma await_all :
  triple_all (length rs) (at_result j (Some h)) (await (slot_env h j) h)
    (λ b, if b then registered_at j else at_result (S j) (Some h)).
Proof using Hr.
  eapply triple_bind; [apply load_all|]. intros st.
  apply triple_or; apply triple_pure; intros ->; cbv beta iota.
  - by apply triple_ret; [eauto using at_result_stable|].
  - eapply triple_bind; [apply set_await_handle_all|intros []].
    eapply triple_bind; [apply cas_all|]. intros [].
    + by apply triple_ret; [eauto using registered_at_stable|].
    + eapply triple_bind; [apply assert_done_all|intros []].
      by apply triple_ret; [eauto using at_result_stable|].
Qed.
End caller.

(** The coroutine's own accesses. *)
Lemma coro_access c c' j :
  (c' = None ∨ c' = Some h) →
  triple_all (length rs) (at_result j c)
    (step_of (λ s, Done tt (WState (w_slots s) (w_status s) c'))) (λ _, at_result j c').
Proof.
  intros Hc. apply triple_step; [eauto using at_result_stable..|]. intros s ((Hlen & Hs & Hu) & Hco & Hk).
  assert (all_inv (WState (w_slots s) (w_status s) c')) as Hnew.
  { split_and!; [done| |done]. intros i r Hr. specialize (Hs i r Hr). destruct (Hk i) as (Ha & _).
    unfold slot_inv in *. change (slot i (WState _ _ c')) with (slot i s). rewrite Ha. naive_solver. }
  split; [|done]. unfold guar_all. rewrite decide_False, decide_True by lia. done.
Qed.

Lemma wait_resumed_all j :
  triple_all (length rs) (registered_at j) (when_any_wait_resumed h) (λ _, at_result (S j) None).
Proof.
  apply triple_step; [eauto using registered_at_stable, at_result_stable..|].
  intros s (Hs & Hj & Hd & Hk). case_decide as Hco.
  - split; [done|]. exists j. split; [done|]. destruct Hd as [|(_ & _ & ?)]; [done|congruence].
  - assert (arm j s = false ∧ pub j s = true ∧ w_coro s = None) as (Ha & Hp & Hn).
    { destruct Hd as [Ha|]; [|done]. destruct (all_inv_slot j s Hs Hj) as (r & c & _ & Hc & HI).
      rewrite Hc in Ha. destruct HI as (_ & _ & _ & _ & [_ ?]); [done|]. done. }
    split.
    + unfold guar_all. rewrite decide_False, decide_True by lia. done.
    + split_and!; [done..|]. intros k. destruct (Hk k) as (Hak & Hpk & Hck).
      destruct (decide (k = j)) as [->|]; [split_and!; [done|done|lia]|].
      split_and!; [auto|..]; intros; auto with lia.
Qed.

Lemma when_all_loop_all k : ∀ j, j + k = length rs →
  triple_all (length rs) (at_result j None) (when_all_loop h j k) (λ _, at_result (length rs) None).
Proof.
  induction k as [|k IH]; intros j Hk; cbn [when_all_loop].
  - replace (length rs) with j by lia. apply triple_ret; [|done].
    replace j with (length rs) by lia. apply at_result_stable.
  - destruct (lookup_lt_is_Some_2 rs j) as [r Hr]; [lia|].
    eapply triple_bind; [by apply (coro_access None (Some h)); right|intros []].
    eapply triple_bind; [by eapply await_all|intros b].
    eapply triple_bind with (R := λ _, at_result (S j) None); [|intros []; apply IH; lia].
    destruct b; [apply wait_resumed_all|]. by apply (coro_access (Some h) None); left.
Qed.

(** ** The pool *)

Lemma init_slot k : k < length rs → slot k (all_pool h rs).2 = (new_state, false).
Proof. intros Hk. unfold slot, all_pool; simpl. unfold fresh_slots. by rewrite lookup_replicate_2. Qed.

Lemma init_slot_unarmed k : arm k (all_pool h rs).2 = false.
Proof.
  destruct (decide (k < length rs)); [by rewrite init_slot|].
  unfold slot, all_pool; simpl. unfold fresh_slots. by rewrite (proj1 (lookup_replicate_None _ _ _)) by lia.
Qed.

Lemma all_inv_init : all_inv (all_pool h rs).2.
Proof.
  split_and!.
  - apply length_replicate.
  - intros i r Hr%lookup_lt_Some. by rewrite init_slot.
  - intros i k. by rewrite init_slot_unarmed.
Qed.

Lemma all_pool_safe : pool_safe guar_all waits_all (λ _ _ _, False) post_all (all_pool h rs).
Proof.
  pose proof all_inv_init as Hinit. intros i p Hp. unfold all_pool in Hp; simpl in Hp.
  apply lookup_app_Some in Hp as [Hp|[Hlen Hp]].
  - rewrite list_lookup_imap in Hp. apply fmap_Some in Hp as (r & Hr & ->).
    apply (any_producer_all i r Hr). pose proof (lookup_lt_Some _ _ _ Hr).
    split_and!; [done|by rewrite init_slot..].
  - rewrite length_imap in *. apply list_lookup_singleton_Some in Hp as [? <-].
    replace i with (length rs) by lia.
    assert (triple_all (length rs) (at_result 0 None) (when_all_impl h (length rs)) (post_all (length rs))) as Hc.
    { eapply triple_bind; [by apply when_all_loop_all|intros []]. apply triple_ret; unfold post_all.
      - intros s s'. rewrite !decide_False by lia. intros [_ ?] ?. split; [done|]. by eapply at_result_stable.
      - intros s. by rewrite decide_False by lia. }
    apply Hc. split_and!; [done..|]. intros k. split_and!; [apply init_slot_unarmed|lia|].
    intros _ Hk. by rewrite init_slot.
Qed.

Lemma all_pool_stuck c :
  rtc pstep (all_pool h rs) c → (∀ c', ¬ pstep c c') → ∀ i, i ≤ length rs → finished i c.
Proof.
  intros Hc Hstuck. destruct (rg_sound _ _ _ _ _ _ all_pool_safe Hc) as (Hf & Hb & Hq).
  pose proof (steps_length _ _ Hc) as Hlen. simpl in Hlen. rewrite length_app, length_imap in Hlen; simpl in Hlen.
  assert (∀ i, i < length rs → finished i c) as Hp.
  { intros i Hi. destruct (thread_cases i c) as [?|[Hw|[[? ?%Hf]|[? ?%Hstuck]]]]; [lia|done| |done..].
    apply Hb in Hw as [-> _]. lia. }
  intros i Hi. destruct (decide (i < length rs)) as [|Hge]; [by apply Hp|].
  destruct (thread_cases i c) as [?|[Hw|[[? ?%Hf]|[? ?%Hstuck]]]]; [lia|done| |done..].
  apply Hb in Hw as (_ & j & Hj & Ha). destruct (Hp j Hj) as (a & [_ Hq']%Hq).
  rewrite decide_True in Hq' by done. destruct Hq' as (_ & _ & ?). congruence.
Qed.
End slots.

(** ** Theorem *)

(** C27: whatever the order in which the producers of a vector of results
    publish and the caller of [when_all] gets to await each, no assertion fails
    and no coroutine is resumed that is not suspended; every run is finite; and
    one that cannot go on has all producers and the caller finished, with every
    state alive, ready and holding the outcome of its own producer. *)
Theorem when_all_completes {T} h (rs : list (T + exn)) :
  Acc (flip pstep) (all_pool h rs) ∧
  ∀ c, rtc pstep (all_pool h rs) c →
    (∀ e, ¬ pfault c e) ∧
    ((∀ c', ¬ pstep c c') →
       c.1 = replicate (S (length rs)) (ret None) ∧ w_coro c.2 = None ∧
       ∀ i r, rs !! i = Some r →
         alive (slot i c.2).1 = true ∧ m_pc_state (slot i c.2).1 = pc_producer_done ∧
         producer_get (m_producer (slot i c.2).1) = Some (delivered r)).
Proof.
  split; [apply pstep_wf|]. intros c Hc.
  destruct (rg_sound _ _ _ _ _ _ (all_pool_safe h rs) Hc) as (Hf & _ & Hq).
  split; [intros e He; destruct He as [d ? e He]; by eapply Hf|]. intros Hstuck.
  pose proof (all_pool_stuck _ _ _ Hc Hstuck) as Hfin.
  destruct (Hfin (length rs)) as (a & Ha); [lia|]. destruct (Hq _ _ Ha) as [-> Hlast].
  rewrite decide_False in Hlast by lia. destruct Hlast as ((_ & Hs & _) & Hco & Hk). split_and!.
  - pose proof (steps_length _ _ Hc) as Hlen. simpl in Hlen. rewrite length_app, length_imap in Hlen.
    simpl in Hlen. symmetry. apply replicate_as_elem_of. split; [lia|].
    intros p (i & Hi)%list_elem_of_lookup. pose proof (lookup_lt_Some _ _ _ Hi).
    destruct (Hfin i) as (b & Hb); [lia|]. destruct (Hq _ _ Hb) as [-> _]. congruence.
  - done.
  - intros i r Hr. destruct (Hk i) as (_ & Hp & _). specialize (Hp (lookup_lt_Some _ _ _ Hr)).
    destruct (Hs i r Hr) as (_ & Hal & Hph & Hpr & _). split_and!; [done|..].
    + rewrite Hph. unfold phase. by rewrite Hp.
    + rewrite Hpr by done. by destruct r.
Qed.
