(* ===== verification/SharedResult.v ===== *)
(** * [shared_result_state]: many consumers of one result

    Coroutines that await a shared result push a context, which lives in their
    frame, onto a lock-free stack; [on_result_finished] takes the stack, turns
    it round in place and resumes them in the order they came.  Threads wait on
    [m_status], or on the semaphore when they have a deadline.  There is a step
    for each access to an atomic and for each round of the two loops of
    [on_result_finished]; the contexts live in a heap, and that of a coroutine
    that was resumed is gone. *)

From S2P Require Import Prelude Conc ResultState.
From stdpp Require Import options.

(** [m_awaiters]: a pointer to the last context, or [result_ready_constant]. *)
Inductive awaiter_stack : Type :=
  | stack_top (top : option nat)
  | result_ready_constant.

#[global] Instance awaiter_stack_eq_dec : EqDecision awaiter_stack.
Proof. solve_decision. Defined.

(** Where a coroutine is that awaits: about to load [m_awaiters]; about to swap;
    suspended; going on without having been suspended; resumed. *)
Inductive await_pc : Type :=
  | aw_load
  | aw_swap (awaiter_before : option nat)
  | aw_suspended
  | aw_ready
  | aw_resumed.

#[global] Instance await_pc_eq_dec : EqDecision await_pc.
Proof. solve_decision. Defined.

(** Where [on_result_finished] is: not called; about to release the semaphore, to
    exchange the stack; in the loop that reverses; in the loop that resumes;
    done. *)
Inductive finish_pc : Type :=
  | fin_idle
  | fin_release
  | fin_exchange
  | fin_reverse (current prev : option nat)
  | fin_resume (awaiters : option nat)
  | fin_done.

(** [sh_next]: the [next] pointers of the contexts that exist; [sh_pushed] and
    [sh_order]: who was pushed and who resumed, in order (ghosts). *)
Record shared_state : Type := SharedState {
  m_status : result_status;
  m_awaiters : awaiter_stack;
  m_semaphore : Z;
  sh_next : gmap nat (option nat);
  sh_await : list await_pc;
  sh_finish : finish_pc;
  sh_pushed : list nat;
  sh_order : list nat }.

(** [n] coroutines, each with its context. *)
Definition shared_init (n : nat) : shared_state :=
  SharedState status_idle (stack_top None) 0 (list_to_map ((λ i, (i, None)) <$> seq 0 n)) (replicate n aw_load) fin_idle [] [].

(** [m_semaphore.max() / 2] on 64 bits *)
Definition half_max : Z := 4611686018427387903.

Definition set_next (c : nat) (p : option nat) : comp shared_state unit := λ s,
  match sh_next s !! c with
  | Some _ => Done tt (SharedState (m_status s) (m_awaiters s) (m_semaphore s) (<[c := p]> (sh_next s))
                         (sh_await s) (sh_finish s) (sh_pushed s) (sh_order s))
  | None => Fault use_after_free
  end.
Definition get_next (c : nat) : comp shared_state (option nat) := λ s,
  match sh_next s !! c with Some p => Done p s | None => Fault use_after_free end.
Definition set_await (i : nat) (pc : await_pc) : comp shared_state unit :=
  modify (λ s, SharedState (m_status s) (m_awaiters s) (m_semaphore s) (sh_next s)
                 (<[i := pc]> (sh_await s)) (sh_finish s) (sh_pushed s) (sh_order s)).
Definition set_finish (pc : finish_pc) : comp shared_state unit :=
  modify (λ s, SharedState (m_status s) (m_awaiters s) (m_semaphore s) (sh_next s)
                 (sh_await s) pc (sh_pushed s) (sh_order s)).
Definition set_stack (a : awaiter_stack) : comp shared_state unit :=
  modify (λ s, SharedState (m_status s) a (m_semaphore s) (sh_next s)
                 (sh_await s) (sh_finish s) (sh_pushed s) (sh_order s)).
Definition note_pushed (i : nat) : comp shared_state unit :=
  modify (λ s, SharedState (m_status s) (m_awaiters s) (m_semaphore s) (sh_next s)
                 (sh_await s) (sh_finish s) (sh_pushed s ++ [i]) (sh_order s)).

(** ** [await] *)

(** One access of the loop of [await]; a weak exchange may fail for no reason. *)
Definition await_step (i : nat) (spurious : bool) : comp shared_state unit :=
  s ← get_state;
  match sh_await s !! i with
  | Some aw_load =>
      match m_awaiters s with
      | result_ready_constant => set_await i aw_ready
      | stack_top awaiter_before => set_next i awaiter_before;; set_await i (aw_swap awaiter_before)
      end
  | Some (aw_swap awaiter_before) =>
      if spurious then set_await i aw_load else
      if decide (m_awaiters s = stack_top awaiter_before) then
        set_stack (stack_top (Some i));; note_pushed i;; set_await i aw_suspended
      else set_await i aw_load
  | _ => block
  end.

(** ** [on_result_finished] *)

(** The call of a handle: the coroutine goes on, and leaves the [co_await], which
    destroys its context. *)
Definition resume_awaiter (c : nat) : comp shared_state unit :=
  s ← get_state;
  match sh_await s !! c with
  | Some aw_suspended =>
      modify (λ s, SharedState (m_status s) (m_awaiters s) (m_semaphore s) (delete c (sh_next s))
                     (<[c := aw_resumed]> (sh_await s)) (sh_finish s) (sh_pushed s) (sh_order s ++ [c]))
  | _ => abort_with bad_resume
  end.

(** [st]: the status of the result state, which is not idle. *)
Definition finish_step (st : result_status) : comp shared_state unit :=
  s ← get_state;
  match sh_finish s with
  | fin_idle =>
      modify (λ s, SharedState st (m_awaiters s) (m_semaphore s) (sh_next s)
                     (sh_await s) fin_release (sh_pushed s) (sh_order s))
  | fin_release =>
      modify (λ s, SharedState (m_status s) (m_awaiters s) (m_semaphore s + half_max) (sh_next s)
                     (sh_await s) fin_exchange (sh_pushed s) (sh_order s))
  | fin_exchange =>
      match m_awaiters s with
      | stack_top awaiters => set_stack result_ready_constant;; set_finish (fin_reverse awaiters None)
      | result_ready_constant => abort_with null_deref
      end
  | fin_reverse None prev => set_finish (fin_resume prev)
  | fin_reverse (Some current) prev =>
      next ← get_next current; set_next current prev;; set_finish (fin_reverse next (Some current))
  | fin_resume None => set_finish fin_done
  | fin_resume (Some awaiters) =>
      next ← get_next awaiters; set_finish (fin_resume next);; resume_awaiter awaiters
  | fin_done => block
  end.

(** ** Threads that wait *)

Definition shared_status : comp shared_state result_status := s ← get_state; mret (m_status s).

(** [wait]: [m_status.wait(idle)] blocks while the status is idle. *)
Definition shared_wait : comp shared_state unit :=
  st ← shared_status;
  if decide (st = status_idle) then block else mret tt.

(** A round of the loop of [wait_until]: [None] is another round.  [expired]: the
    deadline has passed; [try_acquire_until] then fails unless there is a token. *)
Definition wait_until_round (expired : bool) : comp shared_state (option result_status) :=
  st ← shared_status;
  if decide (st = status_idle) then
    if (expired : bool) then mret (Some st) else
    s ← get_state;
    if decide (0 < m_semaphore s)%Z then
      modify (λ s, SharedState (m_status s) (m_awaiters s) (m_semaphore s - 1) (sh_next s)
                     (sh_await s) (sh_finish s) (sh_pushed s) (sh_order s));; mret None
    else block
  else mret (Some st).

Inductive shared_step (st : result_status) : shared_state → shared_state → Prop :=
  | sh_await_step i spurious s s' : await_step i spurious s = Done tt s' → shared_step st s s'
  | sh_finish_step s s' : finish_step st s = Done tt s' → shared_step st s s'
  | sh_wait_round e r s s' : wait_until_round e s = Done r s' → shared_step st s s'.

Definition shared_reachable (st : result_status) (n : nat) : shared_state → Prop :=
  reachable (λ s, s = shared_init n) (shared_step st).

(** ** The invariant *)

(** The contexts from [p] on are [l]. *)
Fixpoint chain (nx : gmap nat (option nat)) (p : option nat) (l : list nat) : Prop :=
  match l with
  | [] => p = None
  | c :: l => p = Some c ∧ ∃ n, nx !! c = Some n ∧ chain nx n l
  end.

Lemma chain_insert nx p l c n : c ∉ l → chain nx p l → chain (<[c := n]> nx) p l.
Proof.
  revert p. induction l as [|d l IH]; simpl; intros p Hc; [done|]. apply not_elem_of_cons in Hc as [Hcd Hcl].
  intros (-> & m & Hm & Hch). split; [done|]. exists m. rewrite lookup_insert_ne by done. auto.
Qed.

Lemma chain_delete nx p l c : c ∉ l → chain nx p l → chain (delete c nx) p l.
Proof.
  revert p. induction l as [|d l IH]; simpl; intros p Hc; [done|]. apply not_elem_of_cons in Hc as [Hcd Hcl].
  intros (-> & m & Hm & Hch). split; [done|]. exists m. rewrite lookup_delete_ne by done. auto.
Qed.

(** The awaiters, by how far [on_result_finished] is. *)
Definition finish_ok (s : shared_state) : Prop :=
  match sh_finish s with
  | fin_idle | fin_release | fin_exchange =>
      sh_order s = [] ∧ ∃ top, m_awaiters s = stack_top top ∧ chain (sh_next s) top (reverse (sh_pushed s))
  | fin_reverse current prev =>
      sh_order s = [] ∧ m_awaiters s = result_ready_constant ∧
      ∃ done rest, reverse (sh_pushed s) = reverse done ++ rest ∧ chain (sh_next s) prev done ∧ chain (sh_next s) current rest
  | fin_resume awaiters =>
      m_awaiters s = result_ready_constant ∧
      ∃ rest, sh_pushed s = sh_order s ++ rest ∧ chain (sh_next s) awaiters rest
  | fin_done => m_awaiters s = result_ready_constant ∧ sh_pushed s = sh_order s
  end.

Definition started (pc : finish_pc) : bool := match pc with fin_idle => false | _ => true end.
Definition released (pc : finish_pc) : bool := match pc with fin_idle | fin_release => false | _ => true end.

Record shared_ok (st : result_status) (s : shared_state) : Prop := SharedOk {
  so_nodup : NoDup (sh_pushed s);
  so_suspended i : sh_await s !! i = Some aw_suspended ↔ i ∈ sh_pushed s ∧ i ∉ sh_order s;
  so_resumed i : i ∈ sh_order s → sh_await s !! i = Some aw_resumed ∧ i ∈ sh_pushed s;
  so_context i pc : sh_await s !! i = Some pc → pc ≠ aw_resumed → is_Some (sh_next s !! i);
  so_swap i h : sh_await s !! i = Some (aw_swap h) → sh_next s !! i = Some h;
  so_finish : finish_ok s;
  so_status : m_status s = if started (sh_finish s) then st else status_idle;
  so_semaphore : (0 ≤ m_semaphore s)%Z ∧ (released (sh_finish s) = false → m_semaphore s = 0%Z) }.

Lemma chain_lookup nx p l c : chain nx p l → c ∈ l → is_Some (nx !! c).
Proof.
  revert p. induction l as [|d l IH]; simpl; intros p Hch; [by intros ?%elem_of_nil|].
  destruct Hch as (_ & n & Hn & Hch). intros [->|?]%elem_of_cons; [by eexists|eauto].
Qed.

(** A coroutine that is neither in the stack nor done changes its state. *)
Lemma set_await_lookup (l : list await_pc) i pc k x :
  <[i := pc]> l !! k = Some x → (k = i ∧ x = pc) ∨ (k ≠ i ∧ l !! k = Some x).
Proof. intros [(-> & <- & _)|[? ?]]%list_lookup_insert_Some; [by left|by right]. Qed.

(** It gets a new state, and its context a new pointer. *)
Lemma shared_ok_await st s i pc pc' h :
  shared_ok st s → sh_await s !! i = Some pc → pc = aw_load ∨ (∃ h, pc = aw_swap h) →
  pc' = aw_load ∨ pc' = aw_ready ∨ pc' = aw_swap h →
  shared_ok st (SharedState (m_status s) (m_awaiters s) (m_semaphore s) (<[i := h]> (sh_next s))
                  (<[i := pc']> (sh_await s)) (sh_finish s) (sh_pushed s) (sh_order s)).
Proof.
  intros [H1 H2 H3 H4 H5 H6 H7 H8] Hi Hpc Hpc'. pose proof (lookup_lt_Some _ _ _ Hi) as Hlt.
  assert (pc ≠ aw_suspended ∧ pc ≠ aw_resumed) as [Hns Hnr] by (destruct Hpc as [-> | [? ->]]; done).
  assert (pc' ≠ aw_suspended ∧ pc' ≠ aw_resumed) as [Hns' Hnr'] by (destruct Hpc' as [-> | [-> | ->]]; done).
  assert (i ∉ sh_order s) as Hio by (intros [? _]%H3; congruence).
  assert (i ∉ sh_pushed s) as Hip.
  { intros Hp. assert (sh_await s !! i = Some aw_suspended) by (by apply H2). congruence. }
  split; simpl; [done| | | | | |done|done].
  - intros k. rewrite <- H2. destruct (decide (k = i)) as [->|].
    + rewrite list_lookup_insert_eq by done. split; congruence.
    + by rewrite list_lookup_insert_ne.
  - intros k Hk. rewrite list_lookup_insert_ne by (by intros ->). auto.
  - intros k x [[-> ->]|[Hne Hk]]%set_await_lookup Hx; [rewrite lookup_insert_eq; by eexists|].
    rewrite lookup_insert_ne by done. eauto.
  - intros k x [[-> Hx]|[Hne Hk]]%set_await_lookup; [rewrite lookup_insert_eq|rewrite lookup_insert_ne by done; auto].
    destruct Hpc' as [-> | [-> | ->]]; by simplify_eq.
  - assert (∀ l : list nat, (∀ x, x ∈ l → x ∈ sh_pushed s) → i ∉ l) as Hl by (intros l Hl ?%Hl; done).
    assert (i ∉ reverse (sh_pushed s)) as Hrev by (by rewrite elem_of_reverse).
    unfold finish_ok in *. simpl. destruct (sh_finish s).
    1-3: destruct H6 as (? & top & ? & ?); split; [done|]; exists top; by split; [|apply chain_insert].
    + destruct H6 as (? & ? & d & r & Hr & ? & ?). rewrite Hr in Hrev. apply not_elem_of_app in Hrev as [Hd Hrest].
      split_and!; [done..|]. exists d, r. split_and!; [done|apply chain_insert; [|done]|by apply chain_insert].
      by rewrite elem_of_reverse in Hd.
    + destruct H6 as (? & r & Hr & ?). split; [done|]. exists r. split; [done|]. apply chain_insert; [|done].
      apply Hl. intros x Hx. rewrite Hr. apply elem_of_app. by right.
    + done.
Qed.

Lemma insert_next_id s i p : sh_next s !! i = Some p → <[i := p]> (sh_next s) = sh_next s.
Proof. apply insert_id. Qed.

(** The coroutine is pushed. *)
Lemma shared_ok_push st s i h :
  shared_ok st s → sh_await s !! i = Some (aw_swap h) → m_awaiters s = stack_top h →
  shared_ok st (SharedState (m_status s) (stack_top (Some i)) (m_semaphore s) (sh_next s)
                  (<[i := aw_suspended]> (sh_await s)) (sh_finish s) (sh_pushed s ++ [i]) (sh_order s)).
Proof.
  intros [H1 H2 H3 H4 H5 H6 H7 H8] Hi Htop. pose proof (lookup_lt_Some _ _ _ Hi) as Hlt.
  assert (i ∉ sh_order s) as Hio by (intros [? _]%H3; congruence).
  assert (i ∉ sh_pushed s) as Hip.
  { intros Hp. assert (sh_await s !! i = Some aw_suspended) by (by apply H2). congruence. }
  split; simpl; [| | | | | |done|done].
  - apply NoDup_app. split_and!; [done| |by apply NoDup_singleton]. intros x Hx ->%list_elem_of_singleton. done.
  - intros k. rewrite elem_of_app, list_elem_of_singleton. destruct (decide (k = i)) as [->|].
    + rewrite list_lookup_insert_eq by done. naive_solver.
    + rewrite list_lookup_insert_ne by done. rewrite H2. naive_solver.
  - intros k Hk. rewrite list_lookup_insert_ne by (by intros ->). destruct (H3 k Hk). split; [done|]. apply elem_of_app. by left.
  - intros k x [[-> ->]|[Hne Hk]]%set_await_lookup Hx; [eauto|eauto].
  - intros k x [[-> Hx]|[Hne Hk]]%set_await_lookup; [done|auto].
  - unfold finish_ok in *. simpl. destruct (sh_finish s).
    1-3: destruct H6 as (? & top & Ht & ?); split; [done|]; exists (Some i); split; [done|];
         rewrite reverse_snoc; simpl; split; [done|]; exists h; split; [by apply H5|congruence].
    all: destr; congruence.
Qed.

Lemma wp_await_step st s i spurious : shared_ok st s → wp (await_step i spurious) (λ _ s', shared_ok st s') s.
Proof.
  intros Hs. unfold await_step. apply wp_bind, wp_get. destruct (sh_await s !! i) as [pc|] eqn:Hi; [|apply wp_block].
  destruct pc as [|h| | |]; try apply wp_block.
  - destruct (so_context _ _ Hs i _ Hi) as [p Hp]; [done|]. destruct (m_awaiters s) as [top|] eqn:Ht.
    + apply wp_bind. unfold wp, set_next. rewrite Hp. simpl.
      eapply (shared_ok_await _ s); [done|done|by left|by right; right].
    + apply wp_modify. rewrite <- (insert_next_id _ _ _ Hp).
      eapply (shared_ok_await _ s); [done|done|by left|by right; left].
  - pose proof (so_swap _ _ Hs i h Hi) as Hn.
    assert (shared_ok st (SharedState (m_status s) (m_awaiters s) (m_semaphore s) (sh_next s)
              (<[i := aw_load]> (sh_await s)) (sh_finish s) (sh_pushed s) (sh_order s))) as Hload.
    { rewrite <- (insert_next_id _ _ _ Hn). eapply (shared_ok_await _ s); [done|done|right; by eexists|by left]. }
    destruct spurious; [by apply wp_modify|]. case_decide as Ht; [|by apply wp_modify].
    apply wp_bind, wp_modify, wp_bind, wp_modify, wp_modify. by eapply (shared_ok_push _ s).
Qed.

(** The loops of [on_result_finished]. *)
Lemma wp_reverse_round st s c prev :
  shared_ok st s → sh_finish s = fin_reverse (Some c) prev →
  wp (next ← get_next c; set_next c prev;; set_finish (fin_reverse next (Some c))) (λ _ s', shared_ok st s') s.
Proof.
  intros [H1 H2 H3 H4 H5 H6 H7 H8] Hf. unfold finish_ok in H6. rewrite Hf in *.
  destruct H6 as (Ho & Hr & d & r & Hd & Hpd & Hpr). destruct r as [|x r]; [done|]. destruct Hpr as ([= ->] & n & Hn & Hpr).
  apply wp_bind. unfold wp at 1, get_next. rewrite Hn. apply wp_bind. unfold wp at 1, set_next. rewrite Hn. apply wp_modify. simpl.
  assert (NoDup (reverse d ++ x :: r)) as Hnd by (rewrite <- Hd; by rewrite reverse_Permutation).
  apply NoDup_app in Hnd as (_ & Hnd1 & [Hnd2 _]%NoDup_cons).
  assert (x ∉ d) as Hxd by (intros Hx; apply (Hnd1 x); [by apply elem_of_reverse|by left]).
  assert (x ∈ sh_pushed s) as Hxp by (apply elem_of_reverse; rewrite Hd; apply elem_of_app; right; by left).
  split; simpl; try done.
  - intros k pc Hk Hpc. destruct (decide (k = x)) as [->|]; [rewrite lookup_insert_eq; by eexists|].
    rewrite lookup_insert_ne by done. eauto.
  - intros k h Hk. rewrite lookup_insert_ne; [auto|]. intros <-.
    assert (sh_await s !! x = Some aw_suspended) by (apply H2; split; [done|rewrite Ho; by intros ?%elem_of_nil]). congruence.
  - unfold finish_ok. simpl. split_and!; [done..|]. exists (x :: d), r.
    split_and!; [by rewrite Hd, reverse_cons, <- (assoc_L (++))| |by apply chain_insert]. simpl. split; [done|]. exists prev. rewrite lookup_insert_eq. split; [done|]. by apply chain_insert.
Qed.

Lemma wp_resume_round st s c :
  shared_ok st s → sh_finish s = fin_resume (Some c) →
  wp (next ← get_next c; set_finish (fin_resume next);; resume_awaiter c) (λ _ s', shared_ok st s') s.
Proof.
  intros [H1 H2 H3 H4 H5 H6 H7 H8] Hf. unfold finish_ok in H6. rewrite Hf in *.
  destruct H6 as (Hr & r & Hp & Hch). destruct r as [|x r]; [done|]. destruct Hch as ([= ->] & n & Hn & Hch).
  assert (x ∈ sh_pushed s) as Hxp by (rewrite Hp; apply elem_of_app; right; by left).
  rewrite Hp in H1. apply NoDup_app in H1 as (Hn1 & Hn2 & [Hxr Hn3]%NoDup_cons).
  assert (x ∉ sh_order s) as Hxo by (intros Hx; apply (Hn2 x Hx); by left).
  assert (sh_await s !! x = Some aw_suspended) as Hx by (by apply H2). pose proof (lookup_lt_Some _ _ _ Hx) as Hlt.
  apply wp_bind. unfold wp at 1, get_next. rewrite Hn. apply wp_bind, wp_modify.
  unfold resume_awaiter. apply wp_bind, wp_get. simpl. rewrite Hx. apply wp_modify. simpl. split; simpl; try done.
  - rewrite Hp. apply NoDup_app. split_and!; [done|done|by apply NoDup_cons].
  - intros k. rewrite not_elem_of_app, list_elem_of_singleton. destruct (decide (k = x)) as [->|].
    + rewrite list_lookup_insert_eq by done. naive_solver.
    + rewrite list_lookup_insert_ne by done. rewrite H2. naive_solver.
  - intros k [Hk| ->%list_elem_of_singleton]%elem_of_app.
    + rewrite list_lookup_insert_ne by congruence. auto.
    + by rewrite list_lookup_insert_eq.
  - intros k pc [[-> ->]|[Hne Hk]]%set_await_lookup Hpc; [done|]. rewrite lookup_delete_ne by done. eauto.
  - intros k h [[-> ?]|[Hne Hk]]%set_await_lookup; [done|]. rewrite lookup_delete_ne by done. auto.
  - unfold finish_ok. simpl. split; [done|]. exists r. rewrite <- (assoc_L (++)). split; [done|]. by apply chain_delete.
Qed.

Lemma wp_finish_step st s : shared_ok st s → wp (finish_step st) (λ _ s', shared_ok st s') s.
Proof.
  intros Hs. unfold finish_step. apply wp_bind, wp_get. destruct (sh_finish s) as [| | |[c|] prev|[c|]|] eqn:Hf.
  - apply wp_modify. destruct Hs as [H1 H2 H3 H4 H5 H6 H7 H8]. unfold finish_ok in H6. rewrite Hf in *. by split.
  - apply wp_modify. destruct Hs as [H1 H2 H3 H4 H5 H6 H7 H8]. unfold finish_ok in H6. rewrite Hf in *.
    split; try done. simpl in *. unfold half_max. lia.
  - pose proof Hs as [H1 H2 H3 H4 H5 H6 H7 H8]. unfold finish_ok in H6. rewrite Hf in *. destruct H6 as (Ho & top & Ht & Hch).
    rewrite Ht. apply wp_bind, wp_modify, wp_modify. split; try done. unfold finish_ok. simpl. split_and!; [done..|].
    by exists [], (reverse (sh_pushed s)).
  - by apply wp_reverse_round.
  - apply wp_modify. destruct Hs as [H1 H2 H3 H4 H5 H6 H7 H8]. unfold finish_ok in H6. rewrite Hf in *.
    destruct H6 as (Ho & Hr & d & r & Hd & Hpd & Hpr). split; try done. unfold finish_ok. simpl. split; [done|].
    destruct r as [|x r]; [|by destruct Hpr]. rewrite app_nil_r in Hd. apply (inj reverse) in Hd. rewrite Ho, Hd. by exists d.
  - by apply wp_resume_round.
  - apply wp_modify. destruct Hs as [H1 H2 H3 H4 H5 H6 H7 H8]. unfold finish_ok in H6. rewrite Hf in *.
    destruct H6 as (Hr & r & Hp & Hch). split; try done. unfold finish_ok. simpl. split; [done|].
    destruct r as [|x r]; [|by destruct Hch]. by rewrite app_nil_r in Hp.
  - apply wp_block.
Qed.

Lemma wp_wait_until_round st s e : shared_ok st s → wp (wait_until_round e) (λ _ s', shared_ok st s') s.
Proof.
  intros Hs. unfold wait_until_round, shared_status. apply wp_bind, wp_bind, wp_get, wp_ret.
  case_decide; [|by apply wp_ret]. destruct e; [by apply wp_ret|]. apply wp_bind, wp_get. case_decide; [|apply wp_block].
  apply wp_bind, wp_modify, wp_ret. destruct Hs as [H1 H2 H3 H4 H5 H6 H7 H8]. split; simpl; try done.
  split; [lia|]. intros ?%H8. lia.
Qed.

Lemma shared_reachable_ok st n s : shared_reachable st n s → shared_ok st s.
Proof.
  apply reachable_inv.
  - intros ? ->. split; simpl.
    + apply NoDup_nil_2.
    + intros i. split; [intros [? _]%lookup_replicate; done|]. intros [?%elem_of_nil _]. done.
    + by intros i ?%elem_of_nil.
    + intros i pc [-> Hlt]%lookup_replicate _. exists None. apply elem_of_list_to_map.
      * rewrite <- list_fmap_compose. simpl. rewrite list_fmap_id. apply NoDup_seq.
      * apply list_elem_of_fmap. exists i. split; [done|]. apply elem_of_seq. lia.
    + by intros i h [? _]%lookup_replicate.
    + split; [done|]. by exists None.
    + done.
    + done.
  - intros s1 s2 Hs Hst. destruct Hst as [i sp s1 s2 H|s1 s2 H|e r s1 s2 H].
    + exact (wp_done _ _ _ _ _ (wp_await_step _ _ i sp Hs) H).
    + exact (wp_done _ _ _ _ _ (wp_finish_step _ _ Hs) H).
    + exact (wp_done _ _ _ _ _ (wp_wait_until_round _ _ e Hs) H).
Qed.

(** ** Theorems *)

(** C4: every coroutine that awaits a shared result is resumed exactly once and
    in the order of arrival, whatever the interleaving.  Those resumed are a
    prefix of those that were suspended, each once; when [on_result_finished] is
    done nobody is suspended any more, and whoever comes later does not suspend;
    no context is used after its coroutine went on, and no handle is called that
    is not suspended. *)
Theorem shared_result_resumes_all st n s :
  shared_reachable st n s →
  (NoDup (sh_pushed s) ∧ sh_order s `prefix_of` sh_pushed s) ∧
  (sh_finish s = fin_done → sh_order s = sh_pushed s ∧ (∀ i, sh_await s !! i ≠ Some aw_suspended) ∧
     ∀ i, sh_await s !! i = Some aw_load → ∃ s', await_step i false s = Done tt s' ∧ sh_await s' !! i = Some aw_ready) ∧
  (∀ i sp f, await_step i sp s ≠ Fault f) ∧ (∀ f, finish_step st s ≠ Fault f).
Proof.
  intros Hs%shared_reachable_ok. pose proof (so_finish _ _ Hs) as Hf. unfold finish_ok in Hf. split_and!.
  - apply Hs.
  - destruct (sh_finish s); destr; try (rewrite H; apply prefix_nil).
    + rewrite H0. by apply prefix_app_r.
    + by rewrite H0.
  - intros Hd. rewrite Hd in Hf. destruct Hf as [Hr Hp]. split_and!; [done| |].
    + intros i [Hi Hn]%(so_suspended _ _ Hs). congruence.
    + intros i Hi. eexists. unfold await_step. rewrite get_state_bind, Hi, Hr. split; [reflexivity|]. simpl.
      apply list_lookup_insert_eq. by eapply lookup_lt_Some.
  - intros i sp f. eapply wp_no_fault. by apply (wp_await_step st).
  - intros f. eapply wp_no_fault. by apply (wp_finish_step st).
Qed.

(** Two coroutines arrive, the first overtaken by the second between its load and
    its exchange, and are resumed. *)
Definition shared_run (n : nat) : shared_state :=
  let await i s := match await_step i false s with Done _ s' => s' | _ => s end in
  let finish s := match finish_step status_value s with Done _ s' => s' | _ => s end in
  Nat.iter n finish (foldl (λ s i, await i s) (shared_init 3) [0; 1; 1; 0; 0; 0]).

Lemma shared_run_reachable n : shared_reachable status_value 3 (shared_run n).
Proof.
  assert (∀ l s, shared_reachable status_value 3 s → shared_reachable status_value 3
    (foldl (λ s i, match await_step i false s with Done _ s' => s' | _ => s end) s l)) as Ha.
  { induction l as [|i l IH]; intros s Hs; [done|]. apply IH.
    destruct (await_step i false s) as [[] s'| |] eqn:E; [|done..].
    eapply reachable_step; [done|]. by eapply sh_await_step. }
  unfold shared_run. set (s0 := foldl _ _ _).
  assert (shared_reachable status_value 3 s0) as Hs0 by (apply Ha; by apply reachable_init).
  clearbody s0. induction n as [|n IH]; [done|]. rewrite Nat.iter_succ.
  destruct (finish_step status_value _) as [[] s'| |] eqn:E; [|done..].
  eapply reachable_step; [exact IH|]. by eapply sh_finish_step.
Qed.

Lemma shared_result_resumes_all_witness :
  let s := shared_run 10 in
  sh_finish s = fin_done ∧ sh_order s = [1; 0] ∧
  (NoDup (sh_pushed s) ∧ sh_order s `prefix_of` sh_pushed s) ∧
  (sh_finish s = fin_done → sh_order s = sh_pushed s ∧ (∀ i, sh_await s !! i ≠ Some aw_suspended) ∧
     ∀ i, sh_await s !! i = Some aw_load → ∃ s', await_step i false s = Done tt s' ∧ sh_await s' !! i = Some aw_ready) ∧
  (∀ i sp f, await_step i sp s ≠ Fault f) ∧ (∀ f, finish_step status_value s ≠ Fault f).
Proof.
  split; [vm_compute; reflexivity|]. split; [vm_compute; reflexivity|].
  apply (shared_result_resumes_all status_value 3). apply shared_run_reachable.
Defined.

(** Threads that wait for a shared result are not left waiting: once
    [on_result_finished] has begun, [status] is that of the result, [wait]
    returns, and a round of [wait_until] returns that status; before that, only a
    deadline makes [wait_until] return, with [idle]. *)
Theorem shared_result_wait_correct st n s :
  shared_reachable st n s → st ≠ status_idle →
  (started (sh_finish s) = true →
     shared_status s = Done st s ∧ shared_wait s = Done tt s ∧ ∀ e, wait_until_round e s = Done (Some st) s) ∧
  (started (sh_finish s) = false →
     shared_wait s = Block ∧ wait_until_round true s = Done (Some status_idle) s ∧ wait_until_round false s = Block).
Proof.
  intros Hs%shared_reachable_ok Hst. pose proof (so_status _ _ Hs) as Hm. pose proof (so_semaphore _ _ Hs) as [_ Hsem].
  assert (shared_status s = Done (m_status s) s) as Hss by done.
  unfold shared_wait, wait_until_round. split; intros Hf; rewrite Hf in Hm; rewrite Hm in Hss.
  - split; [done|]. rewrite (comp_bind_done _ _ _ _ _ Hss), decide_False by done. split; [done|].
    intros e. by rewrite (comp_bind_done _ _ _ _ _ Hss), decide_False by done.
  - rewrite !(comp_bind_done _ _ _ _ _ Hss), !decide_True by done. split_and!; [done|done|].
    rewrite get_state_bind, decide_False; [done|]. rewrite Hsem; [lia|]. by destruct (sh_finish s).
Qed.

Lemma shared_result_wait_correct_witness :
  let s := shared_run 1 in
  (started (sh_finish s) = true →
     shared_status s = Done status_value s ∧ shared_wait s = Done tt s ∧ ∀ e, wait_until_round e s = Done (Some status_value) s) ∧
  (started (sh_finish s) = false →
     shared_wait s = Block ∧ wait_until_round true s = Done (Some status_idle) s ∧ wait_until_round false s = Block).
Proof. apply (shared_result_wait_correct status_value 3); [apply shared_run_reachable|discriminate]. Defined.
