(* ===== verification/ResultApi.v ===== *)
(** * [result], [result_promise] and [make_result]

    The objects the application holds.  A state is shared by a producer's and a
    consumer's pointer, and the pointer that is given up last frees it, as
    [ResultProtocol] shows of [result_state]; here the two sides take turns, so
    that a state is its value and who still holds it.  Objects are numbered as
    they are constructed; one that was destroyed or moved from is empty. *)

From S2P Require Import Prelude Conc ResultState.
From stdpp Require Import options.

Record shared_cell (V : Type) : Type := SharedCell {
  c_value : producer_context V;
  c_producer : bool;
  c_consumer : bool }.
Arguments SharedCell {V}.
Arguments c_value {V} _.
Arguments c_producer {V} _.
Arguments c_consumer {V} _.

Record promise_obj : Type := PromiseObj { m_producer_state : option nat; m_consumer_state : option nat }.

Record api (V : Type) : Type := Api {
  heap : gmap nat (shared_cell V);
  promises : list promise_obj;
  results : list (option nat) }.
Arguments Api {V}.
Arguments heap {V} _.
Arguments promises {V} _.
Arguments results {V} _.

Section api.
Context {V : Type}.
Implicit Types s : api V.

Definition api_init : api V := Api ∅ [] [].

Definition load_cell (l : nat) : comp (api V) (shared_cell V) := λ s,
  match heap s !! l with Some c => Done c s | None => Fault use_after_free end.
Definition set_heap (h : gmap nat (shared_cell V)) : comp (api V) unit := modify (λ s, Api h (promises s) (results s)).
Definition store_cell (l : nat) (c : shared_cell V) : comp (api V) unit :=
  s ← get_state; set_heap (<[l := c]> (heap s)).
Definition load_promise (p : nat) : comp (api V) promise_obj := λ s,
  match promises s !! p with Some o => Done o s | None => Fault use_after_free end.
Definition store_promise (p : nat) (o : promise_obj) : comp (api V) unit :=
  modify (λ s, Api (heap s) (<[p := o]> (promises s)) (results s)).
Definition load_result (r : nat) : comp (api V) (option nat) := λ s,
  match results s !! r with Some o => Done o s | None => Fault use_after_free end.
Definition store_result (r : nat) (o : option nat) : comp (api V) unit :=
  modify (λ s, Api (heap s) (promises s) (<[r := o]> (results s))).
Definition new_result (o : option nat) : comp (api V) unit :=
  modify (λ s, Api (heap s) (promises s) (results s ++ [o])).

(** ** The deleters of the pointers *)

(** [new result_state], with a producer and a consumer. *)
Definition new_cell : comp (api V) nat :=
  s ← get_state;
  let l := fresh (dom (heap s)) in
  set_heap (<[l := SharedCell produced_nothing true true]> (heap s));; mret l.

(** Whoever is last frees the state. *)
Definition put_heap (l : nat) (c : shared_cell V) (h : gmap nat (shared_cell V)) : gmap nat (shared_cell V) :=
  if c_producer c || c_consumer c then <[l := c]> h else delete l h.
Definition put_cell (l : nat) (c : shared_cell V) : comp (api V) unit :=
  s ← get_state; set_heap (put_heap l c (heap s)).

Definition release_producer (o : option nat) : comp (api V) unit :=
  match o with
  | None => mret tt
  | Some l => c ← load_cell l; assert (c_producer c);; put_cell l (SharedCell (c_value c) false (c_consumer c))
  end.
Definition release_consumer (o : option nat) : comp (api V) unit :=
  match o with
  | None => mret tt
  | Some l => c ← load_cell l; assert (c_consumer c);; put_cell l (SharedCell (c_value c) (c_producer c) false)
  end.

(** [set_result], [set_exception] of the state *)
Definition cell_build (l : nat) (v : producer_context V) : comp (api V) unit :=
  c ← load_cell l;
  match c_value c with
  | produced_nothing => store_cell l (SharedCell v (c_producer c) (c_consumer c))
  | _ => abort_with assert_failed
  end.

(** ** [result_promise] *)

(** [set_result] or [set_exception] of the state, then [m_producer_state.reset()]. *)
Definition publish (p l : nat) (o : promise_obj) (v : producer_context V) : comp (api V) unit :=
  cell_build l v;; store_promise p (PromiseObj None (m_consumer_state o));; release_producer (Some l).

Definition break_task_if_needed (p : nat) : comp (api V) unit :=
  o ← load_promise p;
  match m_producer_state o, m_consumer_state o with
  | Some l, None => publish p l o (produced_exception broken_task)
  | _, _ => mret tt
  end.

Definition new_promise : comp (api V) unit :=
  l ← new_cell;
  modify (λ s, Api (heap s) (promises s ++ [PromiseObj (Some l) (Some l)]) (results s)).

(** The move constructor. *)
Definition move_promise (p : nat) : comp (api V) unit :=
  o ← load_promise p;
  store_promise p (PromiseObj None None);;
  modify (λ s, Api (heap s) (promises s ++ [o]) (results s)).

(** The destructor: the body, then the members, last first. *)
Definition destroy_promise (p : nat) : comp (api V) unit :=
  break_task_if_needed p;;
  o ← load_promise p;
  store_promise p (PromiseObj None None);;
  release_consumer (m_consumer_state o);; release_producer (m_producer_state o).

Definition assign_promise (p q : nat) : comp (api V) unit :=
  if decide (p = q) then mret tt else
  break_task_if_needed p;;
  o ← load_promise p;
  o' ← load_promise q;
  store_promise q (PromiseObj None None);; store_promise p o';;
  release_producer (m_producer_state o);; release_consumer (m_consumer_state o).

(** What the setters share: check, build, publish. *)
Definition promise_set (p : nat) (v : producer_context V) : comp (api V) (outcome unit) :=
  o ← load_promise p;
  match m_producer_state o with
  | None => mret (Throw empty_result_promise)
  | Some l => publish p l o v;; mret (Ret tt)
  end.

(** [a]: what constructing the value from the arguments does; when it throws, the
    promise is as it was. *)
Definition promise_set_result (p : nat) (a : V + exn) : comp (api V) (outcome unit) :=
  match a with
  | inl v => promise_set p (produced_value v)
  | inr e =>
      o ← load_promise p;
      mret (match m_producer_state o with None => Throw empty_result_promise | Some _ => Throw e end)
  end.

(** A null [exception_ptr] is [None]. *)
Definition promise_set_exception (p : nat) (e : option exn) : comp (api V) (outcome unit) :=
  match e with
  | Some e => promise_set p (produced_exception e)
  | None =>
      o ← load_promise p;
      mret (match m_producer_state o with None => Throw empty_result_promise | Some _ => Throw invalid_argument end)
  end.

(** [set_from_function] is [noexcept]; [f]: what calling the function does. *)
Definition promise_set_from_function (p : nat) (f : V + exn) : comp (api V) (outcome unit) :=
  r ← promise_set p (match f with inl v => produced_value v | inr e => produced_exception e end);
  mret (noexcept r).

(** [get_result]: the new result is the last. *)
Definition promise_get_result (p : nat) : comp (api V) (outcome unit) :=
  o ← load_promise p;
  match m_producer_state o, m_consumer_state o with
  | None, _ => mret (Throw empty_result_promise)
  | Some _, None => mret (Throw result_already_retrieved)
  | Some l, Some l' => store_promise p (PromiseObj (Some l) None);; new_result (Some l');; mret (Ret tt)
  end.

(** ** [result] *)

Definition move_result (r : nat) : comp (api V) unit :=
  o ← load_result r; store_result r None;; new_result o.

Definition destroy_result (r : nat) : comp (api V) unit :=
  o ← load_result r; store_result r None;; release_consumer o.

Definition assign_result (r q : nat) : comp (api V) unit :=
  if decide (r = q) then mret tt else
  o ← load_result r;
  o' ← load_result q;
  store_result q None;; store_result r o';; release_consumer o.

(** [status]: that of the producer's union once it has published. *)
Definition result_status_of (r : nat) : comp (api V) (outcome result_status) :=
  o ← load_result r;
  match o with
  | None => mret (Throw empty_result)
  | Some l => c ← load_cell l; mret (Ret (if c_producer c then status_idle else producer_status (c_value c)))
  end.

(** [wait]: blocks until the producer has published. *)
Definition result_wait (r : nat) : comp (api V) (outcome unit) :=
  o ← load_result r;
  match o with
  | None => mret (Throw empty_result)
  | Some l => c ← load_cell l; if c_producer c then block else mret (Ret tt)
  end.

(** [state->get()] of a joined state, which is then freed. *)
Definition joined_get (l : nat) : comp (api V) (outcome V) :=
  c ← load_cell l;
  assert (negb (c_producer c));;
  match producer_get (c_value c) with
  | Some v => put_cell l (SharedCell (c_value c) false false);; mret v
  | None => abort_with assert_failed
  end.

(** [get], and [co_await] up to the resumption. *)
Definition result_get_value (r : nat) : comp (api V) (outcome V) :=
  w ← result_wait r;
  match w with
  | Ret _ =>
      o ← load_result r;
      store_result r None;;
      match o with Some l => joined_get l | None => abort_with null_deref end
  | Throw e => mret (Throw e)
  | Terminate => mret Terminate
  end.

(** [resolve]: the awaited result is handed back as a new one. *)
Definition result_resolve (r : nat) : comp (api V) (outcome unit) :=
  w ← result_wait r;
  match w with
  | Ret _ => move_result r;; mret (Ret tt)
  | w => mret w
  end.

(** ** [make_ready_result], [make_exceptional_result] *)

Definition make_result (v : producer_context V) : comp (api V) unit :=
  l ← new_cell; cell_build l v;; release_producer (Some l);; new_result (Some l).
(** When the value's construction throws, the two pointers go, last first. *)
Definition make_ready_result (a : V + exn) : comp (api V) (outcome unit) :=
  match a with
  | inl v => make_result (produced_value v);; mret (Ret tt)
  | inr e => l ← new_cell; release_consumer (Some l);; release_producer (Some l);; mret (Throw e)
  end.
Definition make_exceptional_result (e : option exn) : comp (api V) (outcome unit) :=
  match e with
  | None => mret (Throw invalid_argument)
  | Some e => make_result (produced_exception e);; mret (Ret tt)
  end.

(** ** What an application does *)

Inductive api_op : Type :=
| op_new_promise | op_move_promise (p : nat) | op_destroy_promise (p : nat) | op_assign_promise (p q : nat)
| op_set_result (p : nat) (a : V + exn) | op_set_exception (p : nat) (e : option exn)
| op_set_from_function (p : nat) (f : V + exn) | op_get_result (p : nat)
| op_new_result | op_move_result (r : nat) | op_destroy_result (r : nat) | op_assign_result (r q : nat)
| op_status (r : nat) | op_wait (r : nat) | op_get (r : nat) | op_resolve (r : nat)
| op_make_ready (a : V + exn) | op_make_exceptional (e : option exn).

Definition api_exec (o : api_op) : comp (api V) unit :=
  match o with
  | op_new_promise => new_promise
  | op_move_promise p => move_promise p
  | op_destroy_promise p => destroy_promise p
  | op_assign_promise p q => assign_promise p q
  | op_set_result p a => promise_set_result p a;; mret tt
  | op_set_exception p e => promise_set_exception p e;; mret tt
  | op_set_from_function p f => promise_set_from_function p f;; mret tt
  | op_get_result p => promise_get_result p;; mret tt
  | op_new_result => new_result None
  | op_move_result r => move_result r
  | op_destroy_result r => destroy_result r
  | op_assign_result r q => assign_result r q
  | op_status r => result_status_of r;; mret tt
  | op_wait r => result_wait r;; mret tt
  | op_get r => result_get_value r;; mret tt
  | op_resolve r => result_resolve r;; mret tt
  | op_make_ready a => make_ready_result a;; mret tt
  | op_make_exceptional e => make_exceptional_result e;; mret tt
  end.

(** The objects an operation is called on. *)
Definition op_objects (o : api_op) : list nat * list nat :=
  match o with
  | op_new_promise | op_new_result | op_make_ready _ | op_make_exceptional _ => ([], [])
  | op_move_promise p | op_destroy_promise p | op_set_result p _ | op_set_exception p _
  | op_set_from_function p _ | op_get_result p => ([p], [])
  | op_assign_promise p q => ([p; q], [])
  | op_move_result r | op_destroy_result r | op_status r | op_wait r | op_get r | op_resolve r => ([], [r])
  | op_assign_result r q => ([], [r; q])
  end.

Definition op_valid (o : api_op) s : Prop :=
  Forall (λ p, is_Some (promises s !! p)) (op_objects o).1 ∧ Forall (λ r, is_Some (results s !! r)) (op_objects o).2.

Inductive api_reachable : api V → Prop :=
| ar_init : api_reachable api_init
| ar_step s o s' : api_reachable s → op_valid o s → api_exec o s = Done tt s' → api_reachable s'.

(** ** The invariant *)

Definition opt_list (o : option nat) : list nat := match o with Some l => [l] | None => [] end.

(** The pointers that exist. *)
Definition producers s : list nat := concat ((λ o, opt_list (m_producer_state o)) <$> promises s).
Definition consumers s : list nat :=
  concat ((λ o, opt_list (m_consumer_state o)) <$> promises s) ++ concat (opt_list <$> results s).

Definition count_if (f : shared_cell V → bool) (o : option (shared_cell V)) : nat :=
  match o with Some c => if f c then 1 else 0 | None => 0 end.

(** [np], [nc]: pointers that an operation holds in its own variables. *)
Record api_inv (np nc : list nat) s : Prop := ApiInv {
  ai_producers l : occ l (producers s) + occ l np = count_if c_producer (heap s !! l);
  ai_consumers l : occ l (consumers s) + occ l nc = count_if c_consumer (heap s !! l);
  ai_held l c : heap s !! l = Some c → c_producer c = true ∨ c_consumer c = true;
  ai_same o l l' : o ∈ promises s → m_producer_state o = Some l → m_consumer_state o = Some l' → l = l' }.

(** A state that was published and that a result refers to has a value, and one
    that was not published has none.  [bl]: states that have their value and are
    about to be published; [held]: states whose consumer an operation has taken
    from a result. *)
Record values_ok (bl held : list nat) s : Prop := ValuesOk {
  vo_idle l c : heap s !! l = Some c → c_producer c = true → l ∉ bl → c_value c = produced_nothing;
  vo_done l c : heap s !! l = Some c → c_producer c = false → Some l ∈ results s ∨ l ∈ held → c_value c ≠ produced_nothing }.

Definition api_ok s : Prop := api_inv [] [] s ∧ values_ok [] [] s.

Lemma occ_consumers x s :
  occ x (consumers s) =
  occ x (concat ((λ o, opt_list (m_consumer_state o)) <$> promises s)) + occ x (concat (opt_list <$> results s)).
Proof. apply occ_app. Qed.

Lemma holder_elem {B} (f : B → list nat) (bs : list B) b x : b ∈ bs → x ∈ f b → x ∈ concat (f <$> bs).
Proof.
  rewrite !list_elem_of_In. intros Hb Hx. apply in_concat. exists (f b). split; [|done]. by apply in_map.
Qed.
Lemma producers_elem s p o l : promises s !! p = Some o → m_producer_state o = Some l → l ∈ producers s.
Proof. intros Hp Ho. eapply holder_elem; [by eapply list_elem_of_lookup_2|]. rewrite Ho. by left. Qed.
Lemma consumers_result s l : Some l ∈ results s → l ∈ consumers s.
Proof. intros Hr. apply elem_of_app. right. eapply holder_elem; [done|]. by left. Qed.

(** Pointers move between objects and the variables of an operation. *)
Lemma api_inv_store_promise np nc np' nc' s p o o' :
  api_inv np nc s → promises s !! p = Some o →
  (∀ l l', m_producer_state o' = Some l → m_consumer_state o' = Some l' → l = l') →
  (∀ x, occ x (opt_list (m_producer_state o')) + occ x np' = occ x (opt_list (m_producer_state o)) + occ x np) →
  (∀ x, occ x (opt_list (m_consumer_state o')) + occ x nc' = occ x (opt_list (m_consumer_state o)) + occ x nc) →
  api_inv np' nc' (Api (heap s) (<[p := o']> (promises s)) (results s)).
Proof.
  intros [H1 H2 H3 H4] Hp Hs Hnp Hnc. split; simpl; [| |done|].
  - intros l. specialize (H1 l). specialize (Hnp l). unfold producers in *. simpl.
    pose proof (occ_concat_insert (λ o, opt_list (m_producer_state o)) _ p o o' l Hp) as Hc. simpl in Hc. lia.
  - intros l. specialize (H2 l). specialize (Hnc l). rewrite occ_consumers in *. simpl.
    pose proof (occ_concat_insert (λ o, opt_list (m_consumer_state o)) _ p o o' l Hp) as Hc. simpl in Hc. lia.
  - intros x l l' [i Hi]%list_elem_of_lookup. apply list_lookup_insert_Some in Hi as [(-> & <- & _)|[_ Hi]]; [apply Hs|].
    apply H4. by eapply list_elem_of_lookup_2.
Qed.

Lemma api_inv_new_promise np nc np' nc' s o :
  api_inv np nc s → (∀ l l', m_producer_state o = Some l → m_consumer_state o = Some l' → l = l') →
  (∀ x, occ x (opt_list (m_producer_state o)) + occ x np' = occ x np) →
  (∀ x, occ x (opt_list (m_consumer_state o)) + occ x nc' = occ x nc) →
  api_inv np' nc' (Api (heap s) (promises s ++ [o]) (results s)).
Proof.
  intros [H1 H2 H3 H4] Hs Hnp Hnc. split; simpl; [| |done|].
  - intros l. specialize (H1 l). specialize (Hnp l). unfold producers in *. simpl. rewrite occ_concat_snoc. lia.
  - intros l. specialize (H2 l). specialize (Hnc l). rewrite occ_consumers in *. simpl. rewrite occ_concat_snoc. lia.
  - intros x l l' [Hx| ->%list_elem_of_singleton]%elem_of_app; [by apply H4|by apply Hs].
Qed.

Lemma api_inv_store_result np nc nc' s r o o' :
  api_inv np nc s → results s !! r = Some o →
  (∀ x, occ x (opt_list o') + occ x nc' = occ x (opt_list o) + occ x nc) →
  api_inv np nc' (Api (heap s) (promises s) (<[r := o']> (results s))).
Proof.
  intros [H1 H2 H3 H4] Hr Hnc. split; simpl; [done| |done|done].
  intros l. specialize (H2 l). specialize (Hnc l). rewrite occ_consumers in *. simpl.
  pose proof (occ_concat_insert opt_list _ r o o' l Hr) as Hc. lia.
Qed.

Lemma api_inv_new_result np nc nc' s o :
  api_inv np nc s → (∀ x, occ x (opt_list o) + occ x nc' = occ x nc) →
  api_inv np nc' (Api (heap s) (promises s) (results s ++ [o])).
Proof.
  intros [H1 H2 H3 H4] Hnc. split; simpl; [done| |done|done].
  intros l. specialize (H2 l). specialize (Hnc l). rewrite occ_consumers in *. simpl. rewrite occ_concat_snoc. lia.
Qed.

(** A pointer is to a state that exists. *)
Lemma producer_exists np nc s l :
  api_inv np nc s → l ∈ producers s ∨ l ∈ np → ∃ c, heap s !! l = Some c ∧ c_producer c = true.
Proof.
  intros [H1 _ _ _] Hl. specialize (H1 l). assert (0 < occ l (producers s) + occ l np) as Hp.
  { rewrite <- !occ_pos in Hl. lia. }
  unfold count_if in H1. destruct (heap s !! l) as [c|]; [|lia]. exists c. split; [done|]. destruct (c_producer c); [done|lia].
Qed.

Lemma consumer_exists np nc s l :
  api_inv np nc s → l ∈ consumers s ∨ l ∈ nc → ∃ c, heap s !! l = Some c ∧ c_consumer c = true.
Proof.
  intros [_ H2 _ _] Hl. specialize (H2 l). assert (0 < occ l (consumers s) + occ l nc) as Hp.
  { rewrite <- !occ_pos in Hl. lia. }
  unfold count_if in H2. destruct (heap s !! l) as [c|]; [|lia]. exists c. split; [done|]. destruct (c_consumer c); [done|lia].
Qed.

Lemma put_heap_lookup l c h k :
  put_heap l c h !! k = if decide (k = l) then (if c_producer c || c_consumer c then Some c else None) else h !! k.
Proof.
  unfold put_heap. case_decide as Hk; [subst k|]; destruct (c_producer c || c_consumer c);
    by rewrite ?lookup_insert_eq, ?lookup_delete_eq, ?lookup_insert_ne, ?lookup_delete_ne.
Qed.

(** The holders of one state change. *)
Lemma api_inv_put np nc np' nc' s l c c' :
  api_inv np nc s → heap s !! l = Some c →
  (∀ x, occ x np' + (if decide (x = l) then count_if c_producer (Some c) else 0) =
        occ x np + (if decide (x = l) then count_if c_producer (Some c') else 0)) →
  (∀ x, occ x nc' + (if decide (x = l) then count_if c_consumer (Some c) else 0) =
        occ x nc + (if decide (x = l) then count_if c_consumer (Some c') else 0)) →
  api_inv np' nc' (Api (put_heap l c' (heap s)) (promises s) (results s)).
Proof.
  intros [H1 H2 H3 H4] Hl Hnp Hnc. split; simpl; [| | |done].
  - intros x. specialize (H1 x). specialize (Hnp x). unfold producers in *. simpl. rewrite put_heap_lookup.
    repeat case_decide; subst; try done; rewrite ?Hl in H1; simpl in *; destruct (c_producer c') eqn:E1, (c_consumer c') eqn:E2; simpl in *; rewrite ?E1, ?E2 in *; lia.
  - intros x. specialize (H2 x). specialize (Hnc x). rewrite occ_consumers in *. simpl. rewrite put_heap_lookup.
    repeat case_decide; subst; try done; rewrite ?Hl in H2; simpl in *; destruct (c_producer c') eqn:E1, (c_consumer c') eqn:E2; simpl in *; rewrite ?E1, ?E2 in *; lia.
  - intros k d. rewrite put_heap_lookup. case_decide; [|by apply H3].
    destruct (c_producer c') eqn:E1, (c_consumer c') eqn:E2; simpl; intros; simplify_eq; auto.
Qed.

Definition inv (np nc bl held : list nat) s : Prop := api_inv np nc s ∧ values_ok bl held s.

Lemma values_ok_mono bl held held' s : (∀ l, l ∈ held' → l ∈ held) → values_ok bl held s → values_ok bl held' s.
Proof. intros Hh [H1 H2]. split; [done|]. intros l c Hl Hc [?|?]; eapply H2; eauto. Qed.

(** A value is stored in a state that was not published. *)
Lemma wp_cell_build np nc held s l v c (Q : unit → api V → Prop) :
  inv np nc [] held s → heap s !! l = Some c → c_producer c = true → v ≠ produced_nothing →
  (∀ s', s' = Api (<[l := SharedCell v true (c_consumer c)]> (heap s)) (promises s) (results s) →
     inv np nc [l] held s' → Q tt s') →
  wp (cell_build l v) Q s.
Proof.
  intros [Hi [Hv1 Hv2]] Hl Hp Hv HQ. unfold cell_build. apply wp_bind. unfold wp at 1, load_cell. rewrite Hl.
  rewrite (Hv1 l c Hl Hp) by (by intros ?%elem_of_nil). rewrite Hp. apply wp_bind, wp_get, wp_modify. apply HQ; [done|]. split.
  - pose proof (api_inv_put np nc np nc s l c (SharedCell v true (c_consumer c)) Hi Hl) as Hpi. unfold put_heap in Hpi.
    simpl in Hpi. rewrite Hp in Hpi. apply Hpi; done.
  - split; simpl; intros k d.
    + intros [[-> <-]|[Hk Hd]]%lookup_insert_Some Hpd Hkl; [by rewrite list_elem_of_singleton in Hkl|].
      by apply (Hv1 k d Hd Hpd), not_elem_of_nil.
    + intros [[-> <-]|[Hk Hd]]%lookup_insert_Some Hpd Hr; [done|]. by eapply Hv2.
Qed.

Lemma wp_release_producer np nc bl held s l c (Q : unit → api V → Prop) :
  inv (l :: np) nc bl held s → heap s !! l = Some c →
  (Some l ∈ results s ∨ l ∈ held → c_value c ≠ produced_nothing) →
  (∀ s', s' = Api (put_heap l (SharedCell (c_value c) false (c_consumer c)) (heap s)) (promises s) (results s) →
     inv np nc (filter (λ k, k ≠ l) bl) held s' → Q tt s') →
  wp (release_producer (Some l)) Q s.
Proof.
  intros [Hi [Hv1 Hv2]] Hl Hval HQ. destruct (producer_exists _ _ _ l Hi) as (c0 & Hc0 & Hp); [right; by left|].
  simplify_eq. unfold release_producer. apply wp_bind. unfold wp at 1, load_cell. rewrite Hl. apply wp_bind, wp_assert; [done|].
  unfold put_cell. apply wp_bind, wp_get, wp_modify. apply HQ; [done|]. split.
  - eapply (api_inv_put _ _ _ _ s l c); [done|done|..]; intros x; [|done]. rewrite occ_cons. simpl. rewrite Hp.
    case_decide; [subst; rewrite occ_self; lia|].
    assert (occ x [l] = 0); [|lia]. destruct (occ x [l]) eqn:E; [done|].
    assert (x ∈ [l]) by (apply occ_pos; lia). set_solver.
  - split; simpl; intros k d; rewrite put_heap_lookup; case_decide; subst; simpl.
    + destruct (c_consumer c); intros; by simplify_eq.
    + intros Hd Hpd Hkb. apply (Hv1 k d Hd Hpd). intros Hk. apply Hkb. by apply list_elem_of_filter.
    + destruct (c_consumer c); intros; simplify_eq; auto.
    + intros Hd Hpd Hr. by eapply Hv2.
Qed.

Lemma wp_release_consumer np nc bl held s l (Q : unit → api V → Prop) :
  inv np (l :: nc) bl held s →
  (∀ s', promises s' = promises s → results s' = results s → inv np nc bl held s' → Q tt s') →
  wp (release_consumer (Some l)) Q s.
Proof.
  intros [Hi [Hv1 Hv2]] HQ. destruct (consumer_exists _ _ _ l Hi) as (c & Hl & Hp); [right; by left|].
  unfold release_consumer. apply wp_bind. unfold wp at 1, load_cell. rewrite Hl. apply wp_bind, wp_assert; [done|].
  unfold put_cell. apply wp_bind, wp_get, wp_modify. apply HQ; [done|done|]. split.
  - eapply (api_inv_put _ _ _ _ s l c); [done|done|..]; intros x; [done|]. rewrite occ_cons. simpl. rewrite Hp.
    case_decide; [subst; rewrite occ_self; lia|].
    assert (occ x [l] = 0); [|lia]. destruct (occ x [l]) eqn:E; [done|].
    assert (x ∈ [l]) by (apply occ_pos; lia). set_solver.
  - split; simpl; intros k d; rewrite put_heap_lookup; case_decide; subst; simpl.
    + destruct (c_producer c) eqn:E; simpl; intros; simplify_eq/=. by eapply Hv1.
    + apply Hv1.
    + destruct (c_producer c) eqn:E; simpl; intros; by simplify_eq/=.
    + apply Hv2.
Qed.

(** ** Every operation preserves it *)

Lemma wp_new_cell np nc bl held s (Q : nat → api V → Prop) :
  inv np nc bl held s →
  (∀ l s', heap s' !! l = Some (SharedCell produced_nothing true true) → Some l ∉ results s' →
     heap s !! l = None → s' = Api (<[l := SharedCell produced_nothing true true]> (heap s)) (promises s) (results s) →
     inv (l :: np) (l :: nc) bl held s' → Q l s') →
  wp new_cell Q s.
Proof.
  intros [[H1 H2 H3 H4] [Hv1 Hv2]] HQ. unfold new_cell. apply wp_bind, wp_get, wp_bind, wp_modify, wp_ret.
  set (l := fresh (dom (heap s))). assert (heap s !! l = None) as Hl by apply not_elem_of_dom, is_fresh.
  assert (∀ x, occ x (l :: np) = (if decide (x = l) then 1 else 0) + occ x np) as Hnp.
  { intros x. rewrite occ_cons, occ_singleton. done. }
  assert (∀ x, occ x (l :: nc) = (if decide (x = l) then 1 else 0) + occ x nc) as Hnc.
  { intros x. rewrite occ_cons, occ_singleton. done. }
  apply HQ; simpl; [by rewrite lookup_insert_eq| |done|done|split; split]; simpl.
  - intros Hr%consumers_result%occ_pos. specialize (H2 l). rewrite Hl in H2. simpl in H2. lia.
  - intros x. specialize (H1 x). unfold producers in *. simpl. rewrite Hnp. case_decide; subst.
    + rewrite lookup_insert_eq. rewrite Hl in H1. simpl in *. lia.
    + rewrite lookup_insert_ne by done. lia.
  - intros x. specialize (H2 x). rewrite occ_consumers in *. simpl. rewrite Hnc. case_decide; subst.
    + rewrite lookup_insert_eq. rewrite Hl in H2. simpl in *. lia.
    + rewrite lookup_insert_ne by done. lia.
  - intros k c [[-> <-]|[_ Hk]]%lookup_insert_Some; [by left|by eapply H3].
  - done.
  - intros k c [[-> <-]|[_ Hk]]%lookup_insert_Some; [done|by apply Hv1].
  - intros k c [[-> <-]|[_ Hk]]%lookup_insert_Some; [done|by apply Hv2].
Qed.

Lemma wp_load_promise s p o (Q : promise_obj → api V → Prop) :
  promises s !! p = Some o → Q o s → wp (load_promise p) Q s.
Proof. intros Hp HQ. unfold wp, load_promise. by rewrite Hp. Qed.
Lemma wp_load_result s r o (Q : option nat → api V → Prop) :
  results s !! r = Some o → Q o s → wp (load_result r) Q s.
Proof. intros Hr HQ. unfold wp, load_result. by rewrite Hr. Qed.
Lemma wp_load_cell s l c (Q : shared_cell V → api V → Prop) :
  heap s !! l = Some c → Q c s → wp (load_cell l) Q s.
Proof. intros Hl HQ. unfold wp, load_cell. by rewrite Hl. Qed.

(** A consumer's pointer that an operation holds is not one of a result. *)
Lemma taken_not_result np nc s l : api_inv np nc s → l ∈ nc → Some l ∉ results s.
Proof.
  intros [_ H _ _] Hn%occ_pos Hr%consumers_result%occ_pos. specialize (H l).
  destruct (heap s !! l) as [c|]; simpl in H; [destruct (c_consumer c)|]; lia.
Qed.

Lemma values_ok_store_result bl held s r o :
  values_ok bl held s → (∀ l, o = Some l → l ∈ held ∨ Some l ∈ results s) →
  values_ok bl held (Api (heap s) (promises s) (<[r := o]> (results s))).
Proof.
  intros [H1 H2] Ho. split; simpl; [done|]. intros l c Hl Hc [[i Hi]%list_elem_of_lookup|Hh]; [|eauto].
  apply list_lookup_insert_Some in Hi as [(_ & Hx & _)|[_ Hi]]; [|eapply H2; eauto using list_elem_of_lookup_2].
  destruct (Ho l Hx); eauto.
Qed.

Lemma wp_publish np nc held s p l o v (Q : unit → api V → Prop) :
  inv np nc [] held s → promises s !! p = Some o → m_producer_state o = Some l → v ≠ produced_nothing →
  (∀ s', promises s' = <[p := PromiseObj None (m_consumer_state o)]> (promises s) → results s' = results s →
     inv np nc [] held s' → Q tt s') →
  wp (publish p l o v) Q s.
Proof.
  intros Hi Hp Ho Hv HQ. destruct (producer_exists _ _ _ l (proj1 Hi)) as (c & Hc & Hcp); [left; by eapply producers_elem|].
  unfold publish. apply wp_bind, (wp_cell_build np nc held s l v c); [done..|]. intros s1 -> [Hi1 Hv1].
  apply wp_bind, wp_modify. simpl.
  eapply (wp_release_producer np nc [l] held _ l (SharedCell v true (c_consumer c))); simpl; [split| |done|].
  - refine (api_inv_store_promise _ _ _ _ _ p o _ Hi1 Hp _ _ _); [by intros| |]; intros x; simpl; [rewrite Ho|done].
    simpl. rewrite (occ_cons x l np). occ_lia.
  - destruct Hv1 as [Ha Hb]. split; [exact Ha|exact Hb].
  - by rewrite lookup_insert_eq.
  - intros s' -> Hi'. apply HQ; [done|done|]. 
    rewrite filter_cons_False, filter_nil in Hi' by (intros []; done). exact Hi'.
Qed.

Lemma wp_break_task np nc held s p o (Q : unit → api V → Prop) :
  inv np nc [] held s → promises s !! p = Some o →
  (∀ s' o', promises s' = <[p := o']> (promises s) → results s' = results s → inv np nc [] held s' →
     (m_producer_state o' = None ∨ m_producer_state o' = m_consumer_state o') → Q tt s') →
  wp (break_task_if_needed p) Q s.
Proof.
  intros Hi Hp HQ. unfold break_task_if_needed. eapply wp_bind, wp_load_promise; [done|].
  destruct o as [[l|] [l'|]]; simpl.
  - apply wp_ret. eapply HQ; [by rewrite (list_insert_id _ _ _ Hp)|done|done|]. right. simpl. f_equal.
    eapply (ai_same _ _ _ (proj1 Hi)); [by eapply list_elem_of_lookup_2|done|done].
  - eapply wp_publish; [done|done|done|done|]. intros s' H1 H2 H3. eapply HQ; [exact H1|done|done|by left].
  - apply wp_ret. eapply HQ; [by rewrite (list_insert_id _ _ _ Hp)|done|done|by left].
  - apply wp_ret. eapply HQ; [by rewrite (list_insert_id _ _ _ Hp)|done|done|by left].
Qed.

Lemma wp_release_producer_opt np nc s o (Q : unit → api V → Prop) :
  inv (opt_list o ++ np) nc [] [] s → (∀ l, o = Some l → Some l ∉ results s) →
  (∀ s', promises s' = promises s → results s' = results s → inv np nc [] [] s' → Q tt s') →
  wp (release_producer o) Q s.
Proof.
  intros Hi Ho HQ. destruct o as [l|]; [|by apply wp_ret, HQ].
  destruct (producer_exists _ _ _ l (proj1 Hi)) as (c & Hc & _); [right; by left|].
  eapply wp_release_producer; [exact Hi|done|intros [?|?%elem_of_nil]; [by destruct (Ho l eq_refl)|done]|].
  intros s' -> Hi'. by apply HQ.
Qed.

Lemma wp_release_consumer_opt np nc s o (Q : unit → api V → Prop) :
  inv np (opt_list o ++ nc) [] [] s →
  (∀ s', promises s' = promises s → results s' = results s → inv np nc [] [] s' → Q tt s') →
  wp (release_consumer o) Q s.
Proof. intros Hi HQ. destruct o as [l|]; [eapply wp_release_consumer; [exact Hi|done]|by apply wp_ret, HQ]. Qed.

(** A promise's pointers are taken into an operation's variables. *)
Lemma inv_take_promise np nc s p o :
  inv np nc [] [] s → promises s !! p = Some o →
  inv (opt_list (m_producer_state o) ++ np) (opt_list (m_consumer_state o) ++ nc) [] []
    (Api (heap s) (<[p := PromiseObj None None]> (promises s)) (results s)).
Proof.
  intros [Hi [Ha Hb]] Hp. split; [|split; [exact Ha|exact Hb]].
  refine (api_inv_store_promise _ _ _ _ _ p o _ Hi Hp _ _ _); [by intros| |]; intros x; simpl; occ_lia.
Qed.
Lemma inv_take_result nc s r o :
  inv [] nc [] [] s → results s !! r = Some o →
  inv [] (opt_list o ++ nc) [] (opt_list o) (Api (heap s) (promises s) (<[r := None]> (results s))).
Proof.
  intros [Hi Hv] Hr. split.
  - refine (api_inv_store_result _ _ _ _ r o _ Hi Hr _). intros x. simpl. occ_lia.
  - apply values_ok_store_result; [|done]. destruct Hv as [Ha Hb]. split; [done|].
    intros l c Hl Hc [Hx|Hx]; [by eauto|]. apply (Hb l c); [done..|]. left. destruct o as [k|]; [|by apply elem_of_nil in Hx].
    apply list_elem_of_singleton in Hx as ->. by eapply list_elem_of_lookup_2.
Qed.
Lemma inv_new_result nc s o :
  inv [] (opt_list o ++ nc) [] (opt_list o) s → inv [] nc [] [] (Api (heap s) (promises s) (results s ++ [o])).
Proof.
  intros [Hi [Ha Hb]]. split.
  - apply (api_inv_new_result _ _ _ _ _ Hi). occ_lia.
  - split; [done|]. simpl. intros l c Hl Hc [[Hx|Hx%list_elem_of_singleton]%elem_of_app|Hx%elem_of_nil]; [by eauto| |done].
    eapply Hb; [done..|]. right. subst o. by left.
Qed.

Lemma inv_ok s : inv [] [] [] [] s ↔ api_ok s.
Proof. done. Qed.

Lemma wp_destroy_promise s p o :
  api_ok s → promises s !! p = Some o → wp (destroy_promise p) (λ _, api_ok) s.
Proof.
  intros Hi Hp. unfold destroy_promise. eapply wp_bind, wp_break_task; [exact Hi|done|]. intros s1 o1 H1 H2 Hi1 Hsame.
  assert (promises s1 !! p = Some o1) as Hp1.
  { rewrite H1. apply list_lookup_insert_eq. by eapply lookup_lt_Some. }
  eapply wp_bind, wp_load_promise; [done|]. apply wp_bind, wp_modify. pose proof (inv_take_promise _ _ _ _ _ Hi1 Hp1) as Hi2.
  assert (∀ l, m_producer_state o1 = Some l → Some l ∉ results s1) as Hn.
  { intros l Hl. apply (taken_not_result _ _ _ l (proj1 Hi2)). apply elem_of_app. left. destruct Hsame as [?|He]; [congruence|].
    rewrite <- He, Hl. by left. }
  eapply wp_bind, wp_release_consumer_opt; [exact Hi2|]. intros s3 _ H3 Hi3.
  eapply wp_release_producer_opt; [exact Hi3|by rewrite H3|]. by intros.
Qed.

Lemma wp_assign_promise s p q o o' :
  api_ok s → promises s !! p = Some o → promises s !! q = Some o' → wp (assign_promise p q) (λ _, api_ok) s.
Proof.
  intros Hi Hp Hq. unfold assign_promise. case_decide as Hpq; [by apply wp_ret|].
  eapply wp_bind, wp_break_task; [exact Hi|done|]. intros s1 o1 H1 H2 Hi1 Hsame.
  assert (promises s1 !! p = Some o1) as Hp1.
  { rewrite H1. apply list_lookup_insert_eq. by eapply lookup_lt_Some. }
  assert (promises s1 !! q = Some o') as Hq1 by (rewrite H1; by rewrite list_lookup_insert_ne by done).
  eapply wp_bind, wp_load_promise; [done|]. eapply wp_bind, wp_load_promise; [done|].
  apply wp_bind, wp_modify, wp_bind, wp_modify.
  pose proof (inv_take_promise _ _ _ _ _ Hi1 Hq1) as Hi2.
  assert (inv (opt_list (m_producer_state o1)) (opt_list (m_consumer_state o1)) [] []
    (Api (heap s1) (<[p := o']> (<[q := PromiseObj None None]> (promises s1))) (results s1))) as Hi3.
  { destruct Hi2 as [Hia [Ha Hb]]. split; [|split; [exact Ha|exact Hb]].
    refine (api_inv_store_promise _ _ _ _ _ p o1 _ Hia _ _ _ _); simpl.
    - by rewrite list_lookup_insert_ne by done.
    - intros l l'. apply (ai_same _ _ _ (proj1 Hi1)). by eapply list_elem_of_lookup_2.
    - occ_lia.
    - occ_lia. }
  assert (∀ l, m_producer_state o1 = Some l → Some l ∉ results s1) as Hn.
  { intros l Hl. apply (taken_not_result _ _ _ l (proj1 Hi3)). destruct Hsame as [?|He]; [congruence|].
    rewrite <- He, Hl. by left. }
  rewrite <- (app_nil_r (opt_list (m_producer_state o1))) in Hi3.
  eapply wp_bind, wp_release_producer_opt; [exact Hi3|done|]. intros s4 _ _ Hi4.
  rewrite <- (app_nil_r (opt_list (m_consumer_state o1))) in Hi4.
  eapply wp_release_consumer_opt; [exact Hi4|]. by intros.
Qed.

Lemma wp_new_promise s : api_ok s → wp new_promise (λ _, api_ok) s.
Proof.
  intros Hi. unfold new_promise. eapply wp_bind, wp_new_cell; [exact Hi|]. intros l s1 _ _ _ _ [Hi1 [Ha Hb]].
  apply wp_modify. split; [|by split].
  refine (api_inv_new_promise _ _ _ _ _ _ Hi1 _ _ _); simpl; [congruence|done|done].
Qed.

Lemma wp_move_promise s p o : api_ok s → promises s !! p = Some o → wp (move_promise p) (λ _, api_ok) s.
Proof.
  intros Hi Hp. unfold move_promise. eapply wp_bind, wp_load_promise; [done|]. apply wp_bind, wp_modify, wp_modify.
  destruct (inv_take_promise _ _ _ _ _ Hi Hp) as [Hi1 [Ha Hb]]. split; [|by split].
  refine (api_inv_new_promise _ _ _ _ _ _ Hi1 _ _ _); simpl; [|occ_lia|occ_lia].
  intros l l'. apply (ai_same _ _ _ (proj1 Hi)). by eapply list_elem_of_lookup_2.
Qed.

Lemma wp_promise_set s p o v :
  api_ok s → promises s !! p = Some o → v ≠ produced_nothing → wp (promise_set p v) (λ _, api_ok) s.
Proof.
  intros Hi Hp Hv. unfold promise_set. eapply wp_bind, wp_load_promise; [done|].
  destruct (m_producer_state o) as [l|] eqn:Ho; [|by apply wp_ret].
  eapply wp_bind, wp_publish; [exact Hi|done|done|done|]. intros s' _ _ Hi'. by apply wp_ret.
Qed.

Lemma wp_promise_get_result s p o :
  api_ok s → promises s !! p = Some o → wp (promise_get_result p) (λ _, api_ok) s.
Proof.
  intros Hi Hp. unfold promise_get_result. eapply wp_bind, wp_load_promise; [done|].
  destruct o as [[l|] [l'|]]; simpl; try by apply wp_ret. apply wp_bind, wp_modify, wp_bind, wp_modify, wp_ret.
  assert (l = l') as <- by (eapply (ai_same _ _ _ (proj1 Hi)); [by eapply list_elem_of_lookup_2|done|done]).
  destruct Hi as [Hi [Ha Hb]]. apply (inv_new_result [] (Api _ _ _) (Some l)). split.
  - refine (api_inv_store_promise _ _ _ _ _ p _ _ Hi Hp _ _ _); simpl; [done|occ_lia|occ_lia].
  - split; [exact Ha|]. intros k c Hk Hc [Hr|Hr]; [by eauto|]. apply list_elem_of_singleton in Hr as ->.
    destruct (producer_exists _ _ _ l Hi) as (c' & Hc' & ?); [left; by eapply producers_elem|]. simpl in Hk. congruence.
Qed.

Lemma wp_move_result s r o : api_ok s → results s !! r = Some o → wp (move_result r) (λ _, api_ok) s.
Proof.
  intros Hi Hr. unfold move_result. eapply wp_bind, wp_load_result; [done|]. apply wp_bind, wp_modify, wp_modify.
  apply (inv_new_result [] (Api _ _ _) o), inv_take_result; done.
Qed.

Lemma wp_destroy_result s r o : api_ok s → results s !! r = Some o → wp (destroy_result r) (λ _, api_ok) s.
Proof.
  intros Hi Hr. unfold destroy_result. eapply wp_bind, wp_load_result; [done|]. apply wp_bind, wp_modify.
  destruct (inv_take_result _ _ _ _ Hi Hr) as [Hi1 Hv1].
  eapply wp_release_consumer_opt; [split; [exact Hi1|]|by intros]. eapply values_ok_mono; [|exact Hv1]. by intros ? ?%elem_of_nil.
Qed.

Lemma wp_assign_result s r q o o' :
  api_ok s → results s !! r = Some o → results s !! q = Some o' → wp (assign_result r q) (λ _, api_ok) s.
Proof.
  intros Hi Hr Hq. unfold assign_result. case_decide as Hrq; [by apply wp_ret|].
  eapply wp_bind, wp_load_result; [done|]. eapply wp_bind, wp_load_result; [done|]. apply wp_bind, wp_modify, wp_bind, wp_modify.
  destruct (inv_take_result _ _ _ _ Hi Hq) as [Hi1 Hv1].
  eapply (wp_release_consumer_opt [] []); [split|by intros].
  - refine (api_inv_store_result _ _ _ _ r o _ Hi1 _ _); simpl; [by rewrite list_lookup_insert_ne by done|occ_lia].
  - eapply values_ok_mono; [|refine (values_ok_store_result _ _ _ _ _ Hv1 _)]; [by intros ? ?%elem_of_nil|].
    intros l ->. left. by left.
Qed.

(** A published state that a result refers to. *)
Lemma wp_joined_get s l c v (Q : outcome V → api V → Prop) :
  inv [] [l] [] [] s → heap s !! l = Some c → c_producer c = false → producer_get (c_value c) = Some v →
  (∀ s', s' = Api (delete l (heap s)) (promises s) (results s) → api_ok s' → Q v s') → wp (joined_get l) Q s.
Proof.
  intros [Hi [Ha Hb]] Hl Hp Hv HQ. unfold joined_get. eapply wp_bind, wp_load_cell; [done|].
  apply wp_bind, wp_assert; [by rewrite Hp|]. rewrite Hv. apply wp_bind. unfold put_cell. apply wp_bind, wp_get, wp_modify, wp_ret.
  destruct (consumer_exists _ _ _ l Hi) as (c0 & Hc0 & Hcc); [right; by left|]. simplify_eq.
  apply HQ; [done|]. split.
  - refine (api_inv_put _ _ _ _ _ l c (SharedCell (c_value c) false false) Hi Hl _ _); intros x; simpl.
    + rewrite Hp. done.
    + rewrite Hcc, occ_singleton. case_decide; occ_lia.
  - split; simpl; unfold put_heap; simpl; intros k d [_ Hk]%lookup_delete_Some; [by apply Ha|by apply Hb].
Qed.

Lemma producer_get_some (v : producer_context V) : v ≠ produced_nothing → ∃ r, producer_get v = Some r ∧ r ≠ Terminate.
Proof. destruct v; [done|..]; intros _; simpl; by eexists. Qed.

Lemma result_state_exists s r l :
  api_ok s → results s !! r = Some (Some l) → ∃ c, heap s !! l = Some c ∧ c_consumer c = true.
Proof.
  intros [Hi _] Hr. apply (consumer_exists [] [] s l Hi). left. apply consumers_result. by eapply list_elem_of_lookup_2.
Qed.

Lemma wp_result_wait s r o (Q : outcome unit → api V → Prop) :
  api_ok s → results s !! r = Some o →
  (o = None → Q (Throw empty_result) s) →
  (∀ l c, o = Some l → heap s !! l = Some c → c_producer c = false → Q (Ret tt) s) →
  wp (result_wait r) Q s.
Proof.
  intros Hi Hr H1 H2. unfold result_wait. eapply wp_bind, wp_load_result; [done|].
  destruct o as [l|]; [|by apply wp_ret, H1]. destruct (result_state_exists _ _ _ Hi Hr) as (c & Hc & _).
  eapply wp_bind, wp_load_cell; [done|]. destruct (c_producer c) eqn:Hp; [apply wp_block|]. by eapply wp_ret, H2.
Qed.

Lemma wp_result_get s r o : api_ok s → results s !! r = Some o → wp (result_get_value r) (λ _, api_ok) s.
Proof.
  intros Hi Hr. unfold result_get_value. eapply wp_bind, wp_result_wait; [done|done|by intros; apply wp_ret|].
  intros l c -> Hc Hp. eapply wp_bind, wp_load_result; [done|]. apply wp_bind, wp_modify.
  destruct (inv_take_result _ _ _ _ Hi Hr) as [Hi1 Hv1].
  destruct (producer_get_some (c_value c)) as (v & Hv & _).
  { apply (vo_done _ _ _ Hv1 l c); [done|done|]. right. by left. }
  eapply (wp_joined_get _ l c v); [split; [exact Hi1|]|done|done|done|by intros].
  eapply values_ok_mono; [|exact Hv1]. by intros ? ?%elem_of_nil.
Qed.

Lemma wp_result_resolve s r o : api_ok s → results s !! r = Some o → wp (result_resolve r) (λ _, api_ok) s.
Proof.
  intros Hi Hr. unfold result_resolve. eapply wp_bind, wp_result_wait; [done|done|by intros; apply wp_ret|].
  intros l c -> Hc Hp. apply wp_bind. eapply wp_mono; [|by eapply wp_move_result]. intros. by apply wp_ret.
Qed.

Lemma wp_result_status s r o : api_ok s → results s !! r = Some o → wp (result_status_of r) (λ _, api_ok) s.
Proof.
  intros Hi Hr. unfold result_status_of. eapply wp_bind, wp_load_result; [done|]. destruct o as [l|]; [|by apply wp_ret].
  destruct (result_state_exists _ _ _ Hi Hr) as (c & Hc & _). eapply wp_bind, wp_load_cell; [done|]. by apply wp_ret.
Qed.

Lemma wp_make_result s v : api_ok s → v ≠ produced_nothing → wp (make_result v) (λ _, api_ok) s.
Proof.
  intros Hi Hv. unfold make_result. eapply wp_bind, wp_new_cell; [exact Hi|]. intros l s1 Hl Hr _ _ Hi1.
  eapply wp_bind, wp_cell_build; [exact Hi1|exact Hl|done|done|]. intros s2 Hs2 Hi2.
  assert (heap s2 !! l = Some (SharedCell v true true)) as Hl2 by (subst s2; simpl; by rewrite lookup_insert_eq).
  eapply wp_bind, wp_release_producer; [exact Hi2|exact Hl2|done|]. intros s3 Hs3 Hi3. apply wp_modify.
  rewrite filter_cons_False, filter_nil in Hi3 by (intros []; done).
  destruct Hi3 as [Hi3 [Ha Hb]]. apply (inv_new_result [] s3 (Some l)). split; [exact Hi3|]. split; [exact Ha|].
  intros k c Hk Hc [Hx|Hx]; [by eauto|]. apply list_elem_of_singleton in Hx as ->.
  rewrite Hs3 in Hk. simpl in Hk. rewrite put_heap_lookup, decide_True in Hk by done. simpl in Hk. by simplify_eq.
Qed.

Lemma wp_make_ready_throws s : api_ok s → ∀ e, wp (make_ready_result (inr e)) (λ _, api_ok) s.
Proof.
  intros Hi e. simpl. eapply wp_bind, wp_new_cell; [exact Hi|]. intros l s1 Hl Hr _ _ Hi1.
  eapply wp_bind, (wp_release_consumer_opt [l] [] s1 (Some l)); [exact Hi1|]. intros s2 _ H2 Hi2.
  eapply wp_bind, (wp_release_producer_opt [] [] s2 (Some l)); [exact Hi2|intros k [= <-]; by rewrite H2|].
  intros s3 _ _ Hi3. by apply wp_ret.
Qed.

Lemma wp_ignore {A} (m : comp (api V) A) s : wp m (λ _, api_ok) s → wp (m;; mret tt) (λ _, api_ok) s.
Proof. intros H. apply wp_bind. eapply wp_mono; [|exact H]. intros a s' Hs. by apply wp_ret. Qed.

Lemma wp_api_exec s o : api_ok s → op_valid o s → wp (api_exec o) (λ _, api_ok) s.
Proof.
  intros Hi [Hp Hr]. destruct o; simpl in *; try apply wp_ignore;
    repeat match goal with
      | H : Forall _ (_ :: _) |- _ => apply Forall_cons in H; destruct H as [[? ?] H]
      end.
  - by apply wp_new_promise.
  - by eapply wp_move_promise.
  - by eapply wp_destroy_promise.
  - by eapply wp_assign_promise.
  - destruct a; [by eapply wp_promise_set|]. eapply wp_bind, wp_load_promise; [done|]. by apply wp_ret.
  - destruct e; [by eapply wp_promise_set|]. eapply wp_bind, wp_load_promise; [done|]. by apply wp_ret.
  - unfold promise_set_from_function. apply wp_bind. eapply wp_mono; [|eapply wp_promise_set; [done|done|by destruct f]].
    intros. by apply wp_ret.
  - by eapply wp_promise_get_result.
  - apply wp_modify, (inv_new_result [] s None). exact Hi.
  - by eapply wp_move_result.
  - by eapply wp_destroy_result.
  - by eapply wp_assign_result.
  - by eapply wp_result_status.
  - by eapply wp_result_wait.
  - by eapply wp_result_get.
  - by eapply wp_result_resolve.
  - destruct a; [|by apply wp_make_ready_throws]. apply wp_bind.
    eapply wp_mono; [|by apply wp_make_result]. intros. by apply wp_ret.
  - destruct e; [|by apply wp_ret]. apply wp_bind. eapply wp_mono; [|by apply wp_make_result]. intros. by apply wp_ret.
Qed.

Lemma api_init_ok : api_ok api_init.
Proof. split; split; simpl; intros; try done; by apply elem_of_nil in H. Qed.

Lemma api_reachable_ok s : api_reachable s → api_ok s.
Proof. induction 1 as [|s o s' _ IH Hv Hd]; [apply api_init_ok|]. by eapply (wp_done _ _ _ _ _ (wp_api_exec s o IH Hv)). Qed.

(** The promise behind a result that is still idle. *)
Lemma idle_has_promise s r l c :
  api_ok s → results s !! r = Some (Some l) → heap s !! l = Some c → c_producer c = true →
  ∃ p, promises s !! p = Some (PromiseObj (Some l) None).
Proof.
  intros [[H1 H2 _ H4] _] Hr Hl Hc. specialize (H1 l). specialize (H2 l). rewrite Hl in H1, H2. simpl in *. rewrite Hc in H1.
  assert (l ∈ producers s) as Hin by (apply occ_pos; rewrite occ_nil in H1; lia).
  apply list_elem_of_In, in_concat in Hin as (k & [o [<- Ho]]%in_map_iff & Hk%list_elem_of_In).
  apply list_elem_of_In, list_elem_of_lookup in Ho as [p Hp]. exists p. rewrite Hp.
  destruct o as [[l0|] [l1|]]; simpl in *; try by apply elem_of_nil in Hk.
  - exfalso. apply list_elem_of_singleton in Hk as <-. assert (l = l1) as <-.
    { eapply H4; [by eapply list_elem_of_lookup_2|done|done]. }
    rewrite occ_consumers in H2.
    assert (0 < occ l (concat ((λ o, opt_list (m_consumer_state o)) <$> promises s))).
    { apply occ_pos. eapply holder_elem; [by eapply list_elem_of_lookup_2|]. by left. }
    assert (0 < occ l (concat (opt_list <$> results s))).
    { apply occ_pos. eapply holder_elem; [by eapply list_elem_of_lookup_2|]. by left. }
    destruct (c_consumer c); lia.
  - by apply list_elem_of_singleton in Hk as <-.
Qed.

Lemma nonblocking_load_cell l : nonblocking (load_cell l).
Proof. intros s. unfold load_cell. by destruct (heap s !! l). Qed.
Lemma nonblocking_load_promise p : nonblocking (load_promise p).
Proof. intros s. unfold load_promise. by destruct (promises s !! p). Qed.
Lemma nonblocking_load_result r : nonblocking (load_result r).
Proof. intros s. unfold load_result. by destruct (results s !! r). Qed.
Hint Resolve nonblocking_load_cell nonblocking_load_promise nonblocking_load_result : ccpp.

Lemma nonblocking_release_producer o : nonblocking (release_producer o).
Proof. unfold release_producer, put_cell, set_heap. solve_nonblocking. Qed.
Lemma nonblocking_release_consumer o : nonblocking (release_consumer o).
Proof. unfold release_consumer, put_cell, set_heap. solve_nonblocking. Qed.
Lemma nonblocking_cell_build l v : nonblocking (cell_build l v).
Proof. unfold cell_build, store_cell, set_heap. solve_nonblocking. Qed.
Hint Resolve nonblocking_release_producer nonblocking_release_consumer nonblocking_cell_build : ccpp.
Lemma nonblocking_new_cell : nonblocking new_cell.
Proof. unfold new_cell, set_heap. solve_nonblocking. Qed.
Lemma nonblocking_publish p l o v : nonblocking (publish p l o v).
Proof. unfold publish, store_promise. solve_nonblocking. Qed.
Hint Resolve nonblocking_new_cell nonblocking_publish : ccpp.
Lemma nonblocking_break_task p : nonblocking (break_task_if_needed p).
Proof. unfold break_task_if_needed. solve_nonblocking. Qed.
Lemma nonblocking_promise_set p v : nonblocking (promise_set p v).
Proof. unfold promise_set. solve_nonblocking. Qed.
Hint Resolve nonblocking_break_task nonblocking_promise_set : ccpp.

(** The operations that wait for a producer. *)
Definition op_waits (o : api_op) : option nat :=
  match o with op_wait r | op_get r | op_resolve r => Some r | _ => None end.

Lemma nonblocking_exec o : op_waits o = None → nonblocking (api_exec o).
Proof.
  destruct o; intros [=]; simpl; unfold new_promise, move_promise, destroy_promise, assign_promise, promise_set_result,
    promise_set_exception, promise_set_from_function, promise_get_result, move_result, destroy_result, assign_result,
    make_ready_result, make_exceptional_result, make_result, result_status_of, store_result, store_promise, new_result;
    solve_nonblocking.
Qed.

(** An operation blocks only for a promise that can still deliver. *)
Lemma exec_blocked s o :
  api_ok s → op_valid o s → api_exec o s = Block →
  ∃ r l p, op_waits o = Some r ∧ results s !! r = Some (Some l) ∧ promises s !! p = Some (PromiseObj (Some l) None).
Proof.
  intros Hi [_ Hr] Hb. destruct (op_waits o) as [r|] eqn:Ho; [|by destruct (nonblocking_exec o Ho s)]. exists r.
  assert (result_wait r s = Block ∧ is_Some (results s !! r)) as [Hw [x Hx]].
  { destruct o; simplify_eq/=; apply Forall_cons in Hr as [Hr _]; (split; [|done]).
    all: apply bind_block in Hb as [Hb|(a & s1 & _ & Hb)]; [|by destruct (nonblocking_ret tt s1)]; [..|].
    - done.
    - apply bind_block in Hb as [Hb|(w & s1 & _ & Hb)]; [done|]. exfalso. revert s1 Hb. unfold joined_get, put_cell, set_heap, store_result.
      change (nonblocking (match w with
        | Ret _ => o ← load_result r; store_result r None;; match o with Some l => joined_get l | None => abort_with null_deref end
        | Throw e => mret (Throw e) | Terminate => mret Terminate end)). unfold joined_get, put_cell, set_heap, store_result.
      solve_nonblocking.
    - apply bind_block in Hb as [Hb|(w & s1 & _ & Hb)]; [done|]. exfalso. revert s1 Hb.
      change (nonblocking (match w with Ret _ => move_result r;; mret (Ret tt) | w => mret w end)).
      unfold move_result, store_result, new_result. solve_nonblocking. }
  apply bind_block in Hw as [Hw|(o' & s1 & Hl & Hw)]; [by destruct (nonblocking_load_result r s)|].
  unfold load_result in Hl. rewrite Hx in Hl. injection Hl as <- <-. destruct x as [l|]; [|done].
  destruct (result_state_exists _ _ _ Hi Hx) as (c & Hc & _).
  apply bind_block in Hw as [Hw|(c' & s1 & Hl & Hw)]; [by destruct (nonblocking_load_cell l s)|].
  unfold load_cell in Hl. rewrite Hc in Hl. injection Hl as <- <-. destruct (c_producer c) eqn:Hp; [|done].
  destruct (idle_has_promise s r l c) as [p ?]; eauto.
Qed.

(** ** What the application gets *)

Lemma count_if_le f o : count_if f o ≤ 1.
Proof. destruct o as [c|]; simpl; [destruct (f c)|]; lia. Qed.

Lemma pointers_exact s :
  api_ok s → NoDup (producers s) ∧ NoDup (consumers s) ∧
  ∀ l, is_Some (heap s !! l) ↔ l ∈ producers s ∨ l ∈ consumers s.
Proof.
  intros [Hi _]. pose proof Hi as [H1 H2 H3 _]. split_and!.
  - apply NoDup_ListNoDup, (NoDup_count_occ (decide_rel (=))). intros x. specialize (H1 x). rewrite occ_nil in H1.
    pose proof (count_if_le c_producer (heap s !! x)). unfold occ in *. lia.
  - apply NoDup_ListNoDup, (NoDup_count_occ (decide_rel (=))). intros x. specialize (H2 x). rewrite occ_nil in H2.
    pose proof (count_if_le c_consumer (heap s !! x)). unfold occ in *. lia.
  - intros l. split.
    + intros [c Hc]. specialize (H1 l). specialize (H2 l). rewrite Hc, occ_nil in *. simpl in *.
      destruct (H3 l c Hc) as [E|E]; rewrite E in *; [left|right]; apply occ_pos; lia.
    + intros [Hl|Hl]; [destruct (producer_exists [] [] s l Hi) as (c & Hc & _)|
        destruct (consumer_exists [] [] s l Hi) as (c & Hc & _)]; eauto.
Qed.

(** What [get] returns of a published state. *)
Lemma get_published s r l c v :
  results s !! r = Some (Some l) → heap s !! l = Some c → c_producer c = false → producer_get (c_value c) = Some v →
  result_get_value r s = Done v (Api (delete l (heap s)) (promises s) (<[r := None]> (results s))).
Proof.
  intros Hr Hl Hp Hv. unfold result_get_value, result_wait, joined_get, put_cell, put_heap, set_heap, store_result, load_result,
    load_cell, mbind, comp_bind. rewrite Hr, Hl, Hp. unfold mret, comp_ret, modify. simpl. rewrite Hr. simpl. rewrite Hl. simpl.
  rewrite Hp, Hv. done.
Qed.

Lemma publish_done s p l o v c :
  heap s !! l = Some c → c_value c = produced_nothing → c_producer c = true → c_consumer c = true →
  publish p l o v s =
    Done tt (Api (<[l := SharedCell v false true]> (heap s)) (<[p := PromiseObj None (m_consumer_state o)]> (promises s)) (results s)).
Proof.
  intros Hl Hv Hp Hc. unfold publish, cell_build, release_producer, store_promise, store_cell, put_cell, put_heap, set_heap, load_cell,
    mbind, comp_bind, modify. rewrite Hl, Hv. simpl. rewrite lookup_insert_eq. simpl. rewrite Hp, Hc. simpl.
  by rewrite insert_insert_eq.
Qed.

(** The states of a promise and the result that was taken from it. *)
Lemma pair_state s p r l :
  api_ok s → promises s !! p = Some (PromiseObj (Some l) None) → results s !! r = Some (Some l) →
  heap s !! l = Some (SharedCell produced_nothing true true).
Proof.
  intros Hi Hp Hr. destruct (result_state_exists _ _ _ Hi Hr) as ([v b b'] & Hc & Hcc). simpl in Hcc. subst b'. rewrite Hc.
  destruct Hi as [Hi Hv]. destruct (producer_exists [] [] s l Hi) as (c' & Hc' & Hp'); [left; by eapply producers_elem|].
  rewrite Hc in Hc'. injection Hc' as <-. simpl in Hp'. subst b.
  pose proof (vo_idle _ _ _ Hv l _ Hc eq_refl (not_elem_of_nil _)) as He. simpl in He. by subst v.
Qed.

Lemma publish_get s p r l v w :
  api_ok s → promises s !! p = Some (PromiseObj (Some l) None) → results s !! r = Some (Some l) → producer_get v = Some w →
  ∃ s1, publish p l (PromiseObj (Some l) None) v s = Done tt s1 ∧ promises s1 !! p = Some (PromiseObj None None) ∧
    result_get_value r s1 =
      Done w (Api (delete l (heap s)) (<[p := PromiseObj None None]> (promises s)) (<[r := None]> (results s))).
Proof.
  intros Hi Hp Hr Hv. rewrite (publish_done s p l _ v _ (pair_state s p r l Hi Hp Hr)) by done. eexists. split; [done|]. split.
  - simpl. apply list_lookup_insert_eq. by eapply lookup_lt_Some.
  - erewrite get_published; [|exact Hr|apply lookup_insert_eq|done|done]. simpl. by rewrite delete_insert_eq.
Qed.


(** The states that are allocated are exactly those a promise or a result
    still refers to, each by at most one producer and at most one consumer; once
    every promise and result is gone, nothing is left. *)
Theorem result_states_not_leaked s :
  api_reachable s →
  NoDup (producers s) ∧ NoDup (consumers s) ∧
  (∀ l, is_Some (heap s !! l) ↔ l ∈ producers s ∨ l ∈ consumers s) ∧
  (Forall (λ o, o = PromiseObj None None) (promises s) → Forall (λ o, o = None) (results s) → heap s = ∅).
Proof.
  intros Hs%api_reachable_ok. destruct (pointers_exact s Hs) as (H1 & H2 & H3). split_and!; [done..|].
  intros Hp Hr. apply map_empty. intros l. destruct (heap s !! l) as [c|] eqn:Hl; [|done]. exfalso.
  destruct (proj1 (H3 l)) as [Hin|[Hin|Hin]%elem_of_app]; [by eexists|..];
    apply list_elem_of_In, in_concat in Hin as (k & [o [<- Ho]]%in_map_iff & Hk%list_elem_of_In);
    apply list_elem_of_In in Ho; rewrite Forall_forall in Hp; rewrite Forall_forall in Hr.
  - rewrite (Hp _ Ho) in Hk. by apply elem_of_nil in Hk.
  - rewrite (Hp _ Ho) in Hk. by apply elem_of_nil in Hk.
  - rewrite (Hr _ Ho) in Hk. by apply elem_of_nil in Hk.
Qed.

(** What a promise is given is what [get] of its result returns, a value or
    an exception, also through [set_from_function]; when the promise is destroyed
    instead, [get] throws [broken_task].  The state is freed and both objects are
    left empty. *)
Theorem result_delivers s p r l v e :
  api_reachable s → promises s !! p = Some (PromiseObj (Some l) None) → results s !! r = Some (Some l) →
  let s' := Api (delete l (heap s)) (<[p := PromiseObj None None]> (promises s)) (<[r := None]> (results s)) in
  (promise_set_result p (inl v);; result_get_value r) s = Done (Ret v) s' ∧
  (promise_set_exception p (Some e);; result_get_value r) s = Done (Throw e) s' ∧
  (promise_set_from_function p (inl v);; result_get_value r) s = Done (Ret v) s' ∧
  (promise_set_from_function p (inr e);; result_get_value r) s = Done (Throw e) s' ∧
  (destroy_promise p;; result_get_value r) s = Done (Throw broken_task) s'.
Proof.
  intros Hs%api_reachable_ok Hp Hr s'.
  destruct (publish_get s p r l (produced_value v) (Ret v) Hs Hp Hr eq_refl) as (s1 & H1 & _ & H1').
  destruct (publish_get s p r l (produced_exception e) (Throw e) Hs Hp Hr eq_refl) as (s2 & H2 & _ & H2').
  destruct (publish_get s p r l (produced_exception broken_task) _ Hs Hp Hr eq_refl) as (s3 & H3 & Hp3 & H3').
  assert (load_promise p s = Done (PromiseObj (Some l) None) s) as Hl by (unfold load_promise; by rewrite Hp).
  unfold promise_set_result, promise_set_exception, promise_set_from_function, destroy_promise, break_task_if_needed, promise_set.
  unfold mbind, comp_bind in *. simpl. rewrite Hl. simpl. rewrite H1, H2, H3. simpl. split_and!; [done..|].
  unfold load_promise. rewrite Hp3. unfold store_promise, modify, release_consumer, release_producer. simpl.
  rewrite list_insert_id by done. destruct s3. exact H3'.
Qed.

(** Misuse throws and changes nothing: the setters and [get_result] of an
    empty promise, every operation of an empty result, a second [get_result] and a
    null exception; [set_from_function], being [noexcept], terminates instead. *)
Theorem result_api_errors s p q r l o x e f :
  promises s !! p = Some (PromiseObj None o) → promises s !! q = Some (PromiseObj (Some l) None) →
  results s !! r = Some None →
  promise_set_result p x s = Done (Throw empty_result_promise) s ∧
  promise_set_exception p e s = Done (Throw empty_result_promise) s ∧
  promise_set_from_function p f s = Done Terminate s ∧
  promise_get_result p s = Done (Throw empty_result_promise) s ∧
  result_status_of r s = Done (Throw empty_result) s ∧
  result_wait r s = Done (Throw empty_result) s ∧
  result_get_value r s = Done (Throw empty_result) s ∧
  result_resolve r s = Done (Throw empty_result) s ∧
  promise_get_result q s = Done (Throw result_already_retrieved) s ∧
  promise_set_exception q None s = Done (Throw invalid_argument) s.
Proof.
  intros Hp Hq Hr. unfold promise_set_result, promise_set_exception, promise_set_from_function, promise_set, promise_get_result,
    result_status_of, result_get_value, result_resolve, result_wait, load_promise, load_result, mbind, comp_bind.
  destruct x, e, f; rewrite Hp, Hq, Hr; done.
Qed.
End api.

Arguments api_op : clear implicits.

(** A run of an application. *)
Fixpoint run_ops {V} (ops : list (api_op V)) (s : api V) : option (api V) :=
  match ops with
  | [] => Some s
  | o :: ops =>
      if decide (op_valid o s) then match api_exec o s with Done _ s' => run_ops ops s' | _ => None end else None
  end.
Lemma run_ops_reachable {V} (ops : list (api_op V)) s s' : api_reachable s → run_ops ops s = Some s' → api_reachable s'.
Proof.
  revert s. induction ops as [|o ops IH]; simpl; intros s Hs; [by intros [= <-]|]. case_decide as Ho; [|done].
  destruct (api_exec o s) as [[] s1| |] eqn:E; [|done|done]. intros H. eapply IH; [|exact H]. by eapply ar_step.
Qed.

Definition example_run : list (api_op nat) :=
  [op_new_promise; op_get_result 0; op_new_promise; op_move_promise 0; op_destroy_promise 1].
Definition example_api : api nat := default api_init (run_ops example_run api_init).
Lemma example_reachable : api_reachable example_api.
Proof. apply (run_ops_reachable example_run api_init); [constructor|]. vm_compute. reflexivity. Qed.


Lemma result_states_not_leaked_witness : is_Some (heap example_api !! 0) ↔ 0 ∈ producers example_api ∨ 0 ∈ consumers example_api.
Proof. apply (result_states_not_leaked example_api example_reachable). Defined.

Lemma result_delivers_witness :
  ∃ s, (promise_set_result 2 (inl 7);; result_get_value 0) example_api = Done (Ret 7) s.
Proof.
  eexists. apply (result_delivers example_api 2 0 0 7 broken_task example_reachable); vm_compute; reflexivity.
Defined.

Definition empty_api : api nat :=
  Api {[ 0 := SharedCell produced_nothing true true ]} [PromiseObj None None; PromiseObj (Some 0) None] [None].
Lemma result_api_errors_witness :
  promise_set_from_function 0 (inl 3) empty_api = Done Terminate empty_api.
Proof. apply (result_api_errors empty_api 0 1 0 0 None (inl 1) None (inl 3)); reflexivity. Defined.
