(* ===== verification/WhenResult.v ===== *)
(** * The functions [when_all] and [when_any] of [when_result.h]

    They check their arguments and move the results into a collection, over the objects
    of [ResultApi].  What the coroutines then do with the states of the collection is in
    [WhenAny] and [WhenAll], and the [resume_on] at their end in [Coroutines]. *)

From S2P Require Import Prelude Conc ResultState ResultApi.
From stdpp Require Import options.

Section when_result.
Context {V : Type}.
Implicit Types (s : api V) (rs : list nat).

(** [throw_if_empty_range] and [throw_if_empty_tuple] *)
Fixpoint throw_if_empty rs : comp (api V) (outcome unit) :=
  match rs with
  | [] => mret (Ret tt)
  | r :: rs =>
      o ← load_result r;
      match o with None => mret (Throw empty_result) | Some _ => throw_if_empty rs end
  end.

(** The results are moved into a tuple or a vector: the numbers of the new objects. *)
Fixpoint move_collection rs : comp (api V) (list nat) :=
  match rs with
  | [] => mret []
  | r :: rs => s ← get_state; move_result r;; l ← move_collection rs; mret (length (results s) :: l)
  end.

(** [executor]: whether the shared pointer is not null. *)
Definition check_executor (executor : bool) : outcome unit := if executor then Ret tt else Throw invalid_argument.

(** [when_all] of a range or of several results; without results nothing is checked but
    the executor, and the collection is empty. *)
Definition when_all (executor : bool) rs : comp (api V) (outcome (list nat)) :=
  c ← throw_if_empty rs;
  match c with
  | Ret _ =>
      match check_executor executor with
      | Ret _ => l ← move_collection rs; mret (Ret l)
      | Throw e => mret (Throw e)
      | Terminate => mret Terminate
      end
  | Throw e => mret (Throw e)
  | Terminate => mret Terminate
  end.

(** [when_any], for which an empty range is an error. *)
Definition when_any (executor : bool) rs : comp (api V) (outcome (list nat)) :=
  c ← throw_if_empty rs;
  match c with
  | Ret _ =>
      if decide (rs = []) then mret (Throw invalid_argument)
      else match check_executor executor with
      | Ret _ => l ← move_collection rs; mret (Ret l)
      | Throw e => mret (Throw e)
      | Terminate => mret Terminate
      end
  | Throw e => mret (Throw e)
  | Terminate => mret Terminate
  end.

(** ** What they do *)

Lemma throw_if_empty_spec rs s :
  Forall (λ r, is_Some (results s !! r)) rs →
  throw_if_empty rs s = Done (if decide (Exists (λ r, results s !! r = Some None) rs) then Throw empty_result else Ret tt) s.
Proof.
  induction 1 as [|r rs [o Ho] Hr IH]; cbn [throw_if_empty]; [rewrite decide_False; [done|by intros []%Exists_nil]|].
  unfold load_result, mbind, comp_bind. rewrite Ho. destruct o as [l|].
  - rewrite IH. apply (f_equal (λ x, Done x s)). apply decide_ext. rewrite Exists_cons, Ho. naive_solver.
  - rewrite decide_True; [done|]. by apply Exists_cons_hd.
Qed.

(** The objects [rs] are empty, and those after the [n] that there were have their states. *)
Definition moved rs s : api V :=
  Api (heap s) (promises s) (foldr (λ r l, <[r := None]> l) (results s) rs ++ ((λ r, default None (results s !! r)) <$> rs)).

Lemma foldr_insert_none rs (l : list (option nat)) r : r ∉ rs → foldr (λ r l, <[r := None]> l) l rs !! r = l !! r.
Proof.
  induction rs as [|r' rs IH]; intros Hr; [done|]. simpl. apply not_elem_of_cons in Hr as [Hn Hr].
  rewrite list_lookup_insert_ne by done. by apply IH.
Qed.
Lemma foldr_insert_length rs (l : list (option nat)) : length (foldr (λ r l, <[r := None]> l) l rs) = length l.
Proof. induction rs as [|r rs IH]; simpl; [done|]. by rewrite length_insert. Qed.

Lemma foldr_insert_comm rs r (l : list (option nat)) :
  foldr (λ r l, <[r := None]> l) (<[r := None]> l) rs = <[r := None]> (foldr (λ r l, <[r := None]> l) l rs).
Proof.
  induction rs as [|r' rs IH]; [done|]. simpl. rewrite IH. destruct (decide (r = r')) as [->|]; [done|]. by apply list_insert_insert_ne.
Qed.

Lemma foldr_insert_app rs (l k : list (option nat)) :
  Forall (λ r, r < length l) rs → foldr (λ r l, <[r := None]> l) (l ++ k) rs = foldr (λ r l, <[r := None]> l) l rs ++ k.
Proof.
  induction 1 as [|r rs Hr Hl IH]; [done|]. simpl. rewrite IH. apply insert_app_l. by rewrite foldr_insert_length.
Qed.

Lemma move_collection_spec rs s :
  NoDup rs → Forall (λ r, is_Some (results s !! r)) rs →
  move_collection rs s = Done (seq (length (results s)) (length rs)) (moved rs s).
Proof.
  revert s. induction rs as [|r rs IH]; intros s Hn Hr; simpl.
  { unfold mret, comp_ret, moved. simpl. rewrite app_nil_r. by destruct s. }
  apply NoDup_cons in Hn as [Hn Hn']. apply Forall_cons in Hr as [[o Ho] Hr].
  set (s1 := Api (heap s) (promises s) (<[r := None]> (results s) ++ [o])).
  assert (move_result r s = Done tt s1) as Hm.
  { unfold move_result, load_result, store_result, new_result, modify, mbind, comp_bind. by rewrite Ho. }
  rewrite get_state_bind, (comp_bind_done _ _ _ _ _ Hm).
  assert (∀ r', r' ∈ rs → results s1 !! r' = results s !! r') as Hs1.
  { intros r' Hr'. simpl. apply (proj1 (Forall_forall _ _) Hr) in Hr' as Hs. apply lookup_lt_is_Some in Hs.
    rewrite lookup_app_l by (by rewrite length_insert). apply list_lookup_insert_ne. by intros ->. }
  rewrite (comp_bind_done _ _ _ _ _ (IH s1 Hn' ltac:(apply Forall_forall; intros r' Hr'; rewrite Hs1 by done; by apply (proj1 (Forall_forall _ _) Hr)))).
  unfold mret, comp_ret. simpl. rewrite length_app, length_insert. simpl. rewrite Nat.add_1_r. f_equal. unfold moved. simpl. f_equal.
  rewrite foldr_insert_app, foldr_insert_comm, <- app_assoc, Ho; [|apply Forall_forall; intros r' Hr'; rewrite length_insert; by apply lookup_lt_is_Some, (proj1 (Forall_forall _ _) Hr)].
  f_equal. simpl. f_equal. apply list_fmap_ext. intros i r' Hi. apply list_elem_of_lookup_2 in Hi. specialize (Hs1 r' Hi). simpl in Hs1. by rewrite Hs1.
Qed.

(** The checks: what a call of [when_all] or [when_any] does with valid objects. *)
Definition checked (need_one executor : bool) rs s : outcome (list nat) :=
  if decide (Exists (λ r, results s !! r = Some None) rs) then Throw empty_result
  else if need_one && bool_decide (rs = []) then Throw invalid_argument
  else if executor then Ret (seq (length (results s)) (length rs)) else Throw invalid_argument.

(** [when_all] and [when_any] throw [empty_result] if one of the results is empty, or else
    [invalid_argument] if the executor is null, and for [when_any] also if there is no
    result; and when they throw, the results are still with the caller.  Otherwise the
    collection has the states of the results, in order, the results are empty, and
    nothing else has changed. *)
Theorem when_result_checks executor rs s :
  NoDup rs → Forall (λ r, is_Some (results s !! r)) rs →
  when_all executor rs s = Done (checked false executor rs s) (match checked false executor rs s with Ret _ => moved rs s | _ => s end) ∧
  when_any executor rs s = Done (checked true executor rs s) (match checked true executor rs s with Ret _ => moved rs s | _ => s end) ∧
  ∀ l, checked true executor rs s = Ret l ∨ checked false executor rs s = Ret l →
    (λ r, results (moved rs s) !! r) <$> l = (λ r, results s !! r) <$> rs ∧
    (∀ r, r ∈ rs → results (moved rs s) !! r = Some None) ∧
    (∀ r, r ∉ rs → r < length (results s) → results (moved rs s) !! r = results s !! r).
Proof.
  intros Hn Hr. pose proof (throw_if_empty_spec rs s Hr) as Ht. pose proof (move_collection_spec rs s Hn Hr) as Hm.
  split; [|split].
  - unfold when_all, checked. rewrite (comp_bind_done _ _ _ _ _ Ht). case_decide; [done|]. destruct executor; simpl; [|done].
    by rewrite (comp_bind_done _ _ _ _ _ Hm).
  - unfold when_any, checked. rewrite (comp_bind_done _ _ _ _ _ Ht). case_decide; [done|]. destruct executor; simpl; case_decide; simpl;
      rewrite ?bool_decide_true, ?bool_decide_false by done; try done. by rewrite (comp_bind_done _ _ _ _ _ Hm).
  - intros l Hl. assert (l = seq (length (results s)) (length rs)) as ->.
    { unfold checked in Hl. case_decide; [naive_solver|]. destruct executor; case_match; naive_solver. }
    split_and!.
    + apply list_eq. intros i. rewrite !list_lookup_fmap. destruct (rs !! i) as [r|] eqn:Hi.
      * rewrite lookup_seq_lt by (by eapply lookup_lt_Some). simpl. unfold moved. simpl.
        rewrite lookup_app_r, foldr_insert_length by (rewrite foldr_insert_length; lia).
        replace (length (results s) + i - length (results s)) with i by lia. rewrite list_lookup_fmap, Hi. simpl.
        apply list_elem_of_lookup_2, (proj1 (Forall_forall _ _) Hr) in Hi as [o ->]. done.
      * rewrite lookup_seq_ge; [done|]. by apply lookup_ge_None.
    + intros r Hin. unfold moved. simpl. pose proof (proj1 (Forall_forall _ _) Hr r Hin) as Hs%lookup_lt_is_Some.
      rewrite lookup_app_l by (by rewrite foldr_insert_length). clear -Hin Hs. induction rs as [|r' rs IH]; [by apply not_elem_of_nil in Hin|].
      simpl. destruct (decide (r = r')) as [->|]; [apply list_lookup_insert_eq; by rewrite foldr_insert_length|].
      rewrite list_lookup_insert_ne by done. apply IH. by apply elem_of_cons in Hin as [|].
    + intros r Hin Hlt. unfold moved. simpl. rewrite lookup_app_l by (by rewrite foldr_insert_length). by apply foldr_insert_none.
Qed.
End when_result.

Lemma when_result_checks_witness :
  let s : api nat := Api ∅ [] [Some 1; None; Some 2] in
  when_any true [2; 0] s = Done (Ret [3; 4]) (Api ∅ [] [None; None; None; Some 2; Some 1]) ∧
  when_all true [0; 1] s = Done (Throw empty_result) s.
Proof.
  split.
  - refine (proj1 (proj2 (when_result_checks true [2; 0] (Api ∅ [] [Some 1; None; Some 2]) _ _))); [by by_decide|repeat constructor; by eexists].
  - refine (proj1 (when_result_checks true [0; 1] (Api ∅ [] [Some 1; None; Some 2]) _ _)); [by by_decide|repeat constructor; by eexists].
Defined.
