(* ===== verification/Timers.v ===== *)
(** * The timers of a timer queue ([timer_queue_internal] and [timer_state])

    The queue keeps its timers in a multiset ordered by deadline, and a map
    from each timer to its iterator into the multiset.  An iterator is the
    identity of a node; a node that was extracted or erased leaves its
    iterators dangling, and using one is a fault. *)

From S2P Require Import Prelude Conc.
From stdpp Require Import options.

(** A timer is known by the address of its state.  Times are nanoseconds, without the
    overflow of a [time_point] after 292 years. *)
Abbreviation timer_ptr := nat (only parsing).
Abbreviation node := nat (only parsing).

(** ** What the queue's thread reads of the world

    The clock, the two atomics of a timer that other threads write, and whether the
    executor of a timer refuses tasks, because it was shut down. *)
Record view : Type := View {
  v_now : Z;
  v_cancelled : timer_ptr → bool;
  v_frequency : timer_ptr → Z;
  v_refuses : timer_ptr → bool }.

Inductive timer_request : Type := request_add | request_remove.

#[global] Instance timer_request_eq_dec : EqDecision timer_request.
Proof. solve_decision. Defined.

(** ** The state of the thread *)

(** [m_deadline] is the field of each timer that the thread alone writes;
    [posted] are the timers whose [execute] was posted to their executor, latest
    first; [ticks] counts the reads of the world. *)
Record timers : Type := Timers {
  m_timers : list (node * timer_ptr);
  m_iterator_mapper : gmap timer_ptr node;
  m_deadline : gmap timer_ptr Z;
  next_node : node;
  posted : list timer_ptr;
  ticks : nat }.

Definition with_timers (l : list (node * timer_ptr)) (q : timers) : timers :=
  Timers l (m_iterator_mapper q) (m_deadline q) (next_node q) (posted q) (ticks q).
Definition with_mapper (m : gmap timer_ptr node) (q : timers) : timers :=
  Timers (m_timers q) m (m_deadline q) (next_node q) (posted q) (ticks q).

Definition milliseconds (n : Z) : Z := n * 1000000.
Definition hours (n : Z) : Z := n * 3600000000000.

(** [get_deadline] *)
Definition get_deadline (q : timers) (t : timer_ptr) : Z := default 0%Z (m_deadline q !! t).
(** [expired] *)
Definition expired (q : timers) (t : timer_ptr) (now : Z) : bool := bool_decide (get_deadline q t ≤ now)%Z.

(** Insertion at the upper bound of the equal deadlines, as [std::multiset]
    inserts. *)
Fixpoint insert_by_deadline (dl : timer_ptr → Z) (x : node * timer_ptr) (l : list (node * timer_ptr))
    : list (node * timer_ptr) :=
  match l with
  | [] => [x]
  | y :: l' => if decide (dl x.2 < dl y.2)%Z then x :: y :: l' else y :: insert_by_deadline dl x l'
  end.

Section operations.
(** The timers that fire once, and the world as the thread reads it. *)
Context (is_oneshot : timer_ptr → bool) (world : nat → view).

Definition observe : comp timers view := λ q,
  Done (world (ticks q)) (Timers (m_timers q) (m_iterator_mapper q) (m_deadline q) (next_node q)
                            (posted q) (S (ticks q))).

(** [m_timers.emplace] and [m_timers.insert]: the iterator of the new node. *)
Definition set_emplace (t : timer_ptr) : comp timers node := λ q,
  Done (next_node q)
    (Timers (insert_by_deadline (get_deadline q) (next_node q, t) (m_timers q)) (m_iterator_mapper q)
       (m_deadline q) (S (next_node q)) (posted q) (ticks q)).

(** [m_timers.erase(iterator)] *)
Definition set_erase (it : node) : comp timers unit := λ q,
  if decide (it ∈ (m_timers q).*1)
  then Done tt (with_timers (filter (λ x, x.1 ≠ it) (m_timers q)) q)
  else Fault use_after_free.

Definition add_timer_internal (new_timer : timer_ptr) : comp timers unit :=
  q ← get_state;
  assert (bool_decide (m_iterator_mapper q !! new_timer = None));;
  timer_it ← set_emplace new_timer;
  modify (λ q, with_mapper (<[new_timer := timer_it]> (m_iterator_mapper q)) q).

Definition remove_timer_internal (existing_timer : timer_ptr) : comp timers unit :=
  q ← get_state;
  match m_iterator_mapper q !! existing_timer with
  | None =>
      if is_oneshot existing_timer then mret tt
      else v ← observe; assert (v_cancelled v existing_timer)
  | Some set_iterator =>
      set_erase set_iterator;;
      modify (λ q, with_mapper (delete existing_timer (m_iterator_mapper q)) q)
  end.

Fixpoint process_request_queue (queue : list (timer_ptr * timer_request)) : comp timers unit :=
  match queue with
  | [] => mret tt
  | (t, request_add) :: queue => add_timer_internal t;; process_request_queue queue
  | (t, request_remove) :: queue => remove_timer_internal t;; process_request_queue queue
  end.

(** [timer_state_base::fire]: reads the frequency, then the clock, and posts.  The
    [runtime_shutdown] of an executor that refuses leaves the thread of the queue. *)
Definition fire (t : timer_ptr) : comp timers unit :=
  vf ← observe;
  vc ← observe;
  modify (λ q, Timers (m_timers q) (m_iterator_mapper q)
                 (<[t := (v_now vc + milliseconds (v_frequency vf t))%Z]> (m_deadline q))
                 (next_node q) (posted q) (ticks q));;
  vp ← observe;
  if v_refuses vp t then abort_with uncaught_exception
  else modify (λ q, Timers (m_timers q) (m_iterator_mapper q) (m_deadline q) (next_node q) (t :: posted q) (ticks q)).

Definition empty : comp timers bool :=
  q ← get_state;
  assert (bool_decide (size (m_iterator_mapper q) = length (m_timers q)));;
  mret (bool_decide (m_timers q = [])).

Definition reset_containers_memory : comp timers unit :=
  is_empty ← empty; assert is_empty;;
  modify (λ q, with_mapper ∅ (with_timers [] q)).

(** The loop of [process_timers]; [fuel] bounds its rounds. *)
Fixpoint process_loop (fuel : nat) (now : Z) : comp timers unit :=
  match fuel with
  | 0 => abort_with out_of_fuel
  | S fuel =>
      q ← get_state;
      match m_timers q with
      | [] => mret tt
      | (_, t) :: rest =>
          if negb (expired q t now) then mret tt else
          modify (with_timers rest);;
          v ← observe;
          (if v_cancelled v t then mret tt else fire t);;
          if is_oneshot t || v_cancelled v t then
            modify (λ q, with_mapper (delete t (m_iterator_mapper q)) q);;
            process_loop fuel now
          else
            new_it ← set_emplace t;
            q ← get_state;
            assert (bool_decide (m_iterator_mapper q !! t ≠ None));;
            modify (λ q, with_mapper (<[t := new_it]> (m_iterator_mapper q)) q);;
            process_loop fuel now
      end
  end.

Definition process_timers (fuel : nat) (queue : list (timer_ptr * timer_request)) : comp timers Z :=
  process_request_queue queue;;
  v ← observe;
  process_loop fuel (v_now v);;
  q ← get_state;
  match m_timers q with
  | [] => reset_containers_memory;; mret (v_now v + hours 24)%Z
  | (_, t) :: _ => mret (get_deadline q t)
  end.
End operations.

(** ** The invariant *)

(** The multiset is ordered, its nodes are distinct, and the map holds exactly
    the iterators of the nodes. *)
Record timers_wf (q : timers) : Prop := TimersWf {
  wf_sorted : StronglySorted (λ x y, (get_deadline q x.2 ≤ get_deadline q y.2)%Z) (m_timers q);
  wf_nodup : NoDup (m_timers q).*1;
  wf_mapper : ∀ t n, m_iterator_mapper q !! t = Some n ↔ (n, t) ∈ m_timers q;
  wf_fresh : ∀ n t, (n, t) ∈ m_timers q → n < next_node q }.

Definition no_timers : timers := Timers [] ∅ ∅ 0 [] 0.

(** The timers of the queue. *)
Definition queued (q : timers) : list timer_ptr := (m_timers q).*2.

(** The ones that are due at [now], closest deadline first, and the others. *)
Definition due (q : timers) (now : Z) : list timer_ptr :=
  filter (λ t, (get_deadline q t ≤ now)%Z) (queued q).
Definition not_due (q : timers) (now : Z) : list timer_ptr :=
  filter (λ t, ¬ (get_deadline q t ≤ now)%Z) (queued q).

Section insertion.
Context (dl : timer_ptr → Z).
Implicit Types l : list (node * timer_ptr).

Lemma insert_by_deadline_perm x l : insert_by_deadline dl x l ≡ₚ x :: l.
Proof.
  induction l as [|y l IH]; simpl; [done|]. case_decide; [done|].
  rewrite IH. apply Permutation_swap.
Qed.

Lemma insert_by_deadline_sorted x l :
  StronglySorted (λ x y, (dl x.2 ≤ dl y.2)%Z) l →
  StronglySorted (λ x y, (dl x.2 ≤ dl y.2)%Z) (insert_by_deadline dl x l).
Proof.
  induction 1 as [|y l Hl IH Hy]; simpl; [by repeat constructor|]. case_decide.
  - constructor; [by constructor|]. constructor; [lia|]. eapply Forall_impl; [done|]. simpl. lia.
  - constructor; [done|]. rewrite insert_by_deadline_perm. constructor; [lia|done].
Qed.

Lemma insert_by_deadline_ext (dl' : timer_ptr → Z) x l :
  (∀ y, y ∈ x :: l → dl y.2 = dl' y.2) → insert_by_deadline dl x l = insert_by_deadline dl' x l.
Proof.
  induction l as [|y l IH]; simpl; intros Hdl; [done|].
  rewrite (Hdl x), (Hdl y), IH by set_solver. done.
Qed.
End insertion.

Section wf_lemmas.
Implicit Types q : timers.

Lemma no_timers_wf : timers_wf no_timers.
Proof. split; simpl; [constructor..| |]; set_solver. Qed.

Lemma wf_queued_nodup q : timers_wf q → NoDup (queued q).
Proof.
  intros [_ Hnd Hm _]. apply NoDup_fmap_2_strong; [|by eapply NoDup_fmap_1].
  intros [n t] [n' t'] Hn Hn' ?; simplify_eq/=. apply Hm in Hn, Hn'. naive_solver.
Qed.

Lemma wf_mapper_queued q t : timers_wf q → is_Some (m_iterator_mapper q !! t) ↔ t ∈ queued q.
Proof.
  intros Hq. unfold is_Some, queued. setoid_rewrite wf_mapper; [|done].
  rewrite list_elem_of_fmap. split; [intros [n ?]; by exists (n, t)|].
  intros ([n t'] & -> & ?). by exists n.
Qed.

Lemma wf_size q : timers_wf q → size (m_iterator_mapper q) = length (m_timers q).
Proof.
  intros Hq. rewrite <- (length_fmap snd), <- size_dom.
  transitivity (size (list_to_set (queued q) : gset timer_ptr)).
  - f_equal. apply leibniz_equiv. intros t. rewrite elem_of_dom, wf_mapper_queued by done. set_solver.
  - apply size_list_to_set. by apply wf_queued_nodup.
Qed.

(** Adding a timer that is not in the queue. *)
Definition added (t : timer_ptr) q : timers :=
  Timers (insert_by_deadline (get_deadline q) (next_node q, t) (m_timers q))
    (<[t := next_node q]> (m_iterator_mapper q)) (m_deadline q) (S (next_node q)) (posted q) (ticks q).

Lemma added_wf t q : timers_wf q → t ∉ queued q → timers_wf (added t q).
Proof.
  intros Hq Ht. pose proof (insert_by_deadline_perm (get_deadline q) (next_node q, t) (m_timers q)) as Hp.
  split; simpl.
  - by apply insert_by_deadline_sorted, wf_sorted.
  - rewrite Hp. csimpl. apply NoDup_cons. split; [|by apply wf_nodup]. rewrite list_elem_of_fmap.
    intros ([n u] & ? & Hn%wf_fresh); simplify_eq/=; [lia|done].
  - intros u n. rewrite Hp, elem_of_cons. destruct (decide (u = t)) as [->|Hne].
    + rewrite lookup_insert_eq, <- wf_mapper by done. split; [naive_solver|].
      intros [?|Hn]; [naive_solver|]. destruct Ht. apply wf_mapper_queued; eauto.
    + rewrite lookup_insert_ne, wf_mapper by done. naive_solver.
  - intros n u. rewrite Hp, elem_of_cons. intros [?|?%wf_fresh]; [naive_solver lia|lia|done].
Qed.

Lemma added_queued t q : queued (added t q) ≡ₚ t :: queued q.
Proof. unfold queued; simpl. by rewrite insert_by_deadline_perm. Qed.

(** Removing a timer, its node included. *)
Definition removed (t : timer_ptr) q : timers :=
  Timers (filter (λ x, x.2 ≠ t) (m_timers q)) (delete t (m_iterator_mapper q))
    (m_deadline q) (next_node q) (posted q) (ticks q).

Lemma removed_wf t q : timers_wf q → timers_wf (removed t q).
Proof.
  intros Hq. split; simpl.
  - by apply StronglySorted_filter, (wf_sorted q).
  - eapply sublist_NoDup; [apply wf_nodup, Hq|]. apply fmap_sublist, sublist_filter.
  - intros u n. rewrite list_elem_of_filter, <- wf_mapper by done. simpl.
    destruct (decide (u = t)) as [->|]; [rewrite lookup_delete_eq|rewrite lookup_delete_ne]; naive_solver.
  - intros n u. rewrite list_elem_of_filter. intros [_ ?%wf_fresh]; [lia|done].
Qed.

Lemma removed_queued t q : queued (removed t q) = filter (λ u, u ≠ t) (queued q).
Proof. unfold queued; simpl. by rewrite filter_fmap_list. Qed.

Lemma removed_not_queued t q : t ∉ queued (removed t q).
Proof. rewrite removed_queued, list_elem_of_filter. naive_solver. Qed.

(** The front of a well-formed queue, extracted. *)
Lemma removed_front n t rest q :
  timers_wf q → m_timers q = (n, t) :: rest → m_timers (removed t q) = rest.
Proof.
  intros Hq%wf_queued_nodup Hl. unfold queued in Hq. simpl. rewrite Hl in *. csimpl in Hq.
  apply NoDup_cons in Hq as [Ht _]. rewrite filter_cons_False by naive_solver.
  apply filter_all. intros [n' u] Hu ?; simplify_eq/=. apply Ht, list_elem_of_fmap. by eexists (_, _).
Qed.
End wf_lemmas.

(** ** One round of [process_timers] *)

Section round.
Context (is_oneshot : timer_ptr → bool) (world : nat → view).
Implicit Types q : timers.

Definition ticked (n : nat) q : timers :=
  Timers (m_timers q) (m_iterator_mapper q) (m_deadline q) (next_node q) (posted q) (n + ticks q).

(** The state after [fire]. *)
Definition fired (t : timer_ptr) q : timers :=
  Timers (m_timers q) (m_iterator_mapper q)
    (<[t := (v_now (world (S (ticks q))) + milliseconds (v_frequency (world (ticks q)) t))%Z]> (m_deadline q))
    (next_node q) (t :: posted q) (3 + ticks q).

Lemma fire_spec t q :
  fire world t q = if v_refuses (world (2 + ticks q)) t then Fault uncaught_exception else Done tt (fired t q).
Proof. unfold fire, mbind, comp_bind, fired. simpl. by destruct (v_refuses _ t). Qed.

(** The state after a round that found [t] expired at the front. *)
Definition round (t : timer_ptr) q : timers :=
  let q0 := ticked 1 (removed t q) in
  if v_cancelled (world (ticks q)) t then q0
  else if is_oneshot t then fired t q0 else added t (fired t q0).

Lemma ticked_wf n q : timers_wf q → timers_wf (ticked n q).
Proof. intros []. by split. Qed.

Lemma fired_deadline t u q : u ≠ t → get_deadline (fired t q) u = get_deadline q u.
Proof. intros. unfold get_deadline; simpl. by rewrite lookup_insert_ne. Qed.

Lemma fired_wf t q : timers_wf q → t ∉ queued q → timers_wf (fired t q).
Proof.
  intros [Hs Hn Hm Hf] Ht. split; simpl; [|done..].
  eapply StronglySorted_impl; [|done]. intros [n u] [n' u'] Hu Hu'; simpl.
  rewrite !fired_deadline; [done|..]; intros ->; apply Ht, list_elem_of_fmap; by eexists (_, _).
Qed.

Lemma round_wf t q : timers_wf q → timers_wf (round t q).
Proof.
  intros Hq. pose proof (removed_not_queued t q). unfold round.
  assert (timers_wf (ticked 1 (removed t q))) by (by apply ticked_wf, removed_wf).
  repeat case_match; [done|by apply fired_wf|]. apply added_wf; [by apply fired_wf|done].
Qed.

(** A round of the loop that finds the front expired. *)
Lemma process_loop_round fuel now n t rest q :
  timers_wf q → m_timers q = (n, t) :: rest → expired q t now = true →
  process_loop is_oneshot world (S fuel) now q =
    if negb (v_cancelled (world (ticks q)) t) && v_refuses (world (3 + ticks q)) t then Fault uncaught_exception
    else process_loop is_oneshot world fuel now (round t q).
Proof.
  intros Hq Hl He. pose proof (removed_front _ _ _ _ Hq Hl) as Hrest.
  assert (m_iterator_mapper q !! t = Some n) as Ht by (apply wf_mapper; [done|]; rewrite Hl; set_solver).
  unfold round, mbind, comp_bind, get_state. simpl. unfold mbind, comp_bind, get_state. simpl.
  rewrite Hl, He. simpl. 
  destruct (v_cancelled _ t) eqn:Hc; simpl.
  - rewrite orb_true_r. unfold removed, ticked, with_mapper, with_timers. simpl in *. by rewrite Hrest.
  - rewrite orb_false_r. rewrite fire_spec. simpl. destruct (v_refuses _ t); [done|]. simpl. destruct (is_oneshot t).
    + unfold fired, removed, ticked, with_mapper, with_timers. simpl in *. by rewrite Hrest.
    + unfold set_emplace, mret, comp_ret, assert; simpl. rewrite bool_decide_true by (by rewrite Ht). simpl.
      unfold added, fired, removed, ticked, with_mapper, with_timers. simpl in *.
      by rewrite Hrest, insert_delete_eq.
Qed.
End round.

(** ** The whole loop *)

(** Every deadline that [fire] sets from the reading [k0] on is later than
    [now]. *)
Definition advancing (world : nat → view) (k0 : nat) (now : Z) : Prop :=
  ∀ k t, k0 ≤ k → (now < v_now (world (S k)) + milliseconds (v_frequency (world k) t))%Z.

(** So it is if the clock does not go back and the frequencies are positive. *)
Lemma advancing_monotone world k0 :
  (∀ i j, i ≤ j → (v_now (world i) ≤ v_now (world j))%Z) →
  (∀ i t, (0 < v_frequency (world i) t)%Z) →
  advancing world k0 (v_now (world k0)).
Proof.
  intros Hclock Hfreq k t Hk. specialize (Hclock k0 (S k) ltac:(lia)). specialize (Hfreq k t).
  unfold milliseconds. lia.
Qed.

Section due.
Context (now : Z).
Implicit Types q : timers.

Lemma insert_filter dl (P : timer_ptr → Prop) `{!∀ t, Decision (P t)} x l :
  ¬ P x.2 → filter P (insert_by_deadline dl x l).*2 = filter P l.*2.
Proof.
  intros Hx. induction l as [|y l IH]; csimpl.
  - by rewrite filter_cons_False.
  - case_decide; csimpl; [by rewrite filter_cons_False|]. by rewrite !filter_cons, IH.
Qed.

Lemma due_added t q : (now < get_deadline q t)%Z → due (added t q) now = due q now.
Proof. intros. unfold due, queued; simpl. apply insert_filter. simpl. unfold get_deadline in *. simpl. lia. Qed.

Lemma not_due_added t q :
  (now < get_deadline q t)%Z → not_due (added t q) now ≡ₚ t :: not_due q now.
Proof.
  intros. unfold not_due. rewrite added_queued, filter_cons_True; [done|].
  unfold get_deadline in *. simpl. lia.
Qed.

Lemma due_fired world t q : t ∉ queued q → due (fired world t q) now = due q now.
Proof. intros Ht. apply filter_ext_in. intros u Hu. rewrite fired_deadline; [done|]. by intros ->. Qed.

Lemma not_due_fired world t q : t ∉ queued q → not_due (fired world t q) now = not_due q now.
Proof. intros Ht. apply filter_ext_in. intros u Hu. rewrite fired_deadline; [done|]. by intros ->. Qed.

Lemma front_due n t rest q :
  timers_wf q → m_timers q = (n, t) :: rest → expired q t now = true →
  due q now = t :: due (removed t q) now ∧ not_due q now = not_due (removed t q) now.
Proof.
  intros Hq Hl He%bool_decide_eq_true. unfold due, not_due, queued.
  rewrite (removed_front _ _ _ _ Hq Hl), Hl. csimpl.
  rewrite filter_cons_True, filter_cons_False by naive_solver. done.
Qed.

(** The front is not expired: by the order nothing is. *)
Lemma front_not_due q :
  timers_wf q → (∀ n t rest, m_timers q = (n, t) :: rest → expired q t now = false) → due q now = [].
Proof.
  intros Hq Hfront. unfold due, queued. pose proof (wf_sorted q Hq) as Hs.
  destruct (m_timers q) as [|[n t] rest]; [done|].
  specialize (Hfront _ _ _ eq_refl). apply bool_decide_eq_false in Hfront.
  apply StronglySorted_inv in Hs as [_ Hs]. rewrite Forall_forall in Hs.
  apply filter_none. csimpl. intros u [->|([n' u'] & -> & Hu)%list_elem_of_fmap]%elem_of_cons; [done|].
  specialize (Hs _ Hu). simpl in *. lia.
Qed.
End due.

Section loop.
Context (is_oneshot canc : timer_ptr → bool) (world : nat → view).
Context (Hcanc : ∀ k t, v_cancelled (world k) t = canc t) (Hopen : ∀ k t, v_refuses (world k) t = false).
Context (now : Z) (k0 : nat) (Hadv : advancing world k0 now).
Implicit Types q : timers.

(** The timers a call posts, and those it keeps although they were due. *)
Definition to_post (l : list timer_ptr) : list timer_ptr := filter (λ t, canc t = false) l.
Definition to_keep (l : list timer_ptr) : list timer_ptr :=
  filter (λ t, canc t = false ∧ is_oneshot t = false) l.

Lemma round_effect n t rest q :
  timers_wf q → k0 ≤ ticks q → m_timers q = (n, t) :: rest → expired q t now = true →
  let q' := round is_oneshot world t q in
  k0 ≤ ticks q' ∧ due q now = t :: due q' now ∧
  not_due q' now ≡ₚ not_due q now ++ to_keep [t] ∧
  posted q' = rev (to_post [t]) ++ posted q ∧ ∀ u, u ∉ to_post [t] → get_deadline q' u = get_deadline q u.
Proof using Hcanc Hadv.
  intros Hq Hk Hl He. destruct (front_due now _ _ _ _ Hq Hl He) as [Hd Hn].
  pose proof (removed_not_queued t q) as Hnot.
  unfold round, to_keep, to_post. rewrite Hcanc, !filter_cons, !filter_nil, Hd, Hn.
  assert (now < get_deadline (fired world t (ticked 1 (removed t q))) t)%Z as Hdl.
  { unfold get_deadline; simpl. rewrite lookup_insert_eq. apply Hadv. simpl. lia. }
  destruct (canc t); [|destruct (is_oneshot t)]; simpl.
  - rewrite app_nil_r. split_and!; (done || lia).
  - rewrite app_nil_r, due_fired, not_due_fired by done. split_and!; [lia|done|done|done|]. intros u [Hu _]%not_elem_of_cons.
    by apply (fired_deadline world t u (ticked 1 (removed t q))).
  - rewrite due_added, not_due_added, due_fired, not_due_fired by done.
    split_and!; [lia|done| |done|]; [by rewrite Permutation_app_comm|]. intros u [Hu _]%not_elem_of_cons.
    by apply (fired_deadline world t u (ticked 1 (removed t q))).
Qed.

Lemma process_loop_spec fuel q :
  timers_wf q → k0 ≤ ticks q → length (due q now) < fuel →
  ∃ q', process_loop is_oneshot world fuel now q = Done tt q' ∧ timers_wf q' ∧ due q' now = [] ∧
    not_due q' now ≡ₚ not_due q now ++ to_keep (due q now) ∧
    posted q' = rev (to_post (due q now)) ++ posted q ∧ ∀ t, t ∉ to_post (due q now) → get_deadline q' t = get_deadline q t.
Proof using Hcanc Hopen Hadv.
  revert q. induction fuel as [|fuel IH]; intros q Hq Hk Hfuel; [lia|].
  destruct (m_timers q) as [|[n t] rest] eqn:Hl.
  { exists q. unfold due, not_due, queued. simpl. unfold mbind, comp_bind, get_state. simpl.
    rewrite Hl. csimpl. done. }
  destruct (expired q t now) eqn:He.
  - destruct (round_effect _ _ _ _ Hq Hk Hl He) as (Hk' & Hd & Hn & Hp & Hg).
    rewrite (process_loop_round _ _ _ _ _ _ _ _ Hq Hl He), Hopen, andb_false_r.
    destruct (IH (round is_oneshot world t q)) as (q' & -> & Hq' & Hd' & Hn' & Hp' & Hg').
    { by apply round_wf. } { done. } { rewrite Hd in Hfuel. simpl in Hfuel. lia. }
    exists q'. split_and!; [done..| | |].
    3: { intros u Hu. unfold to_post in *. rewrite Hd, filter_cons in Hu. rewrite filter_cons, filter_nil in Hg.
         rewrite Hg', Hg; [done|..]; case_decide; set_solver. }
    + rewrite Hn', Hn, Hd, <- (assoc_L (++)). unfold to_keep. by rewrite <- filter_app.
    + rewrite Hp', Hp, Hd, (assoc_L (++)), <- rev_app_distr. f_equal. f_equal. unfold to_post. by rewrite <- filter_app.
  - assert (due q now = []) as Hnil by (apply front_not_due; congruence).
    exists q. rewrite Hnil. simpl. unfold mbind, comp_bind, get_state. simpl.
    rewrite Hl, He, app_nil_r. done.
Qed.
End loop.

(** ** Requests *)

(** The set of timers after the requests. *)
Fixpoint apply_requests (queue : list (timer_ptr * timer_request)) (present : gset timer_ptr)
    : gset timer_ptr :=
  match queue with
  | [] => present
  | (t, request_add) :: queue => apply_requests queue ({[t]} ∪ present)
  | (t, request_remove) :: queue => apply_requests queue (present ∖ {[t]})
  end.

Section requests.
Context (is_oneshot : timer_ptr → bool) (world : nat → view).
Implicit Types q : timers.

(** What [add_timer] and [timer::cancel] see to: a timer is added once, and
    cancelled before its removal is requested. *)
Fixpoint requests_ok (queue : list (timer_ptr * timer_request)) (present : gset timer_ptr) : Prop :=
  match queue with
  | [] => True
  | (t, request_add) :: queue => t ∉ present ∧ requests_ok queue ({[t]} ∪ present)
  | (t, request_remove) :: queue =>
      (∀ k, v_cancelled (world k) t = true) ∧ requests_ok queue (present ∖ {[t]})
  end.

Lemma erase_node n t q :
  timers_wf q → (n, t) ∈ m_timers q →
  filter (λ x, x.1 ≠ n) (m_timers q) = filter (λ x, x.2 ≠ t) (m_timers q).
Proof.
  intros Hq Hn. pose proof Hn as Ht%wf_mapper; [|done].
  apply filter_ext_in. intros [n' t'] Hn'. simpl. pose proof Hn' as Ht'%wf_mapper; [|done].
  split; intros Hne ->; apply Hne; [congruence|].
  pose proof (wf_nodup q Hq) as Hnd.
  apply list_elem_of_lookup in Hn as [i Hi], Hn' as [j Hj].
  assert (i = j) as ->; [|congruence].
  eapply NoDup_lookup; [done|..]; rewrite list_lookup_fmap; [by rewrite Hi|by rewrite Hj].
Qed.

Lemma add_timer_internal_spec t q :
  timers_wf q → t ∉ queued q → add_timer_internal t q = Done tt (added t q).
Proof.
  intros Hq Ht. unfold add_timer_internal, mbind, comp_bind, get_state, assert. simpl.
  rewrite bool_decide_true; [done|]. apply eq_None_not_Some. by rewrite wf_mapper_queued.
Qed.

Lemma remove_timer_internal_spec t q :
  timers_wf q → (∀ k, v_cancelled (world k) t = true) →
  ∃ k, k ≤ 1 ∧ remove_timer_internal is_oneshot world t q = Done tt (ticked k (removed t q)).
Proof.
  intros Hq Hc. unfold remove_timer_internal, mbind, comp_bind, get_state. simpl.
  destruct (m_iterator_mapper q !! t) as [n|] eqn:Hn.
  - exists 0. split; [lia|]. apply wf_mapper in Hn; [|done]. unfold set_erase.
    rewrite decide_True by (apply list_elem_of_fmap; by eexists (_, _)).
    unfold ticked, removed, with_mapper, with_timers, modify; simpl. by rewrite (erase_node n t).
  - assert (removed t q = q) as ->.
    { unfold removed. rewrite delete_id by done. destruct q as [l m d nn p k]; simpl in *. f_equal.
      apply filter_all. intros [n u] Hu ?; simplify_eq/=. by apply (wf_mapper _ Hq) in Hu; simplify_eq/=. }
    destruct (is_oneshot t); [exists 0; split; [lia|by destruct q]|].
    exists 1. split; [lia|]. simpl. by rewrite Hc.
Qed.

Lemma process_request_queue_spec queue q :
  timers_wf q → requests_ok queue (list_to_set (queued q)) →
  ∃ q', process_request_queue is_oneshot world queue q = Done tt q' ∧ timers_wf q' ∧
    list_to_set (queued q') =@{gset timer_ptr} apply_requests queue (list_to_set (queued q)) ∧
    m_deadline q' = m_deadline q ∧ posted q' = posted q ∧ ticks q ≤ ticks q' ≤ ticks q + length queue.
Proof.
  revert q. induction queue as [|[t []] queue IH]; intros q Hq Hok; simpl in Hok.
  - exists q. split_and!; (done || lia).
  - destruct Hok as [Ht Hok]. rewrite elem_of_list_to_set in Ht.
    cbn [process_request_queue]. unfold mbind, comp_bind. rewrite add_timer_internal_spec by done.
    assert (list_to_set (queued (added t q)) =@{gset timer_ptr} {[t]} ∪ list_to_set (queued q)) as Heq.
    { by rewrite added_queued. }
    rewrite <- Heq in Hok. simpl. rewrite <- Heq.
    destruct (IH (added t q)) as (q' & ? & ? & ? & ? & ? & Hk); [by apply added_wf|done|]. exists q'. simpl in Hk. split_and!; (done || lia).
  - destruct Hok as [Hc Hok].
    destruct (remove_timer_internal_spec t q Hq Hc) as (k & Hk1 & Hk).
    cbn [process_request_queue]. unfold mbind, comp_bind. rewrite Hk.
    assert (list_to_set (queued (removed t q)) =@{gset timer_ptr} list_to_set (queued q) ∖ {[t]}) as Heq.
    { rewrite removed_queued. apply leibniz_equiv. intros u.
      rewrite elem_of_difference, !elem_of_list_to_set, list_elem_of_filter, elem_of_singleton. naive_solver. }
    rewrite <- Heq in Hok. simpl. rewrite <- Heq.
    destruct (IH (ticked k (removed t q))) as (q' & ? & ? & ? & ? & ? & Hk'); [by apply ticked_wf, removed_wf|done|].
    exists q'. simpl in Hk'. split_and!; (done || lia).
Qed.
End requests.

(** ** [process_timers] *)

Section process_end.
Implicit Types q : timers.

Lemma due_not_due_queued q now : due q now = [] → queued q = not_due q now.
Proof.
  intros Hd. unfold not_due. rewrite filter_all; [done|]. intros t Ht Hle.
  by apply (filter_nil_not_elem_of _ _ _ Hd Hle).
Qed.

(** The deadline that is returned: the first of the queue, or a day from now. *)
Definition next_deadline q now (deadline : Z) : Prop :=
  match queued q with
  | [] => deadline = (now + hours 24)%Z
  | _ => (∃ t, t ∈ queued q ∧ deadline = get_deadline q t) ∧ ∀ t, t ∈ queued q → (deadline ≤ get_deadline q t)%Z
  end.

(** The end of [process_timers], after its loop. *)
Lemma deadline_spec q now :
  timers_wf q → due q now = [] →
  ∃ deadline q', (q ← get_state;
    match m_timers q with
    | [] => reset_containers_memory;; mret (now + hours 24)%Z
    | (_, t) :: _ => mret (get_deadline q t)
    end) q = Done deadline q' ∧ timers_wf q' ∧ queued q' = queued q ∧ posted q' = posted q ∧ m_deadline q' = m_deadline q ∧
    (now < deadline)%Z ∧ next_deadline q' now deadline.
Proof.
  intros Hq Hd. unfold mbind, comp_bind, get_state; simpl.
  destruct (m_timers q) as [|[n t] rest] eqn:Hl.
  - unfold reset_containers_memory, empty, mbind, comp_bind, get_state, assert; simpl.
    rewrite (bool_decide_true (size _ = _)) by (by apply wf_size). simpl.
    rewrite bool_decide_true by done. do 2 eexists. split; [done|]. unfold queued; simpl.
    rewrite Hl. split_and!; [|done..|unfold hours; lia|done].
    split; simpl; [constructor..| |]; set_solver.
  - do 2 eexists. split; [done|]. pose proof (wf_sorted q Hq) as Hs. rewrite Hl in Hs.
    apply StronglySorted_inv in Hs as [_ Hs]. rewrite Forall_forall in Hs.
    assert (t ∈ queued q) as Ht by (unfold queued; rewrite Hl; set_solver).
    split_and!; [done..| |].
    + rewrite (due_not_due_queued q now Hd) in Ht. apply list_elem_of_filter in Ht as [? _]. lia.
    + unfold next_deadline, queued. rewrite Hl. csimpl. split; [exists t; split; [apply list_elem_of_here|done]|]. intros u [->|([n' u'] & -> & Hu)%list_elem_of_fmap]%elem_of_cons; [lia|].
      by apply (Hs _ Hu).
Qed.
End process_end.

Section process.
Context (is_oneshot canc : timer_ptr → bool) (world : nat → view).
Context (Hcanc : ∀ k t, v_cancelled (world k) t = canc t) (Hopen : ∀ k t, v_refuses (world k) t = false).
Context (Hadv : ∀ k0, advancing world k0 (v_now (world k0))).
Implicit Types q : timers.

Lemma process_timers_spec queue q q1 :
  process_request_queue is_oneshot world queue q = Done tt q1 → timers_wf q1 →
  let now := v_now (world (ticks q1)) in
  ∃ deadline q',
    process_timers is_oneshot world (S (length (queued q1))) queue q = Done deadline q' ∧ timers_wf q' ∧
    posted q' = rev (to_post canc (due q1 now)) ++ posted q1 ∧
    queued q' ≡ₚ not_due q1 now ++ to_keep is_oneshot canc (due q1 now) ∧
    (now < deadline)%Z ∧ next_deadline q' now deadline ∧
    ∀ t, t ∉ to_post canc (due q1 now) → get_deadline q' t = get_deadline q1 t.
Proof using Hcanc Hopen Hadv.
  intros Hreq Hq1 now.
  destruct (process_loop_spec is_oneshot canc world Hcanc Hopen now (ticks q1) (Hadv _)
    (S (length (queued q1))) (ticked 1 q1)) as (q2 & Hloop & Hq2 & Hd2 & Hn2 & Hp2 & Hg2).
  { by apply ticked_wf. } { simpl. lia. } { apply Nat.lt_succ_r, (length_filter (λ _, _)). }
  destruct (deadline_spec q2 now Hq2 Hd2) as (dl & q' & He & Hq' & Hqq & Hpp & Hmm & Hlt & Hle).
  exists dl, q'. split_and!; [|done| | |done|done|].
  - unfold process_timers. rewrite (comp_bind_done _ _ _ _ _ Hreq).
    rewrite (comp_bind_done (observe world) _ _ _ (ticked 1 q1) eq_refl).
    rewrite (comp_bind_done _ _ _ _ _ Hloop). exact He.
  - by rewrite Hpp, Hp2.
  - by rewrite Hqq, (due_not_due_queued q2 now Hd2), Hn2.
  - intros t Ht. unfold get_deadline at 1. rewrite Hmm. by apply Hg2.
Qed.
End process.

(** ** Without assumptions on the clock

    Whatever the thread reads, it keeps the queue consistent; only the number of
    rounds is then not bounded. *)
Section any_world.
Context (is_oneshot : timer_ptr → bool) (world : nat → view).
Implicit Types q : timers.

Lemma round_queued t q : t ∈ queued q → queued (round is_oneshot world t q) ⊆ queued q.
Proof.
  intros Ht. assert (queued (removed t q) ⊆ queued q) as Hsub.
  { rewrite removed_queued. apply list_subseteq_filter. }
  unfold round. repeat case_match; [exact Hsub..|].
  intros u. rewrite added_queued, elem_of_cons. intros [->|?]; [done|by apply Hsub].
Qed.

Lemma process_loop_any fuel now q :
  timers_wf q →
  process_loop is_oneshot world fuel now q = Fault out_of_fuel ∨
  (process_loop is_oneshot world fuel now q = Fault uncaught_exception ∧ ∃ k t, v_refuses (world k) t = true) ∨
  ∃ q', process_loop is_oneshot world fuel now q = Done tt q' ∧ timers_wf q' ∧
    queued q' ⊆ queued q ∧ due q' now = [].
Proof.
  revert q. induction fuel as [|fuel IH]; intros q Hq; [by left|].
  destruct (m_timers q) as [|[n t] rest] eqn:Hl.
  { right; right. exists q. unfold due, queued. simpl. unfold mbind, comp_bind, get_state. simpl. by rewrite Hl. }
  destruct (expired q t now) eqn:He.
  - rewrite (process_loop_round _ _ _ _ _ _ _ _ Hq Hl He).
    destruct (v_refuses (world (3 + ticks q)) t) eqn:Hr; [destruct (v_cancelled _ t); [|right; left; eauto]|rewrite andb_false_r];
    (destruct (IH (round is_oneshot world t q)) as [?|[?|(q' & ? & ? & Hsub & ?)]]; [by apply round_wf|by left|by right; left|]);
    right; right; exists q'; (split_and!; [done..| |done]);
    (etrans; [exact Hsub|]); apply round_queued; unfold queued; rewrite Hl; set_solver.
  - right; right. exists q. split_and!; [|done..|].
    + simpl. unfold mbind, comp_bind, get_state. simpl. by rewrite Hl, He.
    + apply front_not_due; congruence.
Qed.

Lemma process_timers_any fuel queue q q1 :
  process_request_queue is_oneshot world queue q = Done tt q1 → timers_wf q1 →
  process_timers is_oneshot world fuel queue q = Fault out_of_fuel ∨
  (process_timers is_oneshot world fuel queue q = Fault uncaught_exception ∧ ∃ k t, v_refuses (world k) t = true) ∨
  ∃ deadline q', process_timers is_oneshot world fuel queue q = Done deadline q' ∧ timers_wf q' ∧
    queued q' ⊆ queued q1.
Proof.
  intros Hreq Hq1. unfold process_timers. rewrite (comp_bind_done _ _ _ _ _ Hreq).
  rewrite (comp_bind_done (observe world) _ _ _ (ticked 1 q1) eq_refl).
  destruct (process_loop_any fuel (v_now (world (ticks q1))) (ticked 1 q1))
    as [Hf|[[Hf Hr]|(q2 & Hloop & Hq2 & Hsub & Hd2)]]; [by apply ticked_wf| | |].
  - left. unfold mbind, comp_bind. by rewrite Hf.
  - right; left. split; [|done]. unfold mbind, comp_bind. by rewrite Hf.
  - right; right. rewrite (comp_bind_done _ _ _ _ _ Hloop).
    destruct (deadline_spec q2 _ Hq2 Hd2) as (dl & q' & He & Hq' & Hqq & _).
    exists dl, q'. rewrite Hqq. by split_and!.
Qed.
End any_world.


(** A clock that ticks, two timers to add, timer 0 due and timer 1 not. *)
Definition example_world (k : nat) : view := View (Z.of_nat k) (λ _, false) (λ _, 1%Z) (λ _, false).
Definition example_timers : timers := Timers [] ∅ {[ 0 := 0%Z; 1 := 100%Z ]} 0 [] 0.


(** A timer that is due and not cancelled, with an executor that was shut down: the
    exception of [post] leaves the thread of the queue. *)
Theorem timer_of_closed_executor is_oneshot world fuel now n t rest q :
  timers_wf q → m_timers q = (n, t) :: rest → expired q t now = true →
  v_cancelled (world (ticks q)) t = false → v_refuses (world (3 + ticks q)) t = true →
  process_loop is_oneshot world (S fuel) now q = Fault uncaught_exception.
Proof. intros Hq Hl He Hc Hr. by rewrite (process_loop_round _ _ _ _ _ _ _ _ Hq Hl He), Hc, Hr. Qed.
