(* ===== verification/TimerQueue.v ===== *)
(** * [timer_queue]: the request queue and its worker thread

    Client threads add and cancel timers under [m_lock]; a worker thread takes
    the requests and runs [process_timers] on timers of its own, leaves when it
    has been idle for too long, and is started again when it is needed. *)

From S2P Require Import Prelude Conc Timers.
From stdpp Require Import options.

Abbreviation request := (timer_ptr * timer_request)%type.

(** Where a worker is in [work_loop]: at the lock, outside it with the requests
    it took, or gone. *)
Inductive phase : Type :=
  | waiting
  | processing (batch : list request)
  | exited.

Record worker : Type := Worker { w_phase : phase; w_timers : timers }.

(** [workers] are all threads ever started, [m_worker] the one that is
    joinable; [cancelled_flags] are the timers whose [m_cancelled] is set, and
    [history] (a ghost) the timers ever added. *)
Record tqueue : Type := TQueue {
  m_atomic_abort : bool;
  m_abort : bool;
  m_idle : bool;
  m_request_queue : list request;
  m_worker : option nat;
  workers : list worker;
  cancelled_flags : gset timer_ptr;
  history : list timer_ptr }.

Definition tq_init : tqueue := TQueue false false true [] None [] ∅ [].

Definition running (w : worker) : Prop := w_phase w ≠ exited.

Definition with_workers (ws : list worker) (s : tqueue) : tqueue :=
  TQueue (m_atomic_abort s) (m_abort s) (m_idle s) (m_request_queue s) (m_worker s) ws
    (cancelled_flags s) (history s).
Definition with_requests (rs : list request) (s : tqueue) : tqueue :=
  TQueue (m_atomic_abort s) (m_abort s) (m_idle s) rs (m_worker s) (workers s)
    (cancelled_flags s) (history s).

(** ** The clients *)

(** [ensure_worker_thread]: a new thread in the place of one that went idle;
    the old one is joined by the caller. *)
Definition ensure_worker_thread (s : tqueue) : tqueue :=
  if m_idle s then
    TQueue (m_atomic_abort s) (m_abort s) false (m_request_queue s) (Some (length (workers s)))
      (workers s ++ [Worker waiting no_timers]) (cancelled_flags s) (history s)
  else s.

(** The constructor of a timer sets its deadline, which the worker will read. *)
Definition set_deadline (t : timer_ptr) (d : Z) (w : worker) : worker :=
  Worker (w_phase w)
    (Timers (m_timers (w_timers w)) (m_iterator_mapper (w_timers w)) (<[t := d]> (m_deadline (w_timers w)))
       (next_node (w_timers w)) (posted (w_timers w)) (ticks (w_timers w))).

(** [add_timer] and [add_internal_timer] *)
Definition add_timer (t : timer_ptr) (d : Z) (s : tqueue) : outcome tqueue :=
  if m_abort s then Throw (runtime_shutdown "concurrencpp::timer_queue") else
  let s1 := ensure_worker_thread s in
  Ret (TQueue (m_atomic_abort s1) (m_abort s1) (m_idle s1) (m_request_queue s1 ++ [(t, request_add)])
         (m_worker s1)
         (match m_worker s1 with Some i => alter (set_deadline t d) i (workers s1) | None => workers s1 end)
         (cancelled_flags s1) (history s1 ++ [t])).

Definition remove_internal_timer (t : timer_ptr) (s : tqueue) : tqueue :=
  with_requests (m_request_queue s ++ [(t, request_remove)]) s.

(** [timer_state_base::cancel], and then the request of [timer::cancel] *)
Definition state_cancel (t : timer_ptr) (s : tqueue) : tqueue :=
  TQueue (m_atomic_abort s) (m_abort s) (m_idle s) (m_request_queue s) (m_worker s) (workers s)
    ({[t]} ∪ cancelled_flags s) (history s).

(** [shutdown]: the exchange, and the part under the lock. *)
Definition shutdown_exchange (s : tqueue) : bool * tqueue :=
  (m_atomic_abort s,
   TQueue true (m_abort s) (m_idle s) (m_request_queue s) (m_worker s) (workers s)
     (cancelled_flags s) (history s)).

Definition shutdown_locked (s : tqueue) : tqueue :=
  TQueue (m_atomic_abort s) true (m_idle s)
    (match m_worker s with None => m_request_queue s | Some _ => [] end)
    (m_worker s) (workers s) (cancelled_flags s) (history s).

(** ** The worker *)

(** [work_loop] from the lock to the unlock. [timed_out] tells whether the time
    of the wait is over; [None]: the thread goes on waiting. *)
Definition worker_locked (i : nat) (timed_out : bool) (s : tqueue) : option tqueue :=
  match workers s !! i with
  | Some (Worker waiting q) =>
      let pred := negb (bool_decide (m_request_queue s = [])) || m_abort s in
      let set_phase p := with_workers (<[i := Worker p q]> (workers s)) in
      let go :=
        if m_abort s then set_phase exited s
        else set_phase (processing (m_request_queue s)) (with_requests [] s) in
      if bool_decide (m_timers q = []) then
        if pred then Some go
        else if timed_out then
          Some (set_phase exited
            (TQueue (m_atomic_abort s) (m_abort s) true (m_request_queue s) (m_worker s) (workers s)
               (cancelled_flags s) (history s)))
        else None
      else if pred || timed_out then Some go else None
  | _ => None
  end.

(** [process_timers] outside the lock. *)
Definition worker_process (is_oneshot : timer_ptr → bool) (world : nat → view) (fuel : nat) (i : nat)
    (s : tqueue) : option (access timers Z) :=
  match workers s !! i with
  | Some (Worker (processing batch) q) => Some (process_timers is_oneshot world fuel batch q)
  | _ => None
  end.

(** ** Steps *)

(** The thread reads [true] for the timers that are cancelled already. *)
Definition world_ok (s : tqueue) (world : nat → view) : Prop :=
  ∀ k t, t ∈ cancelled_flags s → v_cancelled (world k) t = true.

Section steps.
Context (is_oneshot : timer_ptr → bool).

(** A timer is added by [make_timer_impl], once, when it is made; its removal
    is requested by [timer::cancel], after it was cancelled. *)
Inductive tq_step : tqueue → tqueue → Prop :=
  | step_add t d s s' : t ∉ history s → add_timer t d s = Ret s' → tq_step s s'
  | step_cancel t s : tq_step s (state_cancel t s)
  | step_remove t s : t ∈ cancelled_flags s → tq_step s (remove_internal_timer t s)
  | step_exchange s : tq_step s (shutdown_exchange s).2
  | step_shutdown s : m_atomic_abort s = true → tq_step s (shutdown_locked s)
  | step_locked i b s s' : worker_locked i b s = Some s' → tq_step s s'
  | step_process world fuel i d q' s :
      world_ok s world → worker_process is_oneshot world fuel i s = Some (Done d q') →
      tq_step s (with_workers (<[i := Worker waiting q']> (workers s)) s).

Definition tq_reachable : tqueue → Prop := reachable (λ s, s = tq_init) tq_step.
End steps.

(** ** The invariant *)

(** The timers that a list of requests adds. *)
Definition adds (rs : list request) : list timer_ptr :=
  (filter (λ r, r.2 = request_add) rs).*1.

Definition batch_of (w : worker) : list request :=
  match w_phase w with processing batch => batch | _ => [] end.

(** What a running worker may rely on when it handles its requests: its queue
    is consistent, no request adds a timer that is there or that another
    request adds, and removals are of cancelled timers. *)
Record worker_ok (s : tqueue) (w : worker) : Prop := WorkerOk {
  ok_wf : timers_wf (w_timers w);
  ok_nodup : NoDup (queued (w_timers w) ++ adds (batch_of w) ++ adds (m_request_queue s));
  ok_history : ∀ t, t ∈ queued (w_timers w) ++ adds (batch_of w) → t ∈ history s;
  ok_removes : ∀ t, (t, request_remove) ∈ batch_of w → t ∈ cancelled_flags s }.

Record tq_inv (s : tqueue) : Prop := TqInv {
  inv_unique : ∀ i w, workers s !! i = Some w → running w → m_worker s = Some i ∧ m_idle s = false;
  inv_live : m_idle s = false → m_abort s = false →
    ∃ i w, m_worker s = Some i ∧ workers s !! i = Some w ∧ running w;
  inv_idle : m_idle s = true → adds (m_request_queue s) = [];
  inv_worker : ∀ i w, workers s !! i = Some w → running w → worker_ok s w;
  inv_queue_nodup : NoDup (adds (m_request_queue s));
  inv_queue_history : ∀ t, t ∈ adds (m_request_queue s) → t ∈ history s;
  inv_queue_removes : ∀ t, (t, request_remove) ∈ m_request_queue s → t ∈ cancelled_flags s }.

Lemma adds_app rs rs' : adds (rs ++ rs') = adds rs ++ adds rs'.
Proof. unfold adds. by rewrite filter_app, fmap_app. Qed.

Lemma tq_inv_init : tq_inv tq_init.
Proof. split; simpl; try done; [constructor|..]; set_solver. Qed.

(** A worker keeps its promise if the state around it changes a little. *)
Lemma worker_ok_mono s s' w :
  worker_ok s w → m_request_queue s' = m_request_queue s →
  history s ⊆ history s' → cancelled_flags s ⊆ cancelled_flags s' → worker_ok s' w.
Proof. intros [] Hr ??. split; [done|by rewrite Hr|set_solver..]. Qed.

Section preservation.
Implicit Types s : tqueue.

Lemma set_deadline_ok t d s w : worker_ok s w → t ∉ history s → worker_ok s (set_deadline t d w).
Proof.
  intros [[Hs Hn Hm Hf] Hnd Hh Hr] Ht. split; simpl; [|done..]. split; simpl; [|done..].
  eapply StronglySorted_impl; [|done]. intros [n u] [n' u'] Hu Hu'; simpl. unfold get_deadline; simpl.
  rewrite !lookup_insert_ne; [done|..]; intros ->; apply Ht, Hh, elem_of_app; left;
    apply list_elem_of_fmap; by eexists (_, _).
Qed.

Lemma spawn_inv s : tq_inv s → tq_inv (ensure_worker_thread s).
Proof.
  intros Hs. unfold ensure_worker_thread. destruct (m_idle s) eqn:Hidle; [|done].
  destruct Hs as [Hu Hl Hi Hw Hq Hh Hr].
  assert (∀ i w, workers s !! i = Some w → ¬ running w) as Hnone.
  { intros i w Hiw Hrun. destruct (Hu i w Hiw Hrun). congruence. }
  split; simpl; try done.
  - intros i w [Hlook|[? Hlook]]%lookup_app_Some Hrun; [by destruct (Hnone _ _ Hlook)|].
    apply list_lookup_singleton_Some in Hlook as [? <-]. split; [f_equal; lia|done].
  - intros _ _. exists (length (workers s)), (Worker waiting no_timers).
    by rewrite list_lookup_middle.
  - intros i w [Hlook|[? Hlook]]%lookup_app_Some Hrun; [by destruct (Hnone _ _ Hlook)|].
    apply list_lookup_singleton_Some in Hlook as [? <-].
    split; simpl; [apply no_timers_wf|rewrite (Hi Hidle); constructor|set_solver..].
Qed.

Lemma spawned_idle s : m_idle (ensure_worker_thread s) = false ∨ m_idle s = false.
Proof. unfold ensure_worker_thread. destruct (m_idle s) eqn:?; naive_solver. Qed.

Lemma add_timer_inv t d s s' :
  tq_inv s → t ∉ history s → add_timer t d s = Ret s' → tq_inv s'.
Proof.
  intros Hs Ht Ha. unfold add_timer in Ha. destruct (m_abort s) eqn:Hab; simplify_eq.
  pose proof (spawn_inv s Hs) as Hs1.
  assert (m_idle (ensure_worker_thread s) = false) as Hidle.
  { unfold ensure_worker_thread. by destruct (m_idle s) eqn:?. }
  assert (history (ensure_worker_thread s) = history s) as Hhist.
  { unfold ensure_worker_thread. by destruct (m_idle s). }
  rewrite <- Hhist in Ht. revert Hs1 Hidle Ht. generalize (ensure_worker_thread s); clear s Hs Hab Hhist.
  intros s [Hu Hl Hi Hw Hq Hh Hr] Hidle Ht.
  assert (t ∉ adds (m_request_queue s)) by (by intros ?%Hh).
  assert (∀ i w, (match m_worker s with Some i => alter (set_deadline t d) i (workers s) | None => workers s end) !! i = Some w →
    ∃ w', workers s !! i = Some w' ∧ w_phase w' = w_phase w ∧ (w = w' ∨ w = set_deadline t d w')) as Hlook.
  { intros i w. destruct (m_worker s) as [j|]; [|by eauto].
    destruct (decide (i = j)) as [->|]; [rewrite list_lookup_alter_eq|rewrite list_lookup_alter_ne by done; by eauto].
    destruct (workers s !! j) as [w'|]; intros; simplify_eq/=. exists w'. auto. }
  split; simpl.
  - intros i w (w' & ? & Hp & _)%Hlook ?. apply (Hu i w'); [done|]. unfold running. by rewrite Hp.
  - intros _ Hab. destruct (Hl Hidle Hab) as (i & w & Hmw & Hiw & Hrun).
    exists i, (set_deadline t d w). rewrite Hmw, list_lookup_alter_eq, Hiw. done.
  - by rewrite Hidle.
  - intros i w (w' & Hiw & Hp & Hcase)%Hlook Hrun.
    assert (running w') as Hrun' by (unfold running; by rewrite Hp).
    assert (worker_ok s w) as [Hwf Hnd Hok Hrem].
    { destruct Hcase as [-> | ->]; eauto using set_deadline_ok. }
    split; simpl; [done| |set_solver|done].
    rewrite adds_app, !(assoc_L (++)). apply NoDup_app. rewrite <- (assoc_L (++)).
    split_and!; [done| |apply NoDup_singleton]. set_solver.
  - rewrite adds_app. apply NoDup_app. split_and!; [done|set_solver|apply NoDup_singleton].
  - rewrite adds_app. set_solver.
  - set_solver.
Qed.

Lemma batch_requests_ok world batch present :
  NoDup (adds batch) → (∀ t, t ∈ adds batch → t ∉ present) →
  (∀ k t, (t, request_remove) ∈ batch → v_cancelled (world k) t = true) →
  requests_ok world batch present ∧ apply_requests batch present ⊆ present ∪ list_to_set (adds batch).
Proof.
  revert present. induction batch as [|[t []] batch IH]; intros present Hnd Hnew Hrem; simpl.
  - set_solver.
  - unfold adds in *. rewrite filter_cons_True in * by done. csimpl in *.
    apply NoDup_cons in Hnd as [Ht Hnd]. destruct (IH ({[t]} ∪ present)) as [? Hsub]; [set_solver..|].
    split; [set_solver|]. etrans; [exact Hsub|]. set_solver.
  - unfold adds in *. rewrite filter_cons_False in * by done.
    destruct (IH (present ∖ {[t]})) as [? Hsub]; [set_solver..|].
    split; [set_solver|]. etrans; [exact Hsub|]. set_solver.
Qed.

(** A worker never faults over the requests it took. *)
Lemma worker_requests is_oneshot world s w :
  worker_ok s w → world_ok s world →
  ∃ q1, process_request_queue is_oneshot world (batch_of w) (w_timers w) = Done tt q1 ∧ timers_wf q1 ∧
    ∀ t, t ∈ queued q1 → t ∈ queued (w_timers w) ++ adds (batch_of w).
Proof.
  intros [Hwf Hnd Hh Hrem] Hworld.
  rewrite (assoc_L (++)) in Hnd. apply NoDup_app in Hnd as (Hnd & _ & _).
  apply NoDup_app in Hnd as (_ & Hdis & Hnd).
  destruct (batch_requests_ok world (batch_of w) (list_to_set (queued (w_timers w)))) as [Hok Hsub];
    [done|set_solver| |].
  { intros k t ?%Hrem. by apply Hworld. }
  destruct (process_request_queue_spec is_oneshot world _ _ Hwf Hok) as (q1 & ? & ? & Heq & _).
  exists q1. split_and!; [done..|]. intros t Ht. rewrite <- (elem_of_list_to_set (C := gset timer_ptr)) in Ht.
  rewrite Heq in Ht. set_solver.
Qed.

Lemma worker_timers is_oneshot world fuel s w :
  worker_ok s w → world_ok s world →
  process_timers is_oneshot world fuel (batch_of w) (w_timers w) = Fault out_of_fuel ∨
  (process_timers is_oneshot world fuel (batch_of w) (w_timers w) = Fault uncaught_exception ∧ ∃ k t, v_refuses (world k) t = true) ∨
  ∃ d q', process_timers is_oneshot world fuel (batch_of w) (w_timers w) = Done d q' ∧
    timers_wf q' ∧ ∀ t, t ∈ queued q' → t ∈ queued (w_timers w) ++ adds (batch_of w).
Proof.
  intros Hw Hworld. destruct (worker_requests is_oneshot world s w Hw Hworld) as (q1 & Hreq & Hq1 & Hin).
  destruct (process_timers_any is_oneshot world fuel _ _ _ Hreq Hq1) as [?|[?|(d & q' & ? & ? & Hsub)]];
    [by left|by right; left|right; right]. exists d, q'. split_and!; [done..|]. intros t Ht. by apply Hin, Hsub.
Qed.

Lemma process_inv is_oneshot world fuel i d q' s :
  tq_inv s → world_ok s world → worker_process is_oneshot world fuel i s = Some (Done d q') →
  tq_inv (with_workers (<[i := Worker waiting q']> (workers s)) s).
Proof.
  intros Hs Hworld Hp. unfold worker_process in Hp.
  destruct (workers s !! i) as [[[|batch|] q]|] eqn:Hi; simplify_eq.
  pose proof (inv_worker s Hs i _ Hi ltac:(done)) as Hw.
  destruct (worker_timers is_oneshot world fuel s _ Hw Hworld) as [Hf|[[Hf _]|(d' & q'' & Hd & Hq & Hin)]];
    unfold batch_of in *; simpl in *; [congruence..|]. rewrite Hp in Hd; simplify_eq.
  destruct Hs as [Hu Hl Hidle Hok Hqn Hqh Hqr].
  assert (∀ j w, <[i:=Worker waiting q'']> (workers s) !! j = Some w → running w →
    ∃ w', workers s !! j = Some w' ∧ running w') as Hlook.
  { intros j w Hj ?. destruct (decide (i = j)) as [->|]; [eexists; split; [exact Hi|done]|].
    rewrite list_lookup_insert_ne in Hj by done. eauto. }
  split; simpl; [|..|done|done|done].
  - intros j w Hj Hr. destruct (Hlook j w Hj Hr) as (? & ? & ?). eauto.
  - intros Hid Hab. destruct (Hl Hid Hab) as (j & w & ? & Hj & ?).
    destruct (decide (i = j)) as [->|]; [exists j, (Worker waiting q'')|exists j, w].
    + rewrite list_lookup_insert_eq by (by eapply lookup_lt_Some). done.
    + by rewrite list_lookup_insert_ne.
  - done.
  - intros j w Hj Hr. destruct (decide (i = j)) as [->|].
    + rewrite list_lookup_insert_eq in Hj by (by eapply lookup_lt_Some). simplify_eq.
      destruct Hw as [Hwf Hnd Hh Hrem]. simpl in *. split; simpl; [done| |set_solver..].
      rewrite (assoc_L (++)) in Hnd. apply NoDup_app in Hnd as (_ & Hdis & Hnd).
      apply NoDup_app. split_and!; [by apply wf_queued_nodup|set_solver|done].
    + rewrite list_lookup_insert_ne in Hj by done. eapply worker_ok_mono; [by eapply Hok|done..].
Qed.

(** The other workers, when the running worker [i] is replaced: they have
    exited. *)
Lemma replaced_exited i w w' s j u :
  tq_inv s → workers s !! i = Some w → running w →
  <[i := w']> (workers s) !! j = Some u → running u → j = i ∧ u = w'.
Proof.
  intros Hs Hi Hr Hj Hu. destruct (decide (i = j)) as [->|Hne].
  - rewrite list_lookup_insert_eq in Hj by (by eapply lookup_lt_Some). by simplify_eq.
  - rewrite list_lookup_insert_ne in Hj by done.
    destruct (inv_unique s Hs i w Hi Hr), (inv_unique s Hs j u Hj Hu). congruence.
Qed.

Lemma worker_locked_inv i b s s' : tq_inv s → worker_locked i b s = Some s' → tq_inv s'.
Proof.
  intros Hs Hl. unfold worker_locked in Hl.
  destruct (workers s !! i) as [[[| |] q]|] eqn:Hi; simplify_eq.
  assert (running (Worker waiting q)) as Hrun by done.
  pose proof (λ p j u, replaced_exited i _ (Worker p q) s j u Hs Hi Hrun) as Hrep.
  destruct (inv_unique s Hs i _ Hi Hrun) as [Hmw Hidle].
  pose proof (inv_worker s Hs i _ Hi Hrun) as [Hwf Hnd Hh Hrem]. simpl in *.
  assert (∀ p, <[i := Worker p q]> (workers s) !! i = Some (Worker p q)) as Hsame.
  { intros p. apply list_lookup_insert_eq. by eapply lookup_lt_Some. }
  destruct Hs as [Hu Hlive Hid Hok Hqn Hqh Hqr].
  destruct (m_abort s) eqn:Hab.
  { rewrite orb_true_r in Hl. case_bool_decide; simplify_eq/=; (split; simpl; try done; try (intros; congruence));
      intros j u Hj Hr; by destruct (Hrep _ j u Hj Hr) as [-> ->]. }
  rewrite orb_false_r in Hl.
  assert (tq_inv (with_workers (<[i:=Worker (processing (m_request_queue s)) q]> (workers s)) (with_requests [] s)))
    as Htake.
  { split; simpl; try done; try apply NoDup_nil_2; try (by intros ? ?%elem_of_nil).
    - intros j u Hj Hr. by destruct (Hrep _ j u Hj Hr) as [-> ->].
    - intros _ _. exists i, (Worker (processing (m_request_queue s)) q). done.
    - intros j u Hj Hr. destruct (Hrep _ j u Hj Hr) as [-> ->].
      split; unfold batch_of in *; simpl in *; [done|by rewrite app_nil_r|set_solver|done]. }
  assert (m_request_queue s = [] → tq_inv (with_workers (<[i:=Worker exited q]> (workers s))
    (TQueue (m_atomic_abort s) false true (m_request_queue s) (m_worker s) (workers s)
       (cancelled_flags s) (history s)))) as Hexit.
  { intros Hnil. split; simpl; rewrite ?Hnil; try done; try apply NoDup_nil_2; try (by intros ? ?%elem_of_nil);
      intros j u Hj Hr; by destruct (Hrep _ j u Hj Hr) as [-> ->]. }
  repeat case_bool_decide; simplify_eq/=; try done; destruct b; simplify_eq/=; auto.
Qed.

Lemma tq_step_inv is_oneshot s s' : tq_inv s → tq_step is_oneshot s s' → tq_inv s'.
Proof.
  intros Hs Hst. destruct Hst as [t d s s' Ht Ha|t s|t s Ht|s|s _|i b s s' Hl|world fuel i d q' s Hw Hp];
    eauto using add_timer_inv, worker_locked_inv, process_inv.
  - destruct Hs as [Hu Hlive Hid Hok Hqn Hqh Hqr]. split; simpl; try done; [|set_solver].
    intros i w Hi Hr. eapply worker_ok_mono; eauto. set_solver.
  - destruct Hs as [Hu Hlive Hid Hok Hqn Hqh Hqr].
    assert (adds (m_request_queue s ++ [(t, request_remove)]) = adds (m_request_queue s)) as Hadds.
    { rewrite adds_app. apply app_nil_r. }
    split; simpl; rewrite ?Hadds; try done; [|set_solver].
    intros i w Hi Hr. destruct (Hok i w Hi Hr) as [? Hnd ? ?]. split; simpl; [done| |done..].
    by rewrite Hadds.
  - destruct Hs as [Hu Hlive Hid Hok Hqn Hqh Hqr]. split; simpl; try done.
    intros i w Hi Hr. eapply worker_ok_mono; eauto.
  - destruct Hs as [Hu Hlive Hid Hok Hqn Hqh Hqr].
    destruct (m_worker s) eqn:Hmw; (split; simpl; rewrite ?Hmw; try done); try apply NoDup_nil_2; try (by intros ? ?%elem_of_nil).
    + intros i w Hi Hr. destruct (Hok i w Hi Hr) as [? Hnd ? ?]. split; simpl; rewrite ?Hmw; [done| |done..].
      rewrite (assoc_L (++)) in Hnd. apply NoDup_app in Hnd as (? & _ & _). by rewrite app_nil_r.
    + intros i w Hi Hr. destruct (Hu i w Hi Hr). congruence.
Qed.

Lemma tq_reachable_inv is_oneshot s : tq_reachable is_oneshot s → tq_inv s.
Proof.
  apply reachable_inv; [intros ? ->; apply tq_inv_init|]. intros. by eapply tq_step_inv.
Qed.
End preservation.

(** ** Theorems *)

(** No request to add a timer is lost between the worker that goes idle and
    the clients: while one is pending and the queue is not shut down there is
    exactly one worker thread that has not left its loop; if it is at the lock
    it will not go on waiting, nor leave, but take the request. *)
Theorem timer_queue_serves_requests is_oneshot s t :
  tq_reachable is_oneshot s → (t, request_add) ∈ m_request_queue s → m_abort s = false →
  ∃ i w, m_worker s = Some i ∧ workers s !! i = Some w ∧ running w ∧
    (∀ j u, workers s !! j = Some u → running u → j = i) ∧
    (w_phase w = waiting → ∀ timed_out, ∃ s', worker_locked i timed_out s = Some s' ∧
       workers s' !! i = Some (Worker (processing (m_request_queue s)) (w_timers w))).
Proof.
  intros Hs%tq_reachable_inv Ht Hab.
  assert (m_idle s = false) as Hidle.
  { apply not_true_iff_false. intros Hid%inv_idle; [|done].
    assert (t ∈ adds (m_request_queue s)) as Hin; [|by rewrite Hid in Hin; apply elem_of_nil in Hin].
    apply list_elem_of_fmap. exists (t, request_add). by rewrite list_elem_of_filter. }
  destruct (inv_live s Hs Hidle Hab) as (i & w & Hmw & Hi & Hr). exists i, w. split_and!; [done..| |].
  - intros j u Hj Hu. destruct (inv_unique s Hs j u Hj Hu). congruence.
  - intros Hp b. destruct w as [p q]. simpl in Hp. subst p.
    exists (with_workers (<[i := Worker (processing (m_request_queue s)) q]> (workers s)) (with_requests [] s)).
    unfold worker_locked. rewrite Hi, Hab. rewrite (bool_decide_false (m_request_queue s = [])) by (intros Hnil; rewrite Hnil in Ht; by apply elem_of_nil in Ht).
    simpl. split; [by case_bool_decide|]. apply list_lookup_insert_eq. by eapply lookup_lt_Some.
Qed.

Lemma timer_queue_serves_requests_witness :
  ∃ s, ∃ i w, m_worker s = Some i ∧ workers s !! i = Some w ∧ running w ∧
    (∀ j u, workers s !! j = Some u → running u → j = i) ∧
    (w_phase w = waiting → ∀ timed_out, ∃ s', worker_locked i timed_out s = Some s' ∧
       workers s' !! i = Some (Worker (processing (m_request_queue s)) (w_timers w))).
Proof.
  destruct (add_timer 3 100 tq_init) as [s| |] eqn:Hs; [|discriminate Hs..].
  exists s. eapply (timer_queue_serves_requests (λ _, false) s 3).
  - eapply reachable_step; [by apply reachable_init|]. eapply step_add; [|exact Hs]. set_solver.
  - injection Hs as <-. simpl. set_solver.
  - by injection Hs as <-.
Defined.

(** Whatever the clients request and cancel meanwhile, the worker's
    [process_timers] on the requests it took never fails an assertion and never
    uses a dangling iterator, and leaves its multiset and its iterator map
    consistent.  It is ended by an exception only if an executor refuses a timer. *)
Theorem timer_queue_worker_never_faults is_oneshot world fuel s i r :
  tq_reachable is_oneshot s → world_ok s world → worker_process is_oneshot world fuel i s = Some r →
  r = Fault out_of_fuel ∨ (r = Fault uncaught_exception ∧ ∃ k t, v_refuses (world k) t = true) ∨
  ∃ deadline q, r = Done deadline q ∧ timers_wf q.
Proof.
  intros Hs%tq_reachable_inv Hw Hr. unfold worker_process in Hr.
  destruct (workers s !! i) as [[[|batch|] q]|] eqn:Hi; simplify_eq.
  pose proof (inv_worker s Hs i _ Hi ltac:(done)) as Hok.
  destruct (worker_timers is_oneshot world fuel s _ Hok Hw) as [?|[?|(d & q' & ? & ? & _)]]; eauto 6.
Qed.

Lemma timer_queue_worker_never_faults_witness :
  ∃ s r, worker_process (λ _, false) example_world 5 0 s = Some r ∧
    (r = Fault out_of_fuel ∨ (r = Fault uncaught_exception ∧ ∃ k t, v_refuses (example_world k) t = true) ∨
     ∃ deadline q, r = Done deadline q ∧ timers_wf q).
Proof.
  destruct (add_timer 3 100 tq_init) as [s| |] eqn:Hs; [|discriminate Hs..].
  destruct (worker_locked 0 false s) as [s'|] eqn:Hl; [|injection Hs as <-; discriminate Hl].
  destruct (worker_process (λ _, false) example_world 5 0 s') as [r|] eqn:Hr.
  2: { injection Hs as <-. injection Hl as <-. discriminate Hr. }
  exists s', r. split; [exact Hr|]. eapply (timer_queue_worker_never_faults _ _ _ s' 0 r); [| |exact Hr].
  - eapply reachable_step; [eapply reachable_step; [by apply reachable_init|]|].
    + eapply step_add; [|exact Hs]. set_solver.
    + eapply step_locked. exact Hl.
  - injection Hs as <-. injection Hl as <-. intros k t Ht. by apply not_elem_of_empty in Ht.
Defined.

(** ** [shutdown] as a whole *)

Section shutdown.
Context (is_oneshot : timer_ptr → bool) (world : nat → view) (fuel : nat).

Definition leave_lock (i : nat) (s : tqueue) : access tqueue unit :=
  match worker_locked i false s with Some s' => Done tt s' | None => Block end.

(** The rest of the worker's loop, which the join waits for. *)
Definition join_worker (i : nat) : comp tqueue unit := λ s,
  match workers s !! i with
  | Some (Worker exited _) => Done tt s
  | Some (Worker waiting _) => leave_lock i s
  | Some (Worker (processing _) _) =>
      match worker_process is_oneshot world fuel i s with
      | Some (Done _ q) => leave_lock i (with_workers (<[i := Worker waiting q]> (workers s)) s)
      | Some (Fault f) => Fault f
      | _ => Block
      end
  | None => Fault use_after_free
  end.

Definition shutdown : comp tqueue unit :=
  s ← get_state;
  let '(state_before, s') := shutdown_exchange s in
  modify (λ _, s');;
  if (state_before : bool) then mret tt else
  modify shutdown_locked;;
  s ← get_state;
  match m_worker s with
  | None => mret tt
  | Some i =>
      join_worker i;;
      modify (λ s, TQueue (m_atomic_abort s) (m_abort s) (m_idle s) (m_request_queue s) None (workers s) (cancelled_flags s) (history s))
  end.

Definition all_exited (s : tqueue) : Prop := ∀ i w, workers s !! i = Some w → w_phase w = exited.

Lemma leave_lock_done i q s :
  m_abort s = true → workers s !! i = Some (Worker waiting q) →
  leave_lock i s = Done tt (with_workers (<[i := Worker exited q]> (workers s)) s).
Proof. intros Ha Hi. unfold leave_lock, worker_locked. rewrite Hi, Ha, orb_true_r. simpl. by case_bool_decide. Qed.

Lemma join_worker_done i w s :
  m_abort s = true → workers s !! i = Some w → (∀ r, worker_process is_oneshot world fuel i s = Some r → ∃ d q, r = Done d q) →
  ∃ q, join_worker i s = Done tt (with_workers (<[i := Worker exited q]> (workers s)) s).
Proof.
  intros Ha Hi Hp. unfold join_worker. rewrite Hi. destruct w as [[|batch|] q]; simpl.
  - eexists. by apply leave_lock_done.
  - unfold worker_process in *. rewrite Hi in *. destruct (Hp _ eq_refl) as (d & q' & ->). exists q'.
    rewrite (leave_lock_done i q'); [|done|apply list_lookup_insert_eq; by eapply lookup_lt_Some].
    unfold with_workers. simpl. by rewrite list_insert_insert_eq.
  - exists q. unfold with_workers. rewrite list_insert_id by done. by destruct s.
Qed.

(** [m_worker] is a thread that was started. *)
Lemma worker_started s i : tq_reachable is_oneshot s → m_worker s = Some i → i < length (workers s).
Proof.
  intros Hs. revert i. apply (reachable_inv (λ s, s = tq_init) (tq_step is_oneshot) (λ s, ∀ i, m_worker s = Some i → i < length (workers s)));
    [by intros ? ->| |done].
  intros s1 s2 IH H i. destruct H as [t d s3 s4 _ Ha|t s3|t s3 _|s3|s3 _|j b s3 s4 Hl|w f j d q s3 _ _]; simpl; try apply IH.
  - unfold add_timer, ensure_worker_thread in Ha. destruct (m_abort s3); [done|]. injection Ha as <-.
    destruct (m_idle s3); simpl; [rewrite length_alter, length_app; simpl; intros [= <-]; lia|].
    intros Hi. rewrite Hi, length_alter. by apply IH.
  - unfold worker_locked in Hl. destruct (workers s3 !! j) as [[[|batch|] q]|]; simplify_eq. revert Hl.
    repeat case_match; intros; simplify_eq/=; rewrite length_insert; by apply IH.
  - rewrite length_insert. apply IH.
Qed.

(** The shutdown returns, and no worker is left that could fire a timer. *)
Lemma shutdown_done s :
  tq_reachable is_oneshot s → m_atomic_abort s = false →
  (∀ i r, worker_process is_oneshot world fuel i s = Some r → ∃ d q, r = Done d q) →
  ∃ s', shutdown s = Done tt s' ∧ m_atomic_abort s' = true ∧ m_abort s' = true ∧ m_worker s' = None ∧ all_exited s'.
Proof.
  intros Hs Ha Hp. pose proof (worker_started s) as Hst. pose proof (inv_unique _ (tq_reachable_inv _ _ Hs)) as Hu.
  assert (∀ i w, workers s !! i = Some w → m_worker s ≠ Some i → w_phase w = exited) as Hex.
  { intros i w Hi Hn. destruct (w_phase w) eqn:E; [destruct Hn..|done]; apply (Hu i w Hi); unfold running; by rewrite E. }
  unfold shutdown, shutdown_exchange, mbind, comp_bind, get_state, modify. simpl. rewrite Ha. simpl.
  destruct (m_worker s) as [i|] eqn:Hm; [|by eexists; split_and!; [reflexivity..|]; intros i w Hi; apply (Hex i w)].
  destruct (lookup_lt_is_Some_2 (workers s) i) as [w Hw]; [by apply Hst|].
  set (s1 := shutdown_locked _). destruct (join_worker_done i w s1) as (q & Hj); [done|done|exact (Hp i)|].
  rewrite Hj. eexists. split_and!; [reflexivity..|]. intros j u. simpl.
  intros [(-> & <- & _)|[Hne Hj']]%list_lookup_insert_Some; [done|]. apply (Hex j u Hj'). congruence.
Qed.
End shutdown.
