(* ===== verification/TimerObject.v ===== *)
(** * [timer.h] and [timer.cpp]: the timers of an application

    Timer objects own the states of timers; an executor runs [execute] of a state
    that the timer queue has posted, on another thread.  What a thread does between two
    accesses to what others see is one step: [cancel] lets go of the state, marks it as
    cancelled and has it removed from the queue, and [execute] looks at the mark and calls. *)

From S2P Require Import Prelude Conc Timers TimerQueue.
From stdpp Require Import options.

(** [timer_state_base]: what the application sees of it. *)
Record timer_state : Type := TimerState {
  m_due_time : Z;
  m_frequency : Z;
  m_is_oneshot : bool;
  m_cancelled : bool }.

(** The queue, whether it still exists, the states, and the timer objects.  The timers
    that calls of [cancel] have taken from their objects and not yet marked, and those
    they have marked and not yet removed; the timers that calls of [execute] have found
    not cancelled, and those whose callables have been called. *)
Record timer_app : Type := TimerApp {
  queue : tqueue;
  queue_alive : bool;
  states : gmap nat timer_state;
  objects : gmap nat (option nat);
  detached : gset nat;
  marked : gset nat;
  in_flight : list nat;
  called : list nat }.

Definition with_queue (q : tqueue) (a : timer_app) : timer_app :=
  TimerApp q (queue_alive a) (states a) (objects a) (detached a) (marked a) (in_flight a) (called a).
Definition with_states (m : gmap nat timer_state) (a : timer_app) : timer_app :=
  TimerApp (queue a) (queue_alive a) m (objects a) (detached a) (marked a) (in_flight a) (called a).
Definition with_objects (m : gmap nat (option nat)) (a : timer_app) : timer_app :=
  TimerApp (queue a) (queue_alive a) (states a) m (detached a) (marked a) (in_flight a) (called a).
Definition with_cancels (d m : gset nat) (a : timer_app) : timer_app :=
  TimerApp (queue a) (queue_alive a) (states a) (objects a) d m (in_flight a) (called a).
Definition with_calls (f c : list nat) (a : timer_app) : timer_app :=
  TimerApp (queue a) (queue_alive a) (states a) (objects a) (detached a) (marked a) f c.

Definition timer_object (x : nat) : comp timer_app (option nat) :=
  a ← get_state; match objects a !! x with Some o => mret o | None => abort_with use_after_free end.
Definition state_of (t : nat) : comp timer_app timer_state :=
  a ← get_state; match states a !! t with Some st => mret st | None => abort_with use_after_free end.
Definition set_object (x : nat) (o : option nat) : comp timer_app unit := modify (λ a, with_objects (<[x := o]> (objects a)) a).

(** ** [timer_state] *)

Definition cancel_flag (st : timer_state) : timer_state := TimerState (m_due_time st) (m_frequency st) (m_is_oneshot st) true.

(** [execute]: the look at the mark, and the call of the callable *)
Definition execute_check (t : nat) : comp timer_app bool :=
  st ← state_of t;
  if m_cancelled st then mret false else modify (λ a, with_calls (t :: in_flight a) (called a) a);; mret true.
Definition execute_call (t : nat) : comp timer_app unit :=
  a ← get_state;
  match list_find (.= t) (in_flight a) with
  | Some (i, _) => modify (λ a, with_calls (delete i (in_flight a)) (called a ++ [t]) a)
  | None => block
  end.
Definition execute (t : nat) : comp timer_app unit :=
  go ← execute_check t;
  if (go : bool) then execute_call t else mret tt.

(** ** [make_timer], [make_one_shot_timer] *)

(** [make_timer_impl]: the state is made at the time [now], and dropped when the
    queue throws. *)
Definition make_timer_impl (now due_time frequency : Z) (is_oneshot : bool) : comp timer_app (outcome nat) :=
  a ← get_state;
  let t := fresh (dom (states a)) in
  match add_timer t (now + milliseconds due_time) (queue a) with
  | Ret q => modify (λ a, with_queue q (with_states (<[t := TimerState due_time frequency is_oneshot false]> (states a)) a));; mret (Ret t)
  | Throw e => mret (Throw e)
  | Terminate => mret Terminate
  end.

(** The conversion of the state to a timer object. *)
Definition to_timer (x : nat) (r : outcome nat) : comp timer_app (outcome unit) :=
  match r with Ret t => set_object x (Some t);; mret (Ret tt) | Throw e => mret (Throw e) | Terminate => mret Terminate end.

(** The executor, which may be null, is not used before the timer fires. *)
Definition make_timer (now due_time frequency : Z) (executor : option nat) (x : nat) : comp timer_app (outcome unit) :=
  match executor with
  | None => mret (Throw invalid_argument)
  | Some _ =>
      r ← make_timer_impl now due_time frequency false;
      to_timer x r
  end.
Definition make_one_shot_timer (now due_time : Z) (executor : option nat) (x : nat) : comp timer_app (outcome unit) :=
  match executor with
  | None => mret (Throw invalid_argument)
  | Some _ =>
      r ← make_timer_impl now due_time 0 true;
      to_timer x r
  end.

(** ** [timer] *)

(** [cancel]: the state leaves the object, it is marked, and the queue, if there is one, is asked to
    remove it. *)
Definition cancel_detach (x : nat) : comp timer_app (option nat) :=
  o ← timer_object x;
  match o with
  | None => mret None
  | Some t => set_object x None;; modify (λ a, with_cancels ({[t]} ∪ detached a) (marked a) a);; mret (Some t)
  end.
Definition cancel_mark (t : nat) : comp timer_app unit :=
  a ← get_state;
  if decide (t ∈ detached a) then
    st ← state_of t;
    modify (λ a, with_cancels (detached a ∖ {[t]}) ({[t]} ∪ marked a)
      (with_queue (state_cancel t (queue a)) (with_states (<[t := cancel_flag st]> (states a)) a)))
  else block.
Definition cancel_remove (t : nat) : comp timer_app unit :=
  a ← get_state;
  if decide (t ∈ marked a) then
    (if queue_alive a then modify (λ a, with_queue (remove_internal_timer t (queue a)) a) else mret tt);;
    modify (λ a, with_cancels (detached a) (marked a ∖ {[t]}) a)
  else block.
Definition cancel (x : nat) : comp timer_app unit :=
  o ← cancel_detach x;
  match o with None => mret tt | Some t => cancel_mark t;; cancel_remove t end.

(** The storage of an object goes when its destructor has called [cancel]. *)
Definition free_timer (x : nat) : comp timer_app unit :=
  o ← timer_object x;
  match o with None => modify (λ a, with_objects (delete x (objects a)) a) | Some _ => block end.
Definition destroy_timer (x : nat) : comp timer_app unit := cancel x;; free_timer x.
Definition default_timer (x : nat) : comp timer_app unit := set_object x None.
Definition move_timer (rhs x : nat) : comp timer_app unit := o ← timer_object rhs; set_object rhs None;; set_object x o.
(** The end of an assignment to an object that is empty. *)
Definition assign_move (x rhs : nat) : comp timer_app unit :=
  o ← timer_object x;
  match o with None => o ← timer_object rhs; set_object rhs None;; set_object x o | Some _ => block end.
Definition assign_timer (x rhs : nat) : comp timer_app unit :=
  if decide (x = rhs) then mret tt
  else
    o ← timer_object x;
    (match o with Some _ => cancel x | None => mret tt end);;
    assign_move x rhs.

(** [throw_if_empty], and then the state. *)
Definition with_timer {A} (x : nat) (f : timer_state → A) : comp timer_app (outcome A) :=
  o ← timer_object x;
  match o with None => mret (Throw empty_timer) | Some t => st ← state_of t; mret (Ret (f st)) end.
Definition get_due_time (x : nat) : comp timer_app (outcome Z) := with_timer x m_due_time.
Definition get_frequency (x : nat) : comp timer_app (outcome Z) := with_timer x m_frequency.
Definition set_frequency (x : nat) (new_frequency : Z) : comp timer_app (outcome unit) :=
  o ← timer_object x;
  match o with
  | None => mret (Throw empty_timer)
  | Some t =>
      st ← state_of t;
      modify (λ a, with_states (<[t := TimerState (m_due_time st) new_frequency (m_is_oneshot st) (m_cancelled st)]> (states a)) a);;
      mret (Ret tt)
  end.

(** ** Interleavings *)

(** What the threads of an application and of the library may do next; a new object is
    put where none is, and the steps of [cancel], of an assignment and of a destruction may be
    separated by those of others. *)
Inductive timer_step : Type :=
  | to_make (now due_time frequency : Z) (executor : option nat) (x : nat)
  | to_make_one_shot (now due_time : Z) (executor : option nat) (x : nat)
  | to_default (x : nat)
  | to_detach (x : nat)
  | to_mark (t : nat)
  | to_remove (t : nat)
  | to_free (x : nat)
  | to_move (rhs x : nat)
  | to_assign (x rhs : nat)
  | to_set_frequency (x : nat) (f : Z)
  | to_check (t : nat)
  | to_call (t : nat)
  | to_environment (q : tqueue) (alive : bool).

Definition no_object (x : nat) : comp timer_app unit := a ← get_state; if decide (objects a !! x = None) then mret tt else block.

Definition run_timer_step (o : timer_step) : comp timer_app unit :=
  match o with
  | to_make now d f e x => no_object x;; make_timer now d f e x;; mret tt
  | to_make_one_shot now d e x => no_object x;; make_one_shot_timer now d e x;; mret tt
  | to_default x => no_object x;; default_timer x
  | to_detach x => cancel_detach x;; mret tt
  | to_mark t => cancel_mark t
  | to_remove t => cancel_remove t
  | to_free x => free_timer x
  | to_move rhs x => no_object x;; move_timer rhs x
  | to_assign x rhs => if decide (x = rhs) then mret tt else assign_move x rhs
  | to_set_frequency x f => set_frequency x f;; mret tt
  | to_check t => execute_check t;; mret tt
  | to_call t => execute_call t
  | to_environment q alive => modify (λ a, TimerApp q alive (states a) (objects a) (detached a) (marked a) (in_flight a) (called a))
  end.
Fixpoint run_timer_steps (os : list timer_step) : comp timer_app unit :=
  match os with [] => mret tt | o :: os => run_timer_step o;; run_timer_steps os end.

(** A timer that is not cancelled has exactly one object, or a call of [cancel] has
    just taken it; the others have none. *)
Record timers_owned (a : timer_app) : Prop := TimersOwned {
  to_live x t : objects a !! x = Some (Some t) → t ∉ detached a ∧ ∃ st, states a !! t = Some st ∧ m_cancelled st = false;
  to_unique x y t : objects a !! x = Some (Some t) → objects a !! y = Some (Some t) → x = y;
  to_detached t : t ∈ detached a → ∃ st, states a !! t = Some st ∧ m_cancelled st = false;
  to_owner t st : states a !! t = Some st → m_cancelled st = false → t ∈ detached a ∨ ∃ x, objects a !! x = Some (Some t) }.

(** Only the states, the objects and the calls of [cancel] count. *)
Lemma timers_owned_ext a a' :
  states a' = states a → objects a' = objects a → detached a' = detached a → timers_owned a → timers_owned a'.
Proof. intros Hs Ho Hd [H1 H2 H3 H4]. split; rewrite ?Hs, ?Ho, ?Hd; done. Qed.

Lemma timers_owned_empty a m :
  (∀ x t, m !! x = Some (Some t) ↔ objects a !! x = Some (Some t)) → timers_owned a → timers_owned (with_objects m a).
Proof. intros Hm [H1 H2 H3 H4]. split; simpl; try setoid_rewrite Hm; done. Qed.

Lemma timers_owned_new a x d f b q :
  timers_owned a → objects a !! x = None →
  timers_owned (with_objects (<[x := Some (fresh (dom (states a)))]> (objects a))
    (with_queue q (with_states (<[fresh (dom (states a)) := TimerState d f b false]> (states a)) a))).
Proof.
  intros [H1 H2 H3 H4] Hx. assert (states a !! fresh (dom (states a)) = None) as Hf by apply not_elem_of_dom, is_fresh.
  set (t := fresh _) in *.
  assert (∀ y, objects a !! y ≠ Some (Some t)) as Hn by (intros y Hy; destruct (H1 _ _ Hy) as (_ & ? & ? & _); congruence).
  assert (t ∉ detached a) as Hd by (intros (? & ? & _)%H3; congruence).
  split; simpl.
  - intros y t' [[<- [= <-]]|[_ Hy]]%lookup_insert_Some; [split; [done|]; eexists; by rewrite lookup_insert_eq|].
    destruct (H1 _ _ Hy) as (? & st & Hst & Hc). split; [done|]. exists st. rewrite lookup_insert_ne; [done|congruence].
  - intros y z t'. rewrite !lookup_insert_Some. intros [[<- E]|[_ Hy]] [[<- E']|[_ Hz]]; simplify_eq; try done;
      [by destruct (Hn z)|by destruct (Hn y)|by eapply H2].
  - intros t' Ht'. destruct (H3 t' Ht') as (st & Hst & Hc). exists st. rewrite lookup_insert_ne; [done|congruence].
  - intros t' st [[<- _]|[Ht Hst]]%lookup_insert_Some Hc; [right; exists x; apply lookup_insert_eq|].
    destruct (H4 t' st Hst Hc) as [?|[y Hy]]; [by left|]. right. exists y. rewrite lookup_insert_ne; [done|congruence].
Qed.

Lemma timers_owned_move a x y o :
  timers_owned a → objects a !! x = Some o → x ≠ y → (∀ t, objects a !! y ≠ Some (Some t)) →
  timers_owned (with_objects (<[y := o]> (<[x := None]> (objects a))) a).
Proof.
  intros [H1 H2 H3 H4] Hx Hn Hy. split; simpl; [| |done|].
  - intros z t. rewrite !lookup_insert_Some. intros [[_ ->]|[_ [[_ ?]|[_ Hz]]]]; [|done|]; by eapply H1.
  - intros z z' t. rewrite !lookup_insert_Some. intros [[<- E]|[? [[? ?]|[? Hz]]]] [[<- E']|[? [[? ?]|[? Hz']]]]; simplify_eq; try done;
      [by destruct (H2 _ _ _ Hx Hz')|by destruct (H2 _ _ _ Hx Hz)|by eapply H2].
  - intros t st Hst Hc. destruct (H4 t st Hst Hc) as [?|[z Hz]]; [by left|]. right. destruct (decide (z = x)) as [->|Hzx].
    + exists y. rewrite lookup_insert_eq. congruence.
    + exists z. rewrite lookup_insert_ne by congruence. by rewrite lookup_insert_ne.
Qed.

Lemma timers_owned_detach a x t :
  timers_owned a → objects a !! x = Some (Some t) →
  timers_owned (with_cancels ({[t]} ∪ detached a) (marked a) (with_objects (<[x := None]> (objects a)) a)).
Proof.
  intros [H1 H2 H3 H4] Hx. split; simpl.
  - intros y t' [[_ ?]|[Hn Hy]]%lookup_insert_Some; [done|]. destruct (H1 _ _ Hy) as (Hd & Hst). split; [|done].
    rewrite elem_of_union, elem_of_singleton. intros [->|?]; [|done]. by destruct Hn; eapply H2.
  - intros y z t'. rewrite !lookup_insert_Some. intros [[_ ?]|[_ ?]] [[_ ?]|[_ ?]]; try done. by eapply H2.
  - intros t' [->%elem_of_singleton|Ht]%elem_of_union; [by destruct (H1 _ _ Hx)|by apply H3].
  - intros t' st Hst Hc. destruct (H4 t' st Hst Hc) as [?|[y Hy]]; [left; set_solver|]. destruct (decide (y = x)) as [->|Hyx].
    + left. simplify_eq. set_solver.
    + right. exists y. by rewrite lookup_insert_ne.
Qed.

Lemma timers_owned_mark a t st q m :
  timers_owned a → t ∈ detached a → states a !! t = Some st →
  timers_owned (with_cancels (detached a ∖ {[t]}) m (with_queue q (with_states (<[t := cancel_flag st]> (states a)) a))).
Proof.
  intros [H1 H2 H3 H4] Ht Hst. split; simpl; [|done| |].
  - intros x t' Hx. destruct (H1 x t' Hx) as (Hd & st' & Hst' & Hc). split; [set_solver|]. exists st'. rewrite lookup_insert_ne; [done|]. by intros <-.
  - intros t' [Ht' Hne]%elem_of_difference. destruct (H3 t' Ht') as (st' & Hst' & Hc). exists st'. rewrite lookup_insert_ne; [done|]. set_solver.
  - intros t' st' [[_ <-]|[Hn Hst']]%lookup_insert_Some Hc; [done|]. destruct (H4 t' st' Hst' Hc) as [?|?]; [left; set_solver|by right].
Qed.

Lemma timers_owned_state a t st st' :
  timers_owned a → states a !! t = Some st → m_cancelled st' = m_cancelled st → timers_owned (with_states (<[t := st']> (states a)) a).
Proof.
  intros [H1 H2 H3 H4] Ht Hc.
  assert (∀ t', (∃ st, states a !! t' = Some st ∧ m_cancelled st = false) → ∃ st, <[t := st']> (states a) !! t' = Some st ∧ m_cancelled st = false) as Hs.
  { intros t' (st1 & Hst & Hc'). destruct (decide (t' = t)) as [->|Hn]; [exists st'|exists st1].
    - rewrite lookup_insert_eq. split; [done|]. congruence.
    - by rewrite lookup_insert_ne. }
  split; simpl; [|done| |].
  - intros x t' Hx. destruct (H1 _ _ Hx) as [? ?]. auto.
  - intros t' Ht'. by apply Hs, H3.
  - intros t' st1 [[<- <-]|[_ Hst]]%lookup_insert_Some Hc'; [|by eapply H4]. eapply H4; [done|congruence].
Qed.

Lemma timer_object_done a x o : objects a !! x = Some o → timer_object x a = Done o a.
Proof. intros Hx. unfold timer_object. rewrite get_state_bind. by rewrite Hx. Qed.
Lemma state_of_done a t st : states a !! t = Some st → state_of t a = Done st a.
Proof. intros Hx. unfold state_of. rewrite get_state_bind. by rewrite Hx. Qed.

Lemma timer_object_inv a x o a1 : timer_object x a = Done o a1 → a1 = a ∧ objects a !! x = Some o.
Proof. unfold timer_object. rewrite get_state_bind. destruct (objects a !! x) eqn:E; [by intros [= <- <-]|done]. Qed.
Lemma state_of_inv a t st a1 : state_of t a = Done st a1 → a1 = a ∧ states a !! t = Some st.
Proof. unfold state_of. rewrite get_state_bind. destruct (states a !! t) eqn:E; [by intros [= <- <-]|done]. Qed.
Lemma no_object_inv a x u a1 : no_object x a = Done u a1 → a1 = a ∧ objects a !! x = None.
Proof. unfold no_object. rewrite get_state_bind. case_decide; [by intros [= _ <-]|done]. Qed.

Lemma make_owned now d f b x a u a' :
  timers_owned a → (no_object x;; (r ← make_timer_impl now d f b; to_timer x r);; mret tt) a = Done u a' → timers_owned a'.
Proof.
  intros Hi. unfold no_object, mbind at 1, comp_bind at 1, mbind at 1, comp_bind at 1, get_state at 1.
  case_decide as Hx; [|done]. unfold mret at 1, comp_ret at 1. unfold make_timer_impl, mbind, comp_bind, get_state.
  destruct (add_timer _ _ _) as [q|e|]; simpl; intros [= _ <-]; [|done|done]. exact (timers_owned_new a x d f b q Hi Hx).
Qed.

Lemma run_timer_step_owned o a u a' : timers_owned a → run_timer_step o a = Done u a' → timers_owned a'.
Proof.
  intros Hi. destruct o as [now d f [e|] x|now d [e|] x|x|x|t|t|x|rhs x|x rhs|x f|t|t|q alive]; simpl.
  - by apply make_owned.
  - intros (u1 & a1 & [-> _]%no_object_inv & [= _ <-])%bind_done. done.
  - by apply make_owned.
  - intros (u1 & a1 & [-> _]%no_object_inv & [= _ <-])%bind_done. done.
  - intros (u1 & a1 & [-> Hx]%no_object_inv & [= _ <-])%bind_done. apply timers_owned_empty; [|done].
    intros y t. rewrite lookup_insert_Some. split; [naive_solver|]. intros Hy. right. split; [congruence|done].
  - intros (o & a1 & (o' & a2 & [-> Hx]%timer_object_inv & H)%bind_done & [= _ <-])%bind_done.
    destruct o' as [t|]; injection H as _ <-; [by apply timers_owned_detach|done].
  - unfold cancel_mark. rewrite get_state_bind. case_decide; [|done].
    intros (st & a1 & [-> Hst]%state_of_inv & [= _ <-])%bind_done. by apply timers_owned_mark.
  - unfold cancel_remove. rewrite get_state_bind. case_decide; [|done].
    destruct (queue_alive a); intros [= _ <-]; by eapply timers_owned_ext; [| | |exact Hi].
  - intros (o & a1 & [-> Hx]%timer_object_inv & H)%bind_done. destruct o; [done|]. injection H as _ <-.
    apply timers_owned_empty; [|done]. intros y t. rewrite lookup_delete_Some. naive_solver.
  - intros (u1 & a1 & [-> Hx]%no_object_inv & (o & a2 & [-> Hr]%timer_object_inv & [= _ <-])%bind_done)%bind_done.
    apply (timers_owned_move a rhs x o Hi Hr); [congruence|by rewrite Hx].
  - case_decide as Hne; [by intros [= _ <-]|]. intros (o & a1 & [-> Hx]%timer_object_inv & H)%bind_done. destruct o; [done|].
    revert H. intros (o' & a3 & [-> Hr]%timer_object_inv & [= _ <-])%bind_done.
    apply (timers_owned_move a rhs x o' Hi Hr); [done|by rewrite Hx].
  - intros (r & a1 & H1 & [= _ <-])%bind_done. revert H1. unfold set_frequency. intros (o & a2 & [-> Hx]%timer_object_inv & H1)%bind_done.
    destruct o as [t|]; [|by injection H1 as _ <-]. revert H1. intros (st & a3 & [-> Hst]%state_of_inv & [= _ <-])%bind_done.
    by apply (timers_owned_state a t st).
  - intros (b & a1 & (st & a2 & [-> Hst]%state_of_inv & H)%bind_done & [= _ <-])%bind_done.
    destruct (m_cancelled st); injection H as _ <-; [done|]. by eapply timers_owned_ext; [| | |exact Hi].
  - unfold execute_call. rewrite get_state_bind. destruct (list_find _ _) as [[i ?]|]; [|done].
    intros [= _ <-]. by eapply timers_owned_ext; [| | |exact Hi].
  - intros [= _ <-]. by eapply timers_owned_ext; [| | |exact Hi].
Qed.

(** ** Calls *)

(** How often the callable of [t] was called or is about to be. *)
Definition calls (t : nat) (a : timer_app) : nat := occ t (called a) + occ t (in_flight a).
Definition is_cancelled (t : nat) (a : timer_app) : Prop := ∃ st, states a !! t = Some st ∧ m_cancelled st = true.

(** A step keeps the marks; it brings a call of [t] on its way if it is a look at a
    timer that is not marked. *)
Definition keeps_calls (a a' : timer_app) : Prop :=
  ∀ t, is_cancelled t a → is_cancelled t a' ∧ calls t a' = calls t a.

Lemma keeps_calls_same a a' :
  in_flight a' = in_flight a → called a' = called a → (∀ t, is_cancelled t a → is_cancelled t a') → keeps_calls a a'.
Proof. intros H1 H2 H3 t Ht. unfold calls. rewrite H1, H2. auto. Qed.
Lemma is_cancelled_insert t u st st' a a' :
  states a' = <[u := st']> (states a) → states a !! u = Some st → (m_cancelled st = true → m_cancelled st' = true) →
  is_cancelled t a → is_cancelled t a'.
Proof.
  intros Hs Hu Hc (st1 & H1 & H2). unfold is_cancelled. rewrite Hs. destruct (decide (t = u)) as [->|].
  - exists st'. rewrite lookup_insert_eq. split; [done|]. apply Hc. congruence.
  - exists st1. by rewrite lookup_insert_ne.
Qed.

Lemma make_keeps_calls now d f b x a u a' :
  (no_object x;; (r ← make_timer_impl now d f b; to_timer x r);; mret tt) a = Done u a' → keeps_calls a a'.
Proof.
  intros (u1 & a1 & [-> Hx]%no_object_inv & H)%bind_done. revert H. unfold make_timer_impl, mbind, comp_bind, get_state.
  destruct (add_timer _ _ _) as [q|e|]; simpl; intros [= _ <-]; [|done|done].
  apply keeps_calls_same; [done..|]. intros t (st & H1 & H2). exists st. simpl. rewrite lookup_insert_ne; [done|].
  intros E. apply (is_fresh (dom (states a))). rewrite E. apply elem_of_dom. by rewrite H1.
Qed.

Lemma run_timer_step_calls o a u a' : run_timer_step o a = Done u a' → keeps_calls a a'.
Proof.
  destruct o as [now d f [e|] x|now d [e|] x|x|x|t|t|x|rhs x|x rhs|x f|t|t|q alive]; simpl.
  - by apply make_keeps_calls.
  - intros (u1 & a1 & [-> _]%no_object_inv & [= _ <-])%bind_done. done.
  - by apply make_keeps_calls.
  - intros (u1 & a1 & [-> _]%no_object_inv & [= _ <-])%bind_done. done.
  - by intros (u1 & a1 & [-> Hx]%no_object_inv & [= _ <-])%bind_done.
  - intros (o & a1 & (o' & a2 & [-> Hx]%timer_object_inv & H)%bind_done & [= _ <-])%bind_done. by destruct o'; injection H as _ <-.
  - unfold cancel_mark. rewrite get_state_bind. case_decide; [|done].
    intros (st & a1 & [-> Hst]%state_of_inv & [= _ <-])%bind_done. apply keeps_calls_same; [done..|]. intros t'. by eapply is_cancelled_insert.
  - unfold cancel_remove. rewrite get_state_bind. case_decide; [|done]. by destruct (queue_alive a); intros [= _ <-].
  - intros (o & a1 & [-> Hx]%timer_object_inv & H)%bind_done. destruct o; [done|]. by injection H as _ <-.
  - by intros (u1 & a1 & [-> Hx]%no_object_inv & (o & a2 & [-> Hr]%timer_object_inv & [= _ <-])%bind_done)%bind_done.
  - case_decide as Hne; [by intros [= _ <-]|]. intros (o & a1 & [-> Hx]%timer_object_inv & H)%bind_done. destruct o; [done|].
    revert H. by intros (o' & a3 & [-> Hr]%timer_object_inv & [= _ <-])%bind_done.
  - intros (r & a1 & H1 & [= _ <-])%bind_done. revert H1. unfold set_frequency. intros (o & a2 & [-> Hx]%timer_object_inv & H1)%bind_done.
    destruct o as [t|]; [|by injection H1 as _ <-]. revert H1. intros (st & a3 & [-> Hst]%state_of_inv & [= _ <-])%bind_done.
    apply keeps_calls_same; [done..|]. intros t'. by eapply is_cancelled_insert.
  - intros (b & a1 & (st & a2 & [-> Hst]%state_of_inv & H)%bind_done & [= _ <-])%bind_done.
    destruct (m_cancelled st) eqn:Hc; injection H as _ <-; [done|]. intros t' (st' & H1 & H2). split; [by exists st'|].
    unfold calls. simpl. rewrite occ_cons, occ_singleton, decide_False; [done|]. intros ->. congruence.
  - unfold execute_call. rewrite get_state_bind. destruct (list_find _ _) as [[i t1]|] eqn:Ef; [|done].
    intros [= _ <-]. apply list_find_Some in Ef as (Hl & -> & _). intros t' Ht'. split; [done|]. unfold calls. simpl.
    rewrite occ_app. apply delete_Permutation in Hl. rewrite (proj2 (occ_perm _ _) Hl t'), (occ_cons t' t (delete _ _)). lia.
  - by intros [= _ <-].
Qed.

Definition no_timers_yet : timer_app := TimerApp tq_init true ∅ ∅ ∅ ∅ [] [].

Lemma run_timer_steps_owned os u a0 a : timers_owned a0 → run_timer_steps os a0 = Done u a → timers_owned a.
Proof.
  revert a0. induction os as [|o os IH]; intros a0 Hi; simpl; [by intros [= _ <-]|].
  intros (u1 & a1 & H1 & H2)%bind_done. eapply IH; [|exact H2]. by eapply run_timer_step_owned.
Qed.
Lemma run_timer_steps_calls os u a0 a : run_timer_steps os a0 = Done u a → keeps_calls a0 a.
Proof.
  revert a0. induction os as [|o os IH]; intros a0; simpl; [by intros [= _ <-]|].
  intros (u1 & a1 & H1%run_timer_step_calls & H2%IH)%bind_done t Ht. destruct (H1 t Ht) as [Hc <-]. by apply H2.
Qed.
Lemma no_timers_yet_owned : timers_owned no_timers_yet.
Proof.
  split; simpl; [intros x t; by rewrite lookup_empty|intros x y t; by rewrite lookup_empty|by intros t ?%not_elem_of_empty|
    intros t st; by rewrite lookup_empty].
Qed.

(** What [cancel] does when it is not interrupted. *)
Lemma cancel_done a x t :
  timers_owned a → objects a !! x = Some (Some t) →
  ∃ a', cancel x a = Done tt a' ∧ objects a' = <[x := None]> (objects a) ∧ is_cancelled t a' ∧
    m_request_queue (queue a') = m_request_queue (queue a) ++ (if queue_alive a then [(t, request_remove)] else []).
Proof.
  intros Hi Hx. destruct (to_live _ Hi x t Hx) as (_ & st & Hst & Hc).
  unfold cancel, cancel_detach, timer_object, mbind, comp_bind, get_state. rewrite Hx. simpl.
  unfold cancel_mark, mbind, comp_bind, get_state. simpl. rewrite decide_True by set_solver.
  unfold state_of, mbind, comp_bind, get_state. simpl. rewrite Hst. simpl.
  unfold cancel_remove, mbind, comp_bind, get_state. simpl. rewrite decide_True by set_solver.
  destruct (queue_alive a); eexists; (split; [reflexivity|]); simpl; rewrite ?app_nil_r;
    (split_and!; [done|exists (cancel_flag st); simpl; by rewrite lookup_insert_eq|done]).
Qed.

(** C32: however the threads of an application that make, cancel, move, assign and destroy timer
    objects interleave with those that execute timers, a timer is not cancelled exactly while one timer
    object owns it or a call of [cancel] has taken it and not yet marked it.  An execution
    that looks at the timer then is called, and one that looks at it later is not: from
    then on nothing but the executions that looked before is called.  A
    [cancel] that returns has marked the timer and asked the queue, if there is one, to
    remove it, and operations on an empty object throw [empty_timer]. *)
Theorem timer_called_while_owned os a :
  run_timer_steps os no_timers_yet = Done tt a →
  (∀ t st, states a !! t = Some st →
     (m_cancelled st = false ↔ t ∈ detached a ∨ ∃ x, objects a !! x = Some (Some t) ∧ ∀ y, objects a !! y = Some (Some t) → y = x) ∧
     ∃ a', execute_check t a = Done (negb (m_cancelled st)) a' ∧
       in_flight a' = (if m_cancelled st then [] else [t]) ++ in_flight a ∧ called a' = called a) ∧
  (∀ t os' a', is_cancelled t a → run_timer_steps os' a = Done tt a' → is_cancelled t a' ∧ calls t a' = calls t a) ∧
  (∀ x t, objects a !! x = Some (Some t) → ∃ a', cancel x a = Done tt a' ∧ objects a' = <[x := None]> (objects a) ∧ is_cancelled t a' ∧
     m_request_queue (queue a') = m_request_queue (queue a) ++ (if queue_alive a then [(t, request_remove)] else [])) ∧
  (∀ x f, objects a !! x = Some None → get_due_time x a = Done (Throw empty_timer) a ∧
     get_frequency x a = Done (Throw empty_timer) a ∧ set_frequency x f a = Done (Throw empty_timer) a).
Proof.
  intros Hi%run_timer_steps_owned; [|apply no_timers_yet_owned]. split_and!.
  - intros t st Hst. split.
    + split.
      * intros Hc. destruct (to_owner _ Hi t st Hst Hc) as [?|[x Hx]]; [by left|]. right. exists x. split; [done|]. intros y Hy. by eapply to_unique.
      * intros [(st' & ? & ?)%(to_detached _ Hi)|(x & (_ & st' & ? & ?)%(to_live _ Hi) & _)]; congruence.
    + unfold execute_check. rewrite (comp_bind_done _ _ _ _ _ (state_of_done _ _ _ Hst)). by destruct (m_cancelled st); eexists.
  - intros t os' a' Ht Hr%run_timer_steps_calls. by apply Hr.
  - intros x t Hx. by apply cancel_done.
  - intros x f Hx. unfold get_due_time, get_frequency, with_timer, set_frequency, mbind, comp_bind.
    by rewrite (timer_object_done _ _ _ Hx).
Qed.

(** A timer that is checked, taken from its object by [cancel], checked again, marked, and
    checked once more: two executions are called, both after it was cancelled. *)
Definition race_steps : list timer_step := [to_make 0 100 50 (Some 1) 7; to_move 7 8; to_check 0; to_detach 8; to_check 0; to_mark 0].
Definition later_steps : list timer_step := [to_check 0; to_call 0; to_remove 0; to_call 0; to_free 8].
Definition after (os : list timer_step) (a : timer_app) : timer_app :=
  match run_timer_steps os a with Done _ a' => a' | _ => a end.
Lemma timer_called_while_owned_witness :
  run_timer_steps race_steps no_timers_yet = Done tt (after race_steps no_timers_yet) ∧
  get_due_time 7 (after race_steps no_timers_yet) = Done (Throw empty_timer) (after race_steps no_timers_yet) ∧
  calls 0 (after later_steps (after race_steps no_timers_yet)) = 2 ∧ called (after later_steps (after race_steps no_timers_yet)) = [0; 0].
Proof.
  assert (run_timer_steps race_steps no_timers_yet = Done tt (after race_steps no_timers_yet)) as H0 by (vm_compute; reflexivity).
  destruct (timer_called_while_owned race_steps _ H0) as (_ & H1 & _ & H2).
  assert (objects (after race_steps no_timers_yet) !! 7 = Some None) as H7 by (vm_compute; reflexivity).
  split; [exact H0|]. split; [exact (proj1 (H2 7 0%Z H7))|]. split; [|vm_compute; reflexivity].
  assert (calls 0 (after race_steps no_timers_yet) = 2) as Hc by (vm_compute; reflexivity).
  refine (eq_trans (proj2 (H1 0 later_steps (after later_steps (after race_steps no_timers_yet)) _ _)) Hc); [|vm_compute; reflexivity].
  exists (TimerState 100 50 false true). split; vm_compute; reflexivity.
Defined.

(** ** [make_delay_object] *)

Inductive delayed : Type := until_fired (t : nat) | delay_interrupted (e : exn).

(** [delay_object_awaitable::await_suspend]: a one-shot timer whose callable is the
    functor that resumes the coroutine.  When the queue throws, the functor is
    destroyed with the timer, and the coroutine goes on with [broken_task]. *)
Definition delay_await_suspend (now due_time : Z) : comp timer_app delayed :=
  r ← make_timer_impl now due_time 0 true;
  mret (match r with Ret t => until_fired t | _ => delay_interrupted broken_task end).
Definition make_delay_object (executor : option nat) (now due_time : Z) : comp timer_app (outcome delayed) :=
  match executor with
  | None => mret (Throw invalid_argument)
  | Some _ => r ← delay_await_suspend now due_time; mret (Ret r)
  end.

(** A delay is a timer that is added to the queue and never cancelled, or is
    interrupted at once when the queue has been shut down. *)
Lemma delay_object_waits now due_time a :
  ∃ a', delay_await_suspend now due_time a =
    Done (if m_abort (queue a) then delay_interrupted broken_task else until_fired (fresh (dom (states a)))) a' ∧
    if m_abort (queue a) then a' = a
    else (fresh (dom (states a)), request_add) ∈ m_request_queue (queue a') ∧
         ∃ st, states a' !! fresh (dom (states a)) = Some st ∧ m_cancelled st = false ∧ m_is_oneshot st = true.
Proof.
  unfold delay_await_suspend, make_timer_impl, add_timer, mbind, comp_bind, get_state. destruct (m_abort (queue a)); [by eexists|].
  eexists. split; [reflexivity|]. split; [set_solver|]. eexists. split; [apply lookup_insert_eq|done].
Qed.
