(* ===== verification/Task.v ===== *)
(** * [task]: a move-only callable in a cache line

    A task holds a callable in a buffer of 56 bytes, or a pointer to it, and a
    pointer to the table of the functions of its type.  The model keeps the
    tasks of a program at their addresses, the heap, and a log of what happened
    to the callables. *)

From S2P Require Import Prelude Conc.
From stdpp Require Import options.

(** ** Callables and their tables *)

(** The two types [task.cpp] knows, and those of the application. *)
Inductive callable_kind : Type :=
  | coroutine_handle_functor
  | await_via_functor
  | user_callable.

#[global] Instance callable_kind_eq_dec : EqDecision callable_kind.
Proof. solve_decision. Defined.

(** A callable object and what the type traits say of its type; [throws] tells
    whether this call will throw. *)
Record callable : Type := Callable {
  c_id : nat;
  c_kind : callable_kind;
  c_size : nat;
  c_nothrow_move : bool;
  c_trivial_copy : bool;
  c_trivial_dtor : bool;
  c_throws : bool }.

Definition total_size : nat := 64.
Definition buffer_size : nat := total_size - 8.

(** [callable_vtable::is_inlinable] *)
Definition is_inlinable (c : callable) : bool :=
  c_nothrow_move c && bool_decide (c_size c ≤ buffer_size).

(** [make_vtable]: whether [move_destroy_fn], respectively [destroy_fn], is
    null. *)
Definition move_destroy_null (c : callable) : bool :=
  c_trivial_copy c && c_trivial_dtor c && is_inlinable c.
Definition destroy_null (c : callable) : bool := c_trivial_dtor c && is_inlinable c.

(** ** Memory *)

(** [m_buffer] holds nothing, an object, or a pointer (null after a move).
    [m_vtable] is null or the table of the type of a callable; the table of an
    object's type is given by the object itself. *)
Inductive buffer : Type :=
  | buffer_raw
  | buffer_inline (c : callable)
  | buffer_allocated (p : option nat).

Record task : Type := Task { m_buffer : buffer; m_vtable : option callable }.

Inductive event : Type :=
  | executed (c : callable)
  | destroyed (c : callable).

Definition event_callable (e : event) : callable :=
  match e with executed c => c | destroyed c => c end.

Record tmem : Type := TMem {
  t_cells : gmap nat task;
  t_heap : gmap nat callable;
  t_next : nat;
  t_events : list event }.

Definition mem_init : tmem := TMem ∅ ∅ 0 [].

Definition load_task (l : nat) : comp tmem task := λ m,
  match t_cells m !! l with Some t => Done t m | None => Fault use_after_free end.
Definition store_task (l : nat) (t : task) : comp tmem unit := λ m,
  Done tt (TMem (<[l := t]> (t_cells m)) (t_heap m) (t_next m) (t_events m)).
Definition free_task (l : nat) : comp tmem unit := λ m,
  Done tt (TMem (delete l (t_cells m)) (t_heap m) (t_next m) (t_events m)).
Definition log (e : event) : comp tmem unit := λ m,
  Done tt (TMem (t_cells m) (t_heap m) (t_next m) (e :: t_events m)).
Definition heap_new (c : callable) : comp tmem nat := λ m,
  Done (t_next m) (TMem (t_cells m) (<[t_next m := c]> (t_heap m)) (S (t_next m)) (t_events m)).
Definition heap_delete (p : nat) : comp tmem unit := λ m,
  match t_heap m !! p with
  | Some c => Done tt (TMem (t_cells m) (delete p (t_heap m)) (t_next m) (destroyed c :: t_events m))
  | None => Fault use_after_free
  end.
(** [delete] after the call: the object was executed, which the log has. *)
Definition heap_release (p : nat) : comp tmem unit := λ m,
  match t_heap m !! p with
  | Some c => Done tt (TMem (t_cells m) (delete p (t_heap m)) (t_next m) (t_events m))
  | None => Fault use_after_free
  end.
Definition heap_get (p : nat) : comp tmem callable := λ m,
  match t_heap m !! p with Some c => Done c m | None => Fault use_after_free end.

(** Reinterpreting the buffer as what it does not hold is undefined. *)
Definition inline_ptr (b : buffer) : comp tmem callable :=
  match b with buffer_inline c => mret c | _ => abort_with use_after_free end.
Definition allocated_ptr (b : buffer) : comp tmem nat :=
  match b with buffer_allocated (Some p) => mret p | _ => abort_with null_deref end.

(** ** [callable_vtable] *)

(** [build]: in place, or on the heap. *)
Definition vtable_build (c : callable) : comp tmem buffer :=
  if is_inlinable c then mret (buffer_inline c)
  else p ← heap_new c; mret (buffer_allocated (Some p)).

(** [move_destroy]: the buffers of destination and source afterwards. *)
Definition move_destroy (vt : callable) (src : buffer) : comp tmem (buffer * buffer) :=
  if is_inlinable vt then c ← inline_ptr src; mret (buffer_inline c, buffer_raw)
  else p ← allocated_ptr src; mret (buffer_allocated (Some p), buffer_allocated None).

(** [execute_destroy]: an exception leaves it before the callable is destroyed. *)
Definition execute_destroy (vt : callable) (target : buffer) : comp tmem (outcome unit) :=
  if is_inlinable vt then
    c ← inline_ptr target; log (executed c);;
    mret (if c_throws c then Throw (user_exn (c_id c)) else Ret tt)
  else
    p ← allocated_ptr target; c ← heap_get p; log (executed c);;
    if c_throws c then mret (Throw (user_exn (c_id c))) else heap_release p;; mret (Ret tt).

Definition destroy (vt : callable) (target : buffer) : comp tmem unit :=
  if is_inlinable vt then c ← inline_ptr target; log (destroyed c)
  else p ← allocated_ptr target; heap_delete p.

(** ** [task] *)

Definition empty_task : task := Task buffer_raw None.

(** [task(callable)] *)
Definition task_construct (l : nat) (c : callable) : comp tmem unit :=
  b ← vtable_build c; store_task l (Task b (Some c)).

Definition task_default (l : nat) : comp tmem unit := store_task l empty_task.

(** [build(task&&)] *)
Definition task_build (dst src : nat) : comp tmem unit :=
  rhs ← load_task src;
  store_task src (Task (m_buffer rhs) None);;
  match m_vtable rhs with
  | None => store_task dst (Task buffer_raw None)
  | Some vt =>
      if decide (c_kind vt ≠ user_callable) then
        '(d, s) ← move_destroy vt (m_buffer rhs);
        store_task src (Task s None);; store_task dst (Task d (Some vt))
      else if move_destroy_null vt then
        store_task dst (Task (m_buffer rhs) (Some vt))
      else
        '(d, s) ← move_destroy vt (m_buffer rhs);
        store_task src (Task s None);; store_task dst (Task d (Some vt))
  end.

(** [clear] *)
Definition task_clear (l : nat) : comp tmem unit :=
  t ← load_task l;
  match m_vtable t with
  | None => mret tt
  | Some vt =>
      store_task l (Task (m_buffer t) None);;
      if decide (c_kind vt ≠ user_callable) then destroy vt (m_buffer t)
      else if destroy_null vt then
        (* the end of a trivially destructible object's lifetime *)
        c ← inline_ptr (m_buffer t); log (destroyed c)
      else destroy vt (m_buffer t)
  end.

(** [operator()] *)
Definition task_call (l : nat) : comp tmem (outcome unit) :=
  t ← load_task l;
  store_task l (Task (m_buffer t) None);;
  match m_vtable t with
  | None => mret (Ret tt)
  | Some vt => execute_destroy vt (m_buffer t)
  end.

(** [operator=(task&&)] *)
Definition task_move_assign (dst src : nat) : comp tmem unit :=
  if decide (dst = src) then mret tt
  else task_clear dst;; task_build dst src.

(** [~task] *)
Definition task_destruct (l : nat) : comp tmem unit := task_clear l;; free_task l.

(** What a program can do with tasks: construct one at a free address, move
    construct at a free address, call, assign, destroy. *)
Inductive task_op : Type :=
  | op_construct (l : nat) (c : callable)
  | op_default (l : nat)
  | op_move (dst src : nat)
  | op_call (l : nat)
  | op_assign (dst src : nat)
  | op_clear (l : nat)
  | op_destruct (l : nat).

Definition run_task_op (o : task_op) : comp tmem unit :=
  match o with
  | op_construct l c => task_construct l c
  | op_default l => task_default l
  | op_move dst src => task_build dst src
  | op_call l => _ ← task_call l; mret tt
  | op_assign dst src => task_move_assign dst src
  | op_clear l => task_clear l
  | op_destruct l => task_destruct l
  end.

Fixpoint run_task_ops (os : list task_op) : comp tmem unit :=
  match os with [] => mret tt | o :: os => run_task_op o;; run_task_ops os end.

(** Addresses are used as C++ allows it. *)
Definition op_ok (m : tmem) (o : task_op) : Prop :=
  match o with
  | op_construct l _ | op_default l => t_cells m !! l = None
  | op_move dst src => t_cells m !! dst = None ∧ is_Some (t_cells m !! src)
  | op_assign dst src => is_Some (t_cells m !! dst) ∧ is_Some (t_cells m !! src)
  | op_call l | op_clear l | op_destruct l => is_Some (t_cells m !! l)
  end.

Fixpoint ops_ok (m : tmem) (os : list task_op) : Prop :=
  match os with
  | [] => True
  | o :: os => op_ok m o ∧ ∀ m', run_task_op o m = Done tt m' → ops_ok m' os
  end.

(** The callables that the operations construct. *)
Definition constructed (os : list task_op) : list callable :=
  omap (λ o, match o with op_construct _ c => Some c | _ => None end) os.

(** ** Invariant *)

(** The callables that some task still holds. *)
Definition held (t : task) : list callable := option_list (m_vtable t).
Definition live (cs : gmap nat task) : list callable := (map_to_list cs).*2 ≫= held.

(** The heap pointer a task owns. *)
Definition owned (t : task) : option nat :=
  match m_vtable t, m_buffer t with
  | Some _, buffer_allocated p => p
  | _, _ => None
  end.

(** The buffer is what the table says. *)
Definition cell_ok (h : gmap nat callable) (t : task) : Prop :=
  ∀ vt, m_vtable t = Some vt →
    if is_inlinable vt then m_buffer t = buffer_inline vt
    else ∃ p, m_buffer t = buffer_allocated (Some p) ∧ h !! p = Some vt.

Record mem_ok (m : tmem) : Prop := MemOk {
  ok_cell : ∀ l t, t_cells m !! l = Some t → cell_ok (t_heap m) t;
  ok_owned : ∀ l l' t t' p, t_cells m !! l = Some t → t_cells m !! l' = Some t' →
    owned t = Some p → owned t' = Some p → l = l';
  ok_next : ∀ p, is_Some (t_heap m !! p) → p < t_next m;
  ok_leak : ∀ p c, t_heap m !! p = Some c →
    (∃ l t, t_cells m !! l = Some t ∧ owned t = Some p) ∨ (c_throws c = true ∧ executed c ∈ t_events m) }.

Definition accounted (m : tmem) : list callable := live (t_cells m) ++ (event_callable <$> t_events m).

Lemma live_insert cs l t : live (<[l := t]> cs) ≡ₚ held t ++ live (delete l cs).
Proof.
  unfold live. rewrite <- insert_delete_eq, map_to_list_insert by apply lookup_delete_eq.
  csimpl. done.
Qed.

Lemma live_delete cs l t : cs !! l = Some t → live cs ≡ₚ held t ++ live (delete l cs).
Proof. intros Hl. rewrite <- (insert_id cs l t) at 1 by done. apply live_insert. Qed.

Lemma live_delete_none cs l : cs !! l = None → live (delete l cs) = live cs.
Proof. intros Hl. by rewrite delete_id. Qed.

Lemma cell_ok_dead h b : cell_ok h (Task b None).
Proof. by intros vt. Qed.

Lemma owned_dead b : owned (Task b None) = None.
Proof. done. Qed.

(** What becomes of the heap when the callable of a task is gone. *)
Definition released (t : task) (h : gmap nat callable) : gmap nat callable :=
  match owned t with Some p => delete p h | None => h end.

(** A task gives its callable up: it was executed, or destroyed. *)
Lemma mem_ok_release m l t b e :
  mem_ok m → t_cells m !! l = Some t →
  mem_ok (TMem (<[l := Task b None]> (t_cells m)) (released t (t_heap m)) (t_next m) (e :: t_events m)).
Proof.
  intros [Hc Ho Hn Hk] Hl.
  assert (∀ l' t' p, t_cells m !! l' = Some t' → l' ≠ l → owned t' = Some p →
    released t (t_heap m) !! p = t_heap m !! p) as Hkeep.
  { intros l' t' p Hl' Hne Hp. unfold released. destruct (owned t) as [q|] eqn:Hq; [|done].
    rewrite lookup_delete_ne; [done|]. intros ->. eauto. }
  assert (∀ p c, released t (t_heap m) !! p = Some c → t_heap m !! p = Some c ∧ owned t ≠ Some p) as Hsub.
  { intros p c. unfold released. destruct (owned t) as [q|] eqn:Hq; [|done].
    intros [? ?]%lookup_delete_Some. naive_solver. }
  split; simpl.
  - intros l' t' [[<- <-]|[Hne Hl']]%lookup_insert_Some; [apply cell_ok_dead|].
    intros vt Hvt. specialize (Hc _ _ Hl' vt Hvt). case_match; [done|]. destruct Hc as (p & Hb & Hp).
    exists p. split; [done|]. rewrite (Hkeep l' t'); [done..|]. unfold owned. by rewrite Hvt, Hb.
  - intros l1 l2 t1 t2 p [[<- <-]|[? ?]]%lookup_insert_Some [[<- <-]|[? ?]]%lookup_insert_Some; try done. eauto.
  - intros p [c [? _]%Hsub]. apply Hn. eauto.
  - intros p c [Hp Hne]%Hsub. destruct (Hk p c Hp) as [(l' & t' & Hl' & Hp')|?]; [|right; set_solver].
    left. exists l', t'. rewrite lookup_insert_ne; [done|]. intros ->. congruence.
Qed.

(** The callable was executed and threw: its memory stays. *)
Lemma mem_ok_leak m l t b c :
  mem_ok m → t_cells m !! l = Some t → m_vtable t = Some c → c_throws c = true →
  mem_ok (TMem (<[l := Task b None]> (t_cells m)) (t_heap m) (t_next m) (executed c :: t_events m)).
Proof.
  intros [Hc Ho Hn Hk] Hl Hvt Hthrow. split; simpl; [| |done|].
  - intros l' t' [[<- <-]|[Hne Hl']]%lookup_insert_Some; [apply cell_ok_dead|eauto].
  - intros l1 l2 t1 t2 p [[<- <-]|[? ?]]%lookup_insert_Some [[<- <-]|[? ?]]%lookup_insert_Some; try done. eauto.
  - intros p c' Hp. destruct (Hk p c' Hp) as [(l' & t' & Hl' & Hp')|?]; [|right; set_solver].
    destruct (decide (l' = l)) as [->|]; [|left; exists l', t'; by rewrite lookup_insert_ne].
    right. simplify_eq. specialize (Hc _ _ Hl _ Hvt). unfold owned in Hp'. rewrite Hvt in Hp'.
    destruct (is_inlinable c); [by rewrite Hc in Hp'|]. destruct Hc as (q & Hb & Hq). rewrite Hb in Hp'. simplify_eq. set_solver.
Qed.

(** A callable moves from one task to another, which held none. *)
Lemma mem_ok_transfer m dst src t b t0 :
  mem_ok m → t_cells m !! src = Some t → dst ≠ src →
  (t_cells m !! dst = None ∨ t_cells m !! dst = Some t0 ∧ m_vtable t0 = None) →
  mem_ok (TMem (<[dst := t]> (<[src := Task b None]> (t_cells m))) (t_heap m) (t_next m) (t_events m)).
Proof.
  intros [Hc Ho Hn Hk] Hsrc Hne Hdst.
  assert (∀ t' p, t_cells m !! dst = Some t' → owned t' ≠ Some p) as Hfree.
  { intros t' p Ht' Hp. destruct Hdst as [?|[? Hvt]]; simplify_eq. unfold owned in Hp. by rewrite Hvt in Hp. }
  split; simpl; [| |done|].
  - intros l' t' [[<- <-]|[? [[<- <-]|[? ?]]%lookup_insert_Some]]%lookup_insert_Some; [by eauto|apply cell_ok_dead|eauto].
  - intros l1 l2 t1 t2 p [[<- <-]|[? [[<- <-]|[? ?]]%lookup_insert_Some]]%lookup_insert_Some
      [[<- <-]|[? [[<- <-]|[? ?]]%lookup_insert_Some]]%lookup_insert_Some ? ?; try done; try eauto;
      exfalso; naive_solver.
  - intros p c Hp. destruct (Hk p c Hp) as [(l' & t' & Hl' & Hp')|?]; [|by right]. left.
    destruct (decide (l' = src)) as [->|].
    + exists dst, t. rewrite lookup_insert_eq. naive_solver.
    + exists l', t'. rewrite !lookup_insert_ne; [done|done|]. intros ->. by eapply Hfree.
Qed.

(** A new callable in a fresh task. *)
Lemma mem_ok_inline m l c :
  mem_ok m → t_cells m !! l = None → is_inlinable c = true →
  mem_ok (TMem (<[l := Task (buffer_inline c) (Some c)]> (t_cells m)) (t_heap m) (t_next m) (t_events m)).
Proof.
  intros [Hc Ho Hn Hk] Hl Hi. split; simpl; [| |done|].
  - intros l' t' [[<- <-]|[Hne Hl']]%lookup_insert_Some; [|eauto]. intros vt ?; simplify_eq/=. by rewrite Hi.
  - intros l1 l2 t1 t2 p [[<- <-]|[? ?]]%lookup_insert_Some [[<- <-]|[? ?]]%lookup_insert_Some; try done. eauto.
  - intros p c' Hp. destruct (Hk p c' Hp) as [(l' & t' & Hl' & Hp')|?]; [|by right]. left.
    exists l', t'. rewrite lookup_insert_ne; [done|]. naive_solver.
Qed.

Lemma mem_ok_alloc m l c :
  mem_ok m → t_cells m !! l = None → is_inlinable c = false →
  mem_ok (TMem (<[l := Task (buffer_allocated (Some (t_next m))) (Some c)]> (t_cells m))
            (<[t_next m := c]> (t_heap m)) (S (t_next m)) (t_events m)).
Proof.
  intros [Hc Ho Hn Hk] Hl Hi.
  assert (∀ l' t', t_cells m !! l' = Some t' → owned t' ≠ Some (t_next m)) as Hfresh.
  { intros l' t' Hl' Hp. unfold owned in Hp. destruct (m_vtable t') as [vt|] eqn:Hvt; [|done].
    specialize (Hc _ _ Hl' _ Hvt). destruct (is_inlinable vt); [by rewrite Hc in Hp|].
    destruct Hc as (p & Hb & Hp'). rewrite Hb in Hp. simplify_eq.
    specialize (Hn (t_next m) ltac:(eauto)). lia. }
  split; simpl.
  - intros l' t' [[<- <-]|[Hne Hl']]%lookup_insert_Some.
    + intros vt ?; simplify_eq/=. rewrite Hi. eexists; split; [done|]. by rewrite lookup_insert_eq.
    + intros vt Hvt. pose proof (Hfresh _ _ Hl') as Hp'. unfold owned in Hp'. rewrite Hvt in Hp'.
      specialize (Hc _ _ Hl' vt Hvt). destruct (is_inlinable vt); [done|]. destruct Hc as (p & Hb & Hp).
      exists p. split; [done|]. rewrite lookup_insert_ne; [done|]. rewrite Hb in Hp'. congruence.
  - intros l1 l2 t1 t2 p [[<- <-]|[? ?]]%lookup_insert_Some [[<- <-]|[? ?]]%lookup_insert_Some Hp1 Hp2;
      eauto; exfalso; [injection Hp1 as <-|injection Hp2 as <-]; by eapply Hfresh.
  - intros p [c' [[<- <-]|[_ Hp]]%lookup_insert_Some]; [lia|]. specialize (Hn p ltac:(eauto)). lia.
  - intros p c' [[<- <-]|[_ Hp]]%lookup_insert_Some.
    + left. eexists l, _. by rewrite lookup_insert_eq.
    + destruct (Hk p c' Hp) as [(l' & t' & Hl' & Hp')|?]; [|by right].
      left. exists l', t'. rewrite lookup_insert_ne; [done|]. congruence.
Qed.

(** A cell without a callable may be written, or freed. *)
Lemma mem_ok_dead m l b :
  mem_ok m → (∀ t, t_cells m !! l = Some t → m_vtable t = None) →
  mem_ok (TMem (<[l := Task b None]> (t_cells m)) (t_heap m) (t_next m) (t_events m)).
Proof.
  intros [Hc Ho Hn Hk] Hl. split; simpl; [| |done|].
  - intros l' t' [[<- <-]|[Hne Hl']]%lookup_insert_Some; [apply cell_ok_dead|eauto].
  - intros l1 l2 t1 t2 p [[<- <-]|[? ?]]%lookup_insert_Some [[<- <-]|[? ?]]%lookup_insert_Some; try done. eauto.
  - intros p c Hp. destruct (Hk p c Hp) as [(l' & t' & Hl' & Hp')|?]; [|by right]. left.
    exists l', t'. rewrite lookup_insert_ne; [done|]. intros ->. unfold owned in Hp'. by rewrite (Hl _ Hl') in Hp'.
Qed.

Lemma mem_ok_free m l t :
  mem_ok m → t_cells m !! l = Some t → m_vtable t = None →
  mem_ok (TMem (delete l (t_cells m)) (t_heap m) (t_next m) (t_events m)).
Proof.
  intros [Hc Ho Hn Hk] Hl Hvt. split; simpl; [| |done|].
  - intros l' t' [? ?]%lookup_delete_Some. eauto.
  - intros l1 l2 t1 t2 p [? ?]%lookup_delete_Some [? ?]%lookup_delete_Some. eauto.
  - intros p c Hp. destruct (Hk p c Hp) as [(l' & t' & Hl' & Hp')|?]; [|by right]. left.
    exists l', t'. rewrite lookup_delete_ne; [done|]. intros ->. simplify_eq. unfold owned in Hp'. by rewrite Hvt in Hp'.
Qed.

(** ** Operations *)

(** The buffer of a live task, by where its callable is. *)
Lemma live_buffer m l t vt :
  mem_ok m → t_cells m !! l = Some t → m_vtable t = Some vt →
  (is_inlinable vt = true ∧ m_buffer t = buffer_inline vt ∧ owned t = None) ∨
  ∃ p, is_inlinable vt = false ∧ m_buffer t = buffer_allocated (Some p) ∧ owned t = Some p ∧
       t_heap m !! p = Some vt.
Proof.
  intros Hm Hl Hvt. pose proof (ok_cell m Hm l t Hl vt Hvt) as Hc. unfold owned. rewrite Hvt.
  destruct (is_inlinable vt); [left; by rewrite Hc|right].
  destruct Hc as (p & Hb & Hp). exists p. by rewrite Hb.
Qed.

Lemma accounted_dead m l t b e vt h n :
  t_cells m !! l = Some t → m_vtable t = Some vt → event_callable e = vt →
  accounted (TMem (<[l := Task b None]> (t_cells m)) h n (e :: t_events m)) ≡ₚ accounted m.
Proof.
  intros Hl Hvt He. unfold accounted; simpl. rewrite live_insert, (live_delete _ l t Hl).
  unfold held; simpl. rewrite Hvt, He; simpl. by rewrite <- Permutation_middle.
Qed.

Lemma task_clear_spec m l t :
  mem_ok m → t_cells m !! l = Some t →
  ∃ m', task_clear l m = Done tt m' ∧ mem_ok m' ∧
    t_cells m' = <[l := Task (m_buffer t) None]> (t_cells m) ∧ accounted m' ≡ₚ accounted m.
Proof.
  intros Hm Hl. unfold task_clear, mbind, comp_bind, load_task. rewrite Hl.
  destruct (m_vtable t) as [vt|] eqn:Hvt.
  2: { exists m. rewrite insert_id; [done|]. rewrite Hl. destruct t; naive_solver. }
  exists (TMem (<[l := Task (m_buffer t) None]> (t_cells m)) (released t (t_heap m)) (t_next m)
            (destroyed vt :: t_events m)).
  split; [|split_and!; [by apply mem_ok_release|done|by eapply accounted_dead]].
  unfold destroy_null, destroy, inline_ptr, allocated_ptr, heap_delete, released, mbind, comp_bind; simpl.
  destruct (live_buffer m l t vt Hm Hl Hvt) as [(Hi & Hb & Ho)|(p & Hi & Hb & Ho & Hp)];
    rewrite Hi, Hb, Ho; simpl.
  - repeat case_match; done.
  - rewrite andb_false_r. case_decide; simpl; by rewrite Hp.
Qed.

Lemma task_call_spec m l t :
  mem_ok m → t_cells m !! l = Some t →
  ∃ r m', task_call l m = Done r m' ∧ mem_ok m' ∧
    t_cells m' = <[l := Task (m_buffer t) None]> (t_cells m) ∧ accounted m' ≡ₚ accounted m ∧
    t_events m' = (match m_vtable t with Some c => [executed c] | None => [] end) ++ t_events m.
Proof.
  intros Hm Hl. unfold task_call, mbind, comp_bind, load_task. rewrite Hl. simpl.
  destruct (m_vtable t) as [vt|] eqn:Hvt.
  2: { do 2 eexists. split; [done|]. split_and!; [|done| |done].
       - apply mem_ok_dead; [done|]. congruence.
       - unfold accounted; simpl. rewrite insert_id; [done|]. rewrite Hl. destruct t; naive_solver. }
  unfold execute_destroy, inline_ptr, allocated_ptr, heap_get, heap_release, mbind, comp_bind; simpl.
  pose proof (mem_ok_release m l t (m_buffer t) (executed vt) Hm Hl) as Hrel. unfold released in Hrel.
  pose proof (λ h n, accounted_dead m l t (m_buffer t) (executed vt) vt h n Hl Hvt eq_refl) as Hacc.
  destruct (live_buffer m l t vt Hm Hl Hvt) as [(Hi & Hb & Ho)|(p & Hi & Hb & Ho & Hp)];
    rewrite Hi; rewrite Hb in *; rewrite Ho in Hrel; simpl.
  - do 2 eexists. by split.
  - rewrite Hp; simpl. destruct (c_throws vt) eqn:Hthrow.
    + do 2 eexists. split; [done|]. split_and!; [by eapply mem_ok_leak|done|apply Hacc|done].
    + simpl. rewrite Hp. do 2 eexists. by split.
Qed.

(** A destination without a callable. *)
Definition vacant (m : tmem) (l : nat) : Prop := ∀ t, t_cells m !! l = Some t → m_vtable t = None.

Lemma vacant_live m l : vacant m l → live (delete l (t_cells m)) ≡ₚ live (t_cells m).
Proof.
  intros Hv. destruct (t_cells m !! l) as [t|] eqn:Hl; [|by rewrite delete_id].
  rewrite (live_delete (t_cells m) l t Hl). unfold held. by rewrite (Hv _ Hl).
Qed.

Lemma accounted_store m l b h n :
  vacant m l → accounted (TMem (<[l := Task b None]> (t_cells m)) h n (t_events m)) ≡ₚ accounted m.
Proof. intros Hv. unfold accounted; simpl. by rewrite live_insert, vacant_live. Qed.

Lemma accounted_transfer m dst src t b h n :
  t_cells m !! src = Some t → vacant m dst → dst ≠ src →
  accounted (TMem (<[dst := t]> (<[src := Task b None]> (t_cells m))) h n (t_events m)) ≡ₚ accounted m.
Proof.
  intros Hs Hv Hne. unfold accounted; simpl.
  rewrite live_insert, delete_insert_ne, live_insert by done. simpl.
  rewrite <- (vacant_live m dst Hv), (live_delete (delete dst (t_cells m)) src t); [done|].
  by rewrite lookup_delete_ne.
Qed.

Lemma task_build_spec m dst src t :
  mem_ok m → t_cells m !! src = Some t → vacant m dst → dst ≠ src →
  ∃ m', task_build dst src m = Done tt m' ∧ mem_ok m' ∧ accounted m' ≡ₚ accounted m ∧
    (∃ t', t_cells m' !! dst = Some t' ∧ m_vtable t' = m_vtable t) ∧
    (∃ t', t_cells m' !! src = Some t' ∧ m_vtable t' = None).
Proof.
  intros Hm Hs Hv Hne. unfold task_build, mbind, comp_bind, load_task. rewrite Hs; simpl.
  assert (∀ t', <[dst := t']> (<[src := t']> (t_cells m)) !! dst = Some t') as Hd.
  { intros. by rewrite lookup_insert_eq. }
  destruct (m_vtable t) as [vt|] eqn:Hvt.
  - assert (∃ b, m_buffer t = b ∧ t = Task b (Some vt)) as (bt & Hbt & Ht) by (destruct t; naive_solver).
    assert (t_cells m !! dst = None ∨ ∃ t0, t_cells m !! dst = Some t0 ∧ m_vtable t0 = None) as Hdst.
    { destruct (t_cells m !! dst) as [t0|] eqn:Hd0; [right|by left]. exists t0. auto. }
    assert (∀ b, let m' := TMem (<[dst:=t]> (<[src:=Task b None]> (t_cells m))) (t_heap m) (t_next m) (t_events m) in
      mem_ok m' ∧ accounted m' ≡ₚ accounted m ∧
      (∃ t', t_cells m' !! dst = Some t' ∧ m_vtable t' = Some vt) ∧
      (∃ t', t_cells m' !! src = Some t' ∧ m_vtable t' = None)) as Hgoal.
    { intros b m'. split_and!.
      - destruct Hdst as [?|(t0 & ? & ?)]; [eapply (mem_ok_transfer m dst src t b empty_task)|eapply (mem_ok_transfer m dst src t b t0)]; auto.
      - by eapply accounted_transfer.
      - exists t. simpl. by rewrite lookup_insert_eq.
      - exists (Task b None). simpl. by rewrite lookup_insert_ne, lookup_insert_eq. }
    rewrite Hbt in *. subst t. simpl in *. clear Hbt.
    unfold move_destroy, inline_ptr, allocated_ptr, move_destroy_null, mbind, comp_bind; simpl.
    destruct (live_buffer m src _ vt Hm Hs eq_refl) as [(Hi & Hb & Ho)|(p & Hi & Hb & Ho & Hp)];
      simpl in Hb; subst bt; rewrite Hi, ?andb_true_r, ?andb_false_r; simpl.
    + destruct (decide (c_kind vt ≠ user_callable)); simpl; [|destruct (c_trivial_copy vt && c_trivial_dtor vt); simpl];
        eexists; (split; [done|]); rewrite ?insert_insert_eq; apply Hgoal.
    + destruct (decide (c_kind vt ≠ user_callable)); simpl;
        eexists; (split; [done|]); rewrite ?insert_insert_eq; apply Hgoal.
  - assert (<[src := Task (m_buffer t) None]> (t_cells m) = t_cells m) as Hsame.
    { rewrite insert_id; [done|]. rewrite Hs. destruct t; naive_solver. }
    rewrite Hsame. eexists. split; [done|]. split_and!.
    + by apply (mem_ok_dead m).
    + by apply (accounted_store m).
    + eexists. simpl. by rewrite lookup_insert_eq.
    + exists t. simpl. by rewrite lookup_insert_ne.
Qed.

(** Every operation succeeds, keeps the invariant, and loses no callable. *)
Lemma run_task_op_spec m o :
  mem_ok m → op_ok m o →
  ∃ m', run_task_op o m = Done tt m' ∧ mem_ok m' ∧ accounted m' ≡ₚ constructed [o] ++ accounted m.
Proof.
  intros Hm Hop. destruct o as [l c|l|dst src|l|dst src|l|l]; simpl in Hop.
  - unfold run_task_op, task_construct, vtable_build, mbind, comp_bind; simpl.
    assert (∀ b h n, accounted (TMem (<[l := Task b (Some c)]> (t_cells m)) h n (t_events m)) ≡ₚ c :: accounted m) as Hacc.
    { intros. unfold accounted; simpl. by rewrite live_insert, delete_id by done. }
    destruct (is_inlinable c) eqn:Hi; (eexists; split; [done|]); (split; [|apply Hacc]).
    + by apply (mem_ok_inline m).
    + by apply (mem_ok_alloc m).
  - eexists. split; [done|]. split; [apply (mem_ok_dead m)|apply (accounted_store m)]; try done; intros t; congruence.
  - destruct Hop as [Hd [t Ht]]. destruct (task_build_spec m dst src t) as (m' & ? & ? & ? & _); try done.
    + intros t'; congruence. + congruence.
    + by exists m'.
  - destruct Hop as [t Ht]. destruct (task_call_spec m l t Hm Ht) as (r & m' & Hc & ? & _ & ? & _).
    exists m'. simpl. by rewrite (comp_bind_done _ _ _ _ _ Hc).
  - destruct Hop as [[td Hd] [ts Hs]]. simpl. unfold task_move_assign. case_decide as Hne; [by exists m|].
    destruct (task_clear_spec m dst td Hm Hd) as (m1 & Hc & Hm1 & Hcells & Hacc1).
    rewrite (comp_bind_done _ _ _ _ _ Hc).
    destruct (task_build_spec m1 dst src ts) as (m' & ? & ? & Hacc & _); try done.
    + by rewrite Hcells, lookup_insert_ne.
    + intros t. rewrite Hcells, lookup_insert_eq. naive_solver.
    + exists m'. by rewrite Hacc.
  - destruct Hop as [t Ht]. destruct (task_clear_spec m l t Hm Ht) as (m' & ? & ? & _ & ?). by exists m'.
  - destruct Hop as [t Ht]. destruct (task_clear_spec m l t Hm Ht) as (m1 & Hc & Hm1 & Hcells & Hacc).
    assert (t_cells m1 !! l = Some (Task (m_buffer t) None)) as Hl by (by rewrite Hcells, lookup_insert_eq).
    simpl. unfold task_destruct. rewrite (comp_bind_done _ _ _ _ _ Hc). eexists. split; [done|].
    split; [by eapply mem_ok_free|]. rewrite <- Hacc. unfold accounted; simpl.
    by rewrite (live_delete _ l _ Hl).
Qed.

Lemma mem_ok_init : mem_ok mem_init.
Proof. split; simpl; intros; try (by rewrite lookup_empty in *). Qed.

Lemma run_task_ops_spec os m :
  mem_ok m → ops_ok m os →
  ∃ m', run_task_ops os m = Done tt m' ∧ mem_ok m' ∧ accounted m' ≡ₚ constructed os ++ accounted m.
Proof.
  revert m. induction os as [|o os IH]; intros m Hm Hok; [by exists m|].
  destruct Hok as [Ho Hok]. destruct (run_task_op_spec m o Hm Ho) as (m1 & H1 & Hm1 & Hacc1).
  destruct (IH m1 Hm1 (Hok m1 H1)) as (m' & H2 & Hm' & Hacc). exists m'. split_and!; [|done|].
  - simpl. by rewrite (comp_bind_done _ _ _ _ _ H1).
  - rewrite Hacc, Hacc1. rewrite (assoc_L (++)), (Permutation_app_comm (constructed os)).
    unfold constructed. by rewrite <- omap_app.
Qed.

(** ** Theorems *)

(** C25: however a program constructs, moves, assigns, calls, clears and destroys
    tasks (on addresses C++ lets it use), no operation reads a buffer as what it
    does not hold, and no callable is lost or used twice: each callable that was
    constructed is held by exactly one task, or was executed exactly once, or
    was destroyed exactly once; and what is left on the heap is owned by a task,
    but for the callables that left their call by an exception. *)
Theorem task_callables_conserved os :
  ops_ok mem_init os →
  ∃ m, run_task_ops os mem_init = Done tt m ∧
    live (t_cells m) ++ (event_callable <$> t_events m) ≡ₚ constructed os ∧
    ∀ p c, t_heap m !! p = Some c →
      (∃ l t, t_cells m !! l = Some t ∧ owned t = Some p) ∨
      (c_throws c = true ∧ executed c ∈ t_events m).
Proof.
  intros Hok. destruct (run_task_ops_spec os mem_init mem_ok_init Hok) as (m & Hr & Hm & Hacc).
  exists m. split_and!; [done| |apply ok_leak; done].
  rewrite Hacc. unfold accounted; simpl. by rewrite !app_nil_r.
Qed.

(** A callable that fits the buffer, and one that does not. *)
Definition small_callable : callable := Callable 1 user_callable 16 true false false false.
Definition large_callable : callable := Callable 2 user_callable 80 true false false false.
Definition throwing_callable : callable := Callable 3 user_callable 80 true false false true.

Lemma task_callables_conserved_witness :
  ∃ m, run_task_ops [op_construct 0 small_callable; op_construct 1 large_callable; op_move 2 1;
                     op_assign 0 2; op_call 0; op_destruct 0] mem_init = Done tt m ∧
    live (t_cells m) ++ (event_callable <$> t_events m) ≡ₚ [small_callable; large_callable] ∧
    ∀ p c, t_heap m !! p = Some c →
      (∃ l t, t_cells m !! l = Some t ∧ owned t = Some p) ∨
      (c_throws c = true ∧ executed c ∈ t_events m).
Proof.
  apply (task_callables_conserved
    [op_construct 0 small_callable; op_construct 1 large_callable; op_move 2 1; op_assign 0 2; op_call 0; op_destruct 0]).
  repeat (split; [vm_compute; eauto|intros m; intros [= <-]]); done.
Defined.

(** A callable on the heap that throws is never deleted: after the task was
    called and destroyed its memory is still there and nobody owns it. *)
Theorem task_throwing_callable_leaks :
  ∃ m, run_task_ops [op_construct 0 throwing_callable; op_call 0; op_destruct 0] mem_init = Done tt m ∧
    t_cells m = ∅ ∧ t_heap m !! 0 = Some throwing_callable ∧ t_events m = [executed throwing_callable].
Proof. eexists. split; [reflexivity|]. by vm_compute. Qed.
