(* ===== verification/Executor.v ===== *)
(** * The interface of executors, and what is built on it

    [executor] promises its clients that a task it accepts is kept, exactly
    once, until it is run or destroyed, and that after a shutdown it throws and
    accepts nothing.  The executors of the library are instances of this
    promise; [post], [bulk_post] and [bulk_submit] are proved against it. *)

From S2P Require Import Prelude Conc.
From stdpp Require Import options.
Local Open Scope cpp_scope.

(** ** The promise *)

(** [ex_accepted]: the tasks that were accepted so far, be they pending, run or
    destroyed; a ghost of the states below. *)
Class Executor (E A : Type) : Type := {
  ex_name : string;
  ex_enqueue : A → E → outcome E;
  ex_enqueue_span : list A → E → outcome E;
  ex_shut : E → bool;
  ex_accepted : E → list A }.

Class ExecutorLaws (E A : Type) `{!Executor E A} : Prop := {
  enqueue_accepts (t : A) (e : E) : ex_shut e = false →
    ∃ e', ex_enqueue t e = Ret e' ∧ ex_accepted e' ≡ₚ t :: ex_accepted e;
  enqueue_rejects (t : A) (e : E) : ex_shut e = true →
    ex_enqueue t e = Throw (runtime_shutdown (ex_name (E := E) (A := A)));
  span_accepts (ts : list A) (e : E) : ex_shut e = false → ts ≠ [] →
    ∃ e', ex_enqueue_span ts e = Ret e' ∧ ex_accepted e' ≡ₚ ts ++ ex_accepted e;
  span_rejects (ts : list A) (e : E) : ex_shut e = true → ts ≠ [] →
    ex_enqueue_span ts e = Throw (runtime_shutdown (ex_name (E := E) (A := A))) }.

(** ** Callables

    A callable given by the application: what calling it does, and whether its
    type says that it does not throw. *)
Record job : Type := Job { j_id : nat; j_outcome : outcome unit; j_noexcept : bool }.

(** Calling: a [noexcept] callable that throws terminates the program. *)
Definition call_job (j : job) : outcome unit :=
  if j_noexcept j then noexcept (j_outcome j) else j_outcome j.

(** [bind_with_try_catch]: a callable that may throw is wrapped in a lambda that
    swallows the exception. *)
Definition bind_with_try_catch (j : job) : job :=
  if j_noexcept j then j
  else Job (j_id j) (match j_outcome j with Throw _ => Ret tt | r => r end) true.

(** ** [post], [bulk_post] *)

Section clients.
Context {E : Type} `{!Executor E job}.

(** [do_post] *)
Definition post (j : job) (e : E) : outcome E := ex_enqueue (bind_with_try_catch j) e.

(** [do_bulk_post] asserts that the list is not empty. *)
Definition bulk_post (js : list job) (e : E) : option (outcome E) :=
  match js with [] => None | _ => Some (ex_enqueue_span (bind_with_try_catch <$> js) e) end.

(** ** [bulk_submit]

    Each callable becomes a coroutine that suspends at once and leaves a task
    that resumes it.  If the executor rejects the tasks, they are destroyed, and
    each coroutine is resumed with the mark of an interruption. *)
Inductive submission : Type :=
  | suspended_until_run
  | interrupted (e : exn).

(** [bulk_submit_bridge] up to its suspension: the task in the accumulator. *)
Definition bulk_submit_bridge (j : job) (accumulator : list job) : list job := accumulator ++ [j].

(** [await_via_functor::~await_via_functor] on a task that was not run, and then
    [accumulating_awaitable::await_resume]. *)
Definition destroy_submission (j : job) : submission := interrupted broken_task.

(** [do_bulk_submit]: the outcome, and what became of the coroutines. *)
Definition bulk_submit (js : list job) (e : E) : option (outcome E * list submission) :=
  let accumulator := foldl (λ acc j, bulk_submit_bridge j acc) [] js in
  match accumulator with
  | [] => None
  | _ => Some match ex_enqueue_span accumulator e with
              | Ret e' => (Ret e', (λ _, suspended_until_run) <$> accumulator)
              | r => (r, destroy_submission <$> accumulator)
              end
  end.

Lemma accumulated js acc : foldl (λ acc j, bulk_submit_bridge j acc) acc js = acc ++ js.
Proof.
  revert acc. induction js as [|j js IH]; intros acc; simpl; [by rewrite app_nil_r|].
  rewrite IH. unfold bulk_submit_bridge. by rewrite <- (assoc_L (++)).
Qed.

Context `{!ExecutorLaws E job}.

(** On any executor that keeps the promise, [post] and [bulk_post] either
    hand over every callable, once, or throw [runtime_shutdown]; and a callable
    that was posted cannot throw when it is run. *)
Theorem post_hands_over_once (js : list job) (e : E) :
  js ≠ [] →
  (ex_shut e = false → ∃ e', bulk_post js e = Some (Ret e') ∧
     ex_accepted e' ≡ₚ (bind_with_try_catch <$> js) ++ ex_accepted e) ∧
  (ex_shut e = false → ∀ j, ∃ e', post j e = Ret e' ∧
     ex_accepted e' ≡ₚ bind_with_try_catch j :: ex_accepted e) ∧
  (ex_shut e = true → bulk_post js e = Some (Throw (runtime_shutdown ex_name)) ∧
     ∀ j, post j e = Throw (runtime_shutdown ex_name)) ∧
  ∀ j x, call_job (bind_with_try_catch j) ≠ Throw x.
Proof using ExecutorLaws0.
  intros Hne. destruct js as [|j0 js]; [done|]. split_and!.
  - intros Hs. destruct (span_accepts (bind_with_try_catch <$> j0 :: js) e Hs) as (e' & He & Ha); [done|].
    exists e'. simpl in *. by rewrite He.
  - intros Hs j. by apply enqueue_accepts.
  - intros Hs. split; [|intros j; by apply enqueue_rejects]. simpl. f_equal. by apply span_rejects.
  - intros j x. unfold call_job, bind_with_try_catch, noexcept.
    destruct (j_noexcept j) eqn:Hn; [rewrite Hn|simpl]; by destruct (j_outcome j).
Qed.

(** [bulk_submit] leaves no coroutine behind: either the executor took the
    task of each, or each was resumed with [broken_task] and the caller got
    [runtime_shutdown]. *)
Theorem bulk_submit_resolves_all (js : list job) (e : E) :
  js ≠ [] →
  ∃ r ss, bulk_submit js e = Some (r, ss) ∧ length ss = length js ∧
    ((∃ e', r = Ret e' ∧ ex_accepted e' ≡ₚ js ++ ex_accepted e ∧ Forall (eq suspended_until_run) ss) ∨
     (r = Throw (runtime_shutdown ex_name) ∧ Forall (eq (interrupted broken_task)) ss)).
Proof using ExecutorLaws0.
  intros Hne. unfold bulk_submit. rewrite accumulated. simpl. destruct js as [|j0 js]; [done|].
  destruct (ex_shut e) eqn:Hs.
  - rewrite (span_rejects (j0 :: js) e Hs) by done. do 2 eexists. split; [done|].
    rewrite length_fmap. split; [done|]. right. split; [done|]. by apply Forall_fmap, Forall_true.
  - destruct (span_accepts (j0 :: js) e Hs) as (e' & -> & Ha); [done|]. do 2 eexists. split; [done|].
    rewrite length_fmap. split; [done|]. left. exists e'. split_and!; [done..|].
    by apply Forall_fmap, Forall_true.
Qed.
End clients.

(** ** [inline_executor] *)

(** Its only field, and the tasks it has run, latest first. *)
Record inline_executor (A : Type) : Type := InlineExecutor { ie_abort : bool; ie_ran : list A }.
Arguments InlineExecutor {A}.
Arguments ie_abort {A} _.
Arguments ie_ran {A} _.

Section inline.
Context {A : Type}.

Definition k_inline_executor_name : string := "concurrencpp::inline_executor".

Definition throw_if_aborted (e : inline_executor A) : outcome unit :=
  if ie_abort e then Throw (runtime_shutdown k_inline_executor_name) else Ret tt.

(** [task()] on the spot *)
Definition inline_run (t : A) (e : inline_executor A) : inline_executor A :=
  InlineExecutor (ie_abort e) (t :: ie_ran e).

Definition inline_enqueue (t : A) (e : inline_executor A) : outcome (inline_executor A) :=
  let! _ := throw_if_aborted e in Ret (inline_run t e).

Definition inline_enqueue_span (ts : list A) (e : inline_executor A) : outcome (inline_executor A) :=
  let! _ := throw_if_aborted e in Ret (foldl (λ e t, inline_run t e) e ts).

Definition inline_shutdown (e : inline_executor A) : inline_executor A := InlineExecutor true (ie_ran e).

#[global] Instance inline_executor_ops : Executor (inline_executor A) A := {|
  ex_name := k_inline_executor_name;
  ex_enqueue := inline_enqueue;
  ex_enqueue_span := inline_enqueue_span;
  ex_shut := ie_abort;
  ex_accepted := ie_ran |}.

Lemma inline_span_ran ts (e : inline_executor A) :
  ie_ran (foldl (λ e t, inline_run t e) e ts) = rev ts ++ ie_ran e.
Proof.
  revert e. induction ts as [|t ts IH]; intros e; simpl; [done|]. rewrite IH. simpl.
  by rewrite <- (assoc_L (++)).
Qed.

#[global] Instance inline_executor_laws : ExecutorLaws (inline_executor A) A.
Proof.
  split; simpl; unfold inline_enqueue, inline_enqueue_span, throw_if_aborted; intros x e Hs; rewrite Hs; simpl.
  - by eexists.
  - done.
  - intros _. eexists. split; [done|]. rewrite inline_span_ran. by rewrite <- Permutation_rev.
  - done.
Qed.
End inline.

Lemma post_hands_over_once_witness :
  [Job 1 (Ret tt) false] ≠ [] ∧
  ∃ e', bulk_post [Job 1 (Ret tt) false] (InlineExecutor false []) = Some (Ret e') ∧
    ex_accepted (E := inline_executor job) e' ≡ₚ [Job 1 (Ret tt) true].
Proof.
  split; [done|].
  exact (proj1 (post_hands_over_once (E := inline_executor job) [Job 1 (Ret tt) false] (InlineExecutor false [])
    ltac:(done)) eq_refl).
Defined.

Lemma bulk_submit_resolves_all_witness :
  ∃ r ss, bulk_submit [Job 1 (Ret tt) false] (InlineExecutor true []) = Some (r, ss) ∧ length ss = 1 ∧
    ((∃ e', r = Ret e' ∧ ex_accepted (E := inline_executor job) e' ≡ₚ [Job 1 (Ret tt) false] ++ [] ∧
        Forall (eq suspended_until_run) ss) ∨
     (r = Throw (runtime_shutdown k_inline_executor_name) ∧ Forall (eq (interrupted broken_task)) ss)).
Proof.
  exact (bulk_submit_resolves_all (E := inline_executor job) [Job 1 (Ret tt) false] (InlineExecutor true []) ltac:(done)).
Defined.
