(* ===== verification/Rescheduling.v ===== *)
(** * [await_via_functor], [resume_on] and the coroutines that start on an executor

    A coroutine that is to go on in an executor leaves a functor in a task.  The
    functor resumes it when it is called, and when it is destroyed without having
    been called, which the coroutine then reports as a broken task. *)

From S2P Require Import Prelude Conc Executor.
From stdpp Require Import options.
Local Open Scope cpp_scope.

(** ** Functors *)

(** A suspended coroutine with the flag of its awaitable; once resumed, with what
    the flag was then. *)
Inductive coro : Type :=
  | co_suspended (interrupted : bool)
  | co_resumed (interrupted : bool).

(** The functor objects: [m_caller_handle] with [m_interrupted], which points to the
    flag of the same coroutine; [None] when it is null. *)
Record fheap : Type := FHeap { coros : gmap nat coro; functors : gmap nat (option nat) }.

Definition set_functor (x : nat) (h : option nat) : comp fheap unit := modify (λ s, FHeap (coros s) (<[x := h]> (functors s))).
Definition set_coro (h : nat) (c : coro) : comp fheap unit := modify (λ s, FHeap (<[h := c]> (coros s)) (functors s)).
Definition functor (x : nat) : comp fheap (option nat) :=
  s ← get_state; match functors s !! x with Some h => mret h | None => abort_with use_after_free end.

(** [m_caller_handle()] *)
Definition resume_caller (h : nat) : comp fheap unit :=
  s ← get_state; match coros s !! h with Some (co_suspended i) => set_coro h (co_resumed i) | _ => abort_with bad_resume end.
(** [*m_interrupted = true]: the flag is in the frame of the coroutine. *)
Definition set_interrupted (h : nat) : comp fheap unit :=
  s ← get_state; match coros s !! h with Some (co_suspended _) => set_coro h (co_suspended true) | _ => abort_with use_after_free end.

(** The constructor, for a coroutine that is being suspended. *)
Definition new_functor (h x : nat) : comp fheap unit :=
  s ← get_state; assert (match coros s !! h with Some (co_suspended _) => true | _ => false end);; set_functor x (Some h).
Definition move_functor (rhs x : nat) : comp fheap unit := h ← functor rhs; set_functor rhs None;; set_functor x h.
Definition destroy_functor (x : nat) : comp fheap unit :=
  h ← functor x;
  (match h with None => mret tt | Some h => set_interrupted h;; resume_caller h end);;
  modify (λ s, FHeap (coros s) (delete x (functors s))).
Definition call_functor (x : nat) : comp fheap unit :=
  h ← functor x;
  match h with None => abort_with assert_failed | Some h => set_functor x None;; resume_caller h end.

(** What tasks and executors do with functors. *)
Inductive functor_op : Type := fo_move (rhs x : nat) | fo_destroy (x : nat) | fo_call (x : nat).
Definition not_there (x : nat) : comp fheap unit := s ← get_state; if decide (functors s !! x = None) then mret tt else block.
Definition run_functor_op (o : functor_op) : comp fheap unit :=
  match o with
  | fo_move rhs x => not_there x;; move_functor rhs x
  | fo_destroy x => destroy_functor x
  | fo_call x => call_functor x
  end.
Fixpoint run_functor_ops (os : list functor_op) : comp fheap unit :=
  match os with [] => mret tt | o :: os => run_functor_op o;; run_functor_ops os end.

Definition is_call (o : functor_op) : bool := match o with fo_call _ => true | _ => false end.

(** The coroutine [h], whose functor has been called or not. *)
Definition functor_inv (h : nat) (called : bool) (s : fheap) : Prop :=
  (called = false ∧ coros s !! h = Some (co_suspended false) ∧
    ∃ x, functors s !! x = Some (Some h) ∧ ∀ y h', functors s !! y = Some (Some h') → y = x ∧ h' = h) ∨
  (coros s !! h = Some (co_resumed (negb called)) ∧ ∀ y h', functors s !! y ≠ Some (Some h')).

Lemma functor_done s x ho : functors s !! x = Some ho → functor x s = Done ho s.
Proof. intros Hx. unfold functor. rewrite get_state_bind. by rewrite Hx. Qed.

(** An object that has nothing changes nothing. *)
Lemma functor_inv_empty h called s fs :
  (∀ y h', fs !! y = Some (Some h') ↔ functors s !! y = Some (Some h')) → functor_inv h called s → functor_inv h called (FHeap (coros s) fs).
Proof. intros Hf [(Hc & Hs & x & Hx & Hu)|[Hs Hu]]; [left|right]; simpl; setoid_rewrite Hf; eauto. Qed.

Lemma move_functor_inv h called rhs x ho s :
  functor_inv h called s → functors s !! rhs = Some ho → functors s !! x = None →
  functor_inv h called (FHeap (coros s) (<[x := ho]> (<[rhs := None]> (functors s)))).
Proof.
  intros Hi Hr Hx. assert (rhs ≠ x) as Hn by congruence. destruct ho as [h'|].
  - destruct Hi as [(Hc & Hs & z & Hz & Hu)|[_ Hu]]; [|by destruct (Hu rhs h')]. destruct (Hu _ _ Hr) as [-> ->].
    left. split_and!; [done|done|]. exists x. split; [apply lookup_insert_eq|].
    intros y h'. simpl. rewrite !lookup_insert_Some. intros [[-> [= ->]]|[? [[_ ?]|[? Hy]]]]; [done|done|]. by destruct (Hu _ _ Hy).
  - apply functor_inv_empty; [|done]. intros y h'. rewrite !lookup_insert_Some. split; [naive_solver|]. intros Hy. right.
    split; [congruence|]. right. split; [congruence|done].
Qed.

Lemma destroy_functor_inv h called x ho s :
  functor_inv h called s → functors s !! x = Some ho → ∃ s', destroy_functor x s = Done tt s' ∧ functor_inv h called s'.
Proof.
  intros Hi Hx. unfold destroy_functor. rewrite (comp_bind_done _ _ _ _ _ (functor_done _ _ _ Hx)). destruct ho as [h'|].
  - destruct Hi as [(Hc & Hs & z & Hz & Hu)|[_ Hu]]; [|by destruct (Hu x h')]. destruct (Hu _ _ Hx) as [-> ->].
    eexists. split.
    + unfold set_interrupted, resume_caller, set_coro, get_state, modify, mbind, comp_bind. rewrite Hs. cbn [coros functors].
      rewrite lookup_insert_eq. reflexivity.
    + right. simpl. rewrite insert_insert_eq, lookup_insert_eq, Hc. split; [done|].
      intros y h' [? Hy]%lookup_delete_Some. by destruct (Hu _ _ Hy).
  - eexists. split; [reflexivity|]. apply functor_inv_empty; [|done]. intros y h'. rewrite lookup_delete_Some. naive_solver.
Qed.

Lemma call_functor_inv h called x h' s :
  functor_inv h called s → functors s !! x = Some (Some h') → ∃ s', call_functor x s = Done tt s' ∧ functor_inv h true s'.
Proof.
  intros Hi Hx. unfold call_functor. rewrite (comp_bind_done _ _ _ _ _ (functor_done _ _ _ Hx)).
  destruct Hi as [(Hc & Hs & z & Hz & Hu)|[_ Hu]]; [|by destruct (Hu x h')]. destruct (Hu _ _ Hx) as [-> ->]. eexists. split.
  - unfold set_functor, resume_caller, set_coro, get_state, modify, mbind, comp_bind. cbn [coros functors]. rewrite Hs. reflexivity.
  - right. simpl. rewrite lookup_insert_eq. split; [done|]. intros y h'. rewrite lookup_insert_Some. intros [[_ ?]|[? Hy]]; [done|].
    by destruct (Hu _ _ Hy).
Qed.

(** A use of an object that does not exist, or a call of one that has nothing. *)
Definition misuse (s : fheap) (o : functor_op) : Prop :=
  match o with
  | fo_move x _ | fo_destroy x => functors s !! x = None
  | fo_call x => ∀ h, functors s !! x ≠ Some (Some h)
  end.

Lemma functor_inv_step h called o s :
  functor_inv h called s →
  match run_functor_op o s with Done _ s' => functor_inv h (called || is_call o) s' | Block => True | Fault _ => misuse s o end.
Proof.
  intros Hi. destruct o as [rhs x|x|x]; simpl; rewrite ?orb_false_r, ?orb_true_r.
  - unfold not_there, mbind at 1, comp_bind at 1, mbind at 1, comp_bind at 1, get_state. case_decide as Hx; [|done]. simpl.
    unfold move_functor. destruct (functors s !! rhs) as [ho|] eqn:Hr.
    + rewrite (comp_bind_done _ _ _ _ _ (functor_done _ _ _ Hr)). exact (move_functor_inv h called rhs x ho s Hi Hr Hx).
    + unfold functor, mbind, comp_bind, get_state. by rewrite Hr.
  - destruct (functors s !! x) as [ho|] eqn:Hx.
    + destruct (destroy_functor_inv _ _ _ _ _ Hi Hx) as (s' & -> & ?). done.
    + unfold destroy_functor, functor, mbind, comp_bind, get_state. by rewrite Hx.
  - destruct (functors s !! x) as [[h'|]|] eqn:Hx.
    + destruct (call_functor_inv _ _ _ _ _ Hi Hx) as (s' & -> & ?). done.
    + unfold call_functor. by rewrite (comp_bind_done _ _ _ _ _ (functor_done _ _ _ Hx)).
    + unfold call_functor, functor, mbind, comp_bind, get_state. by rewrite Hx.
Qed.

Lemma functor_ops_inv h called os s u s' :
  functor_inv h called s → run_functor_ops os s = Done u s' → functor_inv h (called || existsb is_call os) s'.
Proof.
  revert called s. induction os as [|o os IH]; intros called s Hi; simpl; [intros [= _ <-]; by rewrite orb_false_r|].
  intros (u1 & s1 & H1 & H2)%bind_done. rewrite orb_assoc. eapply IH; [|exact H2].
  pose proof (functor_inv_step h called o s Hi) as H. by rewrite H1 in H.
Qed.

(** A coroutine [h] that has just been suspended, with its functor in the object [x]. *)
Definition suspend_with (h x : nat) : fheap := FHeap {[h := co_suspended false]} {[x := Some h]}.

(** A coroutine that leaves a functor in a task is resumed exactly once, however
    the functor is moved about: by the call of the functor, with the flag unset, or
    by the destruction of the functor that was not called, with the flag set, so
    that it throws [broken_task].  When no functor is left it has been resumed.
    Moves and destructors never fail, and a call fails only on an object that
    was moved from or already called. *)
Theorem functor_resumes_once h x os s :
  run_functor_ops os (suspend_with h x) = Done tt s →
  ((coros s !! h = Some (co_suspended false) ∧ existsb is_call os = false ∧ ∃ y, functors s !! y = Some (Some h)) ∨
   coros s !! h = Some (co_resumed (negb (existsb is_call os)))) ∧
  ∀ o f, run_functor_op o s = Fault f → misuse s o.
Proof.
  intros H. assert (functor_inv h (existsb is_call os) s) as Hi.
  { eapply (functor_ops_inv h false); [|exact H]. left. simpl. split_and!; [done|apply lookup_singleton_eq|]. exists x.
    split; [apply lookup_singleton_eq|]. intros y h' [<- [= <-]]%lookup_singleton_Some. done. }
  split.
  - destruct Hi as [(Hc & Hs & y & Hy & _)|[Hs Hu]]; [left; eauto|by right].
  - intros o f Ho. pose proof (functor_inv_step h _ o s Hi) as Hf. by rewrite Ho in Hf.
Qed.

Lemma functor_resumes_once_witness :
  ∃ s, run_functor_ops [fo_move 1 2; fo_destroy 1; fo_move 2 3; fo_destroy 3; fo_destroy 2] (suspend_with 7 1) = Done tt s ∧
    ((coros s !! 7 = Some (co_suspended false) ∧ false = false ∧ ∃ y, functors s !! y = Some (Some 7)) ∨
     coros s !! 7 = Some (co_resumed true)).
Proof.
  eexists. split; [vm_compute; reflexivity|].
  apply (proj1 (functor_resumes_once 7 1 [fo_move 1 2; fo_destroy 1; fo_move 2 3; fo_destroy 3; fo_destroy 2] _ eq_refl)).
Defined.

(** ** [resume_on] and the initial suspension on an executor *)

(** [resume_on], and [initialy_rescheduled_promise::to_ref], of a pointer. *)
Definition executor_ref {E} (executor : option E) : outcome E := match executor with None => Throw invalid_argument | Some e => Ret e end.

Section rescheduling.
Context {E : Type} `{!Executor E job}.

(** The functor of the coroutine [h], whose call does not throw. *)
Definition functor_job (h : nat) : job := Job h (Ret tt) true.

(** [await_suspend] of [resume_on_awaitable] and of [initial_scheduling_awaiter]: the
    exception of [post] is swallowed, and the task that it destroyed has resumed the
    coroutine. *)
Definition await_suspend (h : nat) (e : E) : E * submission :=
  match post (functor_job h) e with
  | Ret e' => (e', suspended_until_run)
  | _ => (e, destroy_submission (functor_job h))
  end.

(** [await_resume] *)
Definition await_resume (interrupted : bool) : outcome unit := if interrupted then Throw broken_task else Ret tt.

Context `{!ExecutorLaws E job}.

(** A coroutine that is rescheduled is handed to the executor, once, or goes on at
    once with [broken_task] when the executor has been shut down; the caller gets no
    exception in either case. *)
Lemma await_suspend_total h e :
  (ex_shut e = false → ∃ e', await_suspend h e = (e', suspended_until_run) ∧ ex_accepted e' ≡ₚ functor_job h :: ex_accepted e) ∧
  (ex_shut e = true → await_suspend h e = (e, interrupted broken_task)).
Proof using ExecutorLaws0.
  unfold await_suspend, post. split; intros Hs.
  - destruct (enqueue_accepts (bind_with_try_catch (functor_job h)) e Hs) as (e' & He & Ha). rewrite He. by eexists.
  - by rewrite (enqueue_rejects (bind_with_try_catch (functor_job h)) e Hs).
Qed.
End rescheduling.
