(* ===== verification/Coroutines.v ===== *)
(** * Eager and parallel coroutines: [promises.h], [resume_on.h] and [executor::submit]

    A coroutine that returns a [result] or a [null_result] runs at once, or, if its first
    parameters are an [executor_tag] and an executor, as a task of that executor; in its
    body it may move to another executor with [resume_on].  While it is suspended for an
    executor, an [await_via_functor] in a task of that executor will resume it
    ([Rescheduling]).  When its body returns or throws, the promise stores the outcome and
    publishes it; [ResultProtocol] shows what the consumer of the result then sees. *)

From S2P Require Import Prelude Conc Executor Rescheduling.
From stdpp Require Import options.
Local Open Scope cpp_scope.

(** ** The choice of the promise *)

Inductive return_type : Type := returns_null_result | returns_result | returns_lazy_result.

(** The parameters of a coroutine: executors are given by their number, by pointer,
    reference or shared pointer; a pointer may be null. *)
Inductive parameter : Type :=
  | p_executor_tag
  | p_executor_ptr (x : option nat)
  | p_executor_ref (x : nat)
  | p_executor_shared (x : option nat)
  | p_other.

Inductive promise_type : Type :=
  | initialy_resumed (has_result : bool)
  | initialy_rescheduled (has_result : bool)
  | lazy_promise.

(** The specialisations of [coroutine_traits] *)
Definition coroutine_traits (t : return_type) (arguments : list parameter) : promise_type :=
  match t with
  | returns_lazy_result => lazy_promise
  | _ =>
      let has_result := match t with returns_result => true | _ => false end in
      match arguments with
      | p_executor_tag :: (p_executor_ptr _ | p_executor_ref _ | p_executor_shared _) :: _ => initialy_rescheduled has_result
      | _ => initialy_resumed has_result
      end
  end.

(** The constructors of [initialy_rescheduled_promise]; [to_ref] is [executor_ref]. *)
Definition initial_executor (arguments : list parameter) : outcome nat :=
  match arguments with
  | p_executor_tag :: p_executor_ref x :: _ => Ret x
  | p_executor_tag :: (p_executor_ptr x | p_executor_shared x) :: _ => executor_ref x
  | _ => Throw invalid_argument
  end.

(** ** Coroutines and executors *)

(** Where a coroutine is: suspended for an executor, at the start or in a [resume_on],
    with the flag of its awaiter; in its body; at its final suspension. *)
Inductive suspend_point : Type := for_executor (initial broken : bool) | in_body | at_final.

(** [f_producer]: the outcome in the [result_state] of the promise. *)
Record coro_frame (V : Type) : Type := CoroFrame { f_has_result : bool; f_point : suspend_point; f_producer : option (V + exn) }.
Arguments CoroFrame {V}.
Arguments f_has_result {V}.
Arguments f_point {V}.
Arguments f_producer {V}.

(** The frames by number; the executors; the coroutines whose functors the executors
    hold.  What follows is for the theorems: the coroutines that were called and whether
    they have a result, those whose bodies were begun, what the bodies have ended with,
    and what was published. *)
Record world (V E : Type) : Type := World {
  frames : gmap nat (coro_frame V); executors : list E; tasks : list nat;
  called : list (nat * bool); begun : list nat; ended : list (nat * (V + exn)); published : list (nat * (V + exn)) }.
Arguments World {V E}.
Arguments frames {V E}.
Arguments executors {V E}.
Arguments tasks {V E}.
Arguments called {V E}.
Arguments begun {V E}.
Arguments ended {V E}.
Arguments published {V E}.

Section coroutines.
Context {V E : Type} `{!Executor E job}.
Abbreviation comp := (comp (world V E)).

Definition get_frame (h : nat) : comp (coro_frame V) :=
  w ← get_state; match frames w !! h with Some f => mret f | None => abort_with use_after_free end.
Definition set_frame (h : nat) (f : coro_frame V) : comp unit :=
  modify (λ w, World (<[h := f]> (frames w)) (executors w) (tasks w) (called w) (begun w) (ended w) (published w)).
Definition free_frame (h : nat) : comp unit :=
  modify (λ w, World (delete h (frames w)) (executors w) (tasks w) (called w) (begun w) (ended w) (published w)).
Definition set_point (h : nat) (p : suspend_point) : comp unit :=
  f ← get_frame h; set_frame h (CoroFrame (f_has_result f) p (f_producer f)).
Definition note_begun (h : nat) : comp unit :=
  modify (λ w, World (frames w) (executors w) (tasks w) (called w) (begun w ++ [h]) (ended w) (published w)).
Definition note_ended (h : nat) (r : V + exn) : comp unit :=
  modify (λ w, World (frames w) (executors w) (tasks w) (called w) (begun w) (ended w ++ [(h, r)]) (published w)).
Definition note_published (h : nat) (r : V + exn) : comp unit :=
  modify (λ w, World (frames w) (executors w) (tasks w) (called w) (begun w) (ended w) (published w ++ [(h, r)])).

(** [set_result] and [unhandled_exception]: a null result drops the outcome, a
    [result_state] may be set once only. *)
Definition store_outcome (h : nat) (r : V + exn) : comp unit :=
  f ← get_frame h;
  if f_has_result f then
    assert (match f_producer f with None => true | Some _ => false end);;
    set_frame h (CoroFrame true (f_point f) (Some r))
  else mret tt.

(** [final_suspend]: a [result_publisher] publishes the outcome when the frame is
    suspended; the frame of a null result is destroyed. *)
Definition final_suspend (h : nat) : comp unit :=
  f ← get_frame h;
  if f_has_result f then
    match f_producer f with
    | None => abort_with assert_failed
    | Some r => set_point h at_final;; note_published h r
    end
  else free_frame h.

(** The end of the body; an exception of the constructor of the value is thrown by
    [return_value]. *)
Definition return_value (r : V + exn) (construct : option exn) : V + exn :=
  match r, construct with inl _, Some e => inr e | _, _ => r end.
Definition finish (h : nat) (r : V + exn) : comp unit := store_outcome h r;; final_suspend h.

(** The coroutine is resumed where it waited for an executor: [await_resume] throws when
    the task was broken.  At the start this is an exception of the body that has not
    begun; in a [resume_on] the body goes on with it. *)
Definition resume_coroutine (h : nat) : comp unit :=
  f ← get_frame h;
  match f_point f with
  | for_executor true broken =>
      match await_resume broken with
      | Ret _ => set_point h in_body;; note_begun h
      | Throw e => finish h (inr e)
      | Terminate => abort_with bad_resume
      end
  | for_executor false _ => set_point h in_body
  | _ => abort_with bad_resume
  end.

(** [~await_via_functor] of a functor that was not called *)
Definition interrupt (h : nat) : comp unit :=
  f ← get_frame h;
  match f_point f with
  | for_executor initial _ => set_point h (for_executor initial true);; resume_coroutine h
  | _ => abort_with use_after_free
  end.

(** [await_suspend] of [initial_scheduling_awaiter] and [resume_on_awaitable] *)
Definition post_functor (h x : nat) : comp unit :=
  w ← get_state;
  match executors w !! x with
  | None => abort_with null_deref
  | Some e =>
      match post (functor_job h) e with
      | Ret e' =>
          modify (λ w, World (frames w) (<[x := e']> (executors w)) (tasks w ++ [h]) (called w) (begun w) (ended w) (published w))
      | _ => interrupt h
      end
  end.

(** The call of a coroutine, with a frame that is not in use; [executor_of] is looked at
    by the constructor of the promise, whose exception reaches the caller. *)
Definition start_frame (h : nat) (has_result : bool) (p : suspend_point) : comp unit :=
  modify (λ w, World (<[h := CoroFrame has_result p None]> (frames w)) (executors w) (tasks w) (called w ++ [(h, has_result)]) (begun w) (ended w) (published w)).

Definition call_coroutine (h : nat) (t : return_type) (arguments : list parameter) : comp (outcome unit) :=
  match coroutine_traits t arguments with
  | initialy_resumed has_result => start_frame h has_result in_body;; note_begun h;; mret (Ret tt)
  | initialy_rescheduled has_result =>
      match initial_executor arguments with
      | Ret x => start_frame h has_result (for_executor true false);; post_functor h x;; mret (Ret tt)
      | Throw e => mret (Throw e)
      | Terminate => mret Terminate
      end
  | lazy_promise => mret (Ret tt)
  end.

(** [executor::submit]: [submit_bridge] is a coroutine with an executor. *)
Definition submit (h x : nat) : comp (outcome unit) := call_coroutine h returns_result [p_executor_tag; p_executor_ref x; p_other].

(** [co_await resume_on(executor)] in a body *)
Definition resume_on (h : nat) (executor : option nat) : comp (outcome unit) :=
  match executor_ref executor with
  | Ret x => set_point h (for_executor false false);; post_functor h x;; mret (Ret tt)
  | Throw e => mret (Throw e)
  | Terminate => mret Terminate
  end.

(** ** What may happen *)

Definition drop_task (h : nat) : comp unit :=
  modify (λ w, World (frames w) (executors w) (filter (.≠ h) (tasks w)) (called w) (begun w) (ended w) (published w)).

(** A function calls a coroutine, with executors that exist; an executor runs a task or
    destroys one; a body moves to an executor, or ends; the consumer of a result that is
    published destroys the frame. *)
Inductive deed : Type :=
  | d_call (h : nat) (t : return_type) (arguments : list parameter)
  | d_run (h : nat)
  | d_break (h : nat)
  | d_resume_on (h : nat) (executor : option nat)
  | d_end (h : nat) (r : V + exn) (construct : option exn)
  | d_release (h : nat).

Definition known_executor (w : world V E) (p : parameter) : bool :=
  match p with
  | p_executor_ptr (Some x) | p_executor_ref x | p_executor_shared (Some x) => bool_decide (x < length (executors w))
  | _ => true
  end.
Definition at_point (h : nat) (φ : suspend_point → bool) (w : world V E) : bool :=
  match frames w !! h with Some f => φ (f_point f) | None => false end.
Definition is_in_body (p : suspend_point) : bool := match p with in_body => true | _ => false end.
Definition is_at_final (p : suspend_point) : bool := match p with at_final => true | _ => false end.
Definition is_waiting (p : suspend_point) : bool := match p with for_executor _ _ => true | _ => false end.

Definition do_deed (d : deed) : comp unit :=
  w ← get_state;
  match d with
  | d_call h t arguments =>
      if bool_decide (h ∉ (called w).*1) && forallb (known_executor w) arguments then call_coroutine h t arguments;; mret tt else block
  | d_run h => if decide (h ∈ tasks w) then drop_task h;; resume_coroutine h else block
  | d_break h => if decide (h ∈ tasks w) then drop_task h;; interrupt h else block
  | d_resume_on h executor =>
      if at_point h is_in_body w && known_executor w (p_executor_shared executor) then resume_on h executor;; mret tt else block
  | d_end h r construct =>
      if at_point h is_in_body w then note_ended h (return_value r construct);; finish h (return_value r construct) else block
  | d_release h => if at_point h is_at_final w then free_frame h else block
  end.
Inductive coro_step (w : world V E) : world V E → Prop :=
  | step_deed d w' : do_deed d w = Done tt w' → coro_step w w'.
Definition coro_init (w : world V E) : Prop := ∃ es, w = World ∅ es [] [] [] [] [].
Definition coro_reachable : world V E → Prop := reachable coro_init coro_step.

(** ** Invariant *)

(** What is true of the frame of the coroutine [h], when no operation on it is under way. *)
Definition frame_ok (w : world V E) (h : nat) (f : coro_frame V) : Prop :=
  match f_point f with
  | for_executor initial broken => broken = false ∧ h ∈ tasks w ∧ (initial = true ↔ h ∉ begun w)
  | in_body => h ∉ tasks w ∧ h ∈ begun w
  | at_final => h ∉ tasks w ∧ f_has_result f = true ∧ h ∈ (published w).*1
  end ∧
  (f_point f ≠ at_final → f_producer f = None ∧ h ∉ (published w).*1 ∧ h ∉ (ended w).*1).

(** [x] is the coroutine that is being operated on. *)
Record inv_but (x : option nat) (w : world V E) : Prop := {
  i_frames : ∀ h f, frames w !! h = Some f → (h, f_has_result f) ∈ called w ∧ (Some h ≠ x → frame_ok w h f);
  i_tasks : NoDup (tasks w);
  i_task : ∀ h, h ∈ tasks w → Some h ≠ x ∧ is_Some (frames w !! h) ∧ ∃ e, e ∈ executors w ∧ functor_job h ∈ ex_accepted e;
  i_called : NoDup (called w).*1;
  i_gone : ∀ h, (h, true) ∈ called w → frames w !! h = None → h ∈ (published w).*1;
  i_begun : NoDup (begun w) ∧ ∀ h, h ∈ begun w → h ∈ (called w).*1;
  i_published : NoDup (published w).*1 ∧ ∀ h, h ∈ (published w).*1 → h ∈ (called w).*1;
  i_source : ∀ h r, (h, r) ∈ published w → (h, r) ∈ ended w ∨ r = inr broken_task ∧ h ∉ begun w;
  i_ended : NoDup (ended w).*1 ∧ ∀ h, h ∈ (ended w).*1 → h ∈ begun w }.
Abbreviation coro_inv := (inv_but None).

(** An operation has the coroutine [h] in its hands. *)
Record holds (w : world V E) (h : nat) (f : coro_frame V) : Prop := {
  hd_inv : inv_but (Some h) w;
  hd_frame : frames w !! h = Some f;
  hd_idle : f_producer f = None;
  hd_new : h ∉ (published w).*1 }.

Lemma wp_get_frame h f (Q : coro_frame V → world V E → Prop) w : frames w !! h = Some f → Q f w → wp (get_frame h) Q w.
Proof using Type. intros Hf HQ. apply wp_bind, wp_get. rewrite Hf. by apply wp_ret. Qed.

Lemma wp_set_point h f p (Q : unit → world V E → Prop) w :
  frames w !! h = Some f →
  Q tt (World (<[h := CoroFrame (f_has_result f) p (f_producer f)]> (frames w)) (executors w) (tasks w) (called w) (begun w) (ended w) (published w)) →
  wp (set_point h p) Q w.
Proof using Type. intros Hf HQ. by eapply wp_bind, wp_get_frame, wp_modify. Qed.

(** Two worlds that differ in the coroutine [h] only. *)
Record same_but (h : nat) (w w' : world V E) : Prop := {
  sb_frames : ∀ k, k ≠ h → frames w' !! k = frames w !! k;
  sb_called : called w' = called w;
  sb_tasks : ∀ k, k ≠ h → k ∈ tasks w' ↔ k ∈ tasks w;
  sb_begun : ∀ k, k ≠ h → k ∈ begun w' ↔ k ∈ begun w;
  sb_ended : ∀ k r, k ≠ h → (k, r) ∈ ended w' ↔ (k, r) ∈ ended w;
  sb_published : ∀ k r, k ≠ h → (k, r) ∈ published w' ↔ (k, r) ∈ published w }.

Lemma keys_ext {A} (h : nat) (l l' : list (nat * A)) k :
  (∀ k r, k ≠ h → (k, r) ∈ l' ↔ (k, r) ∈ l) → k ≠ h → k ∈ l'.*1 ↔ k ∈ l.*1.
Proof using Type.
  intros Hl Hk. rewrite !list_elem_of_fmap. split; intros ([k' r] & -> & Hr); simpl in *; exists (k', r); (split; [done|]); by apply Hl.
Qed.

Lemma frame_ok_ext h w w' k f : same_but h w w' → k ≠ h → frame_ok w k f → frame_ok w' k f.
Proof using Type.
  intros [_ _ Ht Hb He Hp] Hk. pose proof (keys_ext h _ _ k He Hk) as He'. pose proof (keys_ext h _ _ k Hp Hk) as Hp'.
  specialize (Ht k Hk). specialize (Hb k Hk). unfold frame_ok. destruct (f_point f); naive_solver.
Qed.

(** The end of an operation on [h]. *)
Lemma inv_close w h f w' :
  holds w h f → same_but h w w' →
  (∀ f', frames w' !! h = Some f' → f_has_result f' = f_has_result f ∧ frame_ok w' h f') →
  (frames w' !! h = None → f_has_result f = true → h ∈ (published w').*1) →
  NoDup (tasks w') → NoDup (begun w') → NoDup (published w').*1 → NoDup (ended w').*1 →
  (∀ k, k ∈ tasks w' → is_Some (frames w' !! k) ∧ ∃ e, e ∈ executors w' ∧ functor_job k ∈ ex_accepted e) →
  (∀ r, (h, r) ∈ published w' → (h, r) ∈ ended w' ∨ r = inr broken_task ∧ h ∉ begun w') →
  (h ∈ (ended w').*1 → h ∈ begun w') →
  coro_inv w'.
Proof using Type.
  intros [Hi Hf _ _] Hs Hf' Hg Nt Nb Np Ne Ht Hr He. destruct Hi as [I1 I2 I3 I4 I5 [I6 I6'] [I7 I7'] I8 [I9 I9']]. pose proof Hs as [S1 S2 S3 S4 S5 S6].
  assert ((h, f_has_result f) ∈ called w) as Hh by (by apply I1 in Hf as [? _]). assert (h ∈ (called w).*1) as Hh' by (by apply (list_elem_of_fmap_2 fst) in Hh).
  split; rewrite ?S2; try done.
  - intros k g Hk. destruct (decide (k = h)) as [->|Hn].
    + destruct (Hf' g Hk) as [-> ?]. done.
    + rewrite S1 in Hk by done. destruct (I1 k g Hk) as [? Hok]. split; [done|]. intros _. eapply frame_ok_ext; [done..|]. apply Hok. congruence.
  - intros k Hk. split; [done|]. by apply Ht.
  - intros k Hk Hn. destruct (decide (k = h)) as [->|Hkh].
    + apply Hg; [done|]. destruct (f_has_result f) eqn:Eb; [done|]. exfalso.
      apply list_elem_of_lookup in Hk as [a Ha]. apply list_elem_of_lookup in Hh as [b Hb].
      assert (a = b) as ->; [|congruence]. eapply (NoDup_lookup _ _ _ h I4); by rewrite list_lookup_fmap, ?Ha, ?Hb.
    + rewrite (keys_ext h _ _ k S6 Hkh). apply I5; [done|]. by rewrite <- S1.
  - split; [done|]. intros k Hk. destruct (decide (k = h)) as [->|]; [done|]. apply I6'. by apply S4.
  - split; [done|]. intros k Hk. destruct (decide (k = h)) as [->|Hkh]; [done|]. apply I7'. by apply (keys_ext h _ _ k S6 Hkh).
  - intros k r Hk. destruct (decide (k = h)) as [->|Hkh]; [by apply Hr|]. rewrite S5, S4 by done. apply I8. by apply S6.
  - split; [done|]. intros k Hk. destruct (decide (k = h)) as [->|Hkh]; [by apply He|]. apply S4; [done|]. apply I9'. by apply (keys_ext h _ _ k S5 Hkh).
Qed.

(** [h] begins its body, or goes on in it. *)
Lemma begin_body w h f :
  holds w h f → h ∉ begun w → h ∉ (ended w).*1 → wp (set_point h in_body;; note_begun h) (λ _, coro_inv) w.
Proof using Type.
  intros Hh Hb He. pose proof Hh as [Hi Hf Hp Hn]. eapply wp_bind, wp_set_point; [done|]. apply wp_modify.
  pose proof Hi as [_ I2 I3 _ _ [I6 _] [I7 _] _ [I9 I9']].
  eapply inv_close; [done|..]; simpl; try done.
  - split; simpl; try done; [intros k Hk; by rewrite lookup_insert_ne|]. set_solver.
  - intros f'. rewrite lookup_insert_eq. intros [= <-]. split; [done|]. split; simpl; [|done]. split; [|set_solver].
    intros Hx. by apply I3 in Hx as [? _].
  - by rewrite lookup_insert_eq.
  - apply NoDup_app. split_and!; [done|set_solver|apply NoDup_singleton].
  - intros k Hk. destruct (I3 k Hk) as (? & ? & ?). split; [|done]. by apply lookup_insert_is_Some'; right.
  - intros r Hr. by apply (list_elem_of_fmap_2 fst) in Hr.
Qed.

Lemma go_on w h f : holds w h f → h ∈ begun w → h ∉ (ended w).*1 → wp (set_point h in_body) (λ _, coro_inv) w.
Proof using Type.
  intros Hh Hb He. pose proof Hh as [Hi Hf Hp Hn]. eapply wp_set_point; [done|].
  pose proof Hi as [_ I2 I3 _ _ [I6 _] [I7 _] _ [I9 I9']].
  eapply inv_close; [done|..]; simpl; try done.
  - split; simpl; try done. intros k Hk. by rewrite lookup_insert_ne.
  - intros f'. rewrite lookup_insert_eq. intros [= <-]. split; [done|]. split; simpl; [|done]. split; [|done].
    intros Hx. by apply I3 in Hx as [? _].
  - by rewrite lookup_insert_eq.
  - intros k Hk. destruct (I3 k Hk) as (? & ? & ?). split; [|done]. by apply lookup_insert_is_Some'; right.
  - intros r Hr. by apply (list_elem_of_fmap_2 fst) in Hr.
Qed.

(** The outcome is stored and published. *)
Lemma finish_spec w h f r :
  holds w h f → (h, r) ∈ ended w ∨ r = inr broken_task ∧ h ∉ begun w → wp (finish h r) (λ _, coro_inv) w.
Proof using Type.
  intros Hh Hr. pose proof Hh as [Hi Hf Hp Hn]. pose proof Hi as [_ I2 I3 _ _ [I6 _] [I7 _] _ [I9 I9']].
  assert (h ∉ tasks w) as Ht by (intros Hx; by apply I3 in Hx as [? _]).
  apply wp_bind. eapply wp_bind, wp_get_frame; [done|]. destruct (f_has_result f) eqn:Hb.
  - rewrite Hp. eapply wp_bind, wp_ret, wp_modify, wp_bind, wp_get_frame; [simpl; apply lookup_insert_eq|]. simpl.
    eapply wp_bind, wp_set_point; [simpl; apply lookup_insert_eq|]. apply wp_modify. simpl. rewrite insert_insert_eq.
    eapply inv_close; [done|..]; simpl; rewrite ?fmap_app; try done.
    + split; simpl; try done; [intros k Hk; by rewrite lookup_insert_ne|]. set_solver.
    + intros f'. rewrite lookup_insert_eq. intros [= <-]. rewrite Hb. split; [done|]. split; simpl; [|done]. rewrite fmap_app. set_solver.
    + by rewrite lookup_insert_eq.
    + apply NoDup_app. split_and!; [done|set_solver|apply NoDup_singleton].
    + intros k Hk. destruct (I3 k Hk) as (? & ? & ?). split; [|done]. by apply lookup_insert_is_Some'; right.
    + intros r' [Hr'|[= ->]%list_elem_of_singleton]%elem_of_app; [by apply (list_elem_of_fmap_2 fst) in Hr'|done].
    + apply I9'.
  - apply wp_ret. eapply wp_bind, wp_get_frame; [done|]. rewrite Hb. apply wp_modify.
    eapply inv_close; [done|..]; simpl; try done.
    + split; simpl; try done. intros k Hk. by rewrite lookup_delete_ne.
    + intros f'. by rewrite lookup_delete_eq.
    + by rewrite Hb.
    + intros k Hk. destruct (I3 k Hk) as (? & ? & ?). split; [|done]. rewrite lookup_delete_ne by congruence. done.
    + intros r' Hr'. by apply (list_elem_of_fmap_2 fst) in Hr'.
    + apply I9'.
Qed.

(** [h] waits for an executor. *)
Definition at_executor (w : world V E) (h : nat) (f : coro_frame V) (initial broken : bool) : Prop :=
  f_point f = for_executor initial broken ∧ (initial = true ↔ h ∉ begun w) ∧ h ∉ (ended w).*1.

Lemma resume_spec w h f initial broken :
  holds w h f → at_executor w h f initial broken → wp (resume_coroutine h) (λ _, coro_inv) w.
Proof using Type.
  intros Hh (Hp & Hb & He). pose proof Hh as [Hi Hf Hi' Hn]. eapply wp_bind, wp_get_frame; [done|]. rewrite Hp.
  destruct initial.
  - destruct broken; simpl; [|eapply begin_body; [done| |done]; by apply Hb].
    eapply finish_spec; [done|]. right. split; [done|]. by apply Hb.
  - eapply go_on; [done| |done]. destruct (decide (h ∈ begun w)) as [|Hx]; [done|]. by apply Hb in Hx.
Qed.

Lemma holds_point w h f p :
  holds w h f →
  holds (World (<[h := CoroFrame (f_has_result f) p (f_producer f)]> (frames w)) (executors w) (tasks w) (called w) (begun w) (ended w) (published w))
    h (CoroFrame (f_has_result f) p (f_producer f)).
Proof using Type.
  intros [[I1 I2 I3 I4 I5 I6 I7 I8 I9] Hf Hp Hn]. split; simpl; [|apply lookup_insert_eq|done..]. split; simpl; try done.
  - intros k g [[<- <-]|[Hk Hg]]%lookup_insert_Some; simpl.
    + split; [|done]. by apply I1 in Hf as [? _].
    + destruct (I1 k g Hg) as [? Hok]. done.
  - intros k Hk. destruct (I3 k Hk) as (? & ? & ?). split_and!; [done| |done]. by apply lookup_insert_is_Some'; right.
  - intros k Hk [? _]%lookup_insert_None. by apply I5.
Qed.

Lemma interrupt_spec w h f initial broken :
  holds w h f → at_executor w h f initial broken → wp (interrupt h) (λ _, coro_inv) w.
Proof using Type.
  intros Hh (Hp & Hb & He). eapply wp_bind, wp_get_frame; [apply Hh|]. rewrite Hp. eapply wp_bind, wp_set_point; [apply Hh|].
  eapply resume_spec; [by apply holds_point|]. by split_and!.
Qed.

(** *** The deeds *)

Lemma start_holds w h b p :
  coro_inv w → h ∉ (called w).*1 →
  let w' := World (<[h := CoroFrame b p None]> (frames w)) (executors w) (tasks w) (called w ++ [(h, b)]) (begun w) (ended w) (published w) in
  holds w' h (CoroFrame b p None) ∧ h ∉ begun w ∧ h ∉ (ended w).*1.
Proof using Type.
  intros [I1 I2 I3 I4 I5 [I6 I6'] [I7 I7'] I8 [I9 I9']] Hc. simpl.
  assert (h ∉ begun w) as Hb by auto. assert (h ∉ (published w).*1) as Hp by auto. assert (h ∉ (ended w).*1) as He by auto.
  assert (frames w !! h = None) as Hf.
  { destruct (frames w !! h) as [f|] eqn:Ef; [|done]. apply I1 in Ef as [Ef _]. by apply (list_elem_of_fmap_2 fst) in Ef. }
  split; [|done]. split; simpl; [|apply lookup_insert_eq|done|done]. split; simpl; rewrite ?fmap_app; try done.
  - intros k g [[<- <-]|[Hk Hg]]%lookup_insert_Some; simpl; [set_solver|]. destruct (I1 k g Hg) as [? Hok]. split; [set_solver|]. intros _. by apply Hok.
  - intros k Hk. destruct (I3 k Hk) as (_ & Hs & ?). split_and!; [|by apply lookup_insert_is_Some'; right|done].
    intros [= ->]. rewrite Hf in Hs. by destruct Hs.
  - apply NoDup_app. split_and!; [done|set_solver|apply NoDup_singleton].
  - intros k [Hk|Hk]%elem_of_app [Hn Hne]%lookup_insert_None; [by apply I5|]. apply list_elem_of_singleton in Hk. congruence.
  - split; [done|]. intros k Hk. apply I6' in Hk. set_solver.
  - split; [done|]. intros k Hk. apply I7' in Hk. set_solver.
Qed.

(** A coroutine that is taken from its executor, or from its body. *)
Lemma take_holds w h f ts :
  coro_inv w → frames w !! h = Some f → f_point f ≠ at_final → ts = filter (.≠ h) (tasks w) →
  holds (World (frames w) (executors w) ts (called w) (begun w) (ended w) (published w)) h f ∧ h ∉ (ended w).*1.
Proof using Type.
  intros [I1 I2 I3 I4 I5 I6 I7 I8 I9] Hf Hp ->. destruct (I1 h f Hf) as [_ [_ Hfin]]; [done|]. destruct (Hfin Hp) as (Hn & Hpub & He).
  split; [|done]. split; simpl; try done. split; simpl; try done.
  - intros k g Hk. destruct (I1 k g Hk) as [? Hok]. split; [done|]. intros Hkh. specialize (Hok ltac:(done)).
    assert (k ≠ h) by congruence. eapply (frame_ok_ext h); [|done|exact Hok]. split; simpl; try done. intros k' Hk'. rewrite list_elem_of_filter. naive_solver.
  - by apply NoDup_filter.
  - intros k [Hk Hk']%list_elem_of_filter. destruct (I3 k Hk') as (_ & ? & ?). split_and!; [congruence|done..].
Qed.

Lemma task_frame w h : coro_inv w → h ∈ tasks w → ∃ f initial, frames w !! h = Some f ∧ at_executor w h f initial false.
Proof using Type.
  intros Hi Ht. destruct (i_task _ _ Hi h Ht) as (_ & [f Hf] & _). destruct (i_frames _ _ Hi h f Hf) as [_ [Hok Hfin]]; [done|]. exists f.
  destruct (f_point f) as [initial broken| |] eqn:Ep; [|by destruct Hok..]. destruct Hok as (-> & _ & Hb). exists initial. split; [done|].
  split; [done|]. split; [done|]. by apply Hfin.
Qed.

Lemma body_frame w h : coro_inv w → at_point h is_in_body w = true →
  ∃ f, frames w !! h = Some f ∧ f_point f = in_body ∧ holds w h f ∧ h ∈ begun w ∧ h ∉ (ended w).*1.
Proof using Type.
  unfold at_point. intros Hi Ha. destruct (frames w !! h) as [f|] eqn:Hf; [|done]. destruct (f_point f) eqn:Ep; [done| |done]. exists f. do 2 (split; [done|]).
  destruct (i_frames _ _ Hi h f Hf) as [_ [Hok _]]; [done|]. rewrite Ep in Hok. destruct Hok as [Ht Hb].
  destruct (take_holds w h f (tasks w) Hi Hf) as [Hh He]; [by rewrite Ep|symmetry; apply filter_all; by intros k Hk ->|by destruct w].
Qed.

Lemma end_holds w h f r : holds w h f → h ∈ begun w → h ∉ (ended w).*1 →
  holds (World (frames w) (executors w) (tasks w) (called w) (begun w) (ended w ++ [(h, r)]) (published w)) h f.
Proof using Type.
  intros [[I1 I2 I3 I4 I5 I6 I7 I8 [I9 I9']] Hf Hp Hn] Hb He. split; simpl; try done. split; simpl; rewrite ?fmap_app; try done.
  - intros k g Hk. destruct (I1 k g Hk) as [? Hok]. split; [done|]. intros Hkh. specialize (Hok Hkh).
    eapply (frame_ok_ext h); [|congruence|exact Hok]. split; simpl; try done. set_solver.
  - intros k r' Hr. destruct (I8 k r' Hr) as [|]; [left; set_solver|by right].
  - split; [|set_solver]. apply NoDup_app. split_and!; [done|set_solver|apply NoDup_singleton].
Qed.

Lemma release_inv w h : coro_inv w → at_point h is_at_final w = true →
  coro_inv (World (delete h (frames w)) (executors w) (tasks w) (called w) (begun w) (ended w) (published w)).
Proof using Type.
  unfold at_point. intros [I1 I2 I3 I4 I5 I6 I7 I8 I9] Ha. destruct (frames w !! h) as [f|] eqn:Hf; [|done]. destruct (I1 h f Hf) as [_ [Hok _]]; [done|].
  destruct (f_point f) eqn:Ep; [done..|]. destruct Hok as (Ht & _ & Hp). split; simpl; try done.
  - intros k g [Hk Hg]%lookup_delete_Some. destruct (I1 k g Hg) as [? Hok]. split; [done|]. intros _. by apply Hok.
  - intros k Hk. destruct (I3 k Hk) as (? & ? & ?). split_and!; [done| |done]. rewrite lookup_delete_ne; [done|congruence].
  - intros k Hk [->|Hn]%lookup_delete_None; [done|by apply I5].
Qed.
Context `{!ExecutorLaws E job}.

(** The functor is handed to an executor, or destroyed. *)
Lemma post_functor_spec w h f initial x :
  holds w h f → at_executor w h f initial false → x < length (executors w) → wp (post_functor h x) (λ _, coro_inv) w.
Proof using ExecutorLaws0.
  intros Hh Ha Hx. apply wp_bind, wp_get. destruct (lookup_lt_is_Some_2 _ _ Hx) as [e He]. rewrite He. unfold post.
  change (bind_with_try_catch (functor_job h)) with (functor_job h). destruct (ex_shut e) eqn:Hs.
  { rewrite (enqueue_rejects _ _ Hs). by eapply interrupt_spec. }
  destruct (enqueue_accepts (functor_job h) e Hs) as (e' & -> & Hacc). apply wp_modify.
  pose proof Hh as [Hi Hf Hi' Hn]. pose proof Hi as [_ I2 I3 _ _ [I6 _] [I7 _] _ [I9 I9']].
  assert (h ∉ tasks w) as Ht by (intros Hy; by apply I3 in Hy as [? _]). destruct Ha as (Hp & Hb & Hen).
  eapply inv_close; [done|..]; simpl; try done.
  - split; simpl; try done. set_solver.
  - intros f'. rewrite Hf. intros [= <-]. split; [done|]. split; simpl; [|done]. rewrite Hp. split_and!; [done|set_solver|apply Hb..].
  - by rewrite Hf.
  - apply NoDup_app. split_and!; [done|set_solver|apply NoDup_singleton].
  - intros k [Hk| ->%list_elem_of_singleton]%elem_of_app.
    + destruct (I3 k Hk) as (_ & ? & e1 & He1 & Hj). split; [done|]. apply list_elem_of_lookup in He1 as [y Hy].
      destruct (decide (y = x)) as [->|Hyx].
      * rewrite He in Hy. injection Hy as <-. exists e'. split; [|rewrite Hacc; by right]. eapply list_elem_of_lookup_2. by apply list_lookup_insert_eq.
      * exists e1. split; [|done]. eapply list_elem_of_lookup_2. by rewrite list_lookup_insert_ne.
    + split; [done|]. exists e'. split; [eapply list_elem_of_lookup_2; by apply list_lookup_insert_eq|]. rewrite Hacc. by left.
  - intros r Hr. by apply (list_elem_of_fmap_2 fst) in Hr.
Qed.


Lemma call_coroutine_spec w h t arguments :
  coro_inv w → h ∉ (called w).*1 → forallb (known_executor w) arguments = true → wp (call_coroutine h t arguments) (λ _, coro_inv) w.
Proof using ExecutorLaws0.
  intros Hi Hc Hk. unfold call_coroutine. destruct (coroutine_traits t arguments) as [b|b|] eqn:Et; [| |by apply wp_ret].
  - apply wp_bind, wp_modify. destruct (start_holds w h b in_body Hi Hc) as (Hh & Hb & He).
    apply wp_keep. pose proof (begin_body _ _ _ Hh Hb He) as Hw.
    unfold wp, note_begun, modify in *. revert Hw. unfold set_point, get_frame, set_frame, mbind, comp_bind, get_state, modify. simpl.
    rewrite lookup_insert_eq. simpl. by rewrite insert_insert_eq.
  - destruct (initial_executor arguments) as [x| |] eqn:Ex; [|by apply wp_ret..]. apply wp_bind, wp_modify.
    destruct (start_holds w h b (for_executor true false) Hi Hc) as (Hh & Hb & He).
    apply wp_keep. eapply post_functor_spec; [exact Hh|split; [done|]; by split|]. simpl.
    destruct arguments as [|[|x1|x1|x1|] [|[|[y|]|y|[y|]|] l]]; simpl in *; try discriminate; injection Ex as <-; by apply andb_true_iff in Hk as [Hk%bool_decide_eq_true _].
Qed.

Lemma coro_inv_deed d w : coro_inv w → wp (do_deed d) (λ _, coro_inv) w.
Proof using ExecutorLaws0.
  intros Hi. apply wp_bind, wp_get. destruct d as [h t arguments|h|h|h executor|h r construct|h].
  - destruct (bool_decide _ && _) eqn:Hg; [|apply wp_block]. apply andb_true_iff in Hg as [Hc%bool_decide_eq_true Hk].
    apply wp_keep. by apply call_coroutine_spec.
  - case_decide as Ht; [|apply wp_block]. apply wp_bind, wp_modify. destruct (task_frame w h Hi Ht) as (f & initial & Hf & Ha).
    eapply resume_spec; [eapply take_holds; try done; by rewrite (proj1 Ha)|exact Ha].
  - case_decide as Ht; [|apply wp_block]. apply wp_bind, wp_modify. destruct (task_frame w h Hi Ht) as (f & initial & Hf & Ha).
    eapply interrupt_spec; [eapply take_holds; try done; by rewrite (proj1 Ha)|exact Ha].
  - destruct (at_point h is_in_body w && _) eqn:Hg; [|apply wp_block]. apply andb_true_iff in Hg as [Hb Hk].
    destruct (body_frame w h Hi Hb) as (f & Hf & Hp & Hh & Hbe & He). apply wp_keep.
    unfold resume_on. destruct executor as [x|]; simpl; [|by apply wp_ret]. eapply wp_bind, wp_set_point; [done|].
    apply wp_keep.
    eapply post_functor_spec; [by apply holds_point| |by apply bool_decide_eq_true in Hk]. split; [done|]. by split.
  - destruct (at_point h is_in_body w) eqn:Hb; [|apply wp_block]. destruct (body_frame w h Hi Hb) as (f & Hf & Hp & Hh & Hbe & He).
    apply wp_bind, wp_modify. eapply finish_spec; [by apply end_holds|]. left. simpl. set_solver.
  - destruct (at_point h is_at_final w) eqn:Ha; [|apply wp_block]. apply wp_modify. by apply release_inv.
Qed.

Lemma reachable_coro_inv w : coro_reachable w → coro_inv w.
Proof using ExecutorLaws0.
  apply reachable_inv.
  - intros ? [es ->]. split; simpl; try done; try (split; [constructor|set_solver]); try constructor; set_solver.
  - intros w1 w2 Hi [d w' Hd]. exact (wp_done _ _ _ _ _ (coro_inv_deed d w1 Hi) Hd).
Qed.

(** ** Theorems *)

(** Where the coroutine [h] is.  While it waits for an executor, its functor is a task
    that some executor has accepted. *)
Definition accounted (w : world V E) (h : nat) (has_result : bool) : Prop :=
  match frames w !! h with
  | None => h ∉ tasks w ∧ (has_result = true → h ∈ (published w).*1)
  | Some f =>
      match f_point f with
      | for_executor initial broken =>
          broken = false ∧ h ∈ tasks w ∧ h ∉ (published w).*1 ∧ (initial = true ↔ h ∉ begun w) ∧
          ∃ e, e ∈ executors w ∧ functor_job h ∈ ex_accepted e
      | in_body => h ∈ begun w ∧ h ∉ tasks w ∧ h ∉ (published w).*1
      | at_final => h ∉ tasks w ∧ h ∈ (published w).*1
      end
  end.

(** C12: However coroutines are called, rescheduled, interrupted and ended, no frame is used
    when it is gone, none is resumed that is not suspended, and no result is set
    twice.  A coroutine is with exactly one task of an executor, or in its body, or its
    outcome is published, exactly once: what the body has returned or thrown, or
    [broken_task] if the body was never begun.  The body is begun at most once.  When the
    executors have no task left and no body is under way, every result has its
    outcome. *)
Theorem coroutines_resolve w :
  coro_reachable w →
  (∀ d f, do_deed d w ≠ Fault f) ∧
  (∀ h b, (h, b) ∈ called w → accounted w h b) ∧
  NoDup (tasks w) ∧ NoDup (begun w) ∧ NoDup (published w).*1 ∧
  (∀ h r, (h, r) ∈ published w → (h, r) ∈ ended w ∨ r = inr broken_task ∧ h ∉ begun w) ∧
  (tasks w = [] → (∀ h, at_point h is_in_body w = false) → ∀ h, (h, true) ∈ called w → h ∈ (published w).*1).
Proof using ExecutorLaws0.
  intros Hi%reachable_coro_inv. assert (∀ h b, (h, b) ∈ called w → accounted w h b) as Hacc.
  { intros h b Hc. unfold accounted. destruct (frames w !! h) as [f|] eqn:Hf.
    - destruct (i_frames _ _ Hi h f Hf) as [_ [Hok Hfin]]; [done|]. destruct (f_point f) as [initial broken| |].
      + destruct Hok as (-> & Ht & Hb). destruct (Hfin ltac:(done)) as (_ & Hp & _). do 4 (split; [done|]). by apply (i_task _ _ Hi).
      + destruct Hok. by destruct (Hfin ltac:(done)) as (_ & ? & _).
      + by destruct Hok as (? & _ & ?).
    - split; [|intros ->; by apply (i_gone _ _ Hi)]. intros Ht. apply (i_task _ _ Hi) in Ht as (_ & [f Hf'] & _). congruence. }
  split_and!; try done.
  - intros d f. exact (wp_no_fault _ _ _ f (coro_inv_deed d w Hi)).
  - apply Hi.
  - apply Hi.
  - apply Hi.
  - apply Hi.
  - intros Ht Hb h Hc. specialize (Hacc h true Hc). unfold accounted in Hacc. specialize (Hb h). unfold at_point in Hb.
    destruct (frames w !! h) as [f|]; [|by apply Hacc]. destruct (f_point f); [|done|by apply Hacc].
    destruct Hacc as (_ & Hx & _). rewrite Ht in Hx. by apply not_elem_of_nil in Hx.
Qed.

(** [submit] to an executor that was shut down does not throw: the call returns a
    result in which [broken_task] is published, and the callable is not run.  A parallel
    coroutine with a null executor throws [invalid_argument] and makes no frame. *)
Theorem submit_after_shutdown w h x e :
  executors w !! x = Some e → ex_shut e = true →
  (∃ w', submit h x w = Done (Ret tt) w' ∧ published w' = published w ++ [(h, inr broken_task)] ∧ begun w' = begun w ∧ tasks w' = tasks w) ∧
  ∀ t l, t ≠ returns_lazy_result → call_coroutine h t (p_executor_tag :: p_executor_shared None :: l) w = Done (Throw invalid_argument) w.
Proof using ExecutorLaws0.
  intros He Hs. split; [|by intros []].
  unfold submit, call_coroutine, start_frame, post_functor, post, interrupt, resume_coroutine, finish, store_outcome, final_suspend, set_point, get_frame,
    set_frame, note_published, mret, comp_ret, mbind, comp_bind, get_state, modify. simpl. rewrite He, (enqueue_rejects _ _ Hs).
  simpl. repeat (rewrite lookup_insert_eq; simpl). by eexists.
Qed.
End coroutines.

(** ** Three coroutines on two executors, one of which was shut down *)

Definition two_executors : list (inline_executor job) := [InlineExecutor false []; InlineExecutor true []].
Definition some_calls : list (deed (V := nat)) :=
  [d_call 1 returns_result [p_executor_tag; p_executor_ref 0]; d_run 1; d_resume_on 1 (Some 1); d_end 1 (inl 42) None;
   d_call 2 returns_result [p_executor_tag; p_executor_shared (Some 1)]; d_release 2;
   d_call 3 returns_null_result []; d_end 3 (inr (user_exn 0)) None].

Lemma coroutines_resolve_witness :
  match run_deeds do_deed some_calls (World ∅ two_executors [] [] [] [] []) with
  | Some w => published w = [(1, inl 42); (2, inr broken_task)] ∧ begun w = [1; 3] ∧ accounted w 1 true
  | None => False
  end.
Proof.
  destruct (run_deeds do_deed some_calls (World ∅ two_executors [] [] [] [] [])) as [w|] eqn:Hw; [|vm_compute in Hw; discriminate].
  assert (coro_reachable w) as Hr.
  { eapply run_deeds_reachable; [by econstructor| |exact Hw]. apply reachable_init. by exists two_executors. }
  vm_compute in Hw. injection Hw as <-. split; [reflexivity|]. split; [reflexivity|].
  exact (proj1 (proj2 (coroutines_resolve _ Hr)) 1 true (list_elem_of_here _ _)).
Defined.

Lemma submit_after_shutdown_witness :
  ∃ w' : world nat (inline_executor job), submit 1 1 (World ∅ two_executors [] [] [] [] []) = Done (Ret tt) w' ∧
    published w' = [(1, inr broken_task)].
Proof.
  destruct (proj1 (submit_after_shutdown (World (V := nat) ∅ two_executors [] [] [] [] []) 1 1 (InlineExecutor true [])
    ltac:(reflexivity) ltac:(reflexivity)))
    as (w' & Hs & Hp & _).
  exists w'. split; [exact Hs|exact Hp].
Defined.
