(* ===== verification/ManualExecutor.v ===== *)
(** * [manual_executor]

    A deque of tasks that the threads which call [loop] run.  Each critical
    section of the source is one transition; between the sections other threads,
    and the task that runs, may use the executor. *)

From S2P Require Import Prelude Conc Executor.
From stdpp Require Import options.
Local Open Scope cpp_scope.

(** [me_ran] and [me_dropped] are ghosts: the tasks that were run, and those
    destroyed without being run, latest first. *)
Record manual_executor (A : Type) : Type := ManualExecutor {
  m_tasks : list A;
  m_abort : bool;
  m_atomic_abort : bool;
  me_ran : list A;
  me_dropped : list A }.
Arguments ManualExecutor {A}.
Arguments m_tasks {A} _.
Arguments m_abort {A} _.
Arguments m_atomic_abort {A} _.
Arguments me_ran {A} _.
Arguments me_dropped {A} _.

Definition k_manual_executor_name : string := "concurrencpp::manual_executor".

(** What the environment does at the points where the lock is free: [run t]
    while task [t] runs, [pause k] during the [k]-th wait; and the clock, in
    nanoseconds, at its [k]-th reading. *)
Record environment (A : Type) : Type := Environment {
  run : A → manual_executor A → manual_executor A;
  pause : nat → manual_executor A → manual_executor A;
  now : nat → Z }.
Arguments run {A} _.
Arguments pause {A} _.
Arguments now {A} _.

Section manual.
Context {A : Type} (env : environment A).
Implicit Types e : manual_executor A.

Definition manual_init : manual_executor A := ManualExecutor [] false false [] [].

Definition throw_shutdown {B} : outcome B := Throw (runtime_shutdown k_manual_executor_name).

(** ** Enqueueing *)

Definition with_tasks (ts : list A) e : manual_executor A :=
  ManualExecutor ts (m_abort e) (m_atomic_abort e) (me_ran e) (me_dropped e).

Definition enqueue (t : A) e : outcome (manual_executor A) :=
  if m_abort e then throw_shutdown else Ret (with_tasks (m_tasks e ++ [t]) e).

Definition enqueue_span (ts : list A) e : outcome (manual_executor A) :=
  if m_abort e then throw_shutdown else Ret (with_tasks (m_tasks e ++ ts) e).

Definition size e : nat := length (m_tasks e).
Definition empty e : bool := Nat.eqb (size e) 0.

(** [clear]: the tasks are destroyed, their number returned. *)
Definition clear e : outcome (nat * manual_executor A) :=
  if m_abort e then throw_shutdown
  else Ret (length (m_tasks e),
            ManualExecutor [] (m_abort e) (m_atomic_abort e) (me_ran e) (rev (m_tasks e) ++ me_dropped e)).

Definition shutdown e : manual_executor A :=
  if m_atomic_abort e then e
  else ManualExecutor [] true true (me_ran e) (rev (m_tasks e) ++ me_dropped e).

Definition shutdown_requested e : bool := m_atomic_abort e.

(** ** [loop_impl] *)

(** Takes the front task and runs it. *)
Definition run_front (t : A) (ts : list A) e : manual_executor A :=
  run env t (ManualExecutor ts (m_abort e) (m_atomic_abort e) (t :: me_ran e) (me_dropped e)).

(** The loop with [n] rounds left: the number of tasks it executes. *)
Fixpoint loop_rounds (n : nat) e : nat * manual_executor A :=
  match n with
  | 0 => (0, e)
  | S n =>
      if m_abort e then (0, e) else
      match m_tasks e with
      | [] => (0, e)
      | t :: ts => let '(k, e') := loop_rounds n (run_front t ts e) in (S k, e')
      end
  end.

Definition loop_impl (max_count : nat) e : outcome nat * manual_executor A :=
  if Nat.eqb max_count 0 then (Ret 0, e) else
  let '(executed, e') := loop_rounds max_count e in
  (if shutdown_requested e' then throw_shutdown else Ret executed, e').

(** ** [loop_until_impl] *)

Definition ms : Z := 1000000.

(** [m_condition.wait_until(lock, deadline, pred)]: waits unless the predicate
    holds, and answers what the predicate says at the end. *)
Definition wait_until (k : nat) (pred : manual_executor A → bool) e : bool * manual_executor A :=
  if pred e then (true, e) else let e' := pause env k e in (pred e', e').

Definition has_task_or_abort e : bool := negb (empty e) || m_abort e.

(** The loop with [n] rounds left, from the [k]-th reading of the clock on. *)
Fixpoint loop_until_rounds (n k : nat) (deadline : Z) e : nat * manual_executor A :=
  match n with
  | 0 => (0, e)
  | S n =>
      if decide (deadline ≤ now env k)%Z then (0, e) else
      let '(found_task, e1) := wait_until k has_task_or_abort e in
      if m_abort e1 then (0, e1) else
      if negb found_task then (0, e1) else
      match m_tasks e1 with
      | [] => (0, e1) (* excluded by an assertion: the predicate held, without abort *)
      | t :: ts => let '(c, e') := loop_until_rounds n (S k) deadline (run_front t ts e1) in (S c, e')
      end
  end.

Definition loop_until_impl (max_count : nat) (deadline : Z) e : outcome nat * manual_executor A :=
  if Nat.eqb max_count 0 then (Ret 0, e) else
  let '(executed, e') := loop_until_rounds max_count 0 (deadline + ms)%Z e in
  (if shutdown_requested e' then throw_shutdown else Ret executed, e').

(** The public loops; the time point of a [_for] is the reading before. *)
Definition loop_once e : outcome bool * manual_executor A :=
  let '(r, e') := loop_impl 1 e in (let! n := r in Ret (negb (Nat.eqb n 0)), e').

Definition loop_once_for (start max_waiting_time : Z) e : outcome bool * manual_executor A :=
  if decide (max_waiting_time = 0)%Z then loop_once e
  else let '(r, e') := loop_until_impl 1 (start + max_waiting_time)%Z e in
       (let! n := r in Ret (negb (Nat.eqb n 0)), e').

Definition loop_for (max_count : nat) (start max_waiting_time : Z) e : outcome nat * manual_executor A :=
  if Nat.eqb max_count 0 then (Ret 0, e) else
  if decide (max_waiting_time = 0)%Z then loop_impl max_count e
  else loop_until_impl max_count (start + max_waiting_time)%Z e.

Definition loop_until (max_count : nat) (timeout_time : Z) e : outcome nat * manual_executor A :=
  loop_until_impl max_count timeout_time e.

(** ** Waiting for tasks *)

Definition enough_or_abort (count : nat) e : bool := Nat.leb count (size e) || m_abort e.

(** [wait_for_tasks_impl(count)]: [None] while it has to wait. *)
Definition wait_for_tasks_impl (count : nat) e : option (outcome unit) :=
  if Nat.eqb count 0 then Some (if shutdown_requested e then throw_shutdown else Ret tt)
  else if enough_or_abort count e then Some (if m_abort e then throw_shutdown else Ret tt)
  else None.

(** [wait_for_tasks_impl(count, deadline)] *)
Definition wait_for_tasks_until_impl (count : nat) e : outcome nat * manual_executor A :=
  let '(_, e') := wait_until 0 (enough_or_abort count) e in
  (if m_abort e' then throw_shutdown else Ret (size e'), e').

(** [wait_for_task_for] and [wait_for_task_until] *)
Definition wait_for_task_for e : outcome bool * manual_executor A :=
  let '(r, e') := wait_for_tasks_until_impl 1 e in (let! n := r in Ret (Nat.eqb n 1), e').

(** ** The promise of executors *)

#[global] Instance manual_executor_ops : Executor (manual_executor A) A := {|
  ex_name := k_manual_executor_name;
  ex_enqueue := enqueue;
  ex_enqueue_span := enqueue_span;
  ex_shut := m_abort;
  ex_accepted e := m_tasks e ++ me_ran e ++ me_dropped e |}.

#[global] Instance manual_executor_laws : ExecutorLaws (manual_executor A) A.
Proof.
  split; simpl; unfold enqueue, enqueue_span; intros x e Hs; rewrite Hs; simpl; try done.
  - eexists. split; [done|]. simpl. rewrite <- (assoc_L (++)). simpl. by rewrite <- Permutation_middle.
  - intros _. eexists. split; [done|]. simpl. by rewrite (Permutation_app_comm (m_tasks e) x), <- (assoc_L (++)).
Qed.

(** ** Loops run tasks first in, first out *)

(** An environment that only enqueues. *)
Definition only_enqueues e e' : Prop :=
  ∃ new, e' = with_tasks (m_tasks e ++ new) e.

Lemma loop_rounds_spec n e :
  (∀ t e, only_enqueues e (run env t e)) → m_abort e = false →
  ∃ es new e', loop_rounds n e = (length es, e') ∧
    es ++ m_tasks e' = m_tasks e ++ new ∧ me_ran e' = rev es ++ me_ran e ∧
    length es ≤ n ∧ (length es < n → m_tasks e' = []) ∧
    m_abort e' = m_abort e ∧ m_atomic_abort e' = m_atomic_abort e ∧ me_dropped e' = me_dropped e.
Proof.
  intros Hrun. revert e. induction n as [|n IH]; intros e Hab.
  - exists [], [], e. rewrite app_nil_r. simpl. by repeat split; try lia.
  - simpl. rewrite Hab. destruct (m_tasks e) as [|t ts] eqn:Hts.
    + exists [], [], e. rewrite Hts. simpl. repeat split; try lia; done.
    + unfold run_front. set (e0 := ManualExecutor _ _ _ _ _).
      destruct (Hrun t e0) as [new1 Heq]. rewrite Heq.
      destruct (IH (with_tasks (m_tasks e0 ++ new1) e0)) as (es & new & e' & -> & Ht & Hr & Hle & Hlt & ? & ? & ?); [done|].
      exists (t :: es), (new1 ++ new), e'. simpl in *. rewrite Ht, Hr. split_and!; try done; try lia; try congruence.
      * by rewrite <- !(assoc_L (++)).
      * by rewrite <- (assoc_L (++)).
      * intros. apply Hlt. lia.
Qed.
End manual.

(** ** Theorems *)

(** [loop] runs the tasks in the order of the queue: while the executor is
    open and the tasks only enqueue more, it runs at most [max_count] tasks and
    says how many; the tasks it ran, followed by those left, are the tasks there
    were, followed by those that came; and it stops early only when the queue is
    empty. *)
Theorem manual_loop_fifo {A} (env : environment A) max_count e :
  (∀ t e, only_enqueues e (run env t e)) → m_abort e = false → m_atomic_abort e = false →
  ∃ es new e', loop_impl env max_count e = (Ret (length es), e') ∧
    es ++ m_tasks e' = m_tasks e ++ new ∧ me_ran e' = rev es ++ me_ran e ∧
    length es ≤ max_count ∧ (length es < max_count → m_tasks e' = []) ∧ me_dropped e' = me_dropped e.
Proof.
  intros Hrun Hab Hat. destruct (loop_rounds_spec env max_count e Hrun Hab)
    as (es & new & e' & Hl & Ht & Hr & Hle & Hlt & Hab' & Hat' & Hd).
  exists es, new, e'. split_and!; try done. unfold loop_impl. destruct max_count as [|n]; simpl in *.
  - destruct es; simpl in *; [|lia]. by simplify_eq.
  - rewrite Hl. unfold shutdown_requested. by rewrite Hat', Hat.
Qed.

(** Tasks 1 and 2 are queued, and task 1 enqueues task 9. *)
Definition example_env : environment nat :=
  Environment nat (λ t e, if Nat.eqb t 1 then with_tasks (m_tasks e ++ [9]) e else e) (λ _ e, e) (λ _, 0%Z).

Lemma manual_loop_fifo_witness :
  ∃ es new e', loop_impl example_env 2 (ManualExecutor [1; 2] false false [] []) = (Ret (length es), e') ∧
    es ++ m_tasks e' = [1; 2] ++ new ∧ me_ran e' = rev es ++ [] ∧
    length es ≤ 2 ∧ (length es < 2 → m_tasks e' = []) ∧ me_dropped e' = [].
Proof.
  apply (manual_loop_fifo example_env 2 (ManualExecutor [1; 2] false false [] [])); [|done..].
  intros t e. simpl. destruct (Nat.eqb t 1); [by exists [9]|]. exists [].
  destruct e as [ts ? ? ? ?]. unfold with_tasks; simpl. by rewrite app_nil_r.
Defined.

(** [shutdown] is final: it destroys the queued tasks, and from then on
    every way to enqueue, clear, wait, or loop over tasks throws
    [runtime_shutdown], whatever the environment did to the executor before;
    shutting down again changes nothing. *)
Theorem manual_shutdown_final {A} (env : environment A) (e : manual_executor A) t ts n :
  m_atomic_abort e = false →
  let e' := shutdown e in
  m_tasks e' = [] ∧ me_dropped e' = rev (m_tasks e) ++ me_dropped e ∧ shutdown e' = e' ∧
  enqueue t e' = throw_shutdown ∧ enqueue_span ts e' = throw_shutdown ∧ clear e' = throw_shutdown ∧
  loop_impl env (S n) e' = (throw_shutdown, e') ∧
  (∀ d, (loop_until_impl env (S n) d e').1 = throw_shutdown) ∧
  wait_for_tasks_impl n e' = Some throw_shutdown.
Proof.
  intros Ha e'. subst e'. unfold shutdown. rewrite Ha. simpl. split_and!; try done.
  - intros d. unfold loop_until_impl. simpl. unfold wait_until; simpl. by case_decide.
  - unfold wait_for_tasks_impl, enough_or_abort. by destruct n.
Qed.

Lemma manual_shutdown_final_witness :
  let e' := shutdown (ManualExecutor [4] false false [] []) in
  m_tasks e' = [] ∧ me_dropped e' = [4] ∧ shutdown e' = e' ∧
  enqueue 5 e' = throw_shutdown ∧ enqueue_span [6] e' = throw_shutdown ∧ clear e' = throw_shutdown ∧
  loop_impl example_env 3 e' = (throw_shutdown, e') ∧
  (∀ d, (loop_until_impl example_env 3 d e').1 = throw_shutdown) ∧
  wait_for_tasks_impl 2 e' = Some throw_shutdown.
Proof. exact (manual_shutdown_final example_env (ManualExecutor [4] false false [] []) 5 [6] 2 eq_refl). Defined.

(** [wait_for_task_for] (and [wait_for_task_until], which is the same) says
    that no task is available whenever there are two or more. *)
Theorem wait_for_task_for_denies_two {A} (env : environment A) (e : manual_executor A) :
  m_abort e = false → 2 ≤ length (m_tasks e) → wait_for_task_for env e = (Ret false, e).
Proof.
  intros Hab Hlen. unfold wait_for_task_for, wait_for_tasks_until_impl, wait_until, enough_or_abort, size.
  rewrite (proj2 (Nat.leb_le 1 (length (m_tasks e)))) by lia. simpl. rewrite Hab. simpl.
  by rewrite (proj2 (Nat.eqb_neq (length (m_tasks e)) 1)) by lia.
Qed.

Lemma wait_for_task_for_denies_two_witness :
  wait_for_task_for example_env (ManualExecutor [1; 2] false false [] []) =
    (Ret false, ManualExecutor [1; 2] false false [] []).
Proof. apply (wait_for_task_for_denies_two example_env); simpl; [done|lia]. Defined.

(** [loop_until] with a time point more than a millisecond past runs no task,
    even if some are waiting; it is not the same as [loop] then. *)
Theorem loop_until_expired_runs_nothing {A} (env : environment A) (e : manual_executor A) n timeout_time :
  m_atomic_abort e = false → (timeout_time + ms ≤ now env 0)%Z →
  loop_until env n timeout_time e = (Ret 0, e).
Proof.
  intros Ha Ht. unfold loop_until, loop_until_impl. destruct n as [|n]; [done|]. simpl.
  rewrite decide_True by done. unfold shutdown_requested. by rewrite Ha.
Qed.

Lemma loop_until_expired_runs_nothing_witness :
  loop_until example_env 1 (-5000000) (ManualExecutor [1; 2] false false [] []) =
    (Ret 0, ManualExecutor [1; 2] false false [] []).
Proof. apply (loop_until_expired_runs_nothing example_env); done. Defined.
