(* ===== verification/WorkerThread.v ===== *)
(** * [worker_thread_executor]

    One thread that takes the public queue whole and runs it as its private
    queue.  The state machine has a step for each critical section and each
    operation on the semaphore and the flags. *)

From S2P Require Import Prelude Conc Executor.
From stdpp Require Import options.

Definition k_worker_thread_executor_name : string := "concurrencpp::worker_thread_executor".

(** Where the thread is: before [make_os_worker_thread]; about to lock in
    [drain_queue]; about to acquire the semaphore, or to lock again, in
    [wait_for_task]; in [drain_queue_impl]; out of [work_loop]. *)
Inductive worker_pc : Type :=
  | not_started
  | at_lock
  | at_acquire
  | at_relock
  | draining
  | left_loop.

#[global] Instance worker_pc_eq_dec : EqDecision worker_pc.
Proof. solve_decision. Defined.

(** How far [shutdown] has come. *)
Inductive shutdown_pc : Type :=
  | not_shut
  | exchanged
  | aborted
  | private_aborted
  | released
  | cleared.

#[global] Instance shutdown_pc_eq_dec : EqDecision shutdown_pc.
Proof. solve_decision. Defined.

(** [owed] counts the clients that found the queue empty, unlocked, and have not
    yet released the semaphore; [wt_ran] and [wt_dropped] are the tasks that
    were run or destroyed, in order, and [wt_accepted] those enqueued, latest
    last (ghosts). *)
Record worker_thread (A : Type) : Type := WorkerThread {
  m_private_queue : list A;
  m_public_queue : list A;
  m_semaphore : nat;
  m_abort : bool;
  m_private_atomic_abort : bool;
  m_atomic_abort : bool;
  wt_worker : worker_pc;
  wt_shutdown : shutdown_pc;
  owed : nat;
  wt_ran : list A;
  wt_dropped : list A;
  wt_accepted : list A }.
Arguments WorkerThread {A}.
Arguments m_private_queue {A} _.
Arguments m_public_queue {A} _.
Arguments m_semaphore {A} _.
Arguments m_abort {A} _.
Arguments m_private_atomic_abort {A} _.
Arguments m_atomic_abort {A} _.
Arguments wt_worker {A} _.
Arguments wt_shutdown {A} _.
Arguments owed {A} _.
Arguments wt_ran {A} _.
Arguments wt_dropped {A} _.
Arguments wt_accepted {A} _.

Section worker_thread.
Context {A : Type}.
Implicit Types e : worker_thread A.

(** [m_thread.joinable()] *)
Definition joinable e : bool := match wt_worker e with not_started => false | _ => true end.
Definition is_empty (q : list A) : bool := match q with [] => true | _ => false end.

Definition wt_init : worker_thread A :=
  WorkerThread [] [] 0 false false false not_started not_shut 0 [] [] [].

(** ** Clients *)

(** [enqueue_foreign], up to the unlock. *)
Definition enqueue_foreign (ts : list A) e : outcome (worker_thread A) :=
  if m_abort e then Throw (runtime_shutdown k_worker_thread_executor_name) else
  Ret (WorkerThread (m_private_queue e) (m_public_queue e ++ ts) (m_semaphore e) (m_abort e)
         (m_private_atomic_abort e) (m_atomic_abort e)
         (if joinable e then wt_worker e else at_lock) (wt_shutdown e)
         (if joinable e && is_empty (m_public_queue e) then S (owed e) else owed e)
         (wt_ran e) (wt_dropped e) (wt_accepted e ++ ts)).

(** [m_semaphore.release()] after the unlock; [c]: see [binary_release] *)
Definition client_release (c : nat) e : option (worker_thread A) :=
  match owed e with
  | 0 => None
  | S n => Some (WorkerThread (m_private_queue e) (m_public_queue e) (binary_release c (m_semaphore e)) (m_abort e)
                   (m_private_atomic_abort e) (m_atomic_abort e) (wt_worker e) (wt_shutdown e) n
                   (wt_ran e) (wt_dropped e) (wt_accepted e))
  end.

(** [enqueue_local], on the worker's own thread *)
Definition enqueue_local (ts : list A) e : outcome (worker_thread A) :=
  if m_private_atomic_abort e then Throw (runtime_shutdown k_worker_thread_executor_name) else
  Ret (WorkerThread (m_private_queue e ++ ts) (m_public_queue e) (m_semaphore e) (m_abort e)
         (m_private_atomic_abort e) (m_atomic_abort e) (wt_worker e) (wt_shutdown e) (owed e)
         (wt_ran e) (wt_dropped e) (wt_accepted e ++ ts)).

(** ** The worker *)

Definition set_worker (pc : worker_pc) e : worker_thread A :=
  WorkerThread (m_private_queue e) (m_public_queue e) (m_semaphore e) (m_abort e)
    (m_private_atomic_abort e) (m_atomic_abort e) pc (wt_shutdown e) (owed e)
    (wt_ran e) (wt_dropped e) (wt_accepted e).

(** [drain_queue] once [wait_for_task] has returned, under the lock: leave, or
    swap the queues and unlock. *)
Definition swap_queues e : worker_thread A :=
  if m_abort e then set_worker left_loop e else
  WorkerThread (m_public_queue e) (m_private_queue e) (m_semaphore e) (m_abort e)
    (m_private_atomic_abort e) (m_atomic_abort e) draining (wt_shutdown e) (owed e)
    (wt_ran e) (wt_dropped e) (wt_accepted e).

(** [wait_for_task] under the lock: go on if there is something to do, else to
    the semaphore. *)
Definition wait_for_task e : worker_thread A :=
  if negb (is_empty (m_public_queue e)) || m_abort e then swap_queues e
  else set_worker at_acquire e.

Definition worker_acquire e : option (worker_thread A) :=
  match m_semaphore e with
  | 0 => None
  | S n => Some (WorkerThread (m_private_queue e) (m_public_queue e) n (m_abort e)
                   (m_private_atomic_abort e) (m_atomic_abort e) at_relock (wt_shutdown e) (owed e)
                   (wt_ran e) (wt_dropped e) (wt_accepted e))
  end.

(** One round of [drain_queue_impl]: the front task is run, or destroyed if the
    executor was shut down meanwhile. *)
Definition drain_queue_impl e : worker_thread A :=
  match m_private_queue e with
  | [] => set_worker at_lock e
  | t :: ts =>
      if m_private_atomic_abort e then
        WorkerThread ts (m_public_queue e) (m_semaphore e) (m_abort e)
          (m_private_atomic_abort e) (m_atomic_abort e) left_loop (wt_shutdown e) (owed e)
          (wt_ran e) (wt_dropped e ++ [t]) (wt_accepted e)
      else
        WorkerThread ts (m_public_queue e) (m_semaphore e) (m_abort e)
          (m_private_atomic_abort e) (m_atomic_abort e) draining (wt_shutdown e) (owed e)
          (wt_ran e ++ [t]) (wt_dropped e) (wt_accepted e)
  end.

(** One step of the thread; [None] while it is blocked or not there. *)
Definition worker_step e : option (worker_thread A) :=
  match wt_worker e with
  | not_started | left_loop => None
  | at_lock | at_relock => Some (wait_for_task e)
  | at_acquire => worker_acquire e
  | draining => Some (drain_queue_impl e)
  end.

(** ** [shutdown], step by step *)

Definition set_shutdown (pc : shutdown_pc) e : worker_thread A :=
  WorkerThread (m_private_queue e) (m_public_queue e) (m_semaphore e) (m_abort e)
    (m_private_atomic_abort e) (m_atomic_abort e) (wt_worker e) pc (owed e)
    (wt_ran e) (wt_dropped e) (wt_accepted e).

Definition shutdown_step (c : nat) e : option (worker_thread A) :=
  match wt_shutdown e with
  | not_shut =>
      Some (WorkerThread (m_private_queue e) (m_public_queue e) (m_semaphore e) (m_abort e)
              (m_private_atomic_abort e) true (wt_worker e) exchanged (owed e)
              (wt_ran e) (wt_dropped e) (wt_accepted e))
  | exchanged =>
      Some (WorkerThread (m_private_queue e) (m_public_queue e) (m_semaphore e) true
              (m_private_atomic_abort e) (m_atomic_abort e) (wt_worker e) aborted (owed e)
              (wt_ran e) (wt_dropped e) (wt_accepted e))
  | aborted =>
      Some (WorkerThread (m_private_queue e) (m_public_queue e) (m_semaphore e) (m_abort e)
              true (m_atomic_abort e) (wt_worker e) private_aborted (owed e)
              (wt_ran e) (wt_dropped e) (wt_accepted e))
  | private_aborted =>
      Some (WorkerThread (m_private_queue e) (m_public_queue e) (binary_release c (m_semaphore e)) (m_abort e)
              (m_private_atomic_abort e) (m_atomic_abort e) (wt_worker e) released (owed e)
              (wt_ran e) (wt_dropped e) (wt_accepted e))
  | released =>
      (* join, then clear *)
      if negb (joinable e) || match wt_worker e with left_loop => true | _ => false end then
        Some (WorkerThread [] [] (m_semaphore e) (m_abort e)
                (m_private_atomic_abort e) (m_atomic_abort e) (wt_worker e) cleared (owed e)
                (wt_ran e) (wt_dropped e ++ m_private_queue e ++ m_public_queue e) (wt_accepted e))
      else None
  | cleared => None
  end.

(** A task that runs on the worker may enqueue to it, if [local] says so. *)
Inductive wt_step (local : bool) : worker_thread A → worker_thread A → Prop :=
  | wt_foreign ts e e' : ts ≠ [] → enqueue_foreign ts e = Ret e' → wt_step local e e'
  | wt_release c e e' : client_release c e = Some e' → wt_step local e e'
  | wt_local ts e e' : local = true → wt_worker e = draining → enqueue_local ts e = Ret e' → wt_step local e e'
  | wt_work e e' : worker_step e = Some e' → wt_step local e e'
  | wt_shut c e e' : shutdown_step c e = Some e' → wt_step local e e'.

Definition wt_reachable (local : bool) : worker_thread A → Prop :=
  reachable (λ e, e = wt_init) (wt_step local).

(** ** Invariants *)

Definition abort_set (pc : shutdown_pc) : bool :=
  match pc with not_shut | exchanged => false | _ => true end.

(** Which thread is where. *)
Record wt_control e : Prop := WtControl {
  ctl_private : wt_worker e ≠ draining → wt_worker e ≠ left_loop → m_private_queue e = [];
  ctl_not_started : wt_worker e = not_started → m_public_queue e = [] ∧ owed e = 0;
  ctl_wake : wt_worker e = at_acquire → m_public_queue e ≠ [] → 1 ≤ m_semaphore e + owed e;
  ctl_wake_abort : wt_worker e = at_acquire → m_abort e = true →
    1 ≤ m_semaphore e + owed e ∨ wt_shutdown e = aborted ∨ wt_shutdown e = private_aborted;
  ctl_abort : m_abort e = abort_set (wt_shutdown e);
  ctl_private_abort : m_private_atomic_abort e = true → m_abort e = true;
  ctl_left : wt_worker e = left_loop → m_abort e = true;
  ctl_cleared : wt_shutdown e = cleared → wt_worker e = left_loop ∨ wt_worker e = not_started;
  ctl_dropped : wt_worker e ≠ left_loop → wt_shutdown e ≠ cleared → wt_dropped e = [] }.

(** Where the tasks are, in order. *)
Definition wt_tasks e : list A := wt_ran e ++ wt_dropped e ++ m_private_queue e ++ m_public_queue e.

Record wt_inv (local : bool) e : Prop := WtInv {
  inv_control : wt_control e;
  inv_all : wt_tasks e ≡ₚ wt_accepted e;
  inv_fifo : local = false → wt_tasks e = wt_accepted e }.

Lemma wt_inv_init local : wt_inv local wt_init.
Proof. split; [split|..]; simpl; try done; auto; intros; lia. Qed.

(** Splits on where the two threads are, and closes what is then immediate. *)
Ltac wt_cases e :=
  destruct e as [priv pub sem ab pab aab w sh ow ran drp acc];
  destruct w, sh; simpl in *; simplify_eq/=.

Ltac wt_close :=
  split; simpl in *; intros; fwd; simplify_eq/=; try done; try lia; auto.

Lemma wt_step_control local e e' : wt_control e → wt_step local e e' → wt_control e'.
Proof.
  intros [I1 I2 I3 I4 I5 I6 I7 I8 I9] Hs.
  destruct Hs as [ts e e' Hts He|c e e' He|ts e e' _ Hw He|e e' He|c e e' He].
  - unfold enqueue_foreign in He. destruct (m_abort e) eqn:Hab; simplify_eq.
    wt_cases e; try discriminate; destruct pub; wt_close.
  - unfold client_release in He. destruct (owed e) eqn:Ho; simplify_eq.
    pose proof (binary_release_pos c (m_semaphore e)). wt_cases e; wt_close.
  - unfold enqueue_local in He. destruct (m_private_atomic_abort e) eqn:Hab; simplify_eq. wt_cases e; wt_close.
  - unfold worker_step in He. destruct (wt_worker e) eqn:Hw; simplify_eq.
    + unfold wait_for_task, swap_queues. wt_cases e; destruct pub; wt_close.
    + unfold worker_acquire in He. destruct (m_semaphore e) eqn:Hsem; simplify_eq. wt_cases e; wt_close.
    + unfold wait_for_task, swap_queues. wt_cases e; destruct pub; wt_close.
    + unfold drain_queue_impl. wt_cases e; destruct priv, pab; wt_close.
  - unfold shutdown_step in He. pose proof (binary_release_pos c (m_semaphore e)). wt_cases e; wt_close.
Qed.

Lemma worker_step_tasks e e' :
  wt_control e → worker_step e = Some e' → wt_tasks e' = wt_tasks e ∧ wt_accepted e' = wt_accepted e.
Proof.
  intros Hc He. unfold worker_step in He. unfold wt_tasks.
  destruct (wt_worker e) eqn:Hw; simplify_eq;
    unfold wait_for_task, swap_queues, worker_acquire, drain_queue_impl in *.
  1,3: repeat case_match; simplify_eq/=; try done; rewrite (ctl_private e Hc) by (by rewrite Hw); by rewrite app_nil_r.
  - repeat case_match; by simplify_eq/=.
  - destruct (m_private_queue e) as [|t ts] eqn:Hp; [simpl; by rewrite Hp|].
    pose proof (ctl_left e Hc). pose proof (ctl_dropped e Hc) as Hd. pose proof (ctl_cleared e Hc) as Hcl.
    assert (wt_dropped e = []) as Hnil.
    { apply Hd; rewrite ?Hw; [done|]. intros [?|?]%Hcl; congruence. }
    case_match; simpl; rewrite Hnil, ?Hp; simpl; by rewrite <- ?(assoc_L (++)).
Qed.

Lemma wt_step_tasks local e e' :
  wt_control e → wt_step local e e' →
  ∃ ts, wt_accepted e' = wt_accepted e ++ ts ∧ wt_tasks e' ≡ₚ wt_tasks e ++ ts ∧
    (local = false → wt_tasks e' = wt_tasks e ++ ts).
Proof.
  intros Hc Hs. destruct Hs as [ts e e' _ He|c e e' He|ts e e' Hloc Hw He|e e' He|c e e' He].
  - unfold enqueue_foreign in He. destruct (m_abort e); simplify_eq. exists ts.
    unfold wt_tasks; simpl. by rewrite <- !(assoc_L (++)).
  - unfold client_release in He. destruct (owed e); simplify_eq. exists []. by rewrite !app_nil_r.
  - unfold enqueue_local in He. destruct (m_private_atomic_abort e); simplify_eq. exists ts.
    unfold wt_tasks; simpl. split_and!; [done| |congruence].
    rewrite <- !(assoc_L (++)). do 3 apply Permutation_app_head. apply Permutation_app_comm.
  - destruct (worker_step_tasks e e' Hc He) as [-> ->]. exists []. by rewrite !app_nil_r.
  - exists []. unfold shutdown_step in He. unfold wt_tasks. repeat case_match; simplify_eq/=; rewrite ?app_nil_r; done.
Qed.

Lemma wt_reachable_inv local e : wt_reachable local e → wt_inv local e.
Proof.
  apply reachable_inv; [intros ? ->; apply wt_inv_init|].
  intros e1 e2 [Hc Ha Hf] Hs. pose proof (wt_step_control _ _ _ Hc Hs).
  destruct (wt_step_tasks _ _ _ Hc Hs) as (ts & Hacc & Hp & Hl).
  split; [done|by rewrite Hp, Ha, Hacc|]. intros Hlocal. by rewrite Hl, Hacc, Hf.
Qed.

(** ** The promise of executors, to the threads of the application *)

#[global] Instance worker_thread_ops : Executor (worker_thread A) A := {|
  ex_name := k_worker_thread_executor_name;
  ex_enqueue t := enqueue_foreign [t];
  ex_enqueue_span := enqueue_foreign;
  ex_shut := m_abort;
  ex_accepted := wt_accepted |}.

#[global] Instance worker_thread_laws : ExecutorLaws (worker_thread A) A.
Proof.
  split; simpl; unfold enqueue_foreign; intros x e Hs; rewrite Hs; simpl; try done.
  - eexists. split; [done|]. simpl. by rewrite Permutation_app_comm.
  - intros _. eexists. split; [done|]. simpl. by rewrite Permutation_app_comm.
Qed.
End worker_thread.

(** ** Theorems *)

(** C30: no wake-up is lost: in any reachable state of an executor that is not
    being shut down, whatever a release of the semaphore at its maximum does, if the worker cannot go on and no client is about to
    release the semaphore, then every task ever enqueued has been run (by its
    thread, and in order if the tasks themselves enqueue nothing). *)
Theorem worker_thread_quiescent_done {A} local (e : worker_thread A) :
  wt_reachable local e → wt_shutdown e = not_shut → worker_step e = None → owed e = 0 →
  wt_ran e ≡ₚ wt_accepted e ∧ (local = false → wt_ran e = wt_accepted e).
Proof.
  intros [Hc Ha Hf]%wt_reachable_inv Hsh Hw Ho.
  assert (wt_dropped e = [] ∧ m_private_queue e = [] ∧ m_public_queue e = []) as (Hd & Hp & Hq).
  { destruct Hc as [I1 I2 I3 _ I5 _ I7 _ I9]. unfold worker_step, worker_acquire in Hw.
    rewrite Hsh in *. simpl in *.
    destruct (wt_worker e) eqn:Hwk; simplify_eq; fwd; [by auto| |exfalso; fwd; congruence].
    destruct (m_semaphore e) eqn:Hsem; simplify_eq. split_and!; [by apply I9|by apply I1|].
    destruct (m_public_queue e); [done|]. specialize (I3 ltac:(done)). lia. }
  unfold wt_tasks in *. rewrite Hd, Hp, Hq, !app_nil_r in *. done.
Qed.

(** At every moment each task that was enqueued is in exactly one place
    (run, destroyed by the shutdown, in the private or in the public queue), in
    the order of enqueueing if tasks enqueue nothing themselves; the private
    queue is empty whenever the worker swaps the queues; and a task is destroyed
    unrun only by a shutdown. *)
Theorem worker_thread_conserves_tasks {A} local (e : worker_thread A) :
  wt_reachable local e →
  wt_ran e ++ wt_dropped e ++ m_private_queue e ++ m_public_queue e ≡ₚ wt_accepted e ∧
  (local = false → wt_ran e ++ wt_dropped e ++ m_private_queue e ++ m_public_queue e = wt_accepted e) ∧
  (wt_worker e = at_lock ∨ wt_worker e = at_relock → m_private_queue e = []) ∧
  (m_abort e = false → wt_dropped e = []).
Proof.
  intros [Hc Ha Hf]%wt_reachable_inv. split_and!; [done..| |].
  - intros Hw. apply (ctl_private e Hc); intros ?; destruct Hw; congruence.
  - intros Hab. pose proof (ctl_left e Hc). pose proof (ctl_abort e Hc) as Hsh.
    apply (ctl_dropped e Hc); [intros ?; fwd; congruence|]. intros Heq. rewrite Heq, Hab in Hsh. done.
Qed.

(** A run of one task to its end. *)
Definition one_task : list (worker_thread nat → option (worker_thread nat)) :=
  [(λ e, match enqueue_foreign [1] e with Ret e' => Some e' | _ => None end);
   worker_step; worker_step; worker_step; worker_step].

(** A run in which the worker takes each task without acquiring the semaphore,
    as it finds the queue non-empty, while the clients release it: the second when it
    was not acquired since the first. *)
Definition overrun : list (worker_thread nat → option (worker_thread nat)) :=
  let enq t e := match enqueue_foreign [t] e with Ret e' => Some e' | _ => None end in
  [enq 1; worker_step; enq 2; client_release 0; worker_step; worker_step; worker_step; enq 3].

Fixpoint run_steps (fs : list (worker_thread nat → option (worker_thread nat))) (e : worker_thread nat)
    : option (worker_thread nat) :=
  match fs with [] => Some e | f :: fs => e' ← f e; run_steps fs e' end.

Lemma run_steps_reachable fs e e' :
  wt_reachable true e → (∀ f e1 e2, f ∈ fs → f e1 = Some e2 → wt_step true e1 e2) →
  run_steps fs e = Some e' → wt_reachable true e'.
Proof.
  revert e. induction fs as [|f fs IH]; intros e He Hfs Hr; simplify_eq/=; [done|].
  destruct (f e) as [e1|] eqn:Hf; simplify_eq/=. eapply (IH e1); [|set_solver|done].
  eapply reachable_step; [done|]. eapply Hfs; [|done]. set_solver.
Qed.

Lemma overrun_steps f e1 e2 : f ∈ overrun → f e1 = Some e2 → wt_step true e1 e2.
Proof.
  unfold overrun. rewrite !elem_of_cons.
  intros Hf He. destruct_or!; subst; try (by apply elem_of_nil in Hf);
    first [by apply wt_work | by eapply wt_release |
           destruct (enqueue_foreign _ e1) eqn:Hq; simplify_eq; by eapply wt_foreign; [|exact Hq]].
Qed.

Lemma one_task_steps f e1 e2 : f ∈ one_task → f e1 = Some e2 → wt_step true e1 e2.
Proof.
  unfold one_task. rewrite !elem_of_cons.
  intros Hf He. destruct_or!; subst; try (by apply elem_of_nil in Hf);
    first [by apply wt_work |
           destruct (enqueue_foreign _ e1) eqn:Hq; simplify_eq; by eapply wt_foreign; [|exact Hq]].
Qed.

Lemma worker_thread_quiescent_done_witness :
  ∃ e : worker_thread nat, wt_reachable true e ∧ wt_ran e ≡ₚ wt_accepted e ∧
    (true = false → wt_ran e = wt_accepted e).
Proof.
  destruct (run_steps one_task wt_init) as [e|] eqn:Hr; [|discriminate Hr].
  assert (wt_reachable true e) as He.
  { eapply run_steps_reachable; [by apply reachable_init|apply one_task_steps|exact Hr]. }
  exists e. split; [exact He|].
  apply (worker_thread_quiescent_done true e He); injection Hr as <-; reflexivity.
Defined.

Lemma worker_thread_conserves_tasks_witness :
  ∃ e : worker_thread nat,
    wt_ran e ++ wt_dropped e ++ m_private_queue e ++ m_public_queue e ≡ₚ wt_accepted e ∧
    (true = false → wt_ran e ++ wt_dropped e ++ m_private_queue e ++ m_public_queue e = wt_accepted e) ∧
    (wt_worker e = at_lock ∨ wt_worker e = at_relock → m_private_queue e = []) ∧
    (m_abort e = false → wt_dropped e = []).
Proof.
  destruct (run_steps one_task wt_init) as [e|] eqn:Hr; [|discriminate Hr].
  exists e. apply (worker_thread_conserves_tasks true e).
  eapply run_steps_reachable; [by apply reachable_init|apply one_task_steps|exact Hr].
Defined.

(** The semaphore is a [std::binary_semaphore], and is released when its count is at the
    maximum of one. *)
Theorem worker_thread_semaphore_exceeds_max :
  ∃ e : worker_thread nat, wt_reachable true e ∧ m_semaphore e = 1 ∧ owed e = 1.
Proof.
  destruct (run_steps overrun wt_init) as [e|] eqn:Hr; [|discriminate Hr].
  exists e. split; [|by injection Hr as <-].
  eapply run_steps_reachable; [by apply reachable_init|apply overrun_steps|exact Hr].
Qed.
