(* ===== verification/ThreadExecutor.v ===== *)
(** * [thread_executor]: a thread per task

    Each task runs on a thread of its own; a thread that is done moves its
    handle to [m_last_retired] and joins the thread whose handle it found there.
    A handle that is destroyed without having been joined terminates the
    program, so every handle has to be joined, once.  [shutdown] waits on [m_condition] until
    [m_workers] is empty. *)

From S2P Require Import Prelude Conc Executor.
From stdpp Require Import options.

Definition k_thread_executor_name : string := "concurrencpp::thread_executor".

(** What a thread does: its task; notifying [m_condition], with the handle it found, if any;
    joining the one that retired before it; nothing any more. *)
Inductive thread_phase : Type :=
  | running_task
  | notifying (last_retired : option nat)
  | joining (j : nat)
  | finished_thread.

#[global] Instance thread_phase_eq_dec : EqDecision thread_phase.
Proof. solve_decision. Defined.

(** How far [shutdown] has come: not called; about to look at [m_workers], in the wait; asleep
    in it; out of the wait; returned. *)
Inductive te_shutdown_pc : Type := te_open | te_looking | te_sleeping | te_joining | te_returned.

(** Threads are numbered as they start; [te_threads] has the task and the phase
    of each, [m_workers] and [m_last_retired] the handles ([None]: the thread could not be
    created), [te_joined] (a ghost)
    the threads that were joined, [te_retired] (a ghost) the order of retirement,
    latest first. *)
Record thread_executor (A : Type) : Type := ThreadExecutor {
  m_workers : list (option nat);
  m_last_retired : list nat;
  m_abort : bool;
  te_shutdown : te_shutdown_pc;
  te_threads : list (A * thread_phase);
  te_joined : list nat;
  te_retired : list nat }.
Arguments ThreadExecutor {A}.
Arguments m_workers {A} _.
Arguments m_last_retired {A} _.
Arguments m_abort {A} _.
Arguments te_shutdown {A} _.
Arguments te_threads {A} _.
Arguments te_joined {A} _.
Arguments te_retired {A} _.

Section thread_executor.
Context {A : Type}.
Implicit Types e : thread_executor A.

Definition te_init : thread_executor A := ThreadExecutor [] [] false te_open [] [] [].

(** [enqueue_impl]: a new handle at the front, and a thread that runs. *)
Definition enqueue_impl (t : A) e : thread_executor A :=
  ThreadExecutor (Some (length (te_threads e)) :: m_workers e) (m_last_retired e) (m_abort e) (te_shutdown e)
    (te_threads e ++ [(t, running_task)]) (te_joined e) (te_retired e).

Definition te_enqueue (t : A) e : outcome (thread_executor A) :=
  if m_abort e then Throw (runtime_shutdown k_thread_executor_name) else Ret (enqueue_impl t e).

Definition te_enqueue_span (ts : list A) e : outcome (thread_executor A) :=
  if m_abort e then Throw (runtime_shutdown k_thread_executor_name)
  else Ret (foldl (λ e t, enqueue_impl t e) e ts).

(** [enqueue_impl] when [std::thread] throws [std::system_error], which leaves [enqueue]: the handle
    stays where it is. *)
Definition enqueue_fails e : option (thread_executor A) :=
  if m_abort e then None
  else Some (ThreadExecutor (None :: m_workers e) (m_last_retired e) (m_abort e) (te_shutdown e)
               (te_threads e) (te_joined e) (te_retired e)).

Definition set_phase (i : nat) (t : A) (p : thread_phase) e : list (A * thread_phase) := <[i := (t, p)]> (te_threads e).

(** [retire_worker] of thread [i]: under the lock it takes the handle that is
    there and leaves its own; [None] where it asserts that there is at most one
    handle. *)
Definition retire_worker (i : nat) e : option (thread_executor A) :=
  match te_threads e !! i with
  | Some (t, running_task) =>
      let workers := filter (λ j, j ≠ Some i) (m_workers e) in
      match m_last_retired e with
      | [] => Some (ThreadExecutor workers [i] (m_abort e) (te_shutdown e)
                      (set_phase i t (notifying None) e) (te_joined e) (i :: te_retired e))
      | [j] => Some (ThreadExecutor workers [i] (m_abort e) (te_shutdown e)
                       (set_phase i t (notifying (Some j)) e) (te_joined e) (i :: te_retired e))
      | _ => None
      end
  | _ => None
  end.

(** [m_condition.notify_one()]: the thread that is in [shutdown] is woken, if it sleeps. *)
Definition woken_up (pc : te_shutdown_pc) : te_shutdown_pc := match pc with te_sleeping => te_looking | _ => pc end.
Definition notify_one (i : nat) e : option (thread_executor A) :=
  match te_threads e !! i with
  | Some (t, notifying last_retired) =>
      Some (ThreadExecutor (m_workers e) (m_last_retired e) (m_abort e) (woken_up (te_shutdown e))
              (set_phase i t (match last_retired with Some j => joining j | None => finished_thread end) e)
              (te_joined e) (te_retired e))
  | _ => None
  end.

(** The join at the end of [retire_worker], which waits for the other thread. *)
Definition finish_join (i : nat) e : option (thread_executor A) :=
  match te_threads e !! i with
  | Some (t, joining j) =>
      match te_threads e !! j with
      | Some (_, finished_thread) =>
          Some (ThreadExecutor (m_workers e) (m_last_retired e) (m_abort e) (te_shutdown e)
                  (set_phase i t finished_thread e) (j :: te_joined e) (te_retired e))
      | _ => None
      end
  | _ => None
  end.

Definition with_shutdown (pc : te_shutdown_pc) e : thread_executor A :=
  ThreadExecutor (m_workers e) (m_last_retired e) (m_abort e) pc (te_threads e) (te_joined e) (te_retired e).

(** [shutdown], up to the wait *)
Definition shutdown_begin e : option (thread_executor A) :=
  match te_shutdown e with
  | te_open => Some (ThreadExecutor (m_workers e) (m_last_retired e) true te_looking
                       (te_threads e) (te_joined e) (te_retired e))
  | _ => None
  end.

(** The look at [m_workers], under the lock, which goes on or to sleep; and a wake-up without
    notification. *)
Definition shutdown_look e : option (thread_executor A) :=
  match te_shutdown e with
  | te_looking => Some (with_shutdown (match m_workers e with [] => te_joining | _ => te_sleeping end) e)
  | _ => None
  end.
Definition spurious_wakeup e : option (thread_executor A) :=
  match te_shutdown e with te_sleeping => Some (with_shutdown te_looking e) | _ => None end.

(** ... and after the wait: the last thread has ended. *)
Definition shutdown_end e : option (thread_executor A) :=
  match te_shutdown e with
  | te_joining =>
      match m_last_retired e with
      | [] => Some (with_shutdown te_returned e)
      | [j] =>
          match te_threads e !! j with
          | Some (_, finished_thread) =>
              Some (ThreadExecutor (m_workers e) [] (m_abort e) te_returned (te_threads e) (j :: te_joined e) (te_retired e))
          | _ => None
          end
      | _ => None
      end
  | _ => None
  end.

Inductive te_step : thread_executor A → thread_executor A → Prop :=
  | te_step_enqueue t e e' : te_enqueue t e = Ret e' → te_step e e'
  | te_step_fails e e' : enqueue_fails e = Some e' → te_step e e'
  | te_step_retire i e e' : retire_worker i e = Some e' → te_step e e'
  | te_step_notify i e e' : notify_one i e = Some e' → te_step e e'
  | te_step_join i e e' : finish_join i e = Some e' → te_step e e'
  | te_step_begin e e' : shutdown_begin e = Some e' → te_step e e'
  | te_step_look e e' : shutdown_look e = Some e' → te_step e e'
  | te_step_spurious e e' : spurious_wakeup e = Some e' → te_step e e'
  | te_step_end e e' : shutdown_end e = Some e' → te_step e e'.

Definition te_reachable : thread_executor A → Prop := reachable (λ e, e = te_init) te_step.

(** ** Invariant *)

Definition phase_of e (i : nat) : option thread_phase := snd <$> te_threads e !! i.

(** The handles of threads that were started, and those that threads hold which are to join. *)
Definition started e : list nat := omap id (m_workers e).
Definition to_join (p : thread_phase) : option nat :=
  match p with joining j => Some j | notifying last_retired => last_retired | _ => None end.
Definition joinee (x : A * thread_phase) : option nat := to_join x.2.
Definition joinees e : list nat := omap joinee (te_threads e).

(** Every handle is in exactly one place; the threads in [m_workers] are those
    that run; at most one handle is retired; who joins retired after whom it
    joins; when [shutdown] sleeps there is a handle in [m_workers], or a thread that has still to
    notify it. *)
Record te_inv e : Prop := TeInv {
  te_handles : started e ++ m_last_retired e ++ joinees e ++ te_joined e ≡ₚ seq 0 (length (te_threads e));
  te_running : ∀ i, i ∈ started e ↔ phase_of e i = Some running_task;
  te_one : length (m_last_retired e) ≤ 1;
  te_last : ∀ i, i ∈ m_last_retired e → i ∈ te_retired e;
  te_retired_spec : ∀ i, i ∈ te_retired e ↔ ∃ p, phase_of e i = Some p ∧ p ≠ running_task;
  te_retired_nodup : NoDup (te_retired e);
  te_order : ∀ i p j, phase_of e i = Some p → to_join p = Some j → ∃ l1 l2, te_retired e = l1 ++ i :: l2 ∧ j ∈ l2;
  te_abort : m_abort e = true ↔ te_shutdown e ≠ te_open;
  te_asleep : te_shutdown e = te_sleeping → m_workers e ≠ [] ∨ ∃ i h, phase_of e i = Some (notifying h);
  te_awake : te_shutdown e = te_joining ∨ te_shutdown e = te_returned → m_workers e = [];
  te_end : te_shutdown e = te_returned → m_last_retired e = [] }.

Lemma te_inv_init : te_inv te_init.
Proof.
  split; simpl; try done; try lia; unfold phase_of; simpl; [set_solver| |constructor].
  intros i. split; [set_solver|]. by intros (p & ? & _).
Qed.

Lemma omap_insert_perm (l : list (A * thread_phase)) i x y :
  l !! i = Some x →
  option_list (joinee x) ++ omap joinee (<[i := y]> l) ≡ₚ option_list (joinee y) ++ omap joinee l.
Proof.
  intros Hi. rewrite (insert_take_drop l i y) by (by eapply lookup_lt_Some).
  rewrite <- (take_drop_middle l i x Hi) at 3. rewrite !omap_app. csimpl.
  destruct (joinee x), (joinee y); simpl; rewrite <- ?Permutation_middle; try done. apply Permutation_swap.
Qed.

Lemma phase_of_lookup e i t p : te_threads e !! i = Some (t, p) → phase_of e i = Some p.
Proof. unfold phase_of. by intros ->. Qed.

(** The phases when thread [i] gets a new one. *)
Lemma phase_of_insert e i j x :
  is_Some (te_threads e !! i) →
  snd <$> (<[i := x]> (te_threads e)) !! j = if decide (i = j) then Some x.2 else phase_of e j.
Proof.
  intros [y Hi]. unfold phase_of. case_decide as Hd.
  - subst. by rewrite list_lookup_insert_eq by (by eapply lookup_lt_Some).
  - by rewrite list_lookup_insert_ne.
Qed.

Lemma enqueue_impl_inv t e : te_inv e → m_abort e = false → te_inv (enqueue_impl t e).
Proof.
  intros [H1 H2 H3 HL H4 HN H5 H6 HA HB H7] Hab.
  assert (te_shutdown e = te_open) as Hop by (destruct (te_shutdown e); try done; exfalso; destruct H6 as [_ H6]; by rewrite H6 in Hab).
  assert (∀ i, phase_of (enqueue_impl t e) i =
    if decide (i = length (te_threads e)) then Some running_task else phase_of e i) as Hph.
  { intros i. unfold phase_of; simpl. case_decide as Hd.
    - subst. by rewrite list_lookup_middle.
    - destruct (decide (i < length (te_threads e))).
      + by rewrite lookup_app_l.
      + by rewrite !lookup_ge_None_2 by (rewrite ?length_app; simpl; lia). }
  assert (phase_of e (length (te_threads e)) = None) as Hnone.
  { unfold phase_of. by rewrite lookup_ge_None_2. }
  split; simpl; rewrite ?Hop; try done.
  - unfold joinees, started in *; simpl. rewrite omap_app; simpl. rewrite app_nil_r, length_app; simpl.
    rewrite seq_app; simpl. rewrite H1. by rewrite Permutation_app_comm.
  - intros i. unfold started in *; csimpl. rewrite elem_of_cons, Hph, H2. case_decide; [|naive_solver]. subst. rewrite Hnone. naive_solver.
  - intros i. rewrite H4, Hph. case_decide; [|done]. subst. rewrite Hnone. naive_solver.
  - intros i p j. rewrite Hph. case_decide; [by intros [= <-]|]. apply H5.
  - by rewrite Hab.
  - by intros [?|?].
Qed.

Lemma enqueue_fails_inv e e' : te_inv e → enqueue_fails e = Some e' → te_inv e'.
Proof.
  intros [H1 H2 H3 HL H4 HN H5 H6 HA HB H7] Hf. unfold enqueue_fails in Hf. destruct (m_abort e) eqn:Hab; simplify_eq.
  assert (te_shutdown e = te_open) as Hop by (destruct (te_shutdown e); try done; exfalso; destruct H6 as [_ H6]; by specialize (H6 ltac:(done))).
  split; simpl; rewrite ?Hop; try done. by intros [?|?].
Qed.

Lemma started_filter e i : omap id (filter (λ j, j ≠ Some i) (m_workers e)) = filter (λ j, j ≠ i) (started e).
Proof.
  unfold started. induction (m_workers e) as [|[j|] l IH]; [done|..]; rewrite filter_cons.
  - change (omap id (Some j :: l)) with (j :: omap id l). rewrite filter_cons.
    destruct (decide (j = i)) as [->|]; [rewrite !decide_False by naive_solver; done|].
    rewrite !decide_True by naive_solver. csimpl. by rewrite IH.
  - rewrite decide_True by done. exact IH.
Qed.

Lemma retire_worker_inv i e e' : te_inv e → retire_worker i e = Some e' → te_inv e'.
Proof.
  intros [H1 H2 H3 HL H4 HN H5 H6 HA HB H7] Hr. unfold retire_worker in Hr.
  destruct (te_threads e !! i) as [[t []]|] eqn:Hi; simplify_eq.
  assert (i ∈ started e) as Hin by (apply H2; by eapply phase_of_lookup).
  assert (NoDup (started e)) as Hnd.
  { pose proof (NoDup_seq 0 (length (te_threads e))) as Hseq. rewrite <- H1 in Hseq.
    by apply NoDup_app in Hseq as (? & _ & _). }
  pose proof (filter_remove_perm i _ Hnd Hin) as Hperm.
  assert (i ∉ te_retired e) as Hnot.
  { rewrite H4. intros (p & Hp & Hne). rewrite (phase_of_lookup _ _ _ _ Hi) in Hp. naive_solver. }
  assert (∃ h, e' = ThreadExecutor (filter (λ j, j ≠ Some i) (m_workers e)) [i] (m_abort e) (te_shutdown e)
      (<[i := (t, notifying h)]> (te_threads e)) (te_joined e) (i :: te_retired e) ∧ m_last_retired e = option_list h) as (h & -> & Hlast).
  { destruct (m_last_retired e) as [|j [|]] eqn:Hl; simplify_eq; by eexists. }
  pose proof (λ j, phase_of_insert e i j (t, notifying h) ltac:(eauto)) as Hph. simpl in Hph.
  split; simpl.
  - pose proof (omap_insert_perm _ i _ (t, notifying h) Hi) as Ho. simpl in Ho.
    rewrite length_insert, <- H1. unfold joinees, started; simpl. rewrite started_filter, Ho, Hlast.
    rewrite (Permutation_app_tail _ Hperm). simpl. rewrite <- !(assoc_L (++)).
    by rewrite <- !Permutation_middle.
  - intros j. unfold started; simpl. rewrite started_filter, list_elem_of_filter, H2. unfold phase_of at 2; simpl. rewrite Hph.
    case_decide; naive_solver.
  - lia.
  - set_solver.
  - intros j. rewrite elem_of_cons, H4. unfold phase_of at 2; simpl. setoid_rewrite Hph.
    case_decide; naive_solver.
  - by apply NoDup_cons.
  - intros j p k. unfold phase_of; simpl. rewrite Hph. case_decide as Hd.
    + subst j. intros [= <-] Hk. simpl in Hk. subst h. exists [], (te_retired e). split; [done|].
      apply HL. rewrite Hlast. set_solver.
    + intros Hp Hk. destruct (H5 _ _ _ Hp Hk) as (l1 & l2 & -> & ?). by exists (i :: l1), l2.
  - done.
  - intros _. right. exists i, h. unfold phase_of; simpl. rewrite Hph. by rewrite decide_True.
  - intros Hret%HB. unfold started in Hin. rewrite Hret in Hin. by apply elem_of_nil in Hin.
  - intros Hret. exfalso. unfold started in Hin. rewrite HB in Hin by (by right). by apply elem_of_nil in Hin.
Qed.

Lemma notify_one_inv i e e' : te_inv e → notify_one i e = Some e' → te_inv e'.
Proof.
  intros [H1 H2 H3 HL H4 HN H5 H6 HA HB H7] Hf. unfold notify_one in Hf.
  destruct (te_threads e !! i) as [[t [|h| |]]|] eqn:Hi; simplify_eq. unfold set_phase.
  assert (∃ p, match h with Some j => joining j | None => finished_thread end = p ∧ to_join p = h ∧ p ≠ running_task) as (p & -> & Hp & Hne)
    by (destruct h; by eexists).
  pose proof (phase_of_lookup _ _ _ _ Hi) as Hpi. pose proof (λ k, phase_of_insert e i k (t, p) ltac:(eauto)) as Hph. simpl in Hph.
  split; simpl; try done.
  - pose proof (omap_insert_perm _ i _ (t, p) Hi) as Ho. unfold joinee in Ho at 1 3. simpl in Ho. rewrite Hp in Ho.
    apply Permutation_app_inv_l in Ho. rewrite length_insert, <- H1. unfold joinees, started; simpl. by rewrite Ho.
  - intros k. unfold started; simpl. rewrite H2. unfold phase_of at 2; simpl. rewrite Hph. case_decide; [|done]. subst. rewrite Hpi. naive_solver.
  - intros k. rewrite H4. unfold phase_of at 2; simpl. setoid_rewrite Hph. case_decide; [|done]. subst. rewrite Hpi. naive_solver.
  - intros k q j. unfold phase_of; simpl. rewrite Hph. case_decide; [|apply H5]. subst. intros [= <-] Hj. eapply H5; [exact Hpi|]. simpl. congruence.
  - rewrite H6. by destruct (te_shutdown e).
  - by destruct (te_shutdown e).
  - intros Hsd. apply HB. by destruct (te_shutdown e), Hsd; simpl in *; auto.
  - intros Hsd. apply H7. by destruct (te_shutdown e).
Qed.

Lemma finish_join_inv i e e' : te_inv e → finish_join i e = Some e' → te_inv e'.
Proof.
  intros [H1 H2 H3 HL H4 HN H5 H6 HA HB H7] Hf. unfold finish_join in Hf.
  destruct (te_threads e !! i) as [[t [| |j|]]|] eqn:Hi; simplify_eq.
  destruct (te_threads e !! j) as [[t' []]|] eqn:Hj; simplify_eq. unfold set_phase.
  pose proof (phase_of_lookup _ _ _ _ Hi) as Hpi.
  pose proof (λ k, phase_of_insert e i k (t, finished_thread) ltac:(eauto)) as Hph. simpl in Hph.
  split; simpl; try done.
  - pose proof (omap_insert_perm _ i _ (t, finished_thread) Hi) as Ho. simpl in Ho.
    rewrite length_insert, <- H1. unfold joinees, started in *; simpl. rewrite <- Ho. by rewrite <- Permutation_middle.
  - intros k. unfold started; simpl. rewrite H2. unfold phase_of at 2; simpl. rewrite Hph. case_decide; [|done]. subst. rewrite Hpi. naive_solver.
  - intros k. rewrite H4. unfold phase_of at 2; simpl. setoid_rewrite Hph. case_decide; [|done]. subst.
    rewrite Hpi. naive_solver.
  - intros k p l. unfold phase_of; simpl. rewrite Hph. case_decide; [by intros [= <-]|]. apply H5.
  - intros [?|(k & h & Hk)]%HA; [by left|]. right. exists k, h. unfold phase_of; simpl. rewrite Hph. case_decide; [|done]. congruence.
Qed.

Lemma te_step_inv e e' : te_inv e → te_step e e' → te_inv e'.
Proof.
  intros He Hs. destruct Hs as [t e e' Hq|e e' Hf|i e e' Hr|i e e' Hn|i e e' Hj|e e' Hb|e e' Hl|e e' Hw|e e' Hn].
  - unfold te_enqueue in Hq. destruct (m_abort e) eqn:?; simplify_eq. by apply enqueue_impl_inv.
  - by eapply enqueue_fails_inv.
  - by eapply retire_worker_inv.
  - by eapply notify_one_inv.
  - by eapply finish_join_inv.
  - destruct He as [H1 H2 H3 HL H4 HN H5 H6 HA HB H7]. unfold shutdown_begin in Hb.
    destruct (te_shutdown e); simplify_eq. split; try done. by intros [?|?].
  - destruct He as [H1 H2 H3 HL H4 HN H5 H6 HA HB H7]. unfold shutdown_look in Hl.
    destruct (te_shutdown e); simplify_eq. destruct (m_workers e) eqn:Hw; split; simpl; rewrite ?Hw; try done;
      [by rewrite H6|by rewrite H6|by left|by intros [?|?]].
  - destruct He as [H1 H2 H3 HL H4 HN H5 H6 HA HB H7]. unfold spurious_wakeup in Hw.
    destruct (te_shutdown e); simplify_eq. split; simpl; try done; [by rewrite H6|by intros [?|?]].
  - destruct He as [H1 H2 H3 HL H4 HN H5 H6 HA HB H7]. unfold shutdown_end in Hn.
    destruct (te_shutdown e) eqn:Hsh; simplify_eq. assert (m_workers e = []) as Hw by (apply HB; by left).
    destruct (m_last_retired e) as [|j [|]] eqn:Hl; simplify_eq.
    + split; simpl; rewrite ?Hl; try done. by rewrite H6.
    + destruct (te_threads e !! j) as [[t' []]|] eqn:Hj; simplify_eq.
      split; simpl; try done; try lia; try (by intros ? ?%elem_of_nil); [|by rewrite H6].
      rewrite <- H1. simpl. by rewrite <- !Permutation_middle.
Qed.

Lemma te_reachable_inv e : te_reachable e → te_inv e.
Proof. apply reachable_inv; [intros ? ->; apply te_inv_init|apply te_step_inv]. Qed.

(** ** Where nothing can move *)

(** No thread can go on, unless it is woken without a notification. *)
Definition te_stuck e : Prop :=
  (∀ i, retire_worker i e = None) ∧ (∀ i, notify_one i e = None) ∧ (∀ i, finish_join i e = None) ∧
  shutdown_look e = None ∧ shutdown_end e = None.

Lemma stuck_no_running e : te_inv e → te_stuck e → started e = [].
Proof.
  intros He (Hr & _). destruct (started e) as [|i l] eqn:Hw; [done|exfalso].
  assert (phase_of e i = Some running_task) as Hp by (apply te_running; [done|]; rewrite Hw; set_solver).
  unfold phase_of in Hp. destruct (te_threads e !! i) as [[t p]|] eqn:Hi; simplify_eq/=.
  specialize (Hr i). unfold retire_worker in Hr. rewrite Hi in Hr.
  pose proof (te_one e He). destruct (m_last_retired e) as [|j [|]]; simpl in *; (done || lia).
Qed.

Lemma stuck_no_notifying e i h : te_stuck e → phase_of e i ≠ Some (notifying h).
Proof.
  intros (_ & Hn & _) Hp. specialize (Hn i). unfold notify_one, phase_of in *. destruct (te_threads e !! i) as [[t p]|]; by simplify_eq/=.
Qed.

Lemma stuck_all_finished e l1 l2 :
  te_inv e → te_stuck e → te_retired e = l1 ++ l2 → ∀ i, i ∈ l2 → phase_of e i = Some finished_thread.
Proof.
  intros He Hst. pose proof Hst as (_ & _ & Hj & _). revert l1. induction l2 as [|i l2 IH]; intros l1 Heq k Hk; [by apply elem_of_nil in Hk|].
  assert (∀ k, k ∈ l2 → phase_of e k = Some finished_thread) as Hl2.
  { apply (IH (l1 ++ [i])). by rewrite <- (assoc_L (++)). }
  apply elem_of_cons in Hk as [->|Hk]; [|auto].
  assert (i ∈ te_retired e) as (p & Hp & Hne)%te_retired_spec; [by rewrite Heq; set_solver| |done].
  destruct p as [|h|j|]; [done|by destruct (stuck_no_notifying e i h)| |done]. exfalso.
  destruct (te_order e He i _ j Hp eq_refl) as (a & b & Hab & Hjb).
  assert (b = l2) as ->.
  { pose proof (te_retired_nodup e He) as Hnd. rewrite Heq in Hab, Hnd.
    apply NoDup_app_cons_eq in Hab; [naive_solver|done]. }
  specialize (Hl2 j Hjb). specialize (Hj i). unfold finish_join, phase_of in *.
  destruct (te_threads e !! i) as [[t p]|]; simplify_eq/=.
  destruct (te_threads e !! j) as [[t' p']|]; by simplify_eq/=.
Qed.

Lemma stuck_threads e : te_inv e → te_stuck e → Forall (λ x, x.2 = finished_thread) (te_threads e).
Proof.
  intros He Hst. pose proof (stuck_no_running e He Hst) as Hw. pose proof (stuck_all_finished e [] _ He Hst eq_refl) as Hfin.
  apply Forall_lookup_2. intros i [t p] Hi. pose proof (phase_of_lookup _ _ _ _ Hi) as Hp.
  destruct (decide (i ∈ te_retired e)) as [Hr|Hr]; [specialize (Hfin i Hr); by simplify_eq/=|].
  destruct (decide (p = running_task)) as [->|Hne]; [|destruct Hr; apply te_retired_spec; eauto].
  apply te_running in Hp; [|done]. rewrite Hw in Hp. by apply elem_of_nil in Hp.
Qed.

(** [shutdown] has returned, or sleeps because of a handle without a thread. *)
Lemma stuck_shutdown e :
  te_inv e → te_shutdown e ≠ te_open → te_stuck e →
  (te_shutdown e = te_returned ∧ m_workers e = []) ∨ (te_shutdown e = te_sleeping ∧ None ∈ m_workers e).
Proof.
  intros He Hsh Hst. pose proof (stuck_no_running e He Hst) as Hw. pose proof (stuck_all_finished e [] _ He Hst eq_refl) as Hfin.
  pose proof Hst as (_ & _ & _ & Hlook & Hend). unfold shutdown_look, shutdown_end in *.
  destruct (te_shutdown e) eqn:Hs; [done|done|right|exfalso|left].
  - split; [done|]. destruct (te_asleep e He Hs) as [Hne|(i & h & Hi)]; [|by destruct (stuck_no_notifying e i h)].
    unfold started in Hw. destruct (m_workers e) as [|[j|] l]; [done|done|by left].
  - pose proof (te_one e He). destruct (m_last_retired e) as [|j [|]] eqn:Hl; simpl in *; [done| |lia].
    assert (phase_of e j = Some finished_thread) as Hp by (apply Hfin, te_last; [done|]; rewrite Hl; set_solver).
    unfold phase_of in Hp. destruct (te_threads e !! j) as [[t p]|]; by simplify_eq/=.
  - split; [done|]. apply (te_awake e He). by right.
Qed.

(** ** The promise of executors *)

Lemma enqueue_impl_fold ts e :
  (te_threads (foldl (λ e t, enqueue_impl t e) e ts)).*1 = (te_threads e).*1 ++ ts.
Proof.
  revert e. induction ts as [|t ts IH]; intros e; simpl; [by rewrite app_nil_r|].
  rewrite IH. simpl. rewrite fmap_app. by rewrite <- (assoc_L (++)).
Qed.

#[global] Instance thread_executor_ops : Executor (thread_executor A) A := {|
  ex_name := k_thread_executor_name;
  ex_enqueue := te_enqueue;
  ex_enqueue_span := te_enqueue_span;
  ex_shut := m_abort;
  ex_accepted e := (te_threads e).*1 |}.

#[global] Instance thread_executor_laws : ExecutorLaws (thread_executor A) A.
Proof.
  split; simpl; unfold te_enqueue, te_enqueue_span; intros x e Hs; rewrite Hs; try done.
  - eexists. split; [done|]. simpl. rewrite fmap_app. simpl. by rewrite Permutation_app_comm.
  - intros _. eexists. split; [done|]. rewrite enqueue_impl_fold. by rewrite Permutation_app_comm.
Qed.
End thread_executor.

(** ** Theorems *)

(** C31: a shutdown never leaves a thread behind: once it was called, if no thread can take a step
    then every thread has ended; and either [shutdown] has returned, both lists
    of handles are empty as the destructor asserts, and
    every thread was joined exactly once, or the creation of a thread has failed, whose handle is
    still in the list, and [shutdown] sleeps.  No notification of its condition
    variable is lost on the way, and there is never more than one retired handle, as is asserted. *)
Theorem thread_executor_joins_all {A} (e : thread_executor A) :
  te_reachable e →
  length (m_last_retired e) ≤ 1 ∧
  (te_shutdown e ≠ te_open → te_stuck e →
   Forall (λ x, x.2 = finished_thread) (te_threads e) ∧
   ((te_shutdown e = te_returned ∧ m_workers e = [] ∧ m_last_retired e = [] ∧ te_joined e ≡ₚ seq 0 (length (te_threads e))) ∨
    (te_shutdown e = te_sleeping ∧ None ∈ m_workers e))).
Proof.
  intros He%te_reachable_inv. split; [apply (te_one e He)|]. intros Hsh Hst. pose proof (stuck_threads e He Hst) as Hall.
  split; [done|]. destruct (stuck_shutdown e He Hsh Hst) as [[Hret Hw]|?]; [left|by right].
  assert (joinees e = []) as Hj.
  { unfold joinees. clear -Hall. induction Hall as [|[t p] l Hp _ IH]; simpl in *; by subst. }
  pose proof (te_end e He Hret) as Hl. split_and!; try done.
  pose proof (te_handles e He) as Hh. unfold started in Hh. rewrite Hw, Hl, Hj in Hh. done.
Qed.

(** The steps by name, so that executions can be evaluated. *)
Inductive te_move : Type := mv_enqueue (t : nat) | mv_fails | mv_retire (i : nat) | mv_notify (i : nat) | mv_join (i : nat) | mv_begin | mv_look | mv_end.
Definition te_run_move (m : te_move) (e : thread_executor nat) : option (thread_executor nat) :=
  match m with
  | mv_enqueue t => match te_enqueue t e with Ret e' => Some e' | _ => None end
  | mv_fails => enqueue_fails e
  | mv_retire i => retire_worker i e
  | mv_notify i => notify_one i e
  | mv_join i => finish_join i e
  | mv_begin => shutdown_begin e
  | mv_look => shutdown_look e
  | mv_end => shutdown_end e
  end.
Fixpoint te_run (ms : list te_move) (e : thread_executor nat) : option (thread_executor nat) :=
  match ms with [] => Some e | m :: ms => e' ← te_run_move m e; te_run ms e' end.

Lemma te_run_move_step m e e' : te_run_move m e = Some e' → te_step e e'.
Proof.
  destruct m as [t| |i|i|i| | |]; cbn [te_run_move]; intros H;
    [|by apply te_step_fails|by eapply te_step_retire|by eapply te_step_notify|by eapply te_step_join|by apply te_step_begin|
     by apply te_step_look|by apply te_step_end].
  destruct (te_enqueue t e) eqn:E; simplify_eq. by eapply te_step_enqueue.
Qed.
Lemma te_run_reachable ms e e' : te_reachable e → te_run ms e = Some e' → te_reachable e'.
Proof.
  revert e. induction ms as [|m ms IH]; intros e He Hr; [by injection Hr as <-|]. simpl in Hr.
  destruct (te_run_move m e) as [e1|] eqn:E; [|discriminate Hr]. apply (IH e1); [|exact Hr].
  eapply reachable_step; [done|]. by eapply te_run_move_step.
Qed.

(** Two tasks; the shutdown goes to sleep before the second of them is done. *)
Definition two_tasks : list te_move :=
  [mv_enqueue 10; mv_enqueue 11; mv_begin; mv_retire 1; mv_look; mv_notify 1; mv_look; mv_retire 0; mv_notify 0; mv_look; mv_join 0; mv_end].

Lemma thread_executor_joins_all_witness :
  ∃ e : thread_executor nat, te_run two_tasks te_init = Some e ∧ te_shutdown e = te_returned ∧ te_joined e ≡ₚ [0; 1].
Proof.
  destruct (te_run two_tasks te_init) as [e|] eqn:Hr; [|vm_compute in Hr; discriminate Hr].
  assert (te_reachable e) as He by (eapply te_run_reachable; [by apply reachable_init|exact Hr]).
  destruct (thread_executor_joins_all e He) as [_ H]. vm_compute in Hr. injection Hr as <-.
  eexists. split; [reflexivity|]. split; [reflexivity|].
  destruct H as [_ [(_ & _ & _ & H)|[H _]]]; [discriminate| |exact H|discriminate H].
  split_and!; [intros [|[|i]]; reflexivity..|reflexivity|reflexivity].
Defined.

(** The handle of a thread that could not be created stays in the list, and [shutdown]
    waits for ever. *)
Theorem thread_executor_shutdown_hangs :
  ∃ e : thread_executor nat, te_reachable e ∧ te_shutdown e = te_sleeping ∧ te_threads e = [] ∧ te_stuck e.
Proof.
  destruct (te_run [mv_fails; mv_begin; mv_look] te_init) as [e|] eqn:Hr; [|vm_compute in Hr; discriminate Hr].
  exists e. split; [eapply te_run_reachable; [by apply reachable_init|exact Hr]|]. vm_compute in Hr. injection Hr as <-. by split_and!.
Qed.
