(* ===== verification/IdleWorkers.v ===== *)
(** * [idle_worker_set]: which workers of a pool are idle

    A flag per worker and an approximate count.  Operations on the flags are
    atomic exchanges, so each operation here is one transition; an index out of
    range is undefined in C++ and a fault here. *)

From S2P Require Import Prelude Conc.
From stdpp Require Import options.

(** [true] is [status::idle]. *)
Record idle_worker_set : Type := IdleWorkerSet {
  m_idle_flags : list bool;
  m_approx_size : Z }.

Definition m_size (s : idle_worker_set) : nat := length (m_idle_flags s).

(** The constructor: all flags are [active]. *)
Definition idle_set_init (size : nat) : idle_worker_set := IdleWorkerSet (replicate size false) 0.

(** [m_idle_flags[i].flag.exchange(b)] *)
Definition flag_exchange (i : nat) (b : bool) : comp idle_worker_set bool := λ s,
  match m_idle_flags s !! i with
  | Some before => Done before (IdleWorkerSet (<[i := b]> (m_idle_flags s)) (m_approx_size s))
  | None => Fault use_after_free
  end.
Definition flag_load (i : nat) : comp idle_worker_set bool := λ s,
  match m_idle_flags s !! i with Some b => Done b s | None => Fault use_after_free end.
Definition approx_add (d : Z) : comp idle_worker_set unit := λ s,
  Done tt (IdleWorkerSet (m_idle_flags s) (m_approx_size s + d)).

Definition set_idle (idle_thread : nat) : comp idle_worker_set unit :=
  before ← flag_exchange idle_thread true;
  if (before : bool) then mret tt else approx_add 1.

Definition set_active (idle_thread : nat) : comp idle_worker_set unit :=
  before ← flag_exchange idle_thread false;
  if (before : bool) then approx_add (-1) else mret tt.

Definition try_acquire_flag (index : nat) : comp idle_worker_set bool :=
  worker_status ← flag_load index;
  if (worker_status : bool) then
    before ← flag_exchange index false;
    if (before : bool) then approx_add (-1);; mret true else mret false
  else mret false.

(** The loop of [find_idle_worker], [k] rounds before the end. [None] stands for
    [static_cast<size_t>(-1)]. *)
Fixpoint find_loop (caller_index : option nat) (starting_pos i k : nat) : comp idle_worker_set (option nat) :=
  match k with
  | 0 => mret None
  | S k =>
      s ← get_state;
      let index := (starting_pos + i) mod m_size s in
      if decide (Some index = caller_index) then find_loop caller_index starting_pos (S i) k else
      acquired ← try_acquire_flag index;
      if (acquired : bool) then mret (Some index) else find_loop caller_index starting_pos (S i) k
  end.

(** [hashed_id] is that of the calling thread. *)
Definition find_idle_worker (hashed_id : nat) (caller_index : option nat) : comp idle_worker_set (option nat) :=
  s ← get_state;
  if decide (m_approx_size s ≤ 0)%Z then mret None else
  let starting_pos := match caller_index with Some c => c | None => hashed_id mod m_size s end in
  find_loop caller_index starting_pos 0 (m_size s).

(** The loop of [find_idle_workers]: [room] more workers may be taken. *)
Fixpoint find_many_loop (caller_index i k room : nat) (result_buffer : list nat) : comp idle_worker_set (list nat) :=
  match k, room with
  | S k, S room =>
      s ← get_state;
      let index := (caller_index + i) mod m_size s in
      if decide (index = caller_index) then find_many_loop caller_index (S i) k (S room) result_buffer else
      acquired ← try_acquire_flag index;
      if (acquired : bool) then find_many_loop caller_index (S i) k room (result_buffer ++ [index])
      else find_many_loop caller_index (S i) k (S room) result_buffer
  | _, _ => mret result_buffer
  end.

Definition find_idle_workers (caller_index max_count : nat) : comp idle_worker_set (list nat) :=
  s ← get_state;
  if decide (m_approx_size s ≤ 0)%Z then mret [] else
  assert (bool_decide (caller_index < m_size s));;
  let max_waiters := Z.to_nat (m_approx_size s) `min` max_count in
  find_many_loop caller_index 0 (m_size s) max_waiters [].

(** ** Invariant *)

Definition idle_count (s : idle_worker_set) : nat := length (filter (λ b, b = true) (m_idle_flags s)).
Definition is_idle (s : idle_worker_set) (i : nat) : Prop := m_idle_flags s !! i = Some true.

(** The count is exact whenever no operation is under way. *)
Definition idle_set_wf (s : idle_worker_set) : Prop := m_approx_size s = Z.of_nat (idle_count s).

Lemma count_insert (l : list bool) (i : nat) (b b' : bool) :
  l !! i = Some b →
  length (filter (λ x, x = true) (<[i := b']> l)) + (if b then 1 else 0) =
  length (filter (λ x, x = true) l) + (if b' then 1 else 0).
Proof.
  intros Hi. pose proof (filter_insert_length (λ x, x = true) l i b b' Hi) as H.
  destruct b, b'; repeat case_decide; simpl in *; done || lia.
Qed.

(** [s'] is [s] with the workers [ws] made active. *)
Definition acquired_all (ws : list nat) (s s' : idle_worker_set) : Prop :=
  m_size s' = m_size s ∧ idle_set_wf s' ∧ NoDup ws ∧ Forall (is_idle s) ws ∧
  ∀ i, is_idle s' i ↔ is_idle s i ∧ i ∉ ws.

Lemma acquired_none s : idle_set_wf s → acquired_all [] s s.
Proof. intros Hs. split_and!; [done..|constructor|constructor|]. set_solver. Qed.

Lemma acquired_trans ws1 ws2 s1 s2 s3 :
  acquired_all ws1 s1 s2 → acquired_all ws2 s2 s3 → acquired_all (ws1 ++ ws2) s1 s3.
Proof.
  intros (Hs1 & _ & Hn1 & Hf1 & Hi1) (Hs2 & Hw & Hn2 & Hf2 & Hi2). rewrite Forall_forall in Hf1, Hf2.
  split_and!; [congruence|done| | |].
  - apply NoDup_app. split_and!; [done| |done]. intros i Hi Hi'. apply Hf2, Hi1 in Hi' as [_ Hn]. by apply Hn.
  - apply Forall_forall. intros i [?|Hi]%elem_of_app; [auto|]. by apply Hf2, Hi1 in Hi as [Hi _].
  - intros i. rewrite Hi2, Hi1, elem_of_app. naive_solver.
Qed.

Lemma set_idle_spec i s :
  idle_set_wf s → i < m_size s →
  ∃ s', set_idle i s = Done tt s' ∧ idle_set_wf s' ∧ m_size s' = m_size s ∧
    ∀ j, is_idle s' j ↔ is_idle s j ∨ j = i.
Proof.
  intros Hs Hi. unfold set_idle, mbind, comp_bind, flag_exchange.
  destruct (lookup_lt_is_Some_2 _ _ Hi) as [b Hb]. rewrite Hb. unfold idle_set_wf, idle_count, m_size, is_idle in *.
  pose proof (count_insert _ i b true Hb) as Hc.
  assert (∀ j, <[i:=true]> (m_idle_flags s) !! j = Some true ↔ m_idle_flags s !! j = Some true ∨ j = i) as Hj.
  { intros j. destruct (decide (j = i)) as [->|]; [rewrite list_lookup_insert_eq by done|rewrite list_lookup_insert_ne by done]; naive_solver. }
  destruct b; eexists; (split; [done|]); simpl; rewrite length_insert; (split_and!; [lia|done|done]).
Qed.

Lemma set_active_spec i s :
  idle_set_wf s → i < m_size s →
  ∃ s', set_active i s = Done tt s' ∧ idle_set_wf s' ∧ m_size s' = m_size s ∧
    ∀ j, is_idle s' j ↔ is_idle s j ∧ j ≠ i.
Proof.
  intros Hs Hi. unfold set_active, mbind, comp_bind, flag_exchange.
  destruct (lookup_lt_is_Some_2 _ _ Hi) as [b Hb]. rewrite Hb. unfold idle_set_wf, idle_count, m_size, is_idle in *.
  pose proof (count_insert _ i b false Hb) as Hc.
  assert (∀ j, <[i:=false]> (m_idle_flags s) !! j = Some true ↔ m_idle_flags s !! j = Some true ∧ j ≠ i) as Hj.
  { intros j. destruct (decide (j = i)) as [->|]; [rewrite list_lookup_insert_eq by done|rewrite list_lookup_insert_ne by done]; naive_solver. }
  destruct b; eexists; (split; [done|]); simpl; rewrite length_insert; (split_and!; [lia|done|done]).
Qed.

Lemma try_acquire_flag_spec i s :
  idle_set_wf s → i < m_size s →
  (is_idle s i ∧ ∃ s', try_acquire_flag i s = Done true s' ∧ acquired_all [i] s s') ∨
  (¬ is_idle s i ∧ try_acquire_flag i s = Done false s).
Proof.
  intros Hs Hi. unfold try_acquire_flag, mbind, comp_bind, flag_exchange, flag_load.
  destruct (lookup_lt_is_Some_2 _ _ Hi) as [b Hb]. rewrite Hb.
  unfold acquired_all, idle_set_wf, idle_count, m_size, is_idle in *.
  destruct b; [left|right; by rewrite Hb]. split; [done|].
  pose proof (count_insert _ i true false Hb) as Hc. rewrite Hb. eexists. split; [done|]. simpl in *.
  rewrite length_insert. split_and!; [done|lia|apply NoDup_singleton|by repeat constructor|].
  intros j. rewrite list_elem_of_singleton.
  destruct (decide (j = i)) as [->|]; [rewrite list_lookup_insert_eq by done|rewrite list_lookup_insert_ne by done]; naive_solver.
Qed.

Lemma mod_neq_lt a n : n ≠ 0 → a mod n < n.
Proof. intros. by apply Nat.mod_upper_bound. Qed.

Lemma find_loop_spec caller start i k s :
  idle_set_wf s → m_size s ≠ 0 →
  (∃ j s', find_loop caller start i k s = Done (Some j) s' ∧ acquired_all [j] s s' ∧
     Some j ≠ caller ∧ j < m_size s) ∨
  (find_loop caller start i k s = Done None s ∧
     ∀ n, i ≤ n < i + k → is_idle s ((start + n) mod m_size s) → Some ((start + n) mod m_size s) = caller).
Proof.
  intros Hs Hn. revert i. induction k as [|k IH]; intros i; simpl; [right; split; [done|lia]|].
  rewrite !get_state_bind. pose proof (mod_neq_lt (start + i) _ Hn) as Hlt.
  assert (∀ m, i ≤ m < i + S k → m = i ∨ S i ≤ m < S i + k) as Hm by lia.
  case_decide as Hc.
  { destruct (IH (S i)) as [?|(Hr & Hall)]; [by left|right; split; [done|]].
    intros m [->|?]%Hm; auto. }
  unfold mbind, comp_bind.
  destruct (try_acquire_flag_spec _ s Hs Hlt) as [(Hi & s' & -> & Ha)|(Hi & ->)].
  - left. by exists ((start + i) mod m_size s), s'.
  - destruct (IH (S i)) as [?|(Hr & Hall)]; [by left|right; split; [done|]].
    intros m [->|?]%Hm Hid; [done|auto].
Qed.

(** A full turn from any position visits every worker. *)
Lemma full_turn start j n : n ≠ 0 → j < n → ∃ i, i < n ∧ (start + i) mod n = j.
Proof.
  intros Hn Hj. set (s := start mod n).
  assert (s < n) by (by apply Nat.mod_upper_bound).
  pose proof (Nat.div_mod start n Hn) as Hd. fold s in Hd.
  destruct (decide (s ≤ j)).
  - exists (j - s). split; [lia|]. rewrite Hd.
    replace (n * (start / n) + s + (j - s)) with (j + (start / n) * n) by lia.
    rewrite Nat.Div0.mod_add. by apply Nat.mod_small.
  - exists (n - s + j). split; [lia|]. rewrite Hd.
    replace (n * (start / n) + s + (n - s + j)) with (j + (start / n + 1) * n) by lia.
    rewrite Nat.Div0.mod_add. by apply Nat.mod_small.
Qed.

Lemma idle_count_pos s i : is_idle s i → 0 < idle_count s.
Proof.
  intros Hi%list_elem_of_lookup_2. unfold idle_count.
  destruct (filter _ _) eqn:Hf; [|simpl; lia]. exfalso.
  assert (true ∈ filter (λ b, b = true) (m_idle_flags s)) as Hin by (by apply list_elem_of_filter).
  rewrite Hf in Hin. by apply elem_of_nil in Hin.
Qed.

Lemma find_idle_worker_acquires hashed caller s :
  idle_set_wf s →
  (∃ j s', find_idle_worker hashed caller s = Done (Some j) s' ∧ acquired_all [j] s s' ∧
     Some j ≠ caller ∧ j < m_size s) ∨
  (find_idle_worker hashed caller s = Done None s ∧ ∀ j, is_idle s j → caller = Some j).
Proof.
  intros Hs. unfold find_idle_worker. rewrite get_state_bind. case_decide as Hz.
  { right. split; [done|]. intros j Hj%idle_count_pos. unfold idle_set_wf in Hs. lia. }
  assert (m_size s ≠ 0) as Hn.
  { intros Hn%nil_length_inv. unfold idle_set_wf, idle_count in Hs. rewrite Hn in Hs. simpl in Hs. lia. }
  set (start := match caller with Some c => c | None => _ end).
  destruct (find_loop_spec caller start 0 (m_size s) s Hs Hn) as [?|(Hr & Hall)]; [by left|right].
  split; [done|]. intros j Hj. pose proof (lookup_lt_Some _ _ _ Hj) as Hlt.
  destruct (full_turn start j (m_size s) Hn Hlt) as (i & Hi & Heq).
  symmetry. rewrite <- Heq. apply Hall; [lia|by rewrite Heq].
Qed.

Lemma find_many_loop_spec caller i k room buf s :
  idle_set_wf s → m_size s ≠ 0 →
  ∃ new s', find_many_loop caller i k room buf s = Done (buf ++ new) s' ∧ acquired_all new s s' ∧
    length new ≤ room ∧ Forall (λ j, j ≠ caller ∧ j < m_size s) new.
Proof.
  revert i room buf s. induction k as [|k IH]; intros i room buf s Hs Hn.
  { exists [], s. rewrite app_nil_r. split_and!; [done|by apply acquired_none|simpl; lia|done]. }
  destruct room as [|room].
  { exists [], s. rewrite app_nil_r. split_and!; [done|by apply acquired_none|simpl; lia|done]. }
  simpl. rewrite get_state_bind. pose proof (mod_neq_lt (caller + i) _ Hn) as Hlt.
  case_decide as Hc; [by apply IH|]. unfold mbind, comp_bind.
  destruct (try_acquire_flag_spec _ s Hs Hlt) as [(Hi & s1 & -> & Ha)|(Hi & ->)]; [|by apply IH].
  destruct Ha as (Hsz & Hw1 & ?).
  destruct (IH (S i) room (buf ++ [(caller + i) mod m_size s]) s1) as (new & s2 & Hr & Ha2 & Hl & Hf); [done|congruence|].
  exists ([(caller + i) mod m_size s] ++ new), s2. rewrite Hr, <- (assoc_L (++)). split_and!; [done| |simpl; lia|].
  - by eapply acquired_trans.
  - rewrite Hsz in Hf. constructor; [done|exact Hf].
Qed.

Lemma find_idle_workers_acquires caller max_count s :
  idle_set_wf s → caller < m_size s →
  ∃ new s', find_idle_workers caller max_count s = Done new s' ∧ acquired_all new s s' ∧
    length new ≤ max_count ∧ Forall (λ j, j ≠ caller ∧ j < m_size s) new.
Proof.
  intros Hs Hc. unfold find_idle_workers. rewrite get_state_bind. case_decide.
  { exists [], s. split_and!; [done|by apply acquired_none|simpl; lia|done]. }
  rewrite assert_bind by (by apply bool_decide_eq_true_2).
  destruct (find_many_loop_spec caller 0 (m_size s) (Z.to_nat (m_approx_size s) `min` max_count) [] s)
    as (new & s' & Hr & Ha & Hl & Hf); [done|lia|].
  exists new, s'. split_and!; [exact Hr|done|lia|done].
Qed.

(** The search for an idle worker is exact.  It returns a worker that was
    idle, is not the caller and is now active, with the count of idle workers
    kept in step; and it finds none only when no other worker is idle. *)
Theorem find_idle_worker_exact hashed caller s :
  idle_set_wf s →
  (∃ j s', find_idle_worker hashed caller s = Done (Some j) s' ∧ Some j ≠ caller ∧ is_idle s j ∧
     (∀ i, is_idle s' i ↔ is_idle s i ∧ i ≠ j) ∧ idle_set_wf s') ∨
  (find_idle_worker hashed caller s = Done None s ∧ ∀ j, is_idle s j → caller = Some j).
Proof.
  intros Hs. destruct (find_idle_worker_acquires hashed caller s Hs)
    as [(j & s' & Hr & (_ & Hw & _ & Hf & Hi) & Hc & _)|?]; [left|by right].
  exists j, s'. split_and!; [done..|by inversion Hf| |done].
  intros i. rewrite Hi, list_elem_of_singleton. done.
Qed.

Definition idle_example : idle_worker_set := IdleWorkerSet [true; false; true] 2.

Lemma find_idle_worker_exact_witness :
  find_idle_worker 7 (Some 0) idle_example = Done (Some 2) (IdleWorkerSet [true; false; false] 1) ∧
  ((∃ j s', find_idle_worker 7 (Some 0) idle_example = Done (Some j) s' ∧ Some j ≠ Some 0 ∧ is_idle idle_example j ∧
     (∀ i, is_idle s' i ↔ is_idle idle_example i ∧ i ≠ j) ∧ idle_set_wf s') ∨
   (find_idle_worker 7 (Some 0) idle_example = Done None idle_example ∧ ∀ j, is_idle idle_example j → Some 0 = Some j)).
Proof. split; [reflexivity|]. apply (find_idle_worker_exact 7 (Some 0) idle_example). reflexivity. Defined.
