(* ===== verification/ThreadPool.v ===== *)
(** * [thread_pool_executor]

    Several pools, their workers and the threads that use them, as one state
    machine.  There is a step for each critical section of a worker's [m_lock],
    for each operation on a semaphore or an atomic flag outside of one, and for
    each operation of the set of idle workers.  Several pools are modelled
    because the thread-local [this_worker] is common to all of them. *)

From S2P Require Import Prelude Conc IdleWorkers.
From stdpp Require Import options.

(** A worker: its pool, and its index there. *)
Definition worker_ref : Type := nat * nat.

(** What a call to a pool has still to do: [enqueue] of one task or of a span,
    and [enqueue_foreign] to a worker that was chosen. *)
Inductive op (A : Type) : Type :=
  | op_enqueue (p : nat) (t : A)
  | op_enqueue_span (p : nat) (ts : list A)
  | op_push (wr : worker_ref) (ts : list A).
Arguments op_enqueue {A}.
Arguments op_enqueue_span {A}.
Arguments op_push {A}.

(** Where a worker's thread is.  [pw_gone]: there is none, or its [work_loop]
    has come to its end.  In [wait_for_task]: about to lock, to mark itself
    idle, to acquire the semaphore, to read [m_task_found_or_abort], to lock
    again, or to lock after the deadline.  In [drain_queue_impl]: at the head of
    the loop; in the loop of [balance_work], with its variables; about to read
    [m_atomic_abort]; in a task, with what its call to a pool has still to do;
    out of the loop because of an abort.  [pw_catch]: in the handler of
    [work_loop]. *)
Inductive pw_pc (A : Type) : Type :=
  | pw_gone
  | pw_lock
  | pw_mark_idle
  | pw_acquire
  | pw_flag
  | pw_relock
  | pw_timed_out
  | pw_drain
  | pw_donate (idle_workers : list nat) (begin end_ extra donation_count : nat)
  | pw_pop
  | pw_running (ops : list (op A))
  | pw_aborted
  | pw_catch.
Arguments pw_gone {A}.
Arguments pw_lock {A}.
Arguments pw_mark_idle {A}.
Arguments pw_acquire {A}.
Arguments pw_flag {A}.
Arguments pw_relock {A}.
Arguments pw_timed_out {A}.
Arguments pw_drain {A}.
Arguments pw_donate {A}.
Arguments pw_pop {A}.
Arguments pw_running {A}.
Arguments pw_aborted {A}.
Arguments pw_catch {A}.

(** How far [thread_pool_worker::shutdown] has come. *)
Inductive pw_shutdown : Type :=
  | sd_none
  | sd_atomic_abort
  | sd_abort
  | sd_flag
  | sd_released
  | sd_done.

(** A task that was moved from is [None].  [w_owed] counts the threads that
    found the public queue empty, unlocked, and have still to release the
    semaphore. *)
Record pool_worker (A : Type) : Type := PoolWorker {
  m_private_queue : list (option A);
  m_public_queue : list A;
  m_semaphore : nat;
  m_idle : bool;
  m_abort : bool;
  m_atomic_abort : bool;
  m_task_found_or_abort : bool;
  w_pc : pw_pc A;
  w_owed : nat;
  w_shutdown : pw_shutdown }.
Arguments PoolWorker {A}.
Arguments m_private_queue {A} _.
Arguments m_public_queue {A} _.
Arguments m_semaphore {A} _.
Arguments m_idle {A} _.
Arguments m_abort {A} _.
Arguments m_atomic_abort {A} _.
Arguments m_task_found_or_abort {A} _.
Arguments w_pc {A} _.
Arguments w_owed {A} _.
Arguments w_shutdown {A} _.

(** [p_shutdown]: the worker that the loop of [shutdown] is at. *)
Record pool (A : Type) : Type := Pool {
  p_name : string;
  m_workers : list (pool_worker A);
  m_round_robin_cursor : Z;
  m_idle_workers : idle_worker_set;
  p_abort : bool;
  p_shutdown : option nat }.
Arguments Pool {A}.
Arguments p_name {A} _.
Arguments m_workers {A} _.
Arguments m_round_robin_cursor {A} _.
Arguments m_idle_workers {A} _.
Arguments p_abort {A} _.
Arguments p_shutdown {A} _.

(** [calls]: the calls of other threads to the pools; the tasks that were run
    (or are running), were destroyed, were given to a pool (ghosts). *)
Record pools (A : Type) : Type := Pools {
  s_pools : list (pool A);
  s_calls : list (list (op A));
  s_ran : list A;
  s_dropped : list A;
  s_accepted : list A }.
Arguments Pools {A}.
Arguments s_pools {A} _.
Arguments s_calls {A} _.
Arguments s_ran {A} _.
Arguments s_dropped {A} _.
Arguments s_accepted {A} _.

Section pools.
Context {A : Type}.
Implicit Types (w : pool_worker A) (s : pools A) (wr : worker_ref) (t : A) (ts : list A) (o : op A) (ops : list (op A)).

(** ** Fields *)

Definition set_pc (pc : pw_pc A) w : pool_worker A :=
  PoolWorker (m_private_queue w) (m_public_queue w) (m_semaphore w) (m_idle w) (m_abort w)
    (m_atomic_abort w) (m_task_found_or_abort w) pc (w_owed w) (w_shutdown w).
Definition set_private (q : list (option A)) w : pool_worker A :=
  PoolWorker q (m_public_queue w) (m_semaphore w) (m_idle w) (m_abort w)
    (m_atomic_abort w) (m_task_found_or_abort w) (w_pc w) (w_owed w) (w_shutdown w).
Definition set_semaphore (n owed : nat) w : pool_worker A :=
  PoolWorker (m_private_queue w) (m_public_queue w) n (m_idle w) (m_abort w)
    (m_atomic_abort w) (m_task_found_or_abort w) (w_pc w) owed (w_shutdown w).
(** [m_idle = true], after which the thread leaves [work_loop]. *)
Definition leave_loop w : pool_worker A :=
  PoolWorker (m_private_queue w) (m_public_queue w) (m_semaphore w) true (m_abort w)
    (m_atomic_abort w) (m_task_found_or_abort w) pw_gone (w_owed w) (w_shutdown w).

Definition worker_at s wr : option (pool_worker A) := p ← s_pools s !! wr.1; m_workers p !! wr.2.

Definition set_workers (ws : list (pool_worker A)) (p : pool A) : pool A :=
  Pool (p_name p) ws (m_round_robin_cursor p) (m_idle_workers p) (p_abort p) (p_shutdown p).
Definition set_pools (ps : list (pool A)) s : pools A :=
  Pools ps (s_calls s) (s_ran s) (s_dropped s) (s_accepted s).

Definition store_worker wr w s : pools A :=
  set_pools (alter (λ p, set_workers (<[wr.2 := w]> (m_workers p)) p) wr.1 (s_pools s)) s.

Definition load_worker wr : comp (pools A) (pool_worker A) := λ s,
  match worker_at s wr with Some w => Done w s | None => Fault use_after_free end.
Definition put_worker wr w : comp (pools A) unit := modify (store_worker wr w).
Definition load_pool (p : nat) : comp (pools A) (pool A) := λ s,
  match s_pools s !! p with Some pl => Done pl s | None => Fault use_after_free end.

(** An operation on the set of idle workers of a pool. *)
Definition on_idle_workers {B} (p : nat) (m : comp idle_worker_set B) : comp (pools A) B := λ s,
  match s_pools s !! p with
  | None => Fault use_after_free
  | Some pl =>
      match m (m_idle_workers pl) with
      | Done b i => Done b (set_pools (<[p := Pool (p_name pl) (m_workers pl) (m_round_robin_cursor pl) i
                                          (p_abort pl) (p_shutdown pl)]> (s_pools s)) s)
      | Block => Block
      | Fault f => Fault f
      end
  end.

Definition drop_tasks ts : comp (pools A) unit :=
  modify (λ s, Pools (s_pools s) (s_calls s) (s_ran s) (s_dropped s ++ ts) (s_accepted s)).
Definition run_task t : comp (pools A) unit :=
  modify (λ s, Pools (s_pools s) (s_calls s) (s_ran s ++ [t]) (s_dropped s) (s_accepted s)).

Definition is_empty {B} (q : list B) : bool := match q with [] => true | _ => false end.

(** The tasks that were not moved from. *)
Definition live (q : list (option A)) : list A := omap id q.

(** ** [thread_pool_worker]: the side of the clients *)

Definition pool_name (p : nat) : comp (pools A) string := pl ← load_pool p; mret (p_name pl).

(** [ensure_worker_active], under the lock.  A thread that is idle is replaced:
    the one before has left its loop when [m_idle] is set, so the join of it
    returns. *)
Definition ensure_worker_active (first_enqueuer : bool) w : pool_worker A :=
  if m_idle w then
    PoolWorker (m_private_queue w) (m_public_queue w) (m_semaphore w) false (m_abort w)
      (m_atomic_abort w) (m_task_found_or_abort w) pw_lock (w_owed w) (w_shutdown w)
  else if first_enqueuer then set_semaphore (m_semaphore w) (S (w_owed w)) w
  else w.

(** The critical section of the overloads of [enqueue_foreign]. *)
Definition push_public ts w : pool_worker A :=
  ensure_worker_active (is_empty (m_public_queue w))
    (PoolWorker (m_private_queue w) (m_public_queue w ++ ts) (m_semaphore w) (m_idle w) (m_abort w)
       (m_atomic_abort w) true (w_pc w) (w_owed w) (w_shutdown w)).

Definition enqueue_foreign wr ts : comp (pools A) (outcome unit) :=
  w ← load_worker wr;
  if m_abort w then name ← pool_name wr.1; mret (Throw (runtime_shutdown name))
  else put_worker wr (push_public ts w);; mret (Ret tt).

(** The [m_semaphore.release()] of [ensure_worker_active], after the unlock; [c]: see
    [binary_release]. *)
Definition release_semaphore (c : nat) wr : comp (pools A) unit :=
  w ← load_worker wr;
  match w_owed w with
  | 0 => block
  | S n => put_worker wr (set_semaphore (binary_release c (m_semaphore w)) n w)
  end.

Definition enqueue_local wr ts : comp (pools A) (outcome unit) :=
  w ← load_worker wr;
  if m_atomic_abort w then name ← pool_name wr.1; mret (Throw (runtime_shutdown name))
  else put_worker wr (set_private (m_private_queue w ++ (Some <$> ts)) w);; mret (Ret tt).

Definition appears_empty w : bool := is_empty (m_private_queue w) && negb (m_task_found_or_abort w).

(** ** [thread_pool_executor::enqueue] *)

(** [m_round_robin_cursor.fetch_add(1)] *)
Definition next_cursor (p : nat) : comp (pools A) Z := λ s,
  match s_pools s !! p with
  | None => Fault use_after_free
  | Some pl =>
      Done (m_round_robin_cursor pl)
        (set_pools (<[p := Pool (p_name pl) (m_workers pl) (size_t_wrap (m_round_robin_cursor pl + 1))
                             (m_idle_workers pl) (p_abort pl) (p_shutdown pl)]> (s_pools s)) s)
  end.

(** [enqueue] of a task, up to the choice of a worker. *)
Definition enqueue (this_worker : option worker_ref) (hashed_id p : nat) t : comp (pools A) (outcome (list (op A))) :=
  let locally wr := r ← enqueue_local wr [t]; mret (outcome_bind r (λ _, Ret [])) in
  let elsewhere :=
    idle_worker_pos ← on_idle_workers p (find_idle_worker hashed_id (snd <$> this_worker));
    match (idle_worker_pos : option nat), this_worker with
    | Some i, _ => mret (Ret [op_push (p, i) [t]])
    | None, Some wr => locally wr
    | None, None =>
        cursor ← next_cursor p;
        pl ← load_pool p;
        mret (Ret [op_push (p, Z.to_nat (cursor mod Z.of_nat (length (m_workers pl)))) [t]])
    end in
  match this_worker with
  | Some wr => w ← load_worker wr; if appears_empty w then locally wr else elsewhere
  | None => elsewhere
  end.

(** The bounds [begin, end) of one worker's share, and what the loop has left:
    the body of the loops of [balance_work] and of [enqueue(span)]. *)
Definition next_share (task_count begin end_ extra : nat) : comp (pools A) (nat * nat) :=
  assert (bool_decide (begin < task_count));;
  let end_' := if decide (extra = 0) then end_ else S end_ in
  let extra' := pred extra in
  assert (bool_decide (end_' ≤ task_count));;
  mret (end_', extra').

(** The loop of [enqueue(span)]: [k] workers from [i] on. *)
Fixpoint share_out (p : nat) ts (donation_count i k begin end_ extra : nat) : comp (pools A) (list (op A)) :=
  match k with
  | 0 => mret []
  | S k =>
      '(end_', extra') ← next_share (length ts) begin end_ extra;
      ops ← share_out p ts donation_count (S i) k end_' (end_' + donation_count) extra';
      mret (op_push (p, i) (slice begin end_' ts) :: ops)
  end.

Definition enqueue_span (this_worker : option worker_ref) (p : nat) ts : comp (pools A) (outcome (list (op A))) :=
  match this_worker with
  | Some wr => r ← enqueue_local wr ts; mret (outcome_bind r (λ _, Ret []))
  | None =>
      pl ← load_pool p;
      let total_worker_count := length (m_workers pl) in
      let task_count := length ts in
      if decide (task_count < total_worker_count) then mret (Ret (op_enqueue p <$> ts)) else
      let donation_count := task_count / total_worker_count in
      let extra := task_count - donation_count * total_worker_count in
      ops ← share_out p ts donation_count 0 total_worker_count 0 donation_count extra;
      mret (Ret ops)
  end.

Definition op_tasks o : list A :=
  match o with op_enqueue _ t => [t] | op_enqueue_span _ ts => ts | op_push _ ts => ts end.
Definition ops_tasks ops : list A := concat (op_tasks <$> ops).

(** One step of a call: what it has to do after it, or an exception. *)
Definition exec_op (this_worker : option worker_ref) (hashed_id : nat) o : comp (pools A) (outcome (list (op A))) :=
  match o with
  | op_enqueue p t => enqueue this_worker hashed_id p t
  | op_enqueue_span p ts => enqueue_span this_worker p ts
  | op_push wr ts => r ← enqueue_foreign wr ts; mret (outcome_bind r (λ _, Ret []))
  end.

(** An exception unwinds the call, which destroys the tasks it still has. *)
Definition call_step (this_worker : option worker_ref) (hashed_id : nat) ops : comp (pools A) (list (op A)) :=
  match ops with
  | [] => block
  | o :: ops =>
      r ← exec_op this_worker hashed_id o;
      match r with
      | Ret new => mret (new ++ ops)
      | _ => drop_tasks (ops_tasks (o :: ops));; mret []
      end
  end.

(** ** [thread_pool_worker]: the worker's thread *)

(** [drain_queue] once [wait_for_task] has returned [true], under the lock. *)
Definition swap_queues w : comp (pools A) (pool_worker A) :=
  if m_abort w then
    mret (leave_loop (PoolWorker (m_private_queue w) (m_public_queue w) (m_semaphore w) (m_idle w) (m_abort w)
                        (m_atomic_abort w) false (w_pc w) (w_owed w) (w_shutdown w)))
  else
    assert (is_empty (m_private_queue w));;
    mret (PoolWorker (Some <$> m_public_queue w) [] (m_semaphore w) (m_idle w) (m_abort w)
            (m_atomic_abort w) false pw_drain (w_owed w) (w_shutdown w)).

(** [balance_work] up to its loop. *)
Definition balance_work wr w : comp (pools A) (pw_pc A) :=
  let task_count := length (m_private_queue w) in
  if decide (task_count < 2) then mret pw_pop else
  pl ← load_pool wr.1;
  let max_idle_worker_count := (length (m_workers pl) - 1) `min` (task_count - 1) in
  if decide (max_idle_worker_count = 0) then mret pw_pop else
  m_idle_worker_list ← on_idle_workers wr.1 (find_idle_workers wr.2 max_idle_worker_count);
  let idle_count := length m_idle_worker_list in
  if decide (idle_count = 0) then mret pw_pop else
  assert (bool_decide (idle_count ≤ task_count));;
  let total_worker_count := idle_count + 1 in
  let donation_count := task_count / total_worker_count in
  let extra := task_count - donation_count * total_worker_count in
  mret (pw_donate m_idle_worker_list 0 donation_count extra donation_count).

(** The tasks [begin, end) after they were moved. *)
Definition move_out (begin end_ : nat) (q : list (option A)) : list (option A) :=
  take begin q ++ replicate (end_ - begin) None ++ drop end_ q.

(** One round of the loop: a share goes to an idle worker. *)
Definition donate wr w (i : nat) (rest : list nat) (begin end_ extra donation_count : nat) : comp (pools A) unit :=
  pl ← load_pool wr.1;
  assert (bool_decide (i ≠ wr.2));;
  assert (bool_decide (i < length (m_workers pl)));;
  '(end_', extra') ← next_share (length (m_private_queue w)) begin end_ extra;
  r ← enqueue_foreign (wr.1, i) (live (slice begin end_' (m_private_queue w)));
  match (r : outcome unit) with
  | Ret _ => w ← load_worker wr;
             put_worker wr (set_pc (pw_donate rest end_' (end_' + donation_count) extra' donation_count)
               (set_private (move_out begin end_' (m_private_queue w)) w))
  | _ => put_worker wr (set_pc pw_catch w)
  end.

(** After the loop: what was donated is erased. *)
Definition erase_donated wr w (begin : nat) : comp (pools A) unit :=
  assert (is_empty (live (take begin (m_private_queue w))));;
  assert (bool_decide (length (live (drop begin (m_private_queue w))) = length (drop begin (m_private_queue w))));;
  assert (negb (is_empty (drop begin (m_private_queue w))));;
  put_worker wr (set_pc pw_pop (set_private (drop begin (m_private_queue w)) w)).

(** The end of a round of [drain_queue_impl]: the last task is run, unless the
    worker was shut down.  A task that was moved from does nothing. *)
Definition pop_task wr w : comp (pools A) unit :=
  if m_atomic_abort w then put_worker wr (set_pc pw_aborted w) else
  match last (m_private_queue w) with
  | None => abort_with assert_failed
  | Some t =>
      put_worker wr (set_pc (pw_running []) (set_private (removelast (m_private_queue w)) w));;
      match t with Some t => run_task t | None => mret tt end
  end.

(** One step of the thread of a worker. [timeout]: the deadline has passed. *)
Definition worker_step (hashed_id : nat) (timeout : bool) wr : comp (pools A) unit :=
  w ← load_worker wr;
  let goto pc := put_worker wr (set_pc pc w) in
  match w_pc w with
  | pw_gone => block
  | pw_lock =>
      if negb (is_empty (m_public_queue w)) || m_abort w then w' ← swap_queues w; put_worker wr w'
      else goto pw_mark_idle
  | pw_mark_idle => on_idle_workers wr.1 (set_idle wr.2);; w ← load_worker wr; put_worker wr (set_pc pw_acquire w)
  | pw_acquire =>
      if timeout then goto pw_timed_out else
      match m_semaphore w with
      | 0 => block
      | S n => put_worker wr (set_pc pw_flag (set_semaphore n (w_owed w) w))
      end
  | pw_flag => goto (if m_task_found_or_abort w then pw_relock else pw_acquire)
  | pw_relock =>
      if is_empty (m_public_queue w) && negb (m_abort w) then goto pw_acquire else
      if m_abort w then put_worker wr (leave_loop w) else
      on_idle_workers wr.1 (set_active wr.2);;
      w' ← swap_queues w; put_worker wr w'
  | pw_timed_out => put_worker wr (leave_loop w)
  | pw_drain =>
      if is_empty (m_private_queue w) then goto pw_lock else
      pc ← balance_work wr w; w ← load_worker wr; put_worker wr (set_pc pc w)
  | pw_donate [] begin _ _ _ => erase_donated wr w begin
  | pw_donate (i :: rest) begin end_ extra donation_count => donate wr w i rest begin end_ extra donation_count
  | pw_pop => pop_task wr w
  | pw_running [] => goto pw_drain
  | pw_running ops =>
      goto (pw_running []);; ops' ← call_step (Some wr) hashed_id ops;
      w ← load_worker wr; put_worker wr (set_pc (pw_running ops') w)
  | pw_aborted | pw_catch => put_worker wr (leave_loop w)
  end.

(** ** [shutdown] *)

(** [thread_pool_worker::shutdown], step by step. *)
Definition worker_shutdown_step (c : nat) wr : comp (pools A) unit :=
  w ← load_worker wr;
  let put sem ab aab found sd :=
    put_worker wr (PoolWorker (m_private_queue w) (m_public_queue w) sem (m_idle w) ab aab found (w_pc w) (w_owed w) sd) in
  match w_shutdown w with
  | sd_none =>
      assert (negb (m_atomic_abort w));;
      put (m_semaphore w) (m_abort w) true (m_task_found_or_abort w) sd_atomic_abort
  | sd_atomic_abort => put (m_semaphore w) true (m_atomic_abort w) (m_task_found_or_abort w) sd_abort
  | sd_abort => put (m_semaphore w) (m_abort w) (m_atomic_abort w) true sd_flag
  | sd_flag => put (binary_release c (m_semaphore w)) (m_abort w) (m_atomic_abort w) (m_task_found_or_abort w) sd_released
  | sd_released =>
      match w_pc w with
      | pw_gone =>
          put_worker wr (PoolWorker [] [] (m_semaphore w) (m_idle w) (m_abort w) (m_atomic_abort w)
                           (m_task_found_or_abort w) (w_pc w) (w_owed w) sd_done);;
          drop_tasks (live (m_private_queue w) ++ m_public_queue w)
      | _ => block
      end
  | sd_done => block
  end.

Definition set_shutdown (p : nat) (pl : pool A) (pos : nat) : comp (pools A) unit :=
  modify (λ s, set_pools (<[p := Pool (p_name pl) (m_workers pl) (m_round_robin_cursor pl) (m_idle_workers pl)
                                   true (Some pos)]> (s_pools s)) s).

(** [thread_pool_executor::shutdown]: the exchange of [m_abort], then one worker
    after the other. *)
Definition shutdown_step (c p : nat) : comp (pools A) unit :=
  pl ← load_pool p;
  match p_shutdown pl with
  | None => if p_abort pl then block else set_shutdown p pl 0
  | Some pos =>
      match m_workers pl !! pos with
      | None => block
      | Some w =>
          match w_shutdown w with
          | sd_done => set_shutdown p pl (S pos)
          | _ => worker_shutdown_step c (p, pos)
          end
      end
  end.

(** ** The state machine *)

Definition worker_init : pool_worker A := PoolWorker [] [] 0 true false false false pw_gone 0 sd_none.

(** The constructor of a pool: every worker is marked idle. *)
Fixpoint mark_all_idle (i k : nat) : comp idle_worker_set unit :=
  match k with 0 => mret tt | S k => set_idle i;; mark_all_idle (S i) k end.

Definition pool_init (name : string) (pool_size : nat) : option (pool A) :=
  match mark_all_idle 0 pool_size (idle_set_init pool_size) with
  | Done _ i => Some (Pool name (replicate pool_size worker_init) 0 i false None)
  | _ => None
  end.

(** Pools as they are created, each with at least one worker. *)
Definition pools_init s : Prop :=
  ∃ pls, s = Pools pls [] [] [] [] ∧
    Forall (λ pl, ∃ name n, n ≠ 0 ∧ pool_init name n = Some pl) pls.

(** A step of the call [k] of a thread that is not a worker. *)
Definition client_step (k hashed_id : nat) : comp (pools A) unit :=
  s ← get_state;
  match s_calls s !! k with
  | None => block
  | Some ops =>
      ops' ← call_step None hashed_id ops;
      modify (λ s, Pools (s_pools s) (<[k := ops']> (s_calls s)) (s_ran s) (s_dropped s) (s_accepted s))
  end.

(** A call begins. *)
Definition start_call o s : pools A :=
  Pools (s_pools s) (s_calls s ++ [[o]]) (s_ran s) (s_dropped s) (s_accepted s ++ op_tasks o).

(** A task that runs on a worker calls a pool. *)
Definition task_call wr o : comp (pools A) unit :=
  w ← load_worker wr;
  match w_pc w with
  | pw_running [] =>
      put_worker wr (set_pc (pw_running [o]) w);;
      modify (λ s, Pools (s_pools s) (s_calls s) (s_ran s) (s_dropped s) (s_accepted s ++ op_tasks o))
  | _ => block
  end.

(** A task ends with a [runtime_shutdown] exception. *)
Definition task_throws wr : comp (pools A) unit :=
  w ← load_worker wr;
  match w_pc w with
  | pw_running [] => put_worker wr (set_pc pw_catch w)
  | _ => block
  end.

(** The calls of the application are to pools that there are. *)
Definition call_ok o s : Prop :=
  match o with
  | op_enqueue p _ | op_enqueue_span p _ => is_Some (s_pools s !! p)
  | op_push _ _ => False
  end.

(** Which of the rarer things may happen. *)
Record mode : Type := Mode { timeouts : bool; throws : bool; shutdowns : bool }.

Inductive pools_step (m : mode) : pools A → pools A → Prop :=
  | step_call o s : call_ok o s → pools_step m s (start_call o s)
  | step_client k h s s' : client_step k h s = Done tt s' → pools_step m s s'
  | step_release c wr s s' : release_semaphore c wr s = Done tt s' → pools_step m s s'
  | step_work wr h timeout s s' : (timeout = true → timeouts m = true) →
      worker_step h timeout wr s = Done tt s' → pools_step m s s'
  | step_task_call wr o s s' : call_ok o s → task_call wr o s = Done tt s' → pools_step m s s'
  | step_throw wr s s' : throws m = true → task_throws wr s = Done tt s' → pools_step m s s'
  | step_shutdown c p s s' : shutdowns m = true → shutdown_step c p s = Done tt s' → pools_step m s s'.

Definition pools_reachable (m : mode) : pools A → Prop := reachable pools_init (pools_step m).

(** ** Where the tasks are *)

Definition pc_tasks (pc : pw_pc A) : list A := match pc with pw_running ops => ops_tasks ops | _ => [] end.
Definition worker_tasks w : list A := live (m_private_queue w) ++ m_public_queue w ++ pc_tasks (w_pc w).
Definition queued s : list A := concat ((λ pl, concat (worker_tasks <$> m_workers pl)) <$> s_pools s).
Definition called s : list A := concat (ops_tasks <$> s_calls s).
Definition all_tasks s : list A := s_ran s ++ s_dropped s ++ queued s ++ called s.
End pools.
