(* ===== verification/ThreadPoolProofs.v ===== *)
(** * What the thread pools promise

    No task is lost or run twice; the assertions hold and no wake-up is lost
    while there is no shutdown and no worker times out; and the executions in
    which they do not. *)

From S2P Require Import Prelude Conc IdleWorkers ThreadPool.
From stdpp Require Import options.

(** ** Workers *)

Section workers.
Context {A : Type}.
Implicit Types (w : pool_worker A) (s : pools A) (wr : worker_ref) (t : A) (ts : list A) (o : op A) (ops : list (op A)).

Lemma worker_at_store wr w s : is_Some (worker_at s wr) → worker_at (store_worker wr w s) wr = Some w.
Proof.
  unfold worker_at, store_worker. simpl. rewrite list_lookup_alter_eq.
  destruct (s_pools s !! wr.1) as [pl|]; simpl; [|intros []; done].
  intros Hi. apply list_lookup_insert_eq. by apply lookup_lt_is_Some.
Qed.

Lemma worker_at_store_ne wr wr' w s : wr' ≠ wr → worker_at (store_worker wr w s) wr' = worker_at s wr'.
Proof.
  intros Hne. unfold worker_at, store_worker. simpl.
  destruct wr as [p i], wr' as [q j]; simpl in *. destruct (decide (q = p)) as [->|].
  - rewrite list_lookup_alter_eq. destruct (s_pools s !! p) as [pl|]; [|done].
    simpl. apply list_lookup_insert_ne. congruence.
  - by rewrite list_lookup_alter_ne by done.
Qed.

(** A property of every worker. *)
Definition all_workers (P : worker_ref → pool_worker A → Prop) s : Prop :=
  ∀ wr w, worker_at s wr = Some w → P wr w.

Lemma all_workers_store (P : worker_ref → pool_worker A → Prop) wr w s :
  all_workers P s → P wr w → all_workers P (store_worker wr w s).
Proof.
  intros Hs Hw wr' w' Hl. destruct (decide (wr' = wr)) as [->|].
  - destruct (worker_at s wr) as [w0|] eqn:Hw0.
    + rewrite worker_at_store in Hl by done. by simplify_eq.
    + revert Hl. unfold worker_at, store_worker in *. simpl. rewrite list_lookup_alter_eq.
      destruct (s_pools s !! wr.1) as [pl|]; simpl in *; [|done].
      rewrite list_insert_ge by (by apply lookup_ge_None). rewrite Hw0. done.
  - rewrite worker_at_store_ne in Hl by done. by apply Hs.
Qed.

Lemma load_worker_done wr s w s' : load_worker wr s = Done w s' → worker_at s wr = Some w ∧ s' = s.
Proof. unfold load_worker. destruct (worker_at s wr); intros; by simplify_eq. Qed.
Lemma load_pool_done p s pl s' : load_pool p s = Done pl s' → s_pools s !! p = Some pl ∧ s' = s.
Proof. unfold load_pool. destruct (s_pools s !! p); intros; by simplify_eq. Qed.
Lemma put_worker_done wr w s u s' : put_worker wr w s = Done u s' → s' = store_worker wr w s.
Proof. unfold put_worker, modify. intros. by simplify_eq. Qed.

(** A change of a pool that is not of its workers. *)
Definition same_workers s s' : Prop :=
  (m_workers <$> s_pools s') = (m_workers <$> s_pools s) ∧ s_calls s' = s_calls s ∧ s_ran s' = s_ran s ∧
  s_dropped s' = s_dropped s ∧ s_accepted s' = s_accepted s.

Lemma same_workers_at s s' wr : same_workers s s' → worker_at s' wr = worker_at s wr.
Proof.
  intros [Hw _]. unfold worker_at. apply (f_equal (.!! wr.1)) in Hw. rewrite !list_lookup_fmap in Hw.
  destruct (s_pools s !! wr.1), (s_pools s' !! wr.1); simplify_eq/=; congruence.
Qed.

Lemma same_workers_insert s p pl pl' :
  s_pools s !! p = Some pl → m_workers pl' = m_workers pl → same_workers s (set_pools (<[p := pl']> (s_pools s)) s).
Proof.
  intros Hp Hw. split; [|done]. simpl. rewrite list_fmap_insert, Hw. apply list_insert_id.
  by rewrite list_lookup_fmap, Hp.
Qed.

Lemma on_idle_workers_done {B} p (m : comp idle_worker_set B) s b s' :
  on_idle_workers p m s = Done b s' →
  same_workers s s' ∧ ∃ pl i', s_pools s !! p = Some pl ∧ m (m_idle_workers pl) = Done b i' ∧
    s' = set_pools (<[p := Pool (p_name pl) (m_workers pl) (m_round_robin_cursor pl) i'
                             (p_abort pl) (p_shutdown pl)]> (s_pools s)) s.
Proof.
  unfold on_idle_workers. destruct (s_pools s !! p) as [pl|] eqn:Hp; [|done].
  destruct (m (m_idle_workers pl)) as [b' i'| |] eqn:Hm; intros; simplify_eq.
  split; [by eapply same_workers_insert|eauto].
Qed.

Lemma next_cursor_done p s z s' :
  next_cursor p s = Done z s' → same_workers s s' ∧ is_Some (s_pools s !! p).
Proof.
  unfold next_cursor. destruct (s_pools s !! p) eqn:Hp; intros; simplify_eq. split; [|done].
  by eapply same_workers_insert.
Qed.

Lemma pool_name_done p s b s' : pool_name p s = Done b s' → s' = s.
Proof. intros (pl & s1 & [_ ->]%load_pool_done & Hr)%bind_done. unfold mret, comp_ret in Hr. by simplify_eq. Qed.
End workers.

(** Takes a successful run of sequential code apart. *)
Ltac inv_done :=
  repeat match goal with
  | H : (_ ≫= _) _ = Done _ _ |- _ => apply bind_done in H as (? & ? & ? & H)
  | H : mret _ _ = Done _ _ |- _ => unfold mret, comp_ret in H; simplify_eq
  | H : assert _ _ = Done _ _ |- _ => apply assert_done in H as [? ->]
  | H : modify _ _ = Done _ _ |- _ => apply modify_done in H as ->
  | H : load_worker _ _ = Done _ _ |- _ => apply load_worker_done in H as [? ->]
  | H : load_pool _ _ = Done _ _ |- _ => apply load_pool_done in H as [? ->]
  | H : put_worker _ _ _ = Done _ _ |- _ => apply put_worker_done in H as ->
  | H : pool_name _ _ = Done _ _ |- _ => apply pool_name_done in H as ->
  | H : drop_tasks _ _ = Done _ _ |- _ => apply modify_done in H as ->
  | H : run_task _ _ = Done _ _ |- _ => apply modify_done in H as ->
  | H : block _ = Done _ _ |- _ => discriminate H
  | H : abort_with _ _ = Done _ _ |- _ => discriminate H
  end.

(** ** What a call does to the workers *)

Section calls.
Context {A : Type}.
Implicit Types (w : pool_worker A) (s : pools A) (wr : worker_ref) (t : A) (ts : list A) (ops : list (op A)).

Lemma enqueue_foreign_done wr ts s r s' :
  enqueue_foreign wr ts s = Done r s' →
  ∃ w, worker_at s wr = Some w ∧
    ((m_abort w = true ∧ s' = s ∧ ∃ e, r = Throw e) ∨
     (m_abort w = false ∧ s' = store_worker wr (push_public ts w) s ∧ r = Ret tt)).
Proof.
  intros H. unfold enqueue_foreign in H. apply bind_done in H as (w & ? & [Hw ->]%load_worker_done & H).
  exists w. split; [done|]. destruct (m_abort w); inv_done; naive_solver.
Qed.

Lemma enqueue_local_done wr ts s r s' :
  enqueue_local wr ts s = Done r s' →
  ∃ w, worker_at s wr = Some w ∧
    ((m_atomic_abort w = true ∧ s' = s ∧ ∃ e, r = Throw e) ∨
     (m_atomic_abort w = false ∧ r = Ret tt ∧
      s' = store_worker wr (set_private (m_private_queue w ++ (Some <$> ts)) w) s)).
Proof.
  intros H. unfold enqueue_local in H. apply bind_done in H as (w & ? & [Hw ->]%load_worker_done & H).
  exists w. split; [done|]. destruct (m_atomic_abort w); inv_done; naive_solver.
Qed.

(** A call on the thread of [tw] leaves a worker alone, or appends to its public
    queue, or to its private queue if it is the thread's own. *)
Definition touched (tw : option worker_ref) wr w w' : Prop :=
  w' = w ∨ (m_abort w = false ∧ ∃ ts, w' = push_public ts w) ∨
  (tw = Some wr ∧ m_atomic_abort w = false ∧ ∃ ts, w' = set_private (m_private_queue w ++ (Some <$> ts)) w).

Definition evolves (tw : option worker_ref) s s' : Prop :=
  ∀ wr, match worker_at s wr, worker_at s' wr with
        | Some w, Some w' => touched tw wr w w'
        | None, None => True
        | _, _ => False
        end.

Lemma evolves_same tw s s' : same_workers s s' → evolves tw s s'.
Proof. intros Hs wr. rewrite (same_workers_at _ _ _ Hs). destruct (worker_at s wr); [by left|done]. Qed.

Lemma evolves_store tw s wr w w' :
  worker_at s wr = Some w → touched tw wr w w' → evolves tw s (store_worker wr w' s).
Proof.
  intros Hw Ht wr'. destruct (decide (wr' = wr)) as [->|].
  - rewrite worker_at_store, Hw by (by rewrite Hw). done.
  - rewrite worker_at_store_ne by done. destruct (worker_at s wr'); [by left|done].
Qed.

Lemma same_workers_refl s : same_workers s s.
Proof. by repeat split. Qed.

Lemma evolves_same_r tw s s1 s2 : same_workers s s1 → evolves tw s1 s2 → evolves tw s s2.
Proof. intros Hs H wr. specialize (H wr). by rewrite (same_workers_at _ _ _ Hs) in H. Qed.

Lemma enqueue_foreign_evolves tw wr ts s r s' : enqueue_foreign wr ts s = Done r s' → evolves tw s s'.
Proof.
  intros (w & Hw & [(_ & -> & _)|(Ha & -> & _)])%enqueue_foreign_done; [apply evolves_same, same_workers_refl|].
  eapply evolves_store; [done|]. right; left. eauto.
Qed.

Lemma enqueue_local_evolves wr ts s r s' : enqueue_local wr ts s = Done r s' → evolves (Some wr) s s'.
Proof.
  intros (w & Hw & [(_ & -> & _)|(Ha & _ & ->)])%enqueue_local_done; [apply evolves_same, same_workers_refl|].
  eapply evolves_store; [done|]. do 2 right. eauto.
Qed.

Lemma enqueue_evolves tw h p t s r s' : enqueue tw h p t s = Done r s' → evolves tw s s'.
Proof.
  intros H. unfold enqueue in H.
  set (elsewhere := (_ ← on_idle_workers p _; _)) in H.
  assert (elsewhere s = Done r s' → evolves tw s s') as Helse.
  { clear H. intros H. apply bind_done in H as (pos & s1 & [Hsame _]%on_idle_workers_done & H).
    eapply evolves_same_r; [exact Hsame|].
    destruct pos as [i|], tw as [wr|]; try (inv_done; apply evolves_same, same_workers_refl).
    - apply bind_done in H as (? & ? & H1%enqueue_local_evolves & H). by inv_done.
    - apply bind_done in H as (z & s2 & [Hsame2 _]%next_cursor_done & H). inv_done. by apply evolves_same. }
  destruct tw as [wr|]; [|by apply Helse].
  apply bind_done in H as (w & s1 & [Hw ->]%load_worker_done & H).
  destruct (appears_empty w); [|by apply Helse].
  apply bind_done in H as (? & ? & H1%enqueue_local_evolves & H). by inv_done.
Qed.

Lemma share_out_state p ts d i k b e x s ops s' : share_out p ts d i k b e x s = Done ops s' → s' = s.
Proof.
  revert i b e x s ops. induction k as [|k IH]; intros i b e x s ops H; simpl in H; [by inv_done|].
  apply bind_done in H as ([e' x'] & s1 & Hn & H). unfold next_share in Hn. inv_done. eauto.
Qed.

Lemma enqueue_span_evolves tw p ts s r s' : enqueue_span tw p ts s = Done r s' → evolves tw s s'.
Proof.
  intros H. unfold enqueue_span in H. destruct tw as [wr|].
  { apply bind_done in H as (? & ? & H1%enqueue_local_evolves & H). by inv_done. }
  apply bind_done in H as (pl & s1 & [Hp ->]%load_pool_done & H).
  case_decide; inv_done; [apply evolves_same, same_workers_refl|].
  match goal with H : share_out _ _ _ _ _ _ _ _ _ = _ |- _ => apply share_out_state in H as -> end.
  apply evolves_same, same_workers_refl.
Qed.

Lemma call_step_evolves tw h ops s ops' s' : call_step tw h ops s = Done ops' s' → evolves tw s s'.
Proof.
  destruct ops as [|o ops]; simpl; [done|]. intros (r & s1 & H1 & H)%bind_done.
  assert (evolves tw s s1) as He.
  { destruct o; simpl in H1; [by eapply enqueue_evolves|by eapply enqueue_span_evolves|].
    inv_done. by eapply enqueue_foreign_evolves. }
  destruct r; inv_done; exact He.
Qed.
End calls.

(** ** Conservation of tasks *)

Section conservation.
Context {A : Type} `{!EqDecision A}.
Implicit Types (w : pool_worker A) (s : pools A) (wr : worker_ref) (t : A) (ts : list A) (ops : list (op A)).

(** The share of the next worker in [balance_work]. *)
Definition pc_ctl (pc : pw_pc A) : Prop :=
  match pc with pw_donate _ begin end_ _ donation_count => end_ = begin + donation_count | _ => True end.

(** [m_idle] is set exactly when there is no thread in the loop. *)
Definition worker_ctl wr w : Prop := (m_idle w = true ↔ w_pc w = pw_gone) ∧ pc_ctl (w_pc w).

(** No pool is without workers. *)
Definition sized s : Prop := ∀ p pl, s_pools s !! p = Some pl → m_workers pl ≠ [].
Definition pools_ctl s : Prop := all_workers worker_ctl s ∧ sized s.

Lemma sized_workers s s' :
  (length <$> (m_workers <$> s_pools s')) = (length <$> (m_workers <$> s_pools s)) → sized s → sized s'.
Proof.
  intros Hl Hs p pl' Hp. apply (f_equal (.!! p)) in Hl. rewrite !list_lookup_fmap, Hp in Hl. simpl in Hl.
  destruct (s_pools s !! p) as [pl|] eqn:Hpl; simplify_eq/=. specialize (Hs p pl Hpl).
  intros Hw. rewrite Hw in *. by destruct (m_workers pl).
Qed.

Lemma sized_store wr w s : sized s → sized (store_worker wr w s).
Proof.
  apply sized_workers. unfold store_worker. simpl. apply list_eq. intros p. rewrite !list_lookup_fmap.
  destruct (decide (p = wr.1)) as [->|]; [rewrite list_lookup_alter_eq|by rewrite list_lookup_alter_ne].
  destruct (s_pools s !! wr.1); simpl; [|done]. by rewrite length_insert.
Qed.

(** From [s] to [s'] the tasks [i] came into the pools and [o] left them. *)
Record flow s s' (i o : list A) : Prop := Flow {
  flow_ctl : pools_ctl s';
  flow_total x : occ x (all_tasks s') + occ x o = occ x (all_tasks s) + occ x i;
  flow_accepted : s_accepted s' = s_accepted s;
  flow_calls : s_calls s' = s_calls s }.

Lemma flow_refl s : pools_ctl s → flow s s [] [].
Proof. by split. Qed.

Lemma flow_trans s1 s2 s3 i1 o1 i2 o2 :
  flow s1 s2 i1 o1 → flow s2 s3 i2 o2 → flow s1 s3 (i1 ++ i2) (o1 ++ o2).
Proof.
  intros [? H1 ??] [? H2 ??]. split; [done| |congruence..].
  intros x. specialize (H1 x). specialize (H2 x). rewrite !occ_app. lia.
Qed.

Lemma flow_eq s s' i o i' o' :
  (∀ x, occ x o' + occ x i = occ x i' + occ x o) → flow s s' i o → flow s s' i' o'.
Proof. intros Ho [? H ??]. split; [done| |done..]. intros x. specialize (H x). specialize (Ho x). lia. Qed.

Lemma flow_then s1 s2 s3 i1 o1 i2 o2 i o :
  flow s1 s2 i1 o1 → flow s2 s3 i2 o2 →
  (∀ x, occ x o + occ x i1 + occ x i2 = occ x i + occ x o1 + occ x o2) → flow s1 s3 i o.
Proof.
  intros H1 H2 Hx. eapply flow_eq; [|by eapply flow_trans]. intros x. specialize (Hx x).
  rewrite !occ_app. lia.
Qed.

Lemma queued_store x wr w w' s :
  worker_at s wr = Some w →
  occ x (queued (store_worker wr w' s)) + occ x (worker_tasks w) = occ x (queued s) + occ x (worker_tasks w').
Proof.
  unfold worker_at, store_worker, queued. simpl.
  destruct (s_pools s !! wr.1) as [pl|] eqn:Hp; [|done]. simpl. intros Hi.
  rewrite (alter_as_insert _ _ _ pl) by done.
  set (g := λ pl, concat (worker_tasks <$> m_workers pl)).
  set (pl' := set_workers (<[wr.2:=w']> (m_workers pl)) pl).
  pose proof (occ_concat_insert g (s_pools s) wr.1 pl pl' x Hp) as H1.
  pose proof (occ_concat_insert worker_tasks (m_workers pl) wr.2 w w' x Hi) as H2.
  unfold g, pl' in *. simpl in *. lia.
Qed.

Lemma all_tasks_occ x s :
  occ x (all_tasks s) = occ x (s_ran s) + (occ x (s_dropped s) + (occ x (queued s) + occ x (called s))).
Proof. unfold all_tasks. by rewrite !occ_app. Qed.

Lemma flow_store s wr w w' :
  pools_ctl s → worker_at s wr = Some w → worker_ctl wr w' →
  flow s (store_worker wr w' s) (worker_tasks w') (worker_tasks w).
Proof.
  intros Hs Hw Hw'. split; [|intros x|done..].
  { destruct Hs. split; [by apply all_workers_store|by apply sized_store]. }
  rewrite !all_tasks_occ. pose proof (queued_store x wr w w' s Hw).
  unfold called in *. simpl in *. lia.
Qed.

Lemma same_workers_queued s s' : same_workers s s' → queued s' = queued s.
Proof.
  intros [Hw _].
  assert (∀ s0, queued s0 = concat ((λ ws, concat (worker_tasks <$> ws)) <$> (m_workers <$> s_pools s0))) as Hq.
  { intros s0. unfold queued. by rewrite <- list_fmap_compose. }
  by rewrite !Hq, Hw.
Qed.

Lemma flow_same s s' : pools_ctl s → same_workers s s' → flow s s' [] [].
Proof.
  intros Hs Hw. pose proof (same_workers_queued _ _ Hw) as Hq.
  split; [|intros x|apply Hw..].
  { destruct Hs as [Ha Hz]. split; [intros wr w; rewrite (same_workers_at _ _ _ Hw); apply Ha|].
    eapply sized_workers; [|exact Hz]. by destruct Hw as [-> _]. }
  rewrite !all_tasks_occ. unfold called. destruct Hw as (_ & -> & -> & -> & _). by rewrite Hq.
Qed.

Lemma flow_drop s ts : pools_ctl s →
  flow s (Pools (s_pools s) (s_calls s) (s_ran s) (s_dropped s ++ ts) (s_accepted s)) ts [].
Proof.
  intros Hs. split; [exact Hs| |done..]. intros x. rewrite !all_tasks_occ. simpl.
  unfold queued, called. simpl. occ_lia.
Qed.

Lemma flow_run s t : pools_ctl s →
  flow s (Pools (s_pools s) (s_calls s) (s_ran s ++ [t]) (s_dropped s) (s_accepted s)) [t] [].
Proof.
  intros Hs. split; [exact Hs| |done..]. intros x. rewrite !all_tasks_occ. simpl.
  unfold queued, called. simpl. occ_lia.
Qed.

Lemma ops_tasks_app ops ops' : ops_tasks (ops ++ ops') = ops_tasks ops ++ ops_tasks ops'.
Proof. unfold ops_tasks. by rewrite fmap_app, concat_app. Qed.

Lemma ops_tasks_cons o ops : ops_tasks (o :: ops) = op_tasks o ++ ops_tasks ops.
Proof. done. Qed.

Lemma ops_tasks_nil : ops_tasks (@nil (op A)) = [].
Proof. done. Qed.

Lemma live_app (q q' : list (option A)) : live (q ++ q') = live q ++ live q'.
Proof. apply omap_app. Qed.

Lemma live_some ts : live (Some <$> ts) = ts.
Proof. unfold live. induction ts as [|t ts IH]; simpl; [done|]. f_equal. exact IH. Qed.

Lemma live_none n : live (replicate n (@None A)) = [].
Proof. unfold live. by induction n. Qed.

(** ** The calls *)

Lemma push_public_ctl ts wr w : worker_ctl wr w → worker_ctl wr (push_public ts w).
Proof. unfold push_public, ensure_worker_active, worker_ctl. simpl. repeat case_match; simpl; intros; naive_solver. Qed.

Lemma push_public_tasks ts wr w x :
  worker_ctl wr w → occ x (worker_tasks (push_public ts w)) = occ x (worker_tasks w) + occ x ts.
Proof.
  unfold push_public, ensure_worker_active, worker_ctl, worker_tasks. simpl. intros Hw.
  destruct (m_idle w) eqn:Hi; [destruct Hw as [[Hw _] _]; rewrite Hw by done|case_match]; simpl; occ_lia.
Qed.

Definition result_tasks (r : outcome unit) ts : list A := match r with Ret _ => ts | _ => [] end.

Lemma enqueue_foreign_flow wr ts s r s' :
  pools_ctl s → enqueue_foreign wr ts s = Done r s' → flow s s' (result_tasks r ts) [].
Proof.
  intros Hs H. unfold enqueue_foreign in H. apply bind_done in H as (w & ? & [Hw ->]%load_worker_done & H).
  destruct (m_abort w); inv_done; [by apply flow_refl|]. pose proof (proj1 Hs _ _ Hw) as Hc.
  eapply flow_eq; [|apply (flow_store _ _ w); [done..|by apply push_public_ctl]].
  intros y. simpl. rewrite (push_public_tasks ts wr) by done. occ_lia.
Qed.

Lemma enqueue_local_flow wr ts s r s' :
  pools_ctl s → enqueue_local wr ts s = Done r s' → flow s s' (result_tasks r ts) [].
Proof.
  intros Hs H. unfold enqueue_local in H. apply bind_done in H as (w & ? & [Hw ->]%load_worker_done & H).
  destruct (m_atomic_abort w); inv_done; [by apply flow_refl|]. pose proof (proj1 Hs _ _ Hw) as Hc.
  eapply flow_eq; [|apply (flow_store _ _ w); [done..|exact Hc]].
  intros y. unfold worker_tasks. simpl. rewrite live_app, live_some. occ_lia.
Qed.

(** What remains to be done holds the tasks that were not taken. *)
Definition left_tasks (r : outcome (list (op A))) ts : list A := match r with Ret ops => ops_tasks ops | _ => ts end.

Lemma locally_flow wr ts s r s' :
  pools_ctl s →
  (r ← enqueue_local wr ts; mret (outcome_bind r (λ _, Ret []))) s = Done r s' →
  flow s s' ts (left_tasks r ts).
Proof.
  intros Hs (r0 & s1 & H%enqueue_local_flow & Hr)%bind_done; [|done]. inv_done.
  eapply flow_eq; [|exact H]. intros y. by destruct r0; simpl; occ_lia.
Qed.

Lemma enqueue_flow tw h p t s r s' :
  pools_ctl s → enqueue tw h p t s = Done r s' → flow s s' [t] (left_tasks r [t]).
Proof.
  intros Hs H. unfold enqueue in H.
  set (elsewhere := (_ ← on_idle_workers p _; _)) in H.
  assert (elsewhere s = Done r s' → flow s s' [t] (left_tasks r [t])) as Helse.
  { clear H. intros H. apply bind_done in H as (pos & s1 & [Hsame _]%on_idle_workers_done & H).
    pose proof (flow_same _ _ Hs Hsame) as Hf. pose proof (flow_ctl _ _ _ _ Hf) as Hs1.
    destruct pos as [i|], tw as [wr|]; try (inv_done; eapply flow_eq; [|exact Hf]; simpl; unfold ops_tasks; simpl; occ_lia).
    - apply locally_flow in H; [|done]. pose proof (flow_trans _ _ _ _ _ _ _ Hf H) as Hf'.
      eapply flow_eq; [|exact Hf']. occ_lia.
    - apply bind_done in H as (z & s2 & [Hsame2 _]%next_cursor_done & H). inv_done.
      pose proof (flow_trans _ _ _ _ _ _ _ Hf (flow_same _ _ Hs1 Hsame2)) as Hf'.
      eapply flow_eq; [|exact Hf']. simpl; unfold ops_tasks; simpl; occ_lia. }
  destruct tw as [wr|]; [|by apply Helse].
  apply bind_done in H as (w & s1 & [Hw ->]%load_worker_done & H).
  destruct (appears_empty w); [eapply locally_flow; [done|exact H]|by apply Helse].
Qed.

Lemma next_share_done n b e x s r s' :
  next_share n b e x s = Done r s' →
  s' = s ∧ b < n ∧ r = (if decide (x = 0) then e else S e, pred x) ∧ r.1 ≤ n.
Proof.
  intros H. unfold next_share in H. inv_done.
  repeat match goal with H : bool_decide _ = true |- _ => apply bool_decide_eq_true in H end. done.
Qed.

(** The shares of the remaining workers are the tasks that are left. *)
Lemma share_out_tasks p ts d i k b e x s ops s' :
  share_out p ts d i k b e x s = Done ops s' →
  b ≤ length ts → e = b + d → length ts = b + d * k + x → x ≤ k →
  s' = s ∧ ops_tasks ops = drop b ts ∧ Forall (λ o, ∃ j ts', o = op_push (p, j) ts' ∧ i ≤ j < i + k) ops.
Proof.
  revert i b e x s ops. induction k as [|k IH]; intros i b e x s ops H Hb He Hn Hx; simpl in H.
  { inv_done. split_and!; [done| |done]. rewrite drop_ge by lia. done. }
  apply bind_done in H as ([e' x'] & s1 & (-> & Hlt & Heq & Hle)%next_share_done & H). simplify_eq/=.
  apply bind_done in H as (ops1 & s2 & Hrec & H). inv_done.
  apply IH in Hrec as (-> & Hops & Hall); [|case_decide; subst; lia..].
  split_and!; [done| |].
  - rewrite ops_tasks_cons, Hops. simpl. rewrite <- slice_to_end, slice_app by (case_decide; lia).
    apply slice_to_end.
  - constructor; [exists i; eexists; split; [done|lia]|]. eapply Forall_impl; [exact Hall|].
    intros o (j & ts' & -> & ?). exists j, ts'. split; [done|lia].
Qed.

Lemma enqueue_span_flow tw p ts s r s' :
  pools_ctl s → enqueue_span tw p ts s = Done r s' → flow s s' ts (left_tasks r ts).
Proof.
  intros Hs H. unfold enqueue_span in H. destruct tw as [wr|]; [eapply locally_flow; [done|exact H]|].
  apply bind_done in H as (pl & s1 & [Hp ->]%load_pool_done & H).
  case_decide as Hc; inv_done.
  - eapply flow_eq; [|by apply flow_refl]. intros y. simpl.
    replace (ops_tasks (op_enqueue p <$> ts)) with ts; [occ_lia|].
    unfold ops_tasks. clear. induction ts as [|t ts IH]; simpl; [done|]. by f_equal.
  - pose proof (proj2 Hs _ _ Hp) as Hne. assert (length (m_workers pl) ≠ 0) as Hn by (by intros ?%nil_length_inv).
    pose proof (Nat.div_mod (length ts) _ Hn) as Hd. pose proof (Nat.mod_upper_bound (length ts) _ Hn).
    match goal with H : share_out _ _ _ _ _ _ _ _ _ = _ |- _ => apply share_out_tasks in H as (-> & Hops & _) end;
      [|lia..].
    eapply flow_eq; [|by apply flow_refl]. intros y. simpl. rewrite Hops, drop_0. occ_lia.
Qed.

Lemma exec_op_flow tw h o s r s' :
  pools_ctl s → exec_op tw h o s = Done r s' → flow s s' (op_tasks o) (left_tasks r (op_tasks o)).
Proof.
  intros Hs H. destruct o as [p t|p ts|wr ts]; simpl in *.
  - by eapply enqueue_flow.
  - by eapply enqueue_span_flow.
  - apply bind_done in H as (r0 & s1 & H1%enqueue_foreign_flow & H); [|done]. inv_done.
    eapply flow_eq; [|exact H1]. intros y. destruct r0; simpl; occ_lia.
Qed.

Lemma call_step_flow tw h ops s ops' s' :
  pools_ctl s → call_step tw h ops s = Done ops' s' → flow s s' (ops_tasks ops) (ops_tasks ops').
Proof.
  intros Hs H. destruct ops as [|o ops]; [discriminate H|]. simpl in H.
  apply bind_done in H as (r & s1 & H1%exec_op_flow & H); [|done].
  destruct r as [new|e|]; inv_done.
  - eapply flow_eq; [|exact H1]. intros y. rewrite ops_tasks_cons, ops_tasks_app. simpl. occ_lia.
  - eapply flow_then; [exact H1|apply flow_drop, H1|].
    intros y. rewrite ops_tasks_cons. simpl. rewrite ?occ_app. occ_lia.
  - eapply flow_then; [exact H1|apply flow_drop, H1|].
    intros y. rewrite ops_tasks_cons. simpl. rewrite ?occ_app. occ_lia.
Qed.

(** ** The worker *)

(** A worker with the same tasks. *)
Lemma flow_put s wr w w' :
  pools_ctl s → worker_at s wr = Some w → worker_ctl wr w' →
  (∀ x, occ x (worker_tasks w') = occ x (worker_tasks w)) →
  flow s (store_worker wr w' s) [] [].
Proof.
  intros Hs Hw Hc Ht. eapply flow_eq; [|by apply (flow_store _ _ w)].
  intros x. specialize (Ht x). occ_lia.
Qed.

(** After a change of the sets of idle workers. *)
Lemma flow_same_put s s1 wr w w' :
  pools_ctl s → same_workers s s1 → worker_at s wr = Some w → worker_ctl wr w' →
  (∀ x, occ x (worker_tasks w') = occ x (worker_tasks w)) →
  flow s (store_worker wr w' s1) [] [].
Proof.
  intros Hs Hsame Hw Hc Ht. pose proof (flow_same _ _ Hs Hsame) as H1.
  eapply flow_then; [exact H1|apply (flow_put _ _ w); [apply H1|by rewrite (same_workers_at _ _ _ Hsame)|done..]|].
  occ_lia.
Qed.

Lemma swap_queues_done wr w s w' s' :
  worker_ctl wr w → w_pc w ≠ pw_gone → pc_tasks (w_pc w) = [] → swap_queues w s = Done w' s' →
  s' = s ∧ worker_ctl wr w' ∧ ∀ x, occ x (worker_tasks w') = occ x (worker_tasks w).
Proof.
  intros Hc Hpc Ht H. unfold swap_queues, worker_ctl, worker_tasks in *. rewrite Ht. destruct (m_abort w); inv_done.
  { simpl. split; [done|]. split; [done|]. occ_lia. }
  destruct (m_private_queue w); [|done]. simpl. split; [done|]. split.
  - split; [|done]. naive_solver.
  - rewrite live_some. unfold live. simpl. occ_lia.
Qed.

Lemma balance_work_same wr w s pc s' :
  balance_work wr w s = Done pc s' → same_workers s s' ∧ pc_tasks pc = [] ∧ pc ≠ pw_gone ∧ pc_ctl pc.
Proof.
  assert (∀ s0, same_workers s0 s0) as Hrefl by (by intros; repeat split).
  intros H. unfold balance_work in H. case_decide; inv_done; [done|].
  case_decide; inv_done; [done|].
  match goal with H : on_idle_workers _ _ _ = _ |- _ => apply on_idle_workers_done in H as [Hsame _] end.
  case_decide; inv_done; done.
Qed.

Lemma move_out_live b e (q : list (option A)) y :
  b ≤ e → e ≤ length q → occ y (live (move_out b e q)) + occ y (live (slice b e q)) = occ y (live q).
Proof.
  intros Hb He. unfold move_out. rewrite <- (take_drop b q) at 4. rewrite <- (take_drop (e - b) (drop b q)).
  rewrite drop_drop. replace (b + (e - b)) with e by lia. unfold slice.
  rewrite !live_app, live_none. occ_lia.
Qed.

Lemma donate_flow wr w i rest b e x d s s' :
  pools_ctl s → worker_at s wr = Some w → w_pc w = pw_donate (i :: rest) b e x d →
  donate wr w i rest b e x d s = Done tt s' → flow s s' [] [].
Proof.
  intros Hs Hw Hpc H. unfold donate in H. pose proof (proj1 Hs _ _ Hw) as [Hidle Hbe]. rewrite Hpc in Hidle, Hbe.
  apply bind_done in H as (pl & ? & [Hp ->]%load_pool_done & H).
  apply bind_done in H as (? & ? & [Hne%bool_decide_eq_true ->]%assert_done & H).
  apply bind_done in H as (? & ? & [Hi ->]%assert_done & H).
  apply bind_done in H as ([e' x'] & ? & (-> & Hlt & Heq & Hle)%next_share_done & H). simpl in H.
  apply bind_done in H as (r & s1 & H1 & H). pose proof (enqueue_foreign_flow _ _ _ _ _ Hs H1) as Hf.
  apply enqueue_foreign_done in H1 as (w1 & Hw1 & [(_ & -> & err & ->)|(_ & -> & ->)]); inv_done.
  - apply (flow_put _ _ w); [done..| |].
    + unfold worker_ctl; simpl. split; [|done]. naive_solver.
    + unfold worker_tasks. simpl. by rewrite Hpc.
  - rename select (worker_at _ wr = Some _) into Hw2.
    rewrite worker_at_store_ne in Hw2 by (destruct wr; simpl in *; congruence). simplify_eq.
    eapply flow_then; [exact Hf|apply (flow_store _ _ w); [apply Hf| |]|].
    + by rewrite worker_at_store_ne by (destruct wr; simpl in *; congruence).
    + unfold worker_ctl; simpl. split; [|done]. naive_solver.
    + intros y. unfold worker_tasks. simpl in *. simplify_eq. rewrite Hpc, !occ_app.
      match goal with |- context [move_out b ?e' ?q] => pose proof (move_out_live b e' q y) as Hm end.
      specialize (Hm ltac:(case_decide; lia) ltac:(done)). simpl. occ_lia.
Qed.

Lemma erase_flow wr w rest b e x d s s' :
  pools_ctl s → worker_at s wr = Some w → w_pc w = pw_donate rest b e x d →
  erase_donated wr w b s = Done tt s' → flow s s' [] [].
Proof.
  intros Hs Hw Hpc H. unfold erase_donated in H. pose proof (proj1 Hs _ _ Hw) as [Hidle _]. rewrite Hpc in Hidle.
  inv_done. apply (flow_put _ _ w); [done..| |].
  - split; simpl; naive_solver.
  - intros y. unfold worker_tasks. simpl. rewrite Hpc. rewrite <- (take_drop b (m_private_queue w)) at 2.
    rewrite live_app. destruct (live (take b (m_private_queue w))); [|done]. simpl. occ_lia.
Qed.

Lemma removelast_live (q : list (option A)) (t : option A) y :
  last q = Some t → occ y (live q) = occ y (live (removelast q)) + occ y (live [t]).
Proof.
  intros [q' ->]%last_Some. rewrite removelast_last, live_app, occ_app. done.
Qed.

Lemma pop_flow wr w s s' :
  pools_ctl s → worker_at s wr = Some w → w_pc w = pw_pop → pop_task wr w s = Done tt s' → flow s s' [] [].
Proof.
  intros Hs Hw Hpc H. unfold pop_task in H. pose proof (proj1 Hs _ _ Hw) as [Hidle _]. rewrite Hpc in Hidle.
  destruct (m_atomic_abort w).
  { inv_done. apply (flow_put _ _ w); [done..| |]; [split; simpl; naive_solver|].
    unfold worker_tasks. simpl. by rewrite Hpc. }
  destruct (last (m_private_queue w)) as [t|] eqn:Hl; [|discriminate H]. inv_done.
  set (w' := set_pc _ _) in *.
  assert (flow s (store_worker wr w' s) [] (live [t])) as Hf.
  { eapply flow_eq; [|apply (flow_store _ _ w); [done..|split; simpl; naive_solver]].
    intros y. unfold worker_tasks. simpl. rewrite Hpc, !occ_app, (removelast_live _ t y Hl).
    unfold ops_tasks; simpl. occ_lia. }
  destruct t as [t|]; inv_done; [|exact Hf].
  eapply flow_then; [exact Hf|apply flow_run, Hf|]. intros y. unfold live; simpl. occ_lia.
Qed.

Lemma set_pc_ctl wr w pc :
  worker_ctl wr w → w_pc w ≠ pw_gone → pc ≠ pw_gone → pc_ctl pc → worker_ctl wr (set_pc pc w).
Proof. intros [Hidle _] ???. split; simpl; [naive_solver|done]. Qed.

(** A move of the thread within its loop. *)
Lemma goto_flow wr w pc s :
  pools_ctl s → worker_at s wr = Some w → w_pc w ≠ pw_gone → pc ≠ pw_gone → pc_ctl pc →
  pc_tasks (w_pc w) = [] → pc_tasks pc = [] → flow s (store_worker wr (set_pc pc w) s) [] [].
Proof.
  intros Hs Hw H1 H2 H3 H4 H5. apply (flow_put _ _ w); [done..|by apply set_pc_ctl; [apply Hs| | |]|].
  unfold worker_tasks. simpl. by rewrite H4, H5.
Qed.

Lemma leave_flow wr w s :
  pools_ctl s → worker_at s wr = Some w → pc_tasks (w_pc w) = [] → flow s (store_worker wr (leave_loop w) s) [] [].
Proof.
  intros Hs Hw H. apply (flow_put _ _ w); [done..|split; done|].
  unfold worker_tasks. simpl. by rewrite H.
Qed.

Lemma running_flow wr w ops h s s' :
  pools_ctl s → worker_at s wr = Some w → w_pc w = pw_running ops →
  (put_worker wr (set_pc (pw_running []) w);; ops' ← call_step (Some wr) h ops;
   w ← load_worker wr; put_worker wr (set_pc (pw_running ops') w)) s = Done tt s' →
  flow s s' [] [].
Proof.
  intros Hs Hw Hpc H. pose proof (proj1 Hs _ _ Hw) as [Hidle _]. rewrite Hpc in Hidle.
  apply bind_done in H as (? & s1 & ->%put_worker_done & H).
  assert (flow s (store_worker wr (set_pc (pw_running []) w) s) [] (ops_tasks ops)) as H0.
  { eapply flow_eq; [|apply (flow_store _ _ w); [done..|split; simpl; naive_solver]].
    intros y. unfold worker_tasks. simpl. rewrite Hpc. simpl. rewrite ops_tasks_nil. occ_lia. }
  apply bind_done in H as (ops' & s1 & Hcall & H).
  apply bind_done in H as (w1 & ? & [Hw1 ->]%load_worker_done & ->%put_worker_done).
  pose proof (call_step_flow _ _ _ _ _ _ (flow_ctl _ _ _ _ H0) Hcall) as Hf1.
  apply call_step_evolves in Hcall. specialize (Hcall wr). rewrite worker_at_store in Hcall by (by rewrite Hw).
  rewrite Hw1 in Hcall.
  assert (w_pc w1 = pw_running [] ∧ m_idle w1 = m_idle w) as [Hpc1 Hi1].
  { destruct Hcall as [->|[(_ & ts & ->)|(_ & _ & ts & ->)]]; [done| |done].
    unfold push_public, ensure_worker_active; simpl.
    destruct (m_idle w) eqn:Hi; [naive_solver|]. by case_match. }
  pose proof (flow_trans _ _ _ _ _ _ _ H0 Hf1) as Hf2.
  eapply flow_then; [exact Hf2|apply (flow_store _ _ w1); [apply Hf2|done|]|].
  - split; simpl; rewrite ?Hi1; naive_solver.
  - intros y. unfold worker_tasks. simpl. rewrite Hpc1. simpl. rewrite ops_tasks_nil. occ_lia.
Qed.

Lemma worker_step_flow h timeout wr s s' :
  pools_ctl s → worker_step h timeout wr s = Done tt s' → flow s s' [] [].
Proof.
  intros Hs H. unfold worker_step in H. apply bind_done in H as (w & ? & [Hw ->]%load_worker_done & H).
  pose proof (proj1 Hs _ _ Hw) as Hc. destruct (w_pc w) as [| | | | | | | |ws b e x d| |ops| |] eqn:Hpc.
  all: assert (∀ pc, pc ≠ pw_gone → pc_ctl pc → w_pc w ≠ pw_gone → pc_tasks (w_pc w) = [] → pc_tasks pc = [] →
    flow s (store_worker wr (set_pc pc w) s) [] []) as Hgoto by (intros; by apply goto_flow);
    rewrite Hpc in Hgoto.
  - discriminate H.
  - case_match; [|inv_done; by apply Hgoto].
    apply bind_done in H as (w' & ? & (-> & Hc' & Ht)%(swap_queues_done wr) & H); [|rewrite ?Hpc; done..].
    inv_done. by eapply flow_put.
  - apply bind_done in H as (? & s1 & [Hsame _]%on_idle_workers_done & H). inv_done.
    rename select (worker_at s1 wr = Some _) into Hw1. rewrite (same_workers_at _ _ _ Hsame), Hw in Hw1.
    injection Hw1 as <-.
    eapply flow_same_put; [done..| |]; [apply set_pc_ctl; [exact Hc|simpl; rewrite ?Hpc; done..]|].
    unfold worker_tasks; simpl; by rewrite Hpc.
  - destruct timeout; [inv_done; by apply Hgoto|]. destruct (m_semaphore w); [discriminate H|]. inv_done.
    eapply flow_put; [done..| |]; [apply set_pc_ctl; [exact Hc|simpl; rewrite ?Hpc; done..]|].
    unfold worker_tasks; simpl; by rewrite Hpc.
  - inv_done. by case_match; apply Hgoto.
  - case_match; [inv_done; by apply Hgoto|]. case_match; [inv_done; apply leave_flow; by rewrite ?Hpc|].
    apply bind_done in H as (? & s1 & [Hsame _]%on_idle_workers_done & H).
    apply bind_done in H as (w' & ? & (-> & Hc' & Ht)%(swap_queues_done wr) & H); [|rewrite ?Hpc; done..].
    inv_done. by eapply flow_same_put.
  - inv_done; apply leave_flow; by rewrite ?Hpc.
  - case_match; [inv_done; by apply Hgoto|].
    apply bind_done in H as (pc & s1 & (Hsame & Hpt & Hng & Hpc')%balance_work_same & H). inv_done.
    rename select (worker_at s1 wr = Some _) into Hw1. rewrite (same_workers_at _ _ _ Hsame), Hw in Hw1.
    injection Hw1 as <-.
    eapply flow_same_put; [done..| |]; [apply set_pc_ctl; [exact Hc|simpl; rewrite ?Hpc; done..]|].
    unfold worker_tasks; simpl; by rewrite Hpc, Hpt.
  - destruct ws; [by eapply erase_flow|by eapply donate_flow].
  - by eapply pop_flow.
  - destruct ops; [inv_done; by apply Hgoto|]. by eapply running_flow.
  - inv_done; apply leave_flow; by rewrite ?Hpc.
  - inv_done; apply leave_flow; by rewrite ?Hpc.
Qed.

(** ** The rest *)

Lemma release_flow c wr s s' : pools_ctl s → release_semaphore c wr s = Done tt s' → flow s s' [] [].
Proof.
  intros Hs H. unfold release_semaphore in H. apply bind_done in H as (w & ? & [Hw ->]%load_worker_done & H).
  destruct (w_owed w); [discriminate H|]. inv_done. eapply flow_put; [done|done|exact (proj1 Hs _ _ Hw)|done].
Qed.

Lemma worker_shutdown_flow c wr s s' : pools_ctl s → worker_shutdown_step c wr s = Done tt s' → flow s s' [] [].
Proof.
  intros Hs H. unfold worker_shutdown_step in H. apply bind_done in H as (w & ? & [Hw ->]%load_worker_done & H).
  pose proof (proj1 Hs _ _ Hw) as Hc.
  destruct (w_shutdown w); [inv_done; by eapply flow_put..| |discriminate H].
  destruct (w_pc w) eqn:Hpc; try discriminate H. inv_done.
  match goal with |- context [store_worker wr ?v s] => set (w' := v) end.
  assert (worker_ctl wr w') as Hc' by (destruct Hc as [Hi _]; rewrite Hpc in Hi; by split).
  pose proof (flow_store s wr w w' Hs Hw Hc') as H1.
  eapply flow_then; [exact H1|apply flow_drop, H1|].
  intros y. unfold worker_tasks. simpl. rewrite Hpc. simpl. occ_lia.
Qed.

Lemma shutdown_flow c p s s' : pools_ctl s → shutdown_step c p s = Done tt s' → flow s s' [] [].
Proof.
  intros Hs H. unfold shutdown_step in H. apply bind_done in H as (pl & ? & [Hp ->]%load_pool_done & H).
  repeat case_match; try discriminate H; try (by eapply worker_shutdown_flow);
    apply modify_done in H as ->; (apply flow_same; [done|by eapply same_workers_insert]).
Qed.

Lemma called_insert s k ops ops' y :
  s_calls s !! k = Some ops →
  occ y (concat (ops_tasks <$> <[k := ops']> (s_calls s))) + occ y (ops_tasks ops) = occ y (called s) + occ y (ops_tasks ops').
Proof. apply occ_concat_insert. Qed.

(** The invariant. *)
Definition conserved s : Prop := pools_ctl s ∧ all_tasks s ≡ₚ s_accepted s.

Lemma flow_conserved s s' : flow s s' [] [] → conserved s → conserved s'.
Proof.
  intros [Hc Ht Ha _] [_ Hp]. split; [done|]. rewrite Ha. apply occ_perm. intros x.
  specialize (Ht x). rewrite !occ_nil in Ht. pose proof (proj2 (occ_perm _ _) Hp x). lia.
Qed.

Lemma client_step_conserved k h s s' : conserved s → client_step k h s = Done tt s' → conserved s'.
Proof using EqDecision0.
  intros [Hs Hp] H. unfold client_step in H. rewrite get_state_bind in H.
  destruct (s_calls s !! k) as [ops|] eqn:Hk; [|discriminate H].
  apply bind_done in H as (ops' & s1 & Hf%call_step_flow & H); [|done]. inv_done.
  destruct Hf as [Hc Ht Ha Hcalls]. split; [exact Hc|]. simpl. rewrite Ha. apply occ_perm. intros x.
  specialize (Ht x). pose proof (proj2 (occ_perm _ _) Hp x).
  pose proof (called_insert s1 k ops ops' x ltac:(by rewrite Hcalls)).
  rewrite ?all_tasks_occ in *. unfold queued, called in *. simpl in *. lia.
Qed.

Lemma task_call_conserved wr o s s' : conserved s → task_call wr o s = Done tt s' → conserved s'.
Proof using EqDecision0.
  intros [Hs Hp] H. unfold task_call in H. apply bind_done in H as (w & ? & [Hw ->]%load_worker_done & H).
  destruct (w_pc w) as [| | | | | | | | | |[|]| |] eqn:Hpc; try discriminate H. inv_done.
  pose proof (proj1 Hs _ _ Hw) as Hc.
  assert (flow s (store_worker wr (set_pc (pw_running [o]) w) s) (op_tasks o) []) as [Hc' Ht Ha Hcalls].
  { eapply flow_eq; [|apply (flow_store _ _ w); [done..|]].
    - intros y. unfold worker_tasks. simpl. rewrite Hpc, ops_tasks_cons. simpl. rewrite ops_tasks_nil. occ_lia.
    - apply set_pc_ctl; rewrite ?Hpc; done. }
  split; [exact Hc'|]. simpl. apply occ_perm. intros y. specialize (Ht y).
  pose proof (proj2 (occ_perm _ _) Hp y). rewrite ?all_tasks_occ in *.
  unfold queued, called in *. simpl in *. occ_lia.
Qed.

Lemma start_call_conserved o s : conserved s → conserved (start_call o s).
Proof using EqDecision0.
  intros [Hs Hp]. split; [exact Hs|]. simpl. apply occ_perm. intros x.
  pose proof (proj2 (occ_perm _ _) Hp x). rewrite ?all_tasks_occ in *. unfold queued, called in *. simpl in *.
  rewrite fmap_app, concat_app. simpl. rewrite ops_tasks_cons, ops_tasks_nil. occ_lia.
Qed.

Lemma pools_step_conserved m s s' : conserved s → pools_step m s s' → conserved s'.
Proof using EqDecision0.
  intros Hs H. pose proof (proj1 Hs) as Hc. destruct H as [o s|k h s s' H|c wr s s' H|wr h timeout s s' _ H|wr o s s' _ H|wr s s' _ H|c p s s' _ H].
  - by apply start_call_conserved.
  - by eapply client_step_conserved.
  - by eapply flow_conserved; [eapply release_flow|].
  - by eapply flow_conserved; [eapply worker_step_flow|].
  - by eapply task_call_conserved.
  - unfold task_throws in H. apply bind_done in H as (w & ? & [Hw ->]%load_worker_done & H).
    destruct (w_pc w) as [| | | | | | | | | |[|]| |] eqn:Hpc; try discriminate H. inv_done.
    eapply flow_conserved; [|done]. by apply goto_flow; rewrite ?Hpc.
  - by eapply flow_conserved; [eapply shutdown_flow|].
Qed.
End conservation.
