(* ===== verification/ThreadPoolLive.v ===== *)
(** * Thread pools at work

    Without a shutdown, and as long as tasks handle their exceptions, the
    assertions of the pools hold, every reference is to a worker that exists,
    and no [runtime_shutdown] is thrown; and if no worker times out either, a
    pool that comes to rest has run all its tasks. *)

From S2P Require Import Prelude Conc IdleWorkers ThreadPool ThreadPoolProofs.
From stdpp Require Import options.

Section live.
Context {A : Type}.
Implicit Types (w : pool_worker A) (s : pools A) (wr : worker_ref) (t : A) (ts : list A) (o : op A) (ops : list (op A)).

(** ** The invariant *)

(** The number of workers of each pool, which never changes. *)
Definition sizes s : list nat := length <$> (m_workers <$> s_pools s).

Definition ref_ok (sz : list nat) wr : Prop := ∃ n, sz !! wr.1 = Some n ∧ wr.2 < n.
Definition op_ok (sz : list nat) o : Prop :=
  match o with op_enqueue p _ | op_enqueue_span p _ => is_Some (sz !! p) | op_push wr _ => ref_ok sz wr end.

Definition all_live (q : list (option A)) : Prop := Forall is_Some q.
Definition all_moved (q : list (option A)) : Prop := Forall (eq None) q.

(** The private queue, by where the thread is. *)
Definition private_ok (sz : list nat) wr w : Prop :=
  let q := m_private_queue w in
  match w_pc w with
  | pw_gone | pw_lock | pw_mark_idle | pw_acquire | pw_flag | pw_relock | pw_timed_out => q = []
  | pw_drain => all_live q
  | pw_running ops => all_live q ∧ Forall (op_ok sz) ops
  | pw_pop => q ≠ [] ∧ all_live q
  | pw_donate ws b e x d =>
      Forall (λ i, i ≠ wr.2 ∧ ref_ok sz (wr.1, i)) ws ∧ e = b + d ∧ 1 ≤ d ∧
      length q = b + d * (length ws + 1) + x ∧ x ≤ length ws ∧ all_moved (take b q) ∧ all_live (drop b q)
  | pw_aborted | pw_catch => False
  end.

Record worker_ok (timeouts : bool) (sz : list nat) wr w : Prop := WorkerOk {
  ok_abort : m_abort w = false ∧ m_atomic_abort w = false;
  ok_idle : m_idle w = true ↔ w_pc w = pw_gone;
  ok_private : private_ok sz wr w;
  ok_found : m_public_queue w ≠ [] → m_task_found_or_abort w = true;
  ok_wake : w_pc w = pw_mark_idle ∨ w_pc w = pw_acquire → m_public_queue w ≠ [] → 1 ≤ m_semaphore w + w_owed w;
  ok_gone : timeouts = false → w_pc w ≠ pw_timed_out ∧ (w_pc w = pw_gone → m_public_queue w = []) }.

Record pool_ok (pl : pool A) : Prop := PoolOk {
  pool_idle : idle_set_wf (m_idle_workers pl);
  pool_size : m_size (m_idle_workers pl) = length (m_workers pl);
  pool_workers : m_workers pl ≠ [] }.

Record pools_ok (timeouts : bool) (sz : list nat) s : Prop := PoolsOk {
  ok_sizes : sizes s = sz;
  ok_pools p pl : s_pools s !! p = Some pl → pool_ok pl;
  ok_workers : all_workers (worker_ok timeouts sz) s;
  ok_calls : Forall (Forall (op_ok sz)) (s_calls s);
  ok_dropped : s_dropped s = [] }.

Lemma worker_at_ref s wr : is_Some (worker_at s wr) ↔ ref_ok (sizes s) wr.
Proof.
  unfold worker_at, ref_ok, sizes. rewrite !list_lookup_fmap.
  destruct (s_pools s !! wr.1) as [pl|]; simpl; [|split; [by intros []|naive_solver]].
  rewrite lookup_lt_is_Some. naive_solver.
Qed.

Lemma sizes_store wr w s : sizes (store_worker wr w s) = sizes s.
Proof.
  unfold sizes, store_worker. simpl. apply list_eq. intros p. rewrite !list_lookup_fmap.
  destruct (decide (p = wr.1)) as [->|]; [rewrite list_lookup_alter_eq|by rewrite list_lookup_alter_ne].
  destruct (s_pools s !! wr.1); simpl; [|done]. by rewrite length_insert.
Qed.

Lemma pools_ok_store tm sz s wr w :
  pools_ok tm sz s → worker_ok tm sz wr w → pools_ok tm sz (store_worker wr w s).
Proof.
  intros [H1 H2 H3 H4 H5] Hw. split; [by rewrite sizes_store| |by apply all_workers_store|done|done].
  intros p pl Hp. simpl in Hp. destruct (decide (p = wr.1)) as [->|].
  - rewrite list_lookup_alter_eq in Hp. destruct (s_pools s !! wr.1) as [pl0|] eqn:Hp0; simplify_eq/=.
    destruct (H2 _ _ Hp0) as [I1 I2 I3]. split; simpl; rewrite ?length_insert; [done..|].
    intros Hnil. apply (f_equal length) in Hnil. rewrite length_insert in Hnil. by apply nil_length_inv in Hnil.
  - rewrite list_lookup_alter_ne in Hp by done. by eapply H2.
Qed.

Lemma sizes_insert s p pl pl' :
  s_pools s !! p = Some pl → m_workers pl' = m_workers pl →
  sizes (set_pools (<[p := pl']> (s_pools s)) s) = sizes s.
Proof. intros Hp Hw. unfold sizes. by destruct (same_workers_insert s p pl pl' Hp Hw) as [-> _]. Qed.

Lemma pools_ok_set tm sz s p pl pl' :
  pools_ok tm sz s → s_pools s !! p = Some pl → m_workers pl' = m_workers pl → pool_ok pl' →
  pools_ok tm sz (set_pools (<[p := pl']> (s_pools s)) s).
Proof.
  intros [H1 H2 H3 H4 H5] Hp Hw Hok. split; [by rewrite (sizes_insert _ _ pl)| | |done|done].
  - intros q ql Hq. simpl in Hq. destruct (decide (q = p)) as [->|].
    + rewrite list_lookup_insert_eq in Hq by (by eapply lookup_lt_Some). by simplify_eq.
    + rewrite list_lookup_insert_ne in Hq by done. by eapply H2.
  - intros wr w. rewrite (same_workers_at _ _ wr (same_workers_insert s p pl pl' Hp Hw)). apply H3.
Qed.

(** ** Rules for the operations on the state *)

Lemma wp_load_worker wr w Q s : worker_at s wr = Some w → Q w s → wp (load_worker wr) Q s.
Proof. unfold wp, load_worker. by intros ->. Qed.
Lemma wp_put_worker wr w Q s : Q tt (store_worker wr w s) → wp (put_worker wr w) Q s.
Proof. done. Qed.
Lemma wp_load_pool p pl Q s : s_pools s !! p = Some pl → Q pl s → wp (load_pool p) Q s.
Proof. unfold wp, load_pool. by intros ->. Qed.

Lemma pools_ok_at tm sz s wr : pools_ok tm sz s → ref_ok sz wr → ∃ w, worker_at s wr = Some w ∧ worker_ok tm sz wr w.
Proof.
  intros Hs Hr. rewrite <- (ok_sizes _ _ _ Hs) in Hr. apply worker_at_ref in Hr as [w Hw].
  exists w. split; [done|]. by apply (ok_workers _ _ _ Hs).
Qed.

Lemma pools_ok_pool tm sz s p : pools_ok tm sz s → is_Some (sz !! p) →
  ∃ pl, s_pools s !! p = Some pl ∧ pool_ok pl ∧ sz !! p = Some (length (m_workers pl)).
Proof.
  intros Hs [n Hn]. pose proof Hn as Hn'. rewrite <- (ok_sizes _ _ _ Hs) in Hn. unfold sizes in Hn.
  rewrite !list_lookup_fmap in Hn. destruct (s_pools s !! p) as [pl|] eqn:Hp; simplify_eq/=.
  exists pl. split_and!; [done|by eapply ok_pools|done].
Qed.

(** An operation on the idle workers that keeps their invariant. *)
Lemma wp_on_idle {B} tm sz s p (m : comp idle_worker_set B) (P : B → Prop) :
  pools_ok tm sz s → is_Some (sz !! p) →
  (∀ pl, s_pools s !! p = Some pl → sz !! p = Some (length (m_workers pl)) → pool_ok pl →
     ∃ b i', m (m_idle_workers pl) = Done b i' ∧ idle_set_wf i' ∧ m_size i' = m_size (m_idle_workers pl) ∧ P b) →
  wp (on_idle_workers p m) (λ b s', P b ∧ pools_ok tm sz s' ∧ same_workers s s') s.
Proof.
  intros Hs Hp Hm. destruct (pools_ok_pool _ _ _ _ Hs Hp) as (pl & Hpl & Hok & Hn).
  destruct (Hm pl Hpl Hn Hok) as (b & i' & Hr & Hw & Hsz & Hb).
  unfold wp, on_idle_workers. rewrite Hpl, Hr. split_and!; [done| |by eapply same_workers_insert].
  eapply pools_ok_set; [done..|]. split; simpl; [done|rewrite Hsz; apply Hok|apply Hok].
Qed.

(** ** The calls *)

Lemma push_public_ok tm sz wr ts w : worker_ok tm sz wr w → worker_ok tm sz wr (push_public ts w).
Proof.
  intros [H1 H2 H3 H4 H5 H6]. unfold push_public, ensure_worker_active. simpl.
  destruct (m_idle w) eqn:Hi.
  { split; simpl; [done|by split| |done|by intros [?|?]|done].
    unfold private_ok in *. simpl. destruct H2 as [H2 _]. by rewrite H2 in H3. }
  assert (w_pc w ≠ pw_gone) as Hng by (intros ?%H2; congruence).
  assert (m_idle w = true ↔ w_pc w = pw_gone) as H2' by (by split; [rewrite Hi|]).
  destruct (m_public_queue w) as [|t0 q0] eqn:Hq; simpl.
  - split; simpl; [done..|intros; lia|]. intros Ht. by split; [apply H6|].
  - split; simpl; [done..|intros Hpc _; by apply H5|]. intros Ht. by split; [apply H6|].
Qed.

Lemma wp_enqueue_foreign tm sz wr ts s :
  pools_ok tm sz s → ref_ok sz wr →
  wp (enqueue_foreign wr ts) (λ r s', r = Ret tt ∧ pools_ok tm sz s') s.
Proof.
  intros Hs Hr. destruct (pools_ok_at _ _ _ _ Hs Hr) as (w & Hw & Hok).
  unfold enqueue_foreign. apply wp_bind, (wp_load_worker _ w); [done|].
  destruct (ok_abort _ _ _ _ Hok) as [-> _]. apply wp_bind, wp_put_worker, wp_ret.
  split; [done|]. apply pools_ok_store; [done|]. by apply push_public_ok.
Qed.

(** The thread that calls is running a task, if it is a worker's. *)
Definition caller_ok (tw : option worker_ref) s : Prop :=
  ∀ wr, tw = Some wr → ∃ w, worker_at s wr = Some w ∧ w_pc w = pw_running [].

Lemma wp_enqueue_local tm sz wr ts s :
  pools_ok tm sz s → caller_ok (Some wr) s →
  wp (enqueue_local wr ts) (λ r s', r = Ret tt ∧ pools_ok tm sz s') s.
Proof.
  intros Hs Hc. destruct (Hc wr eq_refl) as (w & Hw & Hpc). pose proof (ok_workers _ _ _ Hs _ _ Hw) as Hok.
  unfold enqueue_local. apply wp_bind, (wp_load_worker _ w); [done|].
  destruct (ok_abort _ _ _ _ Hok) as [_ ->]. apply wp_bind, wp_put_worker, wp_ret.
  split; [done|]. apply pools_ok_store; [done|]. destruct Hok as [H1 H2 H3 H4 H5 H6]. split; try done.
  unfold private_ok in *. simpl. rewrite Hpc in *. destruct H3 as [H3 H3']. split; [|done].
  apply Forall_app. split; [done|]. apply Forall_fmap, Forall_forall. intros ??. by eexists.
Qed.

Definition ops_ok (sz : list nat) (r : outcome (list (op A))) : Prop := ∃ ops, r = Ret ops ∧ Forall (op_ok sz) ops.

Lemma wp_locally tm sz wr ts s :
  pools_ok tm sz s → caller_ok (Some wr) s →
  wp (r ← enqueue_local wr ts; mret (outcome_bind r (λ _, Ret []))) (λ r s', ops_ok sz r ∧ pools_ok tm sz s') s.
Proof.
  intros Hs Hc. apply wp_bind. eapply wp_mono; [|by apply wp_enqueue_local].
  intros r s' [-> Hs']. apply wp_ret. split; [|done]. by exists [].
Qed.

Lemma caller_ok_same tw s s' : same_workers s s' → caller_ok tw s → caller_ok tw s'.
Proof. intros Hs Hc wr Hwr. rewrite (same_workers_at _ _ _ Hs). auto. Qed.

Lemma wp_next_cursor tm sz p s :
  pools_ok tm sz s → is_Some (sz !! p) → wp (next_cursor p) (λ _ s', pools_ok tm sz s' ∧ same_workers s s') s.
Proof.
  intros Hs Hp. destruct (pools_ok_pool _ _ _ _ Hs Hp) as (pl & Hpl & Hok & Hn).
  unfold wp, next_cursor. rewrite Hpl. split; [|by eapply same_workers_insert].
  eapply pools_ok_set; [done..|]. split; apply Hok.
Qed.

Lemma wp_enqueue tm sz tw h p t s :
  pools_ok tm sz s → caller_ok tw s → is_Some (sz !! p) →
  wp (enqueue tw h p t) (λ r s', ops_ok sz r ∧ pools_ok tm sz s') s.
Proof.
  intros Hs Hc Hp. unfold enqueue. set (elsewhere := (_ ← on_idle_workers p _; _)).
  assert (wp elsewhere (λ r s', ops_ok sz r ∧ pools_ok tm sz s') s) as Helse.
  { apply wp_bind. eapply wp_mono;
      [|apply (wp_on_idle tm sz s p _ (λ pos, ∀ i, pos = Some i → ref_ok sz (p, i))); [done..|]].
    - intros pos s1 (Hpos & Hs1 & Hsame). destruct pos as [i|]; [|destruct tw as [wr|]].
      + apply wp_ret. split; [|done]. exists [op_push (p, i) [t]]. split; [done|].
        constructor; [by apply Hpos|done].
      + apply wp_locally; [done|]. by eapply caller_ok_same.
      + apply wp_bind. eapply wp_mono; [|by apply wp_next_cursor]. intros z s2 [Hs2 Hsame2].
        destruct (pools_ok_pool _ _ _ _ Hs2 Hp) as (pl & Hpl & Hok & Hn).
        apply wp_bind, (wp_load_pool _ pl); [done|]. apply wp_ret. split; [|done]. eexists. split; [done|].
        constructor; [|done]. exists (length (m_workers pl)). split; [done|]. simpl.
        pose proof (pool_workers _ Hok). assert (length (m_workers pl) ≠ 0) by (by intros ?%nil_length_inv).
        pose proof (Z.mod_pos_bound z (Z.of_nat (length (m_workers pl)))). lia.
    - intros pl Hpl Hn [Hwf Hsz Hne].
      destruct (find_idle_worker_acquires h (snd <$> tw) _ Hwf) as [(j & s' & Hr & Ha & Hj & Hlt)|[Hr _]].
      + exists (Some j), s'. destruct Ha as (? & ? & _). split_and!; [done..|].
        intros i ?. simplify_eq. exists (length (m_workers pl)). split; [done|]. simpl. lia.
      + exists None, (m_idle_workers pl). by split_and!. }
  destruct tw as [wr|]; [|exact Helse]. destruct (Hc wr eq_refl) as (w & Hw & Hpc).
  apply wp_bind, (wp_load_worker _ w); [done|]. destruct (appears_empty w); [by apply wp_locally|exact Helse].
Qed.

Lemma wp_next_share n b e x Q s :
  b < n → (if decide (x = 0) then e else S e) ≤ n →
  Q (if decide (x = 0) then e else S e, pred x) s → wp (next_share (A := A) n b e x) Q s.
Proof.
  intros Hb He HQ. unfold next_share.
  apply wp_bind, wp_assert; [by apply bool_decide_eq_true|]. apply wp_bind, wp_assert; [by apply bool_decide_eq_true|].
  by apply wp_ret.
Qed.

Lemma wp_share_out sz n p ts d i k b e x s :
  sz !! p = Some n → i + k = n → e = b + d → 1 ≤ d → length ts = b + d * k + x → x ≤ k →
  wp (share_out p ts d i k b e x) (λ ops s', s' = s ∧ Forall (op_ok sz) ops) s.
Proof.
  intros Hn. revert i b e x. induction k as [|k IH]; intros i b e x Hi He Hd Hl Hx; simpl; [by apply wp_ret|].
  apply wp_bind, wp_next_share; [nia|case_decide; nia|]. apply wp_bind.
  eapply wp_mono; [|apply IH; [lia|lia|done|case_decide; nia|lia]].
  intros ops s' [-> Hops]. apply wp_ret. split; [done|]. constructor; [|done].
  exists n. split; [done|]. simpl. lia.
Qed.

Lemma wp_enqueue_span tm sz tw p ts s :
  pools_ok tm sz s → caller_ok tw s → is_Some (sz !! p) →
  wp (enqueue_span tw p ts) (λ r s', ops_ok sz r ∧ pools_ok tm sz s') s.
Proof.
  intros Hs Hc Hp. unfold enqueue_span. destruct tw as [wr|]; [by apply wp_locally|].
  destruct (pools_ok_pool _ _ _ _ Hs Hp) as (pl & Hpl & Hok & Hn).
  apply wp_bind, (wp_load_pool _ pl); [done|]. case_decide as Hlt.
  - apply wp_ret. split; [|done]. eexists. split; [done|]. apply Forall_fmap, Forall_forall. intros ? _. exact Hp.
  - pose proof (pool_workers _ Hok) as Hne. assert (length (m_workers pl) ≠ 0) as Hn0 by (by intros ?%nil_length_inv).
    pose proof (Nat.div_mod (length ts) _ Hn0) as Hdm. pose proof (Nat.mod_upper_bound (length ts) _ Hn0).
    assert (1 ≤ length ts / length (m_workers pl)) by (apply Nat.div_le_lower_bound; lia).
    apply wp_bind. eapply wp_mono; [|apply (wp_share_out sz (length (m_workers pl))); [done|lia..]].
    intros ops s' [-> Hops]. apply wp_ret. split; [by exists ops|done].
Qed.

Lemma wp_call_step tm sz tw h ops s :
  pools_ok tm sz s → caller_ok tw s → Forall (op_ok sz) ops →
  wp (call_step tw h ops) (λ ops' s', Forall (op_ok sz) ops' ∧ pools_ok tm sz s') s.
Proof.
  intros Hs Hc Hops. destruct ops as [|o ops]; [apply wp_block|]. apply Forall_cons in Hops as [Ho Hops].
  simpl. apply wp_bind. eapply wp_mono; [|apply (wp_and_done _ (λ _ _, True) (λ r s', ops_ok sz r ∧ pools_ok tm sz s')); [done|]].
  - intros r s' (_ & (new & -> & Hnew) & Hs'). apply wp_ret. split; [by apply Forall_app|done].
  - destruct o as [p t|p ts|wr ts]; simpl; [by apply wp_enqueue|by apply wp_enqueue_span|].
    apply wp_bind. eapply wp_mono; [|by apply wp_enqueue_foreign].
    intros r s' [-> Hs']. apply wp_ret. split; [by exists []|done].
Qed.

(** ** The worker *)

Lemma worker_ok_pc tm sz wr w pc :
  worker_ok tm sz wr w → w_pc w ≠ pw_gone → pc ≠ pw_gone → private_ok sz wr (set_pc pc w) →
  (pc = pw_mark_idle ∨ pc = pw_acquire → m_public_queue w ≠ [] → 1 ≤ m_semaphore w + w_owed w) →
  (tm = false → pc ≠ pw_timed_out) →
  worker_ok tm sz wr (set_pc pc w).
Proof.
  intros [H1 H2 H3 H4 H5 H6] Hpc Hpc' Hp Hw Ht. split; simpl; [done| |done..|by intros ?; split; [auto|]].
  split; [intros ?%H2; done|done].
Qed.

(** Likewise with a change of the private queue. *)
Lemma worker_ok_move tm sz wr w q pc :
  worker_ok tm sz wr w → w_pc w ≠ pw_gone → pc ≠ pw_gone → private_ok sz wr (set_pc pc (set_private q w)) →
  (pc = pw_mark_idle ∨ pc = pw_acquire → m_public_queue w ≠ [] → 1 ≤ m_semaphore w + w_owed w) →
  (tm = false → pc ≠ pw_timed_out) →
  worker_ok tm sz wr (set_pc pc (set_private q w)).
Proof.
  intros [H1 H2 H3 H4 H5 H6] Hpc Hpc' Hp Hw Ht. split; simpl; [done| |done..|by intros ?; split; [auto|]].
  split; [intros ?%H2; done|done].
Qed.

Lemma worker_ok_leave tm sz wr w :
  worker_ok tm sz wr w → m_private_queue w = [] → (tm = false → m_public_queue w = []) →
  worker_ok tm sz wr (leave_loop w).
Proof.
  intros [H1 H2 H3 H4 H5 H6] Hp Hq. split; simpl; [done|done|done|done|by intros [?|?]|auto].
Qed.

Lemma wp_swap_queues tm sz wr w s (Q : pool_worker A → pools A → Prop) :
  worker_ok tm sz wr w → w_pc w ≠ pw_gone → m_private_queue w = [] →
  (∀ w', worker_ok tm sz wr w' → Q w' s) → wp (swap_queues w) Q s.
Proof.
  intros [H1 H2 H3 H4 H5 H6] Hpc Hp HQ. unfold swap_queues. destruct H1 as [Ha Haa]. rewrite Ha, Hp.
  apply wp_bind, wp_assert; [done|]. apply wp_ret, HQ. split; simpl; [done| |..].
  - split; [intros ?%H2; done|done].
  - unfold private_ok. simpl. apply Forall_fmap, Forall_forall. intros ??. by eexists.
  - done.
  - by intros [?|?].
  - done.
Qed.

Lemma wp_balance_work tm sz wr w s :
  pools_ok tm sz s → worker_at s wr = Some w → w_pc w = pw_drain → m_private_queue w ≠ [] →
  wp (balance_work wr w) (λ pc s', pools_ok tm sz s' ∧ same_workers s s' ∧ private_ok sz wr (set_pc pc w) ∧
    (pc = pw_pop ∨ ∃ ws b e x d, pc = pw_donate ws b e x d)) s.
Proof.
  intros Hs Hw Hpc Hne. pose proof (ok_workers _ _ _ Hs _ _ Hw) as Hok.
  pose proof (ok_private _ _ _ _ Hok) as Hpr. unfold private_ok in Hpr. rewrite Hpc in Hpr.
  assert (private_ok sz wr (set_pc pw_pop w)) as Hpop by done.
  pose proof (same_workers_refl s). unfold balance_work.
  case_decide as Hlt; [apply wp_ret; by split_and!; [..|left]|].
  assert (ref_ok sz wr) as [n [Hn Hi]]. { rewrite <- (ok_sizes _ _ _ Hs). apply worker_at_ref. by rewrite Hw. }
  destruct (pools_ok_pool _ _ _ wr.1 Hs) as (pl & Hpl & Hpok & Hn'); [by rewrite Hn|]. simplify_eq.
  apply wp_bind, (wp_load_pool _ pl); [done|].
  case_decide as Hmax; [apply wp_ret; by split_and!; [..|left]|].
  set (mx := _ `min` _) in *. apply wp_bind. eapply wp_mono;
    [|apply (wp_on_idle tm sz s wr.1 _ (λ ws, length ws ≤ mx ∧ Forall (λ i, i ≠ wr.2 ∧ ref_ok sz (wr.1, i)) ws));
      [done|by rewrite Hn|]].
  - intros ws s' ((Hlen & Hws) & Hs' & Hsame). simpl.
    case_decide as Hnil; [apply wp_ret; by split_and!; [..|left]|].
    apply wp_bind, wp_assert; [apply bool_decide_eq_true; lia|]. apply wp_ret.
    split_and!; [done|done| |right; by repeat eexists]. unfold private_ok. simpl.
    assert (length ws + 1 ≠ 0) as Hn0 by lia.
    pose proof (Nat.div_mod (length (m_private_queue w)) _ Hn0). pose proof (Nat.mod_upper_bound (length (m_private_queue w)) _ Hn0).
    assert (1 ≤ length (m_private_queue w) / (length ws + 1)) by (apply Nat.div_le_lower_bound; lia).
    split_and!; [done|done|done|lia|lia|by apply Forall_nil|done].
  - intros pl' Hpl' _ [Hwf Hsz _]. simplify_eq.
    destruct (find_idle_workers_acquires wr.2 mx _ Hwf) as (new & s' & Hr & (? & ? & _) & Hl & Hf); [lia|].
    exists new, s'. split_and!; [done..|]. eapply Forall_impl; [exact Hf|]. intros i [? ?]. split; [done|].
    exists (length (m_workers pl)). split; [done|]. simpl. lia.
Qed.

Lemma move_out_length b e (q : list (option A)) : b ≤ e → e ≤ length q → length (move_out b e q) = length q.
Proof. intros. unfold move_out. rewrite !length_app, length_take, length_replicate, length_drop. lia. Qed.

Lemma move_out_moved b e (q : list (option A)) :
  b ≤ e → e ≤ length q → all_moved (take b q) → all_moved (take e (move_out b e q)).
Proof.
  intros Hb He Hq. unfold move_out. rewrite (assoc_L (++)), take_app_length'.
  - apply Forall_app. split; [done|]. by apply Forall_replicate.
  - rewrite length_app, length_take, length_replicate. lia.
Qed.

Lemma move_out_rest b e (q : list (option A)) : b ≤ e → e ≤ length q → drop e (move_out b e q) = drop e q.
Proof.
  intros Hb He. unfold move_out. rewrite (assoc_L (++)). apply drop_app_length'.
  rewrite length_app, length_take, length_replicate. lia.
Qed.

Lemma wp_donate tm sz wr w i ws b e x d s :
  pools_ok tm sz s → worker_at s wr = Some w → w_pc w = pw_donate (i :: ws) b e x d →
  wp (donate wr w i ws b e x d) (λ _ s', pools_ok tm sz s') s.
Proof.
  intros Hs Hw Hpc. pose proof (ok_workers _ _ _ Hs _ _ Hw) as Hok.
  pose proof (ok_private _ _ _ _ Hok) as Hpr. unfold private_ok in Hpr. rewrite Hpc in Hpr.
  destruct Hpr as (Hws & -> & Hd & Hlen & Hx & Hmv & Hlv). apply Forall_cons in Hws as [[Hi Hri] Hws]. simpl in Hlen, Hx.
  destruct Hri as (n & Hn & Hin). simpl in Hn, Hin. destruct (pools_ok_pool _ _ _ wr.1 Hs) as (pl & Hpl & _ & Hn'); [by rewrite Hn|].
  simpl in *. rewrite Hn in Hn'. injection Hn' as ->. unfold donate. apply wp_bind, (wp_load_pool _ pl); [done|].
  apply wp_bind, wp_assert; [by apply bool_decide_eq_true|]. apply wp_bind, wp_assert; [by apply bool_decide_eq_true|].
  apply wp_bind, wp_next_share; [nia|case_decide; nia|]. set (e' := if decide (x = 0) then _ else _).
  assert (b ≤ e' ∧ e' ≤ length (m_private_queue w) ∧ length (m_private_queue w) = e' + d * (length ws + 1) + pred x) as (Hbe & Hel & Hlen').
  { unfold e'. case_decide; nia. }
  apply wp_bind. eapply wp_mono; [|apply wp_and_done; [|apply (wp_enqueue_foreign tm sz (wr.1, i)); [done|by exists (length (m_workers pl))]]].
  2: { intros r s'. apply enqueue_foreign_done. }
  intros r s' ((w1 & Hw1 & [(_ & _ & err & ->)|(_ & -> & ->)]) & ? & Hs'); [done|].
  apply wp_bind, (wp_load_worker _ w). { by rewrite worker_at_store_ne by (destruct wr; simpl in *; congruence). }
  apply wp_put_worker, pools_ok_store; [done|].
  apply worker_ok_move; [done|by rewrite Hpc|done| |by intros [?|?]|done].
  unfold private_ok. simpl. rewrite move_out_length, move_out_rest by done.
  split_and!; [done|done|done|done|lia|by apply move_out_moved|].
  replace (drop e' (m_private_queue w)) with (drop (e' - b) (drop b (m_private_queue w))).
  - by apply Forall_drop.
  - rewrite drop_drop. f_equal. lia.
Qed.

Lemma live_moved (q : list (option A)) : all_moved q → live q = [].
Proof. intros H. unfold live. induction H as [|? q <- _ IH]; simpl; [done|exact IH]. Qed.

Lemma live_length (q : list (option A)) : all_live q → length (live q) = length q.
Proof. intros H. unfold live. induction H as [|? q [t ->] _ IH]; simpl; [done|]. f_equal. exact IH. Qed.

Lemma wp_erase tm sz wr w b e x d s :
  pools_ok tm sz s → worker_at s wr = Some w → w_pc w = pw_donate [] b e x d →
  wp (erase_donated wr w b) (λ _ s', pools_ok tm sz s') s.
Proof.
  intros Hs Hw Hpc. pose proof (ok_workers _ _ _ Hs _ _ Hw) as Hok.
  pose proof (ok_private _ _ _ _ Hok) as Hpr. unfold private_ok in Hpr. rewrite Hpc in Hpr.
  destruct Hpr as (_ & -> & Hd & Hlen & Hx & Hmv & Hlv). simpl in *.
  assert (drop b (m_private_queue w) ≠ []) as Hne.
  { intros Hnil. apply (f_equal length) in Hnil. rewrite length_drop in Hnil. simpl in Hnil. lia. }
  unfold erase_donated. apply wp_bind, wp_assert; [by rewrite live_moved|].
  apply wp_bind, wp_assert; [by apply bool_decide_eq_true, live_length|].
  apply wp_bind, wp_assert; [by destruct (drop b (m_private_queue w))|].
  apply wp_put_worker, pools_ok_store; [done|].
  apply worker_ok_move; [done|by rewrite Hpc|done|done|by intros [?|?]|done].
Qed.

Lemma wp_pop tm sz wr w s :
  pools_ok tm sz s → worker_at s wr = Some w → w_pc w = pw_pop → wp (pop_task wr w) (λ _ s', pools_ok tm sz s') s.
Proof.
  intros Hs Hw Hpc. pose proof (ok_workers _ _ _ Hs _ _ Hw) as Hok.
  pose proof (ok_private _ _ _ _ Hok) as Hpr. unfold private_ok in Hpr. rewrite Hpc in Hpr. destruct Hpr as [Hne Hlv].
  unfold pop_task. destruct (ok_abort _ _ _ _ Hok) as [_ ->].
  destruct (last (m_private_queue w)) as [t|] eqn:Hl; [|by apply last_None in Hl].
  apply last_Some in Hl as [q Hq]. rewrite Hq in *. apply Forall_app in Hlv as [Hlv Ht].
  rewrite removelast_last. apply wp_bind, wp_put_worker.
  assert (pools_ok tm sz (store_worker wr (set_pc (pw_running []) (set_private q w)) s)) as Hs'.
  { apply pools_ok_store; [done|]. apply worker_ok_move; [done|by rewrite Hpc|done|done|by intros [?|?]|done]. }
  destruct t; [|by apply wp_ret]. apply wp_modify. by destruct Hs'.
Qed.

Lemma wp_running tm sz wr w ops h s :
  pools_ok tm sz s → worker_at s wr = Some w → w_pc w = pw_running ops →
  wp (put_worker wr (set_pc (pw_running []) w);; ops' ← call_step (Some wr) h ops;
      w ← load_worker wr; put_worker wr (set_pc (pw_running ops') w)) (λ _ s', pools_ok tm sz s') s.
Proof.
  intros Hs Hw Hpc. pose proof (ok_workers _ _ _ Hs _ _ Hw) as Hok.
  pose proof (ok_private _ _ _ _ Hok) as Hpr. unfold private_ok in Hpr. rewrite Hpc in Hpr. destruct Hpr as [Hlv Hops].
  apply wp_bind, wp_put_worker. set (s0 := store_worker _ _ _).
  assert (worker_ok tm sz wr (set_pc (pw_running []) w)) as Hok0.
  { apply worker_ok_pc; [done|by rewrite Hpc|done|done|by intros [?|?]|done]. }
  assert (worker_at s0 wr = Some (set_pc (pw_running []) w)) as Hw0 by (by apply worker_at_store; rewrite Hw).
  apply wp_bind. eapply wp_mono; [|apply wp_and_done; [|apply (wp_call_step tm sz); [by apply pools_ok_store| |done]]].
  2: { intros ops' s'. apply call_step_evolves. }
  2: { intros wr' ?. simplify_eq. by exists (set_pc (pw_running []) w). }
  intros ops' s1 (Hev & Hops' & Hs1). specialize (Hev wr). rewrite Hw0 in Hev.
  destruct (worker_at s1 wr) as [w1|] eqn:Hw1; [|done].
  apply wp_bind, (wp_load_worker _ w1); [done|]. apply wp_put_worker, pools_ok_store; [done|].
  pose proof (ok_workers _ _ _ Hs1 _ _ Hw1) as Hok1.
  assert (w_pc w1 = pw_running []) as Hpc1.
  { assert (m_idle w = false) as Hi.
    { destruct (m_idle w) eqn:Hi; [|done]. apply (ok_idle _ _ _ _ Hok) in Hi. congruence. }
    destruct Hev as [->|[(_ & ts & ->)|(_ & _ & ts & ->)]]; [done| |done].
    unfold push_public, ensure_worker_active; simpl. rewrite Hi. by case_match. }
  apply worker_ok_pc; [done|by rewrite Hpc1|done| |by intros [?|?]|done].
  pose proof (ok_private _ _ _ _ Hok1) as Hpr. unfold private_ok in *. rewrite Hpc1 in Hpr. simpl. by destruct Hpr.
Qed.

(** What [set_idle] and [set_active] are used for. *)
Lemma idle_step_ok tm sz s wr (m : comp idle_worker_set unit) (P : idle_worker_set → nat → Prop) :
  pools_ok tm sz s → ref_ok sz wr →
  (∀ i, idle_set_wf i → wr.2 < m_size i → ∃ i', m i = Done tt i' ∧ idle_set_wf i' ∧ m_size i' = m_size i ∧
     ∀ j, is_idle i' j ↔ P i j) →
  ∀ pl, s_pools s !! wr.1 = Some pl → sz !! wr.1 = Some (length (m_workers pl)) → pool_ok pl →
    ∃ b i', m (m_idle_workers pl) = Done b i' ∧ idle_set_wf i' ∧ m_size i' = m_size (m_idle_workers pl) ∧ True.
Proof.
  intros Hs (n & Hn & Hlt) Hm pl Hpl Hn' [Hwf Hsz _]. simplify_eq.
  destruct (Hm (m_idle_workers pl)) as (i' & ? & ? & ? & _); [done|lia|]. by exists tt, i'.
Qed.

Lemma wp_worker_step tm sz h timeout wr s :
  pools_ok tm sz s → ref_ok sz wr → (timeout = true → tm = true) →
  wp (worker_step h timeout wr) (λ _ s', pools_ok tm sz s') s.
Proof.
  intros Hs Hr Htm. destruct (pools_ok_at _ _ _ _ Hs Hr) as (w & Hw & Hok).
  unfold worker_step. apply wp_bind, (wp_load_worker _ w); [done|].
  pose proof (ok_private _ _ _ _ Hok) as Hpr. unfold private_ok in Hpr.
  pose proof (proj1 (ok_abort _ _ _ _ Hok)) as Hab.
  pose proof Hr as (n & Hn & Hin).
  assert (∀ pc, w_pc w ≠ pw_gone → pc ≠ pw_gone → private_ok sz wr (set_pc pc w) →
    (pc = pw_mark_idle ∨ pc = pw_acquire → m_public_queue w ≠ [] → 1 ≤ m_semaphore w + w_owed w) →
    (tm = false → pc ≠ pw_timed_out) → wp (put_worker wr (set_pc pc w)) (λ _ s', pools_ok tm sz s') s) as Hgoto.
  { intros. apply wp_put_worker, pools_ok_store; [done|]. by apply worker_ok_pc. }
  destruct (w_pc w) as [| | | | | | | |ws b e x d| |ops| |] eqn:Hpc; try done.
  - rewrite Hab, orb_false_r. destruct (m_public_queue w) eqn:Hq; simpl; [by apply Hgoto|].
    apply wp_bind. eapply wp_swap_queues; [done|congruence|done|]. intros w' Hw'. apply wp_put_worker. by apply pools_ok_store.
  - apply wp_bind. eapply wp_mono; [|apply (wp_on_idle tm sz s wr.1 _ (λ _, True)); [done|by rewrite Hn|]].
    + intros _ s1 (_ & Hs1 & Hsame). apply wp_bind, (wp_load_worker _ w); [by rewrite (same_workers_at _ _ _ Hsame)|].
      apply wp_put_worker, pools_ok_store; [done|]. apply worker_ok_pc; [done|congruence|done|done| |done].
      intros _. apply (ok_wake _ _ _ _ Hok). by left.
    + eapply idle_step_ok; [done|done|]. intros i. apply set_idle_spec.
  - destruct timeout; [apply Hgoto; try done; [by intros [?|?]|naive_solver]|].
    destruct (m_semaphore w) as [|k] eqn:Hsem; [apply wp_block|]. apply wp_put_worker, pools_ok_store; [done|].
    destruct Hok as [H1 H2 H3 H4 H5 H6]. split; simpl; [done| |done|done|by intros [?|?]|naive_solver].
    split; [intros ?%H2; congruence|done].
  - destruct (m_task_found_or_abort w) eqn:Hf; apply Hgoto; try done; [by intros [?|?]|].
    intros _ Hq. apply (ok_found _ _ _ _ Hok) in Hq. congruence.
  - rewrite Hab. destruct (m_public_queue w) eqn:Hq; simpl; [by apply Hgoto|].
    apply wp_bind. eapply wp_mono; [|apply (wp_on_idle tm sz s wr.1 _ (λ _, True)); [done|by rewrite Hn|]].
    + intros _ s1 (_ & Hs1 & Hsame). apply wp_bind. eapply wp_swap_queues; [done|congruence|done|].
      intros w' Hw'. apply wp_put_worker. by apply pools_ok_store.
    + eapply idle_step_ok; [done|done|]. intros i. apply set_active_spec.
  - apply wp_put_worker, pools_ok_store; [done|]. apply worker_ok_leave; [done|done|].
    intros Ht. by destruct (ok_gone _ _ _ _ Hok Ht).
  - destruct (m_private_queue w) as [|t0 q0] eqn:Hq; [apply Hgoto; [done|done| |by intros [?|?]|done]; unfold private_ok; simpl; by rewrite Hq|].
    apply wp_bind. eapply wp_mono; [|apply (wp_balance_work tm sz); [done|done|done|by rewrite Hq]].
    intros pc s1 (Hs1 & Hsame & Hp & Hpcs). apply wp_bind, (wp_load_worker _ w); [by rewrite (same_workers_at _ _ _ Hsame)|].
    apply wp_put_worker, pools_ok_store; [done|].
    destruct Hpcs as [->|(?&?&?&?&?&->)];
      (apply worker_ok_pc; [done|congruence|done|done|by intros [?|?]|done]).
  - destruct ws; [by eapply wp_erase|by eapply wp_donate].
  - by apply wp_pop.
  - destruct ops; [|by eapply wp_running]. apply Hgoto; try done; [by destruct Hpr|by intros [?|?]].
Qed.

(** ** All steps *)

Lemma wp_release tm sz c wr s :
  pools_ok tm sz s → ref_ok sz wr → wp (release_semaphore c wr) (λ _ s', pools_ok tm sz s') s.
Proof.
  intros Hs Hr. destruct (pools_ok_at _ _ _ _ Hs Hr) as (w & Hw & Hok).
  unfold release_semaphore. apply wp_bind, (wp_load_worker _ w); [done|].
  destruct (w_owed w) as [|k] eqn:Ho; [apply wp_block|]. apply wp_put_worker, pools_ok_store; [done|].
  destruct Hok as [H1 H2 H3 H4 H5 H6]. split; simpl; [done..| |done].
  intros _ _. pose proof (binary_release_pos c (m_semaphore w)). lia.
Qed.

Lemma wp_client_step tm sz k h s :
  pools_ok tm sz s → wp (client_step k h) (λ _ s', pools_ok tm sz s') s.
Proof.
  intros Hs. unfold client_step. apply wp_bind, wp_get. destruct (s_calls s !! k) as [ops|] eqn:Hk; [|apply wp_block].
  apply wp_bind. eapply wp_mono; [|apply (wp_call_step tm sz); [done|done|]].
  - intros ops' s' [Hops' Hs']. apply wp_modify. destruct Hs' as [H1 H2 H3 H4 H5]. split; simpl; [done..| |done].
    by apply Forall_insert.
  - by eapply (proj1 (Forall_lookup _ _)); [apply (ok_calls _ _ _ Hs)|].
Qed.

Lemma call_ok_op tm sz o s : pools_ok tm sz s → call_ok o s → op_ok sz o.
Proof.
  intros Hs Ho. assert (∀ p, is_Some (s_pools s !! p) → is_Some (sz !! p)) as Hp.
  { intros p Hp. rewrite <- (ok_sizes _ _ _ Hs). unfold sizes. by rewrite !list_lookup_fmap, !fmap_is_Some. }
  destruct o; simpl in *; [by auto..|done].
Qed.

Lemma wp_task_call tm sz wr o s :
  pools_ok tm sz s → ref_ok sz wr → call_ok o s → wp (task_call wr o) (λ _ s', pools_ok tm sz s') s.
Proof.
  intros Hs Hr Ho. destruct (pools_ok_at _ _ _ _ Hs Hr) as (w & Hw & Hok).
  unfold task_call. apply wp_bind, (wp_load_worker _ w); [done|].
  destruct (w_pc w) as [| | | | | | | | | |[|]| |] eqn:Hpc; try apply wp_block.
  apply wp_bind, wp_put_worker, wp_modify.
  assert (pools_ok tm sz (store_worker wr (set_pc (pw_running [o]) w) s)) as [H1 H2 H3 H4 H5].
  { apply pools_ok_store; [done|]. apply worker_ok_pc; [done|congruence|done| |by intros [?|?]|done].
    pose proof (ok_private _ _ _ _ Hok) as Hpr. unfold private_ok in *. rewrite Hpc in Hpr. simpl.
    split; [by destruct Hpr|]. constructor; [by eapply call_ok_op|done]. }
  by split.
Qed.

Lemma pools_step_ok m s s' :
  throws m = false → shutdowns m = false →
  pools_ok (timeouts m) (sizes s) s → pools_step m s s' → pools_ok (timeouts m) (sizes s') s'.
Proof.
  intros Hth Hsh Hs Hst. assert (pools_ok (timeouts m) (sizes s) s') as Hs'; [|by rewrite (ok_sizes _ _ _ Hs')].
  assert (∀ wr w, worker_at s wr = Some w → ref_ok (sizes s) wr) as Href by (intros wr w Hw; apply worker_at_ref; by rewrite Hw).
  destruct Hst as [o s Ho|k h s s' H|c wr s s' H|wr h timeout s s' Ht H|wr o s s' Ho H|wr s s' Ht H|c p s s' Ht H]; [..|congruence|congruence].
  - pose proof (call_ok_op _ _ _ _ Hs Ho). destruct Hs as [H1 H2 H3 H4 H5]. split; simpl; [done..| |done].
    apply Forall_app. split; [done|]. by repeat constructor.
  - eapply (wp_done _ (λ _ s', pools_ok (timeouts m) (sizes s) s')); [by apply wp_client_step|exact H].
  - eapply (wp_done _ (λ _ s', pools_ok (timeouts m) (sizes s) s')); [apply wp_release|exact H]; [done|].
    unfold release_semaphore in H. apply bind_done in H as (w & ? & [Hw ->]%load_worker_done & _). eauto.
  - eapply (wp_done _ (λ _ s', pools_ok (timeouts m) (sizes s) s')); [apply wp_worker_step|exact H]; [done| |done].
    unfold worker_step in H. apply bind_done in H as (w & ? & [Hw ->]%load_worker_done & _). eauto.
  - eapply (wp_done _ (λ _ s', pools_ok (timeouts m) (sizes s) s')); [apply wp_task_call|exact H]; [done| |done].
    unfold task_call in H. apply bind_done in H as (w & ? & [Hw ->]%load_worker_done & _). eauto.
Qed.

(** ** The initial state *)

Lemma mark_all_idle_spec i k st :
  idle_set_wf st → i + k ≤ m_size st →
  ∃ st', mark_all_idle i k st = Done tt st' ∧ idle_set_wf st' ∧ m_size st' = m_size st.
Proof.
  revert i st. induction k as [|k IH]; intros i st Hw Hi; simpl; [by exists st|].
  destruct (set_idle_spec i st Hw) as (st1 & H1 & Hw1 & Hs1 & _); [lia|].
  rewrite (comp_bind_done _ _ _ _ _ H1). destruct (IH (S i) st1) as (st2 & ? & ? & ?); [done|lia|].
  exists st2. split_and!; [done..|lia].
Qed.

Lemma pool_init_spec name n (pl : pool A) :
  pool_init name n = Some pl →
  m_workers pl = replicate n worker_init ∧ idle_set_wf (m_idle_workers pl) ∧ m_size (m_idle_workers pl) = n.
Proof.
  unfold pool_init. destruct (mark_all_idle_spec 0 n (idle_set_init n)) as (st & -> & Hw & Hs).
  - unfold idle_set_wf, idle_count, idle_set_init. simpl. by induction n.
  - unfold m_size. simpl. by rewrite length_replicate.
  - intros. simplify_eq/=. split_and!; [done..|]. rewrite Hs. unfold m_size. simpl. apply length_replicate.
Qed.

Lemma pools_init_at s wr w : pools_init s → worker_at s wr = Some w → w = worker_init.
Proof.
  intros (pls & -> & Hp) Hw. unfold worker_at in Hw. simpl in Hw.
  destruct (pls !! wr.1) as [pl|] eqn:Hpl; [|done]. simpl in Hw.
  eapply Forall_lookup_1 in Hp as (name & n & _ & (Hws & _)%pool_init_spec); [|done].
  rewrite Hws in Hw. by apply lookup_replicate in Hw as [-> _].
Qed.

Lemma pools_init_ok tm s : pools_init s → pools_ok tm (sizes s) s.
Proof.
  intros Hi. pose proof Hi as (pls & -> & Hp). split; [done| | |done|done].
  - intros p pl Hpl. simpl in Hpl. eapply Forall_lookup_1 in Hp as (name & n & Hn & (Hws & Hwf & Hsz)%pool_init_spec); [|done].
    split; [done|by rewrite Hws, length_replicate|]. rewrite Hws. by destruct n.
  - intros wr w Hw. apply (pools_init_at _ _ _ Hi) in Hw as ->. by split; simpl; [..|intros [?|?]|].
Qed.
End live.

(** ** Where threads wait *)

Lemma flag_exchange_nb i b : nonblocking (flag_exchange i b).
Proof. intros s. unfold flag_exchange. by case_match. Qed.
Lemma flag_load_nb i : nonblocking (flag_load i).
Proof. intros s. unfold flag_load. by case_match. Qed.
Lemma approx_add_nb d : nonblocking (approx_add d).
Proof. done. Qed.
#[export] Hint Resolve flag_exchange_nb flag_load_nb approx_add_nb : ccpp.

(** Splits on the tests in the code, and closes with the lemmas on its parts. *)
Ltac nb := repeat first [ done | by auto with ccpp | apply nonblocking_bind; [|intros] | case_match | progress simpl ].

Lemma try_acquire_flag_nb i : nonblocking (try_acquire_flag i).
Proof. unfold try_acquire_flag. nb. Qed.
#[export] Hint Resolve try_acquire_flag_nb : ccpp.

Lemma find_loop_nb caller start i k : nonblocking (find_loop caller start i k).
Proof. revert i. induction k as [|k IH]; intros i; nb. Qed.
Lemma find_many_loop_nb caller i k room buf : nonblocking (find_many_loop caller i k room buf).
Proof. revert i room buf. induction k as [|k IH]; intros i room buf; destruct room; nb. Qed.
#[export] Hint Resolve find_loop_nb find_many_loop_nb : ccpp.
Lemma find_idle_worker_nb h caller : nonblocking (find_idle_worker h caller).
Proof. unfold find_idle_worker. nb. Qed.
Lemma find_idle_workers_nb caller k : nonblocking (find_idle_workers caller k).
Proof. unfold find_idle_workers. nb. Qed.
Lemma set_idle_nb i : nonblocking (set_idle i).
Proof. unfold set_idle. nb. Qed.
Lemma set_active_nb i : nonblocking (set_active i).
Proof. unfold set_active. nb. Qed.
#[export] Hint Resolve find_idle_worker_nb find_idle_workers_nb set_idle_nb set_active_nb : ccpp.

Section waiting.
Context {A : Type}.
Implicit Types (w : pool_worker A) (s : pools A) (wr : worker_ref) (ts : list A) (o : op A) (ops : list (op A)).

Lemma load_worker_nb wr : nonblocking (load_worker (A := A) wr).
Proof. intros s. unfold load_worker. by case_match. Qed.
Lemma load_pool_nb p : nonblocking (load_pool (A := A) p).
Proof. intros s. unfold load_pool. by case_match. Qed.
Lemma put_worker_nb wr w : nonblocking (put_worker wr w).
Proof. done. Qed.
Lemma on_idle_nb {B} p (m : comp idle_worker_set B) : nonblocking m → nonblocking (on_idle_workers (A := A) p m).
Proof. intros Hm s. unfold on_idle_workers. case_match; [|done]. case_match; [done| |done]. by eapply Hm in H0. Qed.
Lemma next_cursor_nb p : nonblocking (next_cursor (A := A) p).
Proof. intros s. unfold next_cursor. by case_match. Qed.
Hint Resolve load_worker_nb load_pool_nb put_worker_nb on_idle_nb next_cursor_nb : ccpp.

Lemma enqueue_foreign_nb wr ts : nonblocking (enqueue_foreign wr ts).
Proof. unfold enqueue_foreign, pool_name. nb. Qed.
Lemma enqueue_local_nb wr ts : nonblocking (enqueue_local wr ts).
Proof. unfold enqueue_local, pool_name. nb. Qed.
Lemma next_share_nb n b e x : nonblocking (next_share (A := A) n b e x).
Proof. unfold next_share. nb. Qed.
Hint Resolve enqueue_foreign_nb enqueue_local_nb next_share_nb : ccpp.
Lemma share_out_nb p ts d i k b e x : nonblocking (share_out p ts d i k b e x).
Proof. revert i b e x. induction k as [|k IH]; intros i b e x; nb. Qed.
Hint Resolve share_out_nb : ccpp.
Lemma enqueue_nb tw h p (t : A) : nonblocking (enqueue tw h p t).
Proof. unfold enqueue. nb. Qed.
Lemma enqueue_span_nb tw p ts : nonblocking (enqueue_span tw p ts).
Proof. unfold enqueue_span. nb. Qed.
Hint Resolve enqueue_nb enqueue_span_nb : ccpp.
Lemma call_step_nb tw h o ops : nonblocking (call_step tw h (o :: ops)).
Proof. simpl. apply nonblocking_bind; [destruct o; simpl; nb|]. intros r. unfold drop_tasks. nb. Qed.
Hint Resolve call_step_nb : ccpp.

Lemma swap_queues_nb w : nonblocking (swap_queues w).
Proof. unfold swap_queues. nb. Qed.
Lemma balance_work_nb wr w : nonblocking (balance_work wr w).
Proof. unfold balance_work. nb. Qed.
Lemma donate_nb wr w i rest b e x d : nonblocking (donate wr w i rest b e x d).
Proof. unfold donate. nb. Qed.
Lemma erase_donated_nb wr w b : nonblocking (erase_donated wr w b).
Proof. unfold erase_donated. nb. Qed.
Lemma pop_task_nb wr w : nonblocking (pop_task wr w).
Proof. unfold pop_task, run_task. nb. Qed.
Hint Resolve swap_queues_nb balance_work_nb donate_nb erase_donated_nb pop_task_nb : ccpp.

(** A worker waits only for a thread to be started, or for the semaphore. *)
Lemma worker_step_waits h wr w s :
  worker_at s wr = Some w → worker_step h false wr s = Block →
  w_pc w = pw_gone ∨ w_pc w = pw_acquire ∧ m_semaphore w = 0.
Proof.
  intros Hw H. unfold worker_step in H.
  rewrite (comp_bind_done _ _ s w s) in H by (unfold load_worker; by rewrite Hw).
  assert (∀ m : comp (pools A) unit, m s = Block → nonblocking m → False) as Hnb by (intros m Hm Hn; by eapply Hn).
  destruct (w_pc w) as [| | | | | | | |[|] b e x d| |[|]| |] eqn:Hpc; [by left| | |right|..];
    try (exfalso; eapply Hnb; [exact H|]; solve [nb]).
  destruct (m_semaphore w); [done|discriminate H].
Qed.
End waiting.

(** ** Executions *)

Section executions.
Context {A : Type}.

(** The steps by name, so that executions can be evaluated. *)
Inductive move : Type :=
  | mv_call (o : op A)
  | mv_client (k h : nat)
  | mv_release (c : nat) (wr : worker_ref)
  | mv_work (wr : worker_ref)
  | mv_timeout (wr : worker_ref)
  | mv_task_call (wr : worker_ref) (o : op A)
  | mv_shutdown (c p : nat).

Definition call_okb (o : op A) (s : pools A) : bool :=
  match o with
  | op_enqueue p _ | op_enqueue_span p _ => match s_pools s !! p with Some _ => true | None => false end
  | op_push _ _ => false
  end.

Definition done_state (a : access (pools A) unit) : option (pools A) :=
  match a with Done _ s => Some s | _ => None end.

Definition run_move (m : mode) (mv : move) (s : pools A) : option (pools A) :=
  match mv with
  | mv_call o => if call_okb o s then Some (start_call o s) else None
  | mv_client k h => done_state (client_step k h s)
  | mv_release c wr => done_state (release_semaphore c wr s)
  | mv_work wr => done_state (worker_step 0 false wr s)
  | mv_timeout wr => if timeouts m then done_state (worker_step 0 true wr s) else None
  | mv_task_call wr o => if call_okb o s then done_state (task_call wr o s) else None
  | mv_shutdown c p => if shutdowns m then done_state (shutdown_step c p s) else None
  end.

Definition run_moves (m : mode) (mvs : list move) (s : pools A) : option (pools A) :=
  foldl (λ os mv, s ← os; run_move m mv s) (Some s) mvs.

Lemma call_okb_spec o s : call_okb o s = true → call_ok o s.
Proof. destruct o; simpl; repeat case_match; naive_solver. Qed.

Lemma run_move_step m mv s s' : run_move m mv s = Some s' → pools_step m s s'.
Proof.
  assert (∀ a, done_state a = Some s' → a = Done tt s') as Hd.
  { intros [[] ?| |] ?; by simplify_eq/=. }
  destruct mv as [o|k h|c wr|wr|wr|wr o|c p]; simpl.
  - destruct (call_okb o s) eqn:Ho; intros; simplify_eq. by apply step_call, call_okb_spec.
  - intros H%Hd. by eapply step_client.
  - intros H%Hd. by eapply step_release.
  - intros H%Hd. by eapply step_work; [|exact H].
  - destruct (timeouts m) eqn:Ht; [|done]. intros H%Hd. by eapply step_work; [|exact H].
  - destruct (call_okb o s) eqn:Ho; [|done]. intros H%Hd. eapply step_task_call; [|exact H]. by apply call_okb_spec.
  - destruct (shutdowns m) eqn:Ht; [|done]. intros H%Hd. by eapply step_shutdown.
Qed.

Lemma run_moves_reachable m mvs s s' :
  pools_reachable m s → run_moves m mvs s = Some s' → pools_reachable m s'.
Proof.
  unfold run_moves. revert s. induction mvs as [|mv mvs IH]; intros s Hs H; simpl in *; [by simplify_eq|].
  destruct (run_move m mv s) as [s1|] eqn:Hm; [eapply (IH s1); [|done]|].
  - eapply reachable_step; [done|]. by eapply run_move_step.
  - exfalso. clear -H. induction mvs; simpl in *; [done|auto].
Qed.
End executions.
Arguments move : clear implicits.

(** Pools of the given sizes, as they are created. *)
Definition new_pools (ns : list nat) : pools nat :=
  Pools (omap (pool_init "pool") ns) [] [] [] [].

Lemma new_pools_init ns : Forall (λ n, n ≠ 0) ns → pools_init (new_pools ns).
Proof.
  intros Hns. eexists. split; [done|]. induction Hns as [|n ns Hn _ IH]; simpl; [done|].
  unfold omap in *. simpl. destruct (pool_init "pool" n) eqn:Hp; [|done]. constructor; [by exists "pool"%string, n|done].
Qed.

(** The state an execution ends in. *)
Definition final (m : mode) (mvs : list (move nat)) (ns : list nat) : pools nat :=
  match run_moves m mvs (new_pools ns) with Some s => s | None => new_pools ns end.

Lemma final_reachable m mvs ns : Forall (λ n, n ≠ 0) ns → pools_reachable m (final m mvs ns).
Proof.
  intros Hns. pose proof (reachable_init _ (pools_step m) _ (new_pools_init ns Hns)) as Hi.
  unfold final. destruct (run_moves m mvs (new_pools ns)) eqn:Hr; [|exact Hi].
  by eapply run_moves_reachable.
Qed.

(** A task is run by the only worker; another is enqueued just when the worker
    has given up waiting. *)
Definition stranding : list (move nat) :=
  let w := mv_work (0, 0) in
  [mv_call (op_enqueue 0 1); mv_client 0 0; mv_client 0 0; w; w; w; w; w; w; w;
   mv_timeout (0, 0);
   mv_call (op_enqueue 0 2); mv_client 1 0; mv_client 1 0; mv_release 0 (0, 0);
   w].

(** The same without the timeout. *)
Definition serving : list (move nat) :=
  let w := mv_work (0, 0) in
  [mv_call (op_enqueue 0 1); mv_client 0 0; mv_client 0 0; w; w; w; w; w; w; w;
   mv_call (op_enqueue 0 2); mv_client 1 0; mv_client 1 0; mv_release 0 (0, 0);
   w; w; w; w; w; w; w; w; w].

(** Worker 1 donates to worker 0 while it is shut down, and is given a task
    before its own turn comes. *)
Definition shutting : list (move nat) :=
  [mv_call (op_enqueue_span 0 [1; 2; 3; 4]); mv_client 0 0; mv_client 0 0; mv_client 0 0] ++
  replicate 9 (mv_work (0, 0)) ++
  [mv_shutdown 0 0; mv_shutdown 0 0; mv_shutdown 0 0] ++
  replicate 4 (mv_work (0, 1)) ++
  [mv_call (op_enqueue 0 5); mv_client 1 0; mv_client 1 0; mv_call (op_enqueue 0 6); mv_client 2 0; mv_client 2 0].

(** ** Theorems *)

Lemma pools_init_conserved {A} (s : pools A) : pools_init s → conserved s.
Proof.
  intros Hi. split.
  - split; [intros wr w Hw; by apply (pools_init_at _ _ _ Hi) in Hw as ->|].
    intros p pl Hp. by apply (ok_pools _ _ _ (pools_init_ok true _ Hi)) in Hp as [].
  - pose proof Hi as (pls & -> & Hp). unfold all_tasks, called. simpl. rewrite app_nil_r.
    unfold queued. simpl. clear Hi. induction Hp as [|pl pls (name & n & _ & (Hw & _)%pool_init_spec) _ IH]; simpl; [done|].
    rewrite Hw. replace (concat (worker_tasks <$> replicate n worker_init)) with (@nil A); [exact IH|].
    clear. by induction n.
Qed.

Lemma reachable_conserved {A} `{!EqDecision A} m (s : pools A) : pools_reachable m s → conserved s.
Proof.
  apply reachable_inv; [apply pools_init_conserved|]. intros s1 s2. apply pools_step_conserved.
Qed.

Lemma reachable_ok {A} m (s : pools A) :
  throws m = false → shutdowns m = false → pools_reachable m s → pools_ok (timeouts m) (sizes s) s.
Proof.
  intros Ht Hs. apply (reachable_inv _ _ (λ s, pools_ok (timeouts m) (sizes s) s)).
  - intros s0. apply pools_init_ok.
  - intros s1 s2. by apply pools_step_ok.
Qed.

(** Whatever happens (donations between workers, timeouts, exceptions, a
    shutdown), each task that was given to a pool is at each moment in exactly
    one place: run, destroyed, in a queue of a worker, or still with the call
    that is to enqueue it. *)
Theorem thread_pool_conserves_tasks {A} `{!EqDecision A} m (s : pools A) :
  pools_reachable m s → s_ran s ++ s_dropped s ++ queued s ++ called s ≡ₚ s_accepted s.
Proof. intros [_ Hs]%reachable_conserved. exact Hs. Qed.

Lemma thread_pool_conserves_tasks_witness :
  let s := final (Mode false false true) shutting [2] in
  s_accepted s = [1; 2; 3; 4; 5; 6] ∧ s_ran s ++ s_dropped s ++ queued s ++ called s ≡ₚ s_accepted s.
Proof.
  split; [vm_compute; reflexivity|]. apply (thread_pool_conserves_tasks (Mode false false true)).
  apply final_reachable. repeat constructor; discriminate.
Defined.

(** As long as no pool is shut down and tasks handle their exceptions, no
    assertion of the pools fails and no worker is referred to that does not
    exist, in any interleaving; and no task is destroyed without being run. *)
Theorem thread_pool_never_faults {A} m (s : pools A) :
  pools_reachable m s → throws m = false → shutdowns m = false →
  (∀ k h f, client_step k h s ≠ Fault f) ∧
  (∀ wr h timeout f, is_Some (worker_at s wr) → (timeout = true → timeouts m = true) →
     worker_step h timeout wr s ≠ Fault f) ∧
  (∀ c wr f, is_Some (worker_at s wr) → release_semaphore c wr s ≠ Fault f) ∧
  s_dropped s = [].
Proof.
  intros Hs Hth Hsh. pose proof (reachable_ok m s Hth Hsh Hs) as Hok. split_and!.
  - intros k h f. eapply wp_no_fault. by eapply wp_client_step.
  - intros wr h timeout f Hw%worker_at_ref Ht. eapply wp_no_fault. by eapply wp_worker_step.
  - intros c wr f Hw%worker_at_ref. eapply wp_no_fault. by eapply wp_release.
  - apply Hok.
Qed.

Lemma thread_pool_never_faults_witness :
  let s := final (Mode true false false) stranding [1] in
  (∀ k h f, client_step k h s ≠ Fault f) ∧
  (∀ wr h timeout f, is_Some (worker_at s wr) → (timeout = true → timeouts (Mode true false false) = true) →
     worker_step h timeout wr s ≠ Fault f) ∧
  (∀ c wr f, is_Some (worker_at s wr) → release_semaphore c wr s ≠ Fault f) ∧
  s_dropped s = [].
Proof.
  apply (thread_pool_never_faults (Mode true false false)); [|reflexivity..].
  apply final_reachable. repeat constructor; discriminate.
Defined.

Lemma calls_done {A} (s : pools A) :
  (∀ k ops, s_calls s !! k = Some ops → ops ≠ [] → client_step k 0 s = Block) → called s = [].
Proof.
  intros H. assert (Forall (λ ops, ops = []) (s_calls s)) as Hall.
  { apply Forall_lookup. intros k ops Hk. destruct ops as [|o ops]; [done|]. exfalso.
    specialize (H k _ Hk ltac:(done)). unfold client_step in H. rewrite get_state_bind, Hk in H.
    apply bind_block in H as [H|(? & ? & _ & H)]; [|done]. by eapply call_step_nb. }
  unfold called. clear H. induction Hall as [|? l -> _ IH]; simpl; [done|exact IH].
Qed.

Lemma workers_done {A} (s : pools A) :
  pools_ok false (sizes s) s →
  (∀ wr, is_Some (worker_at s wr) → worker_step 0 false wr s = Block ∧ release_semaphore 0 wr s = Block) →
  queued s = [].
Proof.
  intros Hok H.
  assert (∀ wr w, worker_at s wr = Some w → worker_tasks w = []) as Hall.
  { intros wr w Hw. destruct (H wr) as [H1 H2]; [by rewrite Hw|]. apply (worker_step_waits _ _ _ _ Hw) in H1.
    pose proof (ok_workers _ _ _ Hok _ _ Hw) as [_ _ Hpr _ Hwk Hg]. unfold release_semaphore in H2.
    rewrite (comp_bind_done _ _ s w s) in H2 by (unfold load_worker; by rewrite Hw).
    unfold worker_tasks, private_ok in *. destruct H1 as [Hpc|[Hpc Hsem]]; rewrite Hpc in *; rewrite Hpr; simpl.
    - destruct (Hg eq_refl) as [_ Hg']. by rewrite Hg'.
    - destruct (w_owed w) eqn:Ho; [|discriminate H2]. destruct (m_public_queue w); [done|].
      specialize (Hwk ltac:(by right) ltac:(done)). lia. }
  unfold queued. apply concat_nil_Forall, Forall_fmap, Forall_lookup. intros p pl Hp. simpl.
  apply concat_nil_Forall, Forall_fmap, Forall_lookup. intros i w Hi. apply (Hall (p, i)).
  unfold worker_at. simpl. by rewrite Hp.
Qed.

(** C2: no wake-up is lost in pools that are not shut down, whose workers do not time
    out, and whose tasks do not end with [runtime_shutdown]: when no thread can
    go on (the calls have returned, and every worker waits) each task that was
    given to a pool has been run.  A release of the semaphore of a worker at its
    maximum, which the standard leaves undefined, may leave any positive count. *)
Theorem thread_pool_runs_all {A} `{!EqDecision A} (s : pools A) :
  pools_reachable (Mode false false false) s →
  (∀ k ops, s_calls s !! k = Some ops → ops ≠ [] → client_step k 0 s = Block) →
  (∀ wr, is_Some (worker_at s wr) → worker_step 0 false wr s = Block ∧ release_semaphore 0 wr s = Block) →
  s_ran s ≡ₚ s_accepted s.
Proof.
  intros Hs Hcalls Hworkers. pose proof (reachable_ok (Mode false false false) s eq_refl eq_refl Hs) as Hok. simpl in Hok.
  apply reachable_conserved in Hs as [_ Hp].
  assert (called s = []) as Hc by (by apply calls_done).
  assert (queued s = []) as Hq by (by apply workers_done).
  unfold all_tasks in Hp. by rewrite Hc, Hq, (ok_dropped _ _ _ Hok), !app_nil_r in Hp.
Qed.

Lemma thread_pool_runs_all_witness :
  let s := final (Mode false false false) serving [1] in
  s_accepted s = [1; 2] ∧ s_ran s ≡ₚ s_accepted s.
Proof.
  split; [vm_compute; reflexivity|]. apply thread_pool_runs_all.
  - apply final_reachable. repeat constructor; discriminate.
  - intros [|[|k]] ops Hk Hne; vm_compute in Hk; [congruence..|discriminate Hk].
  - intros [[|p] [|i]] [w Hw]; vm_compute in Hw; try discriminate Hw. split; vm_compute; reflexivity.
Defined.

(** A worker that finds a task without acquiring its semaphore, while the client
    of the task releases it, is then given another by a client that has still to. *)
Definition overrunning : list (move nat) :=
  let w := mv_work (0, 0) in
  [mv_call (op_enqueue 0 1); mv_client 0 0; mv_client 0 0; w;
   mv_call (op_enqueue 0 2); mv_client 1 0; mv_client 1 0; mv_release 0 (0, 0); w; w; w; w; w;
   mv_call (op_enqueue 0 3); mv_client 2 0; mv_client 2 0].

(** The semaphore of a worker is a [std::binary_semaphore], and is released when its count is
    at the maximum of one. *)
Theorem thread_pool_semaphore_exceeds_max :
  ∃ s : pools nat, pools_reachable (Mode false false false) s ∧
    ∃ w, worker_at s (0, 0) = Some w ∧ m_semaphore w = 1 ∧ w_owed w = 1.
Proof.
  exists (final (Mode false false false) overrunning [1]). split; [apply final_reachable; repeat constructor; discriminate|].
  eexists. split; [vm_compute; reflexivity|]. split; reflexivity.
Qed.

(** C38: a task can be stranded by a timeout.  In this state of a pool of one
    worker no thread can go on, no call is under way and nothing was shut down,
    and task 2 sits in the public queue of the worker, whose thread has ended;
    the worker had decided to end before the task came, and ended without
    looking at the queue again. *)
Theorem thread_pool_strands_task :
  ∃ s : pools nat, pools_reachable (Mode true false false) s ∧
    (∀ ops, ops ∈ s_calls s → ops = []) ∧
    (∀ wr, is_Some (worker_at s wr) →
       worker_step 0 false wr s = Block ∧ worker_step 0 true wr s = Block ∧ ∀ c, release_semaphore c wr s = Block) ∧
    s_accepted s = [1; 2] ∧ s_ran s = [1] ∧ m_public_queue <$> worker_at s (0, 0) = Some [2].
Proof.
  exists (final (Mode true false false) stranding [1]). split_and!; try (by vm_compute).
  - apply final_reachable. repeat constructor; discriminate.
  - intros ops. replace (s_calls _) with ([[]; []] : list (list (op nat))) by (vm_compute; reflexivity).
    rewrite !elem_of_cons. intros [->|[->|[]%elem_of_nil]]; done.
  - intros [[|p] [|i]] [w Hw]; vm_compute in Hw; try discriminate Hw. split_and!; vm_compute; reflexivity.
Qed.

(** During a shutdown an assertion of [drain_queue] can fail.  A worker that
    donates to one that was shut down already ends by the exception with its
    private queue full; if it is then given a task, before its own shutdown, its
    new thread finds that queue. *)
Theorem thread_pool_shutdown_assertion :
  ∃ s : pools nat, pools_reachable (Mode false false true) s ∧ worker_step 0 false (0, 1) s = Fault assert_failed.
Proof.
  exists (final (Mode false false true) shutting [2]). split; [|vm_compute; reflexivity].
  apply final_reachable. repeat constructor; discriminate.
Qed.

(** The thread-local [this_worker] does not say which pool it belongs to: a
    task that runs on a pool and has nothing else queued there, and that
    enqueues to another pool, enqueues to its own instead. *)
Theorem enqueue_goes_to_own_pool {A} (s : pools A) wr w h p t :
  worker_at s wr = Some w → appears_empty w = true → m_atomic_abort w = false → wr.1 ≠ p →
  ∃ s', enqueue (Some wr) h p t s = Done (Ret []) s' ∧ s_pools s' !! p = s_pools s !! p ∧
    m_private_queue <$> worker_at s' wr = Some (m_private_queue w ++ [Some t]).
Proof.
  intros Hw He Ha Hp. exists (store_worker wr (set_private (m_private_queue w ++ [Some t]) w) s). split_and!.
  - unfold enqueue, enqueue_local, mbind, comp_bind, load_worker. rewrite Hw, He, Hw, Ha. done.
  - simpl. by rewrite list_lookup_alter_ne.
  - rewrite worker_at_store by (by rewrite Hw). done.
Qed.

Lemma enqueue_goes_to_own_pool_witness :
  let s := final (Mode true false false) (take 7 stranding) [1; 1] in
  ∃ s', enqueue (Some (0, 0)) 0 1 7 s = Done (Ret []) s' ∧ s_pools s' !! 1 = s_pools s !! 1 ∧
    m_private_queue <$> worker_at s' (0, 0) = Some [Some 7].
Proof.
  destruct (worker_at (final (Mode true false false) (take 7 stranding) [1; 1]) (0, 0)) as [w|] eqn:Hw;
    [|vm_compute in Hw; discriminate Hw].
  pose proof (enqueue_goes_to_own_pool _ (0, 0) w 0 1 7 Hw) as H. vm_compute in Hw. injection Hw as <-.
  apply H; [reflexivity..|discriminate].
Defined.
