(* ===== verification/Slist.v ===== *)
(** * [slist]: the intrusive queue of the awaiters

    Nodes live in a heap, each with its [next] pointer; the list is a pointer to
    its first and one to its last node.  It is shown to be a queue: [push_back]
    appends, [pop_front] takes the first. *)

From S2P Require Import Prelude Conc.
From stdpp Require Import options.

Record slist : Type := Slist { m_head : option nat; m_tail : option nat }.

(** The [next] pointers of the nodes that exist, and the list. *)
Record slist_mem : Type := SlistMem { next : gmap nat (option nat); sl : slist }.

Definition slist_empty : slist := Slist None None.

Definition set_list (l : slist) : comp slist_mem unit := modify (λ m, SlistMem (next m) l).
Definition load_next (n : nat) : comp slist_mem (option nat) := λ m,
  match next m !! n with Some p => Done p m | None => Fault use_after_free end.
Definition store_next (n : nat) (p : option nat) : comp slist_mem unit := λ m,
  match next m !! n with
  | Some _ => Done tt (SlistMem (<[n := p]> (next m)) (sl m))
  | None => Fault use_after_free
  end.

Definition assert_state : comp slist_mem unit :=
  m ← get_state;
  match m_head (sl m) with
  | None => assert (match m_tail (sl m) with None => true | _ => false end)
  | Some _ => assert (match m_tail (sl m) with None => false | _ => true end)
  end.

Definition is_empty : comp slist_mem bool :=
  assert_state;; m ← get_state; mret (match m_head (sl m) with None => true | _ => false end).

Definition push_back (node : nat) : comp slist_mem unit :=
  assert_state;;
  m ← get_state;
  match m_head (sl m), m_tail (sl m) with
  | None, _ => set_list (Slist (Some node) (Some node))
  | Some h, Some t => store_next t (Some node);; set_list (Slist (Some h) (Some node))
  | Some _, None => abort_with null_deref
  end.

Definition pop_front : comp slist_mem (option nat) :=
  assert_state;;
  m ← get_state;
  match m_head (sl m) with
  | None => mret None
  | Some node =>
      n ← load_next node;
      set_list (Slist n (match n with None => None | Some _ => m_tail (sl m) end));;
      mret (Some node)
  end.

(** The move constructor: the new list, and the old one left empty. *)
Definition move_list (l : slist) : slist * slist := (l, slist_empty).

(** A node that is constructed or destroyed. *)
Definition new_node (n : nat) : comp slist_mem unit :=
  modify (λ m, SlistMem (<[n := None]> (next m)) (sl m)).
Definition delete_node (n : nat) : comp slist_mem unit :=
  modify (λ m, SlistMem (delete n (next m)) (sl m)).

(** ** The queue it stands for *)

(** The nodes from [h] on are [l], each linked to the next, the last to none. *)
Fixpoint linked (nx : gmap nat (option nat)) (l : list nat) : Prop :=
  match l with
  | [] => True
  | [n] => nx !! n = Some None
  | n :: (n' :: _) as l' => nx !! n = Some (Some n') ∧ linked nx l'
  end.

Definition represents (m : slist_mem) (l : list nat) : Prop :=
  m_head (sl m) = head l ∧ m_tail (sl m) = last l ∧ NoDup l ∧ linked (next m) l.

Lemma linked_ext nx nx' l : (∀ n, n ∈ l → nx' !! n = nx !! n) → linked nx l → linked nx' l.
Proof.
  induction l as [|n [|n' l] IH]; simpl; intros Hn Hl; [done|by rewrite Hn by set_solver|].
  destruct Hl as [Hl1 Hl2]. split; [by rewrite Hn by set_solver|]. apply IH; [set_solver|done].
Qed.

Lemma NoDup_snoc (l : list nat) n : n ∉ l → NoDup l → NoDup (l ++ [n]).
Proof.
  intros Hn Hl. apply NoDup_app. split_and!; [done| |by apply NoDup_singleton].
  intros x Hx ->%list_elem_of_singleton. done.
Qed.

Lemma linked_snoc nx l t n :
  linked nx (l ++ [t]) → nx !! n = Some None → NoDup (l ++ [t; n]) →
  linked (<[t := Some n]> nx) (l ++ [t; n]).
Proof.
  induction l as [|x l IH]; simpl; intros Hl Hn Hnd.
  - rewrite !NoDup_cons, not_elem_of_cons in Hnd. rewrite lookup_insert_eq, lookup_insert_ne by naive_solver. done.
  - apply NoDup_cons in Hnd as [Hx Hnd]. rewrite elem_of_app, !elem_of_cons in Hx.
    destruct l as [|y l]; simpl in *; destruct Hl as [Hl1 Hl2].
    + split; [by rewrite lookup_insert_ne by naive_solver|]. by apply IH.
    + split; [by rewrite lookup_insert_ne by naive_solver|]. by apply IH.
Qed.

Lemma represents_asserts {B} m l (k : comp slist_mem B) Q : represents m l → wp k Q m → wp (assert_state;; k) Q m.
Proof.
  intros (Hh & Ht & _) Hk. apply wp_bind. unfold assert_state. apply wp_bind, wp_get. rewrite Hh, Ht.
  destruct l as [|x l]; [exact Hk|]. simpl head.
  destruct (last (x :: l)) eqn:E; [exact Hk|by apply last_None in E].
Qed.

Lemma push_back_spec m l n :
  represents m l → next m !! n = Some None → n ∉ l →
  wp (push_back n) (λ _ m', represents m' (l ++ [n]) ∧ ∀ k, k ∉ l → next m' !! k = next m !! k) m.
Proof.
  intros Hr Hn Hnl. apply (represents_asserts _ l); [done|]. apply wp_bind, wp_get.
  destruct Hr as (Hh & Ht & Hnd & Hl). destruct l as [|x l _] using rev_ind.
  - rewrite Hh. simpl. apply wp_modify. split; [|done]. repeat split; simpl; [by apply NoDup_singleton|done].
  - rewrite Ht, last_snoc, Hh. destruct (head (l ++ [x])) as [h|] eqn:E; [|by destruct l].
    pose proof (NoDup_snoc _ _ Hnl Hnd) as Hnd'. apply wp_bind. unfold wp, store_next.
    assert (is_Some (next m !! x)) as [p Hp].
    { clear -Hl. induction l as [|y [|z l] IH]; simpl in *; [by eexists|by eexists; apply Hl|by apply IH, Hl]. }
    rewrite Hp. simpl. split.
    + rewrite <- (assoc_L (++)) in *. simpl in *. split_and!; simpl; [by destruct l|by rewrite last_app|done|].
      by apply linked_snoc.
    + intros k Hk. rewrite lookup_insert_ne; [done|]. rewrite elem_of_app, list_elem_of_singleton in Hk. naive_solver.
Qed.

Lemma pop_front_spec m l :
  represents m l →
  wp pop_front (λ r m', r = head l ∧ represents m' (tail l) ∧ next m' = next m) m.
Proof.
  intros Hr. apply (represents_asserts _ l); [done|]. apply wp_bind, wp_get.
  destruct Hr as (Hh & Ht & Hnd & Hl). rewrite Hh. destruct l as [|x [|y l]]; simpl in *.
  - apply wp_ret. by repeat split.
  - apply wp_bind. unfold wp at 1, load_next. rewrite Hl. apply wp_bind, wp_modify, wp_ret. simpl.
    split_and!; [done| |done]. unfold represents; simpl. by split_and!; [| |apply NoDup_nil_2|].
  - destruct Hl as [Hx Hl]. apply wp_bind. unfold wp at 1, load_next. rewrite Hx. apply wp_bind, wp_modify, wp_ret.
    apply NoDup_cons in Hnd as [_ Hnd]. simpl. by repeat split.
Qed.


(** ** As the awaitables use it *)

(** An awaiter is constructed and pushed; the first is popped, and then
    destroyed; the list is asked whether it is empty. *)
Inductive slist_op : Type := sl_push (n : nat) | sl_pop | sl_empty.

Definition run_slist_op (o : slist_op) : comp slist_mem (option nat) :=
  match o with
  | sl_push n => new_node n;; push_back n;; mret None
  | sl_pop => r ← pop_front; match r with Some n => delete_node n;; mret (Some n) | None => mret None end
  | sl_empty => b ← is_empty; mret (if (b : bool) then None else Some 0)
  end.

Fixpoint run_slist (os : list slist_op) : comp slist_mem (list (option nat)) :=
  match os with
  | [] => mret []
  | o :: os => r ← run_slist_op o; rs ← run_slist os; mret (r :: rs)
  end.

(** The specification: a queue. *)
Definition run_queue_op (o : slist_op) (q : list nat) : option nat * list nat :=
  match o with
  | sl_push n => (None, q ++ [n])
  | sl_pop => (head q, tail q)
  | sl_empty => (match q with [] => None | _ => Some 0 end, q)
  end.

Fixpoint run_queue (os : list slist_op) (q : list nat) : list (option nat) :=
  match os with
  | [] => []
  | o :: os => (run_queue_op o q).1 :: run_queue os (run_queue_op o q).2
  end.

(** No node is pushed while it is in the queue. *)
Fixpoint fresh_pushes (os : list slist_op) (q : list nat) : bool :=
  match os with
  | [] => true
  | o :: os => match o with sl_push n => bool_decide (n ∉ q) | _ => true end &&
               fresh_pushes os (run_queue_op o q).2
  end.

Lemma represents_heap m m' l :
  sl m' = sl m → (∀ n, n ∈ l → next m' !! n = next m !! n) → represents m l → represents m' l.
Proof.
  intros Hsl Hn (H1 & H2 & H3 & H4). unfold represents. rewrite Hsl. split_and!; [done..|].
  by eapply linked_ext.
Qed.

Lemma run_slist_op_spec o m q :
  represents m q → match o with sl_push n => n ∉ q | _ => True end →
  wp (run_slist_op o) (λ r m', r = (run_queue_op o q).1 ∧ represents m' (run_queue_op o q).2) m.
Proof.
  intros Hr Ho. destruct o as [n| |]; simpl in *.
  - apply wp_bind, wp_modify. apply wp_bind. eapply wp_mono; [|apply (push_back_spec _ q)].
    + intros _ m' [Hr' _]. by apply wp_ret.
    + eapply represents_heap; [..|exact Hr]; [done|]. intros k Hk. simpl. rewrite lookup_insert_ne; [done|]. congruence.
    + simpl. apply lookup_insert_eq.
    + done.
  - apply wp_bind. eapply wp_mono; [|by apply pop_front_spec]. intros r m' (-> & Hr' & Hn).
    destruct q as [|x q]; simpl in *; [by apply wp_ret|]. apply wp_bind, wp_modify, wp_ret. split; [done|].
    eapply represents_heap; [..|exact Hr']; [done|]. intros k Hk. simpl. rewrite lookup_delete_ne; [done|].
    intros ->. destruct Hr as (_ & _ & [Hx _]%NoDup_cons & _). done.
  - apply wp_bind. unfold is_empty. apply (represents_asserts _ q); [done|]. apply wp_bind, wp_get, wp_ret, wp_ret.
    destruct Hr as (Hh & Hr). rewrite Hh. split; [by destruct q|done].
Qed.

Lemma run_slist_spec os m q :
  represents m q → fresh_pushes os q = true →
  wp (run_slist os) (λ rs _, rs = run_queue os q) m.
Proof.
  revert m q. induction os as [|o os IH]; intros m q Hr Hf; simpl in *; [by apply wp_ret|].
  apply andb_prop in Hf as [Ho Hf]. apply wp_bind. eapply wp_mono; [|apply (run_slist_op_spec o m q Hr)].
  - intros r m' [-> Hr']. apply wp_bind. eapply wp_mono; [|by eapply IH]. intros rs m'' ->. by apply wp_ret.
  - destruct o; [by apply bool_decide_eq_true in Ho|done..].
Qed.

Lemma run_slist_nb os : nonblocking (run_slist os).
Proof.
  assert (nonblocking assert_state) as Ha.
  { unfold assert_state. apply nonblocking_bind; [auto with ccpp|]. intros m. case_match; auto with ccpp. }
  assert (nonblocking pop_front) as Hp.
  { unfold pop_front. repeat (apply nonblocking_bind; [auto with ccpp|intros]). case_match; [|auto with ccpp].
    apply nonblocking_bind; [intros ?; unfold load_next; by case_match|]. intros. unfold set_list. auto with ccpp. }
  assert (∀ n, nonblocking (push_back n)) as Hb.
  { intros n. unfold push_back, set_list. repeat (apply nonblocking_bind; [auto with ccpp|intros]).
    repeat case_match; auto with ccpp. apply nonblocking_bind; [intros ?; unfold store_next; by case_match|]. auto with ccpp. }
  induction os as [|o os IH]; simpl; [auto with ccpp|]. apply nonblocking_bind; [|intros; auto with ccpp].
  destruct o; simpl; unfold new_node, delete_node, is_empty;
    repeat (apply nonblocking_bind; [by auto with ccpp|intros]); try case_match; auto with ccpp.
Qed.

(** The intrusive list is a queue: any sequence of pushes of fresh nodes,
    pops and tests for emptiness, with every popped node destroyed, answers as a
    queue does, touches no node that does not exist and fails no assertion. *)
Theorem slist_refines_queue os :
  fresh_pushes os [] = true →
  ∃ m, run_slist os (SlistMem ∅ slist_empty) = Done (run_queue os []) m.
Proof.
  intros Hf. assert (represents (SlistMem ∅ slist_empty) []) as Hr.
  { unfold represents. by split_and!; [| |apply NoDup_nil_2|]. }
  pose proof (run_slist_spec os _ _ Hr Hf) as Hw. pose proof (run_slist_nb os (SlistMem ∅ slist_empty)) as Hb.
  unfold wp in Hw. destruct (run_slist os _) as [rs m'| |]; [|done..]. rewrite Hw. by exists m'.
Qed.

Definition slist_example : list slist_op :=
  [sl_empty; sl_push 1; sl_push 2; sl_pop; sl_push 1; sl_pop; sl_pop; sl_pop; sl_empty].

Lemma slist_refines_queue_witness :
  run_queue slist_example [] = [None; None; None; Some 1; None; Some 2; Some 1; None; None] ∧
  ∃ m, run_slist slist_example (SlistMem ∅ slist_empty) = Done (run_queue slist_example []) m.
Proof. split; [reflexivity|]. apply (slist_refines_queue slist_example). reflexivity. Defined.
