(* ===== verification/AsyncLock.v ===== *)
(** * [async_lock] and [scoped_async_lock]

    Coroutines contend for the lock.  Each critical section of [m_awaiter_lock]
    is a step, and so are the resumption on the caller's executor and the
    counting of the debug builds.  The list of awaiters is a queue of
    coroutines, which is what [Slist] shows [slist] to be. *)

From S2P Require Import Prelude Conc.
From stdpp Require Import options.

(** Where a coroutine is: not at the lock; about to take [m_awaiter_lock] in
    [lock_impl] ([true] in the first attempt); suspended in [m_awaiters]; with
    the lock taken, in [resume_on]; about to count itself; in its critical
    section. *)
Inductive lock_pc : Type :=
  | co_out
  | co_attempt (resume_synchronously : bool)
  | co_waiting
  | co_resuming
  | co_counting
  | co_holding.

#[global] Instance lock_pc_eq_dec : EqDecision lock_pc.
Proof. solve_decision. Defined.

Record async_lock : Type := AsyncLock {
  m_locked : bool;
  m_awaiters : list nat;
  m_thread_count_in_critical_section : Z;
  co : list lock_pc }.

Definition lock_init (n : nat) : async_lock := AsyncLock false [] 0 (replicate n co_out).

Definition set_co (i : nat) (pc : lock_pc) : comp async_lock unit :=
  modify (λ s, AsyncLock (m_locked s) (m_awaiters s) (m_thread_count_in_critical_section s) (<[i := pc]> (co s))).
Definition set_locked (b : bool) : comp async_lock unit :=
  modify (λ s, AsyncLock b (m_awaiters s) (m_thread_count_in_critical_section s) (co s)).
Definition set_awaiters (q : list nat) : comp async_lock unit :=
  modify (λ s, AsyncLock (m_locked s) q (m_thread_count_in_critical_section s) (co s)).
Definition set_count (z : Z) : comp async_lock unit :=
  modify (λ s, AsyncLock (m_locked s) (m_awaiters s) z (co s)).

(** [m_awaiters.pop_front()], and [retry] of the awaiter it gives, which
    continues the loop of [lock_impl]. *)
Definition pop_and_retry : comp async_lock unit :=
  s ← get_state;
  match m_awaiters s with
  | [] => mret tt
  | awaiter :: rest => set_awaiters rest;; set_co awaiter (co_attempt false)
  end.

(** [async_lock_awaiter::await_suspend] *)
Definition await_suspend (i : nat) : comp async_lock unit :=
  s ← get_state; set_awaiters (m_awaiters s ++ [i]);; set_co i co_waiting.

(** A round of the loop of [lock_impl]. *)
Definition lock_attempt (i : nat) (resume_synchronously : bool) : comp async_lock unit :=
  s ← get_state;
  if m_locked s then await_suspend i
  else set_locked true;; set_co i (if resume_synchronously then co_counting else co_resuming).

(** The handler of [lock_impl], after a [resume_on] that threw. *)
Definition resume_failed (i : nat) : comp async_lock unit :=
  s ← get_state;
  assert (m_locked s);;
  set_locked false;; set_co i co_out;; pop_and_retry.

(** The count at the end of [lock_impl] and of [try_lock]. *)
Definition enter_section (i : nat) : comp async_lock unit :=
  s ← get_state;
  assert (bool_decide (m_thread_count_in_critical_section s = 0%Z));;
  set_count (m_thread_count_in_critical_section s + 1);; set_co i co_holding.

Definition try_lock (i : nat) : comp async_lock bool :=
  s ← get_state;
  if m_locked s then mret false else set_locked true;; set_co i co_counting;; mret true.

(** [unlock]: it throws if the lock is not locked. *)
Definition unlock (i : nat) : comp async_lock (outcome unit) :=
  s ← get_state;
  if m_locked s then
    set_locked false;;
    assert (bool_decide (m_thread_count_in_critical_section s = 1%Z));;
    set_count (m_thread_count_in_critical_section s - 1);;
    set_co i co_out;;
    pop_and_retry;;
    mret (Ret tt)
  else mret (Throw operation_not_permitted).

(** ** Coroutines that use the lock as they should *)

Inductive lock_action : Type :=
  | begin_lock
  | begin_try_lock
  | go_on
  | executor_fails
  | do_unlock.

(** What a coroutine can do next. *)
Definition co_step (i : nat) (a : lock_action) : comp async_lock unit :=
  s ← get_state;
  match co s !! i, a with
  | Some co_out, begin_lock => set_co i (co_attempt true)
  | Some co_out, begin_try_lock => try_lock i;; mret tt
  | Some (co_attempt sync), go_on => lock_attempt i sync
  | Some co_resuming, go_on => set_co i co_counting
  | Some co_resuming, executor_fails => resume_failed i
  | Some co_counting, go_on => enter_section i
  | Some co_holding, do_unlock => unlock i;; mret tt
  | _, _ => block
  end.

Definition lock_step (s s' : async_lock) : Prop := ∃ i a, co_step i a s = Done tt s'.
Definition lock_reachable (n : nat) : async_lock → Prop := reachable (λ s, s = lock_init n) lock_step.

(** ** The invariant *)

(** The coroutine has the lock; it has counted itself; it will try again. *)
Definition owns (pc : lock_pc) : bool := match pc with co_resuming | co_counting | co_holding => true | _ => false end.
Definition counted (pc : lock_pc) : bool := match pc with co_holding => true | _ => false end.
Definition attempts (pc : lock_pc) : bool := match pc with co_attempt _ => true | _ => false end.

Definition number (f : lock_pc → bool) (s : async_lock) : nat := length (filter (λ pc, f pc = true) (co s)).

Record lock_base (s : async_lock) : Prop := LockBase {
  ok_owner : number owns s = if m_locked s then 1 else 0;
  ok_count : m_thread_count_in_critical_section s = Z.of_nat (number counted s);
  ok_nodup : NoDup (m_awaiters s);
  ok_waiting i : i ∈ m_awaiters s ↔ co s !! i = Some co_waiting }.

(** While the lock is free, somebody will try to take it before anybody has to
    wait for an [unlock]. *)
Definition retry_ok (s : async_lock) : Prop := m_awaiters s ≠ [] → m_locked s = false → 0 < number attempts s.

Definition lock_ok (s : async_lock) : Prop := lock_base s ∧ retry_ok s.

Lemma number_insert f (pcs : list lock_pc) i pc pc' :
  pcs !! i = Some pc →
  length (filter (λ pc, f pc = true) (<[i := pc']> pcs)) + (if (f pc : bool) then 1 else 0) =
  length (filter (λ pc, f pc = true) pcs) + (if (f pc' : bool) then 1 else 0).
Proof.
  intros Hi. pose proof (filter_insert_length (λ pc, f pc = true) pcs i pc pc' Hi) as H.
  destruct (f pc) eqn:?, (f pc') eqn:?; repeat case_decide; simpl in *; congruence || lia.
Qed.

Lemma counted_owns s : number counted s ≤ number owns s.
Proof.
  unfold number. induction (co s) as [|pc pcs IH]; simpl; [done|]. rewrite !filter_cons.
  destruct pc; repeat case_decide; simpl in *; done || lia.
Qed.

Lemma number_pos f (pcs : list lock_pc) i pc : pcs !! i = Some pc → f pc = true → 0 < length (filter (λ pc, f pc = true) pcs).
Proof.
  intros Hi Hf. apply list_elem_of_lookup_2 in Hi.
  destruct (filter (λ pc, f pc = true) pcs) eqn:E; [|simpl; lia].
  assert (pc ∈ filter (λ pc, f pc = true) pcs) as Hin by (by apply list_elem_of_filter).
  rewrite E in Hin. by apply elem_of_nil in Hin.
Qed.

(** A coroutine that is not waiting moves on, with the lock and the count as
    they should then be. *)
Lemma lock_base_move s i pc pc' (locked : bool) count :
  lock_base s → co s !! i = Some pc → pc ≠ co_waiting → pc' ≠ co_waiting →
  (if owns pc' then 1 else 0) + (if m_locked s then 1 else 0) = (if locked then 1 else 0) + (if owns pc then 1 else 0) →
  (count + (if counted pc then 1 else 0) = m_thread_count_in_critical_section s + (if counted pc' then 1 else 0))%Z →
  lock_base (AsyncLock locked (m_awaiters s) count (<[i := pc']> (co s))).
Proof.
  intros [H1 H2 H3 H4] Hi Hw Hw' Ho Hc. unfold number in *.
  pose proof (number_insert owns _ i pc pc' Hi) as N1. pose proof (number_insert counted _ i pc pc' Hi) as N2.
  split; simpl in *.
  - unfold number; simpl. destruct locked, (m_locked s), (owns pc), (owns pc'); lia.
  - unfold number; simpl. destruct (counted pc), (counted pc'); lia.
  - done.
  - intros j. rewrite H4. destruct (decide (j = i)) as [->|].
    + rewrite list_lookup_insert_eq by (by eapply lookup_lt_Some). rewrite Hi. naive_solver.
    + by rewrite list_lookup_insert_ne.
Qed.

Lemma retry_ok_move s i pc pc' (locked : bool) count :
  co s !! i = Some pc → retry_ok s → attempts pc = false → m_locked s = false ∨ locked = true →
  retry_ok (AsyncLock locked (m_awaiters s) count (<[i := pc']> (co s))).
Proof.
  intros Hi Hr Ha Hl Hq Hl'. simpl in *. unfold number; simpl.
  pose proof (number_insert attempts _ i pc pc' Hi) as N3. rewrite Ha in N3. unfold retry_ok, number in Hr.
  destruct Hl as [Hl|]; [|congruence]. specialize (Hr Hq Hl). lia.
Qed.

(** The lock was released: the first awaiter is woken. *)
Lemma wp_pop_and_retry s : lock_base s → wp pop_and_retry (λ _ s', lock_ok s') s.
Proof.
  intros Hb. unfold pop_and_retry. apply wp_bind, wp_get.
  destruct (m_awaiters s) as [|j q] eqn:Hq; [apply wp_ret; split; [done|intros ?; congruence]|].
  destruct Hb as [H1 H2 H3 H4]. rewrite Hq in H3. setoid_rewrite Hq in H4.
  apply wp_bind, wp_modify, wp_modify. simpl.
  assert (co s !! j = Some co_waiting) as Hj by (apply H4; by left).
  pose proof (number_insert owns _ j _ (co_attempt false) Hj) as N1.
  pose proof (number_insert counted _ j _ (co_attempt false) Hj) as N2. simpl in N1, N2. unfold number in *.
  apply NoDup_cons in H3 as [Hjq H3]. split; [split; unfold number; simpl; [lia|lia|done|]|].
  - intros i. destruct (decide (i = j)) as [->|].
    + rewrite list_lookup_insert_eq by (by eapply lookup_lt_Some). naive_solver.
    + rewrite list_lookup_insert_ne by done. rewrite <- H4, elem_of_cons. naive_solver.
  - intros _ _. unfold number. simpl.
    eapply number_pos; [apply list_lookup_insert_eq; by eapply lookup_lt_Some|done].
Qed.

(** The coroutine that attempts has to wait. *)
Lemma wp_await_suspend s i sync :
  lock_ok s → m_locked s = true → co s !! i = Some (co_attempt sync) → wp (await_suspend i) (λ _ s', lock_ok s') s.
Proof.
  intros [[H1 H2 H3 H4] Hr] Hl Hi. unfold await_suspend. apply wp_bind, wp_get, wp_bind, wp_modify, wp_modify. simpl.
  pose proof (number_insert owns _ i _ co_waiting Hi) as N1.
  pose proof (number_insert counted _ i _ co_waiting Hi) as N2. simpl in N1, N2. unfold number in *.
  split; [split; unfold number; simpl; [lia|lia| |]|by intros _ ?; simpl in *; congruence].
  - apply NoDup_app. split_and!; [done| |by apply NoDup_singleton].
    intros x Hx%H4 ->%list_elem_of_singleton. congruence.
  - intros j. rewrite elem_of_app, list_elem_of_singleton, H4. destruct (decide (j = i)) as [->|].
    + rewrite list_lookup_insert_eq by (by eapply lookup_lt_Some). naive_solver.
    + rewrite list_lookup_insert_ne by done. naive_solver.
Qed.

(** At most one coroutine has the lock. *)
Lemma owner_locked s i pc : lock_base s → co s !! i = Some pc → owns pc = true → m_locked s = true.
Proof.
  intros [H1 _ _ _] Hi Ho. pose proof (number_pos _ _ _ _ Hi Ho). unfold number in H1. destruct (m_locked s); [done|lia].
Qed.

Lemma owner_unique s i j pc pc' :
  lock_base s → co s !! i = Some pc → co s !! j = Some pc' → owns pc = true → owns pc' = true → i = j.
Proof.
  intros [H1 _ _ _] Hi Hj Ho Ho'. destruct (decide (i = j)) as [|Hne]; [done|exfalso].
  pose proof (number_insert owns _ i pc co_out Hi) as N1. rewrite Ho in N1. simpl in N1.
  pose proof (number_pos owns (<[i := co_out]> (co s)) j pc') as N2.
  rewrite list_lookup_insert_ne in N2 by done. specialize (N2 Hj Ho'). unfold number in H1. destruct (m_locked s); lia.
Qed.

Lemma wp_lock_release s i pc count :
  lock_base s → co s !! i = Some pc → owns pc = true →
  (count = m_thread_count_in_critical_section s - (if counted pc then 1 else 0))%Z →
  wp pop_and_retry (λ _ s', lock_ok s') (AsyncLock false (m_awaiters s) count (<[i := co_out]> (co s))).
Proof.
  intros Hb Hi Ho ->. apply wp_pop_and_retry. pose proof (owner_locked _ _ _ Hb Hi Ho) as Hl.
  eapply lock_base_move; [done|done|by intros ->|done|by rewrite Hl, Ho|simpl; lia].
Qed.

Lemma wp_co_step s i a : lock_ok s → wp (co_step i a) (λ _ s', lock_ok s') s.
Proof.
  intros [Hb Hr]. unfold co_step. apply wp_bind, wp_get. destruct (co s !! i) as [pc|] eqn:Hi; [|apply wp_block].
  destruct pc as [|sync| | | |], a; try apply wp_block.
  - apply wp_modify. split; [by eapply lock_base_move|]. eapply retry_ok_move; [done..|destruct (m_locked s); auto].
  - apply wp_bind. unfold try_lock. apply wp_bind, wp_get. destruct (m_locked s) eqn:Hl; [by repeat apply wp_ret|].
    apply wp_bind, wp_modify, wp_bind, wp_modify, wp_ret, wp_ret. simpl.
    split; [eapply lock_base_move; [done..|by rewrite Hl|done]|]. eapply retry_ok_move; [done..|by right].
  - unfold lock_attempt. apply wp_bind, wp_get. destruct (m_locked s) eqn:Hl; [by eapply wp_await_suspend|].
    apply wp_bind, wp_modify, wp_modify. simpl. split; [|by intros _ ?].
    destruct sync; (eapply lock_base_move; [done..|by rewrite Hl|done]).
  - apply wp_modify. pose proof (owner_locked _ _ _ Hb Hi eq_refl) as Hl. split; [by eapply lock_base_move; [..|rewrite Hl|]|].
    intros _ ?; simpl in *; congruence.
  - unfold resume_failed. pose proof (owner_locked _ _ _ Hb Hi eq_refl) as Hl. apply wp_bind, wp_get.
    apply wp_bind, wp_assert; [done|]. apply wp_bind, wp_modify, wp_bind, wp_modify. simpl.
    eapply wp_lock_release; [done|done|done|]. simpl. lia.
  - unfold enter_section. pose proof (owner_locked _ _ _ Hb Hi eq_refl) as Hl. apply wp_bind, wp_get.
    pose proof (counted_owns (AsyncLock true [] 0 (<[i := co_holding]> (co s)))) as Hc. unfold number in Hc. simpl in Hc.
    pose proof (number_insert owns _ i _ co_holding Hi) as N1. pose proof (number_insert counted _ i _ co_holding Hi) as N2.
    pose proof (ok_owner _ Hb) as HO. rewrite Hl in HO. pose proof (ok_count _ Hb) as HC. unfold number in *. simpl in *.
    apply wp_bind, wp_assert; [apply bool_decide_eq_true; lia|]. apply wp_bind, wp_modify, wp_modify. simpl.
    split; [eapply lock_base_move; [done..|by rewrite Hl|simpl; lia]|]. intros _ ?; simpl in *; congruence.
  - pose proof (owner_locked _ _ _ Hb Hi eq_refl) as Hl. apply wp_bind. unfold unlock. apply wp_bind, wp_get. rewrite Hl.
    apply wp_bind, wp_modify, wp_bind, wp_assert.
    { pose proof (counted_owns s) as Hc. pose proof (number_pos counted _ _ _ Hi eq_refl) as Hp.
      pose proof (ok_owner _ Hb) as HO. rewrite Hl in HO. pose proof (ok_count _ Hb) as HC. unfold number in *.
      apply bool_decide_eq_true. lia. }
    apply wp_bind, wp_modify, wp_bind, wp_modify, wp_bind. simpl.
    eapply wp_mono; [|by eapply wp_lock_release]. intros ? s' Hs'. by repeat apply wp_ret.
Qed.

Lemma lock_reachable_ok n s : lock_reachable n s → lock_ok s.
Proof.
  apply reachable_inv.
  - intros ? ->. assert (∀ f, f co_out = false → number f (lock_init n) = 0) as Hz.
    { intros f Hf. unfold number, lock_init. simpl. induction n; simpl; [done|]. rewrite filter_cons.
      case_decide; [congruence|done]. }
    split; [|by intros ?]. split; [by rewrite Hz|by rewrite Hz|apply NoDup_nil_2|].
    intros i. simpl. split; [by intros ?%elem_of_nil|]. intros [? _]%lookup_replicate. done.
  - intros s1 s2 Hs (i & a & H). exact (wp_done _ _ _ _ _ (wp_co_step _ i a Hs) H).
Qed.

(** ** [scoped_async_lock]

    Guards of a lock.  [g_lock] says whether the guard refers to the lock,
    [g_owns] whether it has locked it; here the lock is a flag, [true] if locked,
    and a call that would wait is a [Block]. *)
Record guard : Type := Guard { g_lock : bool; g_owns : bool }.

Record guards : Type := Guards { gs_locked : bool; gs_guards : list guard; gs_released : nat }.

Definition load_guard (i : nat) : comp guards guard := λ s,
  match gs_guards s !! i with Some g => Done g s | None => Fault use_after_free end.
Definition store_guard (i : nat) (g : guard) : comp guards unit :=
  modify (λ s, Guards (gs_locked s) (<[i := g]> (gs_guards s)) (gs_released s)).
Definition new_guard (g : guard) : comp guards unit :=
  modify (λ s, Guards (gs_locked s) (gs_guards s ++ [g]) (gs_released s)).
Definition set_flag (b : bool) : comp guards unit := modify (λ s, Guards b (gs_guards s) (gs_released s)).

(** The default constructor, and those from a lock. *)
Definition guard_default : guard := Guard false false.
Definition guard_defer : guard := Guard true false.
Definition guard_adopt : guard := Guard true true.

(** [async_lock::unlock] on the flag. *)
Definition flag_unlock : comp guards (outcome unit) :=
  s ← get_state;
  if gs_locked s then set_flag false;; mret (Ret tt) else mret (Throw operation_not_permitted).

(** The move constructor: a new guard, and an empty one. *)
Definition guard_move (i : nat) : comp guards unit :=
  g ← load_guard i; store_guard i guard_default;; new_guard g.

(** The destructor, which is [noexcept]. *)
Definition guard_destroy (i : nat) : comp guards (outcome unit) :=
  g ← load_guard i;
  store_guard i guard_default;;
  if g_owns g && g_lock g then r ← flag_unlock; mret (noexcept r) else mret (Ret tt).

Definition guard_lock (has_executor : bool) (i : nat) : comp guards (outcome unit) :=
  g ← load_guard i;
  if negb has_executor then mret (Throw invalid_argument)
  else if negb (g_lock g) then mret (Throw operation_not_permitted)
  else if g_owns g then mret (Throw resource_deadlock_would_occur)
  else s ← get_state;
       if gs_locked s then block else set_flag true;; store_guard i (Guard true true);; mret (Ret tt).

Definition guard_try_lock (i : nat) : comp guards (outcome bool) :=
  g ← load_guard i;
  if negb (g_lock g) then mret (Throw operation_not_permitted)
  else if g_owns g then mret (Throw resource_deadlock_would_occur)
  else s ← get_state;
       (if gs_locked s then mret tt else set_flag true);;
       store_guard i (Guard true (negb (gs_locked s)));; mret (Ret (negb (gs_locked s))).

Definition guard_unlock (i : nat) : comp guards (outcome unit) :=
  g ← load_guard i;
  if negb (g_owns g) then mret (Throw operation_not_permitted)
  else if g_lock g then
    r ← flag_unlock;
    match r with
    | Ret _ => store_guard i (Guard true false);; mret (Ret tt)
    | _ => mret r
    end
  else mret (Ret tt).

Definition guard_swap (i j : nat) : comp guards unit :=
  g ← load_guard i; h ← load_guard j; store_guard i h;; store_guard j g.

(** [release]: the lock stays as it is, and is the caller's to unlock. *)
Definition guard_release (i : nat) : comp guards unit :=
  g ← load_guard i;
  store_guard i guard_default;;
  modify (λ s, Guards (gs_locked s) (gs_guards s) (gs_released s + if g_owns g then 1 else 0)).

(** [async_lock::lock], which returns a guard that owns the lock. *)
Definition lock_guarded : comp guards unit :=
  s ← get_state; if gs_locked s then block else set_flag true;; new_guard guard_adopt.

Inductive guard_op : Type :=
  | go_new_default
  | go_new_defer
  | go_lock_guarded
  | go_move (i : nat)
  | go_destroy (i : nat)
  | go_lock (has_executor : bool) (i : nat)
  | go_try_lock (i : nat)
  | go_unlock (i : nat)
  | go_swap (i j : nat)
  | go_release (i : nat).

Definition is_terminate {A} (r : outcome A) : bool := match r with Terminate => true | _ => false end.

(** Whether the program is terminated by it. *)
Definition guard_step (o : guard_op) : comp guards bool :=
  match o with
  | go_new_default => new_guard guard_default;; mret false
  | go_new_defer => new_guard guard_defer;; mret false
  | go_lock_guarded => lock_guarded;; mret false
  | go_move i => guard_move i;; mret false
  | go_destroy i => r ← guard_destroy i; mret (is_terminate r)
  | go_lock e i => r ← guard_lock e i; mret (is_terminate r)
  | go_try_lock i => r ← guard_try_lock i; mret (is_terminate r)
  | go_unlock i => r ← guard_unlock i; mret (is_terminate r)
  | go_swap i j => guard_swap i j;; mret false
  | go_release i => guard_release i;; mret false
  end.

Definition guards_init : guards := Guards false [] 0.
Definition guards_reachable : guards → Prop :=
  reachable (λ s, s = guards_init) (λ s s', ∃ o t, guard_step o s = Done t s').

(** Every guard that owns refers to the lock; the lock is locked exactly if one
    guard owns it, or it was released from one. *)
Definition owners (s : guards) : nat := length (filter (λ g, g_owns g = true) (gs_guards s)).
Record guards_inv (k : nat) (s : guards) : Prop := GuardsInv {
  gs_refers i g : gs_guards s !! i = Some g → g_owns g = true → g_lock g = true;
  gs_exact : owners s + gs_released s + k = if gs_locked s then 1 else 0 }.
(** [k] is the ownership that is in no guard while an operation runs. *)
Definition guards_ok : guards → Prop := guards_inv 0.

Lemma owners_insert s i g g' :
  gs_guards s !! i = Some g →
  length (filter (λ g, g_owns g = true) (<[i := g']> (gs_guards s))) + (if g_owns g then 1 else 0) =
  owners s + (if g_owns g' then 1 else 0).
Proof.
  intros Hi. pose proof (filter_insert_length (λ g, g_owns g = true) _ i g g' Hi) as H. unfold owners.
  destruct (g_owns g) eqn:?, (g_owns g') eqn:?; repeat case_decide; simpl in *; congruence || lia.
Qed.

(** One guard changes, and the lock and the releases with it. *)
Lemma guards_inv_store k k' s i g g' (locked : bool) released :
  guards_inv k s → gs_guards s !! i = Some g → (g_owns g' = true → g_lock g' = true) →
  (if g_owns g' then 1 else 0) + released + (if gs_locked s then 1 else 0) + k' =
  (if locked then 1 else 0) + gs_released s + (if g_owns g then 1 else 0) + k →
  guards_inv k' (Guards locked (<[i := g']> (gs_guards s)) released).
Proof.
  intros [H1 H2] Hi Hg He. pose proof (owners_insert s i g g' Hi) as Ho. split; simpl.
  - intros j h. destruct (decide (j = i)) as [->|].
    + rewrite list_lookup_insert_eq by (by eapply lookup_lt_Some). naive_solver.
    + rewrite list_lookup_insert_ne by done. apply H1.
  - unfold owners at 1. simpl. destruct locked, (gs_locked s), (g_owns g), (g_owns g'); lia.
Qed.

Lemma guards_inv_new k k' s g (locked : bool) :
  guards_inv k s → (g_owns g = true → g_lock g = true) →
  (if g_owns g then 1 else 0) + (if gs_locked s then 1 else 0) + k' = (if locked then 1 else 0) + k →
  guards_inv k' (Guards locked (gs_guards s ++ [g]) (gs_released s)).
Proof.
  intros [H1 H2] Hg He. split; simpl.
  - intros j h [Hj|[_ Hj]]%lookup_app_Some; [by eapply H1|]. by apply list_lookup_singleton_Some in Hj as [_ <-].
  - unfold owners in *. simpl. rewrite filter_app, length_app, filter_cons, filter_nil.
    destruct locked, (gs_locked s), (g_owns g) eqn:Hgo; repeat case_decide; simpl in *; congruence || lia.
Qed.

Lemma owner_flag s i g : guards_ok s → gs_guards s !! i = Some g → g_owns g = true → gs_locked s = true.
Proof.
  intros [_ H2] Hi Hg. pose proof (owners_insert s i g guard_default Hi) as Ho. rewrite Hg in Ho. simpl in Ho.
  destruct (gs_locked s); [done|]. lia.
Qed.

Lemma wp_load_guard s i (Q : guard → guards → Prop) :
  (∀ g, gs_guards s !! i = Some g → Q g s) → is_Some (gs_guards s !! i) → wp (load_guard i) Q s.
Proof. intros HQ [g Hg]. unfold wp, load_guard. rewrite Hg. auto. Qed.

(** The guards an operation refers to. *)
Definition op_refs (o : guard_op) : list nat :=
  match o with
  | go_new_default | go_new_defer | go_lock_guarded => []
  | go_move i | go_destroy i | go_lock _ i | go_try_lock i | go_unlock i | go_release i => [i]
  | go_swap i j => [i; j]
  end.

Lemma wp_guard_move s i : guards_ok s → is_Some (gs_guards s !! i) → wp (guard_move i) (λ _ s', guards_ok s') s.
Proof.
  intros Hs Hi. unfold guard_move. apply wp_bind, wp_load_guard; [|done]. intros g Hg. apply wp_bind, wp_modify, wp_modify.
  set (k := if g_owns g then 1 else 0).
  assert (guards_inv k (Guards (gs_locked s) (<[i := guard_default]> (gs_guards s)) (gs_released s))) as Hk.
  { eapply (guards_inv_store 0 _ s i g); [done|done|done|]. unfold k. simpl. lia. }
  eapply (guards_inv_new k 0 _ g _ Hk); [by apply (gs_refers _ _ Hs i)|]. unfold k. simpl. lia.
Qed.

Lemma wp_guard_destroy s i :
  guards_ok s → is_Some (gs_guards s !! i) → wp (guard_destroy i) (λ r s', r ≠ Terminate ∧ guards_ok s') s.
Proof.
  intros Hs Hi. unfold guard_destroy. apply wp_bind, wp_load_guard; [|done]. intros g Hg. apply wp_bind, wp_modify.
  destruct (g_owns g) eqn:Ho; simpl.
  - rewrite (gs_refers _ _ Hs i g Hg Ho). pose proof (owner_flag s i g Hs Hg Ho) as Hl.
    apply wp_bind. unfold flag_unlock. apply wp_bind, wp_get. simpl. rewrite Hl.
    apply wp_bind, wp_modify, wp_ret, wp_ret. split; [done|].
    eapply (guards_inv_store 0 _ s i g); [done|done|done|]. rewrite Hl, Ho. simpl. lia.
  - apply wp_ret. split; [done|]. eapply (guards_inv_store 0 _ s i g); [done|done|done|]. rewrite Ho. simpl. lia.
Qed.

Lemma wp_guard_lock s e i :
  guards_ok s → is_Some (gs_guards s !! i) → wp (guard_lock e i) (λ r s', r ≠ Terminate ∧ guards_ok s') s.
Proof.
  intros Hs Hi. unfold guard_lock. apply wp_bind, wp_load_guard; [|done]. intros g Hg.
  destruct e; simpl; [|by apply wp_ret]. destruct (g_lock g); simpl; [|by apply wp_ret].
  destruct (g_owns g) eqn:Ho; [by apply wp_ret|]. apply wp_bind, wp_get.
  destruct (gs_locked s) eqn:Hl; [apply wp_block|]. apply wp_bind, wp_modify, wp_bind, wp_modify, wp_ret. split; [done|].
  eapply (guards_inv_store 0 _ s i g); [done|done|done|]. rewrite Hl, Ho. simpl. lia.
Qed.

Lemma wp_guard_try_lock s i :
  guards_ok s → is_Some (gs_guards s !! i) → wp (guard_try_lock i) (λ r s', r ≠ Terminate ∧ guards_ok s') s.
Proof.
  intros Hs Hi. unfold guard_try_lock. apply wp_bind, wp_load_guard; [|done]. intros g Hg.
  destruct (g_lock g); simpl; [|by apply wp_ret].
  destruct (g_owns g) eqn:Ho; [by apply wp_ret|]. apply wp_bind, wp_get, wp_bind.
  destruct (gs_locked s) eqn:Hl; [apply wp_ret|apply wp_modify]; apply wp_bind, wp_modify, wp_ret; (split; [done|]);
    (eapply (guards_inv_store 0 _ s i g); [done|done|done|]); rewrite ?Hl, ?Ho; simpl; lia.
Qed.

Lemma wp_guard_unlock s i :
  guards_ok s → is_Some (gs_guards s !! i) → wp (guard_unlock i) (λ r s', r ≠ Terminate ∧ guards_ok s') s.
Proof.
  intros Hs Hi. unfold guard_unlock. apply wp_bind, wp_load_guard; [|done]. intros g Hg.
  destruct (g_owns g) eqn:Ho; simpl; [|by apply wp_ret]. rewrite (gs_refers _ _ Hs i g Hg Ho).
  pose proof (owner_flag s i g Hs Hg Ho) as Hl. apply wp_bind. unfold flag_unlock. apply wp_bind, wp_get. rewrite Hl.
  apply wp_bind, wp_modify, wp_ret. apply wp_bind, wp_modify, wp_ret. split; [done|].
  eapply (guards_inv_store 0 _ s i g); [done|done|done|]. rewrite Hl, Ho. simpl. lia.
Qed.

Lemma wp_guard_swap s i j :
  guards_ok s → is_Some (gs_guards s !! i) → is_Some (gs_guards s !! j) → wp (guard_swap i j) (λ _ s', guards_ok s') s.
Proof.
  intros Hs Hi Hj. unfold guard_swap. apply wp_bind, wp_load_guard; [|done]. intros g Hg.
  apply wp_bind, wp_load_guard; [|done]. intros h Hh. apply wp_bind, wp_modify, wp_modify. simpl.
  destruct (decide (i = j)) as [->|Hne].
  { simplify_eq. rewrite list_insert_insert_eq, list_insert_id by done. by destruct s. }
  set (k := if g_owns g then 1 else 0). set (k' := if g_owns h then 1 else 0).
  destruct Hs as [H1 H2]. pose proof (owners_insert s i g h Hg) as O1.
  pose proof (owners_insert (Guards (gs_locked s) (<[i := h]> (gs_guards s)) (gs_released s)) j h g) as O2. simpl in O2.
  rewrite list_lookup_insert_ne in O2 by done. specialize (O2 Hh). unfold owners at 1 in O2. simpl in O2. split; simpl.
  - intros l f. destruct (decide (l = j)) as [->|]; [|destruct (decide (l = i)) as [->|]].
    + rewrite list_lookup_insert_eq by (rewrite length_insert; by eapply lookup_lt_Some). intros. simplify_eq. by eapply H1.
    + rewrite list_lookup_insert_ne, list_lookup_insert_eq by (done || by eapply lookup_lt_Some). intros. simplify_eq. by eapply H1.
    + rewrite !list_lookup_insert_ne by done. apply H1.
  - unfold owners at 1. simpl. destruct (g_owns g), (g_owns h); lia.
Qed.

Lemma wp_guard_step s o :
  guards_ok s → Forall (λ i, is_Some (gs_guards s !! i)) (op_refs o) →
  wp (guard_step o) (λ t s', t = false ∧ guards_ok s') s.
Proof.
  assert (∀ {B} (m : comp guards (outcome B)), wp m (λ r s', r ≠ Terminate ∧ guards_ok s') s →
    wp (r ← m; mret (is_terminate r)) (λ t s', t = false ∧ guards_ok s') s) as Hwrap.
  { intros B m Hm. apply wp_bind. eapply wp_mono; [|exact Hm]. intros r s' [Hr Hs']. apply wp_ret. by destruct r. }
  assert (∀ m : comp guards unit, wp m (λ _ s', guards_ok s') s →
    wp (m;; mret false) (λ t s', t = false ∧ guards_ok s') s) as Hvoid.
  { intros m Hm. apply wp_bind. eapply wp_mono; [|exact Hm]. intros r s' Hs'. by apply wp_ret. }
  intros Hs Hr. destruct o as [| | |i|i|e i|i|i|i j|i]; simpl in *; rewrite ?Forall_cons in Hr; destruct_and?;
    first [apply Hvoid | apply Hwrap].
  - apply wp_modify. by apply (guards_inv_new 0).
  - apply wp_modify. by apply (guards_inv_new 0).
  - unfold lock_guarded. apply wp_bind, wp_get. destruct (gs_locked s) eqn:Hl; [apply wp_block|].
    apply wp_bind, wp_modify, wp_modify. apply (guards_inv_new 0 0 s guard_adopt true); [done|done|by rewrite Hl].
  - by apply wp_guard_move.
  - by apply wp_guard_destroy.
  - by apply wp_guard_lock.
  - by apply wp_guard_try_lock.
  - by apply wp_guard_unlock.
  - by apply wp_guard_swap.
  - unfold guard_release. apply wp_bind, wp_load_guard; [|done]. intros g Hg. apply wp_bind, wp_modify, wp_modify.
    eapply (guards_inv_store 0 _ s i g); [done|done|done|]. simpl. destruct (g_owns g); lia.
Qed.

Lemma guards_reachable_ok s : guards_reachable s → guards_ok s.
Proof.
  apply reachable_inv; [intros ? ->; split; [done|reflexivity]|].
  intros s1 s2 Hs (o & t & H).
  destruct (decide (Forall (λ i, is_Some (gs_guards s1 !! i)) (op_refs o))) as [Hr|Hr].
  - by destruct (wp_done _ _ _ _ _ (wp_guard_step _ o Hs Hr) H).
  - exfalso. apply Hr. unfold op_refs.
    assert (∀ i {B} (k : guard → comp guards B) b s', (load_guard i ≫= k) s1 = Done b s' → is_Some (gs_guards s1 !! i)) as Hl.
    { intros i B k b s' (g & ? & Hg & _)%bind_done. unfold load_guard in Hg. by destruct (gs_guards s1 !! i). }
    destruct o as [| | |i|i|e i|i|i|i j|i]; repeat constructor; simpl in H; apply bind_done in H as (? & ? & H & _);
      try (by eapply Hl in H).
    apply bind_done in H as (g & ? & Hg & H). unfold load_guard in Hg. destruct (gs_guards s1 !! i); simplify_eq.
    by eapply Hl in H.
Qed.

(** ** Theorems *)

(** C3: [async_lock] excludes: in every reachable state at most one coroutine is
    between taking the lock and giving it back, the lock is locked exactly then,
    and no assertion fails, those of the debug builds included. *)
Theorem async_lock_excludes n s :
  lock_reachable n s →
  (∀ i j pc pc', co s !! i = Some pc → co s !! j = Some pc' → owns pc = true → owns pc' = true → i = j) ∧
  (m_locked s = true ↔ ∃ i pc, co s !! i = Some pc ∧ owns pc = true) ∧
  ∀ i a f, co_step i a s ≠ Fault f.
Proof.
  intros Hok%lock_reachable_ok. pose proof Hok as [[H1 _ _ _] _]. split_and!.
  - intros i j pc pc'. by apply owner_unique, Hok.
  - split.
    + intros Hl. rewrite Hl in H1. unfold number in H1.
      destruct (filter (λ pc, owns pc = true) (co s)) as [|pc l] eqn:E; [done|].
      assert (pc ∈ filter (λ pc, owns pc = true) (co s)) as [Ho Hin]%list_elem_of_filter by (rewrite E; by left).
      apply list_elem_of_lookup in Hin as [i Hi]. eauto.
    + intros (i & pc & Hi & Ho). by eapply owner_locked; [apply Hok|..].
  - intros i a f. eapply wp_no_fault. by apply wp_co_step.
Qed.

(** A coroutine takes the lock, another has to wait for it. *)
Definition contention : list (nat * lock_action) :=
  [(0, begin_lock); (0, go_on); (0, go_on); (1, begin_lock); (1, go_on)].

Definition run_contention (l : list (nat * lock_action)) (s : async_lock) : async_lock :=
  foldl (λ s '(i, a), match co_step i a s with Done _ s' => s' | _ => s end) s l.

Lemma run_contention_reachable n l s : lock_reachable n s → lock_reachable n (run_contention l s).
Proof.
  revert s. induction l as [|[i a] l IH]; intros s Hs; simpl; [done|]. apply IH.
  destruct (co_step i a s) as [[] s'| |] eqn:E; [|done..]. eapply reachable_step; [done|]. by exists i, a.
Qed.

Lemma async_lock_excludes_witness :
  let s := run_contention contention (lock_init 2) in
  m_awaiters s = [1] ∧
  (∀ i j pc pc', co s !! i = Some pc → co s !! j = Some pc' → owns pc = true → owns pc' = true → i = j) ∧
  (m_locked s = true ↔ ∃ i pc, co s !! i = Some pc ∧ owns pc = true) ∧
  ∀ i a f, co_step i a s ≠ Fault f.
Proof.
  split; [reflexivity|]. apply (async_lock_excludes 2). apply run_contention_reachable. by apply reachable_init.
Defined.

(** No waiter is forgotten: the coroutines that wait are those in the queue,
    and when no coroutine has the lock or is about to try for it, nobody waits. *)
Theorem async_lock_forgets_nobody n s :
  lock_reachable n s →
  (∀ i, co s !! i = Some co_waiting ↔ i ∈ m_awaiters s) ∧ NoDup (m_awaiters s) ∧
  ((∀ i pc, co s !! i = Some pc → owns pc = false ∧ attempts pc = false) → ∀ i, co s !! i ≠ Some co_waiting).
Proof.
  intros [[H1 H2 H3 H4] Hr]%lock_reachable_ok. split_and!; [intros i; by rewrite H4|done|].
  intros Hno i Hi%H4. assert (∀ f, (∀ i pc, co s !! i = Some pc → f pc = false) → number f s = 0) as Hz.
  { intros f Hf. unfold number. destruct (filter (λ pc, f pc = true) (co s)) as [|pc l] eqn:E; [done|].
    assert (pc ∈ filter (λ pc, f pc = true) (co s)) as [Ho Hin]%list_elem_of_filter by (rewrite E; by left).
    apply list_elem_of_lookup in Hin as [k Hk]. specialize (Hf k pc Hk). congruence. }
  rewrite (Hz owns) in H1 by naive_solver. destruct (m_locked s) eqn:Hl; [done|].
  unfold retry_ok in Hr. rewrite (Hz attempts) in Hr by naive_solver.
  assert (m_awaiters s ≠ []) as Hne by (intros Hq; rewrite Hq in Hi; by apply elem_of_nil in Hi).
  specialize (Hr Hne Hl). lia.
Qed.

Lemma async_lock_forgets_nobody_witness :
  let s := run_contention (contention ++ [(0, do_unlock); (1, go_on); (1, go_on); (1, go_on); (1, do_unlock)]) (lock_init 2) in
  co s = [co_out; co_out] ∧
  (∀ i, co s !! i = Some co_waiting ↔ i ∈ m_awaiters s) ∧ NoDup (m_awaiters s) ∧
  ((∀ i pc, co s !! i = Some pc → owns pc = false ∧ attempts pc = false) → ∀ i, co s !! i ≠ Some co_waiting).
Proof.
  split; [reflexivity|]. apply (async_lock_forgets_nobody 2). apply run_contention_reachable. by apply reachable_init.
Defined.

(** Guards keep the lock exactly: whatever is done with guards (moves,
    swaps, locks, unlocks, destruction, [release]) the lock is locked exactly if
    one guard owns it or it was released from one, a destructor never throws,
    and so never unlocks a lock that is not locked. *)
Theorem scoped_lock_exact s :
  guards_reachable s →
  owners s + gs_released s = (if gs_locked s then 1 else 0) ∧
  ∀ i, is_Some (gs_guards s !! i) → ∃ s', guard_destroy i s = Done (Ret tt) s' ∧
    ∀ g, gs_guards s !! i = Some g → gs_locked s' = gs_locked s && negb (g_owns g).
Proof.
  intros Hok%guards_reachable_ok. split; [destruct Hok as [_ H2]; lia|].
  intros i [g Hg]. unfold guard_destroy, mbind, comp_bind, load_guard. rewrite Hg. simpl.
  destruct (g_owns g) eqn:Ho; simpl.
  - rewrite (gs_refers _ _ Hok i g Hg Ho), (owner_flag _ _ _ Hok Hg Ho). simpl. eexists. split; [done|].
    intros h Hh. simplify_eq. by rewrite Ho.
  - eexists. split; [done|]. intros h Hh. simplify_eq. rewrite Ho. by destruct (gs_locked s).
Qed.

Definition guard_example : guards := Guards true [guard_default; guard_adopt] 0.

Lemma scoped_lock_exact_witness :
  owners guard_example + gs_released guard_example = (if gs_locked guard_example then 1 else 0) ∧
  ∀ i, is_Some (gs_guards guard_example !! i) → ∃ s', guard_destroy i guard_example = Done (Ret tt) s' ∧
    ∀ g, gs_guards guard_example !! i = Some g → gs_locked s' = gs_locked guard_example && negb (g_owns g).
Proof.
  apply (scoped_lock_exact guard_example). eapply reachable_step; [eapply reachable_step; [by apply reachable_init|]|].
  - exists go_lock_guarded, false. reflexivity.
  - exists (go_move 0), false. reflexivity.
Defined.
