(* ===== verification/AsyncCondVar.v ===== *)
(** * [async_condition_variable]

    Coroutines that share data under an [async_lock] and wait for each other.
    [await_suspend] gives up the lock and joins the queue of the condition
    variable under its mutex, so no notification falls between the two; but others can
    take the lock and change the data meanwhile. *)

From S2P Require Import Prelude Conc AsyncLock.
From stdpp Require Import options.

(** Where a coroutine is with respect to the condition variable; the flag says
    whether it waits for a predicate.  [cv_check]: at the head of the loop of
    [await] with a predicate.  [cv_unlocking], [cv_pushing]: in [await_suspend], with
    the mutex of the condition variable, before it gives up the lock and before it joins the queue.
    [cv_resuming]: woken, in [resume_on].  [cv_relocking]: in [lock.lock]. *)
Inductive cv_pc : Type :=
  | cv_user
  | cv_check
  | cv_unlocking (p : bool)
  | cv_pushing (p : bool)
  | cv_waiting (p : bool)
  | cv_resuming (p : bool)
  | cv_relocking (p : bool).

#[global] Instance cv_pc_eq_dec : EqDecision cv_pc.
Proof. solve_decision. Defined.

(** [cv_mutex]: the coroutine that has [m_lock]; [cv_retrying]: the one that the [unlock] of
    that coroutine has resumed, on the same thread, and that has not returned.
    [cv_dirty] (a ghost): the coroutine has changed the data, and has not called [notify_all]
    since. *)
Record cond_var (D : Type) : Type := CondVar {
  cv_lock : async_lock;
  cv_mutex : option nat;
  cv_retrying : option nat;
  cv_awaiters : list nat;
  cv_co : list cv_pc;
  cv_dirty : list bool;
  cv_data : D }.
Arguments CondVar {D}.
Arguments cv_lock {D} _.
Arguments cv_mutex {D} _.
Arguments cv_retrying {D} _.
Arguments cv_awaiters {D} _.
Arguments cv_co {D} _.
Arguments cv_dirty {D} _.
Arguments cv_data {D} _.

(** [inline]: the coroutines whose executor resumes them on the thread that posts. *)
Section cond_var.
Context {D : Type} (pred : D → bool) (inline : nat → bool).
Implicit Types s : cond_var D.

Definition cv_init (n : nat) (d : D) : cond_var D :=
  CondVar (lock_init n) None None [] (replicate n cv_user) (replicate n false) d.

Definition on_lock {B} (m : comp async_lock B) : comp (cond_var D) B := λ s,
  match m (cv_lock s) with
  | Done b l => Done b (CondVar l (cv_mutex s) (cv_retrying s) (cv_awaiters s) (cv_co s) (cv_dirty s) (cv_data s))
  | Block => Block
  | Fault f => Fault f
  end.
Definition set_cv (i : nat) (pc : cv_pc) : comp (cond_var D) unit :=
  modify (λ s, CondVar (cv_lock s) (cv_mutex s) (cv_retrying s) (cv_awaiters s) (<[i := pc]> (cv_co s)) (cv_dirty s) (cv_data s)).
Definition set_queue (q : list nat) : comp (cond_var D) unit :=
  modify (λ s, CondVar (cv_lock s) (cv_mutex s) (cv_retrying s) q (cv_co s) (cv_dirty s) (cv_data s)).
Definition set_mutex (m : option nat) : comp (cond_var D) unit :=
  modify (λ s, CondVar (cv_lock s) m (cv_retrying s) (cv_awaiters s) (cv_co s) (cv_dirty s) (cv_data s)).
Definition set_retrying (r : option nat) : comp (cond_var D) unit :=
  modify (λ s, CondVar (cv_lock s) (cv_mutex s) r (cv_awaiters s) (cv_co s) (cv_dirty s) (cv_data s)).
Definition set_dirty (i : nat) (b : bool) : comp (cond_var D) unit :=
  modify (λ s, CondVar (cv_lock s) (cv_mutex s) (cv_retrying s) (cv_awaiters s) (cv_co s) (<[i := b]> (cv_dirty s)) (cv_data s)).

(** Others wait while a coroutine has [m_lock]. *)
Definition mutex_free : comp (cond_var D) unit := s ← get_state; match cv_mutex s with None => mret tt | Some _ => block end.

(** [lock.owns_lock()] of the coroutine's guard. *)
Definition owns_lock (i : nat) s : bool := match co (cv_lock s) !! i with Some co_holding => true | _ => false end.

(** [verify_await_params] *)
Definition verify_await_params (has_executor : bool) (i : nat) s : outcome unit :=
  if negb has_executor then Throw invalid_argument
  else if owns_lock i s then Ret tt else Throw invalid_argument.

(** [cv_awaiter::await_suspend]: the mutex is locked; the lock is given up, and a coroutine that
    waits for it resumed; and this one joins the queue.  An [unlock] that throws fails the
    [co_await]. *)
Definition cv_await_suspend (i : nat) (p : bool) : comp (cond_var D) unit :=
  mutex_free;; set_mutex (Some i);; set_cv i (cv_unlocking p).
Definition cv_unlock (i : nat) (p : bool) : comp (cond_var D) unit :=
  s ← get_state;
  r ← on_lock (unlock i);
  match (r : outcome unit) with
  | Ret _ => set_retrying (head (m_awaiters (cv_lock s)));; set_cv i (cv_pushing p)
  | _ => set_mutex None;; set_cv i cv_user
  end.
Definition cv_push_back (i : nat) (p : bool) : comp (cond_var D) unit :=
  s ← get_state;
  match cv_retrying s with
  | Some _ => block
  | None => set_queue (cv_awaiters s ++ [i]);; set_cv i (cv_waiting p);; set_mutex None
  end.

(** [await], without and with a predicate. *)
Definition cv_await (has_executor : bool) (i : nat) : comp (cond_var D) (outcome unit) :=
  s ← get_state;
  match verify_await_params has_executor i s with
  | Ret _ => cv_await_suspend i false;; mret (Ret tt)
  | r => mret r
  end.
Definition cv_await_pred (has_executor : bool) (i : nat) : comp (cond_var D) (outcome unit) :=
  s ← get_state;
  match verify_await_params has_executor i s with
  | Ret _ => set_cv i cv_check;; mret (Ret tt)
  | r => mret r
  end.

(** The head of the loop of [await_impl] with a predicate. *)
Definition check_predicate (i : nat) : comp (cond_var D) unit :=
  s ← get_state;
  assert (owns_lock i s);;
  if pred (cv_data s) then set_cv i cv_user else cv_await_suspend i true.

(** [cv_awaiter::resume] *)
Definition cv_resume (i : nat) : comp (cond_var D) unit :=
  s ← get_state;
  match cv_co s !! i with
  | Some (cv_waiting p) => set_cv i (cv_resuming p)
  | _ => abort_with bad_resume
  end.

Definition notify_one : comp (cond_var D) unit :=
  mutex_free;;
  s ← get_state;
  match cv_awaiters s with
  | [] => mret tt
  | awaiter :: rest => set_queue rest;; cv_resume awaiter
  end.

Fixpoint resume_list (awaiters : list nat) : comp (cond_var D) unit :=
  match awaiters with [] => mret tt | awaiter :: rest => cv_resume awaiter;; resume_list rest end.

Definition notify_all : comp (cond_var D) unit :=
  mutex_free;; s ← get_state; set_queue [];; resume_list (cv_awaiters s).

(** The rest of [await_impl]: [resume_on] came back or threw, and so did
    [lock.lock]. *)
Definition resume_on_done (i : nat) (p ok : bool) : comp (cond_var D) unit :=
  if ok then set_cv i (cv_relocking p);; on_lock (co_step i begin_lock) else set_cv i cv_user.

Definition relock_done (i : nat) (p : bool) : comp (cond_var D) unit :=
  s ← get_state;
  match co (cv_lock s) !! i with
  | Some co_holding => set_cv i (if p then cv_check else cv_user)
  | Some co_out => set_cv i cv_user
  | _ => block
  end.

(** A coroutine that was resumed by an [unlock] returns to it when it waits again, or has posted
    itself to its executor; if that is an inline one, it goes on first. *)
Definition cv_lock_step (i : nat) (la : lock_action) : comp (cond_var D) unit :=
  on_lock (co_step i la);;
  s ← get_state;
  if decide (cv_retrying s = Some i) then
    if inline i && negb (bool_decide (co (cv_lock s) !! i = Some co_waiting)) then mret tt else set_retrying None
  else mret tt.
Definition cv_return (i : nat) : comp (cond_var D) unit :=
  s ← get_state; if decide (cv_retrying s = Some i) then set_retrying None else block.

(** ** Coroutines that use it as they should

    Data is changed under the lock only; whoever changes it may call [notify_all] before or after
    giving up the lock.  [act_return]: a coroutine that was resumed inline ends, or waits for
    something else. *)
Inductive cv_action : Type :=
  | act_lock (a : lock_action)
  | act_write (d : D)
  | act_notify_one
  | act_notify_all
  | act_await (has_executor : bool)
  | act_await_pred (has_executor : bool)
  | act_check
  | act_unlock
  | act_push_back
  | act_resume_on (ok : bool)
  | act_relocked
  | act_return.

(** Begins and ends of critical sections are the business of the user. *)
Definition lock_action_ok (pc : cv_pc) (a : lock_action) : bool :=
  match pc, a with
  | cv_user, _ => true
  | cv_relocking _, (go_on | executor_fails) => true
  | _, _ => false
  end.

Definition cv_step (i : nat) (a : cv_action) : comp (cond_var D) unit :=
  s ← get_state;
  match cv_co s !! i with
  | Some pc =>
      match a, pc with
      | act_lock la, _ => if lock_action_ok pc la then cv_lock_step i la else block
      | act_write d, cv_user =>
          if owns_lock i s then
            modify (λ s, CondVar (cv_lock s) (cv_mutex s) (cv_retrying s) (cv_awaiters s) (cv_co s) (<[i := true]> (cv_dirty s)) d)
          else block
      | act_notify_one, cv_user => notify_one
      | act_notify_all, cv_user => notify_all;; set_dirty i false
      | act_await e, cv_user => cv_await e i;; mret tt
      | act_await_pred e, cv_user => cv_await_pred e i;; mret tt
      | act_check, cv_check => check_predicate i
      | act_unlock, cv_unlocking p => cv_unlock i p
      | act_push_back, cv_pushing p => cv_push_back i p
      | act_resume_on ok, cv_resuming p => resume_on_done i p ok
      | act_relocked, cv_relocking p => relock_done i p
      | act_return, cv_user => cv_return i
      | _, _ => block
      end
  | _ => block
  end.

Definition cv_reachable (n : nat) (d : D) : cond_var D → Prop :=
  reachable (λ s, s = cv_init n d) (λ s s', ∃ i a, cv_step i a s = Done tt s').

(** ** What a step at the lock does to the others *)

Definition others_kept (i : nat) (l l' : async_lock) : Prop :=
  length (co l') = length (co l) ∧
  ∀ k, k ≠ i → co l' !! k = co l !! k ∨ (co l !! k = Some co_waiting ∧ co l' !! k = Some (co_attempt false)).

(** [i] moves, and the first awaiter is woken or not. *)
Definition moved_on (i : nat) (pc : lock_pc) (l l' : async_lock) : Prop :=
  co l' = <[i := pc]> (co l) ∨
  (∃ j q, m_awaiters l = j :: q ∧ co l' = <[j := co_attempt false]> (<[i := pc]> (co l))).

Lemma moved_on_kept i pc l l' : lock_base l → is_Some (co l !! i) → co l !! i ≠ Some co_waiting → moved_on i pc l l' →
  others_kept i l l' ∧ co l' !! i = Some pc.
Proof.
  intros Hb Hi Hw [Hc|(j & q & Hq & Hc)]; unfold others_kept; rewrite Hc.
  - split; [split; [by rewrite length_insert|]|by apply list_lookup_insert_eq, lookup_lt_is_Some].
    intros k Hk. left. by rewrite list_lookup_insert_ne.
  - assert (co l !! j = Some co_waiting) as Hj by (apply (ok_waiting _ Hb); rewrite Hq; by left).
    assert (j ≠ i) as Hji by congruence.
    split; [split; [by rewrite !length_insert|]|].
    + intros k Hk. destruct (decide (k = j)) as [->|].
      * right. split; [done|]. apply list_lookup_insert_eq. rewrite length_insert. by eapply lookup_lt_Some.
      * left. by rewrite !list_lookup_insert_ne.
    + rewrite list_lookup_insert_ne by done. by apply list_lookup_insert_eq, lookup_lt_is_Some.
Qed.

Lemma pop_and_retry_moved l u l' :
  pop_and_retry l = Done u l' →
  (m_awaiters l = [] ∧ l' = l) ∨ (∃ j q, m_awaiters l = j :: q ∧ co l' = <[j := co_attempt false]> (co l)).
Proof.
  unfold pop_and_retry. rewrite get_state_bind. destruct (m_awaiters l) as [|j q] eqn:Hq; intros H.
  - left. unfold mret, comp_ret in H. by simplify_eq.
  - right. exists j, q. split; [done|]. apply bind_done in H as (? & ? & ->%modify_done & ->%modify_done). done.
Qed.

Lemma co_step_moved i a l l' : co_step i a l = Done tt l' → ∃ pc, moved_on i pc l l' ∨ co l' = co l.
Proof.
  intros H. unfold co_step in H. rewrite get_state_bind in H.
  assert (∀ c pc, pop_and_retry (AsyncLock false (m_awaiters l) c (<[i := pc]> (co l))) = Done tt l' → moved_on i pc l l') as Hpop.
  { intros c pc [[_ ->]|(j & q & Hq & Hc)]%pop_and_retry_moved; [by left|]. right. by exists j, q. }
  destruct (co l !! i) as [[|sync| | | |]|] eqn:Hi, a; try discriminate H.
  - apply modify_done in H as ->. eexists. by left; left.
  - apply bind_done in H as (b & ? & H & Hr). unfold mret, comp_ret in Hr. simplify_eq.
    unfold try_lock in H. rewrite get_state_bind in H. destruct (m_locked l).
    + unfold mret, comp_ret in H. simplify_eq. exists co_out. by right.
    + apply bind_done in H as (? & ? & ->%modify_done & H). apply bind_done in H as (? & ? & ->%modify_done & H).
      unfold mret, comp_ret in H. simplify_eq. eexists. by left; left.
  - unfold lock_attempt, await_suspend in H. rewrite get_state_bind in H.
    destruct (m_locked l); rewrite ?get_state_bind in H; apply bind_done in H as (? & ? & ->%modify_done & ->%modify_done);
      eexists; by left; left.
  - apply modify_done in H as ->. eexists. by left; left.
  - unfold resume_failed in H. rewrite get_state_bind in H. apply bind_done in H as (? & ? & [_ ->]%assert_done & H).
    apply bind_done in H as (? & ? & ->%modify_done & H). apply bind_done in H as (? & ? & ->%modify_done & H).
    eexists. left. by eapply Hpop.
  - unfold enter_section in H. rewrite get_state_bind in H. apply bind_done in H as (? & ? & [_ ->]%assert_done & H).
    apply bind_done in H as (? & ? & ->%modify_done & ->%modify_done). eexists. by left; left.
  - apply bind_done in H as (b & ? & H & Hr). unfold mret, comp_ret in Hr. simplify_eq.
    unfold unlock in H. rewrite get_state_bind in H. destruct (m_locked l); [|unfold mret, comp_ret in H; simplify_eq; exists co_out; by right].
    apply bind_done in H as (? & ? & ->%modify_done & H). apply bind_done in H as (? & ? & [_ ->]%assert_done & H).
    do 2 (apply bind_done in H as (? & ? & ->%modify_done & H)). apply bind_done in H as ([] & ? & Hp & H).
    unfold mret, comp_ret in H. simplify_eq. eexists. left. by eapply Hpop.
Qed.

Lemma co_step_others i a l l' : lock_ok l → co_step i a l = Done tt l' → others_kept i l l'.
Proof.
  intros [Hb _] H. destruct (co_step_moved _ _ _ _ H) as [pc [Hm|Hc]].
  - eapply moved_on_kept; [done|..|exact Hm]; unfold co_step in H; rewrite get_state_bind in H;
      destruct (co l !! i) as [[]|], a; done.
  - unfold others_kept. rewrite Hc. by split; [|left].
Qed.

Lemma wp_co_step_others i a l :
  lock_ok l → wp (co_step i a) (λ _ l', co_step i a l = Done tt l' ∧ others_kept i l l' ∧ lock_ok l') l.
Proof.
  intros Hl. pose proof (wp_co_step l i a Hl) as Hw. unfold wp in *.
  destruct (co_step i a l) as [[] l'| |] eqn:E; [|done..]. split_and!; [done|by eapply co_step_others|done].
Qed.

(** [unlock] by the coroutine that holds the lock. *)
Lemma wp_unlock i l :
  lock_ok l → co l !! i = Some co_holding →
  wp (unlock i) (λ r l', r = Ret tt ∧ lock_ok l' ∧ others_kept i l l' ∧ co l' !! i = Some co_out) l.
Proof.
  intros Hl Hi. pose proof (wp_co_step l i do_unlock Hl) as Hw. unfold wp, co_step in Hw.
  rewrite get_state_bind, Hi in Hw. unfold wp.
  destruct (unlock i l) as [r l'| |] eqn:Hu; [|done|by unfold mbind, comp_bind in Hw; rewrite Hu in Hw].
  rewrite (comp_bind_done _ _ _ _ _ Hu) in Hw. simpl in Hw.
  unfold unlock in Hu. rewrite get_state_bind, (owner_locked _ _ _ (proj1 Hl) Hi eq_refl) in Hu.
  apply bind_done in Hu as (? & ? & ->%modify_done & Hu). apply bind_done in Hu as (? & ? & [_ ->]%assert_done & Hu).
  do 2 (apply bind_done in Hu as (? & ? & ->%modify_done & Hu)). apply bind_done in Hu as ([] & ? & Hp & Hu).
  unfold mret, comp_ret in Hu. simplify_eq. split_and!; [done|exact Hw| |]; simpl in Hp;
    (eapply (moved_on_kept i co_out); [apply Hl|by rewrite Hi|by rewrite Hi|]);
    (destruct (pop_and_retry_moved _ _ _ Hp) as [[_ ->]|(j & q & Hq & Hc)]; [by left|right; by exists j, q]).
Qed.

(** ** The invariant *)

Definition is_waiting (pc : cv_pc) : bool := match pc with cv_waiting _ => true | _ => false end.

(** Whoever changed the data has called [notify_all]. *)
Definition clean s : Prop := ∀ j, cv_dirty s !! j ≠ Some true.

(** What holds of a coroutine, by where it is. *)
Definition pc_ok s (i : nat) (pc : cv_pc) : Prop :=
  match pc with
  | cv_user | cv_relocking _ => True
  | cv_check => co (cv_lock s) !! i = Some co_holding
  | cv_unlocking p => co (cv_lock s) !! i = Some co_holding ∧ cv_mutex s = Some i ∧ (p = true → pred (cv_data s) = false)
  | cv_pushing p => co (cv_lock s) !! i = Some co_out ∧ cv_mutex s = Some i ∧ (p = true → clean s → pred (cv_data s) = false)
  | cv_waiting p => co (cv_lock s) !! i = Some co_out ∧ (p = true → clean s → pred (cv_data s) = false)
  | cv_resuming _ => co (cv_lock s) !! i = Some co_out
  end.

(** [popped]: coroutines that are out of the queue and have still to be resumed. *)
Record cv_inv (popped : list nat) s : Prop := CvInv {
  cv_ok_lock : lock_ok (cv_lock s);
  cv_ok_lengths : length (cv_co s) = length (co (cv_lock s)) ∧ length (cv_dirty s) = length (co (cv_lock s));
  cv_ok_nodup : NoDup (popped ++ cv_awaiters s);
  cv_ok_queue i : i ∈ popped ++ cv_awaiters s ↔ ∃ p, cv_co s !! i = Some (cv_waiting p);
  cv_ok_pc i pc : cv_co s !! i = Some pc → pc_ok s i pc }.
Definition cv_ok s : Prop := cv_inv [] s.

Lemma wp_on_lock {B} (m : comp async_lock B) (Q : B → cond_var D → Prop) s :
  wp m (λ b l, Q b (CondVar l (cv_mutex s) (cv_retrying s) (cv_awaiters s) (cv_co s) (cv_dirty s) (cv_data s))) (cv_lock s) → wp (on_lock m) Q s.
Proof. unfold wp, on_lock. by destruct (m (cv_lock s)). Qed.
Lemma wp_mutex_free (Q : unit → cond_var D → Prop) s : (cv_mutex s = None → Q tt s) → wp mutex_free Q s.
Proof. intros HQ. unfold mutex_free. apply wp_bind, wp_get. destruct (cv_mutex s); [apply wp_block|apply wp_ret; auto]. Qed.

(** What a step of another coroutine may do to one at [pc]. *)
Lemma pc_ok_other s s' k pc :
  pc_ok s k pc →
  (∀ x, x ≠ co_waiting → co (cv_lock s) !! k = Some x → co (cv_lock s') !! k = Some x) →
  (cv_mutex s = Some k → cv_mutex s' = Some k) →
  (cv_data s' = cv_data s ∧ (clean s' → clean s)) ∨ (¬ clean s' ∧ co (cv_lock s) !! k ≠ Some co_holding) →
  pc_ok s' k pc.
Proof. clear inline. intros Hpc Hl Hm [[Hd Hc]|[Hc Hh]]; destruct pc; simpl in *; rewrite ?Hd; naive_solver. Qed.

(** Coroutine [i], which is not in the queue, goes to [pc'], where it does not join it either. *)
Lemma cv_ok_update s s' i pc pc' :
  cv_ok s → cv_co s !! i = Some pc → is_waiting pc = false → is_waiting pc' = false →
  cv_awaiters s' = cv_awaiters s → cv_co s' = <[i := pc']> (cv_co s) → length (cv_dirty s') = length (cv_dirty s) →
  lock_ok (cv_lock s') → others_kept i (cv_lock s) (cv_lock s') →
  (∀ k, k ≠ i → cv_mutex s = Some k → cv_mutex s' = Some k) →
  (∀ k, k ≠ i → (cv_data s' = cv_data s ∧ (clean s' → clean s)) ∨ (¬ clean s' ∧ co (cv_lock s) !! k ≠ Some co_holding)) →
  pc_ok s' i pc' → cv_ok s'.
Proof.
  intros [H1 H2 H3 H4 H5] Hi Hw Hw' Hq Hco Hdl Hl [Hlen Ho] Hm Hd Hpc. pose proof (lookup_lt_Some _ _ _ Hi) as Hlt.
  split; [done|rewrite Hco, length_insert, Hdl, Hlen; done|by rewrite Hq| |].
  - intros k. rewrite Hq, H4, Hco. destruct (decide (k = i)) as [->|].
    + rewrite list_lookup_insert_eq by done. rewrite Hi. split; intros [p ?]; simplify_eq; done.
    + by rewrite list_lookup_insert_ne.
  - intros k x. rewrite Hco. destruct (decide (k = i)) as [->|Hki].
    + rewrite list_lookup_insert_eq by done. by intros [= <-].
    + rewrite list_lookup_insert_ne by done. intros Hx. eapply pc_ok_other; [by apply H5| |by apply Hm|by apply Hd].
      intros y Hy Hk. destruct (Ho k Hki) as [->|[? _]]; congruence.
Qed.

Lemma others_kept_refl i l : others_kept i l l.
Proof. split; [done|]. by left. Qed.
Hint Resolve others_kept_refl : core.

Ltac cv_update Hs :=
  simpl; try done; try (by apply (cv_ok_lock _ _ Hs)); try (intros; congruence); try (by left).

(** Only the place of [i] changes. *)
Lemma cv_ok_set s i pc pc' :
  cv_ok s → cv_co s !! i = Some pc → is_waiting pc = false → is_waiting pc' = false → pc_ok s i pc' →
  cv_ok (CondVar (cv_lock s) (cv_mutex s) (cv_retrying s) (cv_awaiters s) (<[i := pc']> (cv_co s)) (cv_dirty s) (cv_data s)).
Proof.
  intros Hs Hi Hw Hw' Hpc. eapply (cv_ok_update s _ i pc pc'); cv_update Hs.
Qed.

Lemma cv_ok_retrying s r : cv_ok s → cv_ok (CondVar (cv_lock s) (cv_mutex s) r (cv_awaiters s) (cv_co s) (cv_dirty s) (cv_data s)).
Proof. by intros [H1 H2 H3 H4 H5]. Qed.

Lemma wp_cv_await_suspend s i p pc :
  cv_ok s → cv_co s !! i = Some pc → is_waiting pc = false → co (cv_lock s) !! i = Some co_holding →
  (p = true → pred (cv_data s) = false) →
  wp (cv_await_suspend i p) (λ _ s', cv_ok s' ∧ cv_co s' !! i = Some (cv_unlocking p)) s.
Proof.
  intros Hs Hi Hw Hh Hp. apply wp_bind, wp_mutex_free. intros Hm. apply wp_bind, wp_modify, wp_modify.
  split; [|apply list_lookup_insert_eq; by eapply lookup_lt_Some].
  eapply (cv_ok_update s _ i pc (cv_unlocking p)); cv_update Hs.
Qed.

Lemma wp_cv_unlock s i p :
  cv_ok s → cv_co s !! i = Some (cv_unlocking p) → wp (cv_unlock i p) (λ _ s', cv_ok s' ∧ cv_co s' !! i = Some (cv_pushing p)) s.
Proof.
  intros Hs Hi. pose proof (cv_ok_pc _ _ Hs i _ Hi) as (Hh & Hm & Hp). apply wp_bind, wp_get, wp_bind, wp_on_lock.
  eapply wp_mono; [|apply wp_unlock; [apply Hs|done]]. intros r l (-> & Hl & Ho & Hout). apply wp_bind, wp_modify, wp_modify.
  split; [|apply list_lookup_insert_eq; by eapply lookup_lt_Some].
  eapply (cv_ok_update s _ i (cv_unlocking p) (cv_pushing p)); cv_update Hs. auto.
Qed.

(** [i] joins the queue. *)
Lemma wp_cv_push_back s i p :
  cv_ok s → cv_co s !! i = Some (cv_pushing p) → wp (cv_push_back i p) (λ _ s', cv_ok s') s.
Proof.
  clear inline. intros [H1 H2 H3 H4 H5] Hi. pose proof (H5 i _ Hi) as (Hout & Hm & Hp). pose proof (lookup_lt_Some _ _ _ Hi) as Hlt.
  apply wp_bind, wp_get. destruct (cv_retrying s); [apply wp_block|]. apply wp_bind, wp_modify, wp_bind, wp_modify, wp_modify.
  split; simpl; [done|by rewrite length_insert| | |].
  - apply NoDup_app. split_and!; [done| |by apply NoDup_singleton].
    intros x [q Hx]%H4 ->%list_elem_of_singleton. rewrite Hi in Hx. by simplify_eq.
  - intros k. rewrite elem_of_app, list_elem_of_singleton, H4. destruct (decide (k = i)) as [->|].
    + rewrite list_lookup_insert_eq by done. naive_solver.
    + rewrite list_lookup_insert_ne by done. naive_solver.
  - intros k x. destruct (decide (k = i)) as [->|Hki].
    + rewrite list_lookup_insert_eq by done. by intros [= <-].
    + rewrite list_lookup_insert_ne by done. intros Hx. eapply pc_ok_other; [by apply H5|done|simpl; congruence|by left].
Qed.

(** A coroutine that was popped from the queue is resumed. *)
Lemma wp_cv_resume s i q :
  cv_inv (i :: q) s →
  wp (cv_resume i) (λ _ s', cv_inv q s' ∧ cv_awaiters s' = cv_awaiters s ∧ cv_mutex s' = cv_mutex s) s.
Proof.
  clear inline. intros [H1 H2 H3 H4 H5]. simpl in *. apply NoDup_cons in H3 as [Hiq H3].
  destruct (proj1 (H4 i)) as [p Hi]; [by left|]. pose proof (lookup_lt_Some _ _ _ Hi) as Hlt. pose proof (H5 i _ Hi) as [Hout _].
  unfold cv_resume. apply wp_bind, wp_get. rewrite Hi. apply wp_modify. split; [|done].
  split; simpl; [done|by rewrite length_insert|done| |].
  - intros k. destruct (decide (k = i)) as [->|].
    + rewrite list_lookup_insert_eq by done. split; [done|]. by intros [? ?].
    + rewrite list_lookup_insert_ne by done. rewrite <- H4, elem_of_cons. naive_solver.
  - intros k x. destruct (decide (k = i)) as [->|Hki].
    + rewrite list_lookup_insert_eq by done. by intros [= <-].
    + rewrite list_lookup_insert_ne by done. intros Hx. eapply pc_ok_other; [by apply H5|done|done|by left].
Qed.

(** Popping only moves coroutines out of the queue. *)
Lemma cv_inv_pop s q q' :
  cv_ok s → cv_awaiters s = q ++ q' → cv_inv q (CondVar (cv_lock s) (cv_mutex s) (cv_retrying s) q' (cv_co s) (cv_dirty s) (cv_data s)).
Proof.
  intros [H1 H2 H3 H4 H5] Hq. simpl in *. rewrite Hq in H3. setoid_rewrite Hq in H4. by split.
Qed.

Lemma wp_notify_one s : cv_ok s →
  wp notify_one (λ _ s', cv_ok s' ∧ cv_awaiters s' = tail (cv_awaiters s)) s.
Proof.
  intros Hs. unfold notify_one. apply wp_bind, wp_mutex_free. intros _. apply wp_bind, wp_get.
  destruct (cv_awaiters s) as [|i q] eqn:Hq; [apply wp_ret; by rewrite Hq|].
  apply wp_bind, wp_modify. eapply wp_mono; [|apply (wp_cv_resume _ i []); by apply (cv_inv_pop s [i] q)].
  intros ? s' (? & ? & _). done.
Qed.

Lemma wp_resume_list s q :
  cv_inv q s → wp (resume_list q) (λ _ s', cv_ok s' ∧ cv_awaiters s' = cv_awaiters s ∧ cv_mutex s' = cv_mutex s) s.
Proof.
  revert s. induction q as [|i q IH]; intros s Hs; simpl; [by apply wp_ret|].
  apply wp_bind. eapply wp_mono; [|by apply wp_cv_resume]. intros ? s1 (Hs1 & Hq & Hd).
  eapply wp_mono; [|by apply IH]. intros ? s2 (? & ? & ?). split_and!; [done|congruence..].
Qed.

Lemma wp_notify_all s : cv_ok s →
  wp notify_all (λ _ s', cv_ok s' ∧ cv_awaiters s' = [] ∧ cv_mutex s' = None) s.
Proof.
  intros Hs. unfold notify_all. apply wp_bind, wp_mutex_free. intros Hm. apply wp_bind, wp_get, wp_bind, wp_modify.
  eapply wp_mono; [|apply wp_resume_list, (cv_inv_pop s (cv_awaiters s) []); [done|by rewrite app_nil_r]].
  intros ? s' (? & ? & ->). done.
Qed.

(** ** All steps *)

Lemma owns_lock_holding i s : owns_lock i s = true → co (cv_lock s) !! i = Some co_holding.
Proof. unfold owns_lock. by repeat case_match. Qed.

(** Nobody else has the lock, and nobody counts on the data any more. *)
Lemma cv_ok_write s i d :
  cv_ok s → co (cv_lock s) !! i = Some co_holding → cv_co s !! i = Some cv_user →
  cv_ok (CondVar (cv_lock s) (cv_mutex s) (cv_retrying s) (cv_awaiters s) (cv_co s) (<[i := true]> (cv_dirty s)) d).
Proof.
  intros Hs Hh Hu. pose proof Hs as [[H1 _] H2 _ _ _].
  assert (i < length (cv_dirty s)) as Hlt by (destruct H2 as [_ ->]; by eapply lookup_lt_Some).
  eapply (cv_ok_update s _ i cv_user cv_user); cv_update Hs; [by rewrite list_insert_id|by rewrite length_insert|].
  intros k Hk. right. split.
  - intros Hc. apply (Hc i). by apply list_lookup_insert_eq.
  - intros Hk'. destruct Hk. by eapply (owner_unique (cv_lock s)).
Qed.

(** Data is clean again once nobody waits. *)
Lemma cv_ok_clean s i :
  cv_ok s → cv_awaiters s = [] → cv_mutex s = None →
  cv_ok (CondVar (cv_lock s) (cv_mutex s) (cv_retrying s) (cv_awaiters s) (cv_co s) (<[i := false]> (cv_dirty s)) (cv_data s)).
Proof.
  intros [H1 H2 H3 H4 H5] Hq Hm. split; simpl; [done|by rewrite length_insert|done|done|].
  intros k pc Hk. pose proof (H5 k pc Hk) as Hpc. destruct pc as [| |p|p|p|p|p]; simpl in *; try done; [by destruct Hpc as (_ & ? & _); congruence|].
  exfalso. assert (k ∈ [] ++ cv_awaiters s) as Hin by (apply H4; by exists p). rewrite Hq in Hin. by apply elem_of_nil in Hin.
Qed.

Lemma wp_cv_lock_step s i pc la :
  cv_ok s → cv_co s !! i = Some pc → lock_action_ok pc la = true → wp (cv_lock_step i la) (λ _ s', cv_ok s') s.
Proof.
  intros Hs Hi Hok. apply wp_bind, wp_on_lock. eapply wp_mono; [|by apply wp_co_step_others, Hs].
  intros ? l (_ & Hoth & Hl).
  assert (cv_ok (CondVar l (cv_mutex s) (cv_retrying s) (cv_awaiters s) (cv_co s) (cv_dirty s) (cv_data s))) as Hs'.
  { eapply (cv_ok_update s _ i pc pc); cv_update Hs; [by destruct pc|by destruct pc|by rewrite list_insert_id|by destruct pc]. }
  apply wp_bind, wp_get. case_decide; [case_match|]; [by apply wp_ret| |by apply wp_ret]. by apply wp_modify, (cv_ok_retrying _ None Hs').
Qed.

Lemma wp_cv_step s i a : cv_ok s → wp (cv_step i a) (λ _ s', cv_ok s') s.
Proof.
  intros Hs. unfold cv_step. apply wp_bind, wp_get. destruct (cv_co s !! i) as [pc|] eqn:Hi; [|apply wp_block].
  pose proof (cv_ok_pc _ _ Hs i pc Hi) as Hpc.
  destruct a as [la|d| | |e|e| | | |ok| |]; [|destruct pc as [| |p|p|p|p|p]; try apply wp_block..].
  - destruct (lock_action_ok pc la) eqn:Hok; [by eapply wp_cv_lock_step|apply wp_block].
  - destruct (owns_lock i s) eqn:Ho; [|apply wp_block]. apply wp_modify. apply cv_ok_write; [done|by apply owns_lock_holding|done].
  - eapply wp_mono; [|by apply wp_notify_one]. by intros ? s' [? _].
  - apply wp_bind. eapply wp_mono; [|by apply wp_notify_all]. intros ? s' (Hs' & Hq & Hm). apply wp_modify. by apply cv_ok_clean.
  - apply wp_bind. unfold cv_await. apply wp_bind, wp_get. unfold verify_await_params. destruct e; simpl; [|by repeat apply wp_ret].
    destruct (owns_lock i s) eqn:Ho; [|by repeat apply wp_ret]. apply wp_bind.
    eapply wp_mono; [|eapply (wp_cv_await_suspend s i false); [done|done|done|by apply owns_lock_holding|done]].
    intros ? s' [? _]. by repeat apply wp_ret.
  - apply wp_bind. unfold cv_await_pred. apply wp_bind, wp_get. unfold verify_await_params. destruct e; simpl; [|by repeat apply wp_ret].
    destruct (owns_lock i s) eqn:Ho; [|by repeat apply wp_ret]. apply wp_bind, wp_modify, wp_ret, wp_ret.
    eapply cv_ok_set; [done..|]. by apply owns_lock_holding.
  - unfold check_predicate. apply wp_bind, wp_get, wp_bind, wp_assert; [unfold owns_lock; by rewrite Hpc|].
    destruct (pred (cv_data s)) eqn:Hp; [apply wp_modify; by eapply cv_ok_set|].
    eapply wp_mono; [|by eapply (wp_cv_await_suspend s i true)]. by intros ? s' [? _].
  - eapply wp_mono; [|by apply wp_cv_unlock]. by intros ? s' [? _].
  - by apply wp_cv_push_back.
  - unfold resume_on_done. destruct ok; [|apply wp_modify; by eapply cv_ok_set].
    apply wp_bind, wp_modify, wp_on_lock. eapply wp_mono; [|by apply wp_co_step_others, Hs]. intros ? l (_ & Hoth & Hl). simpl in *.
    eapply (cv_ok_update s _ i (cv_resuming p) (cv_relocking p)); cv_update Hs.
  - unfold relock_done. apply wp_bind, wp_get.
    destruct (co (cv_lock s) !! i) as [[]|] eqn:Hl; try apply wp_block; apply wp_modify; [by eapply cv_ok_set|].
    by destruct p; eapply cv_ok_set.
  - unfold cv_return. apply wp_bind, wp_get. case_decide; [|apply wp_block]. by apply wp_modify, cv_ok_retrying.
Qed.

(** The other coroutines are left alone, or woken. *)
Definition woken s s' (k : nat) : Prop :=
  cv_co s' !! k = cv_co s !! k ∨ ∃ p, cv_co s !! k = Some (cv_waiting p) ∧ cv_co s' !! k = Some (cv_resuming p).

Lemma cv_resume_woken i s u s' k : cv_resume i s = Done u s' → woken s s' k.
Proof.
  unfold cv_resume. rewrite get_state_bind. destruct (cv_co s !! i) as [[| | | |p| |]|] eqn:Hi; try discriminate.
  intros ->%modify_done. unfold woken. simpl. destruct (decide (k = i)) as [->|].
  - right. exists p. split; [done|]. apply list_lookup_insert_eq. by eapply lookup_lt_Some.
  - left. by rewrite list_lookup_insert_ne.
Qed.

Lemma resume_list_woken q s u s' k : resume_list q s = Done u s' → woken s s' k.
Proof.
  revert s. induction q as [|i q IH]; intros s; simpl.
  { unfold mret, comp_ret. intros. simplify_eq. by left. }
  intros ([] & s1 & H1 & H2)%bind_done. apply (cv_resume_woken _ _ _ _ k) in H1. apply IH in H2. unfold woken in *.
  destruct H1 as [H1|(p & H1 & H1')], H2 as [H2|(p' & H2 & H2')]; [left|right; exists p'|right; exists p|]; try split; congruence.
Qed.

Lemma on_lock_done {B} (m : comp async_lock B) s b s' :
  on_lock m s = Done b s' → cv_co s' = cv_co s ∧ cv_data s' = cv_data s ∧ m (cv_lock s) = Done b (cv_lock s').
Proof. unfold on_lock. destruct (m (cv_lock s)) eqn:E; intros; by simplify_eq. Qed.
Lemma mutex_free_done s u s' : mutex_free s = Done u s' → s' = s ∧ cv_mutex s = None.
Proof. unfold mutex_free. rewrite get_state_bind. destruct (cv_mutex s) eqn:E; [done|]. by intros [= _ <-]. Qed.
Lemma cv_lock_step_done i la s u s' : cv_lock_step i la s = Done u s' → cv_co s' = cv_co s.
Proof.
  intros ([] & s1 & (Hc & _ & _)%on_lock_done & H)%bind_done. rewrite get_state_bind in H. rewrite <- Hc.
  case_decide; [case_match|]; by injection H as _ <-.
Qed.

Lemma cv_await_suspend_done i p s u s' : cv_await_suspend i p s = Done u s' → cv_co s' = <[i := cv_unlocking p]> (cv_co s).
Proof. intros (? & ? & [-> _]%mutex_free_done & (? & ? & ->%modify_done & ->%modify_done)%bind_done)%bind_done. done. Qed.
Lemma cv_unlock_done i p s u s' : cv_unlock i p s = Done u s' → ∃ pc, cv_co s' = <[i := pc]> (cv_co s).
Proof.
  unfold cv_unlock. rewrite get_state_bind. intros (r & s1 & (Hc & _)%on_lock_done & H)%bind_done. rewrite <- Hc.
  destruct r; apply bind_done in H as (? & ? & ->%modify_done & ->%modify_done); by eexists.
Qed.

Lemma cv_step_woken j a s s' k : k ≠ j → cv_step j a s = Done tt s' → woken s s' k.
Proof.
  intros Hk H. unfold cv_step in H. rewrite get_state_bind in H.
  destruct (cv_co s !! j) as [pc|] eqn:Hj; [|discriminate H].
  assert (∀ pc' s1, cv_co s1 = <[j := pc']> (cv_co s) → woken s s1 k) as Hset.
  { intros pc' s1 Hc. left. rewrite Hc. by apply list_lookup_insert_ne. }
  destruct a as [la|d| | |e|e| | | |ok| |]; [|destruct pc as [| |p|p|p|p|p]; try discriminate H..].
  - destruct (lock_action_ok pc la); [|discriminate H]. apply cv_lock_step_done in H. left. by rewrite H.
  - destruct (owns_lock j s); [|discriminate H]. apply modify_done in H as ->. by left.
  - apply bind_done in H as (? & ? & [-> _]%mutex_free_done & H). rewrite get_state_bind in H.
    destruct (cv_awaiters s); [unfold mret, comp_ret in H; simplify_eq; by left|].
    apply bind_done in H as (? & ? & ->%modify_done & H). by eapply cv_resume_woken in H.
  - apply bind_done in H as (? & s1 & H1 & ->%modify_done). apply bind_done in H1 as (? & ? & [-> _]%mutex_free_done & H1).
    rewrite get_state_bind in H1. apply bind_done in H1 as (? & ? & ->%modify_done & H1). by eapply resume_list_woken in H1.
  - apply bind_done in H as (r & s1 & H & Hr).
    unfold mret, comp_ret in Hr. simplify_eq. unfold cv_await in H. rewrite get_state_bind in H.
    destruct (verify_await_params e j s); [|unfold mret, comp_ret in H; simplify_eq; by left..].
    apply bind_done in H as (? & s2 & H%cv_await_suspend_done & Hr). unfold mret, comp_ret in Hr. simplify_eq. eauto.
  - apply bind_done in H as (r & s1 & H & Hr).
    unfold mret, comp_ret in Hr. simplify_eq. unfold cv_await_pred in H. rewrite get_state_bind in H.
    destruct (verify_await_params e j s); [|unfold mret, comp_ret in H; simplify_eq; by left..].
    apply bind_done in H as (? & s2 & ->%modify_done & Hr). unfold mret, comp_ret in Hr. simplify_eq. by eapply Hset.
  - unfold check_predicate in H. rewrite get_state_bind in H.
    apply bind_done in H as (? & ? & [_ ->]%assert_done & H). destruct (pred (cv_data s)); [apply modify_done in H as ->; by eapply Hset|].
    apply cv_await_suspend_done in H. eauto.
  - apply cv_unlock_done in H as [pc Hc]. eauto.
  - unfold cv_push_back in H. rewrite get_state_bind in H. destruct (cv_retrying s); [discriminate H|].
    apply bind_done in H as (? & ? & ->%modify_done & H). apply bind_done in H as (? & ? & ->%modify_done & ->%modify_done). by eapply Hset.
  - unfold resume_on_done in H. destruct ok.
    + apply bind_done in H as (? & ? & ->%modify_done & [Hc _]%on_lock_done). by eapply Hset.
    + apply modify_done in H as ->. by eapply Hset.
  - unfold relock_done in H. rewrite get_state_bind in H.
    destruct (co (cv_lock s) !! j) as [[]|]; try discriminate H; apply modify_done in H as ->; by eapply Hset.
  - unfold cv_return in H. rewrite get_state_bind in H. case_decide; [|discriminate H]. apply modify_done in H as ->. by left.
Qed.

(** [notify_one] wakes the coroutine that has waited longest. *)
Lemma notify_one_wakes s i q :
  cv_ok s → cv_mutex s = None → cv_awaiters s = i :: q →
  ∃ p s', notify_one s = Done tt s' ∧ cv_awaiters s' = q ∧ cv_co s' = <[i := cv_resuming p]> (cv_co s).
Proof.
  intros Hs Hm Hq. destruct (proj1 (cv_ok_queue _ _ Hs i)) as [p Hi]; [rewrite Hq; by left|].
  unfold notify_one, mutex_free, cv_resume, mbind, comp_bind, get_state. rewrite Hm. simpl. rewrite Hq. simpl. rewrite Hi. by eexists _, _.
Qed.

Lemma cv_reachable_ok n d s : cv_reachable n d s → cv_ok s.
Proof.
  apply reachable_inv.
  - intros ? ->. assert (lock_ok (lock_init n)) as Hl by (eapply (lock_reachable_ok n); by apply reachable_init).
    split; simpl; rewrite ?length_replicate; [done|done|apply NoDup_nil_2|..].
    + intros i. split; [by intros ?%elem_of_nil|]. by intros [p [? _]%lookup_replicate].
    + by intros i pc [-> _]%lookup_replicate.
  - intros s1 s2 Hs (i & a & H). exact (wp_done _ _ _ _ _ (wp_cv_step _ i a Hs) H).
Qed.
End cond_var.
Arguments cv_action : clear implicits.

(** ** Theorems *)

(** C26: no notification is lost, whether the coroutines that change the data notify
    before or after they give up the lock.  When every coroutine that changed the data has
    called [notify_all] since, no coroutine waits, or is about to wait, for a predicate that is
    true; the coroutines that wait are those in the queue, each once, and [notify_one] wakes
    the one that has waited longest; and no step fails an assertion or resumes a
    coroutine that is not suspended. *)
Theorem cond_var_no_lost_wakeup {D} (pred : D → bool) inline n d (s : cond_var D) :
  cv_reachable pred inline n d s →
  (clean s → ∀ i, cv_co s !! i = Some (cv_pushing true) ∨ cv_co s !! i = Some (cv_waiting true) → pred (cv_data s) = false) ∧
  (NoDup (cv_awaiters s) ∧ ∀ i, i ∈ cv_awaiters s ↔ ∃ p, cv_co s !! i = Some (cv_waiting p)) ∧
  (∀ i q, cv_mutex s = None → cv_awaiters s = i :: q →
     ∃ p s', notify_one s = Done tt s' ∧ cv_awaiters s' = q ∧ cv_co s' = <[i := cv_resuming p]> (cv_co s)) ∧
  ∀ i a f, cv_step pred inline i a s ≠ Fault f.
Proof.
  intros Hs%cv_reachable_ok. split_and!.
  - intros Hd i [Hi|Hi]; apply (cv_ok_pc _ _ _ Hs) in Hi; by apply Hi.
  - apply (cv_ok_nodup _ _ _ Hs).
  - apply (cv_ok_queue _ _ _ Hs).
  - intros i q. by apply (notify_one_wakes pred).
  - intros i a f. eapply wp_no_fault. by apply wp_cv_step.
Qed.

(** A consumer waits for the data to be positive, a producer makes it so, and notifies after it has
    given up the lock. *)
Definition cv_example : list (nat * cv_action nat) :=
  [(0, act_lock begin_lock); (0, act_lock go_on); (0, act_lock go_on); (0, act_await_pred true); (0, act_check); (0, act_unlock);
   (0, act_push_back);
   (1, act_lock begin_lock); (1, act_lock go_on); (1, act_lock go_on); (1, act_write 5); (1, act_lock do_unlock); (1, act_notify_all);
   (0, act_resume_on true); (0, act_lock go_on); (0, act_lock go_on); (0, act_relocked)].

Definition positive (d : nat) : bool := match d with 0 => false | S _ => true end.

Definition run_cv (inline : nat → bool) (l : list (nat * cv_action nat)) (s : cond_var nat) : cond_var nat :=
  foldl (λ s '(i, a), match cv_step positive inline i a s with Done _ s' => s' | _ => s end) s l.

Lemma run_cv_reachable inline n d l s : cv_reachable positive inline n d s → cv_reachable positive inline n d (run_cv inline l s).
Proof.
  revert s. induction l as [|[i a] l IH]; intros s Hs; simpl; [done|]. apply IH.
  destruct (cv_step positive inline i a s) as [[] s'| |] eqn:E; [|done..]. eapply reachable_step; [done|]. by exists i, a.
Qed.

Lemma cond_var_no_lost_wakeup_witness :
  let s := run_cv (λ _, false) (take 7 cv_example) (cv_init 2 0) in
  cv_co s !! 0 = Some (cv_waiting true) ∧ positive (cv_data s) = false ∧
  ∃ p s', notify_one s = Done tt s' ∧ cv_awaiters s' = [] ∧ cv_co s' = <[0 := cv_resuming p]> (cv_co s).
Proof.
  cbv zeta. split; [reflexivity|].
  assert (cv_reachable positive (λ _, false) 2 0 (run_cv (λ _, false) (take 7 cv_example) (cv_init 2 0))) as Hr
    by (apply run_cv_reachable; by apply reachable_init).
  destruct (cond_var_no_lost_wakeup positive (λ _, false) 2 0 _ Hr) as (H1 & _ & H2 & _). split.
  - refine (H1 _ 0 (or_intror _)); [by intros [|[|j]]; vm_compute|vm_compute; reflexivity].
  - apply (H2 0 []); vm_compute; reflexivity.
Defined.

(** In a call of [await] with a predicate. *)
Definition in_await_pred (pc : cv_pc) : bool :=
  match pc with cv_check | cv_unlocking true | cv_pushing true | cv_waiting true | cv_resuming true | cv_relocking true => true | _ => false end.

(** A call of [await] with a predicate returns with the lock held and the
    predicate true; the only other way out is an exception of an executor, and
    then the lock is not held. *)
Theorem cond_var_await_postcondition {D} (pred : D → bool) inline n d (s s' : cond_var D) i j a pc :
  cv_reachable pred inline n d s → cv_step pred inline j a s = Done tt s' →
  cv_co s !! i = Some pc → in_await_pred pc = true → cv_co s' !! i = Some cv_user →
  (co (cv_lock s') !! i = Some co_holding ∧ pred (cv_data s') = true) ∨ co (cv_lock s') !! i = Some co_out.
Proof.
  intros Hs%cv_reachable_ok H Hi Hp Hu. destruct (decide (i = j)) as [->|Hne].
  2: { apply (cv_step_woken _ _ _ _ _ _ i Hne) in H as [H|(p & H1 & H2)]; [|congruence]. rewrite H, Hi in Hu. by simplify_eq. }
  pose proof (lookup_lt_Some _ _ _ Hi) as Hlt. unfold cv_step in H. rewrite get_state_bind, Hi in H.
  destruct a as [la|d'| | |e|e| | | |ok| |], pc as [| |[]|[]|[]|[]|[]]; try discriminate H; try discriminate Hp; simpl in H.
  - case_match; [|discriminate H]. apply cv_lock_step_done in H. congruence.
  - left. unfold check_predicate in H. rewrite get_state_bind in H.
    apply bind_done in H as (? & ? & [Ho ->]%assert_done & H). destruct (pred (cv_data s)) eqn:Hpr.
    + apply modify_done in H as ->. simpl. split; [by apply owns_lock_holding|done].
    + apply cv_await_suspend_done in H. rewrite H, list_lookup_insert_eq in Hu by done. congruence.
  - destruct (wp_done _ _ _ _ _ (wp_cv_unlock pred s j true Hs Hi) H) as [_ Hw]. congruence.
  - unfold cv_push_back in H. rewrite get_state_bind in H. destruct (cv_retrying s); [discriminate H|].
    apply bind_done in H as (? & ? & ->%modify_done & H). apply bind_done in H as (? & ? & ->%modify_done & ->%modify_done).
    simpl in Hu. rewrite list_lookup_insert_eq in Hu by done. congruence.
  - right. unfold resume_on_done in H. destruct ok.
    + apply bind_done in H as (? & ? & ->%modify_done & [Hc _]%on_lock_done). simpl in Hc.
      rewrite Hc, list_lookup_insert_eq in Hu by done. congruence.
    + apply modify_done in H as ->. exact (cv_ok_pc _ _ _ Hs j _ Hi).
  - right. unfold relock_done in H. rewrite get_state_bind in H.
    destruct (co (cv_lock s) !! j) as [[]|] eqn:Hl; try discriminate H; apply modify_done in H as ->; simpl in *; [done|].
    rewrite list_lookup_insert_eq in Hu by done. congruence.
Qed.

Lemma cond_var_await_postcondition_witness :
  let s := run_cv (λ _, false) cv_example (cv_init 2 0) in
  let s' := run_cv (λ _, false) (cv_example ++ [(0, act_check)]) (cv_init 2 0) in
  (co (cv_lock s') !! 0 = Some co_holding ∧ positive (cv_data s') = true) ∨ co (cv_lock s') !! 0 = Some co_out.
Proof.
  cbv zeta. apply (cond_var_await_postcondition positive (λ _, false) 2 0 (run_cv (λ _, false) cv_example (cv_init 2 0))
    (run_cv (λ _, false) (cv_example ++ [(0, act_check)]) (cv_init 2 0)) 0 0 act_check cv_check);
    [|vm_compute; reflexivity..]. apply run_cv_reachable. by apply reachable_init.
Defined.

(** Coroutine 1, whose executor is an inline one, waits for the lock when coroutine 0 awaits. *)
Definition cv_inline_example : list (nat * cv_action nat) :=
  [(0, act_lock begin_lock); (0, act_lock go_on); (0, act_lock go_on); (1, act_lock begin_lock); (1, act_lock go_on);
   (0, act_await_pred true); (0, act_check); (0, act_unlock);
   (1, act_lock go_on); (1, act_lock go_on); (1, act_lock go_on); (1, act_write 5)].

(** The mutex of the condition variable is held while the lock is given up, and so while
    a coroutine that waits for the lock is resumed.  If the executor of that coroutine is an inline
    one, it goes on with the lock in this call, and a notification or an [await] of it waits for
    the mutex for ever: the coroutine that holds it goes on only when this one returns. *)
Theorem cond_var_inline_deadlock :
  ∃ s, cv_reachable positive (λ _, true) 2 0 s ∧ cv_mutex s = Some 0 ∧ owns_lock 1 s = true ∧
    (∀ a, cv_step positive (λ _, true) 0 a s = Block) ∧
    cv_step positive (λ _, true) 1 act_notify_one s = Block ∧ cv_step positive (λ _, true) 1 act_notify_all s = Block ∧
    cv_step positive (λ _, true) 1 (act_await true) s = Block.
Proof.
  exists (run_cv (λ _, true) cv_inline_example (cv_init 2 0)).
  split; [apply run_cv_reachable; by apply reachable_init|]. split_and!; try (by vm_compute). intros [[]|d| | |[]|[]| | | |[]| |]; by vm_compute.
Qed.
