(* ===== verification/Socket.v ===== *)
(** * Sockets as the coroutines of [asio_coro_util.hpp] show them

    What a socket gives to the reads is an argument: a list of data and errors, in the
    order in which the reads meet them.  [AsioReadUntil] shows that the
    [async_read_until] of asio does what [read_until] says.  In asio a read that is
    started after one that has reported the end waits until it is cancelled (see
    [AsioReactor]), and then the list has an error for it. *)

From S2P Require Import Prelude Conc Text.
From Stdlib Require Import Ascii.
From stdpp Require Import options.

(** The errors of the sockets. *)
Inductive net_error : Type := err_eof | err_aborted | err_other (code : Z).

Definition throw_error {A} (e : net_error) : outcome A :=
  match e with
  | err_aborted => Throw timed_out
  | err_eof => Throw (system_error 2)
  | err_other code => Throw (system_error code)
  end.

(** What the socket gives to the reads: data, or an error such as the one after
    [cancel] when the timer expires.  After the last of them it is at its end. *)
Inductive arrival : Type := data (d : text) | failed (e : net_error).

(** [async_read_until]; its error is ignored. *)
Fixpoint read_until (delim buf : text) (evs : list arrival) : text * list arrival :=
  match find delim buf with
  | Some _ => (buf, evs)
  | None =>
      match evs with
      | [] => (buf, [])
      | data c :: evs => read_until delim (buf ++ c) evs
      | failed _ :: evs => (buf, evs)
      end
  end.

(** [async_read_some] into a buffer of [n] bytes. *)
Definition read_some (n : nat) (evs : list arrival) : (text + net_error) * list arrival :=
  match evs with
  | [] => (inr err_eof, [])
  | failed e :: evs => (inr e, evs)
  | data c :: evs => (inl (take n c), match drop n c with [] => evs | r => data r :: evs end)
  end.

Definition bytes (evs : list arrival) : text := concat ((λ a, match a with data d => d | failed _ => [] end) <$> evs).
Definition enough (evs : list arrival) : nat := S (length evs + length (bytes evs)).

Lemma bytes_data d evs : bytes (data d :: evs) = d ++ bytes evs.
Proof. done. Qed.
Lemma read_some_shrinks n evs d evs' :
  0 < n → read_some n evs = (inl d, evs') → length evs' + length (bytes evs') < length evs + length (bytes evs).
Proof.
  intros Hn Hr. destruct evs as [|[c|e] evs]; [done| |done]. simpl in Hr. injection Hr as <- <-.
  rewrite bytes_data, length_app. cbn [length]. destruct (drop n c) as [|x r] eqn:E; [lia|].
  assert (length (drop n c) = length c - n) as Hl by apply length_drop. rewrite E in Hl.
  rewrite bytes_data, length_app. cbn [length] in *. lia.
Qed.

Lemma enough_data chunks : enough (data <$> chunks) = S (length chunks + length (concat chunks)).
Proof.
  unfold enough, bytes. rewrite length_fmap. do 3 f_equal. induction chunks as [|c l IH]; [done|]. simpl. by f_equal.
Qed.

Lemma read_until_spec delim buf chunks :
  Forall (λ d, d ≠ []) chunks →
  ∃ buf' chunks', read_until delim buf (data <$> chunks) = (buf', data <$> chunks') ∧
    buf' ++ concat chunks' = buf ++ concat chunks ∧ Forall (λ d, d ≠ []) chunks' ∧
    (find delim (buf ++ concat chunks) ≠ None → find delim buf' ≠ None).
Proof.
  intros Hc. revert buf. induction Hc as [|d ds Hd Hds IH]; intros buf; simpl; destruct (find delim buf) as [i|] eqn:Hf.
  - exists buf, []. rewrite Hf. by split_and!.
  - exists buf, []. by rewrite !app_nil_r, Hf.
  - exists buf, (d :: ds). rewrite Hf. split_and!; [done..|by constructor|done].
  - destruct (IH (buf ++ d)) as (buf' & cs & H1 & H2 & H3 & H4). exists buf', cs. rewrite <- app_assoc in H2, H4. by split_and!.
Qed.

(** Reading up to a delimiter that comes gives all that is before it. *)
Lemma read_until_delim delim k r buf chunks :
  buf ++ concat chunks = k ++ delim ++ r → find delim (k ++ delim ++ r) = Some (length k) → Forall (λ d, d ≠ []) chunks →
  ∃ b chunks', read_until delim buf (data <$> chunks) = (k ++ delim ++ b, data <$> chunks') ∧ r = b ++ concat chunks' ∧
    Forall (λ d, d ≠ []) chunks'.
Proof.
  intros Hb Hf Hc. destruct (read_until_spec delim buf chunks Hc) as (buf' & cs & H1 & H2 & H3 & H4). rewrite Hb in H2, H4.
  rewrite Hf in H4. destruct (find_prefix delim k r buf' (concat cs) H2 Hf) as (b & -> & ->); [by apply H4|]. eauto.
Qed.

