(* ===== verification/AsioReadUntil.v ===== *)
(** * [async_read_until] of asio

    The composed operation that fills a [streambuf] until it has a delimiter.  A search
    starts where the last one stopped, at a partial match that may be completed by the
    next read; reads are limited by the size of the buffer.  It does what [read_until]
    of the sockets says, on the same bytes in smaller pieces. *)

From S2P Require Import Prelude Conc Text Socket AsioStreambuf.
From Stdlib Require Import Ascii.
From stdpp Require Import options.

(** ** [partial_search] *)

(** The inner loop: a full match, a partial one at the end of the range, or none. *)
Fixpoint test_match (first : bool) (s d : text) : option bool :=
  match d, s with
  | [], _ => Some true
  | _ :: _, [] => if first then None else Some false
  | b :: d, a :: s => if decide (a = b) then test_match false s d else None
  end.

Fixpoint partial_search (s d : text) : nat * bool :=
  match s with
  | [] => (0, false)
  | _ :: rest =>
      match test_match true s d with
      | Some b => (0, b)
      | None => let (i, b) := partial_search rest d in (S i, b)
      end
  end.

(** ** [read_until_delim_string_op_v1] *)

Inductive read_error : Type := not_found | stream_error (e : net_error).
(** The arguments of the handler, or the [std::length_error] of [prepare]. *)
Inductive read_result : Type := handler (result_ec : option read_error) (result_n : nat) | length_error.

(** A read into a buffer without space completes at once, without data. *)
Definition async_read_some (n : Z) (evs : list arrival) : (text + net_error) * list arrival :=
  if decide (n = 0%Z) then (inl [], evs) else read_some (Z.to_nat n) evs.

(** The search: the new [search_position_], [None] for [not_found], and
    [bytes_to_read]. *)
Definition look_for (delim : text) (search_position : option nat) : comp streambuf (option nat * Z) :=
  s ← get_state;
  match search_position with
  | None => abort_with out_of_bounds
  | Some p =>
      if decide (sb_size s < p) then abort_with out_of_bounds else
      let (i, full) := partial_search (drop p (sb_data s)) delim in
      if bool_decide (p + i ≠ sb_size s) && full then mret (Some (p + i + length delim), 0%Z)
      else if decide (Z.of_nat (sb_size s) = max_size_ s) then mret (None, 0%Z)
      else mret (Some (if decide (p + i ≠ sb_size s) then p + i else sb_size s), read_size_helper s 65536)
  end.

Definition finish (search_position : option nat) (ec : option net_error) : read_result :=
  match search_position, ec with
  | None, _ => handler (Some not_found) 0
  | Some p, None => handler None p
  | Some _, Some e => handler (Some (stream_error e)) 0
  end.

Section read_until.
Context (grow : nat → nat → nat).

(** The read into a prepared buffer and the [commit] of its completion; nothing when
    [prepare] throws. *)
Definition read_more (bytes_to_read : Z) (evs : list arrival) : comp streambuf (option (option net_error * nat) * list arrival) :=
  ok ← prepare grow bytes_to_read;
  if negb ok then mret (None, evs) else
  match async_read_some bytes_to_read evs with
  | (inr e, evs) => commit 0;; mret (Some (Some e, 0), evs)
  | (inl d, evs) => write_prepared d;; commit (Z.of_nat (length d));; mret (Some (None, length d), evs)
  end.

(** The loop of [read_until_delim_string_op]; its handlers have no cancellation slot, so
    [cancelled()] is always [none] and is left out. *)
Fixpoint read_until_loop (fuel : nat) (delim : text) (start : bool) (search_position : option nat) (evs : list arrival)
    : comp streambuf (read_result * list arrival) :=
  match fuel with
  | 0 => abort_with out_of_fuel
  | S fuel =>
      r ← look_for delim search_position;
      let '(p, bytes_to_read) := r in
      if negb start && bool_decide (bytes_to_read = 0%Z) then mret (finish p None, evs) else
      c ← read_more bytes_to_read evs;
      match c with
      | (None, evs) => mret (length_error, evs)
      | (Some (ec, bytes_transferred), evs) =>
          if bool_decide (ec ≠ None) || bool_decide (bytes_transferred = 0) then mret (finish p ec, evs)
          else read_until_loop fuel delim false p evs
      end
  end.

(** Each read but the last takes a byte, or is the last. *)
Definition async_read_until (delim : text) (evs : list arrival) : comp streambuf (read_result * list arrival) :=
  read_until_loop (S (enough evs)) delim true (Some 0) evs.
End read_until.

(** ** The search *)

Lemma test_match_full first s d : test_match first s d = Some true ↔ starts_with d s = true.
Proof.
  revert first s. induction d as [|b d IH]; intros first [|a s]; simpl; try done; [by destruct first|].
  rewrite andb_true_iff, bool_decide_eq_true. case_decide; [rewrite IH; naive_solver|naive_solver].
Qed.
Lemma test_match_none first s d ext : test_match first s d = None → s ≠ [] ∨ first = false → starts_with d (s ++ ext) = false.
Proof.
  revert first s. induction d as [|b d IH]; intros first [|a s] Hm Hs; simpl in *; try done; [destruct first; naive_solver|].
  case_decide; [|by rewrite bool_decide_false by congruence]. rewrite (IH false s Hm) by auto. apply andb_false_r.
Qed.

Lemma test_match_partial first s d : test_match first s d = Some false → length s < length d.
Proof.
  revert first s. induction d as [|b d IH]; intros first [|a s] Hm; simpl in *; try done; [lia|]. case_decide; [|done].
  apply IH in Hm. lia.
Qed.
Lemma find_short d s : length s < length d → find d s = None.
Proof. intros Hl. apply find_none. intros k k' ->. rewrite !length_app in Hl. lia. Qed.

(** What is found, and where a search may go on when more comes. *)
Lemma partial_search_spec s d i full :
  d ≠ [] → partial_search s d = (i, full) →
  if full then find d s = Some i ∧ i < length s
  else find d s = None ∧ i ≤ length s ∧ ∀ ext, find d (s ++ ext) = (λ k, i + k) <$> find d (drop i s ++ ext).
Proof.
  intros Hd. revert i. induction s as [|a s IH]; intros i Hs; cbn [partial_search] in Hs.
  - simplify_eq. split; [apply find_short; destruct d; [done|simpl; lia]|]. split; [done|]. intros ext. symmetry. apply option_fmap_id.
  - destruct (test_match true (a :: s) d) as [b|] eqn:Ht; simplify_eq.
    + destruct full.
      * apply test_match_full in Ht. cbn [find]. rewrite Ht. simpl. split; [done|lia].
      * split; [apply find_short; by eapply test_match_partial|]. split; [lia|]. intros ext. symmetry. apply option_fmap_id.
    + destruct (partial_search s d) as [j b] eqn:Hp. simplify_eq. specialize (IH j eq_refl).
      assert (∀ ext, find d ((a :: s) ++ ext) = S <$> find d (s ++ ext)) as Hstep.
      { intros ext. apply find_cons. apply (test_match_none true (a :: s)); [done|by left]. }
      destruct full.
      * destruct IH as [Hf Hl]. specialize (Hstep []). rewrite !app_nil_r in Hstep. rewrite Hstep, Hf. simpl. split; [done|lia].
      * destruct IH as (Hn & Hl & Hf). simpl length. split; [|split; [lia|]].
        { specialize (Hstep []). rewrite !app_nil_r in Hstep. by rewrite Hstep, Hn. }
        intros ext. rewrite Hstep, Hf. simpl drop. by rewrite <- option_fmap_compose.
Qed.

(** A search of [data] may start at [p]. *)
Definition resumable (d data : text) (p : nat) : Prop :=
  p ≤ length data ∧ ∀ ext, find d (data ++ ext) = (λ k, p + k) <$> find d (drop p data ++ ext).

Lemma resumable_0 d data : resumable d data 0.
Proof. split; [lia|]. intros ext. symmetry. apply option_fmap_id. Qed.
Lemma resumable_app d data x p : resumable d data p → resumable d (data ++ x) p.
Proof.
  intros [Hp Hf]. split; [rewrite length_app; lia|]. intros ext. rewrite drop_app_le by done. rewrite <- !app_assoc. apply Hf.
Qed.
Lemma resumable_find d data p : resumable d data p → find d data = (λ k, p + k) <$> find d (drop p data).
Proof. intros [_ Hf]. specialize (Hf []). by rewrite !app_nil_r in Hf. Qed.

Lemma look_for_spec s d p :
  streambuf_ok s → d ≠ [] → resumable d (sb_data s) p →
  wp (look_for d (Some p)) (λ r s', s' = s ∧
    ((∃ i, find d (sb_data s) = Some i ∧ r = (Some (i + length d), 0%Z)) ∨
     find d (sb_data s) = None ∧ Z.of_nat (sb_size s) = max_size_ s ∧ r = (None, 0%Z) ∨
     ∃ p', find d (sb_data s) = None ∧ Z.of_nat (sb_size s) ≠ max_size_ s ∧ r = (Some p', read_size_helper s 65536) ∧
       resumable d (sb_data s) p')) s.
Proof.
  intros Hs Hd Hr. pose proof (length_sb_data s Hs) as Hl. pose proof Hr as [Hp Hf]. apply wp_bind, wp_get. rewrite decide_False by lia.
  destruct (partial_search (drop p (sb_data s)) d) as [i full] eqn:Hps. apply partial_search_spec in Hps; [|done].
  rewrite length_drop in Hps. pose proof (resumable_find d _ p Hr) as Hfind. destruct full.
  - destruct Hps as [Hm Hlt]. rewrite bool_decide_true by lia. apply wp_ret. split; [done|]. left. exists (p + i). by rewrite Hfind, Hm.
  - destruct Hps as (Hn & Hle & Hm). rewrite andb_false_r.
    assert (resumable d (sb_data s) (p + i)) as Hr'.
    { split; [lia|]. intros ext. rewrite Hf, Hm, drop_drop, <- option_fmap_compose. apply option_fmap_ext. intros k. simpl. lia. }
    assert (find d (sb_data s) = None) as Hnone by by rewrite Hfind, Hn.
    destruct (decide (Z.of_nat (sb_size s) = max_size_ s)) as [Hm'|Hm']; apply wp_ret; (split; [done|]); right; [by left|]. right.
    eexists. split_and!; [done..|]. case_decide as E; [done|]. by replace (sb_size s) with (p + i) by lia.
Qed.

(** ** Reads *)

(** The same bytes and errors, in smaller pieces. *)
Inductive rechunk : list arrival → list arrival → Prop :=
  | rc_refl evs : rechunk evs evs
  | rc_split a b evs evs' : a ≠ [] → b ≠ [] → rechunk (data b :: evs) evs' → rechunk (data (a ++ b) :: evs) (data a :: evs')
  | rc_skip x evs evs' : rechunk evs evs' → rechunk (x :: evs) (x :: evs').

Definition nonempty_data (evs : list arrival) : Prop := Forall (λ a, a ≠ data []) evs.

(** A read that gets something takes the front of the stream. *)
Lemma read_some_data n evs d evs' :
  n ≠ 0 → nonempty_data evs → read_some n evs = (inl d, evs') →
  d ≠ [] ∧ length d ≤ n ∧ nonempty_data evs' ∧ bytes evs = d ++ bytes evs' ∧ length evs' + length (bytes evs') < length evs + length (bytes evs) ∧
  (∀ e, failed e ∈ evs' → failed e ∈ evs) ∧ (∀ evs2, rechunk evs' evs2 → rechunk evs (data d :: evs2)).
Proof.
  intros Hn Hev Hr. pose proof (read_some_shrinks n evs d evs' ltac:(lia) Hr) as Hlt.
  destruct evs as [|[c|e] evs]; simpl in Hr; [done| |done]. apply Forall_cons in Hev as [Hc Hev].
  assert (c ≠ []) as Hc' by congruence. injection Hr as <- <-.
  assert (take n c ≠ []) as Htake by (destruct n, c; simpl; congruence).
  destruct (drop n c) as [|b r] eqn:Hdrop.
  - assert (take n c = c) as Hall by (rewrite <- (take_drop n c) at 2; by rewrite Hdrop, app_nil_r).
    split_and!; [done|rewrite length_take; lia|done|by rewrite bytes_data, Hall|done|intros e He; by right|].
    intros evs2 H2. rewrite Hall. by constructor.
  - split_and!; [done|rewrite length_take; lia|by constructor| |done| |].
    + rewrite !bytes_data, app_assoc, <- Hdrop, take_drop. done.
    + intros e [?|He]%elem_of_cons; [done|by right].
    + intros evs2 H2. rewrite <- (take_drop n c), Hdrop at 1. by constructor.
Qed.

Lemma read_some_error n evs e evs' :
  nonempty_data evs → read_some n evs = (inr e, evs') →
  bytes evs = bytes evs' ∧ nonempty_data evs' ∧ (failed e ∈ evs ∨ e = err_eof ∧ evs' = []) ∧
  ∀ delim b, find delim b = None → read_until delim b evs = (b, evs').
Proof.
  intros Hev Hr. destruct evs as [|[c|e'] evs]; simpl in Hr; simplify_eq.
  - split_and!; [done..|by right|]. intros delim b Hf. simpl. by rewrite Hf.
  - apply Forall_cons in Hev as [_ Hev]. split_and!; [done..|left; by left|]. intros delim b Hf. simpl. by rewrite Hf.
Qed.

Section correct.
Context (grow : nat → nat → nat) (grow_enough : ∀ c n, n ≤ grow c n).

(** What [async_read_until] is to do with the buffer contents [b] and the arrivals [evs]. *)
Definition read_until_done (delim b : text) (mx : Z) (evs : list arrival) (r : read_result) (b' : text) (evs' : list arrival) : Prop :=
  b' ++ bytes evs' = b ++ bytes evs ∧ nonempty_data evs' ∧
  match r with
  | handler None n =>
      (∃ evs2, rechunk evs evs2 ∧ read_until delim b evs2 = (b', evs')) ∧ ∃ i, find delim b' = Some i ∧ n = i + length delim
  | handler (Some (stream_error e)) n =>
      (∃ evs2, rechunk evs evs2 ∧ read_until delim b evs2 = (b', evs')) ∧ find delim b' = None ∧ n = 0 ∧
      (failed e ∈ evs ∨ e = err_eof ∧ evs' = [])
  | handler (Some not_found) n => find delim b' = None ∧ n = 0 ∧ Z.of_nat (length b') = mx
  | length_error => False
  end.

Lemma read_size_bounds s :
  streambuf_ok s → Z.of_nat (sb_size s) ≠ max_size_ s →
  (0 < read_size_helper s 65536 ≤ 65536)%Z ∧ (Z.of_nat (sb_size s) + read_size_helper s 65536 ≤ max_size_ s)%Z.
Proof. intros [H1 H2 H3 H4 H5 H6] Hne. unfold read_size_helper, sb_size in *. lia. Qed.

(** One more read. *)
Lemma read_until_more delim b mx evs d evs1 r b' evs' :
  find delim b = None → bytes evs = d ++ bytes evs1 → (∀ e, failed e ∈ evs1 → failed e ∈ evs) →
  (∀ evs2, rechunk evs1 evs2 → rechunk evs (data d :: evs2)) →
  read_until_done delim (b ++ d) mx evs1 r b' evs' → read_until_done delim b mx evs r b' evs'.
Proof.
  intros Hf Hb He Hrc (H1 & H2 & H3). split_and!; [by rewrite H1, Hb, app_assoc|done|].
  assert ((∃ evs2, rechunk evs1 evs2 ∧ read_until delim (b ++ d) evs2 = (b', evs')) →
    ∃ evs2, rechunk evs evs2 ∧ read_until delim b evs2 = (b', evs')) as Hru.
  { intros (evs2 & Hr2 & E). exists (data d :: evs2). split; [by apply Hrc|]. simpl. by rewrite Hf. }
  destruct r as [[[|e]|] n|]; naive_solver.
Qed.

Definition read_some_done (n : Z) (evs : list arrival) (s : streambuf) (r : option (option net_error * nat) * list arrival)
    (s' : streambuf) : Prop :=
  streambuf_ok s' ∧ max_size_ s' = max_size_ s ∧
  match r with
  | (None, _) => False
  | (Some (None, k), evs') => ∃ d, async_read_some n evs = (inl d, evs') ∧ length d = k ∧ sb_data s' = sb_data s ++ d
  | (Some (Some e, k), evs') => async_read_some n evs = (inr e, evs') ∧ sb_data s' = sb_data s
  end.

Lemma read_more_spec n evs s :
  streambuf_ok s → (0 ≤ n ≤ 65536)%Z → (Z.of_nat (sb_size s) + n ≤ max_size_ s)%Z →
  wp (read_more grow n evs) (read_some_done n evs s) s.
Proof using grow_enough.
  intros Hs Hn Hm. apply wp_bind. eapply wp_mono; [|apply reserve_spec; [done..|lia]]. intros ok s1 Hok. destruct ok; [|destruct Hok; lia].
  destruct Hok as (Hs1 & Hdata & Hmx & Hroom). simpl negb. cbv iota. unfold read_some_done.
  destruct (async_read_some n evs) as [[d|e] evs1] eqn:Hread.
  - assert (Z.of_nat (length d) ≤ n)%Z as Hd.
    { unfold async_read_some in Hread. case_decide; simplify_eq; [simpl; lia|]. destruct evs as [|[c|]]; simpl in Hread; simplify_eq.
      rewrite length_take. lia. }
    apply wp_write_commit; [done|lia|unfold int_max; lia|]. intros s' Hs' Hd' Hm'. apply wp_ret. split_and!; [done|congruence|].
    exists d. by rewrite Hd', Hdata.
  - apply wp_commit_nothing; [done|]. intros s' Hs' Hd' Hm'. apply wp_ret. split_and!; [done|congruence|done|congruence].
Qed.

(** Without bytes to read it is over, at once or after an empty read. *)
Lemma nothing_to_read (start : bool) res evs s (k : option (option net_error * nat) * list arrival → comp streambuf (read_result * list arrival)) Q :
  streambuf_ok s → (∀ s', streambuf_ok s' → sb_data s' = sb_data s → max_size_ s' = max_size_ s → Q (res, evs) s') →
  k (Some (None, 0), evs) = mret (res, evs) →
  wp (if negb start && bool_decide (0%Z = 0%Z) then mret (res, evs) else c ← read_more grow 0 evs; k c) Q s.
Proof using grow_enough.
  intros Hs HQ Hk. destruct start; simpl negb; [|by apply wp_ret, HQ]. simpl. pose proof Hs as [H1 H2 H3 H4 H5 H6].
  apply wp_bind. eapply wp_mono; [|apply read_more_spec; [done|lia|unfold sb_size; lia]].
  intros [[[[e|] n]|] evs1] s1 (Hs1 & Hm1 & Hr); [naive_solver| |done]. destruct Hr as (d & Hd & <- & Hdata).
  injection Hd as <- <-. rewrite app_nil_r in Hdata. simpl length. rewrite Hk. by apply wp_ret, HQ.
Qed.

Lemma read_until_loop_spec fuel delim (start : bool) p evs s :
  streambuf_ok s → delim ≠ [] → nonempty_data evs → resumable delim (sb_data s) p → length evs + length (bytes evs) < fuel →
  wp (read_until_loop grow fuel delim start (Some p) evs) (λ (r : read_result * list arrival) s', streambuf_ok s' ∧ max_size_ s' = max_size_ s ∧
    read_until_done delim (sb_data s) (max_size_ s) evs r.1 (sb_data s') r.2) s.
Proof using grow_enough.
  revert start p evs s. induction fuel as [|fuel IH]; intros start p evs s Hs Hd Hev Hr Hfuel; [lia|].
  cbn [read_until_loop]. apply wp_bind. eapply wp_mono; [|by apply look_for_spec]. intros r s1 (-> & Hlook).
  pose proof (length_sb_data s Hs) as Hl.
  destruct Hlook as [(i & Hf & ->)|[(Hf & Hm & ->)|(p' & Hf & Hm & -> & Hr')]].
  - eapply nothing_to_read; [done| |done]. intros s' Hs' Hd' Hm'. rewrite Hd', Hm'. do 2 (split; [done|]).
    unfold read_until_done; simpl. do 2 (split; [done|]). split; [|by exists i]. exists evs. split; [constructor|]. destruct evs; simpl; by rewrite Hf.
  - eapply nothing_to_read; [done| |done]. intros s' Hs' Hd' Hm'. rewrite Hd', Hm'. unfold read_until_done; simpl.
    rewrite Hl. by split_and!.
  - destruct (read_size_bounds s Hs Hm) as [Hb1 Hb2]. rewrite (bool_decide_false (read_size_helper s 65536 = 0%Z)), andb_false_r by lia.
    apply wp_bind. eapply wp_mono; [|apply read_more_spec; [done|lia|done]].
    intros [[[[e|] n]|] evs1] s1 (Hs1 & Hm1 & Hread); [| |done]; unfold async_read_some in Hread; rewrite decide_False in Hread by lia.
    + destruct Hread as [Hread Hdata]. apply wp_ret. rewrite Hdata. do 2 (split; [done|]).
      destruct (read_some_error _ _ _ _ Hev Hread) as (H1 & H2 & H3 & H4). split; [by simpl; rewrite H1|]. split; [done|].
      simpl. split; [|by split_and!]. exists evs. split; [constructor|by apply H4].
    + destruct Hread as (d & Hread & <- & Hdata). 
      apply read_some_data in Hread as (D1 & D2 & D3 & D4 & D5 & D6 & D7); [|lia|done].
      rewrite (bool_decide_false (length d = 0)) by (destruct d; [done|simpl; lia]). simpl.
      eapply wp_mono; [|apply (IH false p' evs1 s1); [done..|rewrite Hdata; by apply resumable_app|lia]].
      intros [r evs'] s2 (R1 & R2 & R3). split_and!; [done|congruence|]. rewrite Hdata, Hm1 in R3. by eapply read_until_more.
Qed.

Lemma nonblocking_read_until fuel delim start p evs : nonblocking (read_until_loop grow fuel delim start p evs).
Proof.
  revert start p evs. induction fuel; intros start p evs; cbn [read_until_loop]; unfold look_for, read_more, prepare, commit;
    solve_nonblocking.
Qed.

(** C14: [async_read_until] does what the sockets' [read_until] says, for every stream and
    every buffer: it ends, no access is out of bounds, [prepare] never throws, and no
    byte is lost or read twice.  It succeeds exactly with the position after the first
    delimiter, though a search never looks again at what an earlier one has ruled out;
    an error is one of the stream, without a delimiter in the buffer; and [not_found]
    is only for a buffer of the maximal size without a delimiter. *)
Theorem async_read_until_correct delim evs s :
  streambuf_ok s → delim ≠ [] → nonempty_data evs →
  ∃ r evs' s', async_read_until grow delim evs s = Done (r, evs') s' ∧ streambuf_ok s' ∧ max_size_ s' = max_size_ s ∧
    read_until_done delim (sb_data s) (max_size_ s) evs r (sb_data s') evs'.
Proof using grow_enough.
  intros Hs Hd Hev.
  assert (length evs + length (bytes evs) < S (enough evs)) as Hfuel by (unfold enough; lia).
  pose proof (read_until_loop_spec _ delim true 0 evs s Hs Hd Hev (resumable_0 _ _) Hfuel) as Hw.
  apply wp_total in Hw as ([r evs'] & s' & Hrun & Hq); [|apply nonblocking_read_until]. by exists r, evs', s'.
Qed.
End correct.

(** A header that comes in three pieces, the delimiter across two of them. *)
Definition some_arrivals : list arrival := [data (lit "Host: a"); data (lit "|"); data (lit "||rest")].

Lemma async_read_until_correct_witness :
  ∃ r evs' s', async_read_until (λ _ n, n) (lit "|||") some_arrivals (new_streambuf (λ _ n, n) 100) = Done (r, evs') s' ∧
    r = handler None 10 ∧ sb_data s' = lit "Host: a|||rest".
Proof.
  destruct (async_read_until_correct (λ _ n, n) (λ _ n, Nat.le_refl n) (lit "|||") some_arrivals (new_streambuf (λ _ n, n) 100)
    (proj1 (new_streambuf_ok (λ _ n, n) (λ _ n, Nat.le_refl n) 100 ltac:(by_decide))) ltac:(by_decide) ltac:(unfold nonempty_data; repeat (apply Forall_cons; split; [intros [=]|]); apply Forall_nil; done))
    as (r & evs' & s' & Hrun & _).
  exists r, evs', s'. vm_compute in Hrun. injection Hrun as <- <- <-. split_and!; reflexivity.
Defined.
