(* ===== verification/AsioSocketOps.v ===== *)
(** * Socket operations of asio

    [socket_ops::non_blocking_recv1] and the like, and the [do_perform] functions of the
    operations that the reactor performs.  The system calls are a parameter, the class
    [Os]; the class [OsLaws] states what their manual pages say and the proofs rely on. *)

From S2P Require Import Prelude Conc Text Socket.
From Stdlib Require Import Ascii.
From stdpp Require Import options.

(** ** System calls *)

(** [errno] after a call that failed; [EAGAIN] and [EWOULDBLOCK] are one. *)
Inductive errno : Type := would_block | interrupted | connection_aborted | proto_error | other_errno (code : Z).

(** The queues of a descriptor. *)
Inductive op_type : Type := read_op | write_op | except_op.
#[global] Instance op_type_eq_dec : EqDecision op_type.
Proof. solve_decision. Defined.

(** The system calls on one descriptor: [recv], [send], [accept], [poll] for [POLLOUT]
    without waiting, and [getsockopt] of [SO_ERROR]. *)
Class Os (os : Type) : Type := {
  sys_recv : nat → os → (text + errno) * os;
  sys_send : text → os → (nat + errno) * os;
  sys_accept : os → (nat + errno) * os;
  sys_poll_out : os → bool;
  sys_so_error : os → (Z + errno) * os }.

(** What is documented of them: [received] are the bytes that [recv] has still to give,
    [sent] those that [send] has taken; [signals] bounds the interruptions; [fresh] says
    that there is something for an operation that no call has reported.  A call that
    would block, an end of the stream and a partial [send] leave nothing to report, and
    no call makes something to report. *)
Class OsLaws (os : Type) `{Os os} : Type := {
  received : os → text;
  sent : os → text;
  signals : os → nat;
  fresh : os → op_type → bool;
  recv_ok n x d x' : sys_recv n x = (inl d, x') →
    length d ≤ n ∧ received x = d ++ received x' ∧ sent x' = sent x ∧ (d = [] → n ≠ 0 → fresh x' read_op = false);
  recv_fails n x e x' : sys_recv n x = (inr e, x') →
    received x' = received x ∧ sent x' = sent x ∧
    match e with interrupted => signals x' < signals x | _ => fresh x' read_op = false end;
  send_ok d x n x' : sys_send d x = (inl n, x') →
    n ≤ length d ∧ sent x' = sent x ++ take n d ∧ received x' = received x ∧ (n < length d → fresh x' write_op = false);
  send_fails d x e x' : sys_send d x = (inr e, x') →
    sent x' = sent x ∧ received x' = received x ∧
    match e with interrupted => signals x' < signals x | _ => fresh x' write_op = false end;
  accept_ok x n x' : sys_accept x = (inl n, x') → received x' = received x ∧ sent x' = sent x;
  accept_fails x e x' : sys_accept x = (inr e, x') →
    received x' = received x ∧ sent x' = sent x ∧
    match e with interrupted => signals x' < signals x | would_block => fresh x' read_op = false | _ => True end;
  poll_out_none x : sys_poll_out x = false → fresh x write_op = false;
  so_error_same x r x' : sys_so_error x = (r, x') → received x' = received x ∧ sent x' = sent x;
  fresh_recv n x r x' j : sys_recv n x = (r, x') → fresh x' j = true → fresh x j = true;
  fresh_send d x r x' j : sys_send d x = (r, x') → fresh x' j = true → fresh x j = true;
  fresh_accept x r x' j : sys_accept x = (r, x') → fresh x' j = true → fresh x j = true;
  fresh_so_error x r x' j : sys_so_error x = (r, x') → fresh x' j = true → fresh x j = true }.

(** [error_code(errno, system_category)] *)
Definition error_of (e : errno) : net_error :=
  match e with
  | would_block => err_other 11
  | interrupted => err_other 4
  | connection_aborted => err_other 103
  | proto_error => err_other 71
  | other_errno code => err_other code
  end.

(** The call has to be made again when the descriptor is ready, with the error in [ec]
    all the same; or it has given its result, or an error. *)
Inductive attempt (A : Type) : Type := again (e : errno) | finished (r : A + net_error).
Arguments again {A} e.
Arguments finished {A} r.

Section ops.
Context {os : Type} `{Os os}.

Definition sys {A} (f : os → A * os) : comp os A := λ x, let (a, x) := f x in Done a x.

(** ** [socket_ops] *)

Fixpoint non_blocking_recv1 (fuel : nat) (size : nat) (is_stream : bool) : comp os (attempt text) :=
  match fuel with
  | 0 => abort_with out_of_fuel
  | S fuel =>
      bytes ← sys (sys_recv size);
      match bytes with
      | inl d => mret (finished (if is_stream && bool_decide (d = []) then inr err_eof else inl d))
      | inr interrupted => non_blocking_recv1 fuel size is_stream
      | inr would_block => mret (again would_block)
      | inr e => mret (finished (inr (error_of e)))
      end
  end.

Fixpoint non_blocking_send1 (fuel : nat) (d : text) : comp os (attempt nat) :=
  match fuel with
  | 0 => abort_with out_of_fuel
  | S fuel =>
      bytes ← sys (sys_send d);
      match bytes with
      | inl n => mret (finished (inl n))
      | inr interrupted => non_blocking_send1 fuel d
      | inr would_block => mret (again would_block)
      | inr e => mret (finished (inr (error_of e)))
      end
  end.

Fixpoint non_blocking_accept (fuel : nat) (enable_connection_aborted : bool) : comp os (attempt nat) :=
  match fuel with
  | 0 => abort_with out_of_fuel
  | S fuel =>
      new_socket ← sys sys_accept;
      match new_socket with
      | inl s => mret (finished (inl s))
      | inr interrupted => non_blocking_accept fuel enable_connection_aborted
      | inr would_block => mret (again would_block)
      | inr ((connection_aborted | proto_error) as e) =>
          mret (if enable_connection_aborted then finished (inr (error_of e)) else again e)
      | inr e => mret (finished (inr (error_of e)))
      end
  end.

(** The error of the connection, if there is one. *)
Definition non_blocking_connect : comp os (option (option net_error)) :=
  x ← get_state;
  if sys_poll_out x then
    connect_error ← sys sys_so_error;
    match connect_error with
    | inl code => mret (Some (if decide (code = 0%Z) then None else Some (err_other code)))
    | inr e => mret (Some (Some (error_of e)))
    end
  else mret None.

(** ** Operations of the reactor *)

Inductive op_kind : Type :=
  | recv_op (size : nat) (stream_oriented : bool)
  | send_op (d : text) (stream_oriented : bool)
  | accept_op (enable_connection_aborted : bool)
  | connect_op.

(** [ro_data] is what was put into the buffers, [ro_socket] is [new_socket_]. *)
Record reactor_op : Type := ReactorOp {
  ro_id : nat;
  ro_kind : op_kind;
  cancellation_key_ : option nat;
  ec_ : option net_error;
  bytes_transferred_ : nat;
  ro_data : text;
  ro_socket : option nat }.

Definition new_op (id : nat) (k : op_kind) (key : option nat) : reactor_op := ReactorOp id k key None 0 [] None.

Definition with_ec (e : option net_error) (o : reactor_op) : reactor_op :=
  ReactorOp (ro_id o) (ro_kind o) (cancellation_key_ o) e (bytes_transferred_ o) (ro_data o) (ro_socket o).
Definition with_result (e : option net_error) (n : nat) (d : text) (s : option nat) (o : reactor_op) : reactor_op :=
  ReactorOp (ro_id o) (ro_kind o) (cancellation_key_ o) e n d s.

Inductive status : Type := not_done | done_ | done_and_exhausted.

(** [reactive_socket_recv_op_base::do_perform] *)
Definition perform_recv (fuel size : nat) (stream : bool) (o : reactor_op) : comp os (status * reactor_op) :=
  r ← non_blocking_recv1 fuel size stream;
  mret (match r with
        | again e => (not_done, with_ec (Some (error_of e)) o)
        | finished r =>
            let o := match r with inl d => with_result None (length d) d None o | inr e => with_result (Some e) 0 [] None o end in
            (if stream && bool_decide (bytes_transferred_ o = 0) then done_and_exhausted else done_, o)
        end).

(** [reactive_socket_send_op_base::do_perform] *)
Definition perform_send (fuel : nat) (d : text) (stream : bool) (o : reactor_op) : comp os (status * reactor_op) :=
  r ← non_blocking_send1 fuel d;
  mret (match r with
        | again e => (not_done, with_ec (Some (error_of e)) o)
        | finished r =>
            let o := match r with inl n => with_result None n [] None o | inr e => with_result (Some e) 0 [] None o end in
            (if stream && bool_decide (bytes_transferred_ o < length d) then done_and_exhausted else done_, o)
        end).

(** [reactive_socket_accept_op_base::do_perform] *)
Definition perform_accept (fuel : nat) (enable_connection_aborted : bool) (o : reactor_op) : comp os (status * reactor_op) :=
  r ← non_blocking_accept fuel enable_connection_aborted;
  mret (match r with
        | again e => (not_done, with_ec (Some (error_of e)) o)
        | finished (inl s) => (done_, with_result None 0 [] (Some s) o)
        | finished (inr e) => (done_, with_result (Some e) 0 [] None o)
        end).

(** [reactive_socket_connect_op_base::do_perform] *)
Definition perform_connect (o : reactor_op) : comp os (status * reactor_op) :=
  r ← non_blocking_connect;
  mret (match r with None => (not_done, o) | Some e => (done_, with_ec e o) end).

(** [reactor_op::perform] calls the function of the operation. *)
Definition perform (fuel : nat) (o : reactor_op) : comp os (status * reactor_op) :=
  match ro_kind o with
  | recv_op size stream => perform_recv fuel size stream o
  | send_op d stream => perform_send fuel d stream o
  | accept_op aborted => perform_accept fuel aborted o
  | connect_op => perform_connect o
  end.
End ops.

(** ** What the operations do *)

Definition queue_of (k : op_kind) : op_type := match k with recv_op _ _ | accept_op _ => read_op | send_op _ _ | connect_op => write_op end.

Section correct.
Context {os : Type} `{OsLaws os}.
Implicit Types x : os.

(** Nothing is lost of the stream, and there is nothing new to report. *)
Definition calm (x x' : os) : Prop := ∀ j, fresh x' j = true → fresh x j = true.
#[local] Instance calm_preorder : PreOrder calm.
Proof. split; [by intros x j|]. intros x y z H1 H2 j Hj. auto. Qed.

Lemma wp_sys {A} (f : os → A * os) (Q : A → os → Prop) x : (∀ a x', f x = (a, x') → Q a x') → wp (sys f) Q x.
Proof. intros HQ. unfold wp, sys. destruct (f x) as [a x'] eqn:E. auto. Qed.

Lemma non_blocking_recv1_spec fuel size stream x :
  signals x < fuel → size ≠ 0 →
  wp (non_blocking_recv1 fuel size stream) (λ r x', calm x x' ∧ sent x' = sent x ∧
    match r with
    | again e => e = would_block ∧ received x' = received x ∧ fresh x' read_op = false
    | finished (inl d) => length d ≤ size ∧ received x = d ++ received x' ∧ (stream = true → d ≠ []) 
    | finished (inr e) => received x' = received x ∧ fresh x' read_op = false
    end) x.
Proof.
  revert x. induction fuel as [|fuel IH]; intros x Hf Hs; [lia|]. cbn [non_blocking_recv1]. apply wp_bind, wp_sys. intros r x' Hr.
  pose proof (λ j, fresh_recv _ _ _ _ j Hr) as Hc. destruct r as [d|e].
  - apply recv_ok in Hr as (H1 & H2 & H3 & H4). apply wp_ret. split_and!; [done..|].
    destruct stream; simpl; [|by split_and!]. case_bool_decide as E; [|by split_and!]. subst d. auto.
  - apply recv_fails in Hr as (H1 & H2 & H3). destruct e; try (apply wp_ret; split_and!; done).
    eapply wp_mono; [|apply IH; [lia|done]]. intros a y (C1 & C2 & C3). rewrite <- H1, <- H2. split_and!; [by trans x'|done|done].
Qed.
Lemma non_blocking_send1_spec fuel d x :
  signals x < fuel →
  wp (non_blocking_send1 fuel d) (λ r x', calm x x' ∧ received x' = received x ∧
    match r with
    | again e => e = would_block ∧ sent x' = sent x ∧ fresh x' write_op = false
    | finished (inl n) => n ≤ length d ∧ sent x' = sent x ++ take n d ∧ (n < length d → fresh x' write_op = false)
    | finished (inr e) => sent x' = sent x ∧ fresh x' write_op = false
    end) x.
Proof.
  revert x. induction fuel as [|fuel IH]; intros x Hf; [lia|]. cbn [non_blocking_send1]. apply wp_bind, wp_sys. intros r x' Hr.
  pose proof (λ j, fresh_send _ _ _ _ j Hr) as Hc. destruct r as [n|e].
  - apply send_ok in Hr as (H1 & H2 & H3 & H4). apply wp_ret. by split_and!.
  - apply send_fails in Hr as (H1 & H2 & H3). destruct e; try (apply wp_ret; split_and!; done).
    eapply wp_mono; [|apply IH; lia]. intros a y (C1 & C2 & C3). rewrite <- H1, <- H2. split_and!; [by trans x'|done|done].
Qed.

Lemma non_blocking_accept_spec fuel b x :
  signals x < fuel →
  wp (non_blocking_accept fuel b) (λ r x', calm x x' ∧ received x' = received x ∧ sent x' = sent x ∧
    (r = again would_block → fresh x' read_op = false) ∧
    (∀ e, r = again e → e = would_block ∨ b = false ∧ ∃ y, sys_accept y = (inr e, x') ∧ (e = connection_aborted ∨ e = proto_error))) x.
Proof.
  revert x. induction fuel as [|fuel IH]; intros x Hf; [lia|]. cbn [non_blocking_accept]. apply wp_bind, wp_sys. intros r x' Hr.
  pose proof (λ j, fresh_accept _ _ _ j Hr) as Hc. destruct r as [n|e].
  - apply accept_ok in Hr as (H1 & H2). apply wp_ret. by split_and!.
  - pose proof (accept_fails _ _ _ Hr) as (H1 & H2 & H3).
    assert (∀ r' : attempt nat, (∀ e', r' = again e' → e' = e ∧ (e = would_block ∨ b = false ∧ (e = connection_aborted ∨ e = proto_error))) →
      (e = would_block → fresh x' read_op = false) →
      wp (mret r') (λ (r' : attempt nat) y, calm x y ∧ received y = received x ∧ sent y = sent x ∧ (r' = again would_block → fresh y read_op = false) ∧
        (∀ e, r' = again e → e = would_block ∨ b = false ∧ ∃ z, sys_accept z = (inr e, y) ∧ (e = connection_aborted ∨ e = proto_error))) x') as Hret.
    { intros r' Hr' He. apply wp_ret. split_and!; [done..| |].
      - intros E. destruct (Hr' _ E) as [<- _]. auto.
      - intros e' E. destruct (Hr' _ E) as [-> [|[? ?]]]; [by left|right; eauto]. }
    destruct e; [by apply Hret; naive_solver| |by apply Hret; destruct b; naive_solver..].
    eapply wp_mono; [|apply IH; lia]. intros a y (C1 & C2 & C3 & C4 & C5). rewrite <- H1, <- H2. split_and!; [by trans x'|done..].
Qed.

(** What an operation that is performed takes from the stream, and gives to it. *)
Definition taken (st : status) (o : reactor_op) : text :=
  match st, ro_kind o with not_done, _ => [] | _, recv_op _ _ => ro_data o | _, _ => [] end.
Definition given (st : status) (o : reactor_op) : text :=
  match st, ro_kind o with not_done, _ => [] | _, send_op d _ => take (bytes_transferred_ o) d | _, _ => [] end.

(** No connection is aborted before it is accepted, or the acceptor wants to know. *)
Definition accepts_cleanly (k : op_kind) : Prop :=
  match k with
  | accept_op false => ∀ x e x', sys_accept x = (inr e, x') → e ≠ connection_aborted ∧ e ≠ proto_error
  | _ => True
  end.
Definition reads_something (k : op_kind) : Prop := match k with recv_op n _ => n ≠ 0 | _ => True end.

Record performed (o : reactor_op) (x : os) (st : status) (o' : reactor_op) (x' : os) : Prop := {
  pf_calm : calm x x';
  pf_same : ro_id o' = ro_id o ∧ ro_kind o' = ro_kind o ∧ cancellation_key_ o' = cancellation_key_ o;
  pf_received : received x = taken st o' ++ received x';
  pf_sent : sent x' = sent x ++ given st o';
  pf_quiet : accepts_cleanly (ro_kind o) → st ≠ done_ → fresh x' (queue_of (ro_kind o)) = false }.

Lemma taken_finished st o : st ≠ not_done → taken st o = match ro_kind o with recv_op _ _ => ro_data o | _ => [] end.
Proof. by destruct st. Qed.
Lemma given_finished st o : st ≠ not_done → given st o = match ro_kind o with send_op d _ => take (bytes_transferred_ o) d | _ => [] end.
Proof. by destruct st. Qed.
Lemma status_finished (b : bool) : (if b then done_and_exhausted else done_) ≠ not_done.
Proof. by destruct b. Qed.

(** Takes the fields of [performed] for an operation whose result is known. *)
Ltac solve_performed Hk :=
  apply wp_ret; split; simpl;
  rewrite ?taken_finished, ?given_finished by (apply status_finished || done); unfold taken, given; simpl; rewrite ?Hk; simpl;
  rewrite ?app_nil_r; try done.

Lemma perform_recv_spec fuel size stream o x :
  ro_kind o = recv_op size stream → signals x < fuel → size ≠ 0 →
  wp (perform_recv fuel size stream o) (λ r x', performed o x r.1 r.2 x') x.
Proof.
  intros Hk Hf Hr. apply wp_bind. eapply wp_mono; [|by apply non_blocking_recv1_spec].
  intros [e|[d|e]] x' (H1 & H2 & H3); solve_performed Hk.
  - by destruct H3 as (_ & -> & _).
  - by destruct H3 as (_ & _ & ->).
  - by destruct H3 as (_ & -> & _).
  - intros _ Hst. destruct stream; [|done]. destruct H3 as (_ & _ & Hd). destruct d; [by destruct Hd|done].
  - by destruct H3 as (-> & _).
  - by destruct H3 as (_ & ->).
Qed.

Lemma perform_send_spec fuel d stream o x :
  ro_kind o = send_op d stream → signals x < fuel → wp (perform_send fuel d stream o) (λ r x', performed o x r.1 r.2 x') x.
Proof.
  intros Hk Hf. apply wp_bind. eapply wp_mono; [|by apply non_blocking_send1_spec].
  intros [e|[n|e]] x' (H1 & H2 & H3); solve_performed Hk.
  - by destruct H3 as (_ & -> & _).
  - by destruct H3 as (_ & _ & ->).
  - by destruct H3 as (_ & -> & _).
  - intros _ Hst. destruct H3 as (_ & _ & Hd). destruct stream; [|done]. case_bool_decide; [auto|done].
  - by destruct H3 as (-> & _).
  - by destruct H3 as (_ & ->).
Qed.

Lemma perform_accept_spec fuel b o x :
  ro_kind o = accept_op b → signals x < fuel → wp (perform_accept fuel b o) (λ r x', performed o x r.1 r.2 x') x.
Proof.
  intros Hk Hf. apply wp_bind. eapply wp_mono; [|by apply non_blocking_accept_spec].
  intros [e|[n|e]] x' (H1 & H2 & H3 & H4 & H5); solve_performed Hk.
  intros Hc _. destruct (H5 e eq_refl) as [->|[-> (y & Hy & He)]]; [auto|]. destruct (Hc _ _ _ Hy), He; done.
Qed.

Lemma perform_connect_spec o x : ro_kind o = connect_op → wp (perform_connect o) (λ r x', performed o x r.1 r.2 x') x.
Proof.
  intros Hk. apply wp_bind, wp_bind, wp_get. destruct (sys_poll_out x) eqn:Hp.
  - apply wp_bind, wp_sys. intros r x' Hr. pose proof (λ j, fresh_so_error _ _ _ j Hr) as Hc. apply so_error_same in Hr as [H1 H2].
    destruct r as [code|e]; apply wp_ret; solve_performed Hk; congruence.
  - apply wp_ret. solve_performed Hk. intros _ _. by apply poll_out_none.
Qed.

Lemma nonblocking_sys {A} (f : os → A * os) : nonblocking (sys f).
Proof. intros x. unfold sys. by destruct (f x). Qed.
#[local] Hint Resolve nonblocking_sys : ccpp.
Lemma nonblocking_recv1 fuel size b : nonblocking (non_blocking_recv1 (os := os) fuel size b).
Proof. induction fuel; simpl; solve_nonblocking. Qed.
Lemma nonblocking_send1 fuel d : nonblocking (non_blocking_send1 (os := os) fuel d).
Proof. induction fuel; simpl; solve_nonblocking. Qed.
Lemma nonblocking_accept fuel b : nonblocking (non_blocking_accept (os := os) fuel b).
Proof. induction fuel; simpl; solve_nonblocking. Qed.
#[local] Hint Resolve nonblocking_recv1 nonblocking_send1 nonblocking_accept : ccpp.
Lemma nonblocking_perform fuel o : nonblocking (perform fuel o).
Proof. unfold perform, perform_recv, perform_send, perform_accept, perform_connect, non_blocking_connect. solve_nonblocking. Qed.

Lemma perform_spec fuel o x :
  signals x < fuel → reads_something (ro_kind o) → wp (perform fuel o) (λ r x', performed o x r.1 r.2 x') x.
Proof.
  intros Hf Hr. unfold perform. destruct (ro_kind o) as [size stream|d stream|b|] eqn:Hk.
  - by apply perform_recv_spec.
  - by apply perform_send_spec.
  - by apply perform_accept_spec.
  - by apply perform_connect_spec.
Qed.
End correct.
