(* ===== verification/AsioReactor.v ===== *)
(** * The reactor of asio

    [epoll_reactor] for one socket: the queues of operations of its [descriptor_state],
    the speculative attempt of [start_op], the edge-triggered notifications of [epoll],
    and [perform_io], which the scheduler calls for a descriptor that is ready.  Each
    descriptor has a mutex of its own, and an operation on it does not touch others. *)

From S2P Require Import Prelude Conc Text Socket AsioSocketOps.
From stdpp Require Import options.

(** ** Events *)

Definition EPOLLIN : Z := 1.
Definition EPOLLPRI : Z := 2.
Definition EPOLLOUT : Z := 4.
Definition EPOLLERR : Z := 8.
Definition EPOLLHUP : Z := 16.
Definition EPOLLET : Z := 2147483648.

(** [flag] of [perform_io] *)
Definition flag (j : op_type) : Z := match j with read_op => EPOLLIN | write_op => EPOLLOUT | except_op => EPOLLPRI end.
Definition always_reported : Z := Z.lor EPOLLERR EPOLLHUP.
Definition has_event (events mask : Z) : bool := negb (bool_decide (Z.land events mask = 0%Z)).

(** What [epoll] sees on the socket when it looks. *)
Class Epoll (os : Type) : Type := { poll_events : os → Z }.

(** ** [descriptor_state] *)

Record per_type (A : Type) : Type := PerType { on_read : A; on_write : A; on_except : A }.
Arguments PerType {A} on_read on_write on_except.
Arguments on_read {A} p.
Arguments on_write {A} p.
Arguments on_except {A} p.

Definition at_type {A} (j : op_type) (p : per_type A) : A :=
  match j with read_op => on_read p | write_op => on_write p | except_op => on_except p end.
Definition set_type {A} (j : op_type) (a : A) (p : per_type A) : per_type A :=
  match j with
  | read_op => PerType a (on_write p) (on_except p)
  | write_op => PerType (on_read p) a (on_except p)
  | except_op => PerType (on_read p) (on_write p) a
  end.

Record descriptor_state : Type := DescriptorState {
  registered_events_ : Z;
  op_queue_ : per_type (list reactor_op);
  try_speculative_ : per_type bool;
  shutdown_ : bool }.

Definition set_registered (n : Z) (d : descriptor_state) : descriptor_state :=
  DescriptorState n (op_queue_ d) (try_speculative_ d) (shutdown_ d).
Definition set_queue (j : op_type) (q : list reactor_op) (d : descriptor_state) : descriptor_state :=
  DescriptorState (registered_events_ d) (set_type j q (op_queue_ d)) (try_speculative_ d) (shutdown_ d).
Definition set_speculative (j : op_type) (b : bool) (d : descriptor_state) : descriptor_state :=
  DescriptorState (registered_events_ d) (op_queue_ d) (set_type j b (try_speculative_ d)) (shutdown_ d).

(** The socket in the kernel, the events that [epoll] is to report, and whether it has
    the socket on its list. *)
Record kernel (os : Type) : Type := Kernel { k_os : os; k_interest : Z; k_edge : bool }.
Arguments Kernel {os} k_os k_interest k_edge.
Arguments k_os {os} k.
Arguments k_interest {os} k.
Arguments k_edge {os} k.

(** The operations that were started; those that were performed, with what they took
    and gave; those that were handed to the scheduler, or destroyed; and all bytes that
    have arrived. *)
Record history : Type := History {
  h_started : list reactor_op;
  h_log : list reactor_op;
  h_posted : list reactor_op;
  h_destroyed : list reactor_op;
  h_arrived : text }.

(** Whether the socket refers to its [descriptor_state]; the state; [task_result_] while
    the descriptor is in the queue of the scheduler; and the calls of [perform_io] that
    threads are about to make. *)
Record reactor (os : Type) : Type := Reactor {
  r_data : bool;
  r_desc : descriptor_state;
  r_kernel : kernel os;
  r_task_result : option Z;
  r_performing : list Z;
  r_hist : history }.
Arguments Reactor {os} r_data r_desc r_kernel r_task_result r_performing r_hist.
Arguments r_data {os} r.
Arguments r_desc {os} r.
Arguments r_kernel {os} r.
Arguments r_task_result {os} r.
Arguments r_performing {os} r.
Arguments r_hist {os} r.

Section reactor.
Context {os : Type} `{Os os, Epoll os} (patience : os → nat).
Notation comp := (comp (reactor os)).

Definition set_desc (f : descriptor_state → descriptor_state) : comp unit :=
  modify (λ r, Reactor (r_data r) (f (r_desc r)) (r_kernel r) (r_task_result r) (r_performing r) (r_hist r)).
Definition set_data (b : bool) : comp unit :=
  modify (λ r, Reactor b (r_desc r) (r_kernel r) (r_task_result r) (r_performing r) (r_hist r)).
Definition set_kernel (f : kernel os → kernel os) : comp unit :=
  modify (λ r, Reactor (r_data r) (r_desc r) (f (r_kernel r)) (r_task_result r) (r_performing r) (r_hist r)).
Definition set_hist (f : history → history) : comp unit :=
  modify (λ r, Reactor (r_data r) (r_desc r) (r_kernel r) (r_task_result r) (r_performing r) (f (r_hist r))).

Definition log_op (o : reactor_op) : comp unit :=
  set_hist (λ h, History (h_started h) (h_log h ++ [o]) (h_posted h) (h_destroyed h) (h_arrived h)).
(** [post_immediate_completion], [post_deferred_completions] *)
Definition post (ops : list reactor_op) : comp unit :=
  set_hist (λ h, History (h_started h) (h_log h) (h_posted h ++ ops) (h_destroyed h) (h_arrived h)).
Definition destroy (ops : list reactor_op) : comp unit :=
  set_hist (λ h, History (h_started h) (h_log h) (h_posted h) (h_destroyed h ++ ops) (h_arrived h)).
Definition note_started (o : reactor_op) : comp unit :=
  set_hist (λ h, History (h_started h ++ [o]) (h_log h) (h_posted h) (h_destroyed h) (h_arrived h)).

(** [reactor_op::perform]; what is performed to its end is noted. *)
Definition perform_op (o : reactor_op) : comp (status * reactor_op) := λ r,
  let k := r_kernel r in
  match perform (S (patience (k_os k))) o (k_os k) with
  | Done (st, o) x =>
      (set_kernel (λ k, Kernel x (k_interest k) (k_edge k));;
       match st with not_done => mret tt | _ => log_op o end;;
       mret (st, o)) r
  | Block => Block
  | Fault f => Fault f
  end.

(** ** [epoll_ctl] *)

Definition seen (events : Z) (x : os) : bool := has_event (poll_events x) (Z.lor events always_reported).
Definition epoll_add (events : Z) : comp unit := set_kernel (λ k, Kernel (k_os k) events (seen events (k_os k))).
Definition epoll_mod (events : Z) : comp unit := set_kernel (λ k, Kernel (k_os k) events (k_edge k || seen events (k_os k))).
(** [EPOLL_CTL_DEL], or the last [close] of the descriptor *)
Definition epoll_del : comp unit := set_kernel (λ k, Kernel (k_os k) 0 false).

(** ** [epoll_reactor] *)

Definition all_events : Z := Z.lor EPOLLIN (Z.lor EPOLLERR (Z.lor EPOLLHUP (Z.lor EPOLLPRI EPOLLET))).

(** The result of [EPOLL_CTL_ADD]: success, [EPERM], or another error. *)
Inductive add_result : Type := add_ok | add_eperm | add_error.

Definition register_descriptor (result : add_result) : comp bool :=
  set_data true;;
  set_desc (λ d, DescriptorState (registered_events_ d) (op_queue_ d) (PerType true true true) false);;
  set_desc (set_registered all_events);;
  match result with
  | add_ok => epoll_add all_events;; mret true
  | add_eperm => set_desc (set_registered 0);; mret true
  | add_error => mret false
  end.

(** The operation cannot be done in [start_op] and has to be queued, unless there is an
    error: the operation is queued if [false] is returned. *)
Definition register_out (mod_result : option Z) (o : reactor_op) : comp bool :=
  r ← get_state;
  if has_event (registered_events_ (r_desc r)) EPOLLOUT then mret false
  else match mod_result with
  | None =>
      let events := Z.lor (registered_events_ (r_desc r)) EPOLLOUT in
      epoll_mod events;;
      set_desc (λ d, set_registered (Z.lor (registered_events_ d) events) d);; mret false
  | Some e => post [with_ec (Some (err_other e)) o];; mret true
  end.

(** The branch that may try at once; [mod_result] is the error of [EPOLL_CTL_MOD], if there is one. *)
Definition start_speculative (j : op_type) (o : reactor_op) (mod_result : option Z) : comp (bool * reactor_op) :=
  r ← get_state;
  s ← (if at_type j (try_speculative_ (r_desc r)) then perform_op o else mret (not_done, o));
  match s with
  | (not_done, o) =>
      if decide (registered_events_ (r_desc r) = 0%Z) then
        post [with_ec (Some (err_other 95)) o];; mret (true, o)
      else if decide (j = write_op) then finished ← register_out mod_result o; mret (finished, o)
      else mret (false, o)
  | (st, o) =>
      match st with
      | done_and_exhausted =>
          if decide (registered_events_ (r_desc r) = 0%Z) then mret tt else set_desc (set_speculative j false)
      | _ => mret tt
      end;;
      post [o];; mret (true, o)
  end.

(** The branch that may not: the descriptor is registered again, so that it is
    reported if it is ready already. *)
Definition start_deferred (j : op_type) (o : reactor_op) : comp bool :=
  r ← get_state;
  if decide (registered_events_ (r_desc r) = 0%Z) then post [with_ec (Some (err_other 95)) o];; mret true
  else
    (if decide (j = write_op) then set_desc (λ d, set_registered (Z.lor (registered_events_ d) EPOLLOUT) d) else mret tt);;
    r ← get_state;
    epoll_mod (registered_events_ (r_desc r));; mret false.

Definition push_op (j : op_type) (o : reactor_op) : comp unit :=
  set_desc (λ d, set_queue j (at_type j (op_queue_ d) ++ [o]) d).

Definition start_op (j : op_type) (o : reactor_op) (allow_speculative : bool) (mod_result : option Z) : comp unit :=
  r ← get_state;
  let d := r_desc r in
  if negb (r_data r) then post [with_ec (Some (err_other 9)) o]
  else if shutdown_ d then post [o]
  else if decide (at_type j (op_queue_ d) = []) then
    if allow_speculative && (bool_decide (j ≠ read_op) || bool_decide (on_except (op_queue_ d) = [])) then
      s ← start_speculative j o mod_result;
      if s.1 : bool then mret tt else push_op j s.2
    else
      finished ← start_deferred j o;
      if finished : bool then mret tt else push_op j o
  else push_op j o.

(** The operations of all queues, which are emptied, with [operation_aborted]. *)
Definition abort_op (o : reactor_op) : reactor_op := with_ec (Some err_aborted) o.
Definition abort_all : comp (list reactor_op) :=
  r ← get_state;
  let q := op_queue_ (r_desc r) in
  set_desc (λ d, DescriptorState (registered_events_ d) (PerType [] [] []) (try_speculative_ d) (shutdown_ d));;
  mret (abort_op <$> (on_read q ++ on_write q ++ on_except q)).

Definition cancel_ops : comp unit :=
  r ← get_state;
  if r_data r then ops ← abort_all; post ops else mret tt.

Definition cancel_ops_by_key (j : op_type) (key : nat) : comp unit :=
  r ← get_state;
  if r_data r then
    let q := at_type j (op_queue_ (r_desc r)) in
    set_desc (set_queue j (filter (λ o, cancellation_key_ o ≠ Some key) q));;
    post (abort_op <$> filter (λ o, cancellation_key_ o = Some key) q)
  else mret tt.

Definition deregister_descriptor (closing : bool) : comp unit :=
  r ← get_state;
  if negb (r_data r) then mret tt
  else if shutdown_ (r_desc r) then set_data false
  else
    (if closing then mret tt
     else if decide (registered_events_ (r_desc r) = 0%Z) then mret tt else epoll_del);;
    ops ← abort_all;
    set_desc (λ d, DescriptorState (registered_events_ d) (op_queue_ d) (try_speculative_ d) true);;
    post ops.

Definition cleanup_descriptor_data : comp unit := set_data false.

(** ** [perform_io] *)

(** The loop on one queue: what is left of it, what is complete, and whether the
    descriptor is exhausted. *)
Fixpoint perform_queue (q : list reactor_op) : comp (list reactor_op * list reactor_op * bool) :=
  match q with
  | [] => mret ([], [], false)
  | o :: q =>
      s ← perform_op o;
      match s with
      | (not_done, o) => mret (o :: q, [], false)
      | (done_, o) => r ← perform_queue q; mret (r.1.1, o :: r.1.2, r.2)
      | (done_and_exhausted, o) => mret (q, [o], true)
      end
  end.

Definition perform_type (events : Z) (j : op_type) : comp (list reactor_op) :=
  if has_event events (Z.lor (flag j) always_reported) then
    r ← get_state;
    set_desc (set_speculative j true);;
    p ← perform_queue (at_type j (op_queue_ (r_desc r)));
    set_desc (set_queue j p.1.1);;
    (if p.2 : bool then set_desc (set_speculative j false) else mret tt);;
    mret p.1.2
  else mret [].

(** The first operation is completed at once, the others are posted; both are handed to
    the scheduler in this order. *)
Definition perform_io (events : Z) : comp unit :=
  e ← perform_type events except_op;
  w ← perform_type events write_op;
  d ← perform_type events read_op;
  post (e ++ w ++ d).

(** ** [run] *)

(** An event for the descriptor, in the loop of [run] over what [epoll_wait] gave. *)
Definition dispatch_event (events : Z) : comp unit :=
  modify (λ r, Reactor (r_data r) (r_desc r) (r_kernel r)
                 (Some (match r_task_result r with None => events | Some t => Z.lor t events end)) (r_performing r) (r_hist r)).

(** [epoll_wait] reports a descriptor on the list of [epoll] if it sees something. *)
Definition wait_events : comp unit :=
  r ← get_state;
  let k := r_kernel r in
  let events := Z.land (poll_events (k_os k)) (Z.lor (k_interest k) always_reported) in
  set_kernel (λ k, Kernel (k_os k) (k_interest k) false);;
  if k_edge k && bool_decide (events ≠ 0%Z) then dispatch_event events else mret tt.

(** The scheduler takes the descriptor from its queue. *)
Definition dequeue : comp unit :=
  modify (λ r, Reactor (r_data r) (r_desc r) (r_kernel r) None (option_list (r_task_result r) ++ r_performing r) (r_hist r)).

(** A thread calls [perform_io]. *)
Definition do_complete (t : nat) : comp unit :=
  r ← get_state;
  match r_performing r !! t with
  | Some events =>
      modify (λ r, Reactor (r_data r) (r_desc r) (r_kernel r) (r_task_result r) (delete t (r_performing r)) (r_hist r));;
      perform_io events
  | None => block
  end.

(** [shutdown] *)
Definition shutdown : comp unit :=
  r ← get_state;
  let q := op_queue_ (r_desc r) in
  set_desc (λ d, DescriptorState (registered_events_ d) (PerType [] [] []) (try_speculative_ d) true);;
  destroy (on_read q ++ on_write q ++ on_except q).

(** ** [reactive_socket_service_base] *)

(** What the system calls of a start give: the error of [ioctl] with [FIONBIO], of
    [EPOLL_CTL_MOD], and the result of [connect]. *)
Inductive connect_result : Type := connected | in_progress | connect_failed (e : net_error).
Record start_env : Type := StartEnv {
  ioctl_error : option net_error;
  mod_error : option Z;
  connects : connect_result;
  peer_is_open : bool }.

(** The operation is handed to the reactor when the socket is set to non-blocking. *)
Definition do_start_op (j : op_type) (o : reactor_op) (allow_speculative noop : bool) (env : start_env) : comp unit :=
  if noop then post [o]
  else match ioctl_error env with
  | None => start_op j o allow_speculative (mod_error env)
  | Some e => post [with_ec (Some e) o]
  end.

(** [already_open] is number one of [misc_errors]. *)
Definition do_start_accept_op (o : reactor_op) (env : start_env) : comp unit :=
  if peer_is_open env then post [with_ec (Some (err_other 1)) o] else do_start_op read_op o true false env.

Definition do_start_connect_op (o : reactor_op) (env : start_env) : comp unit :=
  match ioctl_error env with
  | Some e => post [with_ec (Some e) o]
  | None =>
      match connects env with
      | connected => post [with_ec None o]
      | in_progress => start_op write_op (with_ec None o) false (mod_error env)
      | connect_failed e => post [with_ec (Some e) o]
      end
  end.

(** [async_receive], [async_send], [async_accept] and [async_connect]: nothing is to be
    done for an empty buffer of a stream. *)
Definition async_start (o : reactor_op) (env : start_env) : comp unit :=
  note_started o;;
  match ro_kind o with
  | recv_op size stream => do_start_op read_op o true (stream && bool_decide (size = 0)) env
  | send_op d stream => do_start_op write_op o true (stream && bool_decide (d = [])) env
  | accept_op _ => do_start_accept_op o env
  | connect_op => do_start_connect_op o env
  end.

(** [close]; the kernel forgets the descriptor. *)
Definition service_close (possible_dup : bool) : comp unit :=
  deregister_descriptor (negb possible_dup);; epoll_del;; cleanup_descriptor_data.

(** [do_open] with a new socket; the history of the stream starts anew. *)
Definition do_open (x : os) (result : add_result) : comp unit :=
  set_kernel (λ _, Kernel x 0 false);;
  set_hist (λ h, History (h_started h) [] (h_posted h) (h_destroyed h) []);;
  register_descriptor result;; mret tt.

(** Something happens to the socket: the bytes [d] arrive, for example; [edge] says
    whether [epoll] notices. *)
Definition happens (x : os) (d : text) (edge : bool) : comp unit :=
  set_kernel (λ k, Kernel x (k_interest k) (k_edge k || edge));;
  set_hist (λ h, History (h_started h) (h_log h) (h_posted h) (h_destroyed h) (h_arrived h ++ d)).
End reactor.

(** ** Steps *)

Class EpollLaws (os : Type) `{OsLaws os, Epoll os} : Prop := {
  poll_fresh (x : os) j : fresh x j = true → has_event (poll_events x) (Z.lor (flag j) always_reported) = true }.

Definition ids (l : list reactor_op) : list nat := ro_id <$> l.

Section steps.
Context {os : Type} {Sys : Os os} {Laws : OsLaws os} {Ep : Epoll os} {EpLaws : EpollLaws os}.
Implicit Types (r : reactor os) (x : os).

(** A socket is a stream, and [recv] is not called with an empty buffer. *)
Definition good_op (o : reactor_op) : Prop :=
  accepts_cleanly (os := os) (ro_kind o) ∧ match ro_kind o with recv_op _ stream => stream = true | _ => True end.

Inductive reactor_step r : reactor os → Prop :=
  | step_start o env r' : ro_id o ∉ ids (h_started (r_hist r)) → good_op o → async_start signals o env r = Done tt r' → reactor_step r r'
  | step_cancel r' : cancel_ops r = Done tt r' → reactor_step r r'
  | step_cancel_key j key r' : cancel_ops_by_key j key r = Done tt r' → reactor_step r r'
  | step_close dup r' : r_data r = true → service_close dup r = Done tt r' → reactor_step r r'
  | step_open x result r' : r_data r = false → received x = [] → sent x = [] → result ≠ add_error →
      do_open x result r = Done tt r' → reactor_step r r'
  | step_wait r' : r_task_result r = None → wait_events r = Done tt r' → reactor_step r r'
  | step_dequeue r' : dequeue r = Done tt r' → reactor_step r r'
  | step_complete t r' : do_complete signals t r = Done tt r' → reactor_step r r'
  | step_happens x d edge r' :
      received x = received (k_os (r_kernel r)) ++ d → sent x = sent (k_os (r_kernel r)) →
      (∀ j, fresh x j = true → fresh (k_os (r_kernel r)) j = false → has_event (k_interest (r_kernel r)) (flag j) = true → edge = true) →
      happens x d edge r = Done tt r' → reactor_step r r'
  | step_shutdown r' : shutdown r = Done tt r' → reactor_step r r'.

(** Before the first socket is opened. *)
Definition new_reactor (x : os) : reactor os :=
  Reactor false (DescriptorState 0 (PerType [] [] []) (PerType true true true) true) (Kernel x 0 false) None [] (History [] [] [] [] []).
Definition reactor_init r : Prop := ∃ x, received x = [] ∧ sent x = [] ∧ r = new_reactor x.
Definition reactor_reachable : reactor os → Prop := reachable reactor_init reactor_step.

(** ** Events *)

Lemma has_event_false e m : has_event e m = false ↔ ∀ i, (0 ≤ i)%Z → Z.testbit e i && Z.testbit m i = false.
Proof.
  unfold has_event. rewrite negb_false_iff, bool_decide_eq_true. split.
  - intros E i Hi. by rewrite <- Z.land_spec, E, Z.bits_0.
  - intros E. apply Z.bits_inj'. intros i Hi. rewrite Z.land_spec, Z.bits_0. auto.
Qed.

Lemma testbit_flag j i : (0 ≤ i)%Z → Z.testbit (flag j) i = bool_decide (i = match j with read_op => 0 | write_op => 2 | except_op => 1 end)%Z.
Proof.
  intros Hi. assert (∀ k, (0 ≤ k)%Z → Z.testbit (2 ^ k) i = bool_decide (i = k)) as Hp.
  { intros k Hk. case_bool_decide; [subst; by apply Z.pow2_bits_true|by apply Z.pow2_bits_false]. }
  destruct j; [apply (Hp 0%Z)|apply (Hp 2%Z)|apply (Hp 1%Z)]; lia.
Qed.

(** A flag is one bit, which is in a mask or not. *)
Lemma flag_in m j i : has_event m (flag j) = true → (0 ≤ i)%Z → Z.testbit (flag j) i = true → Z.testbit m i = true.
Proof.
  intros Hm Hi Hf. destruct (Z.testbit m i) eqn:Hmi; [done|]. rewrite testbit_flag in Hf by done. apply bool_decide_eq_true in Hf.
  assert (has_event m (flag j) = false) as E; [|congruence]. apply has_event_false. intros k Hk. rewrite testbit_flag by done.
  case_bool_decide; [|apply andb_false_r]. assert (k = i) as -> by congruence. by rewrite Hmi.
Qed.

Lemma has_event_lor a b m : has_event (Z.lor a b) m = has_event a m || has_event b m.
Proof.
  assert (has_event (Z.lor a b) m = false ↔ has_event a m = false ∧ has_event b m = false) as Hiff.
  { rewrite !has_event_false. split; [intros E; split; intros i Hi; specialize (E i Hi)|intros [E1 E2] i Hi];
      rewrite Z.lor_spec, andb_orb_distrib_l in *; [by apply orb_false_iff in E as []..|by rewrite E1, E2]. }
  destruct (has_event (Z.lor a b) m), (has_event a m), (has_event b m); naive_solver.
Qed.

(** What is new is seen by [epoll_ctl], and reported by [epoll_wait]. *)
Lemma seen_fresh events x j : has_event events (flag j) = true → fresh x j = true → seen events x = true.
Proof using EpLaws.
  intros Hm Hf%poll_fresh. unfold seen. destruct (has_event (poll_events x) (Z.lor events always_reported)) eqn:E; [done|].
  assert (has_event (poll_events x) (Z.lor (flag j) always_reported) = false) as E'; [|congruence].
  rewrite has_event_false in *. intros i Hi. specialize (E i Hi). rewrite Z.lor_spec in *.
  destruct (Z.testbit (flag j) i) eqn:Hfl; [|by destruct (Z.testbit events i), (Z.testbit (poll_events x) i), (Z.testbit always_reported i)].
  rewrite (flag_in _ _ _ Hm Hi Hfl) in E. by destruct (Z.testbit (poll_events x) i).
Qed.

Definition covers (events : Z) (j : op_type) : Prop := has_event events (Z.lor (flag j) always_reported) = true.
Lemma reported_fresh mask x j :
  has_event mask (flag j) = true → fresh x j = true → covers (Z.land (poll_events x) (Z.lor mask always_reported)) j.
Proof using EpLaws.
  intros Hm Hf%poll_fresh. unfold covers. apply not_false_iff_true. intros E.
  assert (has_event (poll_events x) (Z.lor (flag j) always_reported) = false) as E'; [|congruence].
  rewrite has_event_false in *. intros i Hi. specialize (E i Hi). rewrite Z.land_spec, !Z.lor_spec in *.
  destruct (Z.testbit (flag j) i) eqn:Hfl; [rewrite (flag_in _ _ _ Hm Hi Hfl) in E|];
    by destruct (Z.testbit mask i), (Z.testbit (poll_events x) i), (Z.testbit always_reported i).
Qed.
Lemma covers_nonzero events j : covers events j → events ≠ 0%Z.
Proof. by intros Hc ->. Qed.

(** ** Performing operations *)

Definition took (o : reactor_op) : text := match ro_kind o with recv_op _ _ => ro_data o | _ => [] end.
Definition gave (o : reactor_op) : text := match ro_kind o with send_op d _ => take (bytes_transferred_ o) d | _ => [] end.

(** After operations were performed: the socket, and what is noted of them. *)
Definition after_ops (x : os) (ops : list reactor_op) r : reactor os :=
  Reactor (r_data r) (r_desc r) (Kernel x (k_interest (r_kernel r)) (k_edge (r_kernel r))) (r_task_result r) (r_performing r)
    (History (h_started (r_hist r)) (h_log (r_hist r) ++ ops) (h_posted (r_hist r)) (h_destroyed (r_hist r)) (h_arrived (r_hist r))).

Lemma after_ops_nil x r : after_ops x [] r =
  Reactor (r_data r) (r_desc r) (Kernel x (k_interest (r_kernel r)) (k_edge (r_kernel r))) (r_task_result r) (r_performing r) (r_hist r).
Proof. unfold after_ops. rewrite app_nil_r. by destruct (r_hist r). Qed.
Lemma after_ops_ops x y l k r : after_ops y k (after_ops x l r) = after_ops y (l ++ k) r.
Proof. unfold after_ops. simpl. by rewrite app_assoc. Qed.

(** An operation that can be in the queue [j]. *)
Definition fits (j : op_type) (o : reactor_op) : Prop :=
  queue_of (ro_kind o) = j ∧ accepts_cleanly (os := os) (ro_kind o) ∧ reads_something (ro_kind o).

Lemma wp_perform_op j o (Q : status * reactor_op → reactor os → Prop) r :
  fits j o →
  (∀ st o' x', performed o (k_os (r_kernel r)) st o' x' →
     Q (st, o') (after_ops x' (match st with not_done => [] | _ => [o'] end) r)) →
  wp (perform_op signals o) Q r.
Proof.
  intros (Hj & Hc & Hr) HQ. set (x := k_os (r_kernel r)).
  pose proof (perform_spec (S (signals x)) o x ltac:(lia) Hr) as Hp. unfold wp, perform_op in *. cbv zeta. fold x.
  destruct (perform _ o x) as [[st o'] x'| |]; [|done..]. specialize (HQ st o' x' Hp). by destruct st; rewrite ?after_ops_nil in HQ.
Qed.

(** What the loop on a queue does. *)
Record queue_performed (j : op_type) (q rest ops : list reactor_op) (exhausted : bool) (x x' : os) : Prop := {
  qp_ids : ids q = ids ops ++ ids rest;
  qp_fits : Forall (fits j) ops ∧ Forall (fits j) rest;
  qp_calm : calm x x';
  qp_received : received x = concat (took <$> ops) ++ received x';
  qp_sent : sent x' = sent x ++ concat (gave <$> ops);
  qp_quiet : rest ≠ [] ∨ exhausted = true → fresh x' j = false }.

Lemma fits_same j o o' : fits j o → ro_kind o' = ro_kind o → fits j o'.
Proof. unfold fits. by intros ? ->. Qed.

Lemma perform_queue_spec j q r :
  Forall (fits j) q →
  wp (perform_queue signals q) (λ p r', ∃ x', r' = after_ops x' p.1.2 r ∧ queue_performed j q p.1.1 p.1.2 p.2 (k_os (r_kernel r)) x') r.
Proof.
  intros Hq. revert r. induction Hq as [|o q Ho Hq IH]; intros r; cbn [perform_queue].
  - apply wp_ret. exists (k_os (r_kernel r)). rewrite after_ops_nil. split; [by destruct r as [? ? [] ? ? ?]|].
    split; simpl; rewrite ?app_nil_r; try done; [by intros k|by intros []].
  - apply wp_bind, (wp_perform_op j); [done|]. intros st o' x' [Hc (Hi & Hk & _) Hrec Hsent Hquiet].
    pose proof (fits_same j o o' Ho Hk) as Ho'. destruct Ho as (<- & Hacc & _).
    destruct st; unfold taken, given in *; simpl in *.
    + rewrite app_nil_r in Hsent. apply wp_ret. exists x'. split; [done|].
      split; simpl; rewrite ?app_nil_r, ?Hi; try done; [by split; [|constructor]|]. intros _. by apply Hquiet.
    + apply wp_bind. eapply wp_mono; [|apply IH]. intros [[rest ops] ex] r' (x2 & -> & [Q1 Q2 Q3 Q4 Q5 Q6]). apply wp_ret. exists x2.
      rewrite after_ops_ops. split; [done|]. simpl in *. split; simpl; [by rewrite Hi, Q1|split; [constructor|]; naive_solver|..|done].
      * intros k Hk'. auto.
      * fold (took o') in Hrec. by rewrite Hrec, Q4, app_assoc.
      * fold (gave o') in Hsent. by rewrite Q5, Hsent, app_assoc.
    + apply wp_ret. exists x'. split; [done|].
      split; simpl; rewrite ?app_nil_r, ?Hi; try done; [by split; [apply Forall_singleton|]|]. intros _. by apply Hquiet.
Qed.

(** ** Invariants *)

Lemma at_set_eq {A} j (a : A) p : at_type j (set_type j a p) = a.
Proof. by destruct j. Qed.
Lemma at_set_ne {A} j k (a : A) p : k ≠ j → at_type k (set_type j a p) = at_type k p.
Proof. by destruct j, k. Qed.

Notation queue r j := (at_type j (op_queue_ (r_desc r))).
Notation live r := (shutdown_ (r_desc r) = false).
Notation interested r j := (has_event (k_interest (r_kernel r)) (flag j) = true).

(** An event for [j] is on its way to [perform_io]. *)
Definition on_way r (j : op_type) : Prop :=
  k_edge (r_kernel r) = true ∨ (∃ t, r_task_result r = Some t ∧ covers t j) ∨ ∃ t, t ∈ r_performing r ∧ covers t j.
(** Something depends on an event for [j]. *)
Definition waiting r (j : op_type) : Prop := queue r j ≠ [] ∨ at_type j (try_speculative_ (r_desc r)) = false.

(** Queues and registrations; and whatever is new for an operation that waits has been
    noticed, or is being handled: [W]. *)
Record wired (W : op_type → Prop) r : Prop := {
  w_data : r_data r = false → shutdown_ (r_desc r) = true;
  w_shut : shutdown_ (r_desc r) = true → ∀ j, queue r j = [];
  w_mask : live r → k_interest (r_kernel r) = registered_events_ (r_desc r);
  w_in : live r → k_interest (r_kernel r) ≠ 0%Z → ∀ j, j ≠ write_op → interested r j;
  w_queue : ∀ j, queue r j ≠ [] → interested r j;
  w_fits : ∀ j, Forall (fits j) (queue r j);
  w_way : ∀ j, live r → waiting r j → interested r j → fresh (k_os (r_kernel r)) j = true → on_way r j ∨ W j }.

Definition of_type (j : op_type) (l : list reactor_op) : list nat := ids (filter (λ o, queue_of (ro_kind o) = j) l).
Definition queued_ids (q : per_type (list reactor_op)) : list nat := ids (on_read q) ++ ids (on_write q) ++ ids (on_except q).
Definition queued r : list nat := queued_ids (op_queue_ (r_desc r)).

(** The history, while the operations [hand] are not in a queue yet and [ps] have been
    taken from one. *)
Record told (hand : list reactor_op) (ps : list nat) r : Prop := {
  t_arrived : h_arrived (r_hist r) = concat (took <$> h_log (r_hist r)) ++ received (k_os (r_kernel r));
  t_sent : sent (k_os (r_kernel r)) = concat (gave <$> h_log (r_hist r));
  t_order : ∀ j, of_type j (h_log (r_hist r)) ++ ids (queue r j) ++ of_type j hand `sublist_of` of_type j (h_started (r_hist r));
  t_places : ids (h_started (r_hist r)) ≡ₚ ps ++ ids (h_posted (r_hist r)) ++ queued r ++ ids (h_destroyed (r_hist r));
  t_unique : NoDup (ids (h_started (r_hist r))) }.

(** *** History *)

Definition with_hist (h : history) r : reactor os := Reactor (r_data r) (r_desc r) (r_kernel r) (r_task_result r) (r_performing r) h.
Definition posted (ops : list reactor_op) r : reactor os :=
  let h := r_hist r in with_hist (History (h_started h) (h_log h) (h_posted h ++ ops) (h_destroyed h) (h_arrived h)) r.

Lemma wired_hist W h r : wired W r → wired W (with_hist h r).
Proof. intros [? ? ? ? ? ? ?]. by split. Qed.

Lemma told_posted hand ops ps r : told hand (ids ops ++ ps) r → told hand ps (posted ops r).
Proof.
  intros [H1 H2 H3 H4 H5]. split; simpl; try done. unfold ids in *. rewrite fmap_app. rewrite H4. unfold queued. simpl.
  rewrite <- !(assoc (++)). rewrite (Permutation_app_swap_app (ro_id <$> ops)). f_equiv. apply Permutation_app_swap_app.
Qed.
Lemma told_drop hand ps r : told hand ps r → told [] ps r.
Proof.
  intros [H1 H2 H3 H4 H5]. split; try done. intros j. etrans; [|apply H3]. do 2 (apply sublist_app; [done|]). apply sublist_nil_l.
Qed.

(** An operation that is finished in [start_op]. *)
Lemma finished_now o o' r :
  wired (λ _, False) r → told [o] [ro_id o] r → ro_id o' = ro_id o → wired (λ _, False) (posted [o'] r) ∧ told [] [] (posted [o'] r).
Proof.
  intros Hw Ht Hi. split; [by apply wired_hist|]. apply told_posted. simpl. rewrite Hi. by eapply told_drop.
Qed.

(** *** Performing *)

Lemma wired_ops W x ops r : wired W r → calm (k_os (r_kernel r)) x → wired W (after_ops x ops r).
Proof. intros [H1 H2 H3 H4 H5 H6 H7] Hc. split; try done. intros j Hl Hw Hi Hf. apply H7; [done..|]. by apply Hc. Qed.

Lemma told_ops_nil hand ps x r :
  told hand ps r → received x = received (k_os (r_kernel r)) → sent x = sent (k_os (r_kernel r)) → told hand ps (after_ops x [] r).
Proof. intros [H1 H2 H3 H4 H5] Hr Hs. rewrite after_ops_nil. split; simpl; [by rewrite Hr|by rewrite Hs|done..]. Qed.

(** An operation in hand is performed when its queue is empty. *)
Lemma told_performed o o' x r :
  told [o] [ro_id o] r → queue r (queue_of (ro_kind o)) = [] → ro_id o' = ro_id o → ro_kind o' = ro_kind o →
  received (k_os (r_kernel r)) = took o' ++ received x → sent x = sent (k_os (r_kernel r)) ++ gave o' →
  told [] [ro_id o'] (after_ops x [o'] r).
Proof.
  intros [H1 H2 H3 H4 H5] Hq Hi Hk Hr Hs. split; simpl; [| |intros j|by rewrite Hi|done].
  - rewrite H1, Hr, fmap_app, concat_app. simpl. by rewrite app_nil_r, app_assoc.
  - rewrite Hs, H2, fmap_app, concat_app. simpl. by rewrite app_nil_r.
  - specialize (H3 j). unfold of_type in *. rewrite filter_app. unfold ids in *. rewrite fmap_app.
    destruct (decide (queue_of (ro_kind o) = j)) as [<-|Hj].
    + rewrite Hq in *. rewrite filter_cons_True in * by (try rewrite Hk; done). rewrite filter_nil in *. simpl in *. rewrite Hi.
      by rewrite app_nil_r.
    + rewrite !filter_cons_False in * by (try rewrite Hk; done). rewrite !filter_nil in *. simpl in *. by rewrite !app_nil_r in *.
Qed.

(** *** Registration *)

(** The descriptor is registered for [m], which [epoll_ctl] looks at at once. *)
Definition registered (m : Z) r : reactor os :=
  Reactor (r_data r) (set_registered m (r_desc r)) (Kernel (k_os (r_kernel r)) m (k_edge (r_kernel r) || seen m (k_os (r_kernel r))))
    (r_task_result r) (r_performing r) (r_hist r).

Lemma wired_registered W m r :
  wired W r → live r → registered_events_ (r_desc r) ≠ 0%Z →
  (∀ j, has_event (registered_events_ (r_desc r)) (flag j) = true → has_event m (flag j) = true) → wired W (registered m r).
Proof using EpLaws.
  intros [H1 H2 H3 H4 H5 H6 H7] Hl Hne Hm. rewrite H3 in * by done. split; simpl; try done.
  - intros _ _ j Hj. by apply Hm, H4.
  - intros j Hj. by apply Hm, H5.
  - intros j _ _ Hi Hf. left. left. simpl. rewrite (seen_fresh _ _ _ Hi Hf). apply orb_true_r.
Qed.
Lemma on_way_registered m r j : on_way r j → on_way (registered m r) j.
Proof. intros [Hw|[Hw|Hw]]; [left; simpl; by rewrite Hw|by right; left|by do 2 right]. Qed.

Lemma flag_out j : has_event EPOLLOUT (flag j) = bool_decide (j = write_op).
Proof. by destruct j. Qed.

(** *** Queues *)

Definition pushed (j : op_type) (o : reactor_op) r : reactor os :=
  Reactor (r_data r) (set_queue j (queue r j ++ [o]) (r_desc r)) (r_kernel r) (r_task_result r) (r_performing r) (r_hist r).

Lemma wired_pushed W j o r :
  wired W r → live r → fits j o → interested r j → (fresh (k_os (r_kernel r)) j = true → on_way r j) → wired W (pushed j o r).
Proof.
  intros [H1 H2 H3 H4 H5 H6 H7] Hl Ho Hi Hf. split; simpl; try done.
  - congruence.
  - intros k Hk. destruct (decide (k = j)) as [->|Hne]; [done|]. rewrite at_set_ne in Hk by done. auto.
  - intros k. destruct (decide (k = j)) as [->|Hne]; [rewrite at_set_eq; apply Forall_app; split; [done|by constructor]|].
    by rewrite at_set_ne.
  - intros k _ Hw Hik Hfk. destruct (decide (k = j)) as [->|Hne]; [left; by apply Hf|]. apply H7; try done.
    unfold waiting in *. simpl in Hw. by rewrite at_set_ne in Hw.
Qed.

Lemma snoc_first {A} (x : A) l k : (l ++ [x]) ++ k ≡ₚ x :: l ++ k.
Proof. rewrite <- (assoc (++)). symmetry. apply Permutation_middle. Qed.
Lemma queued_pushed j o r : queued (pushed j o r) ≡ₚ ro_id o :: queued r.
Proof.
  unfold queued, queued_ids, ids. destruct j; simpl; rewrite fmap_app; simpl.
  - apply snoc_first.
  - rewrite snoc_first. symmetry. apply Permutation_middle.
  - by rewrite !(assoc (++)), <- Permutation_cons_append.
Qed.

Lemma told_pushed j o o' r :
  told [o] [ro_id o] r → queue_of (ro_kind o) = j → ro_id o' = ro_id o → told [] [] (pushed j o' r).
Proof.
  intros [H1 H2 H3 H4 H5] Hj Hi. split; simpl; try done.
  - intros k. specialize (H3 k). unfold of_type in *. destruct (decide (k = j)) as [->|Hne].
    + rewrite at_set_eq. rewrite filter_cons_True in H3 by done. unfold ids in *. rewrite fmap_app. simpl in *. rewrite Hi. by rewrite app_nil_r.
    + rewrite at_set_ne by done. rewrite filter_cons_False in H3 by congruence. done.
  - rewrite H4, queued_pushed, Hi. apply (Permutation_middle (ids (h_posted (r_hist r)))).
Qed.

(** *** [start_op] *)

Definition settled (r : reactor os) : Prop := wired (λ _, False) r ∧ told [] [] r.
(** [o] has been started and is in no queue yet. *)
Definition in_hand (o : reactor_op) r : Prop := wired (λ _, False) r ∧ told [o] [ro_id o] r.

Lemma settled_posted o o' r : in_hand o r → ro_id o' = ro_id o → settled (posted [o'] r).
Proof. intros [Hw Ht] Hi. by apply (finished_now o). Qed.

Lemma settled_pushed j o o' r :
  in_hand o r → live r → fits j o → ro_id o' = ro_id o → ro_kind o' = ro_kind o → interested r j →
  (fresh (k_os (r_kernel r)) j = true → on_way r j) → settled (pushed j o' r).
Proof.
  intros [Hw Ht] Hl Ho Hi Hk Hint Hf. split; [apply wired_pushed; [done..| |done|done]; by eapply fits_same|].
  destruct Ho as [Hj _]. by eapply told_pushed.
Qed.

Lemma in_hand_registered o m r :
  in_hand o r → live r → registered_events_ (r_desc r) ≠ 0%Z →
  (∀ j, has_event (registered_events_ (r_desc r)) (flag j) = true → has_event m (flag j) = true) → in_hand o (registered m r).
Proof using EpLaws. intros [Hw [H1 H2 H3 H4 H5]] Hl Hne Hm. split; [by apply wired_registered|by split]. Qed.

(** Registration for writing, if it is needed, and the push. *)
Lemma register_out_spec o o' e r :
  in_hand o r → live r → fits write_op o → ro_id o' = ro_id o → ro_kind o' = ro_kind o → registered_events_ (r_desc r) ≠ 0%Z →
  (interested r write_op → fresh (k_os (r_kernel r)) write_op = true → on_way r write_op) →
  wp (finished ← register_out e o'; if finished : bool then mret tt else push_op write_op o') (λ _ r', settled r') r.
Proof using EpLaws.
  intros Hh Hl Ho Hi Hk Hne Hf. apply wp_bind, wp_bind, wp_get. pose proof (w_mask _ _ (proj1 Hh) Hl) as Hm.
  destruct (has_event (registered_events_ (r_desc r)) EPOLLOUT) eqn:Hout.
  - apply wp_ret, wp_modify. eapply (settled_pushed _ o); try done; [by rewrite Hm|]. apply Hf. by rewrite Hm.
  - destruct e as [e|]; [apply wp_bind, wp_modify, wp_ret, wp_ret; by apply (settled_posted o)|].
    apply wp_bind, wp_modify, wp_bind, wp_modify, wp_ret, wp_modify. simpl. rewrite Z.lor_assoc, Z.lor_diag.
    apply (settled_pushed write_op o o' (registered (Z.lor (registered_events_ (r_desc r)) EPOLLOUT) r)); try done.
    + apply in_hand_registered; try done. intros j Hj. by rewrite has_event_lor, Hj.
    + simpl. rewrite has_event_lor. apply orb_true_r.
    + intros Hfr. left. simpl. rewrite (seen_fresh _ _ write_op); [apply orb_true_r| |done]. rewrite has_event_lor. apply orb_true_r.
Qed.

Lemma start_waits j o o' e r :
  in_hand o r → live r → fits j o → ro_id o' = ro_id o → ro_kind o' = ro_kind o →
  (interested r j → fresh (k_os (r_kernel r)) j = true → on_way r j) →
  wp (if decide (registered_events_ (r_desc r) = 0%Z) then post [with_ec (Some (err_other 95)) o'];; mret (true, o')
      else if decide (j = write_op) then finished ← register_out e o'; mret (finished, o')
      else mret (false, o'))
    (λ s, wp (if s.1 : bool then mret tt else push_op j s.2) (λ _ r', settled r')) r.
Proof using EpLaws.
  intros Hh Hl Ho Hi Hk Hf. destruct (decide (registered_events_ (r_desc r) = 0%Z)) as [Hz|Hnz].
  - apply wp_bind, wp_modify, wp_ret, wp_ret. by apply (settled_posted o).
  - destruct (decide (j = write_op)) as [->|Hj].
    + pose proof (register_out_spec o o' e r Hh Hl Ho Hi Hk Hnz Hf) as Hw. apply wp_bind. unfold wp in *. unfold mbind, comp_bind in *.
      by destruct (register_out e o' r) as [b r1| |].
    + apply wp_ret, wp_modify. pose proof (w_mask _ _ (proj1 Hh) Hl) as Hm. pose proof (w_in _ _ (proj1 Hh) Hl) as Hin.
      rewrite Hm in Hin. assert (interested r j) as Hint by (rewrite Hm; by apply Hin). eapply (settled_pushed j o); try done. auto.
Qed.

Lemma set_speculative_wired W j b r :
  wired W r → (b = false → fresh (k_os (r_kernel r)) j = false) →
  wired W (Reactor (r_data r) (set_speculative j b (r_desc r)) (r_kernel r) (r_task_result r) (r_performing r) (r_hist r)).
Proof.
  intros [H1 H2 H3 H4 H5 H6 H7] Hf. split; simpl; try done. intros k Hl Hw Hi Hfr. apply H7; try done. unfold waiting in *. simpl in Hw.
  destruct (decide (k = j)) as [->|Hne]; [|by rewrite at_set_ne in Hw].
  rewrite at_set_eq in Hw. destruct Hw as [|Hb]; [by left|]. by rewrite Hf in Hfr.
Qed.

Lemma start_speculative_spec j o e r :
  in_hand o r → live r → fits j o → queue r j = [] →
  wp (s ← start_speculative signals j o e; if s.1 : bool then mret tt else push_op j s.2) (λ _ r', settled r') r.
Proof using EpLaws.
  intros Hh Hl Ho Hq. destruct (at_type j (try_speculative_ (r_desc r))) eqn:Hspec.
  - unfold start_speculative. apply wp_bind, wp_bind, wp_get. rewrite Hspec. apply wp_bind, (wp_perform_op j); [done|].
    intros st o' x' [Hc (Hi & Hk & Hkey) Hrec Hsent Hquiet]. pose proof Hh as [Hw Ht]. destruct Ho as (Hj & Hacc & Hrs).
    destruct st.
    + unfold taken, given in *. simpl in *. rewrite app_nil_r in Hsent.
      apply (start_waits j o o' e (after_ops x' [] r)); try done.
      * split; [by apply wired_ops|by apply told_ops_nil].
      * intros _ Hfr. rewrite <- Hj in Hfr. simpl in Hfr. by rewrite Hquiet in Hfr.
    + apply wp_bind, wp_ret, wp_bind, wp_modify, wp_ret, wp_ret. split; [by apply wired_hist, wired_ops|]. apply told_posted.
      apply (told_performed o); try done. by rewrite Hj.
    + apply wp_bind. destruct (decide (registered_events_ (r_desc r) = 0%Z)).
      * apply wp_ret, wp_bind, wp_modify, wp_ret, wp_ret. split; [by apply wired_hist, wired_ops|]. apply told_posted.
        apply (told_performed o); try done. by rewrite Hj.
      * apply wp_modify, wp_bind, wp_modify, wp_ret, wp_ret.
        split; [apply wired_hist, (set_speculative_wired _ _ _ (after_ops x' [o'] r)); [by apply wired_ops|]|].
        { intros _. simpl. rewrite <- Hj. by apply Hquiet. }
        apply told_posted. assert (told [] [ro_id o'] (after_ops x' [o'] r)) as [T1 T2 T3 T4 T5]; [|by split].
        apply (told_performed o); try done. by rewrite Hj.
  - unfold start_speculative. apply wp_bind, wp_bind, wp_get. rewrite Hspec. apply wp_bind, wp_ret.
    apply (start_waits j o o e r); try done. intros Hint Hfr. destruct (w_way _ _ (proj1 Hh) j Hl) as [|[]]; try done. by right.
Qed.

Lemma start_deferred_spec j o r :
  in_hand o r → live r → fits j o →
  wp (finished ← start_deferred j o; if finished : bool then mret tt else push_op j o) (λ _ r', settled r') r.
Proof using EpLaws.
  intros Hh Hl Ho. apply wp_bind, wp_bind, wp_get. pose proof (w_mask _ _ (proj1 Hh) Hl) as Hm.
  destruct (decide (registered_events_ (r_desc r) = 0%Z)) as [Hz|Hnz]; [apply wp_bind, wp_modify, wp_ret, wp_ret; by apply (settled_posted o)|].
  set (m := if decide (j = write_op) then Z.lor (registered_events_ (r_desc r)) EPOLLOUT else registered_events_ (r_desc r)).
  assert (∀ k, has_event (registered_events_ (r_desc r)) (flag k) = true → has_event m (flag k) = true) as Hmono.
  { intros k Hk. unfold m. case_decide; [|done]. by rewrite has_event_lor, Hk. }
  assert (has_event m (flag j) = true) as Hmj.
  { unfold m. case_decide as Hj; [subst; rewrite has_event_lor; apply orb_true_r|]. rewrite <- Hm. apply (w_in _ _ (proj1 Hh) Hl); congruence. }
  assert (settled (pushed j o (registered m r))) as Hset.
  { apply (settled_pushed j o); try done; [by apply in_hand_registered|]. intros Hf. left. simpl in *. rewrite (seen_fresh _ _ _ Hmj Hf). apply orb_true_r. }
  apply wp_bind. unfold m in *. destruct (decide (j = write_op)) as [->|Hj].
  - by apply wp_modify, wp_bind, wp_get, wp_bind, wp_modify, wp_ret, wp_modify.
  - apply wp_ret, wp_bind, wp_get, wp_bind, wp_modify, wp_ret, wp_modify. unfold pushed, registered in Hset. simpl in Hset.
    destruct r as [da [re qu tr sh] ke ta pe hi]. exact Hset.
Qed.

Lemma start_op_spec j o allow e r :
  in_hand o r → fits j o → wp (start_op signals j o allow e) (λ _ r', settled r') r.
Proof using EpLaws.
  intros Hh Ho. apply wp_bind, wp_get. cbv zeta. destruct (r_data r) eqn:Hd; simpl negb; cbv iota; [|apply wp_modify; by apply (settled_posted o)].
  destruct (shutdown_ (r_desc r)) eqn:Hl; [apply wp_modify; by apply (settled_posted o)|].
  destruct (decide (queue r j = [])) as [Hq|Hq].
  - destruct (allow && _); [by apply start_speculative_spec|by apply start_deferred_spec].
  - apply wp_modify. pose proof (w_queue _ _ (proj1 Hh) j Hq) as Hint. apply (settled_pushed j o); try done.
    intros Hf. destruct (w_way _ _ (proj1 Hh) j Hl) as [|[]]; try done. by left.
Qed.

Lemma started_in_hand o r :
  settled r → ro_id o ∉ ids (h_started (r_hist r)) → wp (note_started o) (λ _ r', in_hand o r' ∧ r_desc r' = r_desc r) r.
Proof.
  intros [Hw [H1 H2 H3 H4 H5]] Hn. apply wp_modify. split; [|done]. split; [by apply wired_hist|]. split; simpl; try done.
  - intros j. unfold of_type, ids in *. rewrite filter_app, fmap_app, (assoc (++)). apply sublist_app; [|done].
    specialize (H3 j). by rewrite filter_nil, app_nil_r in H3.
  - unfold ids in *. rewrite fmap_app, H4. simpl. by rewrite <- Permutation_cons_append.
  - unfold ids in *. rewrite fmap_app. apply NoDup_app. split; [done|]. split; [|apply NoDup_singleton]. intros i Hi ->%list_elem_of_singleton. done.
Qed.

Lemma in_hand_same o o' r : in_hand o r → ro_id o' = ro_id o → ro_kind o' = ro_kind o → in_hand o' r.
Proof.
  intros [Hw [H1 H2 H3 H4 H5]] Hi Hk. split; [done|]. split; try done; [|by rewrite Hi]. intros j. specialize (H3 j). unfold of_type, ids in *.
  rewrite filter_cons in *. rewrite Hk. case_decide; [simpl in *; by rewrite Hi|done].
Qed.

Lemma async_start_spec o env r :
  settled r → ro_id o ∉ ids (h_started (r_hist r)) → good_op o → wp (async_start signals o env) (λ _ r', settled r') r.
Proof using EpLaws.
  intros Hs Hn [Hacc Hst]. apply wp_bind. eapply wp_mono; [|by apply started_in_hand]. intros _ r1 [Hh _].
  destruct (ro_kind o) as [size stream|d stream|b|] eqn:Hk; unfold do_start_accept_op, do_start_connect_op, do_start_op.
  - subst stream. simpl. case_bool_decide as Hz; [apply wp_modify; by apply (settled_posted o)|].
    destruct (ioctl_error env); [apply wp_modify; by apply (settled_posted o)|]. apply start_op_spec; [done|]. unfold fits. by rewrite Hk.
  - destruct (stream && _); [apply wp_modify; by apply (settled_posted o)|].
    destruct (ioctl_error env); [apply wp_modify; by apply (settled_posted o)|]. apply start_op_spec; [done|]. unfold fits. by rewrite Hk.
  - destruct (peer_is_open env); [apply wp_modify; by apply (settled_posted o)|].
    destruct (ioctl_error env); [apply wp_modify; by apply (settled_posted o)|]. apply start_op_spec; [done|]. unfold fits. by rewrite Hk.
  - destruct (ioctl_error env); [apply wp_modify; by apply (settled_posted o)|].
    destruct (connects env); try (apply wp_modify; by apply (settled_posted o)). apply start_op_spec; [by eapply in_hand_same|].
    unfold fits. simpl. by rewrite Hk.
Qed.

(** *** Cancellation and registration *)

Lemma ids_abort l : ids (abort_op <$> l) = ids l.
Proof. unfold ids. rewrite <- list_fmap_compose. by apply list_fmap_ext. Qed.

(** Operations leave the queues, and are taken in hand. *)
Definition with_queues (q : per_type (list reactor_op)) (b : bool) r : reactor os :=
  Reactor (r_data r) (DescriptorState (registered_events_ (r_desc r)) q (try_speculative_ (r_desc r)) b) (r_kernel r)
    (r_task_result r) (r_performing r) (r_hist r).

Lemma told_removed q b ps r :
  told [] [] r → (∀ j, at_type j q `sublist_of` queue r j) →
  queued r ≡ₚ ps ++ queued (with_queues q b r) → told [] ps (with_queues q b r).
Proof.
  intros [H1 H2 H3 H4 H5] Hsub Hps. split; simpl; try done.
  - intros j. etrans; [|apply H3]. apply sublist_app; [done|]. apply sublist_app; [|done]. by apply fmap_sublist.
  - rewrite H4, Hps. simpl. rewrite <- !(assoc (++)). apply Permutation_app_swap_app.
Qed.

Lemma queued_set j q l ps :
  ids (at_type j q) ≡ₚ ps ++ ids l → queued_ids q ≡ₚ ps ++ queued_ids (set_type j l q).
Proof.
  intros Hj. unfold queued_ids. destruct j; simpl in *; rewrite Hj.
  - by rewrite <- (assoc (++)).
  - rewrite <- (assoc (++)). apply Permutation_app_swap_app.
  - rewrite (Permutation_app_swap_app (ids (on_write q))). apply Permutation_app_swap_app.
Qed.

Lemma wired_removed W q r :
  wired W r → (∀ j, at_type j q `sublist_of` queue r j) → wired W (with_queues q (shutdown_ (r_desc r)) r).
Proof.
  intros [H1 H2 H3 H4 H5 H6 H7] Hsub.
  assert (∀ j, at_type j q ≠ [] → queue r j ≠ []) as Hne.
  { intros j Hj E. specialize (Hsub j). rewrite E in Hsub. by apply sublist_nil_r in Hsub. }
  split; simpl; try done.
  - intros Hs j. specialize (Hsub j). rewrite (H2 Hs j) in Hsub. by apply sublist_nil_r in Hsub.
  - intros j Hj. by apply H5, Hne.
  - intros j. apply Forall_forall. intros o Ho. specialize (H6 j). rewrite Forall_forall in H6. apply H6. by eapply elem_of_submseteq, sublist_submseteq, Hsub.
  - intros j Hl Hw Hi Hf. apply H7; try done. destruct Hw as [Hw|Hw]; [left; by apply Hne|by right].
Qed.

Lemma queued_nil b r : queued (with_queues (PerType [] [] []) b r) = [].
Proof. done. Qed.

Lemma wp_abort_all r (Q : list reactor_op → reactor os → Prop) :
  told [] [] r →
  (∀ ops, let r' := with_queues (PerType [] [] []) (shutdown_ (r_desc r)) r in told [] (ids ops ++ []) r' → Q ops r') →
  wp abort_all Q r.
Proof.
  intros Ht HQ. apply wp_bind, wp_get. cbv zeta. apply wp_bind, wp_modify, wp_ret. apply HQ.
  apply (told_removed (PerType [] [] [])); [done|intros []; apply sublist_nil_l|]. rewrite queued_nil, !app_nil_r, ids_abort.
  unfold queued, queued_ids, ids. by rewrite !fmap_app.
Qed.

Lemma cancel_ops_spec r : settled r → wp cancel_ops (λ _ r', settled r') r.
Proof.
  intros [Hw Ht]. apply wp_bind, wp_get. destruct (r_data r); [|by apply wp_ret]. apply wp_bind, wp_abort_all; [done|]. cbv zeta.
  intros ops Ht'. apply wp_modify. split; [apply wired_hist|by apply told_posted].
  apply wired_removed; [done|]. intros []; apply sublist_nil_l.
Qed.

Lemma cancel_ops_by_key_spec j key r : settled r → wp (cancel_ops_by_key j key) (λ _ r', settled r') r.
Proof.
  intros Hs. pose proof Hs as [Hw Ht]. apply wp_bind, wp_get. destruct (r_data r); [|by apply wp_ret]. cbv zeta. apply wp_bind, wp_modify, wp_modify.
  set (q := set_type j (filter (λ o, cancellation_key_ o ≠ Some key) (queue r j)) (op_queue_ (r_desc r))).
  assert (∀ k, at_type k q `sublist_of` queue r k) as Hsub.
  { intros k. unfold q. destruct (decide (k = j)) as [->|Hne]; [rewrite at_set_eq; apply sublist_filter|by rewrite at_set_ne]. }
  split; [apply wired_hist; by apply (wired_removed _ q)|]. apply told_posted. rewrite app_nil_r, ids_abort.
  apply (told_removed q); [done..|]. apply queued_set. unfold ids. rewrite <- fmap_app. f_equiv.
  symmetry. apply (filter_app_complement (λ o, cancellation_key_ o = Some key)).
Qed.

(** The history does not depend on the registration. *)
Lemma told_same hand ps r r' :
  told hand ps r → op_queue_ (r_desc r') = op_queue_ (r_desc r) → k_os (r_kernel r') = k_os (r_kernel r) → r_hist r' = r_hist r → told hand ps r'.
Proof. intros [H1 H2 H3 H4 H5] Hq Ho Hh. split; unfold queued in *; rewrite ?Hq, ?Ho, ?Hh; done. Qed.

(** A descriptor that is shut down, and without operations, waits for nothing. *)
Lemma wired_shut W r : (∀ j, queue r j = []) → shutdown_ (r_desc r) = true → wired W r.
Proof. intros Hq Hs. split; try done; [congruence|congruence|intros j; by rewrite Hq|intros j; by rewrite Hq|congruence]. Qed.

Lemma service_close_spec dup r : settled r → r_data r = true → wp (service_close dup) (λ _ r', settled r') r.
Proof.
  intros [Hw Ht] Hd. apply wp_bind, wp_bind, wp_get. rewrite Hd. simpl negb. cbv iota.
  destruct (shutdown_ (r_desc r)) eqn:Hl.
  - apply wp_modify, wp_bind, wp_modify, wp_modify. split; [apply wired_shut; [by apply (w_shut _ _ Hw)|done]|by apply (told_same [] [] r)].
  - assert (∀ r1, told [] [] r1 → wp (ops ← abort_all;
        set_desc (λ d, DescriptorState (registered_events_ d) (op_queue_ d) (try_speculative_ d) true);; post ops)
      (λ _, wp (epoll_del;; cleanup_descriptor_data) (λ _ r', settled r')) r1) as Hrest.
    { intros r1 Ht1. apply wp_bind, wp_abort_all; [done|]. cbv zeta. intros ops Ht2.
      apply wp_bind, wp_modify, wp_modify, wp_bind, wp_modify, wp_modify. split; [apply wired_shut; [by intros []|done]|].
      apply told_posted in Ht2. by eapply told_same. }
    apply wp_bind. destruct (negb dup); [by apply wp_ret, Hrest|]. destruct (decide _); [by apply wp_ret, Hrest|].
    apply wp_modify, Hrest. by apply (told_same [] [] r).
Qed.

Lemma shutdown_spec r : settled r → wp shutdown (λ _ r', settled r') r.
Proof.
  intros [Hw [H1 H2 H3 H4 H5]]. apply wp_bind, wp_get, wp_bind, wp_modify, wp_modify. split; [apply wired_shut; [by intros []|done]|].
  split; simpl; try done.
  - intros j. etrans; [|apply H3]. apply sublist_app; [done|]. destruct j; apply sublist_nil_l.
  - rewrite H4. unfold queued, queued_ids, ids. simpl. rewrite !fmap_app. f_equiv. rewrite !(assoc (++)). by rewrite (Permutation_app_comm _ (ro_id <$> h_destroyed (r_hist r))), !(assoc (++)).
Qed.

(** A new descriptor without operations, registered for [m]. *)
Lemma wired_opened m q x b ta pe h :
  (∀ j, at_type j q = []) → (m ≠ 0%Z → ∀ j, j ≠ write_op → has_event m (flag j) = true) →
  wired (λ _, False) (Reactor true (DescriptorState m q (PerType true true true) false) (Kernel x m b) ta pe h).
Proof.
  intros Hq Hm. split; simpl; try done.
  - intros j. by rewrite Hq.
  - intros j. by rewrite Hq.
  - intros j _ [Hwt|Hwt]; simpl in Hwt; [by rewrite Hq in Hwt|by destruct j].
Qed.

Lemma do_open_spec x result r :
  settled r → r_data r = false → received x = [] → sent x = [] → result ≠ add_error → wp (do_open x result) (λ _ r', settled r') r.
Proof.
  intros [Hw [H1 H2 H3 H4 H5]] Hd Hx Hs Hr. pose proof (w_shut _ _ Hw (w_data _ _ Hw Hd)) as Hq.
  assert (∀ r', op_queue_ (r_desc r') = op_queue_ (r_desc r) → k_os (r_kernel r') = x →
    r_hist r' = History (h_started (r_hist r)) [] (h_posted (r_hist r)) (h_destroyed (r_hist r)) [] → told [] [] r') as Ht.
  { intros r' E1 E2 E3. split; unfold queued in *; rewrite ?E1, ?E2, ?E3; simpl; try done. intros j. rewrite Hq. apply sublist_nil_l. }
  apply wp_bind, wp_modify, wp_bind, wp_modify, wp_bind, wp_bind, wp_modify, wp_bind, wp_modify, wp_bind, wp_modify.
  destruct result; [| |done]; apply wp_bind, wp_modify, wp_ret, wp_ret; (split; [|by apply Ht]).
  - apply wired_opened; [done|]. intros _ [] Hj; vm_compute; congruence.
  - by apply wired_opened.
Qed.

(** *** Events *)

Lemma wait_events_spec r : settled r → wp wait_events (λ _ r', settled r') r.
Proof using EpLaws.
  intros [Hw Ht]. apply wp_bind, wp_get. cbv zeta. apply wp_bind, wp_modify.
  set (ev := Z.land _ _). assert (∀ j, interested r j → fresh (k_os (r_kernel r)) j = true → covers ev j) as Hev.
  { intros j. apply reported_fresh. }
  destruct Hw as [H1 H2 H3 H4 H5 H6 H7].
  destruct (k_edge (r_kernel r) && bool_decide (ev ≠ 0%Z)) eqn:Hb; [apply wp_modify|apply wp_ret]; (split; [|by apply (told_same [] [] r)]);
    (split; simpl; try done); intros j Hl Hwt Hi Hf; left; destruct (H7 j Hl Hwt Hi Hf) as [[He|[(t & Ht1 & Ht2)|Hp]]|[]].
  - right. left. eexists. split; [done|]. specialize (Hev j Hi Hf). unfold covers in *. case_match; [|done]. rewrite has_event_lor, Hev. apply orb_true_r.
  - right. left. eexists. split; [done|]. rewrite Ht1. unfold covers in *. by rewrite has_event_lor, Ht2.
  - by do 2 right.
  - rewrite He in Hb. simpl in Hb. apply bool_decide_eq_false in Hb. destruct Hb. by eapply covers_nonzero, Hev.
  - right. left. by exists t.
  - by do 2 right.
Qed.

Lemma dequeue_spec r : settled r → wp dequeue (λ _ r', settled r') r.
Proof.
  intros [[H1 H2 H3 H4 H5 H6 H7] Ht]. apply wp_modify. split; [|by apply (told_same [] [] r)]. split; simpl; try done.
  intros j Hl Hwt Hi Hf. destruct (H7 j Hl Hwt Hi Hf) as [[He|[(t & Ht1 & Ht2)|(t & Ht1 & Ht2)]]|[]]; left; [by left|do 2 right..]; simpl.
  - exists t. rewrite Ht1. split; [by left|done].
  - exists t. split; [apply elem_of_app; by right|done].
Qed.

Lemma happens_spec x d edge r :
  settled r → received x = received (k_os (r_kernel r)) ++ d → sent x = sent (k_os (r_kernel r)) →
  (∀ j, fresh x j = true → fresh (k_os (r_kernel r)) j = false → interested r j → edge = true) →
  wp (happens x d edge) (λ _ r', settled r') r.
Proof.
  intros [[H1 H2 H3 H4 H5 H6 H7] [T1 T2 T3 T4 T5]] Hr Hs He. apply wp_bind, wp_modify, wp_modify. split; split; simpl; try done.
  - intros j Hl Hwt Hi Hf. left. destruct (fresh (k_os (r_kernel r)) j) eqn:Hfo.
    + destruct (H7 j Hl Hwt Hi Hfo) as [[Hk|Hk]|[]]; [left; simpl; by rewrite Hk|by right].
    + left. simpl. rewrite (He j Hf Hfo Hi). apply orb_true_r.
  - by rewrite T1, Hr, app_assoc.
  - by rewrite Hs.
Qed.

(** *** [perform_io] *)

(** The types that are still to be handled. *)
Definition todo (events : Z) (l : list op_type) (j : op_type) : Prop := covers events j ∧ j ∈ l.

Lemma told_queue_performed ps j q rest ops ex x r :
  told [] ps r → queue r j = q → (∀ o, o ∈ ops → queue_of (ro_kind o) = j) → queue_performed j q rest ops ex (k_os (r_kernel r)) x →
  ∀ r', op_queue_ (r_desc r') = set_type j rest (op_queue_ (r_desc r)) → k_os (r_kernel r') = x → r_hist r' = r_hist (after_ops x ops r) →
  told [] (ps ++ ids ops) r'.
Proof.
  intros [T1 T2 T3 T4 T5] Hq Hops [Q1 Q2 Q3 Q4 Q5 Q6] r' E1 E2 E3. split; unfold queued; rewrite ?E1, ?E2, ?E3; simpl; try done.
  - by rewrite T1, Q4, fmap_app, concat_app, app_assoc.
  - by rewrite Q5, T2, fmap_app, concat_app.
  - intros k. unfold of_type. rewrite filter_app. unfold ids. rewrite fmap_app. specialize (T3 k). unfold of_type, ids in *.
    destruct (decide (k = j)) as [->|Hne].
    + rewrite at_set_eq, (filter_all _ ops) by done. rewrite Hq, Q1 in T3. by rewrite <- !(assoc (++)) in *.
    + rewrite at_set_ne by done. rewrite (filter_none _ ops), app_nil_r; [done|]. intros o Ho. rewrite (Hops o Ho). congruence.
  - rewrite T4. unfold queued. rewrite (queued_set j _ rest (ids ops)) by (by rewrite Hq, Q1).
    rewrite <- !(assoc (++)). f_equiv. apply Permutation_app_swap_app.
Qed.

(** The queue of a type after the loop: nothing new is left for an operation in it. *)
Lemma wired_queue_performed events j l rest ops ex x r :
  wired (todo events (j :: l)) r → queue_performed j (queue r j) rest ops ex (k_os (r_kernel r)) x →
  ∀ r', r_data r' = r_data r → shutdown_ (r_desc r') = shutdown_ (r_desc r) → registered_events_ (r_desc r') = registered_events_ (r_desc r) →
  op_queue_ (r_desc r') = set_type j rest (op_queue_ (r_desc r)) → r_kernel r' = Kernel x (k_interest (r_kernel r)) (k_edge (r_kernel r)) →
  try_speculative_ (r_desc r') = set_type j (negb ex) (try_speculative_ (r_desc r)) → r_task_result r' = r_task_result r →
  r_performing r' = r_performing r → wired (todo events l) r'.
Proof.
  intros [H1 H2 H3 H4 H5 H6 H7] [Q1 [Q2 Q2'] Q3 Q4 Q5 Q6] r' E1 E2 E3 E4 E5 E6 E7 E8.
  assert (queue r j = [] → rest = []) as Hnil.
  { intros E. rewrite E in Q1. destruct ops; [|done]. by destruct rest. }
  split; rewrite ?E1, ?E2, ?E3, ?E4, ?E5; simpl; try done.
  - intros Hs k. destruct (decide (k = j)) as [->|Hne]; [rewrite at_set_eq; auto|rewrite at_set_ne by done; auto].
  - intros k. destruct (decide (k = j)) as [->|Hne]; [rewrite at_set_eq; intros Hr; apply H5; auto|rewrite at_set_ne by done; auto].
  - intros k. destruct (decide (k = j)) as [->|Hne]; [by rewrite at_set_eq|by rewrite at_set_ne].
  - intros k Hl Hwt Hi Hf. unfold waiting, on_way in *. rewrite E4, E6 in Hwt. rewrite E5, E7, E8. simpl.
    destruct (decide (k = j)) as [->|Hne].
    + rewrite !at_set_eq in Hwt. exfalso. rewrite Q6 in Hf; [done|]. destruct ex; [by right|by destruct Hwt; [left|]].
    + rewrite !at_set_ne in Hwt by done. destruct (H7 k Hl Hwt Hi (Q3 _ Hf)) as [|[Hc Hin]]; [by left|right]. split; [done|].
      apply elem_of_cons in Hin as [|]; done.
Qed.

(** The operations of [j] have had their turn, and those of other types are as before. *)
Definition quiet r (j : op_type) : Prop := queue r j = [] ∨ fresh (k_os (r_kernel r)) j = false.
Definition handled (events : Z) (j : op_type) r r' : Prop :=
  calm (k_os (r_kernel r)) (k_os (r_kernel r')) ∧ (∀ k, k ≠ j → queue r' k = queue r k) ∧ (covers events j → quiet r' j).
Lemma quiet_handled events j k r r' : handled events j r r' → k ≠ j → quiet r k → quiet r' k.
Proof.
  intros (Hc & Hq & _) Hne [Hk|Hk]; [left; by rewrite Hq|right]. destruct (fresh (k_os (r_kernel r')) k) eqn:E; [|done].
  by rewrite (Hc _ E) in Hk.
Qed.

Lemma perform_type_spec events j l ps r :
  wired (todo events (j :: l)) r → told [] ps r →
  wp (perform_type signals events j) (λ ops r', wired (todo events l) r' ∧ told [] (ps ++ ids ops) r' ∧ handled events j r r') r.
Proof.
  intros Hw Ht. unfold perform_type. destruct (has_event events (Z.lor (flag j) always_reported)) eqn:Hev.
  - apply wp_bind, wp_get, wp_bind, wp_modify, wp_bind. eapply wp_mono; [|apply (perform_queue_spec j), (w_fits _ _ Hw)].
    intros [[rest ops] ex] r1 (x & -> & Hq). apply wp_bind, wp_modify, wp_bind. simpl in Hq |- *.
    assert (∀ o, o ∈ ops → queue_of (ro_kind o) = j) as Hops.
    { intros o Ho. destruct (qp_fits _ _ _ _ _ _ _ Hq) as [Hfit _]. rewrite Forall_forall in Hfit. by apply Hfit. }
    assert (∀ A (b : A) p, set_type j b (set_type j b p) = set_type j b p) as Hss by (intros A b []; by destruct j).
    assert (∀ r', op_queue_ (r_desc r') = set_type j rest (op_queue_ (r_desc r)) → k_os (r_kernel r') = x → handled events j r r') as Hh.
    { intros r' E1 E2. unfold handled, quiet. rewrite E1, E2. split; [apply Hq|]. split; [intros k Hk; by rewrite at_set_ne|].
      intros _. rewrite at_set_eq. destruct rest; [by left|]. right. by apply (qp_quiet _ _ _ _ _ _ _ Hq); left. }
    destruct ex; [apply wp_modify|apply wp_ret]; apply wp_ret; (split; [eapply wired_queue_performed|split; [eapply told_queue_performed|]]);
      try done; try (by apply Hh); destruct j; done.
  - apply wp_ret. rewrite app_nil_r. split; [|split; [done|]].
    2: { unfold handled, covers. rewrite Hev. split; [by intros k|done]. }
    destruct Hw as [H1 H2 H3 H4 H5 H6 H7]. split; try done.
    intros k Hl Hwt Hi Hf. destruct (H7 k Hl Hwt Hi Hf) as [|[Hc Hin]]; [by left|right]. split; [done|].
    apply elem_of_cons in Hin as [->|]; [|done]. unfold covers in Hc. congruence.
Qed.

Lemma perform_io_spec events r :
  wired (covers events) r → told [] [] r →
  wp (perform_io signals events) (λ _ r', settled r' ∧ ∀ j, covers events j → quiet r' j) r.
Proof using EpLaws.
  intros Hw Ht. apply wp_bind. eapply wp_mono; [|apply (perform_type_spec events except_op [write_op; read_op] []); [|done]].
  - intros e r1 (Hw1 & Ht1 & Hh1). apply wp_bind. eapply wp_mono; [|by apply (perform_type_spec events write_op [read_op])].
    intros w r2 (Hw2 & Ht2 & Hh2). apply wp_bind. eapply wp_mono; [|by apply (perform_type_spec events read_op [])].
    intros d r3 (Hw3 & Ht3 & Hh3). apply wp_modify. split; [split|].
    + apply wired_hist. destruct Hw3 as [H1 H2 H3 H4 H5 H6 H7]. split; try done. intros j Hl Hwt Hi Hf.
      destruct (H7 j Hl Hwt Hi Hf) as [|[_ []%not_elem_of_nil]]. by left.
    + apply told_posted. unfold ids in *. rewrite !fmap_app, app_nil_r, (assoc (++)). done.
    + intros j Hc. change (quiet r3 j). destruct j; [by apply Hh3|by eapply quiet_handled, Hh2|].
      eapply quiet_handled; [done..|]. eapply quiet_handled; [done..|]. by apply Hh1.
  - destruct Hw as [H1 H2 H3 H4 H5 H6 H7]. split; try done. intros j Hl Hwt Hi Hf.
    destruct (H7 j Hl Hwt Hi Hf) as [|Hc]; [by left|right]. split; [done|]. destruct j; set_solver.
Qed.

Lemma do_complete_spec t r :
  settled r → wp (do_complete signals t) (λ _ r', settled r' ∧ ∀ ev j, r_performing r !! t = Some ev → covers ev j → quiet r' j) r.
Proof using EpLaws.
  intros [[H1 H2 H3 H4 H5 H6 H7] Ht]. apply wp_bind, wp_get. destruct (r_performing r !! t) as [ev|] eqn:Hp; [|done].
  apply wp_bind, wp_modify. eapply wp_mono; [|apply (perform_io_spec ev); [|by apply (told_same [] [] r)]].
  - intros _ r' [Hs Hq]. split; [done|]. intros ev' j [= <-]. auto.
  - split; simpl; try done.
    intros j Hl Hwt Hi Hf. destruct (H7 j Hl Hwt Hi Hf) as [[He|[Hr|(u & Hu & Hc)]]|[]]; [left; by left|left; right; by left|].
    rewrite (delete_Permutation _ _ _ Hp) in Hu. apply elem_of_cons in Hu as [->|Hu]; [by right|]. left. do 2 right. by exists u.
Qed.

Lemma reactor_step_settled r r' : settled r → reactor_step r r' → settled r'.
Proof using EpLaws.
  intros Hs Hstep. destruct Hstep; (eapply (wp_done _ (λ _ r', settled r')); [|done]).
  - by apply async_start_spec.
  - by apply cancel_ops_spec.
  - by apply cancel_ops_by_key_spec.
  - by apply service_close_spec.
  - by apply do_open_spec.
  - by apply wait_events_spec.
  - by apply dequeue_spec.
  - eapply wp_mono; [|by apply do_complete_spec]. by intros _ ? [].
  - by apply happens_spec.
  - by apply shutdown_spec.
Qed.

Lemma reachable_settled r : reactor_reachable r → settled r.
Proof using EpLaws.
  apply reachable_inv; [|intros; by eapply reactor_step_settled]. intros r0 (x & Hr & Hs & ->).
  split; [apply wired_shut; [by intros []|done]|]. split; simpl; [by rewrite Hr|by rewrite Hs|by intros []|done|constructor].
Qed.

Lemma nonblocking_perform_op o : nonblocking (S := reactor os) (perform_op signals o).
Proof.
  intros r. unfold perform_op. cbv zeta. destruct (perform _ o _) as [[[] o'] x| |] eqn:E; try done.
  intros _. by apply nonblocking_perform in E.
Qed.
#[local] Hint Resolve nonblocking_perform_op : ccpp.
Lemma nonblocking_perform_io events : nonblocking (S := reactor os) (perform_io signals events).
Proof.
  assert (∀ q, nonblocking (S := reactor os) (perform_queue signals q)) as Hq by (intros q; induction q; simpl; solve_nonblocking).
  unfold perform_io, perform_type, post, set_desc, set_hist. solve_nonblocking.
Qed.

Lemma do_complete_done t ev r : settled r → r_performing r !! t = Some ev →
  ∃ r', do_complete signals t r = Done tt r' ∧ settled r' ∧ ∀ j, covers ev j → quiet r' j.
Proof using EpLaws.
  intros Hs Hp. pose proof (do_complete_spec t r Hs) as Hw. unfold wp in Hw.
  destruct (do_complete signals t r) as [[] r'| |] eqn:E; [|exfalso|done].
  - exists r'. split; [done|]. destruct Hw as [Hs' Hq]. split; [done|]. eauto.
  - unfold do_complete in E. rewrite get_state_bind, Hp in E. apply bind_block in E as [|(u & r1 & _ & E)]; [done|].
    by apply nonblocking_perform_io in E.
Qed.

(** ** Theorems *)

(** C15: No operation is stranded, although [epoll] reports a change only once: when there
    is something new for an operation that waits in a queue of a descriptor, whatever
    operations were started, completed at once, cancelled or performed before, then
    [epoll] has the descriptor on its list, and the next [epoll_wait] reports the event;
    or the event is with the descriptor in the queue of the scheduler; or a thread is
    about to call [perform_io] for it, which returns when the queue is empty or nothing
    new is left.  An end of the stream that a read has reported is not new any more, and
    operations are on streams; an accept that does not ask for aborted connections
    does not meet any ([good_op]): such an accept, and a second read at the end, can be stranded
    ([aborted_connection_strands_accept] and the theorem before that one). *)
Theorem reactor_strands_no_op r j :
  reactor_reachable r → queue r j ≠ [] → fresh (k_os (r_kernel r)) j = true →
  (∃ r' t, wait_events r = Done tt r' ∧ r_task_result r' = Some t ∧ covers t j) ∨
  (∃ t, r_task_result r = Some t ∧ covers t j) ∨
  ∃ i ev r', r_performing r !! i = Some ev ∧ covers ev j ∧ do_complete signals i r = Done tt r' ∧
    (queue r' j = [] ∨ fresh (k_os (r_kernel r')) j = false).
Proof using EpLaws.
  intros Hr Hq Hf. apply reachable_settled in Hr. destruct Hr as [Hw Ht]. pose proof (w_queue _ _ Hw j Hq) as Hi.
  assert (live r) as Hl.
  { destruct (shutdown_ (r_desc r)) eqn:E; [|done]. by rewrite (w_shut _ _ Hw E j) in Hq. }
  destruct (w_way _ _ Hw j Hl (or_introl Hq) Hi Hf) as [[He|[Hr|(ev & Hp & Hc)]]|[]]; [left|by right; left|do 2 right].
  - pose proof (reported_fresh _ _ _ Hi Hf) as Hc. unfold wait_events. rewrite get_state_bind. cbv zeta. rewrite He.
    rewrite bool_decide_true by (by eapply covers_nonzero). do 2 eexists. split; [done|]. split; [done|]. simpl.
    unfold covers in *. destruct (r_task_result r); [rewrite has_event_lor, Hc; apply orb_true_r|done].
  - apply list_elem_of_lookup in Hp as [i Hp]. destruct (do_complete_done i ev r) as (r' & Hd & _ & Hqt); [by split|done|].
    exists i, ev, r'. split_and!; [done..|]. by apply Hqt.
Qed.

(** C16: Operations take their turns in order, and the stream goes through them unharmed:
    the operations of a type that were performed, and then those in the queue, are in
    the order in which they were started; what the reads took, in the order in which
    they were performed, and what is left in the socket are all bytes that have arrived;
    and what the socket was given is what the writes gave.  Each operation that was
    started is in one queue, or was handed to the scheduler once, or destroyed by a
    shutdown. *)
Theorem reactor_streams_in_order r :
  reactor_reachable r →
  h_arrived (r_hist r) = concat (took <$> h_log (r_hist r)) ++ received (k_os (r_kernel r)) ∧
  sent (k_os (r_kernel r)) = concat (gave <$> h_log (r_hist r)) ∧
  (∀ j, of_type j (h_log (r_hist r)) ++ ids (queue r j) `sublist_of` of_type j (h_started (r_hist r))) ∧
  ids (h_started (r_hist r)) ≡ₚ ids (h_posted (r_hist r)) ++ queued r ++ ids (h_destroyed (r_hist r)) ∧
  NoDup (ids (h_posted (r_hist r)) ++ queued r ++ ids (h_destroyed (r_hist r))).
Proof using EpLaws.
  intros Hr. apply reachable_settled in Hr. destruct Hr as [_ [H1 H2 H3 H4 H5]]. split_and!; try done.
  - intros j. specialize (H3 j). unfold of_type at 2 in H3. by rewrite filter_nil, app_nil_r in H3.
  - by rewrite <- H4.
Qed.
End steps.

(** ** A socket *)

(** A connected stream: what can be read, whether the other side has closed and [recv]
    has said so, the room for what is written, and what was written. *)
Record stream : Type := Stream { s_rx : text; s_fin : bool; s_told : bool; s_room : nat; s_out : text }.

#[global] Instance stream_os : Os stream := {
  sys_recv n x :=
    match s_rx x with
    | [] => if s_fin x then (inl [], Stream [] true true (s_room x) (s_out x)) else (inr would_block, x)
    | d => (inl (take n d), Stream (drop n d) (s_fin x) (s_told x) (s_room x) (s_out x))
    end;
  sys_send d x :=
    if decide (s_room x = 0 ∧ d ≠ []) then (inr would_block, x)
    else let n := Nat.min (length d) (s_room x) in
         (inl n, Stream (s_rx x) (s_fin x) (s_told x) (s_room x - n) (s_out x ++ take n d));
  sys_accept x := (inr (other_errno 22), x);
  sys_poll_out x := bool_decide (s_room x ≠ 0);
  sys_so_error x := (inl 0%Z, x) }.

Definition stream_fresh (x : stream) (j : op_type) : bool :=
  match j with
  | read_op => bool_decide (s_rx x ≠ []) || (s_fin x && negb (s_told x))
  | write_op => bool_decide (s_room x ≠ 0)
  | except_op => false
  end.

#[global] Instance stream_epoll : Epoll stream := {
  poll_events x := Z.lor (if bool_decide (s_rx x ≠ []) || s_fin x then EPOLLIN else 0)
                         (if bool_decide (s_room x ≠ 0) then EPOLLOUT else 0) }.

#[global] Instance stream_laws : OsLaws stream.
Proof.
  refine {| received := s_rx; sent := s_out; signals := λ _, 0; fresh := stream_fresh |}.
  all: try done.
  - intros n [[|c d] [] told room out] d' x'; simpl; intros [= <- <-]; simpl; (split_and!; [rewrite ?length_take; simpl; lia|..]); try done;
      try (by rewrite take_drop); intros E Hn; by destruct n.
  - intros n [[|c d] [] told room out] e x'; simpl; intros [= <- <-]. by split_and!.
  - intros d [rx fin told room out] n x'; simpl. case_decide; [done|]. intros [= <- <-]. simpl. split_and!; [lia|done..|].
    intros Hn. apply bool_decide_eq_false. lia.
  - intros d [rx fin told room out] e x'; simpl. case_decide as Hd; [|done]. intros [= <- <-]. split_and!; [done..|]. simpl.
    apply bool_decide_eq_false. lia.
  - intros x e x'. simpl. intros [= <- <-]. done.
  - intros x r x'. simpl. by intros [= <- <-].
  - intros n [[|c d] [] told room out] r x' j; simpl; intros [= <- <-]; destruct j; simpl; try done; by rewrite ?orb_true_r, ?andb_false_r.
  - intros d [rx fin told room out] r x' j. simpl. case_decide; intros [= <- <-]; [done|]. destruct j; simpl; try done.
    rewrite !bool_decide_eq_true. lia.
  - intros x r x' j. simpl. by intros [= <- <-].
  - intros x r x' j. simpl. by intros [= <- <-].
Defined.

#[global] Instance stream_epoll_laws : EpollLaws stream.
Proof.
  split. intros [rx fin told room out] j. unfold fresh, stream_laws, stream_fresh, poll_events, stream_epoll. simpl.
  destruct (bool_decide (rx ≠ [])), fin, (bool_decide (room ≠ 0)), j; done.
Qed.

(** ** Runs *)

Definition idle_env : start_env := StartEnv None None connected false.
Definition read_of (id : nat) : reactor_op := new_op id (recv_op 4096 true) None.
Definition write_of (id : nat) (d : text) : reactor_op := new_op id (send_op d true) None.

(** What a program, the scheduler and the network do with a socket. *)
Inductive deed : Type :=
  | do_start (o : reactor_op)
  | do_cancel
  | do_arrive (x : stream) (d : text) (edge : bool)
  | do_wait
  | do_dequeue
  | do_perform (t : nat).
Definition run_deed (d : deed) : comp (reactor stream) unit :=
  match d with
  | do_start o => async_start signals o idle_env
  | do_cancel => cancel_ops
  | do_arrive x d edge => happens x d edge
  | do_wait => wait_events
  | do_dequeue => dequeue
  | do_perform t => do_complete signals t
  end.
Definition deed_allowed (r : reactor stream) (d : deed) : Prop :=
  match d with
  | do_start o => ro_id o ∉ ids (h_started (r_hist r)) ∧ match ro_kind o with recv_op _ s => s = true | accept_op _ => False | _ => True end
  | do_arrive x d edge => received x = received (k_os (r_kernel r)) ++ d ∧ sent x = sent (k_os (r_kernel r)) ∧ edge = true
  | do_wait => r_task_result r = None
  | _ => True
  end.
#[global] Instance deed_allowed_dec r d : Decision (deed_allowed r d).
Proof. destruct d as [o| | | | |]; simpl; try apply _. destruct (ro_kind o); apply _. Defined.

Definition do_deed (d : deed) : comp (reactor stream) unit := λ r, if decide (deed_allowed r d) then run_deed d r else Block.

Lemma deed_step d r r' : do_deed d r = Done tt r' → reactor_step r r'.
Proof.
  unfold do_deed. case_decide as Ha; [|done]. intros Hd. destruct d; simpl in *.
  - destruct Ha as [Hn Hk]. eapply step_start; [done| |done]. unfold good_op. by destruct (ro_kind o).
  - by eapply step_cancel.
  - destruct Ha as (H1 & H2 & ->). eapply step_happens; [done..| |done]. done.
  - by eapply step_wait.
  - by eapply step_dequeue.
  - by eapply step_complete.
Qed.

(** A socket that is open, with room for ten bytes. *)
Definition opened : option (reactor stream) :=
  match do_open (Stream [] false false 10 []) add_ok (new_reactor (Stream [] false false 0 [])) with Done _ r => Some r | _ => None end.
Definition run_opened (ds : list deed) : option (reactor stream) := r ← opened; run_deeds do_deed ds r.
Lemma run_opened_reachable ds r : run_opened ds = Some r → reactor_reachable r.
Proof.
  intros Hr. unfold run_opened in Hr. apply bind_Some in Hr as (r1 & Ho & Hr). eapply run_deeds_reachable; [apply deed_step| |done]. unfold opened in Ho.
  destruct (do_open _ _ _) as [[] r0| |] eqn:E; simplify_eq. eapply reachable_step; [apply reachable_init; by exists (Stream [] false false 0 [])|].
  by eapply (step_open _ (Stream [] false false 10 []) add_ok).
Qed.

Definition after_deeds (ds : list deed) : reactor stream := default (new_reactor (Stream [] false false 0 [])) (run_opened ds).
Lemma after_deeds_reachable ds : is_Some (run_opened ds) → reactor_reachable (after_deeds ds).
Proof. intros [r Hr]. unfold after_deeds. rewrite Hr. by eapply run_opened_reachable. Qed.

(** A read waits, and data arrives; and then it is read, and written back. *)
Definition waiting_reactor : reactor stream :=
  after_deeds [do_start (read_of 1); do_arrive (Stream (lit "abc") false false 10 []) (lit "abc") true].
Definition echoed_reactor : reactor stream :=
  after_deeds [do_start (read_of 1); do_arrive (Stream (lit "abc") false false 10 []) (lit "abc") true; do_wait; do_dequeue; do_perform 0;
               do_start (write_of 2 (lit "abcdefghijkl")); do_start (read_of 3)].

Lemma waiting_reactor_reachable : reactor_reachable waiting_reactor.
Proof. apply after_deeds_reachable. vm_compute. eauto. Qed.
Lemma echoed_reactor_reachable : reactor_reachable echoed_reactor.
Proof. apply after_deeds_reachable. vm_compute. eauto. Qed.

Lemma reactor_strands_no_op_witness :
  ∃ r' t, wait_events waiting_reactor = Done tt r' ∧ r_task_result r' = Some t ∧ covers t read_op.
Proof.
  destruct (reactor_strands_no_op waiting_reactor read_op waiting_reactor_reachable ltac:(by_decide) ltac:(vm_compute; reflexivity))
    as [H|[(t & H & _)|(i & ev & r' & H & _)]]; [exact H|vm_compute in H; discriminate H|].
  destruct i; vm_compute in H; discriminate H.
Defined.

Lemma reactor_streams_in_order_witness :
  h_arrived (r_hist echoed_reactor) = lit "abc" ∧ sent (k_os (r_kernel echoed_reactor)) = lit "abcdefghij" ∧
  h_arrived (r_hist echoed_reactor) = concat (took <$> h_log (r_hist echoed_reactor)) ++ received (k_os (r_kernel echoed_reactor)).
Proof.
  split; [vm_compute; reflexivity|]. split; [vm_compute; reflexivity|].
  exact (proj1 (reactor_streams_in_order echoed_reactor echoed_reactor_reachable)).
Defined.

(** C39: A read that is started after the end of the stream was reported waits for ever:
    [recv] would say at once that the stream has ended, but it is not called, because
    the last read has found the descriptor exhausted, and no event is on its way. *)
Theorem read_after_eof_waits :
  ∃ r : reactor stream, reactor_reachable r ∧
    h_posted (r_hist r) = [with_result (Some err_eof) 0 [] None (read_of 1)] ∧ ids (at_type read_op (op_queue_ (r_desc r))) = [2] ∧
    sys_recv 4096 (k_os (r_kernel r)) = (inl [], k_os (r_kernel r)) ∧
    k_edge (r_kernel r) = false ∧ r_task_result r = None ∧ r_performing r = [].
Proof.
  exists (after_deeds [do_start (read_of 1); do_arrive (Stream [] true false 10 []) [] true; do_wait; do_dequeue; do_perform 0;
                       do_start (read_of 2)]).
  split; [apply after_deeds_reachable; vm_compute; eauto|]. split_and!; vm_compute; reflexivity.
Qed.

(** ** A listening socket *)

(** The connections that wait; [None] for one that was aborted. *)
Record listener : Type := Listener { backlog : list (option nat) }.
#[global] Instance listener_os : Os listener := {
  sys_recv _ x := (inr (other_errno 107), x);
  sys_send _ x := (inr (other_errno 107), x);
  sys_accept x :=
    match backlog x with
    | [] => (inr would_block, x)
    | Some s :: l => (inl s, Listener l)
    | None :: l => (inr connection_aborted, Listener l)
    end;
  sys_poll_out _ := false;
  sys_so_error x := (inl 0%Z, x) }.
#[global] Instance listener_epoll : Epoll listener := { poll_events x := if decide (backlog x = []) then 0%Z else EPOLLIN }.

(** A connection can be left waiting: two connections come, the first is aborted before
    it is accepted, and [accept] reports that; [perform_io] takes this for a call that
    would block.  The second connection waits, although an [async_accept] is there, until
    a third one comes. *)
Theorem aborted_connection_strands_accept :
  ∃ r : reactor listener,
    (do_open (Listener []) add_ok;; async_start (λ _, 0) (new_op 1 (accept_op false) None) idle_env;;
     happens (Listener [None; Some 7]) [] true;; wait_events;; dequeue;; do_complete (λ _, 0) 0) (Reactor false
       (DescriptorState 0 (PerType [] [] []) (PerType true true true) true) (Kernel (Listener []) 0 false) None [] (History [] [] [] [] []))
    = Done tt r ∧
    ids (at_type read_op (op_queue_ (r_desc r))) = [1] ∧ backlog (k_os (r_kernel r)) = [Some 7] ∧
    k_edge (r_kernel r) = false ∧ r_task_result r = None ∧ r_performing r = [].
Proof. eexists. split; [vm_compute; reflexivity|]. by split_and!. Qed.
