(* ===== verification/AsioWrite.v ===== *)
(** * [async_write] of asio

    The composed operation that writes a sequence of buffers.  The stream may take less
    than it is offered, and at most sixteen buffers and 65536 bytes are offered at a time;
    [consuming_buffers] keeps the position.  The operation is proved against an interface
    of buffers that are consumed, which the general class and the one for a single buffer
    implement. *)

From S2P Require Import Prelude Conc Text Socket.
From stdpp Require Import options.

(** ** Interface *)

Class ConsumingBuffers (C : Type) : Type := {
  cb_empty : C → bool;
  cb_prepare : nat → C → list text;
  cb_consume : nat → C → C;
  cb_total : C → nat }.

(** What is left to write: a prefix of it is prepared, and consumed. *)
Class ConsumingLaws (C : Type) `{ConsumingBuffers C} : Type := {
  cb_ok : C → Prop;
  cb_rest : C → text;
  cb_empty_ok c : cb_ok c → cb_empty c = bool_decide (cb_rest c = []);
  cb_prepare_ok n c : cb_ok c →
    concat (cb_prepare n c) `prefix_of` cb_rest c ∧ length (concat (cb_prepare n c)) ≤ n ∧
    (n ≠ 0 → cb_rest c ≠ [] → concat (cb_prepare n c) ≠ []);
  cb_consume_ok m c : cb_ok c → m ≤ length (cb_rest c) →
    cb_ok (cb_consume m c) ∧ cb_rest (cb_consume m c) = drop m (cb_rest c) ∧ cb_total (cb_consume m c) = cb_total c + m }.

(** ** [consuming_buffers] *)

Record consuming_buffers : Type := ConsumingBufs {
  buffers_ : list text;
  total_size_ : nat;
  total_consumed_ : nat;
  next_elem_ : nat;
  next_elem_offset_ : nat }.

Definition new_consuming_buffers (buffers : list text) : consuming_buffers :=
  ConsumingBufs buffers (length (concat buffers)) 0 0 0.

(** [prepared_buffers::max_buffers] *)
Definition max_buffers : nat := 16.

(** The loop of [prepare] from [next] on: [buffer(next_buf, max_size)] is a prefix. *)
Fixpoint prepare_loop (bufs : list text) (elem_offset max_size count : nat) : list text :=
  match bufs with
  | [] => []
  | b :: bufs =>
      if decide (0 < max_size ∧ count < max_buffers) then
        let d := take max_size (drop elem_offset b) in
        if decide (d = []) then prepare_loop bufs 0 max_size count
        else d :: prepare_loop bufs 0 (max_size - length d) (S count)
      else []
  end.

(** The loop of [consume]: the new [next_elem_] and [next_elem_offset_]. *)
Fixpoint consume_loop (bufs : list text) (size elem offset : nat) : nat * nat :=
  match bufs with
  | [] => (elem, offset)
  | b :: bufs =>
      if decide (0 < size) then
        let n := length (drop offset b) in
        if decide (size < n) then (elem, offset + size) else consume_loop bufs (size - n) (S elem) 0
      else (elem, offset)
  end.

#[global] Instance consuming_buffers_ops : ConsumingBuffers consuming_buffers := {
  cb_empty c := bool_decide (total_size_ c ≤ total_consumed_ c);
  cb_prepare max_size c := prepare_loop (drop (next_elem_ c) (buffers_ c)) (next_elem_offset_ c) max_size 0;
  cb_consume size c :=
    let (elem, offset) := consume_loop (drop (next_elem_ c) (buffers_ c)) size (next_elem_ c) (next_elem_offset_ c) in
    ConsumingBufs (buffers_ c) (total_size_ c) (total_consumed_ c + size) elem offset;
  cb_total c := total_consumed_ c }.

(** ** [consuming_single_buffer] *)

Record consuming_single_buffer : Type := ConsumingSingle { sb_buffer_ : text; sb_total_consumed_ : nat }.

#[global] Instance consuming_single_ops : ConsumingBuffers consuming_single_buffer := {
  cb_empty c := bool_decide (length (sb_buffer_ c) ≤ sb_total_consumed_ c);
  cb_prepare max_size c := [take max_size (drop (sb_total_consumed_ c) (sb_buffer_ c))];
  cb_consume size c := ConsumingSingle (sb_buffer_ c) (sb_total_consumed_ c + size);
  cb_total c := sb_total_consumed_ c }.

(** ** [write_op] *)

(** What the stream does with each [async_write_some]: it takes at most so many bytes,
    but at least one, or fails.  After that it takes everything. *)
Inductive write_grant : Type := takes (n : nat) | write_fails (e : net_error).

(** [async_write_some]: nothing is written for empty buffers; what was written goes to
    the end of [out]. *)
Definition async_write_some (bufs : list text) (gs : list write_grant) (out : text)
    : (option net_error * nat) * list write_grant * text :=
  let d := concat bufs in
  if decide (d = []) then (None, 0, gs, out)
  else match gs with
  | [] => (None, length d, [], out ++ d)
  | takes n :: gs => let k := Nat.min (Nat.max n 1) (length d) in (None, k, gs, out ++ take k d)
  | write_fails e :: gs => (Some e, 0, gs, out)
  end.

(** [transfer_all_t] *)
Definition default_max_transfer_size : nat := Z.to_nat 65536.
Definition check_for_completion (ec : option net_error) (total : nat) : nat :=
  match ec with Some _ => 0 | None => default_max_transfer_size end.

Section write.
Context {C : Type} `{ConsumingBuffers C}.

(** The arguments of the handler, and what the stream has; nothing without fuel.  The handlers have no
    cancellation slot, so [cancelled()] is always [none] and is left out. *)
Fixpoint write_loop (fuel : nat) (max_size : nat) (c : C) (gs : list write_grant) (out : text)
    : option (option net_error * nat * list write_grant * text) :=
  match fuel with
  | 0 => None
  | S fuel =>
      let '(ec, bytes_transferred, gs, out) := async_write_some (cb_prepare max_size c) gs out in
      let c := cb_consume bytes_transferred c in
      if (bool_decide (ec = None) && bool_decide (bytes_transferred = 0)) || cb_empty c then Some (ec, cb_total c, gs, out)
      else
        let max_size := check_for_completion ec (cb_total c) in
        if decide (max_size = 0) then Some (ec, cb_total c, gs, out) else write_loop fuel max_size c gs out
  end.

Definition async_write (fuel : nat) (c : C) (gs : list write_grant) (out : text) : option (option net_error * nat * list write_grant * text) :=
  write_loop fuel (check_for_completion None (cb_total c)) c gs out.
End write.

(** ** The buffers *)

(** An offset into the first buffer. *)
Definition offset_ok (bufs : list text) (offset : nat) : Prop := match bufs with [] => offset = 0 | b :: _ => offset ≤ length b end.

Lemma offset_ok_0 bufs : offset_ok bufs 0.
Proof. destruct bufs; simpl; lia. Qed.

Lemma prepare_loop_spec bufs offset max count (d := concat (prepare_loop bufs offset max count)) :
  offset_ok bufs offset →
  d `prefix_of` drop offset (concat bufs) ∧ length d ≤ max ∧
  (max ≠ 0 → count < max_buffers → drop offset (concat bufs) ≠ [] → d ≠ []).
Proof.
  unfold d. clear d. revert offset max count. induction bufs as [|b bufs IH]; intros offset max count Ho; cbn [prepare_loop concat].
  - split_and!; [apply prefix_nil|simpl; lia|]. rewrite drop_nil. done.
  - simpl in Ho. destruct (decide (0 < max ∧ count < max_buffers)) as [[Hm Hc]|Hn]; [|split_and!; [apply prefix_nil|simpl; lia|lia]].
    rewrite drop_app_le by done. set (r := drop offset b). destruct (decide (take max r = [])) as [Hd|Hd].
    + assert (r = []) as -> by (destruct r; [done|]; destruct max; [lia|done]). simpl.
      destruct (IH 0 max count (offset_ok_0 _)) as (H1 & H2 & H3). rewrite drop_0 in *. done.
    + destruct (IH 0 (max - length (take max r)) (S count) (offset_ok_0 _)) as (H1 & H2 & _). rewrite drop_0 in H1.
      cbn [concat]. split_and!; [|rewrite length_app; rewrite length_take in *; lia|by destruct (take max r)].
      destruct (decide (length r ≤ max)) as [Hl|Hl]; [rewrite take_ge in * by done; by apply prefix_app|].
      assert (concat (prepare_loop bufs 0 (max - length (take max r)) (S count)) = []) as ->.
      { apply length_zero_iff_nil. rewrite length_take in H2 |- *. lia. }
      rewrite app_nil_r. apply prefix_app_r, prefix_take.
Qed.

Lemma consume_loop_spec bufs size elem offset :
  offset_ok bufs offset → size ≤ length (drop offset (concat bufs)) →
  ∃ k offset', consume_loop bufs size elem offset = (elem + k, offset') ∧
    length (concat (take k bufs)) + offset' = offset + size ∧ offset_ok (drop k bufs) offset'.
Proof.
  revert size elem offset. induction bufs as [|b bufs IH]; intros size elem offset Ho Hs; cbn [consume_loop].
  - exists 0, offset. rewrite Nat.add_0_r. simpl in *. rewrite drop_nil in Hs. simpl in Hs. split_and!; [done|lia|done].
  - simpl in Ho. cbn [concat] in Hs. rewrite drop_app_le, length_app, length_drop in Hs by done. rewrite length_drop.
    destruct (decide (0 < size)) as [Hp|Hp]; [|exists 0, offset; rewrite Nat.add_0_r; simpl; split_and!; [done|lia|done]].
    destruct (decide (size < length b - offset)) as [Hlt|Hge]; [exists 0, (offset + size); rewrite Nat.add_0_r; simpl; split_and!; [done|lia|lia]|].
    destruct (IH (size - (length b - offset)) (S elem) 0) as (k & o' & H1 & H2 & H3); [apply offset_ok_0|rewrite drop_0; lia|].
    exists (S k), o'. cbn [take drop concat]. rewrite length_app. split_and!; [rewrite H1; f_equal; lia|lia|done].
Qed.

Definition consuming_ok (c : consuming_buffers) : Prop :=
  total_size_ c = length (concat (buffers_ c)) ∧ offset_ok (drop (next_elem_ c) (buffers_ c)) (next_elem_offset_ c) ∧
  total_consumed_ c = length (concat (take (next_elem_ c) (buffers_ c))) + next_elem_offset_ c.
Definition consuming_rest (c : consuming_buffers) : text := drop (next_elem_offset_ c) (concat (drop (next_elem_ c) (buffers_ c))).

Lemma length_rest c : consuming_ok c → length (consuming_rest c) = total_size_ c - total_consumed_ c ∧ total_consumed_ c ≤ total_size_ c.
Proof.
  intros (H1 & H2 & H3). unfold consuming_rest. rewrite H1, H3, length_drop.
  assert (length (concat (buffers_ c)) = length (concat (take (next_elem_ c) (buffers_ c))) + length (concat (drop (next_elem_ c) (buffers_ c)))) as ->.
  { by rewrite <- length_app, <- concat_app, take_drop. }
  assert (next_elem_offset_ c ≤ length (concat (drop (next_elem_ c) (buffers_ c)))); [|lia].
  destruct (drop (next_elem_ c) (buffers_ c)); simpl in *; rewrite ?length_app; lia.
Qed.

#[global] Instance consuming_buffers_laws : ConsumingLaws consuming_buffers.
Proof.
  refine {| cb_ok := consuming_ok; cb_rest := consuming_rest |}.
  - intros c Hc. destruct (length_rest c Hc) as [Hl Hle]. simpl. apply bool_decide_ext. rewrite <- length_zero_iff_nil. lia.
  - intros n c (H1 & H2 & H3). destruct (prepare_loop_spec _ _ n 0 H2) as (P1 & P2 & P3). split_and!; [done..|].
    intros Hn Hr. apply P3; [done|unfold max_buffers; lia|done].
  - intros m c Hc Hm. pose proof Hc as (H1 & H2 & H3). simpl.
    destruct (consume_loop_spec _ m (next_elem_ c) _ H2 Hm) as (k & o' & -> & C1 & C2). unfold consuming_ok, consuming_rest in *. simpl.
    rewrite <- take_take_drop, <- drop_drop, concat_app, length_app.
    set (l := drop (next_elem_ c) (buffers_ c)) in *.
    assert (drop o' (concat (drop k l)) = drop m (drop (next_elem_offset_ c) (concat l))) as Hrest.
    { rewrite (drop_drop (concat l)), <- C1. transitivity (drop (length (concat (take k l)) + o') (concat (take k l ++ drop k l))).
      - rewrite concat_app. by rewrite drop_app_add.
      - by rewrite take_drop. }
    split_and!; [done|done|lia|done|done].
Defined.

Lemma new_consuming_ok bufs : cb_ok (new_consuming_buffers bufs) ∧ cb_rest (new_consuming_buffers bufs) = concat bufs.
Proof. split; [|done]. split_and!; [done|apply offset_ok_0|done]. Qed.

#[global] Instance consuming_single_laws : ConsumingLaws consuming_single_buffer.
Proof.
  refine {| cb_ok := λ c, sb_total_consumed_ c ≤ length (sb_buffer_ c); cb_rest := λ c, drop (sb_total_consumed_ c) (sb_buffer_ c) |}.
  - intros c Hc. simpl. apply bool_decide_ext. rewrite <- length_zero_iff_nil, length_drop. lia.
  - intros n c Hc. simpl. rewrite app_nil_r. split_and!; [apply prefix_take|rewrite length_take; lia|].
    intros Hn Hr E. destruct (drop (sb_total_consumed_ c) (sb_buffer_ c)); [done|]. by destruct n.
  - intros m c Hc Hm. simpl in *. rewrite length_drop in Hm. rewrite drop_drop. split_and!; [lia|done..].
Defined.

(** ** The operation *)

Section correct.
Context {C : Type} `{ConsumingLaws C}.

(** What was offered is taken in part, or the stream fails. *)
Lemma async_write_some_spec bufs gs out :
  ∃ ec n gs', async_write_some bufs gs out = (ec, n, gs', out ++ take n (concat bufs)) ∧ n ≤ length (concat bufs) ∧
    (∀ g, g ∈ gs' → g ∈ gs) ∧
    match ec with
    | None => n = 0 → concat bufs = []
    | Some e => n = 0 ∧ write_fails e ∈ gs
    end.
Proof.
  unfold async_write_some. destruct (decide (concat bufs = [])) as [->|Hne].
  { exists None, 0, gs. rewrite app_nil_r. by split_and!. }
  destruct gs as [|[n|e] gs].
  - exists None, (length (concat bufs)), []. rewrite take_ge by done. split_and!; [done..|]. by intros ?%length_zero_iff_nil.
  - eexists None, _, gs. split_and!; [done|lia|by right|]. intros Hn. apply length_zero_iff_nil. destruct (concat bufs); simpl in *; lia.
  - exists (Some e), 0, gs. rewrite app_nil_r. split_and!; [done|lia|by right|done|by left].
Qed.

Lemma write_loop_spec fuel max c gs out :
  cb_ok c → max ≠ 0 → length (cb_rest c) < fuel →
  ∃ ec k gs', write_loop fuel max c gs out = Some (ec, cb_total c + k, gs', out ++ take k (cb_rest c)) ∧ k ≤ length (cb_rest c) ∧
    match ec with None => k = length (cb_rest c) | Some e => write_fails e ∈ gs end.
Proof.
  revert max c gs out. induction fuel as [|fuel IH]; intros max c gs out Hc Hm Hf; [lia|]. cbn [write_loop].
  destruct (cb_prepare_ok max c Hc) as ([r Hr] & _ & Hne). destruct (async_write_some_spec (cb_prepare max c) gs out) as (ec & n & gs1 & -> & Hn & Hg & Hec).
  assert (n ≤ length (cb_rest c)) as Hn' by (rewrite Hr, length_app; lia).
  destruct (cb_consume_ok n c Hc Hn') as (Hc1 & Hr1 & Ht1).
  assert (take n (concat (cb_prepare max c)) = take n (cb_rest c)) as -> by (rewrite Hr, take_app_le; done).
  rewrite cb_empty_ok by done. rewrite Hr1.
  assert (length (drop n (cb_rest c)) = length (cb_rest c) - n) as Hl by apply length_drop.
  destruct ec as [e|]; cbn [check_for_completion].
  - destruct Hec as [-> He]. exists (Some e), 0, gs1. rewrite Ht1, (bool_decide_false (_ = None)) by done. cbn [andb orb].
    rewrite (decide_True (P := 0 = 0)) by done. case_bool_decide; split_and!; try done; lia.
  - destruct (decide (n = 0)) as [->|Hn0].
    + assert (cb_rest c = []) as Hnil by (destruct (decide (cb_rest c = [])); [done|]; destruct (Hne Hm); auto).
      exists None, 0, gs1. rewrite Hnil, Ht1. rewrite !bool_decide_true by done. by split_and!.
    + rewrite (bool_decide_true (_ = None)), (bool_decide_false (n = 0)) by done. cbn [andb orb]. case_bool_decide as Hd.
      * apply length_zero_iff_nil in Hd. exists None, n, gs1. rewrite Ht1. split_and!; [done|done|lia].
      * rewrite decide_False by (unfold default_max_transfer_size; lia).
        destruct (IH default_max_transfer_size (cb_consume n c) gs1 (out ++ take n (cb_rest c)) Hc1) as (ec' & k & gs' & -> & Hk & Hec');
          [unfold default_max_transfer_size; lia|rewrite Hr1; lia|].
        exists ec', (n + k), gs'. rewrite Ht1, Hr1, <- app_assoc, take_take_drop, Nat.add_assoc. rewrite Hr1 in Hk, Hec'.
        split_and!; [done|lia|]. destruct ec'; [auto|lia].
Qed.

(** C17: [async_write] writes everything, however little the stream takes at a time and however
    the data is spread over buffers: when the handler is called without an error, the
    stream has been given all bytes, in order and each once, and the handler is told
    their number.  An error is one of the stream, and then the stream has the number of
    bytes that the handler is told. *)
Theorem async_write_correct c gs out :
  cb_ok c →
  ∃ ec k gs', async_write (S (length (cb_rest c))) c gs out = Some (ec, cb_total c + k, gs', out ++ take k (cb_rest c)) ∧
    match ec with None => take k (cb_rest c) = cb_rest c | Some e => write_fails e ∈ gs end.
Proof.
  intros Hc. destruct (write_loop_spec (S (length (cb_rest c))) default_max_transfer_size c gs out Hc) as (ec & k & gs' & Hw & Hk & Hec);
    [unfold default_max_transfer_size; lia|lia|].
  exists ec, k, gs'. split; [done|]. destruct ec; [done|]. apply take_ge. lia.
Qed.
End correct.

(** Three buffers, one of them empty, to a stream that takes four bytes, and then one. *)
Definition some_buffers : consuming_buffers := new_consuming_buffers [lit "HTTP/1.0"; []; lit " 200 OK"].
Lemma async_write_correct_witness :
  ∃ gs', async_write 16 some_buffers [takes 4; takes 1] [] = Some (None, 15, gs', lit "HTTP/1.0 200 OK").
Proof.
  destruct (async_write_correct some_buffers [takes 4; takes 1] [] (proj1 (new_consuming_ok [lit "HTTP/1.0"; []; lit " 200 OK"])))
    as (ec & k & gs' & Hw & _).
  vm_compute in Hw. injection Hw as <- _ <- _. exists []. vm_compute. reflexivity.
Defined.
