(* ===== verification/AsioConnect.v ===== *)
(** * [connect] and [async_connect] of [asio/impl/connect.hpp]

    The operations that try the endpoints of a name one after the other, on a socket of
    [basic_socket.hpp].  What the system says to an attempt, and whether somebody else
    closes the socket meanwhile, are arguments; while they are missing the operation
    waits.  The clients of [net/] call [async_connect] with the endpoints that the
    resolver has found, and no condition. *)

From S2P Require Import Prelude Text Socket.
From stdpp Require Import options.

(** ** The socket *)

(** [peer]: where the socket is connected to. *)
Record socket : Type := Socket { is_open : bool; peer : option nat }.

Definition close (s : socket) : socket := Socket false None.

(** What happens to an attempt: the errors of [open] and of the connection, and whether
    [close] is called before the handler is. *)
Record attempt : Type := Attempt { open_ec : option net_error; connect_ec : option net_error; closed_meanwhile : bool }.

Definition open_socket (a : attempt) (s : socket) : socket * option net_error :=
  if is_open s then (s, None)
  else match open_ec a with None => (Socket true None, None) | Some e => (s, Some e) end.

Definition connect_to (endpoint : nat) (a : attempt) (s : socket) : socket * option net_error :=
  (match connect_ec a with None => Socket (is_open s) (Some endpoint) | Some _ => s end, connect_ec a).

(** [basic_socket::connect] *)
Definition socket_connect (endpoint : nat) (a : attempt) (s : socket) : socket * option net_error :=
  let (s, ec) := open_socket a s in
  match ec with None => connect_to endpoint a s | Some _ => (s, ec) end.

(** [basic_socket::async_connect], up to the call of its handler. *)
Definition socket_async_connect (endpoint : nat) (a : attempt) (s : socket) : socket * option net_error :=
  let (s, ec) := socket_connect endpoint a s in
  (if closed_meanwhile a then close s else s, ec).

(** ** The loops *)

Definition not_found : net_error := err_other 3.

(** The handler has been called with the error and the endpoint, or an attempt at an
    endpoint is under way; with the attempts that are left. *)
Inductive connecting : Type :=
  | completed (ec : option net_error) (endpoint : option nat) (s : socket) (rest : list attempt)
  | waiting (endpoint : nat).

(** [range_connect_op::process] from the top of the loop, with the endpoints from
    [iter] on, when it has not just been started.  The connect condition is the default one,
    which allows every endpoint, and the handlers have no cancellation slot, so that [cancelled()] is
    always [none]: neither is modelled. *)
Fixpoint process (ec : option net_error) (iter : list nat) (attempts : list attempt) (s : socket) : connecting :=
  match iter with
  | [] => completed ec None s attempts
  | endpoint :: iter =>
      match attempts with
      | [] => waiting endpoint
      | a :: attempts =>
          let (s, ec) := socket_async_connect endpoint a (close s) in
          if negb (is_open s) then completed (Some err_aborted) None s attempts
          else match ec with
          | None => completed None (Some endpoint) s attempts
          | Some _ => process ec iter attempts s
          end
      end
  end.

(** When there is no endpoint at all the handler is posted with [not_found]. *)
Definition async_connect (endpoints : list nat) (attempts : list attempt) (s : socket) : connecting :=
  match endpoints with
  | [] => completed (Some not_found) None s attempts
  | _ => process None endpoints attempts s
  end.

(** [connect], which blocks *)
Fixpoint connect_loop (ec : option net_error) (iter : list nat) (attempts : list attempt) (s : socket) : connecting :=
  match iter with
  | [] => completed (Some (default not_found ec)) None s attempts
  | endpoint :: iter =>
      match attempts with
      | [] => waiting endpoint
      | a :: attempts =>
          let (s, ec) := socket_connect endpoint a (close s) in
          match ec with
          | None => completed None (Some endpoint) s attempts
          | Some _ => connect_loop ec iter attempts s
          end
      end
  end.
Definition connect (endpoints : list nat) (attempts : list attempt) (s : socket) : connecting := connect_loop None endpoints attempts s.

(** ** What they do *)

(** An attempt leaves the socket open if [open] succeeds and nobody closes it. *)
Definition stays_open (a : attempt) : bool := bool_decide (open_ec a = None) && negb (closed_meanwhile a).
(** It fails in such a way that the next endpoint is tried. *)
Definition refused (a : attempt) : bool := stays_open a && bool_decide (connect_ec a ≠ None).

Lemma socket_async_connect_spec endpoint a s :
  let r := socket_async_connect endpoint a (close s) in
  is_open r.1 = stays_open a ∧
  (stays_open a = true → r.2 = connect_ec a ∧ peer r.1 = match connect_ec a with None => Some endpoint | Some _ => None end).
Proof.
  destruct a as [[e|] [c|] []]; unfold socket_async_connect, socket_connect, open_socket; simpl; done.
Qed.

(** The first [i] attempts were refused; the [i]-th ended the operation. *)
Lemma process_spec iter attempts s ec :
  match process ec iter attempts s with
  | waiting endpoint => ∃ i, iter !! i = Some endpoint ∧ length attempts = i ∧ Forall (λ a, refused a = true) attempts
  | completed ec' endpoint s' rest =>
      (∃ i a ep, iter !! i = Some ep ∧ attempts !! i = Some a ∧ Forall (λ a, refused a = true) (take i attempts) ∧
         rest = drop (S i) attempts ∧ is_open s' = stays_open a ∧
         ((stays_open a = false ∧ ec' = Some err_aborted ∧ endpoint = None) ∨
          (stays_open a = true ∧ connect_ec a = None ∧ ec' = None ∧ endpoint = Some ep ∧ peer s' = Some ep))) ∨
      (endpoint = None ∧ Forall (λ a, refused a = true) (take (length iter) attempts) ∧ rest = drop (length iter) attempts ∧
       length iter ≤ length attempts ∧
       (iter = [] ∧ ec' = ec ∧ s' = s ∨
        ∃ a, last (take (length iter) attempts) = Some a ∧ ec' = connect_ec a ∧ is_open s' = true ∧ peer s' = None))
  end.
Proof.
  revert attempts s ec. induction iter as [|ep iter IH]; intros attempts s ec; simpl.
  { right. rewrite drop_0. split_and!; [done|constructor|done|lia|by left]. }
  destruct attempts as [|a attempts]; [exists 0; by split_and!|].
  destruct (socket_async_connect_spec ep a s) as [Ho Hc]. destruct (socket_async_connect ep a (close s)) as [s1 ec1]. simpl in *.
  destruct (is_open s1) eqn:E1; simpl.
  2: { left. exists 0, a, ep. rewrite E1. do 4 (split; [done|]). split; [done|]. left. by rewrite <- Ho. }
  symmetry in Ho. destruct (Hc Ho) as [-> Hp]. destruct (connect_ec a) as [e|] eqn:Ha.
  2: { left. exists 0, a, ep. rewrite E1, Ho. do 5 (split; [done|]). by right. }
  assert (refused a = true) as Hr by (unfold refused; rewrite Ho, Ha; done).
  specialize (IH attempts s1 (Some e)). destruct (process (Some e) iter attempts s1) as [ec' endpoint s' rest|endpoint].
  2: { destruct IH as (i & ? & <- & ?). exists (S (length attempts)). split_and!; [done..|by constructor]. }
  destruct IH as [(i & a' & ep' & Hi & Ha' & Hf & Hd & Hs & Hor)|(He & Hf & Hd & Hl & Hor)]; [left|right].
  - exists (S i), a', ep'. split_and!; try done. by constructor.
  - simpl. split_and!; [done|by constructor|done|lia|]. right. destruct Hor as [(-> & -> & ->)|(a' & Hl' & Hec & Hs)].
    + exists a. simpl. by rewrite Ha.
    + exists a'. split; [|done]. destruct (take (length iter) attempts) eqn:E; [done|]. by rewrite <- Hl'.
Qed.

(** C18: [async_connect] tries the endpoints in order and each once.  It succeeds with the
    first that accepts, and then the socket is open and connected to it; it ends with
    [operation_aborted] when the socket is found closed after an attempt; otherwise, when
    all endpoints have refused, with the error of the last one, or [not_found] if there
    was none.  While it waits all earlier endpoints have refused. *)
Theorem async_connect_correct endpoints attempts s :
  match async_connect endpoints attempts s with
  | waiting ep => endpoints !! length attempts = Some ep ∧ Forall (λ a, refused a = true) attempts
  | completed None endpoint s' rest =>
      ∃ i a ep, endpoints !! i = Some ep ∧ attempts !! i = Some a ∧ stays_open a = true ∧ connect_ec a = None ∧
        Forall (λ a, refused a = true) (take i attempts) ∧ rest = drop (S i) attempts ∧
        endpoint = Some ep ∧ s' = Socket true (Some ep)
  | completed (Some e) endpoint s' rest =>
      endpoint = None ∧
      ((endpoints = [] ∧ e = not_found ∧ s' = s ∧ rest = attempts) ∨
       (∃ i a, i < length endpoints ∧ attempts !! i = Some a ∧ stays_open a = false ∧ e = err_aborted ∧
          Forall (λ a, refused a = true) (take i attempts) ∧ rest = drop (S i) attempts ∧ is_open s' = false) ∨
       (∃ a, last (take (length endpoints) attempts) = Some a ∧ connect_ec a = Some e ∧ length endpoints ≤ length attempts ∧
          Forall (λ a, refused a = true) (take (length endpoints) attempts) ∧ rest = drop (length endpoints) attempts ∧
          s' = Socket true None))
  end.
Proof.
  destruct endpoints as [|ep0 eps]; [simpl; split; [done|by left]|].
  unfold async_connect. pose proof (process_spec (ep0 :: eps) attempts s None) as H.
  destruct (process None (ep0 :: eps) attempts s) as [ec endpoint s' rest|ep].
  2: { destruct H as (i & Hi & <- & Hf). done. }
  destruct H as [(i & a & ep & Hi & Ha & Hf & Hd & Ho & [(Hs & -> & ->)|(Hs & Hc & -> & -> & Hp)])|(-> & Hf & Hd & Hl & [(? & _)|(a & Ha & -> & Ho & Hp)])].
  - split; [done|]. right. left. exists i, a. apply lookup_lt_Some in Hi. rewrite Ho. by split_and!.
  - exists i, a, ep. split_and!; try done. destruct s' as [o p]. simpl in *. by rewrite Ho, Hp, Hs.
  - done.
  - destruct (connect_ec a) as [e|] eqn:Hc.
    + split; [done|]. do 2 right. exists a. split_and!; try done. destruct s' as [o p]. simpl in *. by subst.
    + apply last_Some_elem_of, (proj1 (Forall_forall _ _) Hf) in Ha. unfold refused in Ha. rewrite Hc in Ha.
      by destruct (stays_open a).
Qed.

(** ** [connect] and [async_connect] *)

Lemma connect_async_loop iter attempts s e :
  Forall (λ a, stays_open a = true) attempts → connect_loop (Some e) iter attempts s = process (Some e) iter attempts s.
Proof.
  revert attempts s e. induction iter as [|ep iter IH]; intros attempts s e Ha; [done|].
  destruct attempts as [|[o c m] attempts]; [done|]. apply Forall_cons in Ha as [Ha Hl]. simpl.
  unfold stays_open in Ha. simpl in Ha. apply andb_true_iff in Ha as [->%bool_decide_eq_true ->%negb_true_iff].
  unfold socket_async_connect, socket_connect, open_socket. simpl. destruct c; [by apply IH|done].
Qed.

(** As long as sockets can be opened and nobody closes them, [connect] and
    [async_connect] do the same. *)
Theorem connect_agrees endpoints attempts s :
  Forall (λ a, stays_open a = true) attempts → connect endpoints attempts s = async_connect endpoints attempts s.
Proof.
  intros Ha. destruct endpoints as [|ep eps]; [done|]. destruct attempts as [|[o c m] attempts]; [done|].
  apply Forall_cons in Ha as [Ha Hl]. unfold connect, async_connect. simpl.
  unfold stays_open in Ha. simpl in Ha. apply andb_true_iff in Ha as [->%bool_decide_eq_true ->%negb_true_iff].
  unfold socket_async_connect, socket_connect, open_socket. simpl. destruct c; [by apply connect_async_loop|done].
Qed.

Lemma connect_agrees_witness :
  connect [1; 2] [Attempt None (Some (err_other 111)) false; Attempt None None false] (Socket false None)
  = completed None (Some 2) (Socket true (Some 2)) [].
Proof.
  rewrite connect_agrees; [vm_compute; reflexivity|]. by repeat constructor.
Defined.

(** They differ when a socket of the first endpoint's protocol cannot be opened:
    [connect] goes on to the next endpoint, but [async_connect] finds the socket closed
    and reports [operation_aborted], which the clients take for a timeout. *)
Theorem open_failure_stops_async_connect e :
  let attempts := [Attempt (Some e) None false; Attempt None None false] in
  connect [1; 2] attempts (Socket false None) = completed None (Some 2) (Socket true (Some 2)) [] ∧
  async_connect [1; 2] attempts (Socket false None) = completed (Some err_aborted) None (Socket false None) [Attempt None None false].
Proof. done. Qed.

(** ** The timeout of the clients *)

(** [socket.cancel()] in the handler of the timer: the attempt fails with
    [operation_aborted], and the socket stays open. *)
Definition cancelled_attempt : attempt := Attempt None (Some err_aborted) false.

(** C40: The timer of ten seconds of [tcp_client::call] and [http_client::http_call] expires
    once, and ends only one attempt: when it cancels the attempt at an endpoint that is
    not the last, [async_connect] goes on with the next endpoint, and waits for it
    without a bound. *)
Theorem connect_outlives_timeout endpoints refusals s ep :
  Forall (λ a, refused a = true) refusals → endpoints !! S (length refusals) = Some ep →
  async_connect endpoints (refusals ++ [cancelled_attempt]) s = waiting ep.
Proof.
  intros Hr He. pose proof (process_spec endpoints (refusals ++ [cancelled_attempt]) s None) as H.
  assert (Forall (λ a, refused a = true) (refusals ++ [cancelled_attempt])) as Hf by (apply Forall_app; by repeat constructor).
  destruct endpoints as [|ep0 eps]; [done|]. unfold async_connect.
  destruct (process None (ep0 :: eps) _ s) as [ec endpoint s' rest|endpoint].
  2: { destruct H as (i & Hi & Hl & _). rewrite length_app, Nat.add_1_r in Hl. subst i. congruence. }
  apply lookup_lt_Some in He. exfalso. destruct H as [(i & a & ep1 & _ & Ha & _ & _ & _ & Hor)|(_ & _ & _ & Hl & _)].
  - eapply Forall_lookup_1 in Hf; [|exact Ha]. unfold refused in Hf. apply andb_true_iff in Hf as [Hs Hc%bool_decide_eq_true].
    destruct Hor as [[Hs' _]|(_ & Hc' & _)]; [congruence|done].
  - rewrite length_app in Hl. simpl in *. lia.
Qed.

(** A name with an address that drops packets, and another one. *)
Lemma connect_outlives_timeout_witness :
  refused cancelled_attempt = true ∧ async_connect [1; 2] [cancelled_attempt] (Socket false None) = waiting 2.
Proof.
  split; [done|]. exact (connect_outlives_timeout [1; 2] [] (Socket false None) 2 (Forall_nil_2 _) eq_refl).
Defined.
