(* ===== verification/AsioSignals.v ===== *)
(** * [signal_set_service] of asio

    The servers of [net/] wait for [SIGINT] and [SIGTERM] with an [asio::signal_set].  The
    registrations of signals are objects on two lists at once: the signals of a set, in
    the order of their numbers, and, for each service and signal, a doubly linked list
    in a table, the newest first.  The services of the program are on a doubly linked list
    in the global [signal_state].  The model has the objects and their pointers; they
    are proved to implement one list of registrations without pointers.

    Descriptors of the pipe and system calls are arguments; [notify_fork] and services
    whose scheduler has no locks are left out. *)

From S2P Require Import Prelude Conc Text Socket.
From stdpp Require Import options.

(** ** Data *)

(** [NSIG] of Linux *)
Definition max_signal_number : nat := 65.
(** [flags::dont_care], and [flags_t()] *)
Definition dont_care : Z := -1.
Definition no_flags : Z := 0.

Record signal_op : Type := SignalOp { op_id : nat; cancellation_key_ : option nat }.
(** What the handler of an operation is given: a signal number, or an error. *)
Abbreviation completion := (signal_op * (nat + net_error))%type.

(** [queue_] points to the queue of a set, which has a number. *)
Record registration : Type := Registration {
  signal_number_ : nat; queue_ : nat; undelivered_ : nat;
  next_in_table_ : option nat; prev_in_table_ : option nat; next_in_set_ : option nat }.

(** [implementation_type], with the service of its [signal_set] *)
Record signal_set : Type := SignalSet { set_service : nat; set_queue : list signal_op; signals_ : option nat }.

Record service : Type := Service { registrations_ : gmap nat nat; next_ : option nat; prev_ : option nat }.

(** [signal_state], with all objects by number.  [handled]: the signals whose action is
    [asio_signal_handler].  [posted] and [abandoned]: the operations that were given to
    the schedulers of services, and those that were destroyed. *)
Record signals : Type := Signals {
  regs : gmap nat registration; sets : gmap nat signal_set; services : gmap nat service; service_list_ : option nat;
  registration_count_ : gmap nat nat; flags_ : gmap nat Z; handled : gset nat; pipe_open : bool;
  posted : list (nat * completion); abandoned : list signal_op }.

Abbreviation comp := (comp signals).
Implicit Types (s : signals) (n v i p : nat).

Definition set_regs f s := Signals (f (regs s)) (sets s) (services s) (service_list_ s) (registration_count_ s) (flags_ s) (handled s) (pipe_open s) (posted s) (abandoned s).
Definition set_sets f s := Signals (regs s) (f (sets s)) (services s) (service_list_ s) (registration_count_ s) (flags_ s) (handled s) (pipe_open s) (posted s) (abandoned s).
Definition set_services f s := Signals (regs s) (sets s) (f (services s)) (service_list_ s) (registration_count_ s) (flags_ s) (handled s) (pipe_open s) (posted s) (abandoned s).
Definition set_service_list (q : option nat) s := Signals (regs s) (sets s) (services s) q (registration_count_ s) (flags_ s) (handled s) (pipe_open s) (posted s) (abandoned s).
Definition set_action n (b : bool) (f : Z) s :=
  Signals (regs s) (sets s) (services s) (service_list_ s) (registration_count_ s) (<[n := f]> (flags_ s))
    (if b then handled s ∪ {[n]} else handled s ∖ {[n]}) (pipe_open s) (posted s) (abandoned s).
Definition set_count n c s := Signals (regs s) (sets s) (services s) (service_list_ s) (<[n := c]> (registration_count_ s)) (flags_ s) (handled s) (pipe_open s) (posted s) (abandoned s).
Definition set_pipe b s := Signals (regs s) (sets s) (services s) (service_list_ s) (registration_count_ s) (flags_ s) (handled s) b (posted s) (abandoned s).
Definition add_posted l s := Signals (regs s) (sets s) (services s) (service_list_ s) (registration_count_ s) (flags_ s) (handled s) (pipe_open s) (posted s ++ l) (abandoned s).
Definition add_abandoned l s := Signals (regs s) (sets s) (services s) (service_list_ s) (registration_count_ s) (flags_ s) (handled s) (pipe_open s) (posted s) (abandoned s ++ l).

(** Dereferencing. *)
Definition get_reg p : comp registration := s ← get_state; match regs s !! p with Some r => mret r | None => abort_with use_after_free end.
Definition get_set i : comp signal_set := s ← get_state; match sets s !! i with Some x => mret x | None => abort_with use_after_free end.
Definition get_service v : comp service := s ← get_state; match services s !! v with Some x => mret x | None => abort_with use_after_free end.
Definition put_reg p (r : registration) : comp unit := modify (set_regs (<[p := r]>)).
Definition put_set i (x : signal_set) : comp unit := modify (set_sets (<[i := x]>)).
Definition put_service v (x : service) : comp unit := modify (set_services (<[v := x]>)).

Definition with_next_in_table q (r : registration) := Registration (signal_number_ r) (queue_ r) (undelivered_ r) q (prev_in_table_ r) (next_in_set_ r).
Definition with_prev_in_table q (r : registration) := Registration (signal_number_ r) (queue_ r) (undelivered_ r) (next_in_table_ r) q (next_in_set_ r).
Definition with_next_in_set q (r : registration) := Registration (signal_number_ r) (queue_ r) (undelivered_ r) (next_in_table_ r) (prev_in_table_ r) q.
Definition with_undelivered u (r : registration) := Registration (signal_number_ r) (queue_ r) u (next_in_table_ r) (prev_in_table_ r) (next_in_set_ r).
Definition update_reg (f : registration → registration) p : comp unit := r ← get_reg p; put_reg p (f r).
(** [if (p) p->... = ...] *)
Definition if_set (p : option nat) (m : nat → comp unit) : comp unit := match p with None => mret tt | Some p => m p end.

Definition count s n : nat := default 0 (registration_count_ s !! n).
Definition flags s n : Z := default no_flags (flags_ s !! n).

(** ** Sets *)

Definition construct i v : comp unit := put_set i (SignalSet v [] None).

(** The loops of [add] and [remove] over the signals of a set: [insertion_point] is the
    pointer of the set, or that of the registration before, and [next] what it points to. *)
Fixpoint find_in_set (fuel : nat) n (insertion_point : option nat) (next : option nat) : comp (option nat * option nat) :=
  match fuel, next with
  | 0, _ => abort_with out_of_fuel
  | S fuel, None => mret (insertion_point, None)
  | S fuel, Some p =>
      r ← get_reg p;
      if decide (signal_number_ r < n) then find_in_set fuel n (Some p) (next_in_set_ r) else mret (insertion_point, next)
  end.

(** [*insertion_point = q] *)
Definition set_link i (insertion_point : option nat) (q : option nat) : comp unit :=
  match insertion_point with
  | None => x ← get_set i; put_set i (SignalSet (set_service x) (set_queue x) q)
  | Some p => update_reg (with_next_in_set q) p
  end.

(** Whether [next] is a registration of [n]. *)
Definition is_registered n (next : option nat) : comp bool :=
  match next with None => mret false | Some p => r ← get_reg p; mret (bool_decide (signal_number_ r = n)) end.

(** The action of the signal is set if this is the first registration, or if flags are
    asked for; the result is the error of [add].  [sigaction]: the error of the call. *)
Definition install_handler n (f : Z) (sigaction : option Z) : comp (option net_error) :=
  s ← get_state;
  if decide (count s n = 0) then
    match sigaction with
    | Some e => mret (Some (err_other e))
    | None => modify (set_action n true f);; mret None
    end
  else if decide (f = dont_care ∨ f = flags s n) then mret None
  else if decide (flags s n ≠ dont_care) then mret (Some (err_other 22))
  else match sigaction with
  | Some e => mret (Some (err_other e))
  | None => modify (set_action n true f);; mret None
  end.

(** The new registration is linked into the set and the table of the service [v]. *)
Definition link_registration i v n (insertion_point next : option nat) : comp unit :=
  s ← get_state;
  let p := fresh (dom (regs s)) in
  put_reg p (Registration n i 0 None None next);;
  set_link i insertion_point (Some p);;
  x ← get_service v;
  let head := registrations_ x !! n in
  update_reg (with_next_in_table head) p;;
  if_set head (update_reg (with_prev_in_table (Some p)));;
  put_service v (Service (<[n := p]> (registrations_ x)) (next_ x) (prev_ x));;
  modify (set_count n (S (count s n))).

Definition add i (signal_number : Z) (f : Z) (sigaction : option Z) : comp (option net_error) :=
  if decide (signal_number < 0 ∨ Z.of_nat max_signal_number ≤ signal_number)%Z then mret (Some (err_other 22)) else
  let n := Z.to_nat signal_number in
  s ← get_state;
  x ← get_set i;
  q ← find_in_set (S (size (regs s))) n None (signals_ x);
  registered ← is_registered n q.2;
  if registered : bool then mret None
  else
    e ← install_handler n f sigaction;
    match e with
    | Some e => mret (Some e)
    | None => link_registration i (set_service x) n q.1 q.2;; mret None
    end.

(** The action of a signal goes back to the default with its last registration. *)
Definition restore_default n (sigaction : option Z) : comp (option net_error) :=
  s ← get_state;
  if decide (count s n = 1) then
    match sigaction with
    | Some e => mret (Some (err_other e))
    | None => modify (set_action n false no_flags);; mret None
    end
  else mret None.

(** The registration [p] is taken from the table of the service [v]. *)
Definition unlink_from_table v p : comp unit :=
  r ← get_reg p;
  x ← get_service v;
  (if decide (registrations_ x !! signal_number_ r = Some p)
   then put_service v (Service (partial_alter (λ _, next_in_table_ r) (signal_number_ r) (registrations_ x)) (next_ x) (prev_ x))
   else mret tt);;
  if_set (prev_in_table_ r) (update_reg (with_next_in_table (next_in_table_ r)));;
  if_set (next_in_table_ r) (update_reg (with_prev_in_table (prev_in_table_ r)));;
  modify (λ s, set_count (signal_number_ r) (pred (count s (signal_number_ r))) s).

Definition remove i (signal_number : Z) (sigaction : option Z) : comp (option net_error) :=
  if decide (signal_number < 0 ∨ Z.of_nat max_signal_number ≤ signal_number)%Z then mret (Some (err_other 22)) else
  let n := Z.to_nat signal_number in
  s ← get_state;
  x ← get_set i;
  q ← find_in_set (S (size (regs s))) n None (signals_ x);
  registered ← is_registered n q.2;
  match q.2, registered with
  | Some p, true =>
      e ← restore_default n sigaction;
      match e with
      | Some e => mret (Some e)
      | None =>
          r ← get_reg p;
          set_link i q.1 (next_in_set_ r);; unlink_from_table (set_service x) p;; modify (set_regs (delete p));; mret None
      end
  | _, _ => mret None
  end.

(** [sigaction]: the error of the call for each signal *)
Fixpoint clear (fuel : nat) i (sigaction : nat → option Z) : comp (option net_error) :=
  match fuel with
  | 0 => abort_with out_of_fuel
  | S fuel =>
      x ← get_set i;
      match signals_ x with
      | None => mret None
      | Some p =>
          r ← get_reg p;
          e ← restore_default (signal_number_ r) (sigaction (signal_number_ r));
          match e with
          | Some e => mret (Some e)
          | None =>
              unlink_from_table (set_service x) p;;
              set_link i None (next_in_set_ r);; modify (set_regs (delete p));; clear fuel i sigaction
          end
      end
  end.

Definition abort_op (v : nat) (o : signal_op) : nat * completion := (v, (o, inr err_aborted)).

Definition cancel i : comp unit :=
  x ← get_set i;
  put_set i (SignalSet (set_service x) [] (signals_ x));; modify (add_posted (abort_op (set_service x) <$> set_queue x)).

Definition cancel_ops_by_key i (key : nat) : comp unit :=
  x ← get_set i;
  put_set i (SignalSet (set_service x) (filter (λ o, cancellation_key_ o ≠ Some key) (set_queue x)) (signals_ x));;
  modify (add_posted (abort_op (set_service x) <$> filter (λ o, cancellation_key_ o = Some key) (set_queue x))).

(** The errors are ignored. *)
Definition destroy i (sigaction : nat → option Z) : comp unit :=
  s ← get_state; clear (S (size (regs s))) i sigaction;; cancel i;; modify (set_sets (delete i)).

(** ** Signals *)

(** The registrations of the signal [n] in the table of the service [v], from [p] on. *)
Fixpoint deliver_loop (fuel : nat) v n (p : option nat) : comp unit :=
  match fuel, p with
  | 0, _ => abort_with out_of_fuel
  | S fuel, None => mret tt
  | S fuel, Some p =>
      r ← get_reg p;
      x ← get_set (queue_ r);
      (match set_queue x with
       | [] => put_reg p (with_undelivered (S (undelivered_ r)) r)
       | ops => put_set (queue_ r) (SignalSet (set_service x) [] (signals_ x));; modify (add_posted ((λ o, (v, (o, inl n))) <$> ops))
       end);;
      deliver_loop fuel v n (next_in_table_ r)
  end.

Fixpoint services_loop (fuel : nat) n (v : option nat) : comp unit :=
  match fuel, v with
  | 0, _ => abort_with out_of_fuel
  | S fuel, None => mret tt
  | S fuel, Some v =>
      x ← get_service v;
      s ← get_state;
      deliver_loop (S (size (regs s))) v n (registrations_ x !! n);;
      services_loop fuel n (next_ x)
  end.

Definition deliver_signal n : comp unit := s ← get_state; services_loop (S (size (services s))) n (service_list_ s).

(** [pipe_read_op::do_perform]: what is in the pipe *)
Fixpoint pipe_read (l : list Z) : comp unit :=
  match l with
  | [] => mret tt
  | n :: l => (if decide (0 ≤ n < Z.of_nat max_signal_number)%Z then deliver_signal (Z.to_nat n) else mret tt);; pipe_read l
  end.

(** [start_wait_op]: the loop looks for a signal that came before. *)
Fixpoint wait_loop (fuel : nat) (p : option nat) : comp (option nat) :=
  match fuel, p with
  | 0, _ => abort_with out_of_fuel
  | S fuel, None => mret None
  | S fuel, Some p =>
      r ← get_reg p;
      if decide (0 < undelivered_ r) then put_reg p (with_undelivered (pred (undelivered_ r)) r);; mret (Some (signal_number_ r))
      else wait_loop fuel (next_in_set_ r)
  end.

Definition start_wait_op i (o : signal_op) : comp unit :=
  s ← get_state;
  x ← get_set i;
  n ← wait_loop (S (size (regs s))) (signals_ x);
  match n with
  | Some n => modify (add_posted [(set_service x, (o, inl n))])
  | None => put_set i (SignalSet (set_service x) (set_queue x ++ [o]) (signals_ x))
  end.

(** ** Services *)

Definition update_service (f : service → service) v : comp unit := x ← get_service v; put_service v (f x).
Definition with_next q (x : service) := Service (registrations_ x) q (prev_ x).
Definition with_prev q (x : service) := Service (registrations_ x) (next_ x) q.

(** The constructor and [add_service]; [pipe]: the error of the system call. *)
Definition add_service v (pipe : option Z) : comp (outcome unit) :=
  s ← get_state;
  match service_list_ s, pipe with
  | None, Some e => mret (Throw (system_error e))
  | head, _ =>
      (match head with None => modify (set_pipe true) | Some _ => mret tt end);;
      put_service v (Service ∅ head None);;
      if_set head (update_service (with_prev (Some v)));;
      modify (set_service_list (Some v));; mret (Ret tt)
  end.

Definition remove_service v : comp unit :=
  x ← get_service v;
  s ← get_state;
  if decide (next_ x ≠ None ∨ prev_ x ≠ None ∨ service_list_ s = Some v) then
    (if decide (service_list_ s = Some v) then modify (set_service_list (next_ x)) else mret tt);;
    if_set (prev_ x) (update_service (with_next (next_ x)));;
    if_set (next_ x) (update_service (with_prev (prev_ x)));;
    update_service (λ x, Service (registrations_ x) None None) v;;
    s ← get_state;
    match service_list_ s with None => modify (set_pipe false) | Some _ => mret tt end
  else mret tt.

(** The operations of the sets with a registration from [p] on *)
Fixpoint abandon_loop (fuel : nat) (p : option nat) : comp unit :=
  match fuel, p with
  | 0, _ => abort_with out_of_fuel
  | S fuel, None => mret tt
  | S fuel, Some p =>
      r ← get_reg p;
      x ← get_set (queue_ r);
      put_set (queue_ r) (SignalSet (set_service x) [] (signals_ x));;
      modify (add_abandoned (set_queue x));;
      abandon_loop fuel (next_in_table_ r)
  end.
Fixpoint abandon_table (v : nat) (ns : list nat) : comp unit :=
  match ns with
  | [] => mret tt
  | n :: ns => x ← get_service v; s ← get_state; abandon_loop (S (size (regs s))) (registrations_ x !! n);; abandon_table v ns
  end.
Definition shutdown v : comp unit := remove_service v;; abandon_table v (seq 0 max_signal_number).

(** ** Doubly linked lists *)

(** Lists of one kind among the elements of [L]: [nxt] and [prv] point to the nearest
    elements with the same key. *)
Section dll.
Context {K : Type} `{!EqDecision K} (key : nat → K).
Implicit Types (nxt prv : nat → option nat) (L : list nat).

Definition alike (x y : nat) : Prop := key y = key x.
#[global] Instance alike_dec x y : Decision (alike x y) := decide (key y = key x).

Definition linked L nxt prv : Prop :=
  ∀ l1 x l2, L = l1 ++ x :: l2 → nxt x = head (filter (alike x) l2) ∧ prv x = last (filter (alike x) l1).

Lemma linked_nil nxt prv : linked [] nxt prv.
Proof using Type. intros l1 x l2 Hl. by destruct l1. Qed.

Lemma head_filter_Some (P : nat → Prop) `{!∀ x, Decision (P x)} l y : head (filter P l) = Some y → P y ∧ y ∈ l.
Proof using Type.
  intros Hh. assert (y ∈ filter P l) as Hy by (destruct (filter P l); simplify_eq/=; apply list_elem_of_here). by apply list_elem_of_filter in Hy.
Qed.
Lemma last_filter_Some (P : nat → Prop) `{!∀ x, Decision (P x)} l y : last (filter P l) = Some y → P y ∧ y ∈ l.
Proof using Type. intros Hy%last_Some_elem_of. by apply list_elem_of_filter in Hy. Qed.

Lemma filter_alike x y (l : list nat) : key x = key y → filter (alike x) l = filter (alike y) l.
Proof using Type. intros Hk. apply list_filter_iff. intros z. unfold alike. by rewrite Hk. Qed.

(** [t] becomes the first. *)
Lemma linked_cons t L nxt prv nxt' prv' :
  linked L nxt prv → NoDup (t :: L) →
  nxt' t = head (filter (alike t) L) → prv' t = None →
  (∀ x, x ∈ L → nxt' x = nxt x) →
  (∀ x, x ∈ L → prv' x = if decide (head (filter (alike t) L) = Some x) then Some t else prv x) →
  linked (t :: L) nxt' prv'.
Proof using Type.
  intros Hl Hn Ht Ht' Hx Hx' [|t' l1] x l2 He; simplify_eq/=; [done|].
  apply NoDup_cons in Hn as [Hn Hn']. assert (x ∈ l1 ++ x :: l2) as Hin by set_solver. destruct (Hl l1 x l2 eq_refl) as [H1 H2].
  rewrite Hx, Hx' by done. split; [done|]. rewrite filter_cons. rewrite filter_app, filter_cons.
  destruct (decide (alike x t')) as [Ha|Ha].
  - assert (filter (alike t') l1 = filter (alike x) l1) as -> by (by apply filter_alike).
    rewrite (decide_True (P := alike t' x)) by (by symmetry). destruct (filter (alike x) l1) as [|y l] eqn:Ey; simpl.
    + by rewrite decide_True.
    + rewrite decide_False; [by rewrite H2|]. intros [= ->]. apply NoDup_app in Hn' as (_ & Hn' & _). apply (Hn' x); [|set_solver].
      assert (x ∈ filter (alike x) l1) as Hf by (rewrite Ey; apply list_elem_of_here). by apply list_elem_of_filter in Hf as [_ ?].
  - rewrite decide_False; [done|]. intros Hh. rewrite (decide_False (P := alike t' x)) in Hh by (intros ?; by apply Ha).
    rewrite <- filter_app in Hh. apply head_filter_Some in Hh as [Hh _]. by apply Ha.
Qed.

(** [t] is taken out. *)
Lemma linked_remove l1 t l2 nxt prv nxt' prv' :
  linked (l1 ++ t :: l2) nxt prv → NoDup (l1 ++ t :: l2) →
  (∀ x, x ∈ l1 ++ l2 → nxt' x = if decide (prv t = Some x) then nxt t else nxt x) →
  (∀ x, x ∈ l1 ++ l2 → prv' x = if decide (nxt t = Some x) then prv t else prv x) →
  linked (l1 ++ l2) nxt' prv'.
Proof using Type.
  intros Hl Hn Hnx Hpx k1 x k2 He. destruct (Hl l1 t l2 eq_refl) as [Ht1 Ht2].
  assert (x ∈ l1 ++ l2) as Hin by (rewrite He; set_solver). rewrite Hnx, Hpx by done. clear Hnx Hpx.
  apply NoDup_app in Hn as (Hn1 & Hn12 & [Hnt Hn2]%NoDup_cons).
  apply app_eq_inv in He as [(k & Hk1 & Hk2)|(k & Hk1 & Hk2)].
  - destruct k as [|x' k]; [rewrite app_nil_r in Hk1; simpl in Hk2; subst l1 l2|injection Hk2 as <- ->; subst l1].
    + (* [x] is the first of [l2] *)
      destruct (Hl (k1 ++ [t]) x k2) as [H1 H2]; [by rewrite <- app_assoc|]. split.
      * rewrite decide_False; [done|]. rewrite Ht2. intros [_ Hx]%last_filter_Some. apply (Hn12 x Hx). set_solver.
      * rewrite filter_cons in Ht1. destruct (decide (alike t x)) as [Ha|Ha]; simpl in Ht1.
        -- rewrite decide_True by done. rewrite Ht2. by rewrite (filter_alike x t).
        -- rewrite decide_False; [|intros Hx; rewrite Ht1 in Hx; by apply head_filter_Some in Hx as [? _]]. rewrite H2, filter_app, filter_cons.
           rewrite (decide_False (P := alike x t)) by (intros ?; by apply Ha). by rewrite filter_nil, app_nil_r.
    + (* [x] in [l1] *)
      destruct (Hl k1 x (k ++ t :: l2)) as [H1 H2]; [by rewrite <- app_assoc|]. split.
      * rewrite H1, Ht2, !filter_app, !filter_cons. destruct (decide (alike x t)) as [Ha|Ha].
        -- rewrite (decide_True (P := alike t x)) by done. rewrite (filter_alike t x k) by done. rewrite last_app, last_cons.
           rewrite Ht1, (filter_alike t x l2) by done. destruct (last (filter (alike x) k)) as [z|] eqn:Ez.
           2: { apply last_None in Ez. rewrite Ez. by rewrite decide_True. }
           apply last_filter_Some in Ez as Hz. destruct (filter (alike x) k) as [|y m]; [done|].
           rewrite decide_False; [done|]. intros [= ->]. destruct Hz as [_ Hx].
           apply NoDup_app in Hn1 as (_ & _ & [Hn1 _]%NoDup_cons). done.
        -- rewrite decide_False; [done|]. rewrite (decide_False (P := alike t x)) by (intros ?; by apply Ha). rewrite <- filter_app.
           intros [Hx _]%last_filter_Some. by apply Ha.
      * rewrite decide_False; [done|]. rewrite Ht1. intros [_ Hx]%head_filter_Some. apply (Hn12 x); set_solver.
  - (* [x] in [l2] *)
    subst l2 k1. destruct (Hl (l1 ++ t :: k) x k2) as [H1 H2]; [by rewrite <- app_assoc|]. split.
    + rewrite decide_False; [done|]. rewrite Ht2. intros [_ Hx]%last_filter_Some. apply (Hn12 x Hx). set_solver.
    + rewrite H2, Ht1, !filter_app, !filter_cons. destruct (decide (alike x t)) as [Ha|Ha].
      * rewrite (decide_True (P := alike t x)) by done. rewrite (filter_alike t x k) by done. rewrite Ht2, (filter_alike t x l1) by done.
        rewrite last_app, last_cons. destruct (filter (alike x) k) as [|y m] eqn:Ey; [by rewrite decide_True, app_nil_r|].
        destruct (last (y :: m)) as [z|] eqn:Ez; [|by apply last_None in Ez]. rewrite decide_False; [by rewrite last_app, Ez|].
        intros [= ->]. assert (x ∈ filter (alike x) k) as Hx by (rewrite Ey; apply list_elem_of_here). apply list_elem_of_filter in Hx as [_ Hx].
        apply NoDup_app in Hn2 as (_ & Hn2 & _). apply (Hn2 x Hx). set_solver.
      * rewrite decide_False; [done|]. rewrite (decide_False (P := alike t x)) by (intros ?; by apply Ha). rewrite <- filter_app.
        intros [Hx _]%head_filter_Some. by apply Ha.
Qed.
End dll.

(** ** What the pointers look like *)

Definition observe {A} (f : registration → A) (d : A) s p : A := match regs s !! p with Some r => f r | None => d end.
Abbreviation next_of := (observe next_in_table_ None).
Abbreviation prev_of := (observe prev_in_table_ None).
Abbreviation nis_of := (observe next_in_set_ None).
Abbreviation set_of := (observe queue_ 0).
Abbreviation signal_of := (observe signal_number_ 0).
Definition service_of s i : option nat := set_service <$> sets s !! i.
Definition first_of s i : option nat := x ← sets s !! i; signals_ x.
Definition table_of s v : option (gmap nat nat) := registrations_ <$> services s !! v.
Definition head_of s v n : option nat := t ← table_of s v; t !! n.

(** The service and the signal of a registration say which list of a table it is on. *)
Definition key s p : option nat * nat := (service_of s (set_of s p), signal_of s p).

(** A list of registrations, one linked to the next. *)
Definition chained (nis : nat → option nat) (l : list nat) : Prop := ∀ l1 p l2, l = l1 ++ p :: l2 → nis p = head l2.

(** [L]: all registrations, the newest first.  [ch]: those of each set, in the order
    of their signals. *)
Record shape (L : list nat) (ch : nat → list nat) s : Prop := {
  sh_nodup : NoDup L;
  sh_dom : ∀ p, p ∈ L ↔ is_Some (regs s !! p);
  sh_owner : ∀ p, p ∈ L → ∃ v, service_of s (set_of s p) = Some v;
  sh_service : ∀ i v, service_of s i = Some v → is_Some (table_of s v);
  sh_bound : ∀ p, p ∈ L → signal_of s p < max_signal_number;
  sh_table : linked (key s) L (next_of s) (prev_of s);
  sh_head : ∀ v n, is_Some (table_of s v) → head_of s v n = head (filter (λ p, key s p = (Some v, n)) L);
  sh_first : ∀ i, first_of s i = head (ch i);
  sh_in : ∀ i p, p ∈ ch i ↔ p ∈ L ∧ set_of s p = i;
  sh_sorted : ∀ i, StronglySorted (λ p q, signal_of s p < signal_of s q) (ch i);
  sh_chain : ∀ i, chained (nis_of s) (ch i);
  sh_count : ∀ n, count s n = length (filter (λ p, signal_of s p = n) L) }.

Lemma linked_same {K} `{!EqDecision K} (key key' : nat → K) L nxt prv nxt' prv' :
  (∀ x, x ∈ L → key' x = key x) → (∀ x, x ∈ L → nxt' x = nxt x) → (∀ x, x ∈ L → prv' x = prv x) →
  linked key L nxt prv → linked key' L nxt' prv'.
Proof.
  intros Hk Hn Hp Hl l1 x l2 He. destruct (Hl l1 x l2 He) as [H1 H2]. subst L.
  rewrite Hn, Hp, H1, H2 by set_solver. split; f_equal; apply filter_ext_in; intros y Hy; unfold alike; rewrite !Hk by set_solver; done.
Qed.

Lemma chained_ext nis nis' l : (∀ p, p ∈ l → nis' p = nis p) → chained nis l → chained nis' l.
Proof. intros He Hc l1 p l2 ->. rewrite He by set_solver. by apply (Hc l1). Qed.

Lemma sorted_ext (R R' : nat → nat → Prop) l :
  (∀ p q, p ∈ l → q ∈ l → R p q → R' p q) → StronglySorted R l → StronglySorted R' l.
Proof.
  induction 2 as [|x l Hl IH Hx]; constructor.
  - apply IH. intros p q Hp Hq. apply H; by right.
  - apply Forall_forall. intros q Hq. apply H; [apply list_elem_of_here|by right|]. by apply (proj1 (Forall_forall _ _) Hx).
Qed.

(** Nothing that the lists are made of changes. *)
Lemma shape_ext L ch s s' :
  (∀ p, is_Some (regs s' !! p) ↔ is_Some (regs s !! p)) →
  (∀ p, set_of s' p = set_of s p) → (∀ p, signal_of s' p = signal_of s p) →
  (∀ p, next_of s' p = next_of s p) → (∀ p, prev_of s' p = prev_of s p) → (∀ p, nis_of s' p = nis_of s p) →
  (∀ i, service_of s' i = service_of s i) → (∀ i, first_of s' i = first_of s i) → (∀ v, table_of s' v = table_of s v) →
  (∀ n, count s' n = count s n) → shape L ch s → shape L ch s'.
Proof.
  intros Hd Hs Hg Hn Hp Hi Hv Hf Ht Hc [S1 S2 S3 S4 S5 S6 S7 S8 S9 S10 S11 S12].
  assert (∀ p, key s' p = key s p) as Hk by (intros p; unfold key; by rewrite Hs, Hg, Hv).
  split.
  - done.
  - intros p. by rewrite Hd.
  - intros p. rewrite Hs, Hv. apply S3.
  - intros i v. rewrite Hv, Ht. apply S4.
  - intros p. rewrite Hg. apply S5.
  - by eapply linked_same; [..|exact S6].
  - intros v n. unfold head_of. rewrite Ht. intros Hx. setoid_rewrite S7; [|done]. f_equal. apply filter_ext_in. intros p _. by rewrite Hk.
  - intros i. by rewrite Hf.
  - intros i p. by rewrite Hs.
  - intros i. eapply sorted_ext; [|apply S10]. intros p q _ _. by rewrite !Hg.
  - intros i. eapply chained_ext; [|apply S11]. done.
  - intros n. rewrite Hc, S12. f_equal. apply filter_ext_in. intros p _. by rewrite Hg.
Qed.

(** *** A registration is added *)

Definition upd {A} (f : nat → A) i (x : A) : nat → A := λ j, if decide (j = i) then x else f j.

Lemma chained_insert nis nis' l1 p l2 :
  chained nis (l1 ++ l2) → NoDup (l1 ++ l2) → p ∉ l1 ++ l2 → nis' p = head l2 →
  (∀ q, q ∈ l1 ++ l2 → nis' q = if decide (last l1 = Some q) then Some p else nis q) → chained nis' (l1 ++ p :: l2).
Proof.
  intros Hc Hn Hp H1 H2 k1 x k2 He. apply app_eq_inv in He as [(k & -> & Hk)|(k & -> & Hk)].
  - destruct k as [|x' k]; [rewrite app_nil_r in *; by injection Hk as -> ->|]. injection Hk as <- ->. rewrite H2 by set_solver.
    rewrite last_app, last_cons. destruct k as [|y k]; simpl; [by rewrite decide_True|]. rewrite <- app_assoc in Hc. rewrite (Hc k1 x (y :: k ++ l2)) by done.
    destruct (last (y :: k)) as [z|] eqn:Ez; [|by apply last_None in Ez]. rewrite decide_False; [done|]. intros [= ->].
    apply last_Some_elem_of in Ez. rewrite <- app_assoc in Hn. apply NoDup_app in Hn as (_ & _ & [Hn _]%NoDup_cons). set_solver.
  - destruct k as [|y k]; simpl in Hk; [by injection Hk as -> ->|]. injection Hk as <- ->. rewrite H2 by set_solver.
    rewrite decide_False; [apply (Hc (l1 ++ k)); by rewrite <- app_assoc|]. intros Hx%last_Some_elem_of. apply NoDup_app in Hn as (_ & Hn & _).
    apply (Hn x Hx). set_solver.
Qed.

Lemma elem_of_mid (l1 : list nat) p l2 q : q ∈ l1 ++ p :: l2 ↔ q = p ∨ q ∈ l1 ++ l2.
Proof. rewrite !elem_of_app, elem_of_cons. naive_solver. Qed.

(** The signals of a set differ. *)
Lemma sorted_nodup s l : StronglySorted (λ p q, signal_of s p < signal_of s q) l → NoDup l.
Proof.
  induction 1 as [|x l Hl IH Hx]; [constructor|]. constructor; [|done]. intros Hin. apply (proj1 (Forall_forall _ _) Hx) in Hin. lia.
Qed.

Lemma sorted_insert (R : nat → nat → Prop) l1 p l2 :
  StronglySorted R (l1 ++ l2) → (∀ q, q ∈ l1 → R q p) → (∀ q, q ∈ l2 → R p q) → StronglySorted R (l1 ++ p :: l2).
Proof.
  induction l1 as [|x l1 IH]; simpl; intros Hs H1 H2.
  - constructor; [done|]. by apply Forall_forall.
  - apply StronglySorted_inv in Hs as [Hs Hx]. constructor; [apply IH; [done|set_solver|done]|].
    apply Forall_app in Hx as [Hx1 Hx2]. apply Forall_app. split; [done|]. constructor; [apply H1; set_solver|done].
Qed.

Lemma shape_insert L ch s s' p i v n l1 l2 :
  shape L ch s → p ∉ L → service_of s i = Some v → n < max_signal_number →
  ch i = l1 ++ l2 → (∀ q, q ∈ l1 → signal_of s q < n) → (∀ q, q ∈ l2 → n < signal_of s q) →
  (∀ q, is_Some (regs s' !! q) ↔ q = p ∨ is_Some (regs s !! q)) →
  set_of s' p = i → signal_of s' p = n → next_of s' p = head_of s v n → prev_of s' p = None → nis_of s' p = head l2 →
  (∀ q, q ≠ p → set_of s' q = set_of s q) → (∀ q, q ≠ p → signal_of s' q = signal_of s q) →
  (∀ q, q ≠ p → next_of s' q = next_of s q) →
  (∀ q, q ≠ p → prev_of s' q = if decide (head_of s v n = Some q) then Some p else prev_of s q) →
  (∀ q, q ≠ p → nis_of s' q = if decide (last l1 = Some q) then Some p else nis_of s q) →
  (∀ j, service_of s' j = service_of s j) →
  (∀ j, first_of s' j = if decide (j = i ∧ l1 = []) then Some p else first_of s j) →
  (∀ w, is_Some (table_of s' w) ↔ is_Some (table_of s w)) →
  (∀ w m, head_of s' w m = if decide (w = v ∧ m = n) then Some p else head_of s w m) →
  (∀ m, count s' m = if decide (m = n) then S (count s n) else count s m) →
  shape (p :: L) (upd ch i (l1 ++ p :: l2)) s'.
Proof.
  intros [S1 S2 S3 S4 S5 S6 S7 S8 S9 S10 S11 S12] Hp Hv Hn Hch Hl1 Hl2 Hd Es Eg Ex Ep Ei Os Og Ox Op Oi Hsv Hf Ht Hh Hc.
  assert (∀ q, q ∈ L → q ≠ p) as HL by (intros q Hq ->; done). assert (p ∉ l1 ++ l2) as Hpl by (rewrite <- Hch; intros Hx; apply S9 in Hx as [? _]; done).
  assert (key s' p = (Some v, n)) as Hkp by (unfold key; by rewrite Es, Eg, Hsv, Hv).
  assert (∀ q, q ∈ L → key s' q = key s q) as Hk by (intros q Hq; unfold key; by rewrite Os, Og, Hsv by auto).
  assert (is_Some (table_of s v)) as Htv by (by eapply S4).
  assert (filter (alike (key s') p) L = filter (λ q, key s q = (Some v, n)) L) as Hfil.
  { apply filter_ext_in. intros q Hq. unfold alike. by rewrite Hkp, Hk. }
  split.
  - by constructor.
  - intros q. rewrite Hd, elem_of_cons, S2. done.
  - intros q [->|Hq]%elem_of_cons; [exists v; by rewrite Es, Hsv|]. rewrite Os, Hsv by auto. by apply S3.
  - intros j w. rewrite Hsv, Ht. apply S4.
  - intros q [->|Hq]%elem_of_cons; [by rewrite Eg|]. rewrite Og by auto. by apply S5.
  - eapply linked_cons; [|by constructor|by rewrite Ex, Hfil, S7|done| |].
    + eapply linked_same; [..|exact S6]; [exact Hk|done|done].
    + intros q Hq. by rewrite Ox by auto.
    + intros q Hq. rewrite Op, Hfil, S7 by auto. done.
  - intros w m Hw. rewrite Ht in Hw. rewrite Hh, filter_cons, Hkp, S7 by done. destruct (decide (w = v ∧ m = n)) as [[-> ->]|Hne].
    + by rewrite decide_True.
    + rewrite decide_False by naive_solver. f_equal. apply filter_ext_in. intros q Hq. by rewrite Hk.
  - intros j. rewrite Hf. unfold upd. destruct (decide (j = i)) as [->|Hj].
    + destruct l1 as [|x l1]; [by rewrite decide_True|]. rewrite decide_False by naive_solver. by rewrite S8, Hch.
    + rewrite decide_False by naive_solver. apply S8.
  - intros j q. unfold upd. rewrite elem_of_cons. case_decide as Hj.
    + subst j. specialize (S9 i q). rewrite Hch in S9. rewrite elem_of_mid. destruct (decide (q = p)) as [->|Hq]; [by split; auto|]. rewrite Os by done. naive_solver.
    + rewrite S9. destruct (decide (q = p)) as [->|Hq]; [rewrite Es; naive_solver|]. rewrite Os by done. naive_solver.
  - intros j. unfold upd. assert (∀ j, StronglySorted (λ p q, signal_of s' p < signal_of s' q) (ch j)) as Hst.
    { intros k. eapply sorted_ext; [|apply S10]. intros q q' [Hq _]%S9 [Hq' _]%S9. by rewrite !Og by auto. }
    case_decide; [|apply Hst]. specialize (Hst i). rewrite Hch in Hst. apply sorted_insert; [done|intros q Hq..]; rewrite Eg, Og;
      [by apply Hl1|intros ->; set_solver|by apply Hl2|intros ->; set_solver].
  - intros j. unfold upd. case_decide as Hj.
    + specialize (S11 i). rewrite Hch in S11. eapply chained_insert; [exact S11| |done|done|intros q Hq; apply Oi; by intros ->].
      rewrite <- Hch. by eapply sorted_nodup.
    + eapply chained_ext; [|apply S11]. intros q Hq. apply S9 in Hq as [Hq Hqj]. rewrite Oi by auto. rewrite decide_False; [done|].
      intros Hx%last_Some_elem_of. assert (q ∈ ch i) as Hqi by (rewrite Hch; set_solver). apply S9 in Hqi as [_ ?]. congruence.
  - intros m. rewrite Hc, filter_cons, Eg. assert (filter (λ q, signal_of s' q = m) L = filter (λ q, signal_of s q = m) L) as ->.
    { apply filter_ext_in. intros q Hq. by rewrite Og by auto. }
    destruct (decide (m = n)) as [->|Hm]; [rewrite decide_True by done; simpl; by rewrite S12|]. rewrite decide_False by done. apply S12.
Qed.

(** *** A registration is removed *)

Lemma chained_remove nis nis' l1 p l2 :
  chained nis (l1 ++ p :: l2) → NoDup (l1 ++ p :: l2) →
  (∀ q, q ∈ l1 ++ l2 → nis' q = if decide (last l1 = Some q) then head l2 else nis q) → chained nis' (l1 ++ l2).
Proof.
  intros Hc Hn H2 k1 x k2 He. apply NoDup_app in Hn as (Hn1 & Hn2 & Hn3). rewrite H2 by (rewrite He; apply elem_of_app; right; apply list_elem_of_here).
  apply app_eq_inv in He as [(k & -> & Hk)|(k & -> & Hk)].
  - destruct k as [|x' k]; [rewrite app_nil_r in *; simpl in Hk; subst l2|injection Hk as <- ->].
    + rewrite decide_False; [apply (Hc (k1 ++ [p])); by rewrite <- app_assoc|]. intros Hx%last_Some_elem_of. apply (Hn2 x Hx). right. apply list_elem_of_here.
    + rewrite last_app, last_cons. destruct k as [|y k]; simpl; [by rewrite decide_True|]. rewrite <- app_assoc in Hc. rewrite (Hc k1 x (y :: k ++ p :: l2)) by done.
      destruct (last (y :: k)) as [z|] eqn:Ez; [|by apply last_None in Ez]. rewrite decide_False; [done|]. intros [= ->].
      apply last_Some_elem_of in Ez. apply NoDup_app in Hn1 as (_ & _ & [Hn1 _]%NoDup_cons). done.
  - subst l2. rewrite decide_False; [apply (Hc (l1 ++ p :: k)); by rewrite <- app_assoc|]. intros Hx%last_Some_elem_of. apply (Hn2 x Hx).
    apply elem_of_cons. right. apply elem_of_app. right. apply list_elem_of_here.
Qed.

Lemma sorted_remove (R : nat → nat → Prop) l1 p l2 : StronglySorted R (l1 ++ p :: l2) → StronglySorted R (l1 ++ l2).
Proof.
  induction l1 as [|x l1 IH]; simpl; intros [Hs Hx]%StronglySorted_inv; [done|]. constructor; [by apply IH|].
  apply Forall_app in Hx as [? Hx]. apply Forall_cons in Hx as [_ ?]. by apply Forall_app.
Qed.

Lemma nodup_mid (k1 k2 : list nat) q : NoDup (k1 ++ q :: k2) → NoDup (k1 ++ k2) ∧ q ∉ k1 ++ k2.
Proof.
  intros (? & Hx & [? ?]%NoDup_cons)%NoDup_app. rewrite NoDup_app, elem_of_app. split; [split_and!; [done| |done]|].
  - intros x Hq Hq'. apply (Hx x Hq). by right.
  - intros [Hq|?]; [|done]. apply (Hx q Hq). apply list_elem_of_here.
Qed.

Section remove.
Context (l1 l2 c1 c2 : list nat) (ch : nat → list nat) (s s' : signals) (p i n v : nat).
Context (Hs : shape (l1 ++ p :: l2) ch s) (Hi : set_of s p = i) (Hsig : signal_of s p = n) (Hv : service_of s i = Some v) (Hch : ch i = c1 ++ p :: c2).
Context (Hd : ∀ q, is_Some (regs s' !! q) ↔ q ≠ p ∧ is_Some (regs s !! q)).
Context (Os : ∀ q, q ≠ p → set_of s' q = set_of s q) (Og : ∀ q, q ≠ p → signal_of s' q = signal_of s q).
Context (Ox : ∀ q, q ≠ p → next_of s' q = if decide (prev_of s p = Some q) then next_of s p else next_of s q).
Context (Op : ∀ q, q ≠ p → prev_of s' q = if decide (next_of s p = Some q) then prev_of s p else prev_of s q).
Context (Oi : ∀ q, q ≠ p → nis_of s' q = if decide (last c1 = Some q) then head c2 else nis_of s q).
Context (Hsv : ∀ j, service_of s' j = service_of s j).
Context (Hf : ∀ j, first_of s' j = if decide (j = i ∧ c1 = []) then head c2 else first_of s j).
Context (Ht : ∀ w, is_Some (table_of s' w) ↔ is_Some (table_of s w)).
Context (Hh : ∀ w m, head_of s' w m = if decide (w = v ∧ m = n ∧ head_of s v n = Some p) then next_of s p else head_of s w m).
Context (Hc : ∀ m, count s' m = if decide (m = n) then pred (count s n) else count s m).

Lemma rm_in q : q ∈ l1 ++ l2 → q ≠ p ∧ q ∈ l1 ++ p :: l2.
Proof using All. intros Hq. destruct (nodup_mid _ _ _ (sh_nodup _ _ _ Hs)) as [_ Hp]. rewrite elem_of_mid. split; [by intros ->|by right]. Qed.
Lemma rm_chain : NoDup (c1 ++ c2) ∧ p ∉ c1 ++ c2.
Proof using All. apply nodup_mid. rewrite <- Hch. eapply sorted_nodup, Hs. Qed.
Lemma rm_key_p : key s p = (Some v, n).
Proof using All. unfold key. by rewrite Hi, Hsig, Hv. Qed.
Lemma rm_key q : q ∈ l1 ++ l2 → key s' q = key s q.
Proof using All. intros [Hq _]%rm_in. unfold key. by rewrite Os, Og, Hsv. Qed.
Lemma rm_filter (P : nat → Prop) `{!∀ q, Decision (P q)} : ¬ P p → filter P (l1 ++ p :: l2) = filter P (l1 ++ l2).
Proof using Type. intros HP. by rewrite !filter_app, filter_cons, decide_False. Qed.

(** The list of the table that [p] was on may have a new head. *)
Lemma rm_head w m : is_Some (table_of s w) → head_of s' w m = head (filter (λ q, key s' q = (Some w, m)) (l1 ++ l2)).
Proof using All.
  intros Hw. rewrite Hh. pose proof rm_key_p as Hkp. rewrite (filter_ext_in _ (λ q, key s q = (Some w, m)) (l1 ++ l2)) by (intros q Hq; by rewrite rm_key).
  pose proof (sh_head _ _ _ Hs w m Hw) as S7. destruct (decide (w = v ∧ m = n)) as [[-> ->]|Hne].
  - rewrite filter_app, filter_cons, decide_True in S7 by done. destruct (sh_table _ _ _ Hs l1 p l2 eq_refl) as [Hnx _].
    rewrite (filter_ext_in _ (λ q, key s q = (Some v, n))) in Hnx by (intros q _; unfold alike; by rewrite Hkp).
    rewrite filter_app. destruct (filter (λ q, key s q = (Some v, n)) l1) as [|y l] eqn:Ey; simpl in *; [by rewrite decide_True|].
    rewrite decide_False; [done|]. intros (_ & _ & Hy). rewrite S7 in Hy. injection Hy as ->.
    assert (p ∈ filter (λ q, key s q = (Some v, n)) l1) as Hy by (rewrite Ey; apply list_elem_of_here). apply list_elem_of_filter in Hy as [_ Hy].
    destruct (nodup_mid _ _ _ (sh_nodup _ _ _ Hs)) as [_ Hp]. apply Hp, elem_of_app. by left.
  - rewrite decide_False by naive_solver. rewrite S7, rm_filter; [done|]. rewrite Hkp. naive_solver.
Qed.

Lemma rm_member j q : q ∈ upd ch i (c1 ++ c2) j ↔ q ∈ l1 ++ l2 ∧ set_of s' q = j.
Proof using All.
  unfold upd. pose proof (sh_in _ _ _ Hs j q) as S9. rewrite elem_of_mid in S9. destruct (nodup_mid _ _ _ (sh_nodup _ _ _ Hs)) as [_ Hp].
  destruct rm_chain as [_ Hpc]. destruct (decide (q = p)) as [->|Hq].
  - split; [|by intros []]. destruct (decide (j = i)); [by intros ?%Hpc|]. intros [_ ?]%S9. congruence.
  - rewrite Os by done. destruct (decide (j = i)) as [->|Hj]; [|naive_solver]. rewrite Hch, elem_of_mid in S9. naive_solver.
Qed.

Lemma rm_sorted j : StronglySorted (λ p q, signal_of s' p < signal_of s' q) (upd ch i (c1 ++ c2) j).
Proof using All.
  assert (StronglySorted (λ p q, signal_of s p < signal_of s q) (upd ch i (c1 ++ c2) j)) as Hj.
  { unfold upd. destruct (decide (j = i)); [|apply Hs]. eapply sorted_remove. rewrite <- Hch. apply Hs. }
  eapply sorted_ext; [|exact Hj]. intros q q' [[Hq _]%rm_in _]%rm_member [[Hq' _]%rm_in _]%rm_member. by rewrite !Og.
Qed.

Lemma rm_chained j : chained (nis_of s') (upd ch i (c1 ++ c2) j).
Proof using All.
  pose proof (sh_chain _ _ _ Hs) as S11. unfold upd. destruct (decide (j = i)) as [Hj|Hj].
  - specialize (S11 i). rewrite Hch in S11. eapply chained_remove; [exact S11|rewrite <- Hch; eapply sorted_nodup, Hs|]. intros q Hq. apply Oi. intros ->.
    by destruct rm_chain.
  - eapply chained_ext; [|apply S11]. intros q [Hq Hqj]%(sh_in _ _ _ Hs). rewrite Oi by (intros ->; congruence). rewrite decide_False; [done|].
    intros Hx%last_Some_elem_of. assert (q ∈ ch i) as Hqi by (rewrite Hch; apply elem_of_app; by left). apply (sh_in _ _ _ Hs) in Hqi as [_ ?]. congruence.
Qed.

Lemma shape_remove : shape (l1 ++ l2) (upd ch i (c1 ++ c2)) s'.
Proof using All.
  pose proof Hs as [S1 S2 S3 S4 S5 S6 S7 S8 S9 S10 S11 S12]. destruct (nodup_mid _ _ _ S1) as [Hn' Hp]. split.
  - done.
  - intros q. rewrite Hd, <- S2, elem_of_mid. destruct (decide (q = p)) as [->|]; [split; [done|by intros []]|naive_solver].
  - intros q [Hq Hq']%rm_in. rewrite Os, Hsv by done. by apply S3.
  - intros j w. rewrite Hsv, Ht. apply S4.
  - intros q [Hq Hq']%rm_in. rewrite Og by done. by apply S5.
  - eapply (linked_same (key s)); [exact rm_key|done|done|].
    eapply linked_remove; [exact S6|done|intros q [Hq _]%rm_in; by apply Ox|intros q [Hq _]%rm_in; by apply Op].
  - intros w m Hw. rewrite Ht in Hw. by apply rm_head.
  - intros j. rewrite Hf. unfold upd. destruct (decide (j = i)) as [->|Hj]; [|rewrite decide_False by naive_solver; apply S8].
    destruct c1 as [|x c]; [by rewrite decide_True|]. rewrite decide_False by naive_solver. by rewrite S8, Hch.
  - apply rm_member.
  - apply rm_sorted.
  - apply rm_chained.
  - intros m. rewrite (filter_ext_in _ (λ q, signal_of s q = m)) by (intros q [Hq _]%rm_in; by rewrite Og).
    rewrite Hc, !S12. destruct (decide (m = n)) as [->|Hm]; [|rewrite rm_filter; [done|congruence]].
    rewrite !filter_app, !length_app, filter_cons, decide_True by done. simpl. lia.
Qed.
End remove.

(** *** The list of services *)

Definition snext s v : option nat := x ← services s !! v; next_ x.
Definition sprev s v : option nat := x ← services s !! v; prev_ x.

Record listed (V : list nat) s : Prop := {
  ls_head : service_list_ s = head V;
  ls_nodup : NoDup V;
  ls_in : ∀ v, v ∈ V → is_Some (services s !! v);
  ls_linked : linked (λ _, tt) V (snext s) (sprev s);
  ls_out : ∀ v, v ∉ V → snext s v = None ∧ sprev s v = None;
  ls_pipe : pipe_open s = bool_decide (V ≠ []) }.

Lemma filter_any x (l : list nat) : filter (alike (λ _, tt) x) l = l.
Proof. by apply filter_all. Qed.

(** ** Signals without pointers

    A registration is a set, a signal and the number of times that the signal came and no
    operation of the set was waiting; the newest is the first. *)

Record a_registration : Type := ARegistration { a_set : nat; a_signal : nat; a_undelivered : nat }.
Record a_signal_set : Type := ASignalSet { a_service : nat; a_waits : list signal_op }.
Record spec : Type := Spec {
  a_regs : list a_registration; a_sets : gmap nat a_signal_set; a_services : list nat; a_known : gset nat;
  a_flags : gmap nat Z; a_handled : gset nat; a_posted : list (nat * completion); a_abandoned : list signal_op }.
Implicit Types a : spec.

Definition a_count a n : nat := length (filter (λ r, a_signal r = n) (a_regs a)).
Definition a_flag a n : Z := default no_flags (a_flags a !! n).
Definition is_reg i n (r : a_registration) : Prop := a_set r = i ∧ a_signal r = n.
#[global] Instance is_reg_dec i n r : Decision (is_reg i n r) := decide (_ ∧ _).

Definition a_set_regs l a := Spec l (a_sets a) (a_services a) (a_known a) (a_flags a) (a_handled a) (a_posted a) (a_abandoned a).
Definition a_set_waits i l a :=
  Spec (a_regs a) (alter (λ x, ASignalSet (a_service x) l) i (a_sets a)) (a_services a) (a_known a) (a_flags a) (a_handled a) (a_posted a) (a_abandoned a).
Definition a_set_action n (b : bool) (f : Z) a :=
  Spec (a_regs a) (a_sets a) (a_services a) (a_known a) (<[n := f]> (a_flags a))
    (if b then a_handled a ∪ {[n]} else a_handled a ∖ {[n]}) (a_posted a) (a_abandoned a).
Definition a_post l a := Spec (a_regs a) (a_sets a) (a_services a) (a_known a) (a_flags a) (a_handled a) (a_posted a ++ l) (a_abandoned a).
Definition a_abandon l a := Spec (a_regs a) (a_sets a) (a_services a) (a_known a) (a_flags a) (a_handled a) (a_posted a) (a_abandoned a ++ l).

Definition a_install n (f : Z) (sigaction : option Z) a : option net_error * spec :=
  if decide (a_count a n = 0) then match sigaction with Some e => (Some (err_other e), a) | None => (None, a_set_action n true f a) end
  else if decide (f = dont_care ∨ f = a_flag a n) then (None, a)
  else if decide (a_flag a n ≠ dont_care) then (Some (err_other 22), a)
  else match sigaction with Some e => (Some (err_other e), a) | None => (None, a_set_action n true f a) end.

Definition a_add i (signal_number : Z) (f : Z) (sigaction : option Z) a : option net_error * spec :=
  if decide (signal_number < 0 ∨ Z.of_nat max_signal_number ≤ signal_number)%Z then (Some (err_other 22), a) else
  let n := Z.to_nat signal_number in
  if decide (Exists (is_reg i n) (a_regs a)) then (None, a)
  else match a_install n f sigaction a with
  | (Some e, a) => (Some e, a)
  | (None, a) => (None, a_set_regs (ARegistration i n 0 :: a_regs a) a)
  end.

Definition a_restore n (sigaction : option Z) a : option net_error * spec :=
  if decide (a_count a n = 1) then match sigaction with Some e => (Some (err_other e), a) | None => (None, a_set_action n false no_flags a) end
  else (None, a).
Definition a_drop i n a : spec := a_set_regs (filter (λ r, ¬ is_reg i n r) (a_regs a)) a.

Definition a_remove i (signal_number : Z) (sigaction : option Z) a : option net_error * spec :=
  if decide (signal_number < 0 ∨ Z.of_nat max_signal_number ≤ signal_number)%Z then (Some (err_other 22), a) else
  let n := Z.to_nat signal_number in
  if decide (Exists (is_reg i n) (a_regs a)) then
    match a_restore n sigaction a with (Some e, a) => (Some e, a) | (None, a) => (None, a_drop i n a) end
  else (None, a).

(** The signals of a set, in order *)
Definition a_signals_of i a : list nat := merge_sort (≤) (a_signal <$> filter (λ r, a_set r = i) (a_regs a)).

Fixpoint a_clear_loop i (ns : list nat) (sigaction : nat → option Z) a : option net_error * spec :=
  match ns with
  | [] => (None, a)
  | n :: ns =>
      match a_restore n (sigaction n) a with
      | (Some e, a) => (Some e, a)
      | (None, a) => a_clear_loop i ns sigaction (a_drop i n a)
      end
  end.
Definition a_clear i (sigaction : nat → option Z) a : option net_error * spec := a_clear_loop i (a_signals_of i a) sigaction a.

Definition a_waits_of i a : list signal_op := default [] (a_waits <$> a_sets a !! i).
Definition a_service_of i a : option nat := a_service <$> a_sets a !! i.

Definition a_cancel i a : spec :=
  match a_sets a !! i with
  | Some x => a_post (abort_op (a_service x) <$> a_waits x) (a_set_waits i [] a)
  | None => a
  end.
Definition a_cancel_key i (key : nat) a : spec :=
  match a_sets a !! i with
  | Some x => a_post (abort_op (a_service x) <$> filter (λ o, cancellation_key_ o = Some key) (a_waits x))
                (a_set_waits i (filter (λ o, cancellation_key_ o ≠ Some key) (a_waits x)) a)
  | None => a
  end.
Definition a_construct i v a : spec :=
  Spec (a_regs a) (<[i := ASignalSet v []]> (a_sets a)) (a_services a) (a_known a) (a_flags a) (a_handled a) (a_posted a) (a_abandoned a).
Definition a_remove_set i a : spec :=
  Spec (a_regs a) (delete i (a_sets a)) (a_services a) (a_known a) (a_flags a) (a_handled a) (a_posted a) (a_abandoned a).
Definition a_destroy i (sigaction : nat → option Z) a : spec := a_remove_set i (a_cancel i (a_clear i sigaction a).2).

(** The signal [n] reaches the set [i]: all operations that wait, or nobody. *)
Definition a_change i n (f : nat → nat) a : spec :=
  a_set_regs ((λ r, if decide (is_reg i n r) then ARegistration i n (f (a_undelivered r)) else r) <$> a_regs a) a.
Definition a_deliver_set v n a i : spec :=
  match a_waits_of i a with
  | [] => a_change i n S a
  | ops => a_post ((λ o, (v, (o, inl n))) <$> ops) (a_set_waits i [] a)
  end.
Definition a_table v n a : list nat := a_set <$> filter (λ r, a_signal r = n ∧ a_service_of (a_set r) a = Some v) (a_regs a).
Definition a_deliver n a : spec := foldl (λ a v, foldl (a_deliver_set v n) a (a_table v n a)) a (a_services a).
Definition a_pipe (l : list Z) a : spec :=
  foldl (λ a (n : Z), if decide (0 ≤ n < Z.of_nat max_signal_number)%Z then a_deliver (Z.to_nat n) a else a) a l.

(** An operation gets the first signal that came before. *)
Definition a_pending i n a : nat := sum_list (a_undelivered <$> filter (is_reg i n) (a_regs a)).
Definition a_wait i (o : signal_op) a : spec :=
  match a_sets a !! i with
  | None => a
  | Some x =>
      match list_find (λ n, 0 < a_pending i n a) (a_signals_of i a) with
      | Some (_, n) => a_post [(a_service x, (o, inl n))] (a_change i n pred a)
      | None => a_set_waits i (a_waits x ++ [o]) a
      end
  end.

Definition a_set_services l k a := Spec (a_regs a) (a_sets a) l k (a_flags a) (a_handled a) (a_posted a) (a_abandoned a).
Definition a_add_service v (pipe : option Z) a : outcome unit * spec :=
  match a_services a, pipe with
  | [], Some e => (Throw (system_error e), a)
  | l, _ => (Ret tt, a_set_services (v :: l) (a_known a ∪ {[v]}) a)
  end.
(** The sets of a service that have a registration lose their operations. *)
Definition a_abandon_set a i : spec := a_abandon (a_waits_of i a) (a_set_waits i [] a).
Definition a_shutdown v a : spec :=
  foldl (λ a n, foldl a_abandon_set a (a_table v n a))
    (a_set_services (filter (.≠ v) (a_services a)) (a_known a) a) (seq 0 max_signal_number).

(** ** Refinement *)

Definition view s p : a_registration := ARegistration (set_of s p) (signal_of s p) (observe undelivered_ 0 s p).
Definition view_set (x : signal_set) : a_signal_set := ASignalSet (set_service x) (set_queue x).

Record represents (L : list nat) (ch : nat → list nat) s a : Prop := {
  rp_shape : shape L ch s;
  rp_listed : listed (a_services a) s;
  rp_regs : a_regs a = view s <$> L;
  rp_sets : a_sets a = view_set <$> sets s;
  rp_known : a_known a = dom (services s);
  rp_flags : a_flags a = flags_ s;
  rp_handled : a_handled a = handled s;
  rp_posted : a_posted a = posted s;
  rp_abandoned : a_abandoned a = abandoned s }.

(** *** Walking along a list *)

Lemma shape_size L ch s : shape L ch s → length L = size (regs s).
Proof.
  intros Hs. rewrite <- size_dom. replace (dom (regs s)) with (list_to_set (C := gset nat) L).
  - by rewrite size_list_to_set by apply Hs.
  - apply set_eq. intros p. by rewrite elem_of_list_to_set, elem_of_dom, (sh_dom _ _ _ Hs).
Qed.
Lemma set_chain_length L ch s i : shape L ch s → length (ch i) ≤ size (regs s).
Proof.
  intros Hs. rewrite <- (shape_size _ _ _ Hs). apply submseteq_length, NoDup_submseteq; [eapply sorted_nodup, Hs|].
  intros p [? _]%(sh_in _ _ _ Hs). done.
Qed.

Lemma get_reg_done s p r : regs s !! p = Some r → get_reg p s = Done r s.
Proof. intros Hp. unfold get_reg. by rewrite get_state_bind, Hp. Qed.
Lemma get_set_done s i x : sets s !! i = Some x → get_set i s = Done x s.
Proof. intros Hp. unfold get_set. by rewrite get_state_bind, Hp. Qed.
Lemma get_service_done s v x : services s !! v = Some x → get_service v s = Done x s.
Proof. intros Hp. unfold get_service. by rewrite get_state_bind, Hp. Qed.

Lemma reg_at L ch s p : shape L ch s → p ∈ L → ∃ r, regs s !! p = Some r ∧ signal_number_ r = signal_of s p ∧ queue_ r = set_of s p ∧
  next_in_set_ r = nis_of s p ∧ next_in_table_ r = next_of s p ∧ prev_in_table_ r = prev_of s p ∧ undelivered_ r = observe undelivered_ 0 s p.
Proof. intros Hs [r Hr]%(sh_dom _ _ _ Hs). exists r. unfold observe. by rewrite Hr. Qed.

Lemma find_in_set_spec L ch s i n fuel k1 k2 :
  shape L ch s → ch i = k1 ++ k2 → (∀ q, q ∈ k1 → signal_of s q < n) → length k2 < fuel →
  ∃ l1 l2, ch i = l1 ++ l2 ∧ (∀ q, q ∈ l1 → signal_of s q < n) ∧ (∀ q, q ∈ l2 → n ≤ signal_of s q) ∧
    find_in_set fuel n (last k1) (head k2) s = Done (last l1, head l2) s.
Proof.
  intros Hs. revert k1 k2. induction fuel as [|fuel IH]; intros k1 k2 Hch H1 Hf; [lia|]. destruct k2 as [|p k2]; simpl.
  { exists k1, []. by split_and!; [| |intros q ?%not_elem_of_nil|]. }
  assert (p ∈ ch i) as Hp by (rewrite Hch; apply elem_of_app; right; apply list_elem_of_here).
  destruct (reg_at L ch s p Hs) as (r & Hr & Hsig & _ & Hnis & _); [by apply (sh_in _ _ _ Hs) in Hp as [? _]|].
  rewrite (comp_bind_done _ _ _ _ _ (get_reg_done _ _ _ Hr)), Hsig, Hnis, (sh_chain _ _ _ Hs i k1 p k2 Hch). case_decide as Hlt.
  - destruct (IH (k1 ++ [p]) k2) as (l1 & l2 & He & H1' & H2' & Hfind); [by rewrite <- app_assoc| |simpl in Hf; lia|].
    + intros q [Hq| ->%list_elem_of_singleton]%elem_of_app; auto.
    + rewrite last_snoc in Hfind. by exists l1, l2.
  - exists k1, (p :: k2). split_and!; [done|done| |done]. intros q [->|Hq]%elem_of_cons; [lia|].
    pose proof (sh_sorted _ _ _ Hs i) as Hso. rewrite Hch in Hso. apply StronglySorted_app in Hso as (_ & _ & Hso).
    apply StronglySorted_inv in Hso as [_ Hso]. apply (proj1 (Forall_forall _ _) Hso) in Hq. lia.
Qed.

Lemma shape_same L ch s s' :
  regs s' = regs s → sets s' = sets s → services s' = services s → registration_count_ s' = registration_count_ s → shape L ch s → shape L ch s'.
Proof.
  intros Hr Hs Hv Hc. apply shape_ext; intros *; unfold observe, service_of, first_of, table_of, count; by rewrite ?Hr, ?Hs, ?Hv, ?Hc.
Qed.
Lemma listed_same V s s' : services s' = services s → service_list_ s' = service_list_ s → pipe_open s' = pipe_open s → listed V s → listed V s'.
Proof.
  intros Hv Hl Hp [H1 H2 H3 H4 H5 H6]. split; rewrite ?Hl, ?Hv, ?Hp; try done.
  - eapply linked_same; [..|exact H4]; [done| |]; intros v _; unfold snext, sprev; by rewrite Hv.
  - intros v Hx. unfold snext, sprev. rewrite Hv. by apply H5.
Qed.

(** *** Changing pointers *)

Definition opt_alter {A} (f : A → A) (o : option nat) (m : gmap nat A) : gmap nat A := match o with None => m | Some q => alter f q m end.
(** The pointer to [o] leads to an object. *)
Definition valid {A} (o : option nat) (m : gmap nat A) : Prop := ∀ q, o = Some q → is_Some (m !! q).

Lemma map_alter_as_insert {A} (f : A → A) (m : gmap nat A) q x : m !! q = Some x → alter f q m = <[q := f x]> m.
Proof. intros Hx. apply map_eq. intros j. rewrite lookup_alter, lookup_insert. case_decide; [subst; by rewrite Hx|done]. Qed.

Lemma update_reg_done f s p : is_Some (regs s !! p) → update_reg f p s = Done tt (set_regs (alter f p) s).
Proof.
  intros [r Hr]. unfold update_reg. rewrite (comp_bind_done _ _ _ _ _ (get_reg_done _ _ _ Hr)). unfold put_reg, modify, set_regs.
  by rewrite (map_alter_as_insert _ _ _ _ Hr).
Qed.
Lemma if_set_reg_done f s o : valid o (regs s) → if_set o (update_reg f) s = Done tt (set_regs (opt_alter f o) s).
Proof. intros Hv. destruct o as [q|]; [by apply update_reg_done, Hv|]. by destruct s. Qed.
Lemma update_service_done f s v : is_Some (services s !! v) → update_service f v s = Done tt (set_services (alter f v) s).
Proof.
  intros [r Hr]. unfold update_service. rewrite (comp_bind_done _ _ _ _ _ (get_service_done _ _ _ Hr)). unfold put_service, modify, set_services.
  by rewrite (map_alter_as_insert _ _ _ _ Hr).
Qed.
Lemma if_set_service_done f s o : valid o (services s) → if_set o (update_service f) s = Done tt (set_services (opt_alter f o) s).
Proof. intros Hv. destruct o as [q|]; [by apply update_service_done, Hv|]. by destruct s. Qed.

Definition with_signals q (x : signal_set) := SignalSet (set_service x) (set_queue x) q.
Definition relink i (ip q : option nat) s : signals :=
  match ip with None => set_sets (alter (with_signals q) i) s | Some p => set_regs (alter (with_next_in_set q) p) s end.
Lemma set_link_done i ip q s : is_Some (sets s !! i) → valid ip (regs s) → set_link i ip q s = Done tt (relink i ip q s).
Proof.
  intros [x Hx] Hv. destruct ip as [p|]; simpl; [by apply update_reg_done, Hv|]. rewrite (comp_bind_done _ _ _ _ _ (get_set_done _ _ _ Hx)).
  unfold put_set, modify, set_sets. by rewrite (map_alter_as_insert _ _ _ _ Hx).
Qed.

(** *** [add] *)

Section refine.
Context {L : list nat} {ch : nat → list nat} {s : signals} {a : spec} (HR : represents L ch s a).

Lemma a_count_spec n : a_count a n = count s n.
Proof using HR.
  unfold a_count. rewrite (rp_regs _ _ _ _ HR), filter_fmap_list, length_fmap. rewrite (sh_count _ _ _ (rp_shape _ _ _ _ HR)). done.
Qed.
Lemma a_flag_spec n : a_flag a n = flags s n.
Proof using HR. unfold a_flag. by rewrite (rp_flags _ _ _ _ HR). Qed.

Lemma set_action_represents n b f : represents L ch (set_action n b f s) (a_set_action n b f a).
Proof using HR.
  destruct HR as [H1 H2 H3 H4 H5 H6 H7 H8 H9]. split; simpl; try done; [by apply (shape_same _ _ s)|by apply (listed_same _ s)|by rewrite H6|by rewrite H7].
Qed.

Lemma install_spec n f sigaction :
  let r := a_install n f sigaction a in
  ∃ s', install_handler n f sigaction s = Done r.1 s' ∧ represents L ch s' r.2 ∧ regs s' = regs s ∧ sets s' = sets s ∧ services s' = services s ∧
    registration_count_ s' = registration_count_ s.
Proof using HR.
  unfold install_handler, a_install. rewrite get_state_bind, a_count_spec, a_flag_spec. pose proof (set_action_represents n true f).
  repeat case_decide; try (destruct sigaction); eexists; by split_and!.
Qed.
Lemma restore_spec n sigaction :
  let r := a_restore n sigaction a in
  ∃ s', restore_default n sigaction s = Done r.1 s' ∧ represents L ch s' r.2 ∧ regs s' = regs s ∧ sets s' = sets s ∧ services s' = services s ∧
    registration_count_ s' = registration_count_ s.
Proof using HR.
  unfold restore_default, a_restore. rewrite get_state_bind, a_count_spec. pose proof (set_action_represents n false no_flags).
  repeat case_decide; try (destruct sigaction); eexists; by split_and!.
Qed.

Lemma a_set_spec i x : sets s !! i = Some x → a_sets a !! i = Some (view_set x).
Proof using HR. intros Hx. by rewrite (rp_sets _ _ _ _ HR), lookup_fmap, Hx. Qed.
Lemma a_set_inv i : is_Some (a_sets a !! i) → ∃ x, sets s !! i = Some x.
Proof using HR. rewrite (rp_sets _ _ _ _ HR), lookup_fmap. destruct (sets s !! i) as [x|]; [eauto|by intros []]. Qed.

(** The place of a signal in its set. *)
Definition split_at i n (l1 l2 : list nat) : Prop :=
  ch i = l1 ++ l2 ∧ (∀ q, q ∈ l1 → signal_of s q < n) ∧ (∀ q, q ∈ l2 → n ≤ signal_of s q).

Lemma registered_spec i n l1 l2 :
  split_at i n l1 l2 → Exists (is_reg i n) (a_regs a) ↔ ∃ p k2, l2 = p :: k2 ∧ signal_of s p = n.
Proof using HR.
  intros (Hch & H1 & H2). destruct HR as [Hs _ Hr _ _ _ _ _ _]. rewrite Hr, Exists_fmap, Exists_exists. split.
  - intros (p & Hp & Hi & Hn). simpl in *. assert (p ∈ ch i) as Hc by (by apply (sh_in _ _ _ Hs)). rewrite Hch in Hc.
    apply elem_of_app in Hc as [Hc|Hc]; [apply H1 in Hc; lia|]. destruct l2 as [|q k2]; [by apply not_elem_of_nil in Hc|].
    apply elem_of_cons in Hc as [->|Hc]; [eauto|]. pose proof (sh_sorted _ _ _ Hs i) as Hso. rewrite Hch in Hso.
    apply StronglySorted_app_1_r, StronglySorted_inv in Hso as [_ Hso]. apply (proj1 (Forall_forall _ _) Hso) in Hc.
    specialize (H2 q (list_elem_of_here _ _)). lia.
  - intros (p & k2 & -> & Hn). assert (p ∈ ch i) as Hc by (rewrite Hch; apply elem_of_app; right; apply list_elem_of_here).
    apply (sh_in _ _ _ Hs) in Hc as [Hp Hi]. exists p. by split_and!.
Qed.

Lemma is_registered_spec i n l1 l2 :
  split_at i n l1 l2 → is_registered n (head l2) s = Done (bool_decide (Exists (is_reg i n) (a_regs a))) s.
Proof using HR.
  intros Hsp. pose proof (registered_spec _ _ _ _ Hsp) as Hreg. pose proof Hsp as (Hch & _ & _). destruct l2 as [|p k2]; simpl.
  - rewrite bool_decide_false; [done|]. rewrite Hreg. by intros (? & ? & ? & _).
  - assert (p ∈ ch i) as Hc by (rewrite Hch; apply elem_of_app; right; apply list_elem_of_here). destruct HR as [Hs _ _ _ _ _ _ _ _].
    apply (sh_in _ _ _ Hs) in Hc as [Hp _]. destruct (reg_at _ _ _ _ Hs Hp) as (r & Hr & Hn & _).
    rewrite (comp_bind_done _ _ _ _ _ (get_reg_done _ _ _ Hr)). rewrite Hn. unfold mret, comp_ret. f_equal. apply bool_decide_ext.
    rewrite Hreg. split; [eauto|]. by intros (? & ? & [= <- <-] & ?).
Qed.

Lemma find_spec i n :
  ∃ l1 l2, split_at i n l1 l2 ∧ find_in_set (S (size (regs s))) n None (first_of s i) s = Done (last l1, head l2) s.
Proof using HR.
  destruct HR as [Hs _ _ _ _ _ _ _ _]. rewrite (sh_first _ _ _ Hs).
  destruct (find_in_set_spec L ch s i n (S (size (regs s))) [] (ch i) Hs) as (l1 & l2 & ? & ? & ? & Hf); [done|by intros q ?%not_elem_of_nil| |].
  - pose proof (set_chain_length _ _ _ i Hs). lia.
  - by exists l1, l2.
Qed.
End refine.

(** The state after [link_registration]. *)
Definition linked_state s i v n (ip next : option nat) : signals :=
  let p := fresh (dom (regs s)) in
  set_count n (S (count s n))
    (set_services (alter (λ y, Service (<[n := p]> (registrations_ y)) (next_ y) (prev_ y)) v)
      (set_regs (opt_alter (with_prev_in_table (Some p)) (head_of s v n))
        (set_regs (alter (with_next_in_table (head_of s v n)) p)
          (relink i ip (Some p) (set_regs (<[p := Registration n i 0 None None next]>) s))))).

Lemma relink_frame i ip q s :
  services (relink i ip q s) = services s ∧ (∀ p, is_Some (regs (relink i ip q s) !! p) ↔ is_Some (regs s !! p)).
Proof. destruct ip as [p|]; simpl; (split; [done|]); intros q'; [|done]. rewrite lookup_alter. case_decide; [subst; by rewrite fmap_is_Some|done]. Qed.

Lemma link_done s i v n ip next :
  is_Some (sets s !! i) → is_Some (services s !! v) → valid ip (regs s) → valid (head_of s v n) (regs s) →
  link_registration i v n ip next s = Done tt (linked_state s i v n ip next).
Proof.
  intros Hi [y Hy] Hip Hh. unfold link_registration, linked_state. rewrite get_state_bind. cbv zeta. set (p := fresh (dom (regs s))).
  assert (head_of s v n = registrations_ y !! n) as Hhd by (unfold head_of, table_of; by rewrite Hy).
  rewrite (comp_bind_done (put_reg p _) _ _ tt _ eq_refl). set (s1 := set_regs (<[p := _]>) s).
  assert (∀ o, valid o (regs s) → valid o (regs s1)) as Hv1.
  { intros o Ho q Hq. simpl. rewrite lookup_insert. case_decide; [done|]. by apply Ho. }
  rewrite (comp_bind_done _ _ _ _ _ (set_link_done i ip (Some p) s1 Hi (Hv1 _ Hip))). destruct (relink_frame i ip (Some p) s1) as [Hsv Hd].
  set (s2 := relink i ip (Some p) s1) in *.
  assert (services s2 !! v = Some y) as Hy2 by (by rewrite Hsv). rewrite (comp_bind_done _ _ _ _ _ (get_service_done _ _ _ Hy2)), Hhd.
  assert (is_Some (regs s2 !! p)) as Hp2 by (rewrite Hd; simpl; by rewrite lookup_insert_eq).
  rewrite (comp_bind_done _ _ _ _ _ (update_reg_done (with_next_in_table (registrations_ y !! n)) s2 p Hp2)).
  set (s3 := set_regs (alter _ p) s2).
  assert (valid (registrations_ y !! n) (regs s3)) as Hv3.
  { rewrite <- Hhd. intros q Hq. simpl. rewrite lookup_alter. case_decide; subst; [rewrite fmap_is_Some|]; apply Hd, (Hv1 _ Hh _ Hq). }
  rewrite (comp_bind_done _ _ _ _ _ (if_set_reg_done _ s3 _ Hv3)). unfold put_service, modify, mbind, comp_bind.
  unfold set_count, set_services. simpl. by rewrite (map_alter_as_insert _ _ _ _ Hy2).
Qed.

Section link.
Context (s : signals) (i v n : nat) (ip next : option nat).
Context (Hip : valid ip (regs s)) (Hh : valid (head_of s v n) (regs s)).
Let p := fresh (dom (regs s)).
Let s' := linked_state s i v n ip next.

Lemma fresh_reg : regs s !! p = None.
Proof using Type. apply not_elem_of_dom, is_fresh. Qed.

Lemma linked_regs q :
  regs s' !! q = if decide (q = p) then Some (Registration n i 0 (head_of s v n) None next)
    else (λ r, (if decide (head_of s v n = Some q) then with_prev_in_table (Some p) else id)
                 ((if decide (ip = Some q) then with_next_in_set (Some p) else id) r)) <$> regs s !! q.
Proof using All.
  pose proof fresh_reg as Hp. assert (ip ≠ Some p ∧ head_of s v n ≠ Some p) as [Hip' Hh'].
  { split; intros Hx; [apply Hip in Hx|apply Hh in Hx]; rewrite Hp in Hx; by destruct Hx. }
  unfold s', linked_state. fold p. cbv zeta. destruct (head_of s v n) as [h|], ip as [k|]; simpl;
    repeat first [rewrite lookup_alter | rewrite lookup_insert | case_decide]; simplify_eq/=; try done; by destruct (regs s !! q).
Qed.

Lemma linked_observe {A} (f : registration → A) d q : q ≠ p →
  (∀ o r, f (with_prev_in_table o r) = f r) → (∀ o r, f (with_next_in_set o r) = f r) → observe f d s' q = observe f d s q.
Proof using All.
  intros Hq H1 H2. unfold observe. rewrite linked_regs, decide_False by done. destruct (regs s !! q); simpl; [|done].
  repeat case_decide; simpl; by rewrite ?H1, ?H2.
Qed.

Lemma linked_dom q : is_Some (regs s' !! q) ↔ q = p ∨ is_Some (regs s !! q).
Proof using All.
  rewrite linked_regs. case_decide as Hq; [subst; split; eauto|]. rewrite fmap_is_Some. naive_solver.
Qed.
Lemma linked_prev q : q ≠ p → prev_of s' q = if decide (head_of s v n = Some q) then Some p else prev_of s q.
Proof using All.
  intros Hq. unfold observe. rewrite linked_regs, decide_False by done. case_decide as Hx.
  - apply Hh in Hx as [r ->]. simpl. done.
  - destruct (regs s !! q); simpl; [|done]. by case_decide.
Qed.
Lemma linked_nis q : q ≠ p → nis_of s' q = if decide (ip = Some q) then Some p else nis_of s q.
Proof using All.
  intros Hq. unfold observe. rewrite linked_regs, decide_False by done. destruct (decide (ip = Some q)) as [Hx|Hx].
  - apply Hip in Hx as [r ->]. simpl. by case_decide.
  - destruct (regs s !! q); simpl; [|done]. by case_decide.
Qed.
Lemma linked_sets : (∀ j, service_of s' j = service_of s j) ∧ view_set <$> sets s' = view_set <$> sets s ∧
  ∀ j, is_Some (sets s !! i) → first_of s' j = if decide (j = i ∧ ip = None) then Some p else first_of s j.
Proof using All.
  assert (sets s' = match ip with None => alter (with_signals (Some p)) i (sets s) | Some _ => sets s end) as Hs by (unfold s', linked_state; by destruct ip).
  unfold service_of, first_of. rewrite Hs. destruct ip as [k|].
  - split_and!; [done|done|]. intros j _. rewrite decide_False by naive_solver. done.
  - split_and!.
    + intros j. rewrite lookup_alter. case_decide; [subst; by destruct (sets s !! j)|done].
    + apply map_eq. intros j. rewrite !lookup_fmap, lookup_alter. case_decide; [subst; by destruct (sets s !! j)|done].
    + intros j [x Hx]. rewrite lookup_alter. destruct (decide (i = j)) as [<-|Hj]; [rewrite Hx, decide_True by done; done|].
      by rewrite decide_False by naive_solver.
Qed.
Lemma linked_services : is_Some (services s !! v) →
  (∀ w, is_Some (table_of s' w) ↔ is_Some (table_of s w)) ∧ (∀ w m, head_of s' w m = if decide (w = v ∧ m = n) then Some p else head_of s w m) ∧
  (∀ w, snext s' w = snext s w) ∧ (∀ w, sprev s' w = sprev s w) ∧ (∀ w, is_Some (services s' !! w) ↔ is_Some (services s !! w)).
Proof using All.
  intros [y Hy]. assert (services s' = alter (λ y, Service (<[n := p]> (registrations_ y)) (next_ y) (prev_ y)) v (services s)) as Hs.
  { unfold s', linked_state. cbv zeta. fold p. simpl. destruct (relink_frame i ip (Some p) (set_regs (<[p := Registration n i 0 None None next]>) s)) as [Hx _]. by rewrite Hx. }
  unfold head_of, table_of, snext, sprev. rewrite Hs. split_and!; intros w; intros *; rewrite lookup_alter; destruct (decide (v = w)) as [<-|Hw];
    rewrite ?Hy; simpl; try done; rewrite ?lookup_insert; repeat case_decide; naive_solver.
Qed.
End link.

Lemma link_spec L ch s a i x n l1 l2 :
  represents L ch s a → sets s !! i = Some x → n < max_signal_number → @split_at ch s i n l1 l2 → ¬ Exists (is_reg i n) (a_regs a) →
  let p := fresh (dom (regs s)) in
  ∃ s', link_registration i (set_service x) n (last l1) (head l2) s = Done tt s' ∧
    represents (p :: L) (upd ch i (l1 ++ p :: l2)) s' (a_set_regs (ARegistration i n 0 :: a_regs a) a).
Proof.
  intros HR Hx Hn Hsp Hnot p. pose proof HR as [Hs Hl Hr Hst Hk Hfl Hhd Hp Hab]. pose proof Hsp as (Hch & H1 & H2). set (v := set_service x).
  assert (service_of s i = Some v) as Hsv by (unfold service_of; by rewrite Hx).
  destruct (sh_service _ _ _ Hs i v Hsv) as [t Ht]. assert (is_Some (services s !! v)) as Hy by (unfold table_of in Ht; by destruct (services s !! v)).
  assert (valid (last l1) (regs s)) as Hip.
  { intros q Hq%last_Some_elem_of. apply (sh_dom _ _ _ Hs), (sh_in _ _ _ Hs i). rewrite Hch. apply elem_of_app. by left. }
  assert (valid (head_of s v n) (regs s)) as Hh.
  { intros q Hq. rewrite (sh_head _ _ _ Hs) in Hq by (by rewrite Ht). apply head_filter_Some in Hq as [_ Hq]. by apply (sh_dom _ _ _ Hs). }
  exists (linked_state s i v n (last l1) (head l2)). split; [by apply link_done; rewrite ?Hx|].
  assert (p ∉ L) as HpL by (rewrite (sh_dom _ _ _ Hs); unfold p; rewrite fresh_reg; by intros []).
  assert (∀ q, q ∈ l2 → n < signal_of s q) as H2'.
  { intros q Hq. pose proof (H2 q Hq) as Hge. destruct (decide (signal_of s q = n)) as [Heq|]; [|lia]. destruct Hnot. rewrite Hr, Exists_fmap, Exists_exists.
    assert (q ∈ ch i) as Hqi by (rewrite Hch; apply elem_of_app; by right). apply (sh_in _ _ _ Hs) in Hqi as [? ?]. by exists q. }
  pose proof (linked_regs s i v n _ (head l2) Hip Hh) as Hreg. cbv zeta in Hreg. fold p in Hreg.
  assert (regs (linked_state s i v n (last l1) (head l2)) !! p = Some (Registration n i 0 (head_of s v n) None (head l2))) as Hpn by (by rewrite Hreg, decide_True).
  destruct (linked_sets s i v n (last l1) (head l2) Hip Hh) as (Q1 & Q2 & Q3). destruct (linked_services s i v n (last l1) (head l2) Hip Hh Hy) as (Q4 & Q5 & Q6 & Q7 & Q8).
  split; simpl; try done.
  - apply (shape_insert L ch s _ p i v n l1 l2); try done.
    all: try (unfold observe; by rewrite Hpn). all: try (intros q Hq; by apply linked_observe).
    + by apply linked_dom.
    + intros q Hq. by apply linked_prev.
    + intros q Hq. by apply linked_nis.
    + intros j. rewrite Q3 by (by rewrite Hx). apply decide_ext. by rewrite last_None.
    + intros m. unfold count. simpl. rewrite lookup_insert. destruct (decide (m = n)) as [->|]; [by rewrite decide_True|]. rewrite decide_False by done. by destruct (last l1).
  - destruct Hl as [K1 K2 K3 K4 K5 K6]. split; try done; [by destruct (last l1)|intros w Hw; rewrite Q8; auto| | |by destruct (last l1)].
    + eapply linked_same; [..|exact K4]; [done| |]; auto.
    + intros w Hw. rewrite Q6, Q7. auto.
  - f_equal; [unfold view, observe; by rewrite Hpn|]. rewrite Hr. apply list_fmap_ext. intros k q Hq%list_elem_of_lookup_2.
    unfold view. assert (q ≠ p) by (by intros ->). by rewrite !linked_observe.
  - by rewrite Hst.
  - rewrite Hk. apply set_eq. intros w. by rewrite !elem_of_dom, Q8.
  - by destruct (last l1).
  - by destruct (last l1).
  - by destruct (last l1).
  - by destruct (last l1).
Qed.

Lemma a_install_regs n f sigaction a : a_regs (a_install n f sigaction a).2 = a_regs a.
Proof. unfold a_install. repeat case_decide; by destruct sigaction. Qed.
Lemma a_restore_regs n sigaction a : a_regs (a_restore n sigaction a).2 = a_regs a.
Proof. unfold a_restore. repeat case_decide; by destruct sigaction. Qed.

(** What a call does, and what it answers. *)
Definition refines {A} (m : comp A) (r : A * spec) s : Prop := ∃ s' L ch, m s = Done r.1 s' ∧ represents L ch s' r.2.

Lemma refines_bind_done {A B} (m : comp A) (k : A → comp B) r s b s' : m s = Done b s' → refines (k b) r s' → refines (m ≫= k) r s.
Proof. intros Hm (s2 & L & ch & Hk & HR). exists s2, L, ch. by rewrite (comp_bind_done _ _ _ _ _ Hm). Qed.

Lemma add_spec L ch s a i z f sigaction :
  represents L ch s a → is_Some (a_sets a !! i) → refines (add i z f sigaction) (a_add i z f sigaction a) s.
Proof.
  intros HR Hi. destruct (a_set_inv HR i Hi) as [x Hx]. unfold add, a_add. case_decide as Hn; [by exists s, L, ch|].
  cbv zeta. set (n := Z.to_nat z).
  eapply refines_bind_done; [done|]. eapply refines_bind_done; [by apply get_set_done|].
  destruct (find_spec HR i n) as (l1 & l2 & Hsp & Hf). unfold first_of in Hf. rewrite Hx in Hf. simpl in Hf.
  eapply refines_bind_done; [exact Hf|]. eapply refines_bind_done; [exact (is_registered_spec HR i n l1 l2 Hsp)|]. simpl.
  case_bool_decide as Hreg; [rewrite decide_True by done; by exists s, L, ch|]. rewrite decide_False by done.
  destruct (install_spec HR n f sigaction) as (s1 & Hin & HR1 & E1 & E2 & E3 & E4). eapply refines_bind_done; [exact Hin|].
  pose proof (a_install_regs n f sigaction a) as Ha. destruct (a_install n f sigaction a) as [[e|] a1]; simpl in *; [by exists s1, L, ch|].
  rewrite <- Ha in Hreg. destruct (link_spec L ch s1 a1 i x n l1 l2) as (s2 & Hlink & HR2); [done|by rewrite E2|lia| |done|].
  - unfold split_at, observe in *. by rewrite E1.
  - eapply refines_bind_done; [exact Hlink|]. by exists s2, (fresh (dom (regs s1)) :: L), (upd ch i (l1 ++ fresh (dom (regs s1)) :: l2)).
Qed.

(** *** [remove] and [clear] *)

(** The state after [unlink_from_table], for the registration [p] of the service [v]. *)
Definition unlinked_state s v p : signals :=
  let n := signal_of s p in
  set_count n (pred (count s n))
    (set_regs (opt_alter (with_prev_in_table (prev_of s p)) (next_of s p))
      (set_regs (opt_alter (with_next_in_table (next_of s p)) (prev_of s p))
        (if decide (head_of s v n = Some p)
         then set_services (alter (λ y, Service (partial_alter (λ _, next_of s p) n (registrations_ y)) (next_ y) (prev_ y)) v) s else s))).

Lemma unlink_done s v p :
  is_Some (regs s !! p) → is_Some (services s !! v) → valid (next_of s p) (regs s) → valid (prev_of s p) (regs s) →
  unlink_from_table v p s = Done tt (unlinked_state s v p).
Proof.
  intros [r Hr] [y Hy] Hnx Hpv. unfold unlink_from_table, unlinked_state. rewrite (comp_bind_done _ _ _ _ _ (get_reg_done _ _ _ Hr)).
  rewrite (comp_bind_done _ _ _ _ _ (get_service_done _ _ _ Hy)). unfold head_of, table_of. unfold observe in *. rewrite Hr in *. rewrite Hy. simpl.
  set (s1 := if decide _ then _ else s). assert (regs s1 = regs s ∧ ∀ n, count s1 n = count s n) as [E1 E2] by (unfold s1; by case_decide).
  assert ((if decide (registrations_ y !! signal_number_ r = Some p) then put_service v (Service (partial_alter (λ _, next_in_table_ r) (signal_number_ r) (registrations_ y)) (next_ y) (prev_ y)) else mret tt) s
    = Done tt s1) as Hst.
  { unfold s1. case_decide; [|done]. unfold put_service, modify, set_services. by rewrite (map_alter_as_insert _ _ _ _ Hy). }
  rewrite (comp_bind_done _ _ _ _ _ Hst). rewrite <- E1 in Hnx, Hpv.
  rewrite (comp_bind_done _ _ _ _ _ (if_set_reg_done _ s1 _ Hpv)).
  assert (valid (next_in_table_ r) (regs (set_regs (opt_alter (with_next_in_table (next_in_table_ r)) (prev_in_table_ r)) s1))) as Hnx'.
  { intros q Hq. simpl. destruct (prev_in_table_ r) as [k|]; simpl; [|by apply Hnx]. destruct (decide (k = q)) as [->|]; [rewrite lookup_alter_eq, fmap_is_Some|rewrite lookup_alter_ne by done]; by apply Hnx. }
  rewrite (comp_bind_done _ _ _ _ _ (if_set_reg_done _ _ _ Hnx')). unfold modify. by rewrite <- E2.
Qed.

(** The registration [p] is gone from everywhere: [ip] and [q] are the pointer to it in its
    set and what that points to now. *)
Record removed s i v p (ip q : option nat) (s' : signals) : Prop := {
  rv_regs : ∀ x, regs s' !! x = if decide (x = p) then None
    else (λ r, (if decide (next_of s p = Some x) then with_prev_in_table (prev_of s p) else id)
           ((if decide (prev_of s p = Some x) then with_next_in_table (next_of s p) else id)
             ((if decide (ip = Some x) then with_next_in_set q else id) r))) <$> regs s !! x;
  rv_sets : sets s' = match ip with None => alter (with_signals q) i (sets s) | Some _ => sets s end;
  rv_services : services s' = if decide (head_of s v (signal_of s p) = Some p)
    then alter (λ y, Service (partial_alter (λ _, next_of s p) (signal_of s p) (registrations_ y)) (next_ y) (prev_ y)) v (services s) else services s;
  rv_count : registration_count_ s' = <[signal_of s p := pred (count s (signal_of s p))]> (registration_count_ s);
  rv_rest : service_list_ s' = service_list_ s ∧ flags_ s' = flags_ s ∧ handled s' = handled s ∧ pipe_open s' = pipe_open s ∧
    posted s' = posted s ∧ abandoned s' = abandoned s }.

Lemma opt_alter_lookup {A} (f : A → A) o (m : gmap nat A) x :
  opt_alter f o m !! x = (if decide (o = Some x) then f else id) <$> m !! x.
Proof.
  unfold opt_alter. destruct o as [q|]; [|rewrite decide_False by done; by rewrite option_fmap_id].
  destruct (decide (q = x)) as [->|]; [by rewrite lookup_alter_eq, decide_True|]. rewrite lookup_alter_ne by done.
  rewrite decide_False by congruence. by rewrite option_fmap_id.
Qed.

Lemma relink_observe {A} (f : registration → A) d i ip q s x :
  (∀ r, f (with_next_in_set q r) = f r) → observe f d (relink i ip q s) x = observe f d s x.
Proof.
  intros Hf. destruct ip as [k|]; [|done]. unfold observe. simpl. rewrite lookup_alter. case_decide; [subst|done].
  destruct (regs s !! x); simpl; [by rewrite Hf|done].
Qed.

Lemma relink_lookup i ip q s x : regs (relink i ip q s) !! x = (if decide (ip = Some x) then with_next_in_set q else id) <$> regs s !! x.
Proof. rewrite <- (opt_alter_lookup _ ip). by destruct ip. Qed.
Lemma if_services_regs (P : Prop) `{!Decision P} f s : regs (if decide P then set_services f s else s) = regs s.
Proof. by case_decide. Qed.

Lemma removed_after_link s i v p ip q : ip ≠ Some p →
  removed s i v p ip q (set_regs (delete p) (unlinked_state (relink i ip q s) v p)).
Proof.
  intros Hip. pose proof (relink_frame i ip q s) as [Hsv _].
  assert (∀ n, head_of (relink i ip q s) v n = head_of s v n) as Hh by (intros n; unfold head_of, table_of; by rewrite Hsv).
  assert (∀ n, count (relink i ip q s) n = count s n) as Hc by (intros n; by destruct ip).
  unfold unlinked_state. rewrite !relink_observe, Hh, Hc by done. split; simpl.
  - intros x. rewrite lookup_delete. destruct (decide (p = x)) as [->|Hx]; [by rewrite (decide_True (P := x = x))|]. rewrite (decide_False (P := x = p)) by congruence.
    rewrite !opt_alter_lookup, if_services_regs, relink_lookup. by destruct (regs s !! x).
  - case_decide; simpl; by destruct ip.
  - case_decide; simpl; by rewrite Hsv.
  - case_decide; simpl; by destruct ip.
  - case_decide; simpl; by destruct ip.
Qed.

Lemma removed_before_link s i v p q : removed s i v p None q (set_regs (delete p) (relink i None q (unlinked_state s v p))).
Proof.
  unfold unlinked_state. split; simpl.
  - intros x. rewrite lookup_delete. destruct (decide (p = x)) as [->|Hx]; [by rewrite (decide_True (P := x = x))|]. rewrite (decide_False (P := x = p)) by congruence.
    rewrite !opt_alter_lookup, if_services_regs. by destruct (regs s !! x).
  - by case_decide.
  - by case_decide.
  - by case_decide.
  - by case_decide.
Qed.

(** The neighbours of a registration are registrations. *)
Lemma neighbours_valid L ch s p : shape L ch s → p ∈ L → valid (next_of s p) (regs s) ∧ valid (prev_of s p) (regs s).
Proof.
  intros Hs (l1 & l2 & ->)%list_elem_of_split. destruct (sh_table _ _ _ Hs l1 p l2 eq_refl) as [-> ->].
  split; intros q Hq; apply (sh_dom _ _ _ Hs); [apply head_filter_Some in Hq as [_ Hq]|apply last_filter_Some in Hq as [_ Hq]];
    rewrite elem_of_app, elem_of_cons; auto.
Qed.
Lemma chain_split L ch s p : shape L ch s → p ∈ L → ∃ c1 c2, ch (set_of s p) = c1 ++ p :: c2 ∧ valid (last c1) (regs s).
Proof.
  intros Hs Hp. assert (p ∈ ch (set_of s p)) as (c1 & c2 & Hc)%list_elem_of_split by (by apply (sh_in _ _ _ Hs)). exists c1, c2. split; [done|].
  intros q Hq%last_Some_elem_of. apply (sh_dom _ _ _ Hs), (sh_in _ _ _ Hs (set_of s p)). rewrite Hc. apply elem_of_app. by left.
Qed.

Section removal.
Context (s s' : signals) (i v p : nat) (ip q : option nat) (Hrv : removed s i v p ip q s').
Context (Hnx : valid (next_of s p) (regs s)) (Hpv : valid (prev_of s p) (regs s)) (Hip : valid ip (regs s)).

Lemma removed_observe {A} (f : registration → A) d x : x ≠ p →
  (∀ o r, f (with_prev_in_table o r) = f r) → (∀ o r, f (with_next_in_table o r) = f r) → (∀ o r, f (with_next_in_set o r) = f r) →
  observe f d s' x = observe f d s x.
Proof using Hrv.
  intros Hx H1 H2 H3. unfold observe. rewrite (rv_regs _ _ _ _ _ _ _ Hrv), decide_False by done. destruct (regs s !! x); simpl; [|done].
  repeat case_decide; simpl; by rewrite ?H1, ?H2, ?H3.
Qed.
Lemma removed_dom x : is_Some (regs s' !! x) ↔ x ≠ p ∧ is_Some (regs s !! x).
Proof using Hrv.
  rewrite (rv_regs _ _ _ _ _ _ _ Hrv). case_decide as Hx; [subst; split; [by intros []|by intros []]|]. rewrite fmap_is_Some. naive_solver.
Qed.
Lemma removed_next x : x ≠ p → next_of s' x = if decide (prev_of s p = Some x) then next_of s p else next_of s x.
Proof using Hrv Hpv.
  intros Hx. unfold observe at 1. rewrite (rv_regs _ _ _ _ _ _ _ Hrv), decide_False by done. destruct (decide (prev_of s p = Some x)) as [Hy|Hy].
  - apply Hpv in Hy as [r ->]. simpl. repeat case_decide; done.
  - change (next_of s x) with (match regs s !! x with Some r => next_in_table_ r | None => None end). destruct (regs s !! x); simpl; [|done]. by repeat case_decide.
Qed.
Lemma removed_prev x : x ≠ p → prev_of s' x = if decide (next_of s p = Some x) then prev_of s p else prev_of s x.
Proof using Hrv Hnx.
  intros Hx. unfold observe at 1. rewrite (rv_regs _ _ _ _ _ _ _ Hrv), decide_False by done. destruct (decide (next_of s p = Some x)) as [Hy|Hy].
  - apply Hnx in Hy as [r ->]. simpl. repeat case_decide; done.
  - change (prev_of s x) with (match regs s !! x with Some r => prev_in_table_ r | None => None end). destruct (regs s !! x); simpl; [|done]. by repeat case_decide.
Qed.
Lemma removed_nis x : x ≠ p → nis_of s' x = if decide (ip = Some x) then q else nis_of s x.
Proof using Hrv Hip.
  intros Hx. unfold observe at 1. rewrite (rv_regs _ _ _ _ _ _ _ Hrv), decide_False by done. destruct (decide (ip = Some x)) as [Hy|Hy].
  - apply Hip in Hy as [r ->]. simpl. repeat case_decide; done.
  - change (nis_of s x) with (match regs s !! x with Some r => next_in_set_ r | None => None end). destruct (regs s !! x); simpl; [|done]. by repeat case_decide.
Qed.
Lemma removed_sets : (∀ j, service_of s' j = service_of s j) ∧ view_set <$> sets s' = view_set <$> sets s ∧
  ∀ j, is_Some (sets s !! i) → first_of s' j = if decide (j = i ∧ ip = None) then q else first_of s j.
Proof using All.
  unfold service_of, first_of. rewrite (rv_sets _ _ _ _ _ _ _ Hrv). destruct ip as [k|].
  - split_and!; [done|done|]. intros j _. rewrite decide_False by naive_solver. done.
  - split_and!.
    + intros j. rewrite lookup_alter. case_decide; [subst; by destruct (sets s !! j)|done].
    + apply map_eq. intros j. rewrite !lookup_fmap, lookup_alter. case_decide; [subst; by destruct (sets s !! j)|done].
    + intros j [x Hx]. rewrite lookup_alter. destruct (decide (i = j)) as [<-|Hj]; [rewrite Hx, decide_True by done; done|].
      by rewrite decide_False by naive_solver.
Qed.
Lemma removed_services : let n := signal_of s p in is_Some (services s !! v) →
  (∀ w, is_Some (table_of s' w) ↔ is_Some (table_of s w)) ∧
  (∀ w m, head_of s' w m = if decide (w = v ∧ m = n ∧ head_of s v n = Some p) then next_of s p else head_of s w m) ∧
  (∀ w, snext s' w = snext s w) ∧ (∀ w, sprev s' w = sprev s w) ∧ (∀ w, is_Some (services s' !! w) ↔ is_Some (services s !! w)).
Proof using All.
  intros n [y Hy]. unfold table_of, snext, sprev. unfold head_of at 1. unfold table_of. rewrite (rv_services _ _ _ _ _ _ _ Hrv). fold n.
  destruct (decide (head_of s v n = Some p)) as [Hh|Hh].
  - split_and!; intros w; intros *; rewrite lookup_alter; destruct (decide (v = w)) as [<-|Hw]; rewrite ?Hy; simpl; try done.
    + rewrite lookup_partial_alter. destruct (decide (n = m)) as [<-|Hm]; [by rewrite decide_True|]. rewrite decide_False by naive_solver.
      unfold head_of, table_of. by rewrite Hy.
    + rewrite decide_False by naive_solver. done.
  - split_and!; try done. intros w m. rewrite decide_False by naive_solver. done.
Qed.
End removal.

Lemma same_registration L ch s p q : shape L ch s → p ∈ L → q ∈ L → set_of s q = set_of s p → signal_of s q = signal_of s p → q = p.
Proof.
  intros Hs Hp Hq Hset Hsig. destruct (chain_split _ _ _ _ Hs Hp) as (c1 & c2 & Hc & _).
  assert (q ∈ ch (set_of s p)) as Hin by (by apply (sh_in _ _ _ Hs)). rewrite Hc, elem_of_mid in Hin. destruct Hin as [|Hin]; [done|].
  pose proof (sh_sorted _ _ _ Hs (set_of s p)) as Hso. rewrite Hc in Hso. apply StronglySorted_app in Hso as (H1 & _ & [_ H2]%StronglySorted_inv).
  apply elem_of_app in Hin as [Hin|Hin]; [specialize (H1 q p Hin (list_elem_of_here _ _)); lia|].
  apply (proj1 (Forall_forall _ _) H2) in Hin. lia.
Qed.

Lemma removed_represents l1 l2 ch s a i v p n c1 c2 s' :
  represents (l1 ++ p :: l2) ch s a → set_of s p = i → signal_of s p = n → service_of s i = Some v → ch i = c1 ++ p :: c2 →
  removed s i v p (last c1) (head c2) s' → represents (l1 ++ l2) (upd ch i (c1 ++ c2)) s' (a_drop i n a).
Proof.
  intros [Hs Hl Hr Hst Hk Hfl Hhd Hp Hab] Hi Hn Hv Hch Hrv.
  assert (p ∈ l1 ++ p :: l2) as Hin by (rewrite elem_of_mid; by left). destruct (neighbours_valid _ _ _ _ Hs Hin) as [Hnx Hpv].
  assert (valid (last c1) (regs s)) as Hip.
  { intros q Hq%last_Some_elem_of. apply (sh_dom _ _ _ Hs), (sh_in _ _ _ Hs i). rewrite Hch. apply elem_of_app. by left. }
  assert (is_Some (sets s !! i)) as Hset by (unfold service_of in Hv; by destruct (sets s !! i)).
  assert (is_Some (services s !! v)) as Hsv by (apply (sh_service _ _ _ Hs) in Hv; unfold table_of in Hv; by rewrite fmap_is_Some in Hv).
  destruct (removed_sets s s' i v p _ _ Hrv Hnx Hpv Hip) as (Q1 & Q2 & Q3). destruct (removed_services s s' i v p _ _ Hrv Hnx Hpv Hip Hsv) as (Q4 & Q5 & Q6 & Q7 & Q8).
  destruct (rv_rest _ _ _ _ _ _ _ Hrv) as (R1 & R2 & R3 & R4 & R5 & R6). split; simpl; try congruence.
  - apply (shape_remove l1 l2 c1 c2 ch s s' p i n v); try done.
    + by eapply removed_dom.
    + intros q Hq. by eapply removed_observe.
    + intros q Hq. by eapply removed_observe.
    + intros q Hq. by eapply removed_next.
    + intros q Hq. by eapply removed_prev.
    + intros q Hq. by eapply removed_nis.
    + intros j. rewrite Q3 by done. apply decide_ext. by rewrite last_None.
    + by rewrite <- Hn.
    + intros m. unfold count. rewrite (rv_count _ _ _ _ _ _ _ Hrv), Hn, lookup_insert. destruct (decide (m = n)) as [->|]; [by rewrite decide_True|]. by rewrite decide_False.
  - destruct Hl as [K1 K2 K3 K4 K5 K6]. split; try congruence; [intros w Hw; rewrite Q8; auto| |].
    + eapply linked_same; [..|exact K4]; [done| |]; auto.
    + intros w Hw. rewrite Q6, Q7. auto.
  - destruct (nodup_mid _ _ _ (sh_nodup _ _ _ Hs)) as [_ Hnp].
    rewrite Hr, filter_fmap_list. rewrite (filter_ext_in _ (λ q, q ≠ p)).
    + rewrite filter_app, filter_cons, (decide_False (P := p ≠ p)) by (by intros []). rewrite !filter_all; [|intros q Hq ->; apply Hnp, elem_of_app; auto..].
      apply list_fmap_ext. intros k q Hq%list_elem_of_lookup_2. assert (q ≠ p) by (by intros ->). unfold view. f_equal; symmetry; by eapply removed_observe.
    + intros q Hq. unfold is_reg. simpl. split; [|].
      * intros Hx ->. by apply Hx.
      * intros Hx [Ha Hb]. apply Hx. apply (same_registration _ _ _ _ _ Hs Hin Hq); congruence.
  - rewrite Hk. apply set_eq. intros w. by rewrite !elem_of_dom, Q8.
Qed.

(** What both functions do with a registration that is found. *)
Section found.
Context (L : list nat) (ch : nat → list nat) (s : signals) (a : spec) (HR : represents L ch s a).
Context (i n p : nat) (x : signal_set) (c1 c2 : list nat) (r : registration).
Context (Hx : sets s !! i = Some x) (Hch : ch i = c1 ++ p :: c2) (Hn : signal_of s p = n) (Hr : regs s !! p = Some r).

Lemma found_facts : p ∈ L ∧ set_of s p = i ∧ next_in_set_ r = head c2 ∧ service_of s i = Some (set_service x) ∧
  is_Some (services s !! set_service x) ∧ valid (last c1) (regs s) ∧ valid (next_of s p) (regs s) ∧ valid (prev_of s p) (regs s) ∧ last c1 ≠ Some p.
Proof using All.
  pose proof (rp_shape _ _ _ _ HR) as Hs. assert (p ∈ L ∧ set_of s p = i) as [Hp Hi].
  { apply (sh_in _ _ _ Hs i). rewrite Hch, elem_of_mid. by left. }
  destruct (neighbours_valid _ _ _ _ Hs Hp) as [Hnx Hpv]. assert (service_of s i = Some (set_service x)) as Hsv by (unfold service_of; by rewrite Hx).
  split_and!; try done.
  - rewrite <- (sh_chain _ _ _ Hs i c1 p c2 Hch). unfold observe. by rewrite Hr.
  - pose proof (sh_service _ _ _ Hs _ _ Hsv) as Ht. unfold table_of in Ht. by rewrite fmap_is_Some in Ht.
  - intros q Hq%last_Some_elem_of. apply (sh_dom _ _ _ Hs), (sh_in _ _ _ Hs i). rewrite Hch. apply elem_of_app. by left.
  - intros Hq%last_Some_elem_of. pose proof (sorted_nodup _ _ (sh_sorted _ _ _ Hs i)) as Hnd. rewrite Hch in Hnd.
    apply nodup_mid in Hnd as [_ Hnd]. apply Hnd, elem_of_app. by left.
Qed.

Lemma dropped s' : removed s i (set_service x) p (last c1) (head c2) s' → ∃ L' ch', represents L' ch' s' (a_drop i n a) ∧
  ch' i = c1 ++ c2 ∧ signal_of s' <$> c1 ++ c2 = signal_of s <$> c1 ++ c2.
Proof using All.
  intros Hrv. destruct found_facts as (Hp & Hi & _ & Hsv & _). apply list_elem_of_split in Hp as (l1 & l2 & HL).
  exists (l1 ++ l2), (upd ch i (c1 ++ c2)). split; [|split; [unfold upd; by rewrite decide_True|]].
  - eapply removed_represents; try done. by rewrite <- HL.
  - pose proof (sorted_nodup _ _ (sh_sorted _ _ _ (rp_shape _ _ _ _ HR) i)) as Hnd. rewrite Hch in Hnd. apply nodup_mid in Hnd as [_ Hnd].
    apply list_fmap_ext. intros k q Hq%list_elem_of_lookup_2. eapply removed_observe; [exact Hrv|by intros ->|done..].
Qed.

Lemma remove_found : ∃ s' L' ch',
  (set_link i (last c1) (next_in_set_ r);; unlink_from_table (set_service x) p;; modify (set_regs (delete p))) s = Done tt s' ∧
  represents L' ch' s' (a_drop i n a).
Proof using All.
  destruct found_facts as (Hp & Hi & Hnis & Hsv & Hv & Hip & Hnx & Hpv & Hne).
  destruct (relink_frame i (last c1) (head c2) s) as [Fs Fr].
  destruct (dropped _ (removed_after_link s i (set_service x) p (last c1) (head c2) Hne)) as (L' & ch' & HR' & _).
  eexists _, L', ch'. split; [|exact HR']. rewrite Hnis.
  rewrite (comp_bind_done _ _ _ _ _ (set_link_done i (last c1) (head c2) s ltac:(by rewrite Hx) Hip)).
  rewrite (comp_bind_done _ _ _ tt (unlinked_state (relink i (last c1) (head c2) s) (set_service x) p)); [done|].
  apply unlink_done; [apply Fr; by rewrite Hr|by rewrite Fs|..]; rewrite relink_observe by done; intros q Hq; apply Fr; [by apply Hnx|by apply Hpv].
Qed.

Lemma clear_found : c1 = [] → ∃ s' L' ch',
  (unlink_from_table (set_service x) p;; set_link i None (next_in_set_ r);; modify (set_regs (delete p))) s = Done tt s' ∧
  represents L' ch' s' (a_drop i n a) ∧ ch' i = c2 ∧ signal_of s' <$> c2 = signal_of s <$> c2.
Proof using All.
  intros Hc1. destruct found_facts as (Hp & Hi & Hnis & Hsv & Hv & Hip & Hnx & Hpv & Hne).
  destruct (dropped (set_regs (delete p) (relink i None (head c2) (unlinked_state s (set_service x) p)))) as (L' & ch' & HR' & Hc').
  { rewrite Hc1. apply removed_before_link. }
  rewrite Hc1 in Hc'. eexists _, L', ch'. split; [|split; [exact HR'|exact Hc']]. rewrite Hnis.
  rewrite (comp_bind_done _ _ _ _ _ (unlink_done s (set_service x) p ltac:(by rewrite Hr) Hv Hnx Hpv)).
  rewrite (comp_bind_done _ _ _ tt (relink i None (head c2) (unlinked_state s (set_service x) p))); [done|].
  apply set_link_done; [|done]. unfold unlinked_state. case_decide; simpl; by rewrite Hx.
Qed.
End found.

Lemma remove_spec L ch s a i z sigaction :
  represents L ch s a → is_Some (a_sets a !! i) → refines (remove i z sigaction) (a_remove i z sigaction a) s.
Proof.
  intros HR Hi. destruct (a_set_inv HR i Hi) as [x Hx]. unfold remove, a_remove. case_decide as Hn; [by exists s, L, ch|].
  cbv zeta. set (n := Z.to_nat z).
  eapply refines_bind_done; [done|]. eapply refines_bind_done; [by apply get_set_done|].
  destruct (find_spec HR i n) as (l1 & l2 & Hsp & Hf). unfold first_of in Hf. rewrite Hx in Hf. simpl in Hf.
  eapply refines_bind_done; [exact Hf|]. eapply refines_bind_done; [exact (is_registered_spec HR i n l1 l2 Hsp)|]. simpl.
  pose proof (registered_spec HR i n l1 l2 Hsp) as Hreg. destruct (decide (Exists (is_reg i n) (a_regs a))) as [Hyes|Hno].
  2: { rewrite bool_decide_false by done. exists s, L, ch. by destruct (head l2). }
  rewrite bool_decide_true by done. apply Hreg in Hyes as (p & k2 & -> & Hsig). simpl. destruct Hsp as (Hch & _ & _).
  destruct (restore_spec HR n sigaction) as (s1 & Hin & HR1 & E1 & E2 & E3 & E4). eapply refines_bind_done; [exact Hin|].
  destruct (a_restore n sigaction a) as [[e|] a1]; simpl in *; [by exists s1, L, ch|].
  assert (p ∈ L) as Hp by (apply (sh_in _ _ _ (rp_shape _ _ _ _ HR) i); rewrite Hch, elem_of_mid; by left).
  destruct (reg_at _ _ _ _ (rp_shape _ _ _ _ HR1) Hp) as (r & Hr & _). eapply refines_bind_done; [by apply get_reg_done|].
  destruct (remove_found L ch s1 a1 HR1 i n p x l1 k2 r) as (s' & L' & ch' & Hd & HR'); [by rewrite E2|done|unfold observe in *; by rewrite E1|done|].
  exists s', L', ch'. split; [|done]. simpl. revert Hd. unfold mbind, comp_bind, modify. repeat case_match; try done. by intros [= ->].
Qed.

(** The signals of a set are those of its list. *)
Lemma signals_of_chain L ch s a i : represents L ch s a → a_signals_of i a = signal_of s <$> ch i.
Proof.
  intros [Hs _ Hr _ _ _ _ _ _]. unfold a_signals_of. apply (Sorted_unique (≤)).
  - apply (Sorted_merge_sort _).
  - pose proof (sh_sorted _ _ _ Hs i) as Hso. apply StronglySorted_Sorted. induction Hso as [|p c Hc IH Hp]; simpl; constructor; [done|].
    apply Forall_fmap. eapply Forall_impl; [exact Hp|]. simpl. intros q ?. lia.
  - rewrite merge_sort_Permutation, Hr, filter_fmap_list, <- list_fmap_compose. apply fmap_Permutation, NoDup_Permutation.
    + apply NoDup_filter, Hs.
    + eapply sorted_nodup, Hs.
    + intros p. rewrite list_elem_of_filter, (sh_in _ _ _ Hs). simpl. naive_solver.
Qed.

Lemma a_restore_sets n sigaction a : a_sets (a_restore n sigaction a).2 = a_sets a.
Proof. unfold a_restore. repeat case_decide; by destruct sigaction. Qed.

Lemma clear_loop_spec c L ch s a i fuel sigaction :
  represents L ch s a → is_Some (a_sets a !! i) → ch i = c → length c < fuel →
  refines (clear fuel i sigaction) (a_clear_loop i (signal_of s <$> c) sigaction a) s.
Proof.
  revert L ch s a fuel. induction c as [|p c IH]; intros L ch s a fuel HR Hi Hc Hf; (destruct fuel as [|fuel]; [simpl in Hf; lia|]);
    destruct (a_set_inv HR i Hi) as [x Hx]; cbn [clear]; (eapply refines_bind_done; [by apply get_set_done|]);
    pose proof (sh_first _ _ _ (rp_shape _ _ _ _ HR) i) as H1; rewrite Hc in H1; unfold first_of in H1; rewrite Hx in H1; simpl in H1; rewrite H1.
  { by exists s, L, ch. }
  assert (p ∈ L) as Hp by (apply (sh_in _ _ _ (rp_shape _ _ _ _ HR) i); rewrite Hc; apply list_elem_of_here).
  destruct (reg_at _ _ _ _ (rp_shape _ _ _ _ HR) Hp) as (r & Hr & Hsig & _). eapply refines_bind_done; [by apply get_reg_done|]. rewrite Hsig.
  destruct (restore_spec HR (signal_of s p) (sigaction (signal_of s p))) as (s1 & Hin & HR1 & E1 & E2 & E3 & E4). eapply refines_bind_done; [exact Hin|].
  pose proof (a_restore_sets (signal_of s p) (sigaction (signal_of s p)) a) as Has. rewrite fmap_cons. cbn [a_clear_loop].
  destruct (a_restore (signal_of s p) _ a) as [[e|] a1]; cbn [fst snd] in *; [by exists s1, L, ch|].
  destruct (clear_found L ch s1 a1 HR1 i (signal_of s p) p x [] c r) as (s' & L' & ch' & Hd & HR' & Hc' & Hg);
    [by rewrite E2|done|unfold observe; by rewrite E1|by rewrite E1|done|].
  assert (signal_of s <$> c = signal_of s' <$> c) as ->. { rewrite Hg. unfold observe. by rewrite E1. }
  destruct (IH L' ch' s' _ fuel HR') as (s2 & L2 & ch2 & Hk & HR2); [simpl; by rewrite Has|done|simpl in Hf; lia|].
  exists s2, L2, ch2. split; [|done]. rewrite <- Hk. revert Hd. unfold mbind, comp_bind, modify. repeat case_match; try done. by intros [= ->].
Qed.

Lemma clear_spec L ch s a i sigaction :
  represents L ch s a → is_Some (a_sets a !! i) → refines (clear (S (size (regs s))) i sigaction) (a_clear i sigaction a) s.
Proof.
  intros HR Hi. unfold a_clear. rewrite (signals_of_chain _ _ _ _ i HR). eapply clear_loop_spec; try done.
  pose proof (set_chain_length _ _ _ i (rp_shape _ _ _ _ HR)). lia.
Qed.

(** *** Queues and counts *)

(** Nothing that a list is made of changes, but queues and counts of signals may. *)
Record same_lists s s' : Prop := {
  sl_set : ∀ p, set_of s' p = set_of s p;
  sl_signal : ∀ p, signal_of s' p = signal_of s p;
  sl_next : ∀ p, next_of s' p = next_of s p;
  sl_nis : ∀ p, nis_of s' p = nis_of s p;
  sl_service : ∀ i, service_of s' i = service_of s i;
  sl_first : ∀ i, first_of s' i = first_of s i;
  sl_services : services s' = services s;
  sl_regs : dom (regs s') = dom (regs s);
  sl_sets : dom (sets s') = dom (sets s) }.
Lemma same_lists_refl s : same_lists s s.
Proof. done. Qed.
Lemma same_lists_trans s1 s2 s3 : same_lists s1 s2 → same_lists s2 s3 → same_lists s1 s3.
Proof. intros [] []. split; intros; congruence. Qed.
Lemma same_key s s' p : same_lists s s' → key s' p = key s p.
Proof. intros H. unfold key. by rewrite (sl_set _ _ H), (sl_signal _ _ H), (sl_service _ _ H). Qed.
Lemma same_size s s' : same_lists s s' → size (regs s') = size (regs s).
Proof. intros H. by rewrite <- !size_dom, (sl_regs _ _ H). Qed.

Section queues.
Context {L : list nat} {ch : nat → list nat} {s : signals} {a : spec} (HR : represents L ch s a).

Lemma waits_represents i x l : sets s !! i = Some x →
  let s' := set_sets (<[i := SignalSet (set_service x) l (signals_ x)]>) s in represents L ch s' (a_set_waits i l a) ∧ same_lists s s'.
Proof using HR.
  intros Hx s'. destruct HR as [H1 H2 H3 H4 H5 H6 H7 H8 H9].
  assert (∀ j, service_of s' j = service_of s j) as E1 by (intros j; unfold service_of; simpl; rewrite lookup_insert; case_decide; [subst; by rewrite Hx|done]).
  assert (∀ j, first_of s' j = first_of s j) as E2 by (intros j; unfold first_of; simpl; rewrite lookup_insert; case_decide; [subst; by rewrite Hx|done]).
  split; split; simpl; try done.
  - by apply (shape_ext _ _ s).
  - by apply (listed_same _ s).
  - rewrite H4. apply map_eq. intros j. rewrite lookup_alter, !lookup_fmap, lookup_insert. case_decide; [subst; by rewrite Hx|done].
  - rewrite dom_insert_L. apply subseteq_union_1_L, singleton_subseteq_l, elem_of_dom. by rewrite Hx.
Qed.
Lemma post_represents l : represents L ch (add_posted l s) (a_post l a) ∧ same_lists s (add_posted l s).
Proof using HR.
  destruct HR as [H1 H2 H3 H4 H5 H6 H7 H8 H9]. split; split; simpl; try done; [by apply (shape_same _ _ s)|by apply (listed_same _ s)|by rewrite H8].
Qed.
Lemma abandon_represents l : represents L ch (add_abandoned l s) (a_abandon l a) ∧ same_lists s (add_abandoned l s).
Proof using HR.
  destruct HR as [H1 H2 H3 H4 H5 H6 H7 H8 H9]. split; split; simpl; try done; [by apply (shape_same _ _ s)|by apply (listed_same _ s)|by rewrite H9].
Qed.

Lemma count_represents p r f : p ∈ L → regs s !! p = Some r →
  let s' := set_regs (<[p := with_undelivered (f (undelivered_ r)) r]>) s in
  represents L ch s' (a_change (set_of s p) (signal_of s p) f a) ∧ same_lists s s'.
Proof using HR.
  intros Hp Hr s'. destruct HR as [H1 H2 H3 H4 H5 H6 H7 H8 H9].
  assert (∀ A (g : registration → A) d q, (∀ u r, g (with_undelivered u r) = g r) → observe g d s' q = observe g d s q) as Hobs.
  { intros A g d q Hg. unfold observe. simpl. rewrite lookup_insert. case_decide; [subst; by rewrite Hr, Hg|done]. }
  split; split; simpl; try done; try (intros q; by apply Hobs).
  - apply (shape_ext _ _ s); try done; try (intros q; by apply Hobs). intros q. simpl. rewrite lookup_insert. case_decide; [subst; by rewrite Hr|done].
  - by apply (listed_same _ s).
  - rewrite H3, <- list_fmap_compose. apply list_fmap_ext. intros k q Hq%list_elem_of_lookup_2. simpl. unfold is_reg. simpl.
    destruct (decide (q = p)) as [->|Hne].
    + rewrite decide_True by done. unfold view. rewrite !Hobs by done. unfold observe at 3 6. simpl. by rewrite lookup_insert_eq, Hr.
    + rewrite decide_False by (intros [? ?]; apply Hne; by eapply same_registration). unfold view. rewrite !Hobs by done.
      f_equal. unfold observe. simpl. by rewrite lookup_insert_ne.
  - rewrite dom_insert_L. apply subseteq_union_1_L, singleton_subseteq_l, elem_of_dom. by rewrite Hr.
Qed.

Lemma a_waits_spec i x : sets s !! i = Some x → a_waits_of i a = set_queue x.
Proof using HR. intros Hx. unfold a_waits_of. by rewrite (a_set_spec HR i x Hx). Qed.
Lemma a_service_spec i : a_service_of i a = service_of s i.
Proof using HR. unfold a_service_of, service_of. rewrite (rp_sets _ _ _ _ HR), lookup_fmap. by destruct (sets s !! i). Qed.
Lemma a_table_spec v n : a_table v n a = set_of s <$> filter (λ q, key s q = (Some v, n)) L.
Proof using HR.
  unfold a_table. rewrite (rp_regs _ _ _ _ HR), filter_fmap_list, <- list_fmap_compose. f_equal. apply filter_ext_in. intros q _.
  rewrite a_service_spec. unfold key, view. simpl. split; [by intros [-> ->]|by intros [= -> ->]].
Qed.
Lemma owner_set p : p ∈ L → ∃ x, sets s !! set_of s p = Some x.
Proof using HR.
  intros Hp. destruct (sh_owner _ _ _ (rp_shape _ _ _ _ HR) p Hp) as [v Hv]. unfold service_of in Hv. destruct (sets s !! set_of s p); [eauto|done].
Qed.
(** The next on a list of the table *)
Lemma table_next v n t1 p t2 : filter (λ q, key s q = (Some v, n)) L = t1 ++ p :: t2 → p ∈ L ∧ next_of s p = head t2 ∧ signal_of s p = n.
Proof using HR.
  intros Hf. pose proof (rp_shape _ _ _ _ HR) as Hs. assert (p ∈ filter (λ q, key s q = (Some v, n)) L) as Hp by (rewrite Hf, elem_of_mid; by left).
  apply list_elem_of_filter in Hp as [Hk Hp]. split; [done|]. apply list_elem_of_split in Hp as (l1 & l2 & ->).
  rewrite filter_app, filter_cons, decide_True in Hf by done.
  assert (NoDup (filter (λ q, key s q = (Some v, n)) l1 ++ p :: filter (λ q, key s q = (Some v, n)) l2)) as Hnd.
  { pose proof (NoDup_filter (λ q, key s q = (Some v, n)) _ (sh_nodup _ _ _ Hs)) as Hnd. by rewrite filter_app, filter_cons, decide_True in Hnd. }
  destruct (NoDup_app_cons_eq _ _ _ _ _ Hnd Hf) as [_ <-]. split; [|by injection Hk]. destruct (sh_table _ _ _ Hs l1 p l2 eq_refl) as [-> _].
  f_equal. apply filter_ext_in. intros q _. unfold alike. by rewrite Hk.
Qed.
End queues.

(** A call that leaves the lists as they are. *)
Definition keeps {A} L ch (m : comp A) (r : A * spec) s : Prop := ∃ s', m s = Done r.1 s' ∧ represents L ch s' r.2 ∧ same_lists s s'.
Lemma keeps_refines {A} L ch (m : comp A) r s : keeps L ch m r s → refines m r s.
Proof. intros (s' & H1 & H2 & _). by exists s', L, ch. Qed.
Lemma keeps_bind_done {A B} L ch (m : comp A) (k : A → comp B) r s b s1 :
  m s = Done b s1 → same_lists s s1 → keeps L ch (k b) r s1 → keeps L ch (m ≫= k) r s.
Proof. intros Hm Hs (s2 & Hk & HR & Hs'). exists s2. rewrite (comp_bind_done _ _ _ _ _ Hm). split_and!; [done..|]. by eapply same_lists_trans. Qed.
Lemma keeps_lists_bind {A B} L ch (m : comp A) (k : A → comp B) b a r s :
  keeps L ch m (b, a) s → (∀ s1, represents L ch s1 a → same_lists s s1 → keeps L ch (k b) r s1) → keeps L ch (m ≫= k) r s.
Proof. intros (s1 & Hm & HR & Hs) Hk. eapply keeps_bind_done; [done..|]. by apply Hk. Qed.

Section keep.
Context {L : list nat} {ch : nat → list nat} {s : signals} {a : spec} (HR : represents L ch s a).

Lemma take_waits i x l : sets s !! i = Some x →
  keeps L ch (put_set i (SignalSet (set_service x) l (signals_ x))) (tt, a_set_waits i l a) s.
Proof using HR. intros Hx. eexists. split; [done|]. by apply (waits_represents HR). Qed.
Lemma post_keeps l : keeps L ch (modify (add_posted l)) (tt, a_post l a) s.
Proof using HR. eexists. split; [done|]. by apply (post_represents HR). Qed.
Lemma abandon_keeps l : keeps L ch (modify (add_abandoned l)) (tt, a_abandon l a) s.
Proof using HR. eexists. split; [done|]. by apply (abandon_represents HR). Qed.
Lemma count_keeps p r f i n : p ∈ L → regs s !! p = Some r → set_of s p = i → signal_of s p = n →
  keeps L ch (put_reg p (with_undelivered (f (undelivered_ r)) r)) (tt, a_change i n f a) s.
Proof using HR. intros Hp Hr <- <-. eexists. split; [done|]. by apply (count_represents HR). Qed.

End keep.

Lemma cancel_keeps L ch s a i : represents L ch s a → is_Some (a_sets a !! i) → keeps L ch (cancel i) (tt, a_cancel i a) s.
Proof.
  intros HR Hi. destruct (a_set_inv HR i Hi) as [x Hx]. unfold cancel, a_cancel. rewrite (a_set_spec HR i x Hx).
  eapply keeps_bind_done; [by apply get_set_done|done|]. eapply keeps_lists_bind; [by apply (take_waits HR)|]. intros s1 HR1 _. by apply post_keeps.
Qed.
Lemma cancel_key_keeps L ch s a i k :
  represents L ch s a → is_Some (a_sets a !! i) → keeps L ch (cancel_ops_by_key i k) (tt, a_cancel_key i k a) s.
Proof.
  intros HR Hi. destruct (a_set_inv HR i Hi) as [x Hx]. unfold cancel_ops_by_key, a_cancel_key. rewrite (a_set_spec HR i x Hx).
  eapply keeps_bind_done; [by apply get_set_done|done|]. eapply keeps_lists_bind; [by apply (take_waits HR)|]. intros s1 HR1 _. by apply post_keeps.
Qed.

(** *** Delivery *)

Lemma deliver_set_keeps L ch s a v n p r x :
  represents L ch s a → p ∈ L → signal_of s p = n → regs s !! p = Some r → sets s !! queue_ r = Some x →
  keeps L ch (match set_queue x with
       | [] => put_reg p (with_undelivered (S (undelivered_ r)) r)
       | ops => put_set (queue_ r) (SignalSet (set_service x) [] (signals_ x));; modify (add_posted ((λ o, (v, (o, inl n))) <$> ops))
       end) (tt, a_deliver_set v n a (queue_ r)) s.
Proof.
  intros HR Hp Hn Hr Hx. unfold a_deliver_set. rewrite (a_waits_spec HR _ x Hx). destruct (set_queue x).
  - apply (count_keeps HR); [done..| |done]. unfold observe. by rewrite Hr.
  - eapply keeps_lists_bind; [by apply (take_waits HR)|]. intros s1 HR1 _. by apply post_keeps.
Qed.

Lemma set_of_same s s' (l : list nat) : same_lists s s' → set_of s <$> l = set_of s' <$> l.
Proof. intros H. apply list_fmap_ext. intros _ p _. by rewrite (sl_set _ _ H). Qed.
Lemma table_same s s' v n (L : list nat) : same_lists s s' → filter (λ q, key s' q = (Some v, n)) L = filter (λ q, key s q = (Some v, n)) L.
Proof. intros H. apply filter_ext_in. intros p _. by rewrite (same_key _ _ p H). Qed.

Lemma deliver_loop_spec L ch v n t2 fuel t1 s a :
  represents L ch s a → filter (λ q, key s q = (Some v, n)) L = t1 ++ t2 → length t2 < fuel →
  keeps L ch (deliver_loop fuel v n (head t2)) (tt, foldl (a_deliver_set v n) a (set_of s <$> t2)) s.
Proof.
  revert fuel t1 s a. induction t2 as [|p t2 IH]; intros [|fuel] t1 s a HR Ht Hf; try (simpl in Hf; lia); [by exists s|].
  destruct (table_next HR v n t1 p t2 Ht) as (Hp & Hnx & Hn). destruct (reg_at _ _ _ _ (rp_shape _ _ _ _ HR) Hp) as (r & Hr & _ & Hq & _ & Hn' & _).
  destruct (owner_set HR p Hp) as [x Hx]. rewrite <- Hq in Hx. cbn [head deliver_loop].
  eapply keeps_bind_done; [by apply get_reg_done|done|]. eapply keeps_bind_done; [by apply get_set_done|done|].
  eapply keeps_lists_bind; [by eapply deliver_set_keeps|]. intros s1 HR1 Hs1. rewrite Hn', Hnx. rewrite fmap_cons. cbn [foldl].
  rewrite <- Hq, (set_of_same _ _ t2 Hs1). apply (IH fuel (t1 ++ [p])); [done| |simpl in Hf; lia]. by rewrite (table_same _ _ _ _ _ Hs1), <- app_assoc.
Qed.

Lemma abandon_loop_spec L ch v n t2 fuel t1 s a :
  represents L ch s a → filter (λ q, key s q = (Some v, n)) L = t1 ++ t2 → length t2 < fuel →
  keeps L ch (abandon_loop fuel (head t2)) (tt, foldl a_abandon_set a (set_of s <$> t2)) s.
Proof.
  revert fuel t1 s a. induction t2 as [|p t2 IH]; intros [|fuel] t1 s a HR Ht Hf; try (simpl in Hf; lia); [by exists s|].
  destruct (table_next HR v n t1 p t2 Ht) as (Hp & Hnx & Hn). destruct (reg_at _ _ _ _ (rp_shape _ _ _ _ HR) Hp) as (r & Hr & _ & Hq & _ & Hn' & _).
  destruct (owner_set HR p Hp) as [x Hx]. rewrite <- Hq in Hx. cbn [head abandon_loop].
  eapply keeps_bind_done; [by apply get_reg_done|done|]. eapply keeps_bind_done; [by apply get_set_done|done|].
  eapply keeps_lists_bind; [by apply (take_waits HR)|]. intros s1 HR1 Hs1. eapply keeps_lists_bind; [by apply (abandon_keeps HR1)|]. intros s2 HR2 Hs2.
  rewrite Hn', Hnx. rewrite fmap_cons. cbn [foldl]. pose proof (same_lists_trans _ _ _ Hs1 Hs2) as Hs3.
  rewrite <- Hq, (set_of_same _ _ t2 Hs3). unfold a_abandon_set at 2. rewrite (a_waits_spec HR _ x Hx).
  apply (IH fuel (t1 ++ [p])); [done| |simpl in Hf; lia]. by rewrite (table_same _ _ _ _ _ Hs3), <- app_assoc.
Qed.

Lemma table_length L ch s a v n : represents L ch s a → length (filter (λ q, key s q = (Some v, n)) L) < S (size (regs s)).
Proof. intros HR. rewrite <- (shape_size _ _ _ (rp_shape _ _ _ _ HR)). pose proof (length_filter (λ q, key s q = (Some v, n)) L). lia. Qed.
Lemma table_head L ch s a v n x :
  represents L ch s a → services s !! v = Some x → registrations_ x !! n = head (filter (λ q, key s q = (Some v, n)) L).
Proof.
  intros HR Hx. pose proof (sh_head _ _ _ (rp_shape _ _ _ _ HR) v n) as Hh. unfold head_of, table_of in Hh. rewrite Hx in Hh. by apply Hh.
Qed.

Lemma services_loop_spec L ch n w2 fuel w1 s a V :
  represents L ch s a → V = w1 ++ w2 → chained (snext s) V → (∀ v, v ∈ V → is_Some (services s !! v)) → length w2 < fuel →
  keeps L ch (services_loop fuel n (head w2)) (tt, foldl (λ a v, foldl (a_deliver_set v n) a (a_table v n a)) a w2) s.
Proof.
  revert fuel w1 s a. induction w2 as [|v w2 IH]; intros [|fuel] w1 s a HR HV Hc Hin Hf; try (simpl in Hf; lia); [by exists s|].
  destruct (Hin v) as [x Hx]; [rewrite HV, elem_of_mid; by left|]. pose proof (Hc w1 v w2 HV) as Hnx. unfold snext in Hnx. rewrite Hx in Hnx. simpl in Hnx.
  cbn [head services_loop]. eapply keeps_bind_done; [by apply get_service_done|done|]. eapply keeps_bind_done; [done..|].
  eapply keeps_lists_bind.
  - rewrite (table_head _ _ _ _ v n x HR Hx). apply (deliver_loop_spec L ch v n _ _ [] s a); [done..|]. by eapply table_length.
  - intros s1 HR1 Hs1. rewrite Hnx. cbn [foldl]. rewrite (a_table_spec HR). apply (IH fuel (w1 ++ [v])); [done|by rewrite <- app_assoc| | |simpl in Hf; lia].
    + eapply chained_ext; [|exact Hc]. intros w _. unfold snext. by rewrite (sl_services _ _ Hs1).
    + by rewrite (sl_services _ _ Hs1).
Qed.

Lemma listed_chained V s : listed V s → chained (snext s) V.
Proof. intros Hl l1 v l2 He. destruct (ls_linked _ _ Hl l1 v l2 He) as [-> _]. by rewrite filter_any. Qed.
Lemma listed_length V s : listed V s → length V ≤ size (services s).
Proof.
  intros Hl. rewrite <- (size_list_to_set (C := gset nat)), <- size_dom by apply Hl. apply subseteq_size. intros v.
  rewrite elem_of_list_to_set, elem_of_dom. apply Hl.
Qed.

Lemma deliver_keeps L ch s a n : represents L ch s a → keeps L ch (deliver_signal n) (tt, a_deliver n a) s.
Proof.
  intros HR. pose proof (rp_listed _ _ _ _ HR) as Hl. eapply keeps_bind_done; [done..|]. rewrite (ls_head _ _ Hl).
  eapply (services_loop_spec _ _ _ _ _ []); [done..|by apply listed_chained|by apply Hl|]. pose proof (listed_length _ _ Hl). lia.
Qed.
Lemma pipe_keeps L ch s a l : represents L ch s a → keeps L ch (pipe_read l) (tt, a_pipe l a) s.
Proof.
  revert s a. induction l as [|n l IH]; intros s a HR; [by exists s|]. cbn [pipe_read]. unfold a_pipe. cbn [foldl]. case_decide.
  - eapply keeps_lists_bind; [by apply deliver_keeps|]. intros s1 HR1 _. by apply IH.
  - eapply keeps_bind_done; [done..|]. by apply IH.
Qed.

(** *** [start_wait_op] *)

Lemma same_set {L ch s s1 a} i x : represents L ch s a → represents L ch s1 a → same_lists s s1 → sets s !! i = Some x → sets s1 !! i = Some x.
Proof.
  intros HR HR1 Hs1 Hx. destruct (a_set_inv HR1 i) as [y Hy]; [by rewrite (a_set_spec HR i x Hx)|]. rewrite Hy. f_equal.
  pose proof (a_set_spec HR i x Hx) as H1. rewrite (a_set_spec HR1 i y Hy) in H1. pose proof (sl_first _ _ Hs1 i) as H2. unfold first_of in H2.
  rewrite Hx, Hy in H2. destruct x, y. by simplify_eq/=.
Qed.

Lemma filter_one (P : nat → Prop) `{!∀ x, Decision (P x)} l p : NoDup l → p ∈ l → (∀ q, q ∈ l → P q ↔ q = p) → filter P l = [p].
Proof.
  intros Hn (l1 & l2 & ->)%list_elem_of_split HP. apply NoDup_app in Hn as (Hn1 & Hn & [Hn2 _]%NoDup_cons).
  rewrite filter_app, filter_cons, decide_True by (by apply HP; [set_solver|]).
  assert (∀ k, p ∉ k → (∀ q, q ∈ k → q ∈ l1 ++ p :: l2) → filter P k = []) as Hnone.
  { intros k Hk Hin. apply elem_of_nil_inv. intros q [Hq Hqk]%list_elem_of_filter. apply HP in Hq; [by subst|by apply Hin]. }
  rewrite !Hnone; [done|done|set_solver| |set_solver]. intros Hp. apply (Hn p Hp). apply list_elem_of_here.
Qed.

Lemma a_pending_spec L ch s a p : represents L ch s a → p ∈ L → a_pending (set_of s p) (signal_of s p) a = observe undelivered_ 0 s p.
Proof.
  intros HR Hp. unfold a_pending. rewrite (rp_regs _ _ _ _ HR), filter_fmap_list, (filter_one _ L p); [simpl; lia|by apply HR|done|].
  intros q Hq. unfold is_reg. simpl. split; [|by intros ->]. intros [H1 H2]. by eapply same_registration; [apply HR|..].
Qed.

Lemma wait_loop_spec L ch i k2 fuel k1 s a :
  represents L ch s a → ch i = k1 ++ k2 → length k2 < fuel →
  keeps L ch (wait_loop fuel (head k2))
    (match list_find (λ n, 0 < a_pending i n a) (signal_of s <$> k2) with Some (_, n) => (Some n, a_change i n pred a) | None => (None, a) end) s.
Proof.
  intros HR. revert fuel k1. induction k2 as [|p k2 IH]; intros [|fuel] k1 Hc Hf; try (simpl in Hf; lia); [by exists s|].
  pose proof (rp_shape _ _ _ _ HR) as Hs. assert (p ∈ L ∧ set_of s p = i) as [Hp Hi] by (apply (sh_in _ _ _ Hs); rewrite Hc, elem_of_mid; by left).
  destruct (reg_at _ _ _ _ Hs Hp) as (r & Hr & Hsig & _ & Hnis & _ & _ & Hu). cbn [head wait_loop].
  eapply keeps_bind_done; [by apply get_reg_done|done|]. rewrite fmap_cons. cbn [list_find].
  assert (a_pending i (signal_of s p) a = undelivered_ r) as -> by (by rewrite <- Hi, (a_pending_spec _ _ _ _ p HR Hp)). case_decide.
  - eapply keeps_lists_bind; [by apply (count_keeps HR p r pred i (signal_of s p))|]. intros s1 HR1 _. exists s1. by rewrite Hsig.
  - rewrite Hnis, (sh_chain _ _ _ Hs i k1 p k2 Hc). destruct (IH fuel (k1 ++ [p])) as (s1 & H1 & H2 & H3); [by rewrite <- app_assoc|simpl in Hf; lia|].
    exists s1. destruct (list_find _ (signal_of s <$> k2)) as [[]|]; by split_and!.
Qed.

Lemma wait_keeps L ch s a i o : represents L ch s a → is_Some (a_sets a !! i) → keeps L ch (start_wait_op i o) (tt, a_wait i o a) s.
Proof.
  intros HR Hi. destruct (a_set_inv HR i Hi) as [x Hx]. unfold start_wait_op, a_wait. rewrite (a_set_spec HR i x Hx).
  eapply keeps_bind_done; [done..|]. eapply keeps_bind_done; [by apply get_set_done|done|].
  pose proof (wait_loop_spec L ch i (ch i) (S (size (regs s))) [] s a HR eq_refl) as Hw. rewrite <- (signals_of_chain _ _ _ _ i HR) in Hw.
  rewrite <- (sh_first _ _ _ (rp_shape _ _ _ _ HR)) in Hw. unfold first_of in Hw. rewrite Hx in Hw. simpl in Hw.
  assert (length (ch i) < S (size (regs s))) as Hlen by (pose proof (set_chain_length _ _ _ i (rp_shape _ _ _ _ HR)); lia). specialize (Hw Hlen).
  destruct (list_find _ (a_signals_of i a)) as [[k n]|].
  - eapply keeps_lists_bind; [exact Hw|]. intros s1 HR1 _. by apply (post_keeps HR1).
  - eapply keeps_lists_bind; [exact Hw|]. intros s1 HR1 Hs1. apply (take_waits HR1). by apply (same_set i x HR HR1).
Qed.

(** *** Sets come and go *)

Section other_set.
Context {L : list nat} {ch : nat → list nat} {s : signals} {a : spec} (HR : represents L ch s a).
Context (i : nat) (o : option signal_set) (Hnone : Forall (λ r, a_set r ≠ i) (a_regs a)).
Context (Ho : ∀ x, o = Some x → signals_ x = None ∧ set_service x ∈ a_known a).
Let s' := set_sets (partial_alter (λ _, o) i) s.

Lemma no_reg p : p ∈ L → set_of s p ≠ i.
Proof using HR Hnone. intros Hp. rewrite (rp_regs _ _ _ _ HR), Forall_fmap, Forall_forall in Hnone. by apply Hnone. Qed.
Lemma other_service j : j ≠ i → service_of s' j = service_of s j.
Proof using Type. intros Hj. unfold service_of, s'. simpl. by rewrite lookup_partial_alter_ne. Qed.

Lemma other_shape : shape L ch s'.
Proof using HR Hnone Ho.
  pose proof (rp_shape _ _ _ _ HR) as [S1 S2 S3 S4 S5 S6 S7 S8 S9 S10 S11 S12].
  assert (∀ p, p ∈ L → key s' p = key s p) as Hk by (intros p Hp; unfold key; simpl; by rewrite other_service by (by apply no_reg)).
  split; try done.
  - intros p Hp. destruct (S3 p Hp) as [v Hv]. exists v. rewrite <- Hv. apply other_service. by apply no_reg.
  - intros j v. destruct (decide (j = i)) as [->|Hj]; [|rewrite other_service by done; apply S4]. unfold service_of, s'. simpl.
    rewrite lookup_partial_alter_eq. destruct o as [x|] eqn:Eo; [|done]. simpl. intros [= <-]. destruct (Ho x eq_refl) as [_ Hk'].
    rewrite (rp_known _ _ _ _ HR), elem_of_dom in Hk'. unfold table_of. simpl. by destruct (services s !! set_service x); [|by destruct Hk'].
  - by eapply linked_same; [exact Hk|..|exact S6].
  - intros v n Hv. change (head_of s' v n) with (head_of s v n). rewrite S7 by done. f_equal. apply filter_ext_in. intros p Hp. by rewrite Hk.
  - intros j. rewrite <- S8. unfold first_of, s'. simpl. destruct (decide (j = i)) as [->|Hj]; [|by rewrite lookup_partial_alter_ne].
    rewrite lookup_partial_alter_eq. transitivity (@None nat).
    + destruct o as [x|]; [|done]. simpl. by apply Ho.
    + symmetry. change (first_of s i = None). rewrite S8. destruct (ch i) as [|p c] eqn:Ec; [done|]. assert (p ∈ L ∧ set_of s p = i) as [Hp Hi] by (apply S9; rewrite Ec; apply list_elem_of_here).
      by destruct (no_reg p Hp).
Qed.

Lemma other_represents :
  represents L ch s' (Spec (a_regs a) (partial_alter (λ _, view_set <$> o) i (a_sets a)) (a_services a) (a_known a) (a_flags a) (a_handled a) (a_posted a) (a_abandoned a)).
Proof using HR Hnone Ho.
  pose proof other_shape as Hsh. destruct HR as [H1 H2 H3 H4 H5 H6 H7 H8 H9]. split; simpl; try done; [by apply (listed_same _ s)|].
  rewrite H4. apply map_eq. intros j. rewrite lookup_fmap. destruct (decide (j = i)) as [->|Hj].
  - by rewrite !lookup_partial_alter_eq.
  - by rewrite !lookup_partial_alter_ne, lookup_fmap.
Qed.
End other_set.

Lemma construct_spec L ch s a i v :
  represents L ch s a → a_sets a !! i = None → v ∈ a_known a → refines (construct i v) (tt, a_construct i v a) s.
Proof.
  intros HR Hi Hv. eexists _, L, ch. split; [done|]. apply (other_represents HR i (Some (SignalSet v [] None))); [|by intros x [= <-]].
  rewrite (rp_regs _ _ _ _ HR), Forall_fmap, Forall_forall. intros p Hp Hpi. destruct (owner_set HR p Hp) as [x Hx]. simpl in Hpi. rewrite Hpi in Hx.
  by rewrite (a_set_spec HR i x Hx) in Hi.
Qed.

(** A set that has been cleared has no registrations. *)
Lemma a_clear_loop_regs i ns sigaction a a' :
  a_clear_loop i ns sigaction a = (None, a') → a_regs a' = filter (λ r, ¬ (a_set r = i ∧ a_signal r ∈ ns)) (a_regs a).
Proof.
  revert a. induction ns as [|n ns IH]; intros a Hc; simpl in Hc.
  - simplify_eq. symmetry. apply filter_all. intros r _ [_ ?%not_elem_of_nil]. done.
  - pose proof (a_restore_regs n (sigaction n) a) as Hr. destruct (a_restore n (sigaction n) a) as [[e|] a1]; [done|]. simpl in Hr.
    rewrite (IH _ Hc). simpl. rewrite Hr, list_filter_filter. apply filter_ext_in. intros r _. unfold is_reg. rewrite elem_of_cons. naive_solver.
Qed.
Lemma a_clear_none i sigaction a a' : a_clear i sigaction a = (None, a') → Forall (λ r, a_set r ≠ i) (a_regs a').
Proof.
  intros ->%a_clear_loop_regs. apply Forall_forall. intros r [Hr Hin]%list_elem_of_filter Hi. apply Hr. split; [done|].
  unfold a_signals_of. rewrite merge_sort_Permutation. apply list_elem_of_fmap. exists r. split; [done|]. by apply list_elem_of_filter.
Qed.
Lemma a_clear_sets i sigaction a : a_sets (a_clear i sigaction a).2 = a_sets a.
Proof.
  unfold a_clear. generalize (a_signals_of i a). intros ns. revert a. induction ns as [|n ns IH]; intros a; simpl; [done|].
  pose proof (a_restore_sets n (sigaction n) a) as Hr. destruct (a_restore n (sigaction n) a) as [[e|] a1]; [done|]. rewrite IH. done.
Qed.
Lemma a_cancel_regs i a : a_regs (a_cancel i a) = a_regs a.
Proof. unfold a_cancel. by destruct (a_sets a !! i). Qed.

Lemma destroy_spec L ch s a i sigaction :
  represents L ch s a → is_Some (a_sets a !! i) → (a_clear i sigaction a).1 = None → refines (destroy i sigaction) (tt, a_destroy i sigaction a) s.
Proof.
  intros HR Hi Hok. unfold destroy, a_destroy. eapply refines_bind_done; [done|]. destruct (clear_spec L ch s a i sigaction HR Hi) as (s1 & L1 & ch1 & Hc & HR1).
  eapply refines_bind_done; [exact Hc|]. destruct (cancel_keeps L1 ch1 s1 _ i HR1) as (s2 & Hd & HR2 & _); [by rewrite a_clear_sets|].
  eapply refines_bind_done; [exact Hd|]. eexists _, L1, ch1. split; [done|]. apply (other_represents HR2 i None); [|done].
  simpl. rewrite a_cancel_regs. eapply (a_clear_none _ sigaction a). by rewrite (surjective_pairing (a_clear i sigaction a)), Hok.
Qed.

(** *** Services come and go *)

(** The tables of the services that sets belong to stay as they are. *)
Lemma shape_services L ch s s' :
  regs s' = regs s → sets s' = sets s → registration_count_ s' = registration_count_ s →
  (∀ w, is_Some (table_of s w) → table_of s' w = table_of s w) →
  (∀ w n, table_of s w = None → head_of s' w n = None) → shape L ch s → shape L ch s'.
Proof.
  intros Hr Hss Hc Ht Hn [S1 S2 S3 S4 S5 S6 S7 S8 S9 S10 S11 S12].
  split; unfold key, service_of, first_of, observe, count in *; rewrite ?Hr, ?Hss, ?Hc; try done.
  - intros i v Hv. rewrite Ht; by eapply S4.
  - intros v n Hv. destruct (table_of s v) as [t|] eqn:Et.
    + unfold head_of. rewrite Ht by (by rewrite Et). rewrite <- S7 by (by rewrite Et). done.
    + rewrite Hn by done. symmetry. destruct (filter _ L) as [|p l] eqn:Ef; [done|].
      assert (p ∈ filter (λ p, (set_service <$> sets s !! match regs s !! p with Some r => queue_ r | None => 0 end,
        match regs s !! p with Some r => signal_number_ r | None => 0 end) = (Some v, n)) L) as Hp by (rewrite Ef; apply list_elem_of_here).
      apply list_elem_of_filter in Hp as [[= Hp _] _]. apply S4 in Hp as [t Hp]. by rewrite Hp in Et.
Qed.

Section services.
Context {L : list nat} {ch : nat → list nat} {s : signals} {a : spec} (HR : represents L ch s a) (v : nat).

Definition added_state : signals :=
  set_service_list (Some v)
    (set_services (opt_alter (with_prev (Some v)) (service_list_ s))
      (set_services (<[v := Service ∅ (service_list_ s) None]>) (match service_list_ s with None => set_pipe true s | Some _ => s end))).

Lemma added_services : services added_state = opt_alter (with_prev (Some v)) (service_list_ s) (<[v := Service ∅ (service_list_ s) None]> (services s)).
Proof using Type. unfold added_state. simpl. by destruct (service_list_ s). Qed.

Lemma added_lookup w : services s !! v = None → w ≠ v →
  services added_state !! w = (if decide (service_list_ s = Some w) then with_prev (Some v) else id) <$> services s !! w.
Proof using Type.
  intros Hv Hw. rewrite added_services, opt_alter_lookup, lookup_insert_ne by done. case_decide; [done|]. by rewrite option_fmap_id.
Qed.
Lemma added_lookup_eq : services s !! v = None → services added_state !! v = Some (Service ∅ (service_list_ s) None).
Proof using HR.
  intros Hv. rewrite added_services, opt_alter_lookup, lookup_insert_eq. rewrite decide_False; [done|]. intros Hl.
  pose proof (rp_listed _ _ _ _ HR) as Hls. rewrite (ls_head _ _ Hls) in Hl. apply head_Some_elem_of in Hl. apply (ls_in _ _ Hls) in Hl as [x Hx].
  by rewrite Hv in Hx.
Qed.

Lemma added_listed : services s !! v = None → listed (v :: a_services a) added_state.
Proof using HR.
  intros Hv. pose proof (rp_listed _ _ _ _ HR) as [H1 H2 H3 H4 H5 H6].
  assert (v ∉ a_services a) as Hnin by (intros [x Hx]%H3; by rewrite Hv in Hx).
  assert (∀ w, w ≠ v → snext added_state w = snext s w) as Hnx.
  { intros w Hw. unfold snext. rewrite added_lookup by done. destruct (services s !! w); [|done]. by case_decide. }
  assert (∀ w, w ≠ v → sprev added_state w = if decide (service_list_ s = Some w) then services s !! w ≫= (λ _, Some v) else sprev s w) as Hpv.
  { intros w Hw. unfold sprev. rewrite added_lookup by done. destruct (services s !! w); by case_decide. }
  split.
  - done.
  - by constructor.
  - intros w. destruct (decide (w = v)) as [->|Hw]; [by rewrite added_lookup_eq|]. intros [?|Hin]%elem_of_cons; [done|].
    rewrite added_lookup by done. apply H3 in Hin as [x Hx]. by rewrite Hx.
  - eapply linked_cons; [exact H4|by constructor|..]; rewrite ?filter_any, <- ?H1.
    + unfold snext. by rewrite added_lookup_eq.
    + unfold sprev. by rewrite added_lookup_eq.
    + intros w Hw. apply Hnx. by intros ->.
    + intros w Hw. rewrite Hpv by (by intros ->). destruct (H3 w Hw) as [x Hx]. rewrite Hx. done.
  - intros w [Hw Hin]%not_elem_of_cons. rewrite Hnx, Hpv by done. rewrite decide_False; [by apply H5|]. rewrite H1. by intros ?%head_Some_elem_of.
  - rewrite bool_decide_true by done. unfold added_state. simpl. rewrite H1 in *. destruct (a_services a); [done|]. by rewrite bool_decide_true in H6.
Qed.

Lemma add_service_done pipe :
  (service_list_ s = None → pipe = None) → services s !! v = None → add_service v pipe s = Done (Ret tt) added_state.
Proof using HR.
  intros Hp Hv. unfold add_service, added_state. rewrite get_state_bind. pose proof (rp_listed _ _ _ _ HR) as Hls.
  destruct (service_list_ s) as [h|] eqn:Eh; [|by rewrite Hp]. rewrite (comp_bind_done _ _ _ tt s) by done.
  rewrite (comp_bind_done _ _ _ tt (set_services (<[v := Service ∅ (Some h) None]>) s)); [|done].
  rewrite (comp_bind_done _ _ _ _ _ (if_set_service_done (with_prev (Some v)) (set_services (<[v := Service ∅ (Some h) None]>) s) (Some h)
    ltac:(intros q [= <-]; simpl; rewrite lookup_insert; case_decide; [done|]; apply (ls_in _ _ Hls), head_Some_elem_of; by rewrite <- (ls_head _ _ Hls)))).
  done.
Qed.

Lemma added_represents : services s !! v = None → represents L ch added_state (a_set_services (v :: a_services a) (a_known a ∪ {[v]}) a).
Proof using HR.
  intros Hv. pose proof (added_listed Hv) as Hls. destruct HR as [H1 H2 H3 H4 H5 H6 H7 H8 H9].
  assert (regs added_state = regs s ∧ sets added_state = sets s ∧ registration_count_ added_state = registration_count_ s ∧ flags_ added_state = flags_ s ∧
    handled added_state = handled s ∧ posted added_state = posted s ∧ abandoned added_state = abandoned s) as (E1 & E2 & E3 & E4 & E5 & E6 & E7).
  { unfold added_state. simpl. by destruct (service_list_ s). }
  split; unfold a_set_services; cbn [a_regs a_sets a_services a_known a_flags a_handled a_posted a_abandoned]; rewrite ?E1, ?E2, ?E3, ?E4, ?E5, ?E6, ?E7; try done.
  - apply (shape_services _ _ s); [done..| | |done].
    + intros w Hw. assert (w ≠ v) as Hne by (intros ->; unfold table_of in Hw; rewrite Hv in Hw; by destruct Hw).
      unfold table_of. rewrite added_lookup by done. destruct (services s !! w); [|done]. by case_decide.
    + intros w n Hw. unfold head_of, table_of in *. destruct (decide (w = v)) as [->|Hne]; [by rewrite added_lookup_eq|].
      rewrite added_lookup by done. by destruct (services s !! w).
  - rewrite H3. apply list_fmap_ext. intros _ p _. unfold view, observe. by rewrite E1.
  - rewrite H5. apply set_eq. intros w. rewrite elem_of_union, elem_of_singleton, !elem_of_dom. destruct (decide (w = v)) as [->|Hne].
    + rewrite added_lookup_eq by done. split; [done|by right].
    + rewrite added_lookup by done. rewrite fmap_is_Some. naive_solver.
Qed.

Lemma add_service_spec pipe : v ∉ a_known a → refines (add_service v pipe) (a_add_service v pipe a) s.
Proof using HR.
  intros Hk. rewrite (rp_known _ _ _ _ HR), not_elem_of_dom in Hk. pose proof (ls_head _ _ (rp_listed _ _ _ _ HR)) as Hh. unfold a_add_service.
  destruct (a_services a) as [|h V] eqn:EV; simpl in Hh.
  - destruct pipe as [e|]; [exists s, L, ch; unfold add_service; by rewrite get_state_bind, Hh|].
    exists added_state, L, ch. rewrite <- EV. split; [by apply add_service_done|by apply added_represents].
  - exists added_state, L, ch. rewrite <- EV. split; [apply add_service_done; [by rewrite Hh|done]|by apply added_represents].
Qed.
End services.

Section remove_service.
Context {L : list nat} {ch : nat → list nat} {s : signals} {a : spec} (HR : represents L ch s a) (v : nat) (x : service) (Hx : services s !! v = Some x).

Lemma listed_iff : (next_ x ≠ None ∨ prev_ x ≠ None ∨ service_list_ s = Some v) ↔ v ∈ a_services a.
Proof using HR Hx.
  destruct (rp_listed _ _ _ _ HR) as [H1 H2 H3 H4 H5 H6]. split.
  - intros Hv. destruct (decide (v ∈ a_services a)) as [|Hn]; [done|]. destruct (H5 v Hn) as [Hn1 Hn2]. unfold snext, sprev in *. rewrite Hx in *.
    destruct Hv as [?|[?|Hv]]; [done..|]. rewrite H1 in Hv. by apply head_Some_elem_of in Hv.
  - intros (l1 & l2 & Hl)%list_elem_of_split. destruct (H4 l1 v l2 Hl) as [_ Hp]. rewrite filter_any in Hp. unfold sprev in Hp. rewrite Hx in Hp. simpl in Hp.
    destruct l1 as [|w l1]; [right; right; by rewrite H1, Hl|]. right; left. rewrite Hp, last_cons. by destruct (last l1).
Qed.

Context (l1 l2 : list nat) (HV : a_services a = l1 ++ v :: l2).

Definition gone_services : gmap nat service :=
  alter (λ x, Service (registrations_ x) None None) v (opt_alter (with_prev (last l1)) (head l2) (opt_alter (with_next (head l2)) (last l1) (services s))).
Definition gone_state : signals :=
  set_services (λ _, gone_services) (set_service_list (head (l1 ++ l2)) (set_pipe (bool_decide (l1 ++ l2 ≠ [])) s)).

Lemma neighbours : next_ x = head l2 ∧ prev_ x = last l1 ∧ v ∉ l1 ++ l2 ∧ NoDup (l1 ++ l2) ∧ (service_list_ s = Some v ↔ l1 = []).
Proof using HR Hx HV.
  destruct (rp_listed _ _ _ _ HR) as [H1 H2 H3 H4 H5 H6]. destruct (H4 l1 v l2 HV) as [Hn Hp]. rewrite !filter_any in *. unfold snext, sprev in *.
  rewrite Hx in *. rewrite HV in *. rewrite <- Permutation_middle in H2. apply NoDup_cons in H2 as [Hnin Hnd]. split_and!; try done. rewrite H1.
  destruct l1 as [|w l]; simpl; [done|]. split; [intros [= ->]; destruct Hnin; apply list_elem_of_here|done].
Qed.

Lemma gone_lookup w : w ≠ v →
  gone_services !! w = (if decide (head l2 = Some w) then with_prev (last l1) else id) <$>
                       ((if decide (last l1 = Some w) then with_next (head l2) else id) <$> services s !! w).
Proof using Type. intros Hw. unfold gone_services. by rewrite lookup_alter_ne, !opt_alter_lookup. Qed.
Lemma gone_lookup_eq : gone_services !! v = Some (Service (registrations_ x) None None).
Proof using HR Hx HV.
  unfold gone_services. rewrite lookup_alter_eq, !opt_alter_lookup, Hx. simpl. by repeat case_decide.
Qed.
Lemma gone_tables w : table_of gone_state w = table_of s w.
Proof using HR Hx HV.
  unfold table_of. simpl. destruct (decide (w = v)) as [->|Hw]; [by rewrite gone_lookup_eq, Hx|]. rewrite gone_lookup by done.
  destruct (services s !! w); [|done]. simpl. by repeat case_decide.
Qed.

Lemma gone_listed : listed (l1 ++ l2) gone_state.
Proof using HR Hx HV.
  destruct neighbours as (Hnx & Hpv & Hnin & Hnd & _). destruct (rp_listed _ _ _ _ HR) as [H1 H2 H3 H4 H5 H6]. rewrite HV in *.
  assert (∀ w, w ∈ l1 ++ l2 → ∃ y, services s !! w = Some y) as Hin by (intros w Hw; apply H3; set_solver).
  assert (snext s v = head l2 ∧ sprev s v = last l1) as [E1 E2] by (unfold snext, sprev; rewrite Hx; by split).
  split; [done|done| | | |done]; unfold snext, sprev; simpl.
  - intros w Hw. rewrite gone_lookup by (by intros ->). destruct (Hin w Hw) as [y ->]. done.
  - eapply (linked_remove _ l1 v l2); [exact H4|done|..]; intros w Hw; rewrite ?E1, ?E2; unfold snext, sprev; simpl;
      (rewrite gone_lookup by (by intros ->)); destruct (Hin w Hw) as [y ->]; simpl; by repeat case_decide.
  - intros w Hw. destruct (decide (w = v)) as [->|Hwv]; [by rewrite gone_lookup_eq|]. rewrite gone_lookup by done.
    rewrite !decide_False; [| |].
    + destruct (H5 w) as [H51 H52]; [set_solver|]. unfold snext, sprev in *. by destruct (services s !! w).
    + intros ?%last_Some_elem_of. set_solver.
    + intros ?%head_Some_elem_of. set_solver.
Qed.

Lemma gone_represents : represents L ch gone_state (a_set_services (l1 ++ l2) (a_known a) a).
Proof using HR Hx HV.
  pose proof gone_listed as Hl. destruct HR as [H1 H2 H3 H4 H5 H6 H7 H8 H9]. split; try done.
  - apply (shape_services _ _ s); [done..| | |done]; [intros w _; apply gone_tables|]. intros w n Hw. unfold head_of. by rewrite gone_tables, Hw.
  - simpl. rewrite H5. apply set_eq. intros w. rewrite !elem_of_dom. destruct (decide (w = v)) as [->|Hw]; [by rewrite gone_lookup_eq, Hx|].
    rewrite gone_lookup by done. by rewrite !fmap_is_Some.
Qed.

Lemma valid_neighbours : valid (last l1) (services s) ∧ valid (head l2) (services s).
Proof using HR Hx HV.
  destruct (rp_listed _ _ _ _ HR) as [H1 H2 H3 H4 H5 H6]. rewrite HV in *.
  split; intros q Hq; apply H3; [apply last_Some_elem_of in Hq|apply head_Some_elem_of in Hq]; set_solver.
Qed.

Lemma remove_service_done : remove_service v s = Done tt gone_state.
Proof using HR Hx HV.
  destruct neighbours as (Hnx & Hpv & Hnin & Hnd & Hhd). destruct valid_neighbours as [V1 V2]. unfold remove_service.
  rewrite (comp_bind_done _ _ _ _ _ (get_service_done _ _ _ Hx)), get_state_bind, (decide_True (P := next_ x ≠ None ∨ _)) by (apply listed_iff; rewrite HV, elem_of_mid; by left).
  rewrite Hnx, Hpv. set (s1 := set_service_list (head (l1 ++ l2)) s).
  rewrite (comp_bind_done _ _ _ tt s1).
  2: { case_decide as Hd; [apply Hhd in Hd; by subst l1|]. unfold s1. destruct s, l1; simpl in *; [by destruct Hd; apply Hhd|].
       pose proof (ls_head _ _ (rp_listed _ _ _ _ HR)) as Hh. rewrite HV in Hh. simpl in *. by subst. }
  rewrite (comp_bind_done _ _ _ _ _ (if_set_service_done (with_next (head l2)) s1 (last l1) V1)).
  set (s2 := set_services (opt_alter (with_next (head l2)) (last l1)) s1).
  assert (valid (head l2) (services s2)) as V2'. { intros q Hq. simpl. rewrite opt_alter_lookup, fmap_is_Some. by apply V2. }
  rewrite (comp_bind_done _ _ _ _ _ (if_set_service_done (with_prev (last l1)) s2 (head l2) V2')).
  set (s3 := set_services (opt_alter (with_prev (last l1)) (head l2)) s2).
  assert (is_Some (services s3 !! v)) as V3. { simpl. by rewrite !opt_alter_lookup, !fmap_is_Some, Hx. }
  rewrite (comp_bind_done _ _ _ _ _ (update_service_done (λ x, Service (registrations_ x) None None) s3 v V3)), get_state_bind. simpl.
  pose proof (ls_pipe _ _ (rp_listed _ _ _ _ HR)) as Hp. unfold gone_state, s3, s2, s1. destruct (l1 ++ l2) eqn:El; [done|].
  rewrite HV, bool_decide_true in Hp by (by destruct l1). simpl. unfold mret, comp_ret, set_pipe. by rewrite <- Hp.
Qed.
End remove_service.

Lemma remove_service_spec L ch s a v :
  represents L ch s a → v ∈ a_known a →
  ∃ s', remove_service v s = Done tt s' ∧ represents L ch s' (a_set_services (filter (.≠ v) (a_services a)) (a_known a) a) ∧ is_Some (services s' !! v).
Proof.
  intros HR Hk. rewrite (rp_known _ _ _ _ HR), elem_of_dom in Hk. destruct Hk as [x Hx]. pose proof (listed_iff HR v x Hx) as Hiff.
  destruct (decide (v ∈ a_services a)) as [Hv|Hv].
  - apply list_elem_of_split in Hv as (l1 & l2 & HV). exists (gone_state (s := s) v l1 l2). split_and!; [by apply (remove_service_done HR v x)| |].
    + destruct (neighbours HR v x Hx l1 l2 HV) as (_ & _ & Hnin & _). replace (filter (.≠ v) (a_services a)) with (l1 ++ l2).
      * by apply (gone_represents HR v x).
      * rewrite HV, filter_app, filter_cons, decide_False, <- filter_app by (by intros []). symmetry. apply filter_all. by intros w Hw ->.
    + simpl. by rewrite (gone_lookup_eq HR v x Hx l1 l2 HV).
  - exists s. split_and!.
    + unfold remove_service. rewrite (comp_bind_done _ _ _ _ _ (get_service_done _ _ _ Hx)), get_state_bind. rewrite decide_False; [done|].
      by rewrite Hiff.
    + rewrite filter_all by (by intros w Hw ->). by destruct a.
    + by rewrite Hx.
Qed.

Lemma abandon_table_spec L ch v ns s a :
  represents L ch s a → is_Some (services s !! v) →
  keeps L ch (abandon_table v ns) (tt, foldl (λ a n, foldl a_abandon_set a (a_table v n a)) a ns) s.
Proof.
  revert s a. induction ns as [|n ns IH]; intros s a HR [x Hx]; [by exists s|]. cbn [abandon_table foldl].
  eapply keeps_bind_done; [by apply get_service_done|done|]. eapply keeps_bind_done; [done..|]. eapply keeps_lists_bind.
  - rewrite (table_head _ _ _ _ v n x HR Hx). apply (abandon_loop_spec L ch v n _ _ [] s a); [done..|]. by eapply table_length.
  - intros s1 HR1 Hs1. rewrite (a_table_spec HR). apply IH; [done|]. by rewrite (sl_services _ _ Hs1), Hx.
Qed.

Lemma service_shutdown_spec L ch s a v : represents L ch s a → v ∈ a_known a → refines (shutdown v) (tt, a_shutdown v a) s.
Proof.
  intros HR Hv. destruct (remove_service_spec L ch s a v HR Hv) as (s1 & H1 & HR1 & Hx). eapply refines_bind_done; [exact H1|].
  eapply keeps_refines. by apply abandon_table_spec.
Qed.

(** ** Programs *)

(** What programs do with signal sets; [PipeRead]: the reactor found bytes in the pipe. *)
Inductive call : Type :=
  | NewService (v : nat) (pipe : option Z)
  | Shutdown (v : nat)
  | Construct (i v : nat)
  | Destroy (i : nat) (sigaction : nat → option Z)
  | Add (i : nat) (signal_number flags : Z) (sigaction : option Z)
  | Remove (i : nat) (signal_number : Z) (sigaction : option Z)
  | Clear (i : nat) (sigaction : nat → option Z)
  | Cancel (i : nat)
  | CancelByKey (i key : nat)
  | Wait (i : nat) (o : signal_op)
  | PipeRead (l : list Z).

Abbreviation answer := (outcome (option net_error)).
Definition without_ec (r : outcome unit) : answer := match r with Ret _ => Ret None | Throw e => Throw e | Terminate => Terminate end.
Definition silent (m : comp unit) : comp answer := m;; mret (Ret None).
Definition with_ec (m : comp (option net_error)) : comp answer := e ← m; mret (Ret e).

Definition run_call (c : call) : comp answer :=
  match c with
  | NewService v pipe => r ← add_service v pipe; mret (without_ec r)
  | Shutdown v => silent (shutdown v)
  | Construct i v => silent (construct i v)
  | Destroy i sigaction => silent (destroy i sigaction)
  | Add i n f sigaction => with_ec (add i n f sigaction)
  | Remove i n sigaction => with_ec (remove i n sigaction)
  | Clear i sigaction => s ← get_state; with_ec (clear (S (size (regs s))) i sigaction)
  | Cancel i => silent (cancel i)
  | CancelByKey i key => silent (cancel_ops_by_key i key)
  | Wait i o => silent (start_wait_op i o)
  | PipeRead l => silent (pipe_read l)
  end.
Fixpoint run_calls (cs : list call) : comp (list answer) :=
  match cs with
  | [] => mret []
  | c :: cs => r ← run_call c; rs ← run_calls cs; mret (r :: rs)
  end.

(** The calls of a correct program: objects are used while they exist, and the default
    action can be restored when a set is destroyed. *)
Definition allowed (c : call) a : Prop :=
  match c with
  | NewService v _ => v ∉ a_known a
  | Shutdown v => v ∈ a_known a
  | Construct i v => a_sets a !! i = None ∧ v ∈ a_known a
  | Destroy i sigaction => is_Some (a_sets a !! i) ∧ (a_clear i sigaction a).1 = None
  | Add i _ _ _ | Remove i _ _ | Clear i _ | Cancel i | CancelByKey i _ | Wait i _ => is_Some (a_sets a !! i)
  | PipeRead _ => True
  end.
#[global] Instance allowed_dec c a : Decision (allowed c a).
Proof. destruct c; simpl; apply _. Defined.

Definition answered {A} (g : A → answer) (r : A * spec) : answer * spec := (g r.1, r.2).
Definition a_call (c : call) a : answer * spec :=
  match c with
  | NewService v pipe => answered without_ec (a_add_service v pipe a)
  | Shutdown v => (Ret None, a_shutdown v a)
  | Construct i v => (Ret None, a_construct i v a)
  | Destroy i sigaction => (Ret None, a_destroy i sigaction a)
  | Add i n f sigaction => answered Ret (a_add i n f sigaction a)
  | Remove i n sigaction => answered Ret (a_remove i n sigaction a)
  | Clear i sigaction => answered Ret (a_clear i sigaction a)
  | Cancel i => (Ret None, a_cancel i a)
  | CancelByKey i key => (Ret None, a_cancel_key i key a)
  | Wait i o => (Ret None, a_wait i o a)
  | PipeRead l => (Ret None, a_pipe l a)
  end.
Fixpoint a_calls (cs : list call) a : option (list answer * spec) :=
  match cs with
  | [] => Some ([], a)
  | c :: cs => if decide (allowed c a) then q ← a_calls cs (a_call c a).2; Some ((a_call c a).1 :: q.1, q.2) else None
  end.

Definition no_signals : signals := Signals ∅ ∅ ∅ None ∅ ∅ ∅ false [] [].
Definition no_spec : spec := Spec [] ∅ [] ∅ ∅ ∅ [] [].

Lemma no_signals_represents : represents [] (λ _, []) no_signals no_spec.
Proof.
  split; try done.
  - split; try done; try (intros *; by rewrite ?lookup_empty).
    + constructor.
    + intros p. split; [by intros ?%not_elem_of_nil|by intros []].
    + by intros p ?%not_elem_of_nil.
    + by intros p ?%not_elem_of_nil.
    + apply linked_nil.
    + intros i p. rewrite !elem_of_nil. by split; [|intros []].
    + intros i. constructor.
    + intros i l1 p l2 Hl. by destruct l1.
  - split; try done; [constructor|by intros v ?%not_elem_of_nil|apply linked_nil].
Qed.

Lemma refines_answer {A} (m : comp A) (g : A → answer) r s : refines m r s → refines (x ← m; mret (g x)) (answered g r) s.
Proof. intros (s' & L & ch & Hm & HR). exists s', L, ch. by rewrite (comp_bind_done _ _ _ _ _ Hm). Qed.

Lemma refines_silent m a s : refines m (tt, a) s → refines (silent m) (Ret None, a) s.
Proof. intros (s' & L & ch & Hm & HR). exists s', L, ch. unfold silent. by rewrite (comp_bind_done _ _ _ _ _ Hm). Qed.

Lemma run_call_spec L ch s a c : represents L ch s a → allowed c a → refines (run_call c) (a_call c a) s.
Proof.
  intros HR Hc. destruct c; cbn [run_call a_call allowed] in *.
  - apply refines_answer. by apply (add_service_spec HR).
  - apply refines_silent. by eapply service_shutdown_spec.
  - apply refines_silent. destruct Hc. by eapply construct_spec.
  - apply refines_silent. destruct Hc. by eapply destroy_spec.
  - apply refines_answer. by eapply add_spec.
  - apply refines_answer. by eapply remove_spec.
  - eapply refines_bind_done; [done|]. apply refines_answer. by eapply clear_spec.
  - apply refines_silent. by eapply keeps_refines, cancel_keeps.
  - apply refines_silent. by eapply keeps_refines, cancel_key_keeps.
  - apply refines_silent. by eapply keeps_refines, wait_keeps.
  - apply refines_silent. by eapply keeps_refines, pipe_keeps.
Qed.

Lemma run_calls_spec L ch s a cs rs a' : represents L ch s a → a_calls cs a = Some (rs, a') → refines (run_calls cs) (rs, a') s.
Proof.
  revert L ch s a rs. induction cs as [|c cs IH]; intros L ch s a rs HR Hc; simpl in Hc; [simplify_eq; by exists s, L, ch|].
  case_decide as Hok; [|done]. destruct (a_calls cs _) as [[rs' a1]|] eqn:Ec; [|done]. simplify_eq/=.
  destruct (run_call_spec L ch s a c HR Hok) as (s1 & L1 & ch1 & H1 & HR1). eapply refines_bind_done; [exact H1|].
  destruct (IH _ _ _ _ _ HR1 Ec) as (s2 & L2 & ch2 & H2 & HR2). eapply refines_bind_done; [exact H2|]. by exists s2, L2, ch2.
Qed.

(** ** What programs can rely on *)

Definition queued {A} (f : A → list signal_op) (m : gmap nat A) : list signal_op := (map_to_list m).*2 ≫= f.
Definition waiting a : list signal_op := queued a_waits (a_sets a).
Definition op_of (c : nat * completion) : signal_op := c.2.1.

(** [w]: all operations that were started.  Each is in one place; a signal has the handler of
    asio while somebody is registered; and no operation waits in a set while a signal
    has come for the set. *)
Record sound (w : list signal_op) a : Prop := {
  so_nodup : NoDup ((λ r, (a_set r, a_signal r)) <$> a_regs a);
  so_handled : ∀ n, n ∈ a_handled a ↔ n ∈ a_signal <$> a_regs a;
  so_missed : ∀ r, r ∈ a_regs a → 0 < a_undelivered r → a_waits_of (a_set r) a = [];
  so_ops : w ≡ₚ waiting a ++ (op_of <$> a_posted a) ++ a_abandoned a }.

Lemma queued_insert {A} (f : A → list signal_op) (m : gmap nat A) i x : m !! i = None → queued f (<[i := x]> m) ≡ₚ f x ++ queued f m.
Proof. intros Hi. unfold queued. by rewrite map_to_list_insert. Qed.
Lemma queued_delete {A} (f : A → list signal_op) (m : gmap nat A) i x : m !! i = Some x → queued f m ≡ₚ f x ++ queued f (delete i m).
Proof. intros Hi. rewrite <- (insert_delete_id m i x Hi) at 1. apply queued_insert, lookup_delete_eq. Qed.

Lemma queued_fmap {A B} (f : B → list signal_op) (g : A → B) (m : gmap nat A) : queued f (g <$> m) = queued (f ∘ g) m.
Proof.
  unfold queued. rewrite map_to_list_fmap. generalize (map_to_list m). intros l. induction l as [|[k x] l IH]; [done|]. by rewrite !fmap_cons, !bind_cons, IH.
Qed.
Lemma waiting_take i x l a : a_sets a !! i = Some x → waiting (a_set_waits i l a) ++ a_waits x ≡ₚ waiting a ++ l.
Proof.
  intros Hx. unfold waiting. simpl. rewrite (map_alter_as_insert _ _ _ _ Hx), <- insert_delete_eq, queued_insert by apply lookup_delete_eq.
  rewrite (queued_delete a_waits _ i x Hx). simpl. solve_Permutation.
Qed.
Lemma waits_take i j l a : a_waits_of j (a_set_waits i l a) = if decide (i = j ∧ is_Some (a_sets a !! i)) then l else a_waits_of j a.
Proof.
  unfold a_waits_of. simpl. rewrite lookup_alter. destruct (decide (i = j)) as [->|].
  - destruct (a_sets a !! j) eqn:E; simpl; [by rewrite decide_True|]. rewrite decide_False; [done|]. by intros [_ []].
  - by rewrite decide_False by (by intros []).
Qed.

Section sound_queues.
Context (w : list signal_op) (a : spec) (Ha : sound w a).

(** Operations leave the queue of a set, and [l] stay. *)
Lemma sound_take i x l post aband :
  a_sets a !! i = Some x → a_waits x ≡ₚ l ++ (op_of <$> post) ++ aband → sound w (a_abandon aband (a_post post (a_set_waits i l a))).
Proof using Ha.
  intros Hx Hl. destruct Ha as [H1 H2 H3 H4]. split; try done.
  - intros r Hr Hu. change (a_waits_of (a_set r) (a_set_waits i l a) = []). rewrite waits_take. pose proof (H3 r Hr Hu) as Hw.
    case_decide as Hd; [|done]. destruct Hd as [-> _]. unfold a_waits_of in Hw. rewrite Hx in Hw. simpl in Hw. rewrite Hw in Hl.
    by apply Permutation_nil, app_eq_nil in Hl as [-> _].
  - simpl. rewrite fmap_app. apply (Permutation_app_inv_r l).
    change (waiting (a_abandon aband (a_post post (a_set_waits i l a)))) with (waiting (a_set_waits i l a)).
    pose proof (waiting_take i x l a Hx) as Hw. rewrite Hl in Hw. rewrite H4.
    transitivity ((waiting a ++ l) ++ (op_of <$> a_posted a) ++ a_abandoned a); [solve_Permutation|]. rewrite <- Hw. solve_Permutation.
Qed.

Lemma sound_post i x l post : a_sets a !! i = Some x → a_waits x ≡ₚ l ++ (op_of <$> post) → sound w (a_post post (a_set_waits i l a)).
Proof using Ha.
  intros Hx Hl. replace (a_post post (a_set_waits i l a)) with (a_abandon [] (a_post post (a_set_waits i l a))).
  - apply (sound_take i x); [done|]. by rewrite app_nil_r.
  - unfold a_abandon. simpl. by rewrite app_nil_r.
Qed.
Lemma sound_abandon i : sound w (a_abandon_set a i).
Proof using Ha.
  unfold a_abandon_set, a_waits_of. destruct (a_sets a !! i) as [x|] eqn:Hx; simpl.
  - replace (a_set_waits i [] a) with (a_post [] (a_set_waits i [] a)) by (unfold a_post; simpl; by rewrite app_nil_r). by apply (sound_take i x).
  - replace (a_set_waits i [] a) with a; [unfold a_abandon; rewrite app_nil_r; by destruct a|]. unfold a_set_waits. rewrite alter_id by (intros y; by rewrite Hx).
    by destruct a.
Qed.

(** The count of a signal of a set where nobody waits, or that goes down, changes. *)
Lemma sound_change i n f : (a_waits_of i a = [] ∨ ∀ u, f u ≤ u) → sound w (a_change i n f a).
Proof using Ha.
  intros Hf. destruct Ha as [H1 H2 H3 H4].
  assert (∀ r, (a_set (if decide (is_reg i n r) then ARegistration i n (f (a_undelivered r)) else r),
    a_signal (if decide (is_reg i n r) then ARegistration i n (f (a_undelivered r)) else r)) = (a_set r, a_signal r)) as He.
  { intros r. case_decide as Hd; [|done]. by destruct Hd as [<- <-]. }
  split; try done; simpl.
  - rewrite <- list_fmap_compose. erewrite list_fmap_ext; [exact H1|]. intros k r _. apply He.
  - intros m. rewrite H2, <- list_fmap_compose. f_equiv. apply reflexive_eq, list_fmap_ext. intros k r _. simpl. by injection (He r).
  - intros r' (r & -> & Hr)%list_elem_of_fmap Hu. injection (He r) as -> _. case_decide as Hd; [|by apply H3]. simpl in Hu. destruct Hd as [<- <-].
    destruct Hf as [Hf|Hf]; [done|]. apply H3; [done|]. specialize (Hf (a_undelivered r)). lia.
Qed.
End sound_queues.

Lemma sound_deliver_set w v n a i : sound w a → sound w (a_deliver_set v n a i).
Proof.
  intros Ha. unfold a_deliver_set. destruct (a_waits_of i a) as [|o l] eqn:Ew; [apply sound_change; [done|by left]|].
  unfold a_waits_of in Ew. destruct (a_sets a !! i) as [x|] eqn:Hx; [|done]. simpl in Ew. eapply sound_post; [done..|].
  rewrite Ew, <- list_fmap_compose. simpl. f_equiv. unfold compose. by rewrite list_fmap_id.
Qed.
Lemma sound_foldl {A} (P : spec → A → spec) w a l : (∀ a x, sound w a → sound w (P a x)) → sound w a → sound w (foldl P a l).
Proof. intros HP. revert a. induction l as [|x l IH]; intros a Ha; simpl; auto. Qed.
Lemma sound_deliver w n a : sound w a → sound w (a_deliver n a).
Proof. intros Ha. apply sound_foldl; [|done]. intros b v Hb. apply sound_foldl; [|done]. intros c i Hc. by apply sound_deliver_set. Qed.
Lemma sound_pipe w l a : sound w a → sound w (a_pipe l a).
Proof. intros Ha. apply sound_foldl; [|done]. intros b n Hb. case_decide; [by apply sound_deliver|done]. Qed.
Lemma sound_services w l k a : sound w a → sound w (a_set_services l k a).
Proof. by intros [H1 H2 H3 H4]. Qed.
Lemma sound_shutdown w v a : sound w a → sound w (a_shutdown v a).
Proof.
  intros Ha. apply sound_foldl; [|by apply sound_services]. intros b n Hb. apply sound_foldl; [|done]. intros c i Hc. by apply sound_abandon.
Qed.
Lemma sound_cancel w i a : sound w a → sound w (a_cancel i a).
Proof.
  intros Ha. unfold a_cancel. destruct (a_sets a !! i) as [x|] eqn:Hx; [|done]. eapply sound_post; [done..|].
  rewrite <- list_fmap_compose. unfold compose. simpl. by rewrite list_fmap_id.
Qed.
Lemma sound_cancel_key w i k a : sound w a → sound w (a_cancel_key i k a).
Proof.
  intros Ha. unfold a_cancel_key. destruct (a_sets a !! i) as [x|] eqn:Hx; [|done]. eapply sound_post; [done..|].
  rewrite <- list_fmap_compose. unfold compose. simpl. rewrite list_fmap_id. rewrite Permutation_app_comm. symmetry. apply filter_app_complement.
Qed.

Lemma sound_construct w i v a : a_sets a !! i = None → sound w a → sound w (a_construct i v a).
Proof.
  intros Hi [H1 H2 H3 H4]. split; try done.
  - intros r Hr Hu. pose proof (H3 r Hr Hu) as Hw. unfold a_waits_of in *. simpl. rewrite lookup_insert. by case_decide.
  - rewrite H4. unfold waiting. simpl. by rewrite queued_insert.
Qed.
Lemma sound_remove_set w i x a : a_sets a !! i = Some x → a_waits x = [] → sound w a → sound w (a_remove_set i a).
Proof.
  intros Hi Hx [H1 H2 H3 H4]. split; try done.
  - intros r Hr Hu. pose proof (H3 r Hr Hu) as Hw. unfold a_waits_of in *. simpl. rewrite lookup_delete. by case_decide.
  - rewrite H4. unfold waiting. simpl. by rewrite (queued_delete a_waits _ i x Hi), Hx.
Qed.

(** Only the actions and flags of signals change. *)
Record same_objects a a' : Prop := {
  so_regs : a_regs a' = a_regs a; so_sets : a_sets a' = a_sets a; so_posted : a_posted a' = a_posted a; so_aband : a_abandoned a' = a_abandoned a }.
Lemma install_objects n f sigaction a : same_objects a (a_install n f sigaction a).2.
Proof. unfold a_install. repeat case_decide; by destruct sigaction. Qed.
Lemma restore_objects n sigaction a : same_objects a (a_restore n sigaction a).2.
Proof. unfold a_restore. repeat case_decide; by destruct sigaction. Qed.
Lemma failed_install n f sigaction a e : (a_install n f sigaction a).1 = Some e → (a_install n f sigaction a).2 = a.
Proof. unfold a_install. repeat case_decide; by destruct sigaction. Qed.
Lemma failed_restore n sigaction a e : (a_restore n sigaction a).1 = Some e → (a_restore n sigaction a).2 = a.
Proof. unfold a_restore. repeat case_decide; by destruct sigaction. Qed.

Lemma count_in a n : a_count a n ≠ 0 ↔ n ∈ a_signal <$> a_regs a.
Proof.
  unfold a_count. rewrite list_elem_of_fmap. split.
  - destruct (filter _ (a_regs a)) as [|r l] eqn:Ef; [done|]. intros _.
    assert (r ∈ filter (λ r, a_signal r = n) (a_regs a)) as Hr by (rewrite Ef; apply list_elem_of_here). apply list_elem_of_filter in Hr as [? ?]. eauto.
  - intros (r & -> & Hr) Hz. apply length_zero_iff_nil in Hz. assert (r ∈ filter (λ q, a_signal q = a_signal r) (a_regs a)) as Hin by (by apply list_elem_of_filter).
    rewrite Hz in Hin. by apply not_elem_of_nil in Hin.
Qed.

(** With a registration, the signal has the handler. *)
Lemma install_handled n f sigaction a a' :
  (∀ m, m ∈ a_handled a ↔ m ∈ a_signal <$> a_regs a) → a_install n f sigaction a = (None, a') → ∀ m, m ∈ a_handled a' ↔ m = n ∨ m ∈ a_handled a.
Proof.
  intros Hh Hi m. assert (a_count a n ≠ 0 → n ∈ a_handled a) as Hc by (rewrite Hh; apply count_in). unfold a_install in Hi.
  repeat case_decide; try destruct sigaction; simplify_eq/=; rewrite ?elem_of_union, ?elem_of_singleton; naive_solver.
Qed.

Lemma sound_add w i z f sigaction a : sound w a → sound w (a_add i z f sigaction a).2.
Proof.
  intros Ha. unfold a_add. case_decide; [done|]. cbv zeta. set (n := Z.to_nat z). case_decide as Hn; [done|].
  pose proof (install_objects n f sigaction a) as [O1 O2 O3 O4]. pose proof (failed_install n f sigaction a) as Hfail. destruct Ha as [H1 H2 H3 H4].
  pose proof (install_handled n f sigaction a) as Hin. destruct (a_install n f sigaction a) as [[e|] a1]; simpl in *; [by rewrite (Hfail e)|].
  split; simpl.
  - rewrite O1. constructor; [|done]. intros (r & [= Hi Hs] & Hr)%list_elem_of_fmap. apply Hn, Exists_exists. by exists r.
  - intros m. rewrite (Hin a1 H2 eq_refl), O1, elem_of_cons, H2. done.
  - intros r [->|Hr]%elem_of_cons Hu; [simpl in Hu; lia|]. unfold a_waits_of. simpl. rewrite O2. rewrite O1 in Hr. by apply H3.
  - unfold waiting. simpl. by rewrite O2, O3, O4.
Qed.

(** After a registration of [n] is gone, others have [n] unless it was the only one. *)
Lemma count_others a i n : NoDup ((λ r, (a_set r, a_signal r)) <$> a_regs a) → Exists (is_reg i n) (a_regs a) →
  a_count a n ≠ 1 ↔ n ∈ a_signal <$> filter (λ r, ¬ is_reg i n r) (a_regs a).
Proof.
  intros Hn [r0 [Hr0 [Hi Hs]]]%Exists_exists. unfold a_count. rewrite list_elem_of_fmap. set (l := filter (λ r, a_signal r = n) (a_regs a)).
  assert (∀ r, r ∈ l ↔ a_signal r = n ∧ r ∈ a_regs a) as Hl by (intros r; unfold l; by rewrite list_elem_of_filter).
  assert (NoDup ((λ r, (a_set r, a_signal r)) <$> l)) as Hnl.
  { by eapply sublist_NoDup, fmap_sublist, sublist_filter. }
  assert (r0 ∈ l) as Hin by (by apply Hl). clearbody l. destruct l as [|r1 [|r2 l]]; [by apply not_elem_of_nil in Hin| |].
  - split; [done|]. intros (r & Hr & [Hnot Hrr]%list_elem_of_filter) _. apply list_elem_of_singleton in Hin as ->.
    assert (r ∈ [r1]) as Hr1 by (by apply Hl). apply list_elem_of_singleton in Hr1 as ->. by destruct Hnot.
  - split; [|done]. intros _. destruct (proj1 (Hl r1)) as [S1 R1]; [apply list_elem_of_here|].
    destruct (proj1 (Hl r2)) as [S2 R2]; [right; apply list_elem_of_here|]. destruct (decide (a_set r1 = i)) as [H1|H1].
    + exists r2. split; [done|]. apply list_elem_of_filter. split; [|done]. intros [H2 _]. apply NoDup_cons in Hnl as [Hnl _]. apply Hnl.
      rewrite H1, S1, <- H2, <- S2. apply list_elem_of_here.
    + exists r1. split; [done|]. apply list_elem_of_filter. by split; [intros []|].
Qed.

Lemma sound_drop w i n sigaction a a' :
  sound w a → Exists (is_reg i n) (a_regs a) → a_restore n sigaction a = (None, a') → sound w (a_drop i n a').
Proof.
  intros [H1 H2 H3 H4] He Hr. pose proof (restore_objects n sigaction a) as [O1 O2 O3 O4]. rewrite Hr in *. simpl in *.
  pose proof (count_others a i n H1 He) as Hc. split; simpl; rewrite ?O1.
  - by eapply sublist_NoDup, fmap_sublist, sublist_filter.
  - intros m. assert (m ∈ a_handled a' ↔ m ∈ a_handled a ∧ (m = n → a_count a n ≠ 1)) as ->.
    { unfold a_restore in Hr. repeat case_decide; try destruct sigaction; simplify_eq/=; rewrite ?elem_of_difference, ?elem_of_singleton; naive_solver. }
    rewrite H2. destruct (decide (m = n)) as [->|Hm].
    + rewrite <- Hc. split; [by intros [_ ?]; auto|]. intros Hx. split; [|done]. apply count_in. intros Hz. apply Exists_exists in He as (r & Hin & _ & Hs).
      apply (proj2 (count_in a n)); [|done]. apply list_elem_of_fmap. eauto.
    + rewrite !list_elem_of_fmap. split.
      * intros [(r & -> & Hin) _]. exists r. split; [done|]. apply list_elem_of_filter. split; [|done]. by intros [_ ?].
      * intros (r & -> & [_ Hin]%list_elem_of_filter). split; [by exists r|done].
  - intros r [_ Hin]%list_elem_of_filter Hu. unfold a_waits_of. simpl. rewrite O2. by apply H3.
  - unfold waiting. simpl. by rewrite O2, O3, O4.
Qed.

Lemma sound_remove w i z sigaction a : sound w a → sound w (a_remove i z sigaction a).2.
Proof.
  intros Ha. unfold a_remove. case_decide; [done|]. cbv zeta. set (n := Z.to_nat z). case_decide as Hn; [|done].
  pose proof (failed_restore n sigaction a) as Hfail. pose proof (sound_drop w i n sigaction a) as Hd.
  destruct (a_restore n sigaction a) as [[e|] a1]; simpl in *; [by rewrite (Hfail e)|by apply Hd].
Qed.

Lemma sound_clear_loop w i ns sigaction a :
  NoDup ns → (∀ n, n ∈ ns → Exists (is_reg i n) (a_regs a)) → sound w a → sound w (a_clear_loop i ns sigaction a).2.
Proof.
  revert a. induction ns as [|n ns IH]; intros a Hn He Ha; [done|]. apply NoDup_cons in Hn as [Hn Hns]. cbn [a_clear_loop].
  pose proof (failed_restore n (sigaction n) a) as Hfail. pose proof (sound_drop w i n (sigaction n) a) as Hd. pose proof (a_restore_regs n (sigaction n) a) as Hr.
  destruct (a_restore n (sigaction n) a) as [[e|] a1]; simpl in *; [by rewrite (Hfail e)|].
  apply IH; [done| |apply Hd; [done|apply He, list_elem_of_here|done]]. intros m Hm. simpl. rewrite Hr.
  destruct (proj1 (Exists_exists _ _) (He m (list_elem_of_further _ _ _ Hm))) as (r & Hin & H1 & H2). apply Exists_exists. exists r.
  split; [|done]. apply list_elem_of_filter. split; [|done]. intros [_ Hx]. by rewrite <- Hx, H2 in Hn.
Qed.
Lemma sound_clear w i sigaction a : sound w a → sound w (a_clear i sigaction a).2.
Proof.
  intros Ha. unfold a_clear. apply sound_clear_loop; [..|done]; unfold a_signals_of.
  - rewrite merge_sort_Permutation. pose proof (so_nodup _ _ Ha) as Hn. assert (∀ l : list a_registration, NoDup ((λ r, (a_set r, a_signal r)) <$> l) →
      Forall (λ r, a_set r = i) l → NoDup (a_signal <$> l)) as Hg.
    { induction l as [|r l IH]; intros Hl Hf; [constructor|]. apply NoDup_cons in Hl as [Hl Hl']. apply Forall_cons in Hf as [Hr Hf].
      constructor; [|by apply IH]. intros (r' & Hs & Hin)%list_elem_of_fmap. apply Hl, list_elem_of_fmap. exists r'. split; [|done].
      rewrite Forall_forall in Hf. by rewrite Hs, Hr, (Hf r' Hin). }
    apply Hg; [by eapply sublist_NoDup, fmap_sublist, sublist_filter|]. apply Forall_forall. by intros r [? _]%list_elem_of_filter.
  - intros n. rewrite merge_sort_Permutation, list_elem_of_fmap. intros (r & -> & [Hi Hr]%list_elem_of_filter). apply Exists_exists. by exists r.
Qed.
Lemma sound_destroy w i sigaction a : is_Some (a_sets a !! i) → sound w a → sound w (a_destroy i sigaction a).
Proof.
  intros [x Hx] Ha. unfold a_destroy. set (a1 := (a_clear i sigaction a).2). assert (a_sets a1 !! i = Some x) as H1 by (unfold a1; by rewrite a_clear_sets).
  eapply (sound_remove_set w i (ASignalSet (a_service x) [])); [|done|by apply sound_cancel, sound_clear].
  unfold a_cancel. rewrite H1. simpl. by rewrite lookup_alter_eq, H1.
Qed.

Lemma sound_wait w i o a : is_Some (a_sets a !! i) → sound w a → sound (w ++ [o]) (a_wait i o a).
Proof.
  intros [x Hx] Ha. unfold a_wait. rewrite Hx. destruct (list_find _ _) as [[k n]|] eqn:Ef.
  - destruct (sound_change w a Ha i n pred) as [H1 H2 H3 H4]; [right; lia|]. split; try done. simpl. rewrite fmap_app, H4. simpl. solve_Permutation.
  - destruct Ha as [H1 H2 H3 H4]. apply list_find_None in Ef. rewrite Forall_forall in Ef. split; try done.
    + intros r Hr Hu. rewrite waits_take. case_decide as Hd; [|by apply H3]. destruct Hd as [Hi _]. exfalso. simpl in Hr. apply (Ef (a_signal r)).
      * unfold a_signals_of. rewrite merge_sort_Permutation. apply list_elem_of_fmap. exists r. split; [done|]. by apply list_elem_of_filter.
      * unfold a_pending. assert (r ∈ filter (is_reg i (a_signal r)) (a_regs a)) as (l1 & l2 & ->)%list_elem_of_split by (by apply list_elem_of_filter).
        rewrite fmap_app, fmap_cons, sum_list_with_app. simpl. lia.
    + pose proof (waiting_take i x (a_waits x ++ [o]) a Hx) as Hw. simpl. apply (Permutation_app_inv_r (a_waits x)). rewrite H4.
      transitivity ((waiting a ++ a_waits x ++ [o]) ++ (op_of <$> a_posted a) ++ a_abandoned a); [solve_Permutation|]. rewrite <- Hw. solve_Permutation.
Qed.

(** The operations that a program starts. *)
Definition started (cs : list call) : list signal_op := cs ≫= λ c, match c with Wait _ o => [o] | _ => [] end.

Lemma sound_call w c a : allowed c a → sound w a → sound (w ++ match c with Wait _ o => [o] | _ => [] end) (a_call c a).2.
Proof.
  intros Hc Ha. destruct c; cbn [a_call allowed answered fst snd] in *; rewrite ?app_nil_r.
  - unfold a_add_service. destruct (a_services a), pipe; try done; by apply sound_services.
  - by apply sound_shutdown.
  - destruct Hc. by apply sound_construct.
  - destruct Hc. by apply sound_destroy.
  - by apply sound_add.
  - by apply sound_remove.
  - by apply sound_clear.
  - by apply sound_cancel.
  - by apply sound_cancel_key.
  - by apply sound_wait.
  - by apply sound_pipe.
Qed.
Lemma sound_calls w cs a rs a' : a_calls cs a = Some (rs, a') → sound w a → sound (w ++ started cs) a'.
Proof.
  revert w a rs. induction cs as [|c cs IH]; intros w a rs Hc Ha; simpl in Hc; [simplify_eq; unfold started; simpl; by rewrite app_nil_r|].
  case_decide as Hok; [|done]. destruct (a_calls cs _) as [[rs' a1]|] eqn:Ec; [|done]. simplify_eq/=.
  pose proof (IH _ _ _ Ec (sound_call w c a Hok Ha)) as Hs. unfold started in *. simpl. by rewrite <- app_assoc in Hs.
Qed.
Lemma sound_nothing : sound [] no_spec.
Proof. split; simpl; [constructor|intros n; set_solver|by intros r ?%not_elem_of_nil|done]. Qed.

(** C21: The objects and pointers of signal sets implement registrations without pointers:
    every call of a correct program ends without touching a deleted object and answers as
    the specification says; the completions that were posted, the operations that were
    destroyed, the handlers and flags, the operations that wait in each set and the state
    of the pipe are those of the specification, and there is one object for each
    registration. *)
Theorem signal_sets_refine cs rs a :
  a_calls cs no_spec = Some (rs, a) →
  ∃ s, run_calls cs no_signals = Done rs s ∧ posted s = a_posted a ∧ abandoned s = a_abandoned a ∧ handled s = a_handled a ∧ flags_ s = a_flags a ∧
    view_set <$> sets s = a_sets a ∧ size (regs s) = length (a_regs a) ∧ pipe_open s = bool_decide (a_services a ≠ []).
Proof.
  intros Hc. destruct (run_calls_spec _ _ _ _ _ _ _ no_signals_represents Hc) as (s & L & ch & Hs & [H1 H2 H3 H4 H5 H6 H7 H8 H9]).
  exists s. split_and!; try done; [|apply H2]. simpl in *. by rewrite H3, length_fmap, (shape_size _ _ _ H1).
Qed.

(** C23: Signals are not missed: whatever a correct program did, a signal has the handler of
    asio exactly while some set is registered for it; no operation waits in a set for
    which a signal has come and was not delivered; and each operation that was started is in
    exactly one place: in the queue of a set, posted to a scheduler or destroyed. *)
Theorem no_signal_missed cs rs a :
  a_calls cs no_spec = Some (rs, a) →
  ∃ s, run_calls cs no_signals = Done rs s ∧
    (∀ n, n ∈ handled s ↔ ∃ p r, regs s !! p = Some r ∧ signal_number_ r = n) ∧
    (∀ p r x, regs s !! p = Some r → sets s !! queue_ r = Some x → 0 < undelivered_ r → set_queue x = []) ∧
    started cs ≡ₚ queued set_queue (sets s) ++ (op_of <$> posted s) ++ abandoned s.
Proof.
  intros Hc. destruct (run_calls_spec _ _ _ _ _ _ _ no_signals_represents Hc) as (s & L & ch & Hs & HR).
  pose proof (sound_calls [] cs _ _ _ Hc sound_nothing) as [S1 S2 S3 S4]. pose proof HR as [H1 H2 H3 H4 H5 H6 H7 H8 H9]. simpl in *.
  exists s. split_and!; [done|..].
  - intros n. rewrite <- H7, S2, H3, <- list_fmap_compose, list_elem_of_fmap. split.
    + intros (p & -> & Hp). destruct (reg_at _ _ _ _ H1 Hp) as (r & Hr & Hn & _). by exists p, r.
    + intros (p & r & Hr & Hn). exists p. simpl. unfold observe. rewrite Hr. split; [done|]. apply (sh_dom _ _ _ H1). by rewrite Hr.
  - intros p r x Hr Hx Hu. rewrite <- (a_waits_spec HR _ x Hx). rewrite H3 in S3. specialize (S3 (view s p)). simpl in S3. unfold observe in S3.
    rewrite Hr in S3. apply S3; [|done]. apply list_elem_of_fmap. exists p. split; [done|]. apply (sh_dom _ _ _ H1). by rewrite Hr.
  - rewrite S4, H8, H9. f_equiv. unfold waiting. by rewrite H4, queued_fmap.
Qed.

(** A program: it waits twice for [SIGINT] (2) and [SIGTERM] (15); the first comes before,
    and the signal 99 is none. *)
Definition server_calls : list call :=
  [NewService 0 None; Construct 5 0; Add 5 15 dont_care None; Add 5 2 dont_care None; Add 5 99 dont_care None; PipeRead [2%Z];
   Wait 5 (SignalOp 1 None); Wait 5 (SignalOp 2 (Some 7)); PipeRead [99; 15; 15]%Z; Remove 5 2 None; Wait 5 (SignalOp 3 None);
   Wait 5 (SignalOp 4 (Some 7)); CancelByKey 5 7; Wait 5 (SignalOp 5 None); Destroy 5 (λ _, None); Shutdown 0].
Definition server_answers : list answer :=
  [Ret None; Ret None; Ret None; Ret None; Ret (Some (err_other 22)); Ret None; Ret None; Ret None; Ret None; Ret None; Ret None; Ret None;
   Ret None; Ret None; Ret None; Ret None].
Definition server_spec : spec := match a_calls server_calls no_spec with Some (_, a) => a | None => no_spec end.

Lemma signal_sets_refine_witness :
  ∃ s, run_calls server_calls no_signals = Done server_answers s ∧
    posted s = [(0, (SignalOp 1 None, inl 2)); (0, (SignalOp 2 (Some 7), inl 15)); (0, (SignalOp 3 None, inl 15));
      (0, (SignalOp 4 (Some 7), inr err_aborted)); (0, (SignalOp 5 None, inr err_aborted))] ∧
    handled s = ∅ ∧ size (regs s) = 0 ∧ pipe_open s = false.
Proof.
  destruct (signal_sets_refine server_calls server_answers server_spec) as (s & H1 & H2 & _ & H3 & _ & _ & H4 & H5); [vm_compute; reflexivity|].
  exists s. rewrite H2, H3, H4, H5. split; [exact H1|]. split; [|split; [|split]]; vm_compute; reflexivity.
Defined.

Lemma no_signal_missed_witness :
  ∃ s, run_calls server_calls no_signals = Done server_answers s ∧ (∀ n, n ∈ handled s ↔ ∃ p r, regs s !! p = Some r ∧ signal_number_ r = n) ∧
    [SignalOp 1 None; SignalOp 2 (Some 7); SignalOp 3 None; SignalOp 4 (Some 7); SignalOp 5 None] ≡ₚ
      queued set_queue (sets s) ++ (op_of <$> posted s) ++ abandoned s.
Proof.
  destruct (no_signal_missed server_calls server_answers server_spec) as (s & H1 & H2 & _ & H3); [vm_compute; reflexivity|].
  exists s. split; [exact H1|]. split; [exact H2|exact H3].
Defined.
