(* ===== verification/CallbackAwaiter.v ===== *)
(** * The awaiters of [asio_coro_util.hpp]

    [CallbackAwaiterWithResult] turns an operation of asio that calls a handler into one
    that a coroutine awaits: the operation is started in [await_suspend], and its handler
    stores the result in the awaiter and resumes the coroutine.  The awaiter is in the
    frame of a lazy coroutine ([async_accept], [async_read_some], [async_write], ...),
    which is destroyed when its caller goes on; the handler may run on another thread
    before the one that started the operation has come back from it. *)

From S2P Require Import Prelude Conc.
From stdpp Require Import options.

Section awaiter.
(** [T]: what the handler is given.  [body]: the coroutine that awaits one operation
    after the other; with the results so far, it ends or starts another operation,
    and the start may throw, as [resolver.resolve] does in [async_connect]. *)
Context {T : Type} (body : list (T + exn) → option (option exn)).

(** A frame with its awaiter, whose [result_] may not have been set yet. *)
Inductive frame : Type := suspended (result_ : option T).

(** The handler of an operation: it has not been called, it has been called with a
    value, it has called [set_resume_value]. *)
Inductive handler : Type := outstanding | called (t : T) | value_set.

(** The frames and handlers of the operations by number; the threads that are still in
    the call that started an operation; whether the coroutine runs; the results it
    has seen, and the values that handlers were called with; whether an operation was
    destroyed with its [io_context]. *)
Record world : Type := World {
  frames : gmap nat frame; handlers : gmap nat handler; starting : gset nat; next : nat;
  running : bool; results : list (T + exn); given : list T; dropped : bool }.

Implicit Types (w : world) (k : nat) (t : T).

Definition set_frames f w := World (f (frames w)) (handlers w) (starting w) (next w) (running w) (results w) (given w) (dropped w).
Definition set_handlers f w := World (frames w) (f (handlers w)) (starting w) (next w) (running w) (results w) (given w) (dropped w).
Definition set_starting f w := World (frames w) (handlers w) (f (starting w)) (next w) (running w) (results w) (given w) (dropped w).
Definition set_running b w := World (frames w) (handlers w) (starting w) (next w) b (results w) (given w) (dropped w).
Definition add_result r w := World (frames w) (handlers w) (starting w) (next w) (running w) (results w ++ [r]) (given w) (dropped w).

Definition get_handler k : comp world handler :=
  w ← get_state; match handlers w !! k with Some h => mret h | None => block end.
(** The awaiter is reached by [this] in the closure, and by the handle. *)
Definition get_frame k : comp world (option T) :=
  w ← get_state; match frames w !! k with Some (suspended r) => mret r | None => abort_with use_after_free end.

(** The coroutine calls, for example, [async_read_some] and awaits it: a frame is made
    and suspended, and [await_suspend] calls [callback_function_].  An exception is
    rethrown in the frame and reaches the coroutine; otherwise the operation is
    started, and the thread is on its way back. *)
Definition await_operation : comp world unit :=
  w ← get_state;
  if running w then
    match body (results w) with
    | None => block
    | Some throws =>
        let k := next w in
        modify (λ w, World (<[k := suspended None]> (frames w)) (handlers w) (starting w) (S k) (running w) (results w) (given w) (dropped w));;
        match throws with
        | Some e => modify (set_frames (delete k));; modify (add_result (inr e))
        | None => modify (set_running false);; modify (set_handlers (<[k := outstanding]>));; modify (set_starting ({[k]} ∪.))
        end
    end
  else block.

(** [callback_function_] and [await_suspend] return; nothing of the frame is used. *)
Definition await_suspend_returns k : comp world unit :=
  w ← get_state; if decide (k ∈ starting w) then modify (set_starting (.∖ {[k]})) else block.

(** asio calls the handler. *)
Definition operation_completes k t : comp world unit :=
  h ← get_handler k;
  match h with
  | outstanding =>
      modify (set_handlers (<[k := called t]>));;
      modify (λ w, World (frames w) (handlers w) (starting w) (next w) (running w) (results w) (given w ++ [t]) (dropped w))
  | _ => block
  end.

(** [result_ = std::move(t)] *)
Definition set_resume_value k : comp world unit :=
  h ← get_handler k;
  match h with
  | called t => get_frame k;; modify (set_frames (<[k := suspended (Some t)]>));; modify (set_handlers (<[k := value_set]>))
  | _ => block
  end.

(** [handle.resume()]: [await_resume] moves [result_] out, the frame returns it, and the
    coroutine that awaits it goes on and destroys the frame. *)
Definition resume k : comp world unit :=
  h ← get_handler k;
  match h with
  | value_set =>
      modify (set_handlers (delete k));;
      r ← get_frame k;
      match r with
      | None => abort_with bad_resume
      | Some t => modify (set_frames (delete k));; modify (add_result (inl t));; modify (set_running true)
      end
  | _ => block
  end.

(** The [io_context] is destroyed, and the handler with it. *)
Definition destroy_operation k : comp world unit :=
  h ← get_handler k;
  match h with
  | outstanding =>
      modify (set_handlers (delete k));;
      modify (λ w, World (frames w) (handlers w) (starting w) (next w) (running w) (results w) (given w) true)
  | _ => block
  end.

(** Whatever thread makes the next step. *)
Inductive deed : Type := d_await | d_return (k : nat) | d_complete (k : nat) (t : T) | d_set (k : nat) | d_resume (k : nat) | d_destroy (k : nat).
Definition do_deed (d : deed) : comp world unit :=
  match d with
  | d_await => await_operation
  | d_return k => await_suspend_returns k
  | d_complete k t => operation_completes k t
  | d_set k => set_resume_value k
  | d_resume k => resume k
  | d_destroy k => destroy_operation k
  end.
Definition of_asio (d : deed) : bool := match d with d_complete _ _ | d_destroy _ => true | _ => false end.
Inductive awaiter_step w : world → Prop :=
  | step_deed d w' : do_deed d w = Done tt w' → awaiter_step w w'.
Definition awaiter_init w : Prop := w = World ∅ ∅ ∅ 0 true [] [] false.
Definition awaiter_reachable : world → Prop := reachable awaiter_init awaiter_step.

(** ** Invariant *)

(** The values among the results. *)
Definition values (l : list (T + exn)) : list T := omap (λ r, match r with inl t => Some t | inr _ => None end) l.
Lemma values_app l l' : values (l ++ l') = values l ++ values l'.
Proof. apply omap_app. Qed.

(** What an operation under way is like: its value, if the handler was called, and
    [result_]. *)
Definition under_way (h : handler) (r : option T) (l : list T) : Prop :=
  match h with
  | outstanding => r = None ∧ l = []
  | called t => r = None ∧ l = [t]
  | value_set => ∃ t, r = Some t ∧ l = [t]
  end.

Inductive awaiter_inv w : Prop :=
  | inv_running : running w = true → frames w = ∅ → handlers w = ∅ → given w = values (results w) → dropped w = false → awaiter_inv w
  | inv_suspended k h r l :
      running w = false → frames w = {[k := suspended r]} → handlers w = {[k := h]} → given w = values (results w) ++ l →
      under_way h r l → dropped w = false → awaiter_inv w
  | inv_dropped k r : running w = false → frames w = {[k := suspended r]} → handlers w = ∅ → given w = values (results w) →
      dropped w = true → awaiter_inv w.

Lemma wp_get_handler k (Q : handler → world → Prop) w :
  (∀ h, handlers w !! k = Some h → Q h w) → wp (get_handler k) Q w.
Proof. intros H. apply wp_bind, wp_get. destruct (handlers w !! k) eqn:E; [apply wp_ret; auto|apply wp_block]. Qed.

Lemma wp_get_awaiter k r (Q : option T → world → Prop) w : frames w !! k = Some (suspended r) → Q r w → wp (get_frame k) Q w.
Proof. intros H HQ. apply wp_bind, wp_get. rewrite H. by apply wp_ret. Qed.

(** A step on a handler is one on the handler of the operation that is under way. *)
Lemma handler_under_way w k h :
  awaiter_inv w → handlers w !! k = Some h →
  ∃ r l, running w = false ∧ frames w = {[k := suspended r]} ∧ handlers w = {[k := h]} ∧
    given w = values (results w) ++ l ∧ under_way h r l ∧ dropped w = false.
Proof.
  intros [_ _ Hh _ _|k' h' r l Hr Hf Hh Hg Hu Hd|k' r _ _ Hh _ _]; rewrite Hh; intros Hk; [done| |done].
  apply lookup_singleton_Some in Hk as [<- <-]. by exists r, l.
Qed.

Lemma awaiter_inv_deed d w : awaiter_inv w → wp (do_deed d) (λ _, awaiter_inv) w.
Proof.
  intros Hi. destruct d as [|k|k t|k|k|k]; simpl.
  - apply wp_bind, wp_get. destruct (running w) eqn:Hr; [|apply wp_block]. destruct (body (results w)) as [throws|]; [|apply wp_block].
    destruct Hi as [_ Hf Hh Hg Hd|? ? ? ? Hr'|? ? Hr']; [|by rewrite Hr in Hr'..]. cbv zeta. apply wp_bind, wp_modify. destruct throws as [e|].
    + apply wp_bind, wp_modify, wp_modify. apply inv_running; simpl; rewrite ?Hf; try done; [apply delete_insert_id, lookup_empty|].
      by rewrite values_app, app_nil_r.
    + do 2 apply wp_bind, wp_modify. apply wp_modify. apply (inv_suspended _ (next w) outstanding None []); simpl; rewrite ?Hf, ?Hh, ?app_nil_r; done.
  - apply wp_bind, wp_get. case_decide; [apply wp_modify|apply wp_block].
    destruct Hi as [| |]; [apply inv_running|eapply inv_suspended|eapply inv_dropped]; done.
  - apply wp_bind, wp_get_handler. intros h Hh. destruct (handler_under_way _ _ _ Hi Hh) as (r & l & Hr & Hf & Hh' & Hg & Hu & Hd).
    destruct h; [|apply wp_block..]. destruct Hu as [-> ->]. apply wp_bind, wp_modify, wp_modify.
    apply (inv_suspended _ k (called t) None [t]); simpl; try done; [by rewrite Hh', insert_singleton_eq|by rewrite Hg, app_nil_r].
  - apply wp_bind, wp_get_handler. intros h Hh. destruct (handler_under_way _ _ _ Hi Hh) as (r & l & Hr & Hf & Hh' & Hg & Hu & Hd).
    destruct h as [|t|]; [apply wp_block| |apply wp_block]. destruct Hu as [-> ->].
    apply wp_bind, (wp_get_awaiter k None); [rewrite Hf; apply lookup_singleton_eq|]. apply wp_bind, wp_modify, wp_modify.
    apply (inv_suspended _ k value_set (Some t) [t]); simpl; try done; [by rewrite Hf, insert_singleton_eq|by rewrite Hh', insert_singleton_eq|by exists t].
  - apply wp_bind, wp_get_handler. intros h Hh. destruct (handler_under_way _ _ _ Hi Hh) as (r & l & Hr & Hf & Hh' & Hg & Hu & Hd).
    destruct h as [|t|]; [apply wp_block..|]. destruct Hu as (t & -> & ->).
    apply wp_bind, wp_modify, wp_bind, (wp_get_awaiter k (Some t)); [simpl; rewrite Hf; apply lookup_singleton_eq|].
    do 2 apply wp_bind, wp_modify. apply wp_modify. apply inv_running; simpl; try done;
      [by rewrite Hf, delete_singleton_eq|by rewrite Hh', delete_singleton_eq|by rewrite values_app, Hg].
  - apply wp_bind, wp_get_handler. intros h Hh. destruct (handler_under_way _ _ _ Hi Hh) as (r & l & Hr & Hf & Hh' & Hg & Hu & Hd).
    destruct h; [|apply wp_block..]. destruct Hu as [-> ->]. apply wp_bind, wp_modify, wp_modify.
    apply (inv_dropped _ k None); simpl; try done; [by rewrite Hh', delete_singleton_eq|by rewrite Hg, app_nil_r].
Qed.

Lemma reachable_awaiter_inv w : awaiter_reachable w → awaiter_inv w.
Proof.
  apply reachable_inv; [intros ? ->; by apply inv_running|]. intros w1 w2 Hi [d w' Hd]. exact (wp_done _ _ _ _ _ (awaiter_inv_deed d w1 Hi) Hd).
Qed.

(** C19: In every interleaving of the threads that start operations with those that call
    handlers, a coroutine that awaits asio never touches a frame that is gone, resumes
    no coroutine that is not suspended, and moves out no result that was not set.  The
    coroutine sees the values that asio has given to the handlers, in order and each
    once; and when no thread can go on before asio does something, then the coroutine
    has ended and no frame is left, or an operation is with asio, or it was destroyed
    with its [io_context], which leaves the coroutine suspended for ever. *)
Theorem callback_awaiter_correct w :
  awaiter_reachable w →
  (∀ d f, do_deed d w ≠ Fault f) ∧
  (∃ l, given w = values (results w) ++ l ∧ length l ≤ 1) ∧
  ((∀ d, of_asio d = false → do_deed d w = Block) →
     dropped w = true ∨ (∃ k, handlers w = {[k := outstanding]}) ∨
     body (results w) = None ∧ running w = true ∧ given w = values (results w) ∧ frames w = ∅ ∧ handlers w = ∅ ∧ starting w = ∅).
Proof.
  intros Hw%reachable_awaiter_inv. split; [|split].
  - intros d f. exact (wp_no_fault _ _ _ f (awaiter_inv_deed d w Hw)).
  - destruct Hw as [_ _ _ -> _|k h r l _ _ _ -> Hu _|k r _ _ _ -> _]; [exists []|exists l|exists []]; rewrite ?app_nil_r; split; simpl; try lia; try done.
    destruct h; simpl in Hu; [destruct Hu as [_ ->]|destruct Hu as [_ ->]|destruct Hu as (t & _ & ->)]; simpl; lia.
  - intros Hb. destruct Hw as [Hr Hf Hh Hg Hd|k h r l Hr Hf Hh Hg Hu Hd|]; [do 2 right| |by left].
    + pose proof (Hb d_await eq_refl) as Ha. simpl in Ha. unfold await_operation in Ha. rewrite get_state_bind, Hr in Ha.
      destruct (body (results w)) as [[e|]|]; [done..|]. split_and!; try done. apply set_eq. intros k. split; [|set_solver]. intros Hk.
      pose proof (Hb (d_return k) eq_refl) as Hb'. simpl in Hb'. unfold await_suspend_returns in Hb'. rewrite get_state_bind, decide_True in Hb' by done. done.
    + assert (get_handler k w = Done h w) as Hg' by (unfold get_handler; rewrite get_state_bind, Hh, lookup_singleton_eq; done).
      destruct h as [|t|]; simpl in Hu.
      * right. left. by exists k.
      * pose proof (Hb (d_set k) eq_refl) as Hb'. simpl in Hb'. unfold set_resume_value in Hb'. rewrite (comp_bind_done _ _ _ _ _ Hg') in Hb'.
        unfold get_frame, mbind, comp_bind, get_state in Hb'. by rewrite Hf, lookup_singleton_eq in Hb'.
      * destruct Hu as (t & -> & _). pose proof (Hb (d_resume k) eq_refl) as Hb'. simpl in Hb'. unfold resume in Hb'. rewrite (comp_bind_done _ _ _ _ _ Hg') in Hb'.
        unfold get_frame, mbind, comp_bind, get_state, modify in Hb'. simpl in Hb'. by rewrite Hf, lookup_singleton_eq in Hb'.
Qed.
End awaiter.

(** ** A session that reads once, and then fails to connect *)

Definition read_then_connect (l : list (nat + exn)) : option (option exn) :=
  match l with [] => Some None | [_] => Some (Some (system_error 1)) | _ => None end.
(** The handler runs while the thread that has started the read is still on its way back. *)
Definition a_session : list deed := [d_await; d_complete 0 42; d_set 0; d_resume 0; d_await; d_return 0].
Definition after_session : world := World ∅ ∅ ∅ 2 true [inl 42; inr (system_error 1)] [42] false.

Lemma callback_awaiter_correct_witness :
  run_deeds (do_deed read_then_connect) a_session (World ∅ ∅ ∅ 0 true [] [] false) = Some after_session ∧
  ∃ l, given after_session = values (results after_session) ++ l ∧ length l ≤ 1.
Proof.
  split; [vm_compute; reflexivity|].
  refine (proj1 (proj2 (callback_awaiter_correct read_then_connect after_session _))).
  eapply (run_deeds_reachable _ _ (do_deed read_then_connect) a_session); [by econstructor|apply reachable_init; reflexivity|vm_compute; reflexivity].
Defined.
