(* ===== verification/HttpRequest.v ===== *)
(** * [http_request.hpp]: requests and their parser

    The parser is fed one character at a time and fills in a [request].  Next to
    it stands the grammar it is meant to accept, with header lines that are
    folded over several lines; the parser accepts exactly that grammar. *)

From S2P Require Import Prelude Conc Text.
From Stdlib Require Import Ascii.
From stdpp Require Import options.

Record header : Type := Header { h_name : text; h_value : text }.

Record request : Type := Request {
  r_method : text;
  r_uri : text;
  http_version_major : Z;
  http_version_minor : Z;
  r_headers : list header }.

Inductive result_type : Type := good | bad | indeterminate.

Inductive state : Type :=
| method_start | method | uri
| http_version_h | http_version_t_1 | http_version_t_2 | http_version_p | http_version_slash
| version_major_start | version_major | version_minor_start | version_minor
| expecting_newline_1 | header_line_start | header_lws | header_name
| space_before_header_value | header_value | expecting_newline_2 | expecting_newline_3.

Record parser : Type := Parser { state_ : state; req : request }.

(** [request_ = {}] and a parser that was reset. *)
Definition empty_request : request := Request [] [] 0 0 [].
Definition new_parser : parser := Parser method_start empty_request.

(** ** Characters *)

Definition is_char (c : ascii) : bool := let z := char_val c in ((0 <=? z) && (z <=? 127))%Z.
Definition is_ctl (c : ascii) : bool := let z := char_val c in (((0 <=? z) && (z <=? 31)) || (z =? 127))%Z.
(** The separators of RFC 2616 by their codes: parentheses, angle and square
    brackets, braces, at sign, comma, semicolon, colon, backslash, double quote,
    slash, question mark, equals sign, space and tab. *)
Definition is_tspecial (c : ascii) : bool :=
  bool_decide (char_val c ∈ [40; 41; 60; 62; 64; 44; 59; 58; 92; 34; 47; 91; 93; 63; 61; 123; 125; 32; 9]%Z).

(** [!is_char(input) || is_ctl(input) || is_tspecial(input)] is what is refused in
    names. *)
Definition refused (c : ascii) : bool := negb (is_char c) || is_ctl c || is_tspecial c.

(** ** Updates of the request *)

Definition set_state (st : state) : comp parser unit := modify (λ p, Parser st (req p)).
Definition set_request (f : request → request) : comp parser unit := modify (λ p, Parser (state_ p) (f (req p))).

Definition push_method (c : ascii) : comp parser unit :=
  set_request (λ r, Request (r_method r ++ [c]) (r_uri r) (http_version_major r) (http_version_minor r) (r_headers r)).
Definition push_uri (c : ascii) : comp parser unit :=
  set_request (λ r, Request (r_method r) (r_uri r ++ [c]) (http_version_major r) (http_version_minor r) (r_headers r)).
Definition set_version (major minor : Z) : comp parser unit :=
  set_request (λ r, Request (r_method r) (r_uri r) major minor (r_headers r)).
Definition set_headers (hs : list header) : comp parser unit :=
  set_request (λ r, Request (r_method r) (r_uri r) (http_version_major r) (http_version_minor r) hs).

Definition new_header (c : ascii) : comp parser unit :=
  p ← get_state; set_headers (r_headers (req p) ++ [Header [c] []]).

(** [req.headers.back()] needs a header. *)
Definition on_last_header (f : header → header) : comp parser unit :=
  p ← get_state;
  match last (r_headers (req p)) with
  | Some h => set_headers (removelast (r_headers (req p)) ++ [f h])
  | None => abort_with null_deref
  end.
Definition push_name (c : ascii) : comp parser unit := on_last_header (λ h, Header (h_name h ++ [c]) (h_value h)).
Definition push_value (c : ascii) : comp parser unit := on_last_header (λ h, Header (h_name h) (h_value h ++ [c])).

(** [v * 10 + input - '0'] in [int], evaluated from the left. *)
Definition INT_MAX : Z := 2147483647.
Definition int_step (v : Z) (c : ascii) : option Z :=
  if bool_decide (v * 10 + char_val c ≤ INT_MAX)%Z then Some (v * 10 + char_val c - 48)%Z else None.

Definition push_major (c : ascii) : comp parser unit :=
  p ← get_state;
  match int_step (http_version_major (req p)) c with
  | Some v => set_version v (http_version_minor (req p))
  | None => abort_with signed_overflow
  end.
Definition push_minor (c : ascii) : comp parser unit :=
  p ← get_state;
  match int_step (http_version_minor (req p)) c with
  | Some v => set_version (http_version_major (req p)) v
  | None => abort_with signed_overflow
  end.

(** ** The parser *)

Definition goto (st : state) : comp parser result_type := set_state st;; mret indeterminate.

(** One of the literal characters of the version. *)
Definition expect (input c : ascii) (st : state) : comp parser result_type :=
  if decide (input = c) then goto st else mret bad.

Definition consume (input : ascii) : comp parser result_type :=
  p ← get_state;
  match state_ p with
  | method_start =>
      if refused input then mret bad else set_state method;; push_method input;; mret indeterminate
  | method =>
      if decide (input = SP) then goto uri
      else if refused input then mret bad
      else push_method input;; mret indeterminate
  | uri =>
      if decide (input = SP) then goto http_version_h
      else if is_ctl input then mret bad
      else push_uri input;; mret indeterminate
  | http_version_h => expect input "H"%char http_version_t_1
  | http_version_t_1 => expect input "T"%char http_version_t_2
  | http_version_t_2 => expect input "T"%char http_version_p
  | http_version_p => expect input "P"%char http_version_slash
  | http_version_slash =>
      if decide (input = "/"%char) then set_version 0 0;; goto version_major_start else mret bad
  | version_major_start =>
      if isdigit input then push_major input;; goto version_major else mret bad
  | version_major =>
      if decide (input = "."%char) then goto version_minor_start
      else if isdigit input then push_major input;; mret indeterminate
      else mret bad
  | version_minor_start =>
      if isdigit input then push_minor input;; goto version_minor else mret bad
  | version_minor =>
      if decide (input = CR) then goto expecting_newline_1
      else if isdigit input then push_minor input;; mret indeterminate
      else mret bad
  | expecting_newline_1 => expect input LF header_line_start
  | header_line_start =>
      if decide (input = CR) then goto expecting_newline_3
      else if negb (bool_decide (r_headers (req p) = [])) && bool_decide (input = SP ∨ input = HT) then goto header_lws
      else if refused input then mret bad
      else new_header input;; goto header_name
  | header_lws =>
      if decide (input = CR) then goto expecting_newline_2
      else if decide (input = SP ∨ input = HT) then mret indeterminate
      else if is_ctl input then mret bad
      else set_state header_value;; push_value input;; mret indeterminate
  | header_name =>
      if decide (input = ":"%char) then goto space_before_header_value
      else if refused input then mret bad
      else push_name input;; mret indeterminate
  | space_before_header_value => expect input SP header_value
  | header_value =>
      if decide (input = CR) then goto expecting_newline_2
      else if is_ctl input then mret bad
      else push_value input;; mret indeterminate
  | expecting_newline_2 => expect input LF header_line_start
  | expecting_newline_3 => mret (if decide (input = LF) then good else bad)
  end.

(** [parse]: the rest of the input is what the returned iterator points to. *)
Fixpoint parse (input : text) : comp parser (result_type * text) :=
  match input with
  | [] => mret (indeterminate, [])
  | c :: input =>
      r ← consume c;
      match r with
      | indeterminate => parse input
      | r => mret (r, input)
      end
  end.

(** ** The grammar *)

Definition token (c : ascii) : Prop := refused c = false.
Definition value_char (c : ascii) : Prop := is_ctl c = false.
Definition uri_char (c : ascii) : Prop := is_ctl c = false ∧ c ≠ SP.
Definition blank (c : ascii) : Prop := c = SP ∨ c = HT.

(** A header: its name, what follows on the same line, and its continuation lines,
    each with the white space it begins with. *)
Record raw_header : Type := RawHeader {
  rh_name : text;
  rh_first : text;
  rh_folds : list (text * text) }.

Record raw_request : Type := RawRequest {
  q_method : text;
  q_uri : text;
  q_major : text;
  q_minor : text;
  q_headers : list raw_header }.

Definition print_fold (f : text * text) : text := CRLF ++ f.1 ++ f.2.
(** A header without its last line end. *)
Definition print_open (h : raw_header) : text :=
  rh_name h ++ ":"%char :: SP :: rh_first h ++ concat (print_fold <$> rh_folds h).
Definition print_header (h : raw_header) : text := print_open h ++ CRLF.

Definition print_version (d1 d2 : text) : text := lit "HTTP/" ++ d1 ++ "."%char :: d2.
Definition print_line (q : raw_request) : text :=
  q_method q ++ SP :: q_uri q ++ SP :: print_version (q_major q) (q_minor q) ++ CRLF.
Definition print_headers (hs : list raw_header) : text := concat (print_header <$> hs).
Definition print_request (q : raw_request) : text := print_line q ++ print_headers (q_headers q) ++ CRLF.

(** The value of a version number, when it fits in an [int]. *)
Definition int_digits (ds : text) : option Z := foldl (λ o c, v ← o; int_step v c) (Some 0%Z) ds.

Definition numeral_ok (ds : text) : Prop := ds ≠ [] ∧ Forall (λ c, isdigit c = true) ds ∧ is_Some (int_digits ds).
Definition fold_ok (f : text * text) : Prop :=
  f.1 ≠ [] ∧ Forall blank f.1 ∧ Forall value_char f.2 ∧ head f.2 ≠ Some SP.
Definition name_ok (n : text) : Prop := n ≠ [] ∧ Forall token n.
Record raw_header_ok (h : raw_header) : Prop := RawHeaderOk {
  rho_name : name_ok (rh_name h);
  rho_first : Forall value_char (rh_first h);
  rho_folds : Forall fold_ok (rh_folds h) }.
Record raw_request_ok (q : raw_request) : Prop := RawRequestOk {
  rqo_method : name_ok (q_method q);
  rqo_uri : Forall uri_char (q_uri q);
  rqo_major : numeral_ok (q_major q);
  rqo_minor : numeral_ok (q_minor q);
  rqo_headers : Forall raw_header_ok (q_headers q) }.

(** What the parser makes of it: continuation lines are joined. *)
Definition cook_header (h : raw_header) : header := Header (rh_name h) (rh_first h ++ concat (snd <$> rh_folds h)).
Definition cook (q : raw_request) : request :=
  Request (q_method q) (q_uri q) (default 0%Z (int_digits (q_major q))) (default 0%Z (int_digits (q_minor q)))
    (cook_header <$> q_headers q).

#[global] Instance token_dec c : Decision (token c).
Proof. unfold token. apply _. Defined.
#[global] Instance value_char_dec c : Decision (value_char c).
Proof. unfold value_char. apply _. Defined.
#[global] Instance uri_char_dec c : Decision (uri_char c).
Proof. unfold uri_char. apply _. Defined.

(** ** What has been read *)

(** Ten digits in a row, which may overflow the version number. *)
Definition long_numeral (inp : text) : Prop :=
  ∃ k ds, inp = k ++ ds ∧ Forall (λ c, isdigit c = true) ds ∧ 10 ≤ length ds.

Definition open_request (q : raw_request) : text := print_line q ++ print_headers (q_headers q).
(** The text may go on: the last line is not one of white space only. *)
Definition extensible (h : raw_header) : Prop := ∀ fs f, rh_folds h = fs ++ [f] → f.2 ≠ [].

Definition with_header (r : request) (h : header) : request :=
  Request (r_method r) (r_uri r) (http_version_major r) (http_version_minor r) (r_headers r ++ [h]).

Definition line_prefix (st : state) : text :=
  match st with
  | http_version_t_1 => lit "H"
  | http_version_t_2 => lit "HT"
  | http_version_p => lit "HTT"
  | http_version_slash => lit "HTTP"
  | version_major_start => lit "HTTP/"
  | _ => []
  end.

(** The input that brings a new parser to [p]. *)
Definition reads (p : parser) (inp : text) : Prop :=
  match state_ p with
  | method_start => inp = [] ∧ req p = empty_request
  | method => name_ok inp ∧ req p = Request inp [] 0 0 []
  | uri => ∃ m u, inp = m ++ SP :: u ∧ name_ok m ∧ Forall uri_char u ∧ req p = Request m u 0 0 []
  | (http_version_h | http_version_t_1 | http_version_t_2 | http_version_p | http_version_slash | version_major_start) as st =>
      ∃ m u, inp = m ++ SP :: u ++ SP :: line_prefix st ∧ name_ok m ∧ Forall uri_char u ∧ req p = Request m u 0 0 []
  | version_major =>
      ∃ m u d v, inp = m ++ SP :: u ++ SP :: lit "HTTP/" ++ d ∧ name_ok m ∧ Forall uri_char u ∧
        numeral_ok d ∧ int_digits d = Some v ∧ req p = Request m u v 0 []
  | version_minor_start =>
      ∃ m u d v, inp = m ++ SP :: u ++ SP :: lit "HTTP/" ++ d ++ ["."%char] ∧ name_ok m ∧ Forall uri_char u ∧
        numeral_ok d ∧ int_digits d = Some v ∧ req p = Request m u v 0 []
  | version_minor =>
      ∃ q, inp = q_method q ++ SP :: q_uri q ++ SP :: print_version (q_major q) (q_minor q) ∧
        raw_request_ok q ∧ q_headers q = [] ∧ req p = cook q
  | expecting_newline_1 =>
      ∃ q, inp ++ [LF] = print_line q ∧ raw_request_ok q ∧ q_headers q = [] ∧ req p = cook q
  | header_line_start => ∃ q, inp = open_request q ∧ raw_request_ok q ∧ req p = cook q
  | header_name =>
      ∃ q n, inp = open_request q ++ n ∧ raw_request_ok q ∧ name_ok n ∧ req p = with_header (cook q) (Header n [])
  | space_before_header_value =>
      ∃ q n, inp = open_request q ++ n ++ [":"%char] ∧ raw_request_ok q ∧ name_ok n ∧ req p = with_header (cook q) (Header n [])
  | header_value =>
      ∃ q h, inp = open_request q ++ print_open h ∧ raw_request_ok q ∧ raw_header_ok h ∧ extensible h ∧
        req p = with_header (cook q) (cook_header h)
  | expecting_newline_2 =>
      ∃ q h, inp = open_request q ++ print_open h ++ [CR] ∧ raw_request_ok q ∧ raw_header_ok h ∧
        req p = with_header (cook q) (cook_header h)
  | header_lws =>
      ∃ q h ws, inp = open_request q ++ print_open h ++ CRLF ++ ws ∧ raw_request_ok q ∧ raw_header_ok h ∧
        ws ≠ [] ∧ Forall blank ws ∧ req p = with_header (cook q) (cook_header h)
  | expecting_newline_3 => ∃ q, inp = open_request q ++ [CR] ∧ raw_request_ok q ∧ req p = cook q
  end.

(** What a step of the parser keeps. *)
Definition step_ok (inp : text) (a : access parser result_type) : Prop :=
  match a with
  | Done indeterminate p => reads p inp
  | Done good p => ∃ q, inp = print_request q ∧ raw_request_ok q ∧ req p = cook q
  | Done bad _ => True
  | Block => False
  | Fault f => f = signed_overflow ∧ long_numeral inp
  end.

(** ** The parser reads what the grammar says *)

Lemma int_digits_snoc d c : int_digits (d ++ [c]) = v ← int_digits d; int_step v c.
Proof. unfold int_digits. by rewrite foldl_app. Qed.

Lemma isdigit_range c : isdigit c = true → (48 ≤ char_val c ≤ 57)%Z.
Proof. unfold isdigit. lia. Qed.

Lemma int_digits_bound d v :
  Forall (λ c, isdigit c = true) d → int_digits d = Some v → (0 ≤ v < 10 ^ Z.of_nat (length d))%Z.
Proof.
  revert v. induction d as [|c d IH] using rev_ind; intros v Hd; [intros [= <-]; done|].
  apply Forall_app in Hd as [Hd [Hc%isdigit_range _]%Forall_cons]. rewrite int_digits_snoc.
  destruct (int_digits d) as [w|]; [|done]. simpl. unfold int_step. case_bool_decide; [|done]. intros [= <-].
  specialize (IH w Hd eq_refl). rewrite length_app. simpl. rewrite Nat.add_1_r, Nat2Z.inj_succ, Z.pow_succ_r by lia. lia.
Qed.

Lemma int_step_overflow d v c :
  Forall (λ c, isdigit c = true) d → int_digits d = Some v → isdigit c = true → int_step v c = None → 9 ≤ length d.
Proof.
  intros Hd Hv Hc%isdigit_range Hn. pose proof (int_digits_bound d v Hd Hv) as Hb. unfold int_step in Hn.
  assert (INT_MAX < v * 10 + char_val c)%Z by (case_bool_decide; [done|lia]).
  clear Hn. unfold INT_MAX in *. destruct (decide (9 ≤ length d)); [done|exfalso].
  assert (10 ^ Z.of_nat (length d) ≤ 10 ^ 8)%Z by (apply Z.pow_le_mono_r; lia).
  assert (10 ^ 8 = 100000000)%Z as E by (vm_compute; reflexivity). rewrite E in *. clear E. lia.
Qed.

Lemma int_step_long d v c k :
  Forall (λ c, isdigit c = true) d → int_digits d = Some v → isdigit c = true → int_step v c = None →
  long_numeral (k ++ d ++ [c]).
Proof.
  intros Hd Hv Hc Hn. exists k, (d ++ [c]). split; [done|]. split; [by apply forall_snoc|].
  pose proof (int_step_overflow d v c Hd Hv Hc Hn). rewrite length_app. simpl. lia.
Qed.

Lemma numeral_snoc d v c v' :
  Forall (λ c, isdigit c = true) d → int_digits d = Some v → isdigit c = true → int_step v c = Some v' →
  numeral_ok (d ++ [c]) ∧ int_digits (d ++ [c]) = Some v'.
Proof.
  intros Hd Hv Hc Hs. assert (int_digits (d ++ [c]) = Some v') as He by (rewrite int_digits_snoc, Hv; done).
  split; [|done]. split_and!; [by destruct d|by apply forall_snoc|by rewrite He].
Qed.

#[global] Arguments refused : simpl never.
#[global] Arguments is_ctl : simpl never.
#[global] Arguments int_step : simpl never.

(** Equations between concatenations. *)
Ltac app_eq := simpl; repeat (rewrite <- !app_assoc; simpl); reflexivity.

(** Evaluates [consume] in a state that is known. *)
Ltac run_consume :=
  unfold consume, expect, goto, set_version, set_headers, set_request, set_state, push_method, push_uri, mbind, comp_bind,
    get_state, modify; simpl; unfold mret, comp_ret; simpl.

Lemma consume_method_ok p inp c :
  (state_ p = method_start ∨ state_ p = method ∨ state_ p = uri) → reads p inp → step_ok (inp ++ [c]) (consume c p).
Proof.
  destruct p as [st r]. simpl. intros [->|[-> | ->]]; unfold reads; simpl.
  - intros [-> ->]. run_consume. destruct (refused c) eqn:E; [done|]. simpl. split; [|done]. split; [done|]. by repeat constructor.
  - intros [[H1 H2] ->]. run_consume. case_decide as Hc; [|destruct (refused c) eqn:E; [done|]]; simpl.
    + subst c. exists inp, []. by split_and!.
    + split; [|done]. split; [by destruct inp|]. by apply forall_snoc.
  - intros (m & u & -> & Hm & Hu & ->). run_consume. case_decide as Hc; [|destruct (is_ctl c) eqn:E; [done|]]; simpl.
    + subst c. exists m, u. split_and!; [|done..]. simpl. by rewrite <- app_assoc.
    + exists m, (u ++ [c]). split_and!; [by rewrite <- app_assoc|done| |done]. by apply forall_snoc.
Qed.

Lemma consume_version_ok p inp c :
  (state_ p = http_version_h ∨ state_ p = http_version_t_1 ∨ state_ p = http_version_t_2 ∨ state_ p = http_version_p ∨
   state_ p = http_version_slash) → reads p inp → step_ok (inp ++ [c]) (consume c p).
Proof.
  destruct p as [st r]. simpl. intros Hst Hr.
  assert (∃ m u, inp = m ++ SP :: u ++ SP :: line_prefix st ∧ name_ok m ∧ Forall uri_char u ∧ r = Request m u 0 0 [])
    as (m & u & -> & Hm & Hu & ->) by (unfold reads in Hr; simpl in Hr; by destruct_or! Hst; subst st).
  destruct_or! Hst; subst st; run_consume; (case_decide as Hc; [subst c|done]); simpl; exists m, u;
    (split_and!; [|done..]); app_eq.
Qed.

Lemma consume_number_ok p inp c :
  (state_ p = version_major_start ∨ state_ p = version_major ∨ state_ p = version_minor_start ∨ state_ p = version_minor) →
  reads p inp → step_ok (inp ++ [c]) (consume c p).
Proof.
  destruct p as [st r]. simpl. intros [->|[-> |[-> | ->]]]; unfold reads; simpl.
  - intros (m & u & -> & Hm & Hu & ->). run_consume. destruct (isdigit c) eqn:E; [|done]. unfold push_major, mbind, comp_bind; simpl.
    destruct (int_step 0 c) as [v|] eqn:Hs; simpl.
    + destruct (numeral_snoc [] 0 c v) as [H1 H2]; [done..|]. exists m, u, [c], v. split_and!; [|done..].
      app_eq.
    + split; [done|]. replace (_ ++ [c]) with ((m ++ SP :: u ++ SP :: lit "HTTP/") ++ [] ++ [c]) by done.
      by apply (int_step_long [] 0).
  - intros (m & u & d & v & -> & Hm & Hu & Hd & Hv & ->). run_consume. case_decide as Hc.
    { subst c. simpl. exists m, u, d, v. split_and!; [|done..]. app_eq. }
    destruct (isdigit c) eqn:E; [|done]. unfold push_major, mbind, comp_bind; simpl. destruct Hd as (_ & Hd & _).
    destruct (int_step v c) as [v'|] eqn:Hs; simpl.
    + destruct (numeral_snoc d v c v') as [H1 H2]; [done..|]. exists m, u, (d ++ [c]), v'. split_and!; [|done..].
      app_eq.
    + split; [done|]. replace (_ ++ [c]) with ((m ++ SP :: u ++ SP :: lit "HTTP/") ++ d ++ [c]); [by apply (int_step_long d v)|].
      app_eq.
  - intros (m & u & d & v & -> & Hm & Hu & Hd & Hv & ->). run_consume. destruct (isdigit c) eqn:E; [|done].
    unfold push_minor, mbind, comp_bind; simpl. destruct (int_step 0 c) as [w|] eqn:Hs; simpl.
    + destruct (numeral_snoc [] 0 c w) as [H1 H2]; [done..|]. exists (RawRequest m u d [c] []). simpl. split_and!.
      * unfold print_version. app_eq.
      * by split; simpl.
      * done.
      * unfold cook. simpl. rewrite Hv. rewrite app_nil_l in H2. by rewrite H2.
    + split; [done|]. replace (_ ++ [c]) with ((m ++ SP :: u ++ SP :: lit "HTTP/" ++ d ++ ["."%char]) ++ [] ++ [c]) by done.
      by apply (int_step_long [] 0).
  - intros ([m u d e hs] & -> & Hq & Hh & ->). simpl in *. subst hs. destruct Hq as [Hm Hu Hd He _]; simpl in *. run_consume.
    case_decide as Hc.
    { subst c. simpl. exists (RawRequest m u d e []). split_and!; [|by split|done|done].
      unfold print_line, print_version. app_eq. }
    destruct (isdigit c) eqn:E; [|done]. unfold push_minor, mbind, comp_bind; simpl. destruct He as (_ & He & [w Hw]).
    rewrite Hw. simpl. destruct (int_step w c) as [w'|] eqn:Hs; simpl.
    + destruct (numeral_snoc e w c w') as [H1 H2]; [done..|]. exists (RawRequest m u d (e ++ [c]) []). split_and!; [|by split|done|].
      * unfold print_version. app_eq.
      * unfold cook. simpl. by rewrite H2.
    + split; [done|]. unfold print_version. replace (_ ++ [c]) with ((m ++ SP :: u ++ SP :: lit "HTTP/" ++ d ++ ["."%char]) ++ e ++ [c]).
      { by apply (int_step_long e w). }
      app_eq.
Qed.

Definition add_header (q : raw_request) (h : raw_header) : raw_request :=
  RawRequest (q_method q) (q_uri q) (q_major q) (q_minor q) (q_headers q ++ [h]).

Lemma cook_add q h : cook (add_header q h) = with_header (cook q) (cook_header h).
Proof. unfold cook, with_header. simpl. by rewrite fmap_app. Qed.
Lemma open_add q h : open_request (add_header q h) = open_request q ++ print_open h ++ CRLF.
Proof.
  unfold open_request, print_headers, print_line. simpl. rewrite fmap_app, concat_app. simpl. rewrite app_nil_r.
  by rewrite <- !app_assoc.
Qed.
Lemma add_ok q h : raw_request_ok q → raw_header_ok h → raw_request_ok (add_header q h).
Proof. intros [] Hh. split; simpl; [done..|]. by apply forall_snoc. Qed.
Lemma last_header q : raw_request_ok q → q_headers q ≠ [] → ∃ q' h, q = add_header q' h ∧ raw_request_ok q' ∧ raw_header_ok h.
Proof.
  destruct q as [m u d e hs]. simpl. intros [H1 H2 H3 H4 H5] Hn. simpl in *. destruct hs as [|h hs _] using rev_ind; [done|].
  apply Forall_app in H5 as [H5 [Hh _]%Forall_cons]. by exists (RawRequest m u d e hs), h.
Qed.

Lemma on_last_header_done f st r h :
  on_last_header f (Parser st (with_header r h)) = Done tt (Parser st (with_header r (f h))).
Proof.
  unfold on_last_header, mbind, comp_bind, get_state. simpl. rewrite last_snoc. unfold set_headers, set_request, modify, with_header.
  simpl. by rewrite removelast_last.
Qed.

Lemma blank_not_cr c : blank c → c ≠ CR.
Proof. by intros [-> | ->]. Qed.
Lemma refused_colon : refused ":"%char = true.
Proof. by vm_compute. Qed.
Lemma value_not_ht c : value_char c → c ≠ HT.
Proof. by intros H ->. Qed.

(** The text of the open line grows. *)
Definition push_open (h : raw_header) (c : ascii) : raw_header :=
  match last (rh_folds h) with
  | None => RawHeader (rh_name h) (rh_first h ++ [c]) []
  | Some f => RawHeader (rh_name h) (rh_first h) (removelast (rh_folds h) ++ [(f.1, f.2 ++ [c])])
  end.

Lemma push_open_ok h c :
  raw_header_ok h → extensible h → value_char c →
  raw_header_ok (push_open h c) ∧ extensible (push_open h c) ∧ print_open (push_open h c) = print_open h ++ [c] ∧
  cook_header (push_open h c) = Header (h_name (cook_header h)) (h_value (cook_header h) ++ [c]).
Proof.
  destruct h as [n v fs]. intros [H1 H2 H3] Hx Hc. unfold push_open, extensible, print_open, cook_header in *. simpl in *.
  destruct fs as [|f fs _] using rev_ind; simpl.
  - split_and!; [split; simpl; [done|by apply forall_snoc|done]|by intros [|??] ? ?|app_eq|by rewrite !app_nil_r].
  - rewrite last_snoc, removelast_last. simpl. apply Forall_app in H3 as [H3 [Hf _]%Forall_cons]. specialize (Hx fs f eq_refl).
    destruct Hf as (Hw & Hb & Ht & Hh). split_and!; [split; simpl; [done|done|]| | |].
    + apply Forall_app. split; [done|]. constructor; [|constructor]. split_and!; simpl; [done|done|by apply forall_snoc|].
      by destruct (f.2).
    + intros fs' f' [_ <-]%app_inj_tail. simpl. by destruct (f.2).
    + rewrite !fmap_app, !concat_app. unfold print_fold. app_eq.
    + rewrite !fmap_app, !concat_app. simpl. f_equal. app_eq.
Qed.

Lemma consume_line_end_ok p inp c :
  (state_ p = expecting_newline_1 ∨ state_ p = expecting_newline_2 ∨ state_ p = expecting_newline_3) →
  reads p inp → step_ok (inp ++ [c]) (consume c p).
Proof.
  destruct p as [st r]. simpl. intros [->|[-> | ->]]; unfold reads; simpl.
  - intros (q & Hi & Hq & Hh & ->). run_consume. case_decide as Hc; [subst c|done]. simpl. exists q. split_and!; [|done|done].
    unfold open_request. rewrite Hi, Hh. unfold print_headers. simpl. by rewrite app_nil_r.
  - intros (q & h & -> & Hq & Hh & ->). run_consume. case_decide as Hc; [subst c|done]. simpl. exists (add_header q h).
    split_and!; [|by apply add_ok|by rewrite cook_add]. rewrite open_add. app_eq.
  - intros (q & -> & Hq & ->). run_consume. case_decide as Hc; [subst c|done]. simpl. exists q. split_and!; [|done|done].
    unfold print_request, open_request. app_eq.
Qed.

Lemma consume_line_start_ok p inp c : state_ p = header_line_start → reads p inp → step_ok (inp ++ [c]) (consume c p).
Proof.
  destruct p as [st r]. simpl. intros ->. unfold reads. simpl. intros (q & -> & Hq & ->). run_consume.
  case_decide as Hc; [subst c; simpl; by exists q|].
  destruct (negb (bool_decide (cook_header <$> q_headers q = [])) && bool_decide (c = SP ∨ c = HT)) eqn:E.
  - apply andb_true_iff in E as [E1%negb_true_iff%bool_decide_eq_false E2%bool_decide_eq_true]. simpl.
    destruct (last_header q Hq) as (q' & h & -> & Hq' & Hh); [by intros Hn; rewrite Hn in E1|].
    exists q', h, [c]. rewrite open_add, cook_add. split_and!; [app_eq|done|done|done|by apply Forall_singleton|done].
  - destruct (refused c) eqn:Er; [done|]. unfold new_header, set_headers, set_request, set_state, modify, mbind, comp_bind, get_state. simpl.
    exists q, [c]. split_and!; [done|done|split; [done|by repeat constructor]|done].
Qed.

Lemma cook_new n : cook_header (RawHeader n [] []) = Header n [].
Proof. done. Qed.

Lemma consume_name_ok p inp c :
  (state_ p = header_name ∨ state_ p = space_before_header_value) → reads p inp → step_ok (inp ++ [c]) (consume c p).
Proof.
  destruct p as [st r]. simpl. intros [-> | ->]; unfold reads; simpl; intros (q & n & -> & Hq & Hn & ->); run_consume.
  - case_decide as Hc; [subst c; simpl; exists q, n; split_and!; [app_eq|done..]|].
    destruct (refused c) eqn:Er; [done|]. unfold push_name. rewrite on_last_header_done. simpl.
    exists q, (n ++ [c]). split_and!; [app_eq|done| |done]. destruct Hn. split; [by destruct n|by apply forall_snoc].
  - case_decide as Hc; [subst c|done]. simpl. exists q, (RawHeader n [] []). rewrite cook_new. split_and!; [|done|by split|by intros [|??] ? ?|done].
    unfold print_open. app_eq.
Qed.

Lemma consume_value_ok p inp c :
  (state_ p = header_value ∨ state_ p = header_lws) → reads p inp → step_ok (inp ++ [c]) (consume c p).
Proof.
  destruct p as [st r]. simpl. intros [-> | ->]; unfold reads; simpl.
  - intros (q & h & -> & Hq & Hh & Hx & ->). run_consume. case_decide as Hc; [subst c; simpl; exists q, h; split_and!; [app_eq|done..]|].
    destruct (is_ctl c) eqn:Ec; [done|]. unfold push_value. cbn [req]. rewrite on_last_header_done. simpl.
    destruct (push_open_ok h c Hh Hx Ec) as (H1 & H2 & H3 & H4). exists q, (push_open h c). rewrite H3, H4.
    split_and!; [app_eq|done..].
  - intros (q & h & ws & -> & Hq & Hh & Hw & Hb & ->). run_consume. case_decide as Hc.
    { subst c. simpl. exists q, (RawHeader (rh_name h) (rh_first h) (rh_folds h ++ [(ws, [])])). destruct Hh as [H1 H2 H3].
      split_and!; [|done|split; simpl; [done|done|by apply forall_snoc]|].
      - unfold print_open. simpl. rewrite fmap_app, concat_app. unfold print_fold. simpl. rewrite !app_nil_r. app_eq.
      - unfold cook_header. simpl. rewrite fmap_app, concat_app. simpl. by rewrite !app_nil_r. }
    case_decide as Hblank.
    { simpl. exists q, h, (ws ++ [c]). split_and!; [app_eq|done|done|by destruct ws|by apply forall_snoc|done]. }
    destruct (is_ctl c) eqn:Ec; [done|]. unfold push_value. cbn [req]. rewrite on_last_header_done. simpl.
    exists q, (RawHeader (rh_name h) (rh_first h) (rh_folds h ++ [(ws, [c])])). destruct Hh as [H1 H2 H3].
    split_and!; [|done|split; simpl; [done|done|apply forall_snoc; [done|]]| |].
    + unfold print_open. simpl. rewrite fmap_app, concat_app. unfold print_fold. simpl. rewrite !app_nil_r. app_eq.
    + split_and!; simpl; [done|done|by repeat constructor|]. intros [= ->]. by destruct Hblank; left.
    + intros fs f [_ <-]%app_inj_tail. done.
    + unfold cook_header. simpl. rewrite fmap_app, concat_app. simpl. by rewrite app_assoc.
Qed.

Lemma consume_ok p inp c : reads p inp → step_ok (inp ++ [c]) (consume c p).
Proof.
  destruct (state_ p) eqn:E;
    first [solve [apply consume_method_ok; tauto] | solve [apply consume_version_ok; tauto]
      | solve [apply consume_number_ok; tauto] | solve [apply consume_line_end_ok; tauto]
      | solve [by apply consume_line_start_ok] | solve [apply consume_name_ok; tauto]
      | solve [apply consume_value_ok; tauto]].
Qed.

(** ** The grammar is accepted *)

Lemma parse_cons c l p :
  parse (c :: l) p =
  match consume c p with
  | Done indeterminate p' => parse l p'
  | Done r p' => Done (r, l) p'
  | Block => Block
  | Fault f => Fault f
  end.
Proof. simpl. unfold mbind, comp_bind. by destruct (consume c p) as [[] ?| |]. Qed.

(** Feeding the input in parts is the same as feeding it at once. *)
Lemma parse_app l l' p :
  parse (l ++ l') p =
  match parse l p with
  | Done (indeterminate, _) p' => parse l' p'
  | Done (r, rest) p' => Done (r, rest ++ l') p'
  | Block => Block
  | Fault f => Fault f
  end.
Proof.
  revert p. induction l as [|c l IH]; intros p; [done|]. rewrite <- app_comm_cons, !parse_cons.
  destruct (consume c p) as [[] ?| |]; [done|done| |done|done]. apply IH.
Qed.

Definition feeds (l : text) (p p' : parser) : Prop := parse l p = Done (indeterminate, []) p'.

Lemma feeds_nil p : feeds [] p p.
Proof. done. Qed.
Lemma feeds_char c p p' : consume c p = Done indeterminate p' → feeds [c] p p'.
Proof. intros H. unfold feeds. by rewrite parse_cons, H. Qed.
Lemma feeds_app l l' p p1 p2 : feeds l p p1 → feeds l' p1 p2 → feeds (l ++ l') p p2.
Proof. unfold feeds. intros H1 H2. by rewrite parse_app, H1. Qed.
Lemma feeds_cons c l p p1 p2 : consume c p = Done indeterminate p1 → feeds l p1 p2 → feeds (c :: l) p p2.
Proof. intros H1 H2. apply (feeds_app [c] l p p1 p2); [by apply feeds_char|done]. Qed.

(** A run of characters that are handled alike. *)
Lemma feeds_run {A} (mk : A → parser) (push : A → ascii → A) (ok : ascii → Prop) l a :
  (∀ a c, ok c → consume c (mk a) = Done indeterminate (mk (push a c))) → Forall ok l →
  feeds l (mk a) (mk (foldl push a l)).
Proof.
  intros H Hl. revert a. induction Hl as [|c l Hc _ IH]; intros a; [apply feeds_nil|].
  eapply feeds_cons; [by apply H|apply IH].
Qed.

Lemma foldl_snoc_app (l k : text) : foldl (λ s c, s ++ [c]) k l = k ++ l.
Proof. revert k. induction l as [|c l IH]; intros k; simpl; [by rewrite app_nil_r|]. rewrite IH. by rewrite <- app_assoc. Qed.

Lemma token_not c d : token c → refused d = true → c ≠ d.
Proof. unfold token. intros H1 H2 ->. congruence. Qed.

Lemma feeds_method m l : Forall token m → feeds m (Parser method (Request l [] 0 0 [])) (Parser method (Request (l ++ m) [] 0 0 [])).
Proof.
  intros Hm. rewrite <- foldl_snoc_app.
  apply (feeds_run (λ m, Parser method (Request m [] 0 0 [])) (λ s c, s ++ [c]) token); [|done].
  intros a c Hc. run_consume. rewrite decide_False by (by eapply token_not). by rewrite Hc.
Qed.

Lemma feeds_uri m u l :
  Forall uri_char u → feeds u (Parser uri (Request m l 0 0 [])) (Parser uri (Request m (l ++ u) 0 0 [])).
Proof.
  intros Hm. rewrite <- foldl_snoc_app.
  apply (feeds_run (λ u, Parser uri (Request m u 0 0 [])) (λ s c, s ++ [c]) uri_char); [|done].
  intros a c [Hc Hs]. run_consume. rewrite decide_False by done. by rewrite Hc.
Qed.

Lemma feeds_http m u :
  feeds (lit "HTTP/") (Parser http_version_h (Request m u 0 0 [])) (Parser version_major_start (Request m u 0 0 [])).
Proof. reflexivity. Qed.

Lemma digit_not c d : isdigit c = true → isdigit d = false → c ≠ d.
Proof. intros H1 H2 ->. congruence. Qed.

Lemma int_digits_cons c d v w :
  int_step v c = Some w → foldl (λ o c, v ← o; int_step v c) (Some v) (c :: d) = foldl (λ o c, v ← o; int_step v c) (Some w) d.
Proof. intros H. simpl. by rewrite H. Qed.
Lemma int_digits_none d : foldl (λ o c, v ← o; int_step v c) None d = None.
Proof. by induction d. Qed.

Lemma feeds_major m u d v w :
  Forall (λ c, isdigit c = true) d → foldl (λ o c, v ← o; int_step v c) (Some v) d = Some w →
  feeds d (Parser version_major (Request m u v 0 [])) (Parser version_major (Request m u w 0 [])).
Proof.
  intros Hd. revert v. induction Hd as [|c d Hc _ IH]; intros v Hv; [injection Hv as ->; apply feeds_nil|].
  destruct (int_step v c) as [x|] eqn:Hs; [|simpl in Hv; rewrite Hs, int_digits_none in Hv; done].
  rewrite (int_digits_cons _ _ _ _ Hs) in Hv. eapply feeds_cons; [|apply IH, Hv].
  run_consume. rewrite decide_False by (by eapply digit_not). rewrite Hc. unfold push_major, mbind, comp_bind. simpl. by rewrite Hs.
Qed.
Lemma feeds_minor m u x d v w :
  Forall (λ c, isdigit c = true) d → foldl (λ o c, v ← o; int_step v c) (Some v) d = Some w →
  feeds d (Parser version_minor (Request m u x v [])) (Parser version_minor (Request m u x w [])).
Proof.
  intros Hd. revert v. induction Hd as [|c d Hc _ IH]; intros v Hv; [injection Hv as ->; apply feeds_nil|].
  destruct (int_step v c) as [y|] eqn:Hs; [|simpl in Hv; rewrite Hs, int_digits_none in Hv; done].
  rewrite (int_digits_cons _ _ _ _ Hs) in Hv. eapply feeds_cons; [|apply IH, Hv].
  run_consume. rewrite decide_False by (by eapply digit_not). rewrite Hc. unfold push_minor, mbind, comp_bind. simpl. by rewrite Hs.
Qed.

Lemma feeds_numeral_major m u d :
  numeral_ok d → feeds d (Parser version_major_start (Request m u 0 0 [])) (Parser version_major (Request m u (default 0%Z (int_digits d)) 0 [])).
Proof.
  intros (Hn & Hd & [w Hw]). rewrite Hw. destruct d as [|c d]; [done|]. apply Forall_cons in Hd as [Hc Hd]. unfold int_digits in Hw.
  destruct (int_step 0 c) as [x|] eqn:Hs; [|simpl in Hw; rewrite Hs, int_digits_none in Hw; done].
  rewrite (int_digits_cons _ _ _ _ Hs) in Hw. eapply feeds_cons; [|by eapply feeds_major].
  run_consume. rewrite Hc. unfold push_major, mbind, comp_bind. simpl. by rewrite Hs.
Qed.
Lemma feeds_numeral_minor m u x d :
  numeral_ok d → feeds d (Parser version_minor_start (Request m u x 0 [])) (Parser version_minor (Request m u x (default 0%Z (int_digits d)) [])).
Proof.
  intros (Hn & Hd & [w Hw]). rewrite Hw. destruct d as [|c d]; [done|]. apply Forall_cons in Hd as [Hc Hd]. unfold int_digits in Hw.
  destruct (int_step 0 c) as [y|] eqn:Hs; [|simpl in Hw; rewrite Hs, int_digits_none in Hw; done].
  rewrite (int_digits_cons _ _ _ _ Hs) in Hw. eapply feeds_cons; [|by eapply feeds_minor].
  run_consume. rewrite Hc. unfold push_minor, mbind, comp_bind. simpl. by rewrite Hs.
Qed.

Lemma feeds_line q :
  raw_request_ok q → feeds (print_line q) new_parser (Parser header_line_start (cook (RawRequest (q_method q) (q_uri q) (q_major q) (q_minor q) []))).
Proof.
  intros [[Hm Hmt] Hu Hd He _]. destruct q as [m u d e hs]. simpl in *. unfold print_line, print_version, cook. simpl.
  destruct m as [|c m]; [done|]. apply Forall_cons in Hmt as [Hc Hmt].
  eapply feeds_cons; [run_consume; by rewrite Hc|].
  eapply feeds_app; [by apply feeds_method|].
  eapply (feeds_cons SP _ _ (Parser uri (Request (c :: m) [] 0 0 []))); [by run_consume|].
  eapply feeds_app; [by apply feeds_uri|].
  eapply (feeds_cons SP _ _ (Parser http_version_h (Request (c :: m) u 0 0 []))); [by run_consume|]. rewrite <- app_assoc.
  eapply (feeds_app (lit "HTTP/")); [apply feeds_http|]. eapply feeds_app; [by apply feeds_numeral_major|].
  eapply (feeds_cons _ _ _ (Parser version_minor_start (Request (c :: m) u _ 0 []))); [by run_consume|].
  eapply feeds_app; [by apply feeds_numeral_minor|].
  eapply feeds_cons; [by run_consume|]. eapply feeds_cons; [by run_consume|]. apply feeds_nil.
Qed.

(** The header that is being read is the last. *)
Definition at_header (st : state) (r : request) (n v : text) : parser := Parser st (with_header r (Header n v)).

Lemma feeds_name r n l : Forall token l → feeds l (at_header header_name r n []) (at_header header_name r (n ++ l) []).
Proof.
  intros Hl. rewrite <- foldl_snoc_app. apply (feeds_run (λ n, at_header header_name r n []) (λ s c, s ++ [c]) token); [|done].
  intros a c Hc. unfold at_header. run_consume. rewrite decide_False by (by eapply token_not). rewrite Hc. unfold push_name.
  by rewrite on_last_header_done.
Qed.
Lemma feeds_value r n v l : Forall value_char l → feeds l (at_header header_value r n v) (at_header header_value r n (v ++ l)).
Proof.
  intros Hl. rewrite <- foldl_snoc_app. apply (feeds_run (λ v, at_header header_value r n v) (λ s c, s ++ [c]) value_char); [|done].
  intros a c Hc. unfold at_header. run_consume. rewrite decide_False by (by intros ->). rewrite Hc. unfold push_value.
  by rewrite on_last_header_done.
Qed.
Lemma feeds_blank r n v l : Forall blank l → feeds l (at_header header_lws r n v) (at_header header_lws r n v).
Proof.
  intros Hl. pose proof (feeds_run (λ _ : unit, at_header header_lws r n v) (λ s _, s) blank l tt) as H. apply H; [|done].
  intros a c Hc. unfold at_header. run_consume. rewrite decide_False by (by apply blank_not_cr). by rewrite decide_True.
Qed.

(** From one line of a value to the end of the next. *)
Lemma feeds_fold r n v f :
  fold_ok f → feeds (LF :: f.1 ++ f.2 ++ [CR]) (at_header expecting_newline_2 r n v) (at_header expecting_newline_2 r n (v ++ f.2)).
Proof.
  intros (Hn & Hw & Ht & Hh). destruct f as [ws t]. simpl in *. destruct ws as [|b ws]; [done|].
  apply Forall_cons in Hw as [Hb Hw]. eapply feeds_cons; [by run_consume|].
  eapply (feeds_cons b _ _ (at_header header_lws r n v)).
  { run_consume. rewrite decide_False by (by apply blank_not_cr). rewrite bool_decide_false by (by destruct (r_headers r)).
    by rewrite bool_decide_true. }
  eapply feeds_app; [by apply feeds_blank|]. destruct t as [|c t].
  - simpl. rewrite app_nil_r. by apply feeds_char.
  - apply Forall_cons in Ht as [Hc Ht]. simpl in Hh.
    eapply (feeds_cons c _ _ (at_header header_value r n (v ++ [c]))).
    { unfold at_header. run_consume. rewrite decide_False by (by intros ->).
      rewrite decide_False by (intros [-> | ->]; done). rewrite Hc. unfold push_value. cbn [req]. by rewrite on_last_header_done. }
    eapply feeds_app; [by apply feeds_value|]. rewrite <- app_assoc. by apply feeds_char.
Qed.

Definition next_line (f : text * text) : text := LF :: f.1 ++ f.2 ++ [CR].

Lemma fold_shift fs : concat (print_fold <$> fs) ++ CRLF = CR :: concat (next_line <$> fs) ++ [LF].
Proof.
  induction fs as [|f fs IH]; [done|]. rewrite !fmap_cons. cbn [concat]. rewrite <- app_assoc, IH. unfold print_fold, next_line. app_eq.
Qed.

Lemma feeds_folds r n v fs :
  Forall fold_ok fs →
  feeds (concat (next_line <$> fs)) (at_header expecting_newline_2 r n v)
    (at_header expecting_newline_2 r n (v ++ concat (snd <$> fs))).
Proof.
  intros Hf. revert v. induction Hf as [|f fs Hf _ IH]; intros v; simpl; [rewrite app_nil_r; apply feeds_nil|].
  change (feeds (next_line f ++ concat (next_line <$> fs)) (at_header expecting_newline_2 r n v)
    (at_header expecting_newline_2 r n (v ++ f.2 ++ concat (snd <$> fs)))).
  eapply feeds_app; [by apply feeds_fold|]. rewrite app_assoc. apply IH.
Qed.

Lemma print_header_lines n v fs :
  print_header (RawHeader n v fs) = n ++ ":"%char :: SP :: v ++ CR :: concat (next_line <$> fs) ++ [LF].
Proof. unfold print_header, print_open. simpl. rewrite <- app_assoc. simpl. rewrite <- app_assoc. by rewrite fold_shift. Qed.

Lemma feeds_header r h :
  raw_header_ok h → feeds (print_header h) (Parser header_line_start r) (Parser header_line_start (with_header r (cook_header h))).
Proof.
  intros [[Hn Ht] Hv Hf]. destruct h as [n v fs]. rewrite print_header_lines. unfold cook_header. simpl in *.
  destruct n as [|c n]; [done|]. apply Forall_cons in Ht as [Hc Ht].
  eapply (feeds_cons c _ _ (at_header header_name r [c] [])).
  { run_consume. rewrite decide_False by (by eapply token_not).
    rewrite (bool_decide_false (c = SP ∨ c = HT)) by (intros [-> | ->]; done). rewrite andb_false_r, Hc. done. }
  eapply feeds_app; [by apply feeds_name|].
  eapply (feeds_cons _ _ _ (at_header space_before_header_value r (c :: n) [])); [by run_consume|].
  eapply (feeds_cons _ _ _ (at_header header_value r (c :: n) [])); [by run_consume|].
  eapply feeds_app; [by apply feeds_value|].
  eapply (feeds_cons _ _ _ (at_header expecting_newline_2 r (c :: n) v)); [by run_consume|].
  eapply feeds_app; [by apply feeds_folds|]. by apply feeds_char.
Qed.

Lemma feeds_headers q hs :
  Forall raw_header_ok hs →
  feeds (print_headers hs) (Parser header_line_start (cook q))
    (Parser header_line_start (cook (RawRequest (q_method q) (q_uri q) (q_major q) (q_minor q) (q_headers q ++ hs)))).
Proof.
  intros Hh. revert q. induction Hh as [|h hs Hh _ IH]; intros q.
  - rewrite app_nil_r. destruct q. apply feeds_nil.
  - eapply (feeds_app (print_header h)); [by apply feeds_header|]. rewrite <- cook_add.
    specialize (IH (add_header q h)). simpl in IH. by rewrite <- app_assoc in IH.
Qed.

Lemma parse_complete q rest :
  raw_request_ok q → parse (print_request q ++ rest) new_parser = Done (good, rest) (Parser expecting_newline_3 (cook q)).
Proof.
  intros Hq. unfold print_request. rewrite <- !app_assoc, parse_app, (feeds_line q Hq).
  rewrite parse_app, (feeds_headers (RawRequest (q_method q) (q_uri q) (q_major q) (q_minor q) []) (q_headers q)) by apply Hq.
  change (CRLF ++ rest) with (CR :: LF :: rest). rewrite parse_cons. run_consume. by destruct q.
Qed.

(** ** Soundness along a whole input *)

Lemma parse_ok l p inp :
  reads p inp →
  match parse l p with
  | Done (indeterminate, rest) p' => rest = [] ∧ reads p' (inp ++ l)
  | Done (good, rest) p' => ∃ q, inp ++ l = print_request q ++ rest ∧ raw_request_ok q ∧ req p' = cook q
  | Done (bad, _) _ => True
  | Block => False
  | Fault f => f = signed_overflow ∧ ∃ k, k `prefix_of` (inp ++ l) ∧ long_numeral k
  end.
Proof.
  revert p inp. induction l as [|c l IH]; intros p inp Hr.
  - simpl. by rewrite app_nil_r.
  - rewrite parse_cons. pose proof (consume_ok p inp c Hr) as Hc.
    replace (inp ++ c :: l) with ((inp ++ [c]) ++ l) by app_eq.
    destruct (consume c p) as [[] p'| |f]; simpl in Hc.
    + destruct Hc as (q & -> & Hq & ->). by exists q.
    + done.
    + by apply IH.
    + done.
    + destruct Hc as [-> Hl]. split; [done|]. exists (inp ++ [c]). split; [by exists l|done].
Qed.

Lemma reads_new : reads new_parser [].
Proof. done. Qed.

(** The calls of [parse] on the pieces of an input as they arrive, up to the one that
    decides: its answer, what it did not read of its piece, and the pieces that are left. *)
Fixpoint parse_pieces (pieces : list text) : comp parser (result_type * text * list text) :=
  match pieces with
  | [] => mret (indeterminate, [], [])
  | piece :: pieces =>
      '(r, rest) ← parse piece;
      match r with
      | indeterminate => parse_pieces pieces
      | r => mret (r, rest, pieces)
      end
  end.

Lemma parse_concat pieces p :
  parse (concat pieces) p =
  match parse_pieces pieces p with
  | Done (r, rest, left_) p' => Done (r, rest ++ concat left_) p'
  | Block => Block
  | Fault f => Fault f
  end.
Proof.
  revert p. induction pieces as [|l ls IH]; intros p; [done|]. simpl. rewrite parse_app. unfold mbind, comp_bind.
  destruct (parse l p) as [[[] rest] p'| |]; simpl; [done|done|apply IH|done|done].
Qed.

(** C8: the parser accepts exactly the grammar, in whatever pieces the input comes:
    the calls on the pieces end with [good] if and only if the input begins with
    the text of a request of the grammar, and then they have consumed that text and no more,
    and the request that is filled in is that request with its folded header lines joined. *)
Theorem request_parser_accepts_exactly pieces r input :
  (∃ st rest left_, parse_pieces pieces new_parser = Done (good, rest, left_) (Parser st r) ∧ input = rest ++ concat left_) ↔
  ∃ q, raw_request_ok q ∧ concat pieces = print_request q ++ input ∧ r = cook q.
Proof.
  split.
  - intros (st & rest & left_ & Hp & ->). pose proof (parse_ok (concat pieces) new_parser [] reads_new) as H.
    rewrite parse_concat, Hp in H. destruct H as (q & Hi & Hq & Hr). by exists q.
  - intros (q & Hq & Hc & ->). pose proof (parse_complete q input Hq) as H. rewrite <- Hc, parse_concat in H.
    destruct (parse_pieces pieces new_parser) as [[[g rest] left_] p| |]; simplify_eq. by exists expecting_newline_3, rest, left_.
Qed.

(** On any input the parser returns: it reads no header that is not there,
    and the only operation that is not defined is a version number that does not
    fit in an [int], for which the input must have ten digits in a row. *)
Theorem request_parser_never_faults input :
  parse input new_parser ≠ Block ∧
  ∀ f, parse input new_parser = Fault f → f = signed_overflow ∧ ∃ k, k `prefix_of` input ∧ long_numeral k.
Proof.
  pose proof (parse_ok input new_parser [] reads_new) as H.
  destruct (parse input new_parser) as [[[] rest] p| |f]; (split; [done|]); intros g Hg; simplify_eq; try done.
Qed.

(** The version number can overflow. *)
Lemma request_version_overflows : parse (lit "GET / HTTP/99999999999.1") new_parser = Fault signed_overflow.
Proof. by vm_compute. Qed.
