(* ===== verification/HttpResponse.v ===== *)
(** * [http_response.hpp]: responses and their wire format *)

From S2P Require Import Prelude Conc Text HttpRequest.
From Stdlib Require Import Ascii.
From stdpp Require Import options.

(** [status_none]: the status of a response that was value-initialised, which is
    none of the enumerators. *)
Inductive status_type : Type :=
| ok
| created
| accepted
| no_content
| multiple_choices
| moved_permanently
| moved_temporarily
| not_modified
| bad_request
| unauthorized
| forbidden
| not_found
| internal_server_error
| not_implemented
| bad_gateway
| service_unavailable
| status_none.

#[global] Instance status_type_eq_dec : EqDecision status_type.
Proof. solve_decision. Defined.

(** The value of the enumerator. *)
Definition status_code (s : status_type) : N :=
  match s with
  | ok => 200
  | created => 201
  | accepted => 202
  | no_content => 204
  | multiple_choices => 300
  | moved_permanently => 301
  | moved_temporarily => 302
  | not_modified => 304
  | bad_request => 400
  | unauthorized => 401
  | forbidden => 403
  | not_found => 404
  | internal_server_error => 500
  | not_implemented => 501
  | bad_gateway => 502
  | service_unavailable => 503
  | status_none => 0
  end.

Definition status_line (s : string) : text := lit "HTTP/1.1 " ++ lit s ++ CRLF.

Definition status_to_buffer (s : status_type) : text :=
  match s with
  | ok => status_line "200 OK"
  | created => status_line "201 Created"
  | accepted => status_line "202 Accepted"
  | no_content => status_line "204 No Content"
  | multiple_choices => status_line "300 Multiple Choices"
  | moved_permanently => status_line "301 Moved Permanently"
  | moved_temporarily => status_line "302 Moved Temporarily"
  | not_modified => status_line "304 Not Modified"
  | bad_request => status_line "400 Bad Request"
  | unauthorized => status_line "401 Unauthorized"
  | forbidden => status_line "403 Forbidden"
  | not_found => status_line "404 Not Found"
  | internal_server_error => status_line "500 Internal Server Error"
  | not_implemented => status_line "501 Not Implemented"
  | bad_gateway => status_line "502 Bad Gateway"
  | service_unavailable => status_line "503 Service Unavailable"
  | status_none => status_line "500 Internal Server Error"
  end.

(** ** [mime_types] *)

Definition mime_map : list (text * text) :=
  [(lit "gif", lit "image/gif"); (lit "htm", lit "text/html"); (lit "html", lit "text/html");
   (lit "jpg", lit "image/jpeg"); (lit "png", lit "image/png")].

Definition extension_to_type (extension : text) : text :=
  match list_find (λ e, e.1 = extension) mime_map with
  | Some (_, e) => e.2
  | None => lit "text/plain"
  end.

(** ** [response] *)

Record response : Type := Response {
  rep_status : status_type;
  rep_headers : list header;
  rep_content : text }.

(** [response_ = {}] *)
Definition empty_response : response := Response status_none [] [].

Definition name_value_separator : text := lit ": ".

(** [to_buffers]: the buffers in the order in which they are written. *)
Definition to_buffers (r : response) : list text :=
  [status_to_buffer (rep_status r)] ++
  concat ((λ h, [h_name h; name_value_separator; h_value h; CRLF]) <$> rep_headers r) ++
  [CRLF; rep_content r].

(** ** [response_content] *)

Definition page (title heading : string) : text :=
  lit "<html><head><title>" ++ lit title ++ lit "</title></head><body><h1>" ++ lit heading ++ lit "</h1></body></html>".

Definition content_of (s : status_type) : text :=
  match s with
  | ok => page "Hello" "Hello async_simple"
  | created => page "Created" "201 Created"
  | accepted => page "Accepted" "202 Accepted"
  | no_content => page "No Content" "204 Content"
  | multiple_choices => page "Multiple Choices" "300 Multiple Choices"
  | moved_permanently => page "Moved Permanently" "301 Moved Permanently"
  | moved_temporarily => page "Moved Temporarily" "302 Moved Temporarily"
  | not_modified => page "Not Modified" "304 Not Modified"
  | bad_request => page "Bad Request" "400 Bad Request"
  | unauthorized => page "Unauthorized" "401 Unauthorized"
  | forbidden => page "Forbidden" "403 Forbidden"
  | not_found => page "Not Found" "404 Not Found"
  | internal_server_error => page "Internal Server Error" "500 Internal Server Error"
  | not_implemented => page "Not Implemented" "501 Not Implemented"
  | bad_gateway => page "Bad Gateway" "502 Bad Gateway"
  | service_unavailable => page "Service Unavailable" "503 Service Unavailable"
  | status_none => page "Internal Server Error" "500 Internal Server Error"
  end.

Definition build_response (s : status_type) : response :=
  let content := content_of s in
  Response s
    [Header (lit "Content-Length") (to_string (N.of_nat (length content)));
     Header (lit "Content-Type") (lit "text/html")]
    content.

(** What goes over the wire. *)
Definition wire (r : response) : text := concat (to_buffers r).

Definition print_field (h : header) : text := h_name h ++ name_value_separator ++ h_value h ++ CRLF.

Lemma wire_eq r :
  wire r = status_to_buffer (rep_status r) ++ concat (print_field <$> rep_headers r) ++ CRLF ++ rep_content r.
Proof.
  unfold wire, to_buffers. rewrite !concat_app. simpl. rewrite !app_nil_r. f_equal. f_equal.
  induction (rep_headers r) as [|h hs IH]; [done|]. rewrite !fmap_cons. cbn [concat]. rewrite concat_app, IH.
  unfold print_field. simpl. by rewrite <- !app_assoc.
Qed.
