(* ===== verification/Connection.v ===== *)
(** * [connection.hpp]: one connection of the HTTP server

    A connection reads, parses, answers and writes in a loop.  What the socket
    delivers and whether a write succeeds is an argument, one pair for each round;
    so is the file system, [open_file], which gives the content of the file that
    an [std::ifstream] on a path would read. *)

From S2P Require Import Prelude Conc Text HttpRequest HttpResponse.
From Stdlib Require Import Ascii.
From stdpp Require Import options.

(** ** [url_decode] *)

Definition hex_digit (c : ascii) : option Z :=
  let z := char_val c in
  if ((48 <=? z) && (z <=? 57))%Z then Some (z - 48)%Z
  else if ((65 <=? z) && (z <=? 70))%Z then Some (z - 55)%Z
  else if ((97 <=? z) && (z <=? 102))%Z then Some (z - 87)%Z
  else None.

(** Digits as far as they go: their value, if there is one. *)
Fixpoint hex_digits (v : option Z) (s : text) : option Z :=
  match s with
  | [] => v
  | c :: s => match hex_digit c with Some d => hex_digits (Some (default 0%Z v * 16 + d)%Z) s | None => v end
  end.

Definition drop_prefix (s : text) : text :=
  match s with
  | a :: b :: s' => if decide (a = "0"%char ∧ (b = "x"%char ∨ b = "X"%char)) then s' else s
  | _ => s
  end.

(** [is >> std::hex >> value] on a stream of two characters: white space is
    skipped, a sign and a prefix are allowed, and what follows the digits is left
    in the stream. *)
Definition extract_hex (s : text) : option Z :=
  match drop_space s with
  | [] => None
  | c :: s =>
      if decide (c = "-"%char) then Z.opp <$> hex_digits None (drop_prefix s)
      else if decide (c = "+"%char) then hex_digits None (drop_prefix s)
      else hex_digits None (drop_prefix (c :: s))
  end.

(** [None]: the function returns [false]. *)
Fixpoint url_decode (s : text) : option text :=
  match s with
  | [] => Some []
  | c :: s =>
      if decide (c = "%"%char) then
        match s with
        | a :: b :: s => value ← extract_hex [a; b]; out ← url_decode s; Some (char_of value :: out)
        | _ => None
        end
      else if decide (c = "+"%char) then out ← url_decode s; Some (SP :: out)
      else out ← url_decode s; Some (c :: out)
  end.

(** ** [handle_request] *)

Definition NUL : ascii := "000"%char.
(** What a path is to the system: it ends at the first null character. *)
Fixpoint c_str (s : text) : text :=
  match s with
  | [] => []
  | c :: s => if decide (c = NUL) then [] else c :: c_str s
  end.

Definition extension_of (request_path : text) : text :=
  match rfind "."%char request_path, rfind "/"%char request_path with
  | Some last_dot_pos, Some last_slash_pos =>
      if decide (last_slash_pos < last_dot_pos) then drop (S last_dot_pos) request_path else []
  | _, _ => []
  end.

(** The file is read in blocks; [fuel]: at least the number of blocks. *)
Definition block_size : nat := 2048.
Fixpoint read_blocks (fuel : nat) (file content : text) : text :=
  match fuel with
  | 0 => content
  | S fuel =>
      match take block_size file with
      | [] => content
      | buf => read_blocks fuel (drop block_size file) (content ++ buf)
      end
  end.

Definition handle_request (doc_root : text) (open_file : text → option text) (r : request) (rep : response) : response :=
  match url_decode (r_uri r) with
  | None => build_response bad_request
  | Some request_path =>
      if decide (head request_path ≠ Some "/"%char ∨ find (lit "..") request_path ≠ None) then build_response bad_request
      else if decide (last request_path = Some "/"%char) then build_response ok
      else
        match open_file (c_str (doc_root ++ request_path)) with
        | None => build_response not_found
        | Some file =>
            let content := read_blocks (S (length file)) file (rep_content rep) in
            Response ok
              [Header (lit "Content-Length") (to_string (N.of_nat (length content)));
               Header (lit "Content-Type") (extension_to_type (extension_of request_path))]
              content
        end
  end.

(** ** [is_keep_alive] *)

Definition is_keep_alive (r : request) : bool :=
  negb (existsb (λ h, bool_decide (tolower <$> h_name h = lit "connection") &&
                      bool_decide (tolower <$> h_value h = lit "close")) (r_headers r)).

(** ** [start] *)

(** [written]: what was given to [async_write], in order; of a write that fails a
    part may have been sent. *)
Record conn : Type := Conn {
  parser_ : parser;
  response_ : response;
  written : list text;
  is_open : bool }.

Definition new_conn : conn := Conn new_parser empty_response [] true.

Definition on_parser {B} (m : comp parser B) : comp conn B := λ c,
  match m (parser_ c) with
  | Done b p => Done b (Conn p (response_ c) (written c) (is_open c))
  | Block => Block
  | Fault f => Fault f
  end.
Definition set_response (r : response) : comp conn unit := modify (λ c, Conn (parser_ c) r (written c) (is_open c)).
Definition push_header (name value : string) : comp conn unit :=
  modify (λ c, Conn (parser_ c)
    (Response (rep_status (response_ c)) (rep_headers (response_ c) ++ [Header (lit name) (lit value)]) (rep_content (response_ c)))
    (written c) (is_open c)).
Definition write_response : comp conn unit :=
  modify (λ c, Conn (parser_ c) (response_ c) (written c ++ [wire (response_ c)]) (is_open c)).
(** Leaving the loop; the destructor closes the socket. *)
Definition close : comp conn unit := modify (λ c, Conn (parser_ c) (response_ c) (written c) false).
Definition reset : comp conn unit := modify (λ c, Conn new_parser empty_response (written c) (is_open c)).

(** One round: what [async_read_some] delivered ([None]: an error), and whether
    the write of this round, if any, succeeds. *)
Definition round (doc_root : text) (open_file : text → option text) (io : option text * bool) : comp conn unit :=
  c ← get_state;
  if negb (is_open c) then mret tt else
  match io.1 with
  | None => close
  | Some data =>
      '(result, _) ← on_parser (parse data);
      match (result : result_type) with
      | good =>
          c ← get_state;
          set_response (handle_request doc_root open_file (req (parser_ c)) (response_ c));;
          let keep_alive := is_keep_alive (req (parser_ c)) in
          push_header "Connection" (if keep_alive then "keep-alive" else "close");;
          write_response;;
          if negb (io.2 : bool) then close
          else if negb keep_alive then close
          else reset
      | bad =>
          set_response (build_response bad_request);; push_header "Connection" "close";; write_response;; close
      | indeterminate => mret tt
      end
  end.

Fixpoint start (doc_root : text) (open_file : text → option text) (ios : list (option text * bool)) : comp conn unit :=
  match ios with
  | [] => mret tt
  | io :: ios => round doc_root open_file io;; start doc_root open_file ios
  end.

(** ** Percent-encoding *)

(** [e] is an encoding of [s]: a character stands for itself or is written with
    two hexadecimal digits, and a space may be a plus sign. *)
Inductive encodes : text → text → Prop :=
| enc_nil : encodes [] []
| enc_self c s e : c ≠ "%"%char → c ≠ "+"%char → encodes s e → encodes (c :: s) (c :: e)
| enc_plus s e : encodes s e → encodes (SP :: s) ("+"%char :: e)
| enc_percent c a b x y s e :
    hex_digit a = Some x → hex_digit b = Some y → uchar c = (x * 16 + y)%Z → encodes s e →
    encodes (c :: s) ("%"%char :: a :: b :: e).

Lemma hex_digit_cases c x : hex_digit c = Some x →
  (48 ≤ char_val c ≤ 57 ∨ 65 ≤ char_val c ≤ 70 ∨ 97 ≤ char_val c ≤ 102)%Z.
Proof. unfold hex_digit. repeat case_match; [lia..|done]. Qed.

Lemma hex_digit_not c x d : hex_digit c = Some x → hex_digit d = None → c ≠ d.
Proof. intros H1 H2 ->. congruence. Qed.

Lemma hex_digit_not_space c x : hex_digit c = Some x → isspace c = false.
Proof.
  intros H%hex_digit_cases. unfold isspace, char_val in *. pose proof (uchar_range c). destruct (Z.ltb_spec (uchar c) 128); lia.
Qed.

Lemma extract_two a b x y : hex_digit a = Some x → hex_digit b = Some y → extract_hex [a; b] = Some (x * 16 + y)%Z.
Proof.
  intros Ha Hb. unfold extract_hex. simpl. rewrite (hex_digit_not_space a x Ha).
  rewrite !decide_False by (by eapply hex_digit_not). unfold drop_prefix.
  rewrite decide_False by (intros [_ [-> | ->]]; done). simpl. rewrite Ha, Hb. done.
Qed.

(** ** Files *)

Lemma read_blocks_all fuel file content : length file < fuel → read_blocks fuel file content = content ++ file.
Proof.
  revert file content. induction fuel as [|fuel IH]; intros file content Hf; [lia|]. simpl.
  destruct (take block_size file) as [|c buf] eqn:Hb.
  - destruct file as [|a file]; [by rewrite app_nil_r|]. done.
  - rewrite IH.
    + rewrite <- app_assoc. f_equal. rewrite <- Hb. apply take_drop.
    + assert (0 < length file) by (destruct file; simpl; [done|lia]). rewrite length_drop. unfold block_size. lia.
Qed.

Lemma c_str_app s p : NUL ∉ s → c_str (s ++ p) = s ++ c_str p.
Proof.
  induction s as [|c s IH]; intros Hs; [done|]. apply not_elem_of_cons in Hs as [Hc Hs]. simpl.
  rewrite decide_False by done. by rewrite IH.
Qed.
Lemma c_str_prefix s : ∃ k, s = c_str s ++ k.
Proof.
  induction s as [|c s [k IH]]; simpl; [by exists []|]. case_decide; [by eexists|]. exists k. simpl. by f_equal.
Qed.

(** Paths below the root of the documents. *)
Definition confined (doc_root path : text) : Prop :=
  ∃ p, path = doc_root ++ p ∧ head p = Some "/"%char ∧ find (lit "..") p = None.

Lemma c_str_confined doc_root p :
  NUL ∉ doc_root → head p = Some "/"%char → find (lit "..") p = None → confined doc_root (c_str (doc_root ++ p)).
Proof.
  intros Hr Hh Hf. exists (c_str p). split; [by apply c_str_app|]. destruct p as [|c p]; [done|]. injection Hh as ->. split; [done|].
  apply find_none. intros k k' Hk. destruct (c_str_prefix ("/"%char :: p)) as [l Hl]. rewrite Hk in Hl.
  apply (proj1 (find_none _ _) Hf k (k' ++ l)). by rewrite Hl, <- !app_assoc.
Qed.

(** ** Answers *)

(** The response to a request, as it is written. *)
Definition answer (doc_root : text) (open_file : text → option text) (r : request) : response :=
  let rep := handle_request doc_root open_file r empty_response in
  Response (rep_status rep)
    (rep_headers rep ++ [Header (lit "Connection") (if is_keep_alive r then lit "keep-alive" else lit "close")]) (rep_content rep).

Section serving.
Context (doc_root : text) (open_file : text → option text).

Definition arrivals (chunks : list text) : list (option text * bool) := (λ d, (Some d, true)) <$> chunks.

Lemma start_app ios ios' c :
  start doc_root open_file (ios ++ ios') c =
  match start doc_root open_file ios c with
  | Done _ c' => start doc_root open_file ios' c'
  | Block => Block
  | Fault f => Fault f
  end.
Proof.
  revert c. induction ios as [|io ios IH]; intros c; [done|]. simpl. unfold mbind, comp_bind.
  destruct (round doc_root open_file io c) as [[] c'| |f]; [apply IH|done|done].
Qed.

(** A connection that is closed reads no more. *)
Lemma start_closed ios c : is_open c = false → start doc_root open_file ios c = Done tt c.
Proof.
  intros Hc. induction ios as [|io ios IH]; [done|]. simpl. unfold round, mbind, comp_bind, get_state. simpl. by rewrite Hc.
Qed.

Lemma round_parse d p p' rest w :
  parse d p = Done (indeterminate, rest) p' →
  round doc_root open_file (Some d, true) (Conn p empty_response w true) = Done tt (Conn p' empty_response w true).
Proof. intros Hp. unfold round, on_parser, mbind, comp_bind, get_state. simpl. by rewrite Hp. Qed.

Lemma round_good d p p' rest w :
  parse d p = Done (good, rest) p' →
  ∃ c, round doc_root open_file (Some d, true) (Conn p empty_response w true) = Done tt c ∧
    written c = w ++ [wire (answer doc_root open_file (req p'))] ∧ is_open c = is_keep_alive (req p') ∧
    (is_keep_alive (req p') = true → parser_ c = new_parser ∧ response_ c = empty_response).
Proof.
  intros Hp. unfold round, on_parser, mbind, comp_bind, get_state. simpl. rewrite Hp. simpl.
  unfold set_response, push_header, write_response, close, reset, modify, answer. simpl.
  destruct (is_keep_alive (req p')); simpl; eexists; (split; [done|]); by split_and!.
Qed.

(** A part of the input before the piece in which a request ends is not a verdict yet. *)
Lemma prefix_indeterminate d e p p' lost :
  parse (d ++ e) p = Done (good, lost) p' → length lost < length e →
  ∃ p1 rest, parse d p = Done (indeterminate, rest) p1 ∧ parse e p1 = Done (good, lost) p'.
Proof.
  rewrite parse_app. destruct (parse d p) as [[[] rest] p1| |f] eqn:E; intros H He; try done; [|eauto].
  injection H as <- _. rewrite length_app in He. lia.
Qed.

(** The request ends in the piece [d], whose rest is lost. *)
Lemma serve_pieces front d p p' lost w :
  parse (concat front ++ d) p = Done (good, lost) p' → length lost < length d →
  ∃ c, start doc_root open_file (arrivals (front ++ [d])) (Conn p empty_response w true) = Done tt c ∧
    written c = w ++ [wire (answer doc_root open_file (req p'))] ∧ is_open c = is_keep_alive (req p') ∧
    (is_keep_alive (req p') = true → parser_ c = new_parser ∧ response_ c = empty_response).
Proof.
  intros Hp Hl. revert p Hp. induction front as [|d' ds IH]; intros p Hp.
  - simpl in *. destruct (round_good d p p' lost w Hp) as (c & Hc & H). exists c. split; [|done].
    unfold mbind, comp_bind. by rewrite Hc.
  - cbn [concat] in Hp. rewrite <- app_assoc in Hp.
    destruct (prefix_indeterminate d' (concat ds ++ d) p p' lost Hp) as (p1 & rest & H1 & H2); [rewrite length_app; lia|].
    destruct (IH p1 H2) as (c & Hc & H). exists c. split; [|done].
    cbn [arrivals fmap list_fmap start app]. unfold mbind at 1, comp_bind at 1. by rewrite (round_parse d' p p1 rest w H1).
Qed.

Lemma serve_chunks chunks p p' w :
  parse (concat chunks) p = Done (good, []) p' → Forall (λ d, d ≠ []) chunks → chunks ≠ [] →
  ∃ c, start doc_root open_file (arrivals chunks) (Conn p empty_response w true) = Done tt c ∧
    written c = w ++ [wire (answer doc_root open_file (req p'))] ∧ is_open c = is_keep_alive (req p') ∧
    (is_keep_alive (req p') = true → parser_ c = new_parser ∧ response_ c = empty_response).
Proof.
  intros Hp Hne Hn. destruct (exists_last Hn) as (front & d & ->). rewrite concat_app in Hp. simpl in Hp. rewrite app_nil_r in Hp.
  apply Forall_app in Hne as [_ [Hd _]%Forall_cons]. apply (serve_pieces _ _ _ _ [] _ Hp). destruct d; [by destruct Hd|simpl; lia].
Qed.

(** The requests that are answered: up to the first that closes the connection. *)
Fixpoint served (rs : list request) : list request :=
  match rs with
  | [] => []
  | r :: rs => r :: if is_keep_alive r then served rs else []
  end.
End serving.

Lemma print_request_nonempty q : print_request q ≠ [].
Proof. unfold print_request, print_line. by destruct (q_method q). Qed.

(** What a client sends: a request, in the pieces in which it arrives. *)
Definition delivered (x : raw_request * list text) : Prop :=
  raw_request_ok x.1 ∧ concat x.2 = print_request x.1 ∧ Forall (λ d, d ≠ []) x.2.

(** The pieces up to the one in which a request ends, and what else is in that piece. *)
Definition arrives (x : raw_request * list text) : Prop :=
  raw_request_ok x.1 ∧ ∃ front d lost, x.2 = front ++ [d] ∧ concat front ++ d = print_request x.1 ++ lost ∧ length lost < length d.

Lemma delivered_parse x : delivered x → parse (concat x.2) new_parser = Done (good, []) (Parser expecting_newline_3 (cook x.1)).
Proof. intros (Hq & -> & _). rewrite <- (app_nil_r (print_request x.1)). by apply parse_complete. Qed.
Lemma delivered_nonempty x : delivered x → x.2 ≠ [].
Proof. intros (_ & H & _) He. rewrite He in H. by destruct (print_request_nonempty x.1). Qed.

Lemma serve_all doc_root open_file xs w :
  Forall arrives xs →
  ∃ c, start doc_root open_file (arrivals (concat (snd <$> xs))) (Conn new_parser empty_response w true) = Done tt c ∧
    written c = w ++ ((λ r, wire (answer doc_root open_file r)) <$> served ((λ x, cook x.1) <$> xs)) ∧
    is_open c = forallb is_keep_alive ((λ x, cook x.1) <$> xs).
Proof.
  intros Hx. revert w. induction Hx as [|x xs (Hq & front & d & lost & Hd & Hp & Hl) _ IH]; intros w.
  - eexists. split; [done|]. simpl. by rewrite app_nil_r.
  - rewrite fmap_cons. cbn [concat]. unfold arrivals. rewrite fmap_app, start_app, Hd.
    destruct (serve_pieces doc_root open_file front d new_parser (Parser expecting_newline_3 (cook x.1)) lost w) as (c & Hc & Hw & Ho & Hk);
      [rewrite Hp; by apply parse_complete|done|].
    unfold arrivals in Hc. rewrite Hc. simpl in *. destruct (is_keep_alive (cook x.1)) eqn:E; simpl.
    + destruct (Hk eq_refl) as [H1 H2]. destruct c as [p r w' o]. simpl in *. subst p r w' o.
      destruct (IH (w ++ [wire (answer doc_root open_file (cook x.1))])) as (c' & Hc' & Hw' & Ho').
      exists c'. split; [exact Hc'|]. split; [|done]. rewrite Hw'. by rewrite <- app_assoc.
    + exists c. split; [by apply start_closed|]. by rewrite Hw.
Qed.

(** The server answers: whatever pieces the requests arrive in, it answers each request once, in order
    and with the response to that request, up to the first that asks it to close
    the connection, and keeps the connection open exactly if none does.  What comes after the end
    of a request in the same piece is lost. *)
Theorem server_answers_in_order doc_root open_file xs :
  Forall arrives xs →
  ∃ c, start doc_root open_file (arrivals (concat (snd <$> xs))) new_conn = Done tt c ∧
    written c = (λ r, wire (answer doc_root open_file r)) <$> served ((λ x, cook x.1) <$> xs) ∧
    is_open c = forallb is_keep_alive ((λ x, cook x.1) <$> xs).
Proof. intros Hx. apply (serve_all doc_root open_file xs [] Hx). Qed.

(** C34: no request reaches a file outside the root of the documents: the response
    depends only on files whose path is the root followed by a path that begins
    with a slash and has no two dots in a row, whatever the target of the request
    decodes to. *)
Theorem requests_confined doc_root open_file open_file' r rep :
  NUL ∉ doc_root → (∀ path, confined doc_root path → open_file path = open_file' path) →
  handle_request doc_root open_file r rep = handle_request doc_root open_file' r rep.
Proof.
  intros Hr Hf. unfold handle_request. destruct (url_decode (r_uri r)) as [p|]; [|done].
  case_decide as Hp; [done|]. case_decide; [done|]. rewrite Hf; [done|]. apply c_str_confined; [done|..].
  - destruct (decide (head p = Some "/"%char)); [done|tauto].
  - destruct (find (lit "..") p) eqn:E; [|done]. destruct Hp. right. done.
Qed.

(** [url_decode] inverts every percent-encoding: of a text in which characters
    other than the percent and the plus sign may stand for themselves, any may be
    written with two hexadecimal digits of either case, and a space may be written
    as a plus sign. *)
Theorem url_decode_inverts s e : encodes s e → url_decode e = Some s.
Proof.
  induction 1 as [|c s e H1 H2 _ IH|s e _ IH|c a b x y s e Ha Hb Hc _ IH]; simpl; [done|..].
  - rewrite !decide_False by done. by rewrite IH.
  - by rewrite IH.
  - rewrite (extract_two a b x y Ha Hb), IH. simpl. by rewrite <- Hc, char_of_uchar.
Qed.

Definition get_root : raw_request :=
  RawRequest (lit "GET") (lit "/a%20b.html") (lit "1") (lit "1") [RawHeader (lit "Host") (lit "h") []].
Lemma get_root_ok : raw_request_ok get_root.
Proof.
  split; simpl.
  - split; [done|]. by_decide.
  - by_decide.
  - split; [done|]. split; [by_decide|]. by eexists.
  - split; [done|]. split; [by_decide|]. by eexists.
  - repeat constructor; simpl; [done|by_decide..].
Qed.

(** A request in two pieces, the second of which has some of the next. *)
Definition two_pieces (q : raw_request) : raw_request * list text :=
  (q, [take 12 (print_request q); drop 12 (print_request q) ++ lit "GET /"]).
Lemma get_root_arrives : arrives (two_pieces get_root).
Proof.
  split; [apply get_root_ok|]. exists [take 12 (print_request get_root)], (drop 12 (print_request get_root) ++ lit "GET /"), (lit "GET /").
  split; [reflexivity|]. split; [vm_compute; reflexivity|]. vm_compute. lia.
Qed.

Lemma server_answers_in_order_witness :
  ∃ c, start (lit ".") (λ _, None) (arrivals (concat (snd <$> [two_pieces get_root]))) new_conn = Done tt c ∧ is_open c = true.
Proof.
  destruct (server_answers_in_order (lit ".") (λ _, None) [two_pieces get_root]) as (c & H1 & _ & H2).
  - constructor; [apply get_root_arrives|constructor].
  - exists c. split; [exact H1|]. rewrite H2. vm_compute. reflexivity.
Defined.

(** A file system with a file outside the root. *)
Definition secret_file (path : text) : option text := if decide (path = lit "/etc/passwd") then Some (lit "root") else None.
Lemma requests_confined_witness :
  handle_request (lit ".") secret_file (cook get_root) empty_response = handle_request (lit ".") (λ _, None) (cook get_root) empty_response.
Proof.
  apply (requests_confined (lit ".") secret_file (λ _, None)).
  - by_decide.
  - intros path (p & -> & _). unfold secret_file. rewrite decide_False; [reflexivity|]. discriminate.
Defined.

Lemma url_decode_inverts_witness : url_decode (lit "a%2Fb+c") = Some (lit "a/b c").
Proof.
  apply (url_decode_inverts (lit "a/b c") (lit "a%2Fb+c")). unfold lit. cbn [String.list_ascii_of_string].
  apply enc_self; [discriminate|discriminate|]. eapply enc_percent; [reflexivity|reflexivity|reflexivity|].
  apply enc_self; [discriminate|discriminate|]. apply enc_plus. apply enc_self; [discriminate|discriminate|]. apply enc_nil.
Defined.

(** A second request in the same piece is lost: there is one answer. *)
Lemma pipelined_request_lost :
  ∃ c, start (lit ".") (λ _, None) (arrivals [print_request get_root ++ print_request get_root]) new_conn = Done tt c ∧
    length (written c) = 1 ∧ is_open c = true.
Proof. eexists. split; [vm_compute; reflexivity|]. by vm_compute. Qed.

(** What is not an encoding is decoded nevertheless, when a part of it is a number. *)
Lemma url_decode_lenient :
  url_decode (lit "%2g") = Some [char_of 2] ∧ url_decode (lit "%+5") = Some [char_of 5] ∧ url_decode (lit "%-5") = Some [char_of 251].
Proof. by vm_compute. Qed.
