(* ===== verification/HttpClient.v ===== *)
(** * [http_client.hpp]: URLs, the request and the reading of the response

    [http_call] with the socket as arguments: what the connection attempt gives,
    and the data and errors that the reads meet in turn.  The stream that reads
    from the buffer is modelled with its error state. *)

From S2P Require Import Prelude Conc Text Socket HttpRequest HttpResponse Connection.
From Stdlib Require Import Ascii.
From stdpp Require Import options.

(** ** [parse_url] *)

Record parsed_url : Type := ParsedUrl {
  u_scheme : text;
  u_host : text;
  u_port : text;
  u_path : text }.

(** The steps of [parse_url]. *)
Definition split_scheme (s : text) : text * text :=
  match find (lit "://") s with
  | Some pos_scheme => (take pos_scheme s, drop (pos_scheme + 3) s)
  | None => (lit "http", s)
  end.
Definition split_path (s : text) : text * text :=
  match find (lit "/") s with None => (s, lit "/") | Some p => (take p s, drop p s) end.
Definition split_port (hostport : text) : text * text :=
  if decide (head hostport = Some "["%char) then
    match find (lit "]") hostport with
    | None => (hostport, [])
    | Some end_ =>
        (substr 1 (end_ - 1) hostport,
         if decide (hostport !! S end_ = Some ":"%char) then drop (end_ + 2) hostport else [])
    end
  else
    match rfind ":"%char hostport with
    | Some pos_colon => (take pos_colon hostport, drop (S pos_colon) hostport)
    | None => (hostport, [])
    end.

Definition parse_url (url : text) : outcome parsed_url :=
  let '(scheme, s) := split_scheme (trim url) in
  let '(hostport, path) := split_path s in
  let '(host, port) := split_port hostport in
  let port := if decide (port = []) then (if decide (scheme = lit "https") then lit "443" else lit "80") else port in
  if decide (host = []) then Throw invalid_argument
  else Ret (ParsedUrl scheme host port path).

(** ** [build_request] *)

Definition build_request (u : parsed_url) : text :=
  lit "GET " ++ (if decide (u_path u = []) then lit "/" else u_path u) ++ lit " HTTP/1.1" ++ CRLF ++
  (lit "Host: " ++ u_host u ++ lit ":" ++ u_port u ++ CRLF) ++
  (lit "Accept: */*" ++ CRLF) ++
  (lit "User-Agent: Wget/1.14 (linux-gnu)" ++ CRLF) ++
  (lit "Connection: close" ++ CRLF ++ CRLF).

(** ** The stream over the buffer *)

Record istream : Type := Istream { sb : text; eofbit : bool; failbit : bool }.

Definition is_good (s : istream) : bool := negb (eofbit s) && negb (failbit s).

(** The sentry of the extractors: white space is skipped. *)
Definition sentry (s : istream) : istream :=
  if is_good s then
    match drop_space (sb s) with
    | [] => Istream [] true true
    | b => Istream b false false
    end
  else Istream (sb s) (eofbit s) true.

Fixpoint take_until (stop : ascii → bool) (b : text) : text * text :=
  match b with
  | [] => ([], [])
  | c :: b' => if stop c then ([], b) else let '(w, r) := take_until stop b' in (c :: w, r)
  end.

(** [rs >> word] *)
Definition extract_word (s : istream) : text * istream :=
  let s := sentry s in
  if is_good s then
    let '(w, r) := take_until isspace (sb s) in (w, Istream r (bool_decide (r = [])) false)
  else ([], s).

(** The longest numeral at the front, with its sign. *)
Definition signed_digits (b : text) : bool * text * text :=
  let '(neg, b) :=
    match b with
    | c :: b' => if decide (c = "-"%char) then (true, b') else if decide (c = "+"%char) then (false, b') else (false, b)
    | [] => (false, b)
    end in
  let '(ds, r) := take_until (λ c, negb (isdigit c)) b in (neg, ds, r).

(** An unsigned number of [w] bits; [None]: there is none, or it is too large. *)
Definition unsigned_of (w : Z) (neg : bool) (ds : text) : option Z :=
  if decide (ds = []) then None
  else if decide (dec_value ds < 2 ^ w)%Z then Some ((if neg then - dec_value ds else dec_value ds) mod 2 ^ w)%Z
  else None.

(** [rs >> status_code], an [unsigned int] *)
Definition extract_unsigned (s : istream) : Z * istream :=
  let s := sentry s in
  if is_good s then
    let '(neg, ds, r) := signed_digits (sb s) in
    match unsigned_of 32 neg ds with
    | Some v => (v, Istream r (bool_decide (r = [])) false)
    | None => (if decide (ds = []) then 0 else 2 ^ 32 - 1, Istream r (bool_decide (r = [])) true)%Z
    end
  else (0%Z, s).

(** [std::getline] *)
Definition getline (s : istream) : text * istream :=
  if is_good s then
    let '(l, r) := take_until (λ c, bool_decide (c = LF)) (sb s) in
    match r with
    | [] => (l, Istream [] true (bool_decide (l = [])))
    | _ :: r => (l, Istream r false false)
    end
  else ([], Istream (sb s) (eofbit s) true).

(** [std::stoull]; [None]: it throws. *)
Definition stoull (b : text) : option Z :=
  let '(neg, ds, _) := signed_digits (drop_space b) in unsigned_of 64 neg ds.

(** ** [parse_headers_and_content_length] *)

Definition header_content_length (header : text) : option Z :=
  match find (lit ":") header with
  | Some pos =>
      if decide (tolower <$> take pos header = lit "content-length") then stoull (trim (drop (S pos) header)) else None
  | None => None
  end.

(** [fuel]: at least the number of lines.  The length is that of the first header
    that has one. *)
Fixpoint parse_headers (fuel : nat) (content_length : option Z) (s : istream) : option Z * istream :=
  match fuel with
  | 0 => (content_length, s)
  | S fuel =>
      let '(header, s) := getline s in
      if failbit s then (content_length, s)
      else if decide (header = [CR]) then (content_length, s)
      else
        let cl := match content_length with Some n => Some n | None => header_content_length header end in
        parse_headers fuel cl s
  end.

(** ** [http_call] *)

(** The loop that reads what is left of a body of known length.  [fuel]: more than
    the number of bytes and arrivals. *)
Fixpoint read_counted (fuel : nat) (remaining : Z) (evs : list arrival) (printed : text) : outcome text :=
  match fuel with
  | 0 => Ret printed
  | S fuel =>
      if decide (remaining ≤ 0)%Z then Ret printed else
      match read_some (Z.to_nat (Z.min remaining 8192)) evs with
      | (inr err_eof, _) | (inl [], _) => Ret printed
      | (inr e, _) => throw_error e
      | (inl d, evs) => read_counted fuel (remaining - Z.of_nat (length d)) evs (printed ++ d)
      end
  end.

(** The loop that reads a body that ends with the stream. *)
Fixpoint read_to_end (fuel : nat) (evs : list arrival) (printed : text) : outcome text :=
  match fuel with
  | 0 => Ret printed
  | S fuel =>
      match read_some 8192 evs with
      | (inr err_eof, _) | (inl [], _) => Ret printed
      | (inr e, _) => throw_error e
      | (inl d, evs) => read_to_end fuel evs (printed ++ d)
      end
  end.

(** What is printed: a complaint, or a body. *)
Inductive http_result : Type :=
| invalid_response
| unexpected_status (code : Z)
| received (content : text).

Definition read_body (evs : list arrival) (s : istream) : outcome http_result :=
  let '(buf, evs) := read_until (CRLF ++ CRLF) (sb s) evs in
  let '(content_length, s) := parse_headers (S (length buf)) None (Istream buf (eofbit s) (failbit s)) in
  let already := sb s in
  outcome_bind
    match content_length with
    | Some n =>
        let remaining := if decide (Z.of_nat (length already) < n)%Z then (n - Z.of_nat (length already))%Z else 0%Z in
        read_counted (enough evs) remaining evs already
    | None => read_to_end (enough evs) evs already
    end (λ content, Ret (received content)).

Definition read_response (evs : list arrival) : outcome http_result :=
  let '(buf, evs) := read_until CRLF [] evs in
  let '(http_version, s) := extract_word (Istream buf false false) in
  let '(status_code, s) := extract_unsigned s in
  let '(_, s) := getline s in
  if decide (failbit s = true ∨ take 5 http_version ≠ lit "HTTP/") then Ret invalid_response
  else if decide (status_code ≠ 200%Z) then Ret (unexpected_status status_code)
  else read_body evs s.

(** [connect]: the error of the connection, if any.  What is written, and how the
    call ends; the result of the write is ignored. *)
Definition http_call (url : text) (connect : option net_error) (evs : list arrival) : list text * outcome http_result :=
  match parse_url url with
  | Ret u =>
      if decide (u_scheme u ≠ lit "http") then ([], Throw invalid_argument)
      else
        match connect with
        | Some err => ([], throw_error err)
        | None => ([build_request u], read_response evs)
        end
  | Throw e => ([], Throw e)
  | Terminate => ([], Terminate)
  end.

(** ** URLs *)

Record url_parts : Type := UrlParts {
  up_scheme : option text;
  up_host : text;
  up_bracket : bool;
  up_port : option text;
  up_path : text }.

Definition print_hostport (x : url_parts) : text :=
  (if up_bracket x then "["%char :: up_host x ++ ["]"%char] else up_host x) ++
  match up_port x with Some p => ":"%char :: p | None => [] end.
Definition print_url (x : url_parts) : text :=
  match up_scheme x with Some s => s ++ lit "://" | None => [] end ++ print_hostport x ++ up_path x.

(** What each part may contain. *)
Record url_parts_ok (x : url_parts) : Prop := UrlPartsOk {
  uo_space : Forall (λ c, isspace c = false) (print_url x);
  uo_scheme : match up_scheme x with
              | Some s => ":"%char ∉ s
              | None => find (lit "://") (print_hostport x ++ up_path x) = None
              end;
  uo_host : up_host x ≠ [];
  uo_slash : "/"%char ∉ print_hostport x;
  uo_path : up_path x = [] ∨ head (up_path x) = Some "/"%char;
  uo_form : if up_bracket x then "]"%char ∉ up_host x
            else head (up_host x) ≠ Some "["%char ∧
                 match up_port x with Some p => ":"%char ∉ p | None => ":"%char ∉ up_host x end }.

Definition parts_url (x : url_parts) : parsed_url :=
  let scheme := default (lit "http") (up_scheme x) in
  ParsedUrl scheme (up_host x)
    (match up_port x with Some ((_ :: _) as p) => p | _ => if decide (scheme = lit "https") then lit "443" else lit "80" end)
    (match up_path x with [] => lit "/" | p => p end).

Lemma split_scheme_ok x :
  url_parts_ok x → split_scheme (print_url x) = (default (lit "http") (up_scheme x), print_hostport x ++ up_path x).
Proof.
  intros [_ Hs _ _ _ _]. unfold split_scheme, print_url. destruct (up_scheme x) as [s|]; simpl.
  - rewrite <- app_assoc. change (lit "://") with (":"%char :: lit "//"). rewrite find_app by done.
    rewrite take_app_length. f_equal. by rewrite <- drop_drop, drop_app_length.
  - rewrite Hs. done.
Qed.

Lemma split_path_ok x :
  url_parts_ok x → split_path (print_hostport x ++ up_path x) = (print_hostport x, match up_path x with [] => lit "/" | p => p end).
Proof.
  intros [_ _ _ Hs Hp _]. unfold split_path. destruct (up_path x) as [|c p].
  - rewrite app_nil_r. change (lit "/") with ("/"%char :: []). by rewrite find_absent.
  - destruct Hp as [?|[= ->]]; [done|]. change (lit "/") with ("/"%char :: []).
    change ("/"%char :: p) with (("/"%char :: []) ++ p). rewrite find_app by done. by rewrite take_app_length, drop_app_length.
Qed.

Lemma split_port_ok x : url_parts_ok x → split_port (print_hostport x) = (up_host x, default [] (up_port x)).
Proof.
  intros [_ _ Hh _ _ Hf]. unfold split_port, print_hostport. destruct (up_bracket x).
  - simpl. rewrite <- app_assoc. simpl. change (lit "]") with ("]"%char :: []).
    change ("["%char :: up_host x ++ ?r) with (("["%char :: up_host x) ++ r).
    replace ("]"%char :: match up_port x with Some p => ":"%char :: p | None => [] end)
      with (("]"%char :: []) ++ match up_port x with Some p => ":"%char :: p | None => [] end) by done.
    rewrite find_app by done. simpl. unfold substr. simpl. rewrite Nat.sub_0_r, drop_0, take_app_length. f_equal.
    rewrite lookup_app_r by lia. replace (S (length (up_host x)) - length (up_host x)) with 1 by lia.
    destruct (up_port x) as [p|]; simpl; [|done].
    by rewrite <- drop_drop, drop_app_length.
  - destruct Hf as [Hb Hp]. rewrite decide_False by (by destruct (up_host x)). destruct (up_port x) as [p|]; simpl.
    + rewrite rfind_app by done. rewrite take_app_length. f_equal.
      replace (S (length (up_host x))) with (length (up_host x) + 1) by lia. by rewrite <- drop_drop, drop_app_length.
    + rewrite app_nil_r. by rewrite rfind_absent.
Qed.

(** A URL is taken apart into the parts it was made of, with the default
    scheme, port and path for those that it leaves out; a bracketed host (an IPv6
    address) may have colons in it. *)
Theorem parse_url_parts x : url_parts_ok x → parse_url (print_url x) = Ret (parts_url x).
Proof.
  intros Hx. unfold parse_url, parts_url. rewrite trim_id by apply Hx. rewrite split_scheme_ok, split_path_ok, split_port_ok by done.
  rewrite (decide_False (P := up_host x = [])) by apply Hx.
  by destruct (up_port x) as [[|c p]|].
Qed.

(** ** The request and the server *)

Definition path_of (u : parsed_url) : text := if decide (u_path u = []) then lit "/" else u_path u.

Definition raw_get (u : parsed_url) : raw_request :=
  RawRequest (lit "GET") (path_of u) (lit "1") (lit "1")
    [RawHeader (lit "Host") (u_host u ++ lit ":" ++ u_port u) [];
     RawHeader (lit "Accept") (lit "*/*") [];
     RawHeader (lit "User-Agent") (lit "Wget/1.14 (linux-gnu)") [];
     RawHeader (lit "Connection") (lit "close") []].

Lemma build_request_print u : build_request u = print_request (raw_get u).
Proof.
  unfold build_request, print_request, print_line, print_version, print_headers, print_header, print_open. fold (path_of u). simpl.
  repeat (rewrite <- !app_assoc; simpl). reflexivity.
Qed.

(** The characters that the parts of the URL may have. *)
Record url_clean (u : parsed_url) : Prop := UrlClean {
  uc_path : Forall uri_char (u_path u);
  uc_host : Forall value_char (u_host u);
  uc_port : Forall value_char (u_port u) }.

Lemma plain_header_ok n v : name_ok n → Forall value_char v → raw_header_ok (RawHeader n v []).
Proof. intros. split; [done|done|by apply Forall_nil]. Qed.

Lemma raw_get_ok u : url_clean u → raw_request_ok (raw_get u).
Proof.
  intros [Hp Hh Ho]. split; simpl.
  - split; [done|by_decide].
  - unfold path_of. case_decide; [by_decide|done].
  - split; [done|]. split; [by_decide|by eexists].
  - split; [done|]. split; [by_decide|by eexists].
  - apply List.Forall_cons; [|apply List.Forall_cons; [|apply List.Forall_cons; [|apply Forall_singleton]]]; (apply plain_header_ok; [split; [done|by_decide]|]); [|by_decide..].
    apply Forall_app. split; [done|]. constructor; [by_decide|done].
Qed.

Lemma raw_get_closes u : is_keep_alive (cook (raw_get u)) = false.
Proof. by vm_compute. Qed.

(** ** Reading a response *)

Lemma take_until_app stop w c r : Forall (λ x, stop x = false) w → stop c = true → take_until stop (w ++ c :: r) = (w, c :: r).
Proof. intros Hw Hc. induction Hw as [|a w Ha _ IH]; simpl; [by rewrite Hc|]. by rewrite Ha, IH. Qed.
Lemma take_until_all stop w : Forall (λ x, stop x = false) w → take_until stop w = (w, []).
Proof. induction 1 as [|a w Ha _ IH]; simpl; [done|]. by rewrite Ha, IH. Qed.

Lemma getline_line l r : LF ∉ l → getline (Istream (l ++ LF :: r) false false) = (l, Istream r false false).
Proof.
  intros Hl. unfold getline. cbn [is_good eofbit failbit negb andb sb]. rewrite take_until_app; [done| |by apply bool_decide_true].
  apply Forall_forall. intros c Hc. apply bool_decide_false. by intros ->.
Qed.

Lemma status_line_read s b :
  s ≠ status_none →
  let '(v, s1) := extract_word (Istream (status_to_buffer s ++ b) false false) in
  let '(code, s2) := extract_unsigned s1 in
  v = lit "HTTP/1.1" ∧ code = Z.of_N (status_code s) ∧
  (getline s2).2 = Istream b false false.
Proof. destruct s; intros ?; by vm_compute. Qed.

Lemma status_line_end s : ∃ k, status_to_buffer s = k ++ CRLF ∧ CR ∉ k.
Proof. exists (take (length (status_to_buffer s) - 2) (status_to_buffer s)). destruct s; (split; [reflexivity|by_decide]). Qed.

(** *** Header lines *)

Definition clean (h : header) : Prop := CR ∉ h_name h ∧ CR ∉ h_value h ∧ LF ∉ h_name h ∧ LF ∉ h_value h ∧ h_name h ≠ [].

#[global] Instance clean_dec h : Decision (clean h).
Proof. unfold clean. apply _. Defined.

(** A line without its end. *)
Definition field (h : header) : text := h_name h ++ name_value_separator ++ h_value h.

Lemma print_field_eq h : print_field h = field h ++ CRLF.
Proof. unfold print_field, field. by rewrite <- !app_assoc. Qed.
Lemma field_no c h : c ∉ name_value_separator → c ∉ h_name h → c ∉ h_value h → c ∉ field h.
Proof. unfold field. rewrite !elem_of_app. tauto. Qed.

Lemma find_line l c r :
  CR ∉ l → c ≠ CR → find (CRLF ++ CRLF) (l ++ CRLF ++ c :: r) = (λ i, length l + 2 + i) <$> find (CRLF ++ CRLF) (c :: r).
Proof.
  intros Hl Hc. rewrite (find_skip CR (LF :: CRLF)) by done. change (CRLF ++ c :: r) with (CR :: LF :: c :: r).
  rewrite find_cons by (simpl; by rewrite (bool_decide_false (CR = c))). rewrite find_cons by done.
  change (CRLF ++ CRLF) with (CR :: LF :: CRLF). destruct (find _ (c :: r)); simpl; [|done]. f_equal. lia.
Qed.

Lemma header_block hs content :
  Forall clean hs → hs ≠ [] →
  ∃ k, concat (print_field <$> hs) = k ++ CRLF ∧
    find (CRLF ++ CRLF) (k ++ (CRLF ++ CRLF) ++ content) = Some (length k).
Proof.
  intros Hh. induction Hh as [|h hs Hc Hh IH]; [done|]. intros _. destruct Hc as (Hc1 & Hc2 & _ & _ & Hne).
  assert (CR ∉ field h) as Hf by (apply field_no; [by_decide|done..]).
  destruct hs as [|h' hs].
  - exists (field h). simpl. rewrite app_nil_r, print_field_eq. split; [done|]. by apply (find_app CR (LF :: CRLF)).
  - destruct IH as (k & Hk & Hk'); [done|]. rewrite <- !app_assoc in Hk'. exists (field h ++ CRLF ++ k).
    rewrite fmap_cons. cbn [concat]. rewrite Hk, print_field_eq, <- !app_assoc. split; [done|].
    assert (∃ c r, k ++ CRLF ++ CRLF ++ content = c :: r ∧ c ≠ CR) as (c & r & Hr & Hn).
    { rewrite fmap_cons in Hk. cbn [concat] in Hk. apply Forall_cons in Hh as [(Hn & _ & _ & _ & Hne') _].
      unfold print_field in Hk. destruct (h_name h') as [|c n]; [done|]. apply not_elem_of_cons in Hn as [Hn _].
      destruct k as [|c' k]; [by injection Hk as [= -> _]|]. injection Hk as [= -> _]. by eexists _, _. }
    rewrite Hr, find_line, <- Hr, Hk' by done. simpl. f_equal. rewrite length_app. simpl. lia.
Qed.

Lemma parse_headers_fields hs fuel cl b :
  Forall clean hs → length hs < fuel →
  parse_headers fuel cl (Istream (concat (print_field <$> hs) ++ CRLF ++ b) false false) =
  (foldl (λ cl h, match cl with Some n => Some n | None => header_content_length (field h ++ [CR]) end) cl hs, Istream b false false).
Proof.
  intros Hh. revert fuel cl. induction Hh as [|h hs (_ & _ & Hn & Hv & Hne) Hh IH]; intros [|fuel] cl Hf; simpl in Hf; try lia.
  - cbn [fmap list_fmap concat app parse_headers]. change (CRLF ++ b) with ([CR] ++ LF :: b). rewrite getline_line by by_decide. done.
  - rewrite fmap_cons. cbn [concat parse_headers]. rewrite print_field_eq. replace ((field h ++ CRLF) ++ concat (print_field <$> hs))
      with (field h ++ CRLF ++ concat (print_field <$> hs)) by (by rewrite app_assoc). unfold CRLF at 1.
    replace ((field h ++ [CR; LF] ++ concat (print_field <$> hs)) ++ CRLF ++ b)
      with ((field h ++ [CR]) ++ LF :: (concat (print_field <$> hs) ++ CRLF ++ b)) by (by rewrite <- !app_assoc).
    rewrite getline_line.
    + cbn [failbit]. rewrite decide_False; [rewrite IH by lia; done|]. intros Hl%(f_equal length). unfold field in Hl.
      rewrite !length_app in Hl. simpl in Hl. lia.
    + apply not_elem_of_app. split; [|by_decide]. by apply field_no; [by_decide|..].
Qed.

Lemma trim_value s : s ≠ [] → Forall (λ c, isspace c = false) s → trim (SP :: s ++ [CR]) = s.
Proof.
  intros Hne Hs. unfold trim. destruct Hs as [|c s Hc Hs]; [done|]. simpl. rewrite Hc. simpl. rewrite rev_app_distr. simpl.
  rewrite drop_space_id; [by rewrite rev_app_distr, rev_involutive|]. by apply Forall_app; split; [apply Forall_rev|constructor].
Qed.

Lemma isdigit_plain c : isdigit c = true → isspace c = false ∧ c ≠ "-"%char ∧ c ≠ "+"%char.
Proof.
  intros Hd. assert (∀ d, isdigit d = false → c ≠ d) as Hn by (intros d ? ->; congruence).
  split; [|split; by apply Hn]. revert Hd. by destruct c as [[] [] [] [] [] [] [] []].
Qed.

Lemma stoull_digits ds :
  ds ≠ [] → Forall (λ c, isdigit c = true) ds → (0 ≤ dec_value ds < 2 ^ 64)%Z → stoull ds = Some (dec_value ds).
Proof.
  intros Hne Hd Hv. unfold stoull. rewrite drop_space_id by (eapply Forall_impl; [done|]; intros; by apply isdigit_plain).
  unfold signed_digits. destruct Hd as [|c ds Hc Hd]; [done|]. destruct (isdigit_plain c Hc) as (_ & H1 & H2).
  rewrite !decide_False by done. rewrite take_until_all.
  - unfold unsigned_of. rewrite decide_False by done. rewrite decide_True by lia. by rewrite Z.mod_small.
  - constructor; [by rewrite Hc|]. eapply Forall_impl; [done|]. intros x Hx. simpl in *. by rewrite Hx.
Qed.

Lemma content_length_read n :
  (Z.of_N n < 2 ^ 64)%Z →
  header_content_length (field (Header (lit "Content-Length") (to_string n)) ++ [CR]) = Some (Z.of_N n).
Proof.
  intros Hn. unfold header_content_length, field, h_name, h_value, name_value_separator.
  replace ((lit "Content-Length" ++ lit ": " ++ to_string n) ++ [CR]) with (lit "Content-Length" ++ lit ":" ++ SP :: to_string n ++ [CR]) by done.
  change (lit ":") with (":"%char :: []). rewrite find_app by by_decide. rewrite take_app_length.
  rewrite decide_True by by_decide. change (drop _ _) with (SP :: to_string n ++ [CR]). pose proof (to_string_isdigit n) as Hd.
  rewrite trim_value; [|apply to_string_nonempty|eapply Forall_impl; [done|]; intros; by apply isdigit_plain].
  rewrite <- (to_string_value n) in Hn |- *. apply stoull_digits; [apply to_string_nonempty|done|].
  split; [|done]. rewrite to_string_value. lia.
Qed.

(** *** Bodies *)

Lemma read_counted_all fuel chunks printed :
  Forall (λ d, d ≠ []) chunks → length chunks + length (concat chunks) < fuel →
  read_counted fuel (Z.of_nat (length (concat chunks))) (data <$> chunks) printed = Ret (printed ++ concat chunks).
Proof.
  revert chunks printed. induction fuel as [|fuel IH]; intros chunks printed Hc Hf; [lia|]. cbn [read_counted].
  destruct Hc as [|d ds Hd Hds]; [by rewrite app_nil_r|]. cbn [concat fmap list_fmap length] in *. rewrite length_app in *.
  destruct d as [|c d]; [done|]. simpl length in *. rewrite decide_False by lia. cbn [read_some].
  set (n := Z.to_nat _). assert (n = S (n - 1)) as Hn by (unfold n; lia). set (w := c :: d) in *.
  assert (length w = S (length d)) as Hw by done.
  assert (take n w ≠ []) as Htw by (rewrite Hn; done).
  destruct (drop n w) as [|x r] eqn:Hr.
  - assert (take n w = w) as -> by (rewrite <- (take_drop n w) at 2; rewrite Hr; by rewrite app_nil_r). fold w. rewrite Hw.
    replace (Z.of_nat _ - _)%Z with (Z.of_nat (length (concat ds))) by lia. rewrite IH by (done || lia). by rewrite <- app_assoc.
  - destruct (take n w) as [|y t] eqn:Ht; [done|]. pose proof (take_drop n w) as Htd. rewrite Ht, Hr in Htd.
    assert (length w = length (y :: t) + length (x :: r)) as Hl by (rewrite <- Htd; by rewrite length_app).
    change (data (x :: r) :: (data <$> ds)) with (data <$> ((x :: r) :: ds)).
    replace (Z.of_nat (S (length d) + length (concat ds)) - _)%Z with (Z.of_nat (length (concat ((x :: r) :: ds))))
      by (cbn [concat]; rewrite length_app; lia).
    rewrite IH; [|by constructor|cbn [concat]; rewrite length_app; simpl in *; lia].
    cbn [concat]. rewrite <- Htd, <- !app_assoc. done.
Qed.

(** A response that says how long it is. *)
Definition length_header (content : text) : header := Header (lit "Content-Length") (to_string (N.of_nat (length content))).
Definition framed (r : response) : Prop :=
  rep_status r ≠ status_none ∧ (Z.of_nat (length (rep_content r)) < 2 ^ 64)%Z ∧
  ∃ hs, rep_headers r = length_header (rep_content r) :: hs ∧ Forall clean hs.

Definition client_view (r : response) : http_result :=
  if decide (rep_status r = ok) then received (rep_content r) else unexpected_status (Z.of_N (status_code (rep_status r))).

Lemma digits_no c ds : isdigit c = false → Forall (λ c, isdigit c = true) ds → c ∉ ds.
Proof. intros Hc Hd Hi. rewrite Forall_forall in Hd. specialize (Hd c Hi). simpl in Hd. congruence. Qed.

Lemma length_header_clean content : clean (length_header content).
Proof.
  pose proof (to_string_isdigit (N.of_nat (length content))) as Hd.
  unfold length_header. split_and!; simpl; try by_decide; by apply digits_no.
Qed.

Lemma foldl_found {A} (f : A → option Z) n (l : list A) : foldl (λ o x, match o with Some n => Some n | None => f x end) (Some n) l = Some n.
Proof. by induction l. Qed.

Lemma fields_length hs : length hs ≤ length (concat (print_field <$> hs)).
Proof.
  induction hs as [|h hs IH]; [done|]. rewrite fmap_cons. cbn [concat length]. rewrite length_app, print_field_eq, length_app.
  change (length CRLF) with 2. lia.
Qed.

Lemma read_body_framed r b chunks :
  framed r → Forall (λ d, d ≠ []) chunks → b ++ concat chunks = concat (print_field <$> rep_headers r) ++ CRLF ++ rep_content r →
  read_body (data <$> chunks) (Istream b false false) = Ret (received (rep_content r)).
Proof.
  intros (_ & Hlen & hs & Hh & Hcl) Hc Hb. pose proof (length_header_clean (rep_content r)) as Hlc.
  assert (Forall clean (rep_headers r)) as Hcs by (rewrite Hh; by constructor).
  destruct (header_block (rep_headers r) (rep_content r) Hcs) as (k & Hk & Hf); [by rewrite Hh|].
  rewrite Hk, <- app_assoc in Hb. unfold read_body. cbn [sb eofbit failbit].
  destruct (read_until_delim (CRLF ++ CRLF) k (rep_content r) b chunks) as (b' & cs & -> & Hr & Hcs'); [by rewrite Hb, <- app_assoc|done|done|].
  replace (k ++ (CRLF ++ CRLF) ++ b') with (concat (print_field <$> rep_headers r) ++ CRLF ++ b') by (by rewrite Hk, <- !app_assoc).
  rewrite parse_headers_fields; [|done|]; last first.
  { rewrite length_app. pose proof (fields_length (rep_headers r)). lia. }
  rewrite Hh. cbn [foldl sb]. unfold length_header at 1. rewrite content_length_read by lia. rewrite foldl_found.
  rewrite nat_N_Z, Hr, length_app. case_decide.
  - replace (Z.of_nat (length b' + length (concat cs)) - Z.of_nat (length b'))%Z with (Z.of_nat (length (concat cs))) by lia.
    rewrite read_counted_all; [done|done|]. rewrite enough_data. lia.
  - assert (concat cs = []) as Hn by (apply nil_length_inv; lia). rewrite Hn, app_nil_r. unfold enough. by destruct cs.
Qed.

Lemma read_response_framed r chunks :
  framed r → Forall (λ d, d ≠ []) chunks → concat chunks = wire r → read_response (data <$> chunks) = Ret (client_view r).
Proof.
  intros Hr Hc Hw. rewrite wire_eq in Hw. destruct (status_line_end (rep_status r)) as (k & Hk & Hcr).
  unfold read_response. rewrite Hk, <- app_assoc in Hw.
  destruct (read_until_delim CRLF k (concat (print_field <$> rep_headers r) ++ CRLF ++ rep_content r) [] chunks)
    as (b & cs & -> & Hb & Hcs); [done|by apply (find_app CR [LF])|done|].
  rewrite app_assoc, <- Hk. pose proof (status_line_read (rep_status r) b (proj1 Hr)) as Hs.
  destruct (extract_word _) as [v s1]. destruct (extract_unsigned s1) as [code s2]. destruct Hs as (-> & -> & Hs).
  destruct (getline s2) as [l s3]. simpl in Hs. subst s3. rewrite decide_False by (intros [?|?]; done).
  unfold client_view. destruct (decide (rep_status r = ok)) as [Ho|Ho].
  - rewrite Ho. simpl. by apply read_body_framed.
  - rewrite decide_True; [done|]. by destruct (rep_status r).
Qed.

(** *** The termination of the loops *)

Lemma read_counted_fuel fuel fuel' rem evs printed :
  length evs + length (bytes evs) < fuel → fuel ≤ fuel' → read_counted fuel' rem evs printed = read_counted fuel rem evs printed.
Proof.
  revert fuel' rem evs printed. induction fuel as [|fuel IH]; intros [|fuel'] rem evs printed Hf Hf'; try lia. cbn [read_counted].
  case_decide; [done|]. destruct (read_some _ evs) as [[[|c d]|[]] evs'] eqn:E; try done. apply IH; [|lia].
  apply read_some_shrinks in E; lia.
Qed.

Lemma read_to_end_fuel fuel fuel' evs printed :
  length evs + length (bytes evs) < fuel → fuel ≤ fuel' → read_to_end fuel' evs printed = read_to_end fuel evs printed.
Proof.
  revert fuel' evs printed. induction fuel as [|fuel IH]; intros [|fuel'] evs printed Hf Hf'; try lia. cbn [read_to_end].
  destruct (read_some 8192 evs) as [[[|c d]|[]] evs'] eqn:E; try done. apply IH; [|lia].
  apply read_some_shrinks in E; [lia|by_decide].
Qed.

Lemma take_until_split stop b : let '(w, r) := take_until stop b in b = w ++ r.
Proof. induction b as [|c b IH]; simpl; [done|]. destruct (stop c); [done|]. destruct (take_until stop b). by rewrite IH. Qed.

Lemma getline_shrinks s : let '(_, s') := getline s in failbit s' = false → length (sb s') < length (sb s).
Proof.
  unfold getline. destruct (is_good s); [|done]. pose proof (take_until_split (λ c, bool_decide (c = LF)) (sb s)) as Ht.
  destruct (take_until _ _) as [l [|c r]]; rewrite Ht, length_app; simpl; [|lia]. destruct l; [done|]. simpl. lia.
Qed.

Lemma parse_headers_fuel fuel fuel' cl s :
  length (sb s) < fuel → fuel ≤ fuel' → parse_headers fuel' cl s = parse_headers fuel cl s.
Proof.
  revert fuel' cl s. induction fuel as [|fuel IH]; intros [|fuel'] cl s Hf Hf'; try lia. cbn [parse_headers].
  pose proof (getline_shrinks s) as Hg. destruct (getline s) as [h s']. destruct (failbit s'); [done|]. specialize (Hg eq_refl).
  case_decide; [done|]. apply IH; lia.
Qed.

(** ** The client and the server together *)

(** What a client should see of a path. *)
Definition resource (doc_root : text) (open_file : text → option text) (path : text) : http_result :=
  match url_decode path with
  | None => unexpected_status 400
  | Some p =>
      if decide (head p ≠ Some "/"%char ∨ find (lit "..") p ≠ None) then unexpected_status 400
      else if decide (last p = Some "/"%char) then received (content_of ok)
      else match open_file (c_str (doc_root ++ p)) with None => unexpected_status 404 | Some file => received file end
  end.

Section exchange.
Context (doc_root : text) (open_file : text → option text).
Context (Hsize : ∀ p file, open_file p = Some file → (Z.of_nat (length file) < 2 ^ 64)%Z).

Lemma extension_clean e : clean (Header (lit "Content-Type") (extension_to_type e)).
Proof.
  unfold extension_to_type. destruct (list_find _ mime_map) as [[i x]|] eqn:E; [|by_decide].
  apply list_find_Some in E as (E & _). do 5 (destruct i as [|i]; [injection E as <-; by_decide|]). done.
Qed.

Lemma built_framed s (b : bool) :
  s ≠ status_none →
  framed (Response s (rep_headers (build_response s) ++ [Header (lit "Connection") (if b then lit "keep-alive" else lit "close")]) (content_of s)).
Proof.
  intros Hs. split_and!; [done| |].
  - cbn [rep_content]. by destruct s; vm_compute.
  - eexists. split; [reflexivity|]. cbn [app]. destruct b; by_decide.
Qed.

Lemma answer_framed r : framed (answer doc_root open_file r) ∧ client_view (answer doc_root open_file r) = resource doc_root open_file (r_uri r).
Proof using Hsize.
  unfold answer, handle_request, resource. destruct (url_decode (r_uri r)) as [p|]; [|split; [by apply built_framed|done]].
  case_decide; [split; [by apply built_framed|done]|]. case_decide; [split; [by apply built_framed|done]|].
  destruct (open_file _) as [file|] eqn:Hf; [|split; [by apply built_framed|done]].
  rewrite read_blocks_all by lia. cbn [rep_content empty_response app]. split; [|done]. split_and!; [done|by eapply Hsize|].
  eexists. split; [reflexivity|]. cbn [app rep_headers]. constructor; [apply extension_clean|]. destruct (is_keep_alive r); by_decide.
Qed.
End exchange.

(** C7: a client and a server, end to end.  The request of a client for a URL, in
    whatever pieces it arrives, is answered once and the connection closed; and the
    client that reads the answer, in whatever pieces, prints the file that the path
    names, the welcome page for a directory, or the status 404 or 400 when there is
    none or the path is refused. *)
Theorem http_get_end_to_end doc_root open_file url u sent :
  (∀ p file, open_file p = Some file → (Z.of_nat (length file) < 2 ^ 64)%Z) →
  parse_url url = Ret u → u_scheme u = lit "http" → url_clean u →
  concat sent = build_request u → Forall (λ d, d ≠ []) sent →
  ∃ c, start doc_root open_file (arrivals sent) new_conn = Done tt c ∧ is_open c = false ∧
    ∀ got, concat got = concat (written c) → Forall (λ d, d ≠ []) got →
      http_call url None (data <$> got) = ([build_request u], Ret (resource doc_root open_file (path_of u))).
Proof.
  intros Hsize Hu Hs Hc Hsent Hne. rewrite build_request_print in Hsent.
  assert (delivered (raw_get u, sent)) as Hd by (split_and!; [by apply raw_get_ok|done|done]).
  destruct (serve_chunks doc_root open_file sent _ _ [] (delivered_parse _ Hd) Hne (delivered_nonempty _ Hd)) as (c & Hst & Hw & Ho & _).
  exists c. split; [done|]. cbn [req] in Ho, Hw. split; [rewrite Ho; apply raw_get_closes|].
  intros got Hgot Hg. unfold http_call. rewrite Hu. rewrite decide_False by (by intros ?).
  destruct (answer_framed doc_root open_file Hsize (cook (raw_get u))) as [Hf Hv].
  rewrite Hw in Hgot. simpl in Hgot. rewrite app_nil_r in Hgot. rewrite (read_response_framed _ _ Hf Hg Hgot), Hv. done.
Qed.

Definition v6_parts : url_parts := UrlParts (Some (lit "http")) (lit "::1") true (Some (lit "8080")) (lit "/a").
Lemma parse_url_parts_witness : parse_url (lit "http://[::1]:8080/a") = Ret (ParsedUrl (lit "http") (lit "::1") (lit "8080") (lit "/a")).
Proof.
  apply (parse_url_parts v6_parts). split.
  - by_decide.
  - cbn [v6_parts up_scheme]. by_decide.
  - discriminate.
  - by_decide.
  - right. reflexivity.
  - cbn [v6_parts up_bracket]. by_decide.
Defined.

(** A file system with one file. *)
Definition one_file (path : text) : option text := if decide (path = lit "./a.html") then Some (lit "hello") else None.
Definition local_url : parsed_url := ParsedUrl (lit "http") (lit "h") (lit "80") (lit "/a.html").
Definition as_bytes (s : text) : list text := (λ c, [c]) <$> s.
Lemma as_bytes_concat s : concat (as_bytes s) = s.
Proof. induction s as [|a s IH]; [done|]. cbn. by f_equal. Qed.

Lemma http_get_end_to_end_witness :
  ∃ c, start (lit ".") one_file (arrivals [build_request local_url]) new_conn = Done tt c ∧ is_open c = false ∧
    http_call (lit "http://h/a.html") None (data <$> as_bytes (concat (written c))) = ([build_request local_url], Ret (received (lit "hello"))).
Proof.
  destruct (http_get_end_to_end (lit ".") one_file (lit "http://h/a.html") local_url [build_request local_url])
    as (c & H1 & H2 & H3).
  - intros p file. unfold one_file. destruct (decide _); [|discriminate]. intros [= <-]. reflexivity.
  - vm_compute. reflexivity.
  - reflexivity.
  - split; by_decide.
  - apply app_nil_r.
  - by_decide.
  - exists c. split; [exact H1|]. split; [exact H2|]. rewrite H3.
    + vm_compute. reflexivity.
    + apply as_bytes_concat.
    + apply Forall_fmap, Forall_true. discriminate.
Defined.
