(* ===== verification/Tcp.v ===== *)
(** * [io_context_pool.hpp], [server.hpp] and [client.hpp]

    The round robin over the contexts, the sessions of the TCP server, the call of
    the TCP client, and the two of them connected. *)

From S2P Require Import Prelude Conc Text Socket.
From Stdlib Require Import Ascii.
From stdpp Require Import options.

(** ** [io_context_pool] *)

(** What decides whether [run] of a context returns: its guard keeps it running
    until it is stopped. *)
Record io_context : Type := IoContext { guarded : bool; is_stopped : bool; handlers : nat }.

Record io_context_pool : Type := IoContextPool {
  io_contexts_ : list io_context;
  next_io_context_ : nat }.

Definition new_pool (pool_size : nat) : io_context_pool :=
  let pool_size := if decide (pool_size = 0) then 1 else pool_size in
  IoContextPool (replicate pool_size (IoContext true false 0)) 0.

(** The context, by its position. *)
Definition get_io_context : comp io_context_pool nat :=
  p ← get_state;
  match io_contexts_ p !! next_io_context_ p with
  | None => abort_with null_deref
  | Some _ =>
      let next := S (next_io_context_ p) in
      modify (λ p, IoContextPool (io_contexts_ p) (if decide (next = length (io_contexts_ p)) then 0 else next));;
      mret (next_io_context_ p)
  end.
Definition current_io_context (p : io_context_pool) : nat :=
  if decide (next_io_context_ p = 0) then length (io_contexts_ p) - 1 else next_io_context_ p - 1.
Definition get_client_io_context : comp io_context_pool nat :=
  p ← get_state;
  match last (io_contexts_ p) with
  | None => abort_with null_deref
  | Some _ => mret (length (io_contexts_ p) - 1)
  end.

(** [work_.clear()], then [stop] of each context. *)
Definition stop : comp io_context_pool unit :=
  modify (λ p, IoContextPool ((λ c, IoContext false (is_stopped c) (handlers c)) <$> io_contexts_ p) (next_io_context_ p));;
  modify (λ p, IoContextPool ((λ c, IoContext (guarded c) true (handlers c)) <$> io_contexts_ p) (next_io_context_ p)).

(** [run] joins a thread for each context. *)
Definition context_returns (c : io_context) : bool := is_stopped c || (negb (guarded c) && bool_decide (handlers c = 0)).
Definition run : comp io_context_pool unit := λ p,
  if forallb context_returns (io_contexts_ p) then Done tt p else Block.

Definition pool_ok (p : io_context_pool) : Prop := next_io_context_ p < length (io_contexts_ p).

(** ** [tcp_server] *)

(** The size of [buffer.prepare(4096)]. *)
Definition prepared : nat := 4096.

(** [on_message]: what it leaves in the data, and what it returns, if anything. *)
Definition callback : Type := option (text → text * option nat).

Definition respond (on_message : callback) (d : text) : text :=
  match on_message with
  | None => d
  | Some f =>
      let '(d', res) := f d in
      take (match res with Some out_len => if decide (length d < out_len) then length d else out_len | None => length d end) d'
  end.

(** [throw asio::system_error(error)] *)
Definition error_code (e : net_error) : Z := match e with err_eof => 2 | err_aborted => 125 | err_other code => code end.

(** One turn of the loop of [session]: what it writes, or how the loop ends. *)
Definition session_turn (on_message : callback) (r : text + net_error) : text + outcome unit :=
  match r with
  | inr err_eof => inr (Ret tt)
  | inr e => inr (Throw (system_error (error_code e)))
  | inl d => inl (respond on_message d)
  end.

(** What is written, in order, and how the session ends; [None]: out of fuel. *)
Fixpoint session (fuel : nat) (on_message : callback) (evs : list arrival) : list text * option (outcome unit) :=
  match fuel with
  | 0 => ([], None)
  | S fuel =>
      let '(r, evs) := read_some prepared evs in
      match session_turn on_message r with
      | inr o => ([], Some o)
      | inl w => let '(ws, o) := session fuel on_message evs in (w :: ws, o)
      end
  end.

(** The loop of [start]: each turn takes a context for the next connection; the
    sessions that are started, with their contexts. *)
Inductive accept_result : Type := accepted (sock : nat) | accept_failed (e : net_error).

Fixpoint accept_loop (results : list accept_result) : comp io_context_pool (list (nat * nat) * bool) :=
  match results with
  | [] => mret ([], false)
  | r :: results =>
      ctx ← get_io_context;
      match r with
      | accept_failed err_aborted => mret ([], true)
      | accept_failed _ => accept_loop results
      | accepted sock => '(started, ended) ← accept_loop results; mret ((sock, ctx) :: started, ended)
      end
  end.
Definition server_start (results : list accept_result) : comp io_context_pool (list (nat * nat) * bool) :=
  get_io_context;; accept_loop results.

(** ** [tcp_client] *)

(** One turn of the loop of [call]: [read_buf] and [response] after it, or how it
    ends. *)
Definition call_turn (r : text + net_error) (read_buf response : text) : (text * text) + outcome text :=
  match r with
  | inr err_eof => inr (Ret (response ++ read_buf))
  | inr e => inr (throw_error e)
  | inl d =>
      let chunk := read_buf ++ d in
      inl (drop (length chunk) chunk, response ++ chunk)
  end.

Fixpoint call_loop (fuel : nat) (evs : list arrival) (read_buf response : text) : option (outcome text) :=
  match fuel with
  | 0 => None
  | S fuel =>
      let '(r, evs) := read_some prepared evs in
      match call_turn r read_buf response with
      | inr o => Some o
      | inl (read_buf, response) => call_loop fuel evs read_buf response
      end
  end.

(** What is written, and how the call ends; [None]: out of fuel. *)
Definition call (message : text) (connect write : option net_error) (evs : list arrival) : list text * option (outcome text) :=
  match connect, write with
  | Some e, _ => ([], Some (throw_error e))
  | None, Some e => ([message], Some (throw_error e))
  | None, None => ([message], call_loop (enough evs) evs [] [])
  end.

(** ** The pool *)

Lemma get_io_context_ok p :
  pool_ok p →
  ∃ p', get_io_context p = Done (next_io_context_ p) p' ∧ io_contexts_ p' = io_contexts_ p ∧ pool_ok p' ∧
    next_io_context_ p' = S (next_io_context_ p) mod length (io_contexts_ p) ∧ current_io_context p' = next_io_context_ p.
Proof.
  unfold pool_ok. intros Hp. unfold get_io_context, mbind, comp_bind, get_state, modify, mret, comp_ret.
  destruct (lookup_lt_is_Some_2 _ _ Hp) as [c Hc]. rewrite Hc. eexists. split; [done|]. cbn [io_contexts_ next_io_context_].
  split; [done|]. unfold current_io_context. cbn [io_contexts_ next_io_context_]. case_decide as Hn.
  - rewrite Hn, Nat.Div0.mod_same. rewrite decide_True by done. split_and!; [lia|done|lia].
  - rewrite Nat.mod_small by lia. rewrite decide_False by lia. split_and!; [lia|done|lia].
Qed.

Lemma new_pool_ok n : pool_ok (new_pool n) ∧ length (io_contexts_ (new_pool n)) = Nat.max 1 n.
Proof. unfold pool_ok, new_pool. simpl. case_decide; simpl; rewrite ?length_replicate; lia. Qed.

Definition is_abort (r : accept_result) : bool := match r with accept_failed err_aborted => true | _ => false end.

(** The results up to the one that ends the loop. *)
Fixpoint attempts (results : list accept_result) : list accept_result :=
  match results with
  | [] => []
  | accept_failed err_aborted :: _ => []
  | r :: results => r :: attempts results
  end.
(** The sessions, when the first attempt is on context [k] of [n]. *)
Fixpoint placed (n k : nat) (rs : list accept_result) : list (nat * nat) :=
  match rs with
  | [] => []
  | accepted s :: rs => (s, k mod n) :: placed n (S k) rs
  | accept_failed _ :: rs => placed n (S k) rs
  end.

Lemma placed_mod n j k rs : j mod n = k mod n → placed n j rs = placed n k rs.
Proof.
  revert j k. induction rs as [|r rs IH]; intros j k H; [done|].
  assert (S j mod n = S k mod n) as H' 
    by (change (S j) with (1 + j); change (S k) with (1 + k); by rewrite (Nat.Div0.add_mod 1 j), (Nat.Div0.add_mod 1 k), H).
  destruct r; simpl; by rewrite ?H, (IH _ _ H').
Qed.

Lemma accept_loop_ok results p :
  pool_ok p →
  ∃ p', accept_loop results p =
      Done (placed (length (io_contexts_ p)) (next_io_context_ p) (attempts results), existsb is_abort results) p' ∧
    io_contexts_ p' = io_contexts_ p ∧ pool_ok p'.
Proof.
  revert p. induction results as [|r results IH]; intros p Hp; [by exists p|]. cbn [accept_loop]. unfold mbind at 1, comp_bind at 1.
  destruct (get_io_context_ok p Hp) as (p1 & -> & Hc & Hp1 & Hn & _). destruct (IH p1 Hp1) as (p2 & H2 & Hc2 & Hp2).
  rewrite Hn, Hc in H2. rewrite (placed_mod _ _ (S (next_io_context_ p))) in H2 by apply Nat.Div0.mod_mod.
  assert (next_io_context_ p mod length (io_contexts_ p) = next_io_context_ p) as Hm by by apply Nat.mod_small.
  destruct r as [s|[]]; cbn [attempts placed existsb is_abort orb].
  - exists p2. unfold mbind, comp_bind. rewrite H2, Hm. by rewrite Hc2, Hc.
  - exists p2. rewrite H2. by rewrite Hc2, Hc.
  - by exists p1.
  - exists p2. rewrite H2. by rewrite Hc2, Hc.
Qed.

(** The server gives each connection that it accepts a session, in the order in
    which they come, on the contexts of the pool in turn: the [k]-th attempt to accept
    is on context [k] modulo the size of the pool, the first on context 1.  It ends
    when an accept is aborted, and only then. *)
Theorem server_spreads_sessions n results :
  ∃ p, server_start results (new_pool n) = Done (placed (Nat.max 1 n) 1 (attempts results), existsb is_abort results) p ∧ pool_ok p.
Proof.
  destruct (new_pool_ok n) as [Hp Hl]. unfold server_start, mbind, comp_bind.
  destruct (get_io_context_ok _ Hp) as (p1 & -> & Hc & Hp1 & Hn & _). destruct (accept_loop_ok results p1 Hp1) as (p2 & H2 & _ & Hp2).
  exists p2. split; [|done]. rewrite H2, Hc, Hl, Hn, Hl. by rewrite (placed_mod _ _ 1) by apply Nat.Div0.mod_mod.
Qed.

(** [run] returns when the pool is stopped, and not before. *)
Lemma run_until_stopped n p p' :
  new_pool n = p → stop p = Done tt p' → run p = Block ∧ run p' = Done tt p'.
Proof.
  intros <- [= <-]. unfold run, new_pool. cbn [io_contexts_]. split.
  - case_decide; [done|]. by destruct n.
  - rewrite <- list_fmap_compose. rewrite (proj2 (forallb_forall _ _)); [done|].
    intros c Hc. apply list_elem_of_In, list_elem_of_fmap in Hc as (x & -> & _). done.
Qed.

(** ** Sessions and calls *)

(** The data up to the first error, and the error, which is the end of the stream
    when there is none. *)
Fixpoint before_error (evs : list arrival) : text * net_error :=
  match evs with
  | [] => ([], err_eof)
  | failed e :: _ => ([], e)
  | data d :: evs => let '(b, e) := before_error evs in (d ++ b, e)
  end.

Lemma before_error_data chunks : before_error (data <$> chunks) = (concat chunks, err_eof).
Proof. induction chunks as [|c l IH]; [done|]. rewrite fmap_cons. cbn [before_error concat]. by rewrite IH. Qed.

Lemma read_some_before n evs :
  match read_some n evs with
  | (inr e, _) => before_error evs = ([], e)
  | (inl d, evs') => length d ≤ n ∧ before_error evs = let '(b, e) := before_error evs' in (d ++ b, e)
  end.
Proof.
  destruct evs as [|[c|e] evs]; [done| |done]. cbn [read_some before_error]. split; [rewrite length_take; lia|].
  pose proof (take_drop n c) as Hc. destruct (drop n c) as [|x r]; cbn [before_error]; destruct (before_error evs) as [b e].
  - rewrite app_nil_r in Hc. by rewrite Hc.
  - rewrite app_assoc. by rewrite Hc.
Qed.

Lemma prepared_pos : 0 < prepared.
Proof. by_decide. Qed.

(** A session of the TCP server reads all the data that comes, in pieces of at
    most 4096 bytes, and writes for each piece, in their order, the piece as the
    callback leaves it, cut to the length that the callback returns, which is never
    more than that of the piece.  It ends when the stream does, and by an exception
    when a read fails. *)
Theorem session_answers_each on_message evs fuel :
  enough evs ≤ fuel →
  ∃ ds, session fuel on_message evs =
      (respond on_message <$> ds, Some (match (before_error evs).2 with err_eof => Ret tt | e => Throw (system_error (error_code e)) end)) ∧
    concat ds = (before_error evs).1 ∧ Forall (λ d, length d ≤ prepared) ds.
Proof.
  unfold enough. revert evs. induction fuel as [|fuel IH]; intros evs Hf; [lia|]. cbn [session].
  pose proof (read_some_before prepared evs) as Hb. destruct (read_some prepared evs) as [[d|e] evs'] eqn:E.
  - destruct Hb as [Hd Hb]. pose proof (read_some_shrinks _ _ _ _ prepared_pos E). destruct (IH evs') as (ds & Hs & Hc & Hl); [lia|].
    exists (d :: ds). cbn [session_turn]. rewrite Hs, Hb. destruct (before_error evs') as [b e]. simpl in Hc |- *.
    split_and!; [done|by rewrite Hc|by constructor].
  - exists []. rewrite Hb. by destruct e.
Qed.

Lemma call_loop_ok evs fuel response :
  enough evs ≤ fuel →
  call_loop fuel evs [] response = Some (match (before_error evs).2 with err_eof => Ret (response ++ (before_error evs).1) | e => throw_error e end).
Proof.
  unfold enough. revert evs response. induction fuel as [|fuel IH]; intros evs response Hf; [lia|]. cbn [call_loop].
  pose proof (read_some_before prepared evs) as Hb. destruct (read_some prepared evs) as [[d|e] evs'] eqn:E.
  - destruct Hb as [Hd Hb]. pose proof (read_some_shrinks _ _ _ _ prepared_pos E). cbn [call_turn app]. rewrite drop_all.
    rewrite IH by lia. rewrite Hb. destruct (before_error evs') as [b []]; simpl; by rewrite ?app_assoc.
  - rewrite Hb. by destruct e.
Qed.

(** A call of the TCP client that connects and sends returns all that the other
    side sends until it closes, in whatever pieces it comes; any error is thrown,
    as a timeout when the timer has cancelled the operation. *)
Theorem call_returns_all message connect write evs :
  call message connect write evs =
  match connect, write, before_error evs with
  | Some e, _, _ => ([], Some (throw_error e))
  | None, Some e, _ => ([message], Some (throw_error e))
  | None, None, (response, err_eof) => ([message], Some (Ret response))
  | None, None, (_, e) => ([message], Some (throw_error e))
  end.
Proof.
  unfold call. destruct connect as [e|]; [done|]. destruct write as [e|]; [done|]. rewrite call_loop_ok by lia.
  by destruct (before_error evs) as [b []].
Qed.

(** ** A client and a server, connected *)

Inductive client_state : Type :=
| c_writing
| c_reading (read_buf response : text)
| c_done (o : outcome text).

(** The bytes under way in the two directions; whether the session is over. *)
Record link : Type := Link { to_server : text; to_client : text; client : client_state; session_over : bool }.

Inductive link_step (on_message : callback) (message : text) : link → link → Prop :=
| ls_write up down over :
    link_step on_message message (Link up down c_writing over) (Link (up ++ message) down (c_reading [] []) over)
| ls_session_reads d up down c w :
    d ≠ [] → length d ≤ prepared → session_turn on_message (inl d) = inl w →
    link_step on_message message (Link (d ++ up) down c false) (Link up (down ++ w) c false)
| ls_session_ends down o o' :
    session_turn on_message (inr err_eof) = inr o' →
    link_step on_message message (Link [] down (c_done o) false) (Link [] down (c_done o) true)
| ls_call_reads d up down over b r b' r' :
    d ≠ [] → length d ≤ prepared → call_turn (inl d) b r = inl (b', r') →
    link_step on_message message (Link up (d ++ down) (c_reading b r) over) (Link up down (c_reading b' r') over)
| ls_call_ends up b r o :
    call_turn (inr err_eof) b r = inr o →
    link_step on_message message (Link up [] (c_reading b r) true) (Link up [] (c_done o) true)
| ls_write_timeout up down over :
    link_step on_message message (Link up down c_writing over) (Link up down (c_done (throw_error err_aborted)) over)
| ls_read_timeout up down over b r o :
    call_turn (inr err_aborted) b r = inr o →
    link_step on_message message (Link up down (c_reading b r) over) (Link up down (c_done o) over).

Definition connected : link := Link [] [] c_writing false.

Definition link_inv (l : link) : Prop :=
  match client l with
  | c_done o => o = Throw timed_out
  | _ => session_over l = false
  end.

Lemma link_step_inv on_message message l l' : link_step on_message message l l' → link_inv l → link_inv l'.
Proof.
  intros Hs. destruct Hs as [| | | | ? ? ? ? He | |? ? ? ? ? ? He]; unfold link_inv; cbn [client session_over]; try done.
  injection He as <-. done.
Qed.

Lemma session_drains m t down c :
  rtc (link_step None m) (Link t down c false) (Link [] (down ++ t) c false).
Proof.
  revert down. induction t as [|a t IH]; intros down; [by rewrite app_nil_r|]. eapply rtc_l.
  - apply (ls_session_reads None m [a] t down c [a]); [done|by_decide|done].
  - replace (down ++ a :: t) with ((down ++ [a]) ++ t) by (by rewrite <- app_assoc). apply IH.
Qed.

Lemma call_drains m t up r over :
  rtc (link_step None m) (Link up t (c_reading [] r) over) (Link up [] (c_reading [] (r ++ t)) over).
Proof.
  revert r. induction t as [|a t IH]; intros r; [by rewrite app_nil_r|]. eapply rtc_l.
  - apply (ls_call_reads None m [a] up t over [] r [] (r ++ [a])); [done|by_decide|done].
  - replace (r ++ a :: t) with ((r ++ [a]) ++ t) by (by rewrite <- app_assoc). apply IH.
Qed.

(** C35: a call of [tcp_client] to a [tcp_server] never returns a response.  The client
    reads until the server closes, the session reads until the client closes, and
    the client does not shut down its side after it has sent the message: whatever
    the callback and the message, a call ends by its timeout, also when, without a
    callback, the whole echo of the message has been received. *)
Theorem call_to_session_times_out message :
  (∀ on_message l o, rtc (link_step on_message message) connected l → client l = c_done o → o = Throw timed_out) ∧
  rtc (link_step None message) connected (Link [] [] (c_reading [] message) false).
Proof.
  split.
  - intros on_message l o Hl Hc. assert (link_inv l) as Hi; [|by unfold link_inv in Hi; rewrite Hc in Hi].
    revert Hl. apply (rtc_ind_r link_inv connected); [done|]. intros ???. apply link_step_inv.
  - eapply rtc_l; [apply ls_write|]. etrans; [apply session_drains|apply call_drains].
Qed.

Definition reset_stream : list arrival := [data (lit "ab"); data (lit "c"); failed (err_other 104)].
Lemma session_answers_each_witness :
  ∃ ds, session 9 None reset_stream = (respond None <$> ds, Some (Throw (system_error 104))) ∧ concat ds = lit "abc".
Proof.
  destruct (session_answers_each None reset_stream 9) as (ds & H1 & H2 & _); [by_decide|]. exists ds. split; [exact H1|exact H2].
Defined.
