(* ===== verification/HttpServer.v ===== *)
(** * [http_server.hpp]: the HTTP server

    The accept loop, which is that of the TCP server, and a connection for each
    socket that is accepted. *)

From S2P Require Import Prelude Conc Text HttpRequest HttpResponse Connection Socket Tcp.
From stdpp Require Import options.

(** [start_one]: the documents are those of the working directory. *)
Definition doc_root : text := lit "./".
Definition start_one (open_file : text → option text) (ios : list (option text * bool)) : access conn unit :=
  start doc_root open_file ios new_conn.

(** [start]: a context for the acceptor, and then the loop. *)
Definition http_start (results : list accept_result) : comp io_context_pool (list (nat * nat) * bool) :=
  get_io_context;; accept_loop results.

(** A session is run for each socket that is accepted; [ios]: what arrives on it. *)
Definition http_serve (open_file : text → option text) (ios : nat → list (option text * bool)) (results : list accept_result)
    : comp io_context_pool (list (nat * nat * access conn unit) * bool) :=
  '(started, stopped) ← http_start results;
  mret ((λ x, (x, start_one open_file (ios x.1))) <$> started, stopped).

Definition socket_of (r : accept_result) : option nat := match r with accepted s => Some s | accept_failed _ => None end.

Lemma placed_sockets n k rs : (placed n k rs).*1 = omap socket_of rs.
Proof. revert k. induction rs as [|[s|e] rs IH]; intros k; simpl; [done|f_equal; apply IH|apply IH]. Qed.
Lemma placed_contexts n k rs s c : n ≠ 0 → (s, c) ∈ placed n k rs → c < n.
Proof.
  intros Hn. revert k. induction rs as [|[s'|e] rs IH]; intros k; simpl; [by intros ?%elem_of_nil| |apply IH].
  intros [[= -> ->]|H]%elem_of_cons; [by apply Nat.mod_upper_bound|by eapply IH].
Qed.

(** C9: every connection that the HTTP server accepts before it is stopped gets a
    session, in the order in which they come and on a context of the pool; and the
    session answers the requests that arrive on its connection, in order and in
    whatever pieces, up to the first that asks for it to be closed.  What comes after the
    end of a request in the same piece is lost: a request counts as having arrived if it
    begins with a new piece. *)
Theorem http_server_serves_all n results open_file (requests : nat → list (raw_request * list text)) :
  (∀ sock, Forall arrives (requests sock)) →
  ∃ sessions p,
    http_serve open_file (λ sock, arrivals (concat (snd <$> requests sock))) results (new_pool n) = Done (sessions, existsb is_abort results) p ∧
    (λ x, x.1.1) <$> sessions = omap socket_of (attempts results) ∧
    ∀ sock ctx session, (sock, ctx, session) ∈ sessions → ctx < Nat.max 1 n ∧
      ∃ c, session = Done tt c ∧
        written c = (λ r, wire (answer doc_root open_file r)) <$> served ((λ x, cook x.1) <$> requests sock).
Proof.
  intros Hr. destruct (server_spreads_sessions n results) as (p & Hs & _). do 2 eexists. split_and!.
  - unfold http_serve. rewrite (comp_bind_done _ _ _ _ _ Hs). reflexivity.
  - rewrite <- list_fmap_compose. apply placed_sockets.
  - intros sock ctx session ([sock' ctx'] & [= -> -> ->] & Hin)%list_elem_of_fmap. split; [eapply placed_contexts; [lia|done]|].
    destruct (serve_all doc_root open_file (requests sock') [] (Hr sock')) as (c & Hc & Hw & _). by exists c.
Qed.

Definition four_results : list accept_result := [accepted 5; accept_failed (err_other 24); accepted 6; accept_failed err_aborted].
Lemma http_server_serves_all_witness :
  ∃ sessions p, http_serve (λ _, None) (λ _, arrivals (concat (snd <$> [two_pieces get_root]))) four_results (new_pool 2) = Done (sessions, true) p ∧
    (λ x, x.1.1) <$> sessions = [5; 6] ∧
    ∀ sock ctx session, (sock, ctx, session) ∈ sessions → ∃ c, session = Done tt c ∧ length (written c) = 1.
Proof.
  destruct (http_server_serves_all 2 four_results (λ _, None) (λ _, [two_pieces get_root])) as (sessions & p & H1 & H2 & H3).
  - intros _. constructor; [apply get_root_arrives|constructor].
  - exists sessions, p. split; [exact H1|]. split; [exact H2|]. intros sock ctx session Hin.
    destruct (H3 sock ctx session Hin) as (_ & c & Hc & Hw). exists c. split; [exact Hc|]. rewrite Hw. reflexivity.
Defined.
