(* ===== verification/Runtime.v ===== *)
(** * [runtime.cpp]: what a runtime owns, and the order in which it is shut down

    The timer queue and the network pool are the components of the other files.  The
    executors are pointers here, and what counts is who is shut down when; the shutdown of
    an executor is an argument, since an application may register its own. *)

From S2P Require Import Prelude Conc Timers TimerQueue Tcp.
From stdpp Require Import options.
Local Open Scope cpp_scope.

Inductive event : Type :=
  | ev_timer_queue_shutdown
  | ev_executor_shutdown (e : nat)
  | ev_net_io_pool_stop
  | ev_net_io_pool_join.

(** [executor_collection]: pointers. *)
Record runtime : Type := Runtime {
  m_executors : list nat;
  m_timer_queue : option tqueue;
  m_net_io_pool : option io_context_pool;
  runner_joinable : bool;
  next_pointer : nat;
  events : list event }.

Definition emit (ev : event) : comp runtime unit :=
  modify (λ r, Runtime (m_executors r) (m_timer_queue r) (m_net_io_pool r) (runner_joinable r) (next_pointer r) (events r ++ [ev])).
Definition set_executors (es : list nat) : comp runtime unit :=
  modify (λ r, Runtime es (m_timer_queue r) (m_net_io_pool r) (runner_joinable r) (next_pointer r) (events r)).
Definition set_queue (q : option tqueue) : comp runtime unit :=
  modify (λ r, Runtime (m_executors r) q (m_net_io_pool r) (runner_joinable r) (next_pointer r) (events r)).
Definition set_pool (p : option io_context_pool) (joinable : bool) : comp runtime unit :=
  modify (λ r, Runtime (m_executors r) (m_timer_queue r) p joinable (next_pointer r) (events r)).

(** [std::make_shared], which never gives null (0) nor a pointer that is in use. *)
Definition make_shared : comp runtime nat :=
  r ← get_state;
  modify (λ r, Runtime (m_executors r) (m_timer_queue r) (m_net_io_pool r) (runner_joinable r) (S (next_pointer r)) (events r));;
  mret (next_pointer r).

(** ** [executor_collection] *)

Definition register_executor (executor : nat) : comp runtime unit :=
  assert (bool_decide (executor ≠ 0));;
  r ← get_state;
  assert (bool_decide (executor ∉ m_executors r));;
  set_executors (m_executors r ++ [executor]).

(** [shutdown]: that of the executors; [is_oneshot], [world] and [fuel]: see
    [process_timers]. *)
Section shutdown.
Context (shutdown : nat → outcome unit) (is_oneshot : timer_ptr → bool) (world : nat → view) (fuel : nat).

Fixpoint shutdown_each (es : list nat) : comp runtime (outcome unit) :=
  match es with
  | [] => mret (Ret tt)
  | e :: es =>
      assert (bool_decide (e ≠ 0));;
      emit (ev_executor_shutdown e);;
      match shutdown e with
      | Ret _ => shutdown_each es
      | o => mret o
      end
  end.
Definition shutdown_all : comp runtime (outcome unit) :=
  r ← get_state;
  o ← shutdown_each (m_executors r);
  match o with
  | Ret _ => set_executors [];; mret (Ret tt)
  | o => mret o
  end.

(** ** [runtime] *)

(** [std::make_shared] and [register_executor] of an executor; [make_executor] and the
    like. *)
Definition make_executor : comp runtime nat := e ← make_shared; register_executor e;; mret e.

(** The constructor: timer queue, inline executor, thread pool, background pool,
    thread executor, network pool and its thread. *)
Definition construct (net_io_pool_threads : nat) : comp runtime unit :=
  make_shared;;
  set_queue (Some tq_init);;
  make_executor;; make_executor;; make_executor;; make_executor;;
  set_pool (Some (new_pool net_io_pool_threads)) true.

Definition initial : runtime := Runtime [] None None false 1 [].

(** On the members of the runtime that are pointers. *)
Definition on_pool {A} (m : comp io_context_pool A) : comp runtime A := λ r,
  match m_net_io_pool r with
  | None => Fault null_deref
  | Some p =>
      match m p with
      | Done a p => Done a (Runtime (m_executors r) (m_timer_queue r) (Some p) (runner_joinable r) (next_pointer r) (events r))
      | Block => Block
      | Fault f => Fault f
      end
  end.

Definition on_queue {A} (m : comp tqueue A) : comp runtime A := λ r,
  match m_timer_queue r with
  | None => Fault null_deref
  | Some q =>
      match m q with
      | Done a q => Done a (Runtime (m_executors r) (Some q) (m_net_io_pool r) (runner_joinable r) (next_pointer r) (events r))
      | Block => Block
      | Fault f => Fault f
      end
  end.

(** The destructor; an exception ends in [std::abort].  The thread of the pool is
    joined when its [run] has returned. *)
Definition destruct_runtime : comp runtime (outcome unit) :=
  on_queue (TimerQueue.shutdown is_oneshot world fuel);;
  emit ev_timer_queue_shutdown;;
  o ← shutdown_all;
  match o with
  | Ret _ =>
      r ← get_state;
      (if m_net_io_pool r then on_pool stop;; emit ev_net_io_pool_stop else mret tt);;
      (if runner_joinable r then on_pool run;; emit ev_net_io_pool_join;; set_pool (m_net_io_pool r) false else mret tt);;
      mret (Ret tt)
  | _ => mret Terminate
  end.

Fixpoint make_executors (n : nat) : comp runtime unit :=
  match n with 0 => mret tt | S n => make_executor;; make_executors n end.
End shutdown.

(** ** From the constructor to the destructor *)

Definition running (q : tqueue) (pool : option io_context_pool) (joinable : bool) (m : nat) (evs : list event) : runtime :=
  Runtime (seq 2 m) (Some q) pool joinable (2 + m) evs.

Lemma make_executor_done q pool j m evs :
  make_executor (running q pool j m evs) = Done (2 + m) (running q pool j (S m) evs).
Proof.
  unfold make_executor. rewrite (comp_bind_done _ _ _ (2 + m) (Runtime (seq 2 m) (Some q) pool j (S (2 + m)) evs)) by done.
  rewrite (comp_bind_done _ _ _ tt (running q pool j (S m) evs)); [done|]. unfold register_executor.
  rewrite assert_bind by (by apply bool_decide_true). rewrite get_state_bind. cbn [m_executors].
  rewrite assert_bind by (apply bool_decide_true; rewrite elem_of_seq; lia).
  unfold set_executors, modify, running. by rewrite seq_S.
Qed.

Lemma make_executors_done k q pool j m evs : make_executors k (running q pool j m evs) = Done tt (running q pool j (m + k) evs).
Proof.
  revert m. induction k as [|k IH]; intros m; simpl; [by rewrite Nat.add_0_r|].
  rewrite (comp_bind_done _ _ _ _ _ (make_executor_done _ _ _ _ _)), IH. do 2 f_equal. lia.
Qed.

Lemma construct_done n : construct n initial = Done tt (running tq_init (Some (new_pool n)) true 4 []).
Proof. reflexivity. Qed.

Section destructor.
Context (shutdown : nat → outcome unit).

Lemma shutdown_each_done es r :
  (∀ e, e ∈ es → e ≠ 0 ∧ shutdown e = Ret tt) →
  shutdown_each shutdown es r = Done (Ret tt) (Runtime (m_executors r) (m_timer_queue r) (m_net_io_pool r) (runner_joinable r) (next_pointer r)
    (events r ++ (ev_executor_shutdown <$> es))).
Proof.
  revert r. induction es as [|e es IH]; intros r Hes; simpl; [rewrite app_nil_r; by destruct r|].
  destruct (Hes e) as [He Hs]; [set_solver|]. rewrite assert_bind by (by apply bool_decide_true).
  unfold emit at 1, modify at 1, mbind at 1, comp_bind at 1. rewrite Hs, IH by set_solver. simpl. by rewrite <- app_assoc.
Qed.

Lemma shutdown_each_throws es r :
  (∀ e, e ∈ es → e ≠ 0) → (∃ e, e ∈ es ∧ shutdown e ≠ Ret tt) →
  ∃ r' o, shutdown_each shutdown es r = Done o r' ∧ o ≠ Ret tt ∧ m_timer_queue r' = m_timer_queue r.
Proof.
  revert r. induction es as [|e es IH]; intros r Hes (e' & Hin & Hs); [by apply elem_of_nil in Hin|]. simpl.
  rewrite assert_bind by (apply bool_decide_true, Hes; set_solver). unfold emit, modify, mbind, comp_bind.
  destruct (shutdown e) as [[]|x|] eqn:E; [|by eexists _, _..].
  edestruct IH as (r' & o & Hr & Ho & Hq); [| |exists r', o; split_and!; [exact Hr|done|exact Hq]]; [set_solver|].
  exists e'. split; [|done]. set_solver.
Qed.

Lemma shutdown_all_done r :
  (∀ e, e ∈ m_executors r → e ≠ 0 ∧ shutdown e = Ret tt) →
  shutdown_all shutdown r = Done (Ret tt) (Runtime [] (m_timer_queue r) (m_net_io_pool r) (runner_joinable r) (next_pointer r)
    (events r ++ (ev_executor_shutdown <$> m_executors r))).
Proof.
  intros Hes. unfold shutdown_all. rewrite get_state_bind. by rewrite (comp_bind_done _ _ _ _ _ (shutdown_each_done _ r Hes)).
Qed.

Lemma shutdown_all_throws r :
  (∀ e, e ∈ m_executors r → e ≠ 0) → (∃ e, e ∈ m_executors r ∧ shutdown e ≠ Ret tt) →
  ∃ r' o, shutdown_all shutdown r = Done o r' ∧ o ≠ Ret tt ∧ m_timer_queue r' = m_timer_queue r.
Proof.
  intros H0 Hs. unfold shutdown_all. rewrite get_state_bind. destruct (shutdown_each_throws _ r H0 Hs) as (r' & o & Hr & Ho & Hq).
  rewrite (comp_bind_done _ _ _ _ _ Hr). exists r', o. by destruct o as [[]|x|].
Qed.
End destructor.

Lemma on_pool_done {A} (m : comp io_context_pool A) r p a p' :
  m_net_io_pool r = Some p → m p = Done a p' →
  on_pool m r = Done a (Runtime (m_executors r) (m_timer_queue r) (Some p') (runner_joinable r) (next_pointer r) (events r)).
Proof. intros Hp Hm. unfold on_pool. by rewrite Hp, Hm. Qed.

(** A runtime that is created, makes [k] more executors, and is destroyed when its timer
    queue has come to be [q]. *)
Definition lifetime (shutdown : nat → outcome unit) (is_oneshot : timer_ptr → bool) (world : nat → view) (fuel n k : nat) (q : tqueue)
    : comp runtime (outcome unit) :=
  construct n;; make_executors k;; set_queue (Some q);; destruct_runtime shutdown is_oneshot world fuel.

(** The destructor, once the timer queue was shut down. *)
Lemma destruct_rest shutdown n k q :
  (∀ e, e ∈ seq 2 (4 + k) → shutdown e = Ret tt) →
  ∃ r, (o ← shutdown_all shutdown;
    match o with
    | Ret _ =>
        r ← get_state;
        (if m_net_io_pool r then on_pool stop;; emit ev_net_io_pool_stop else mret tt);;
        (if runner_joinable r then on_pool run;; emit ev_net_io_pool_join;; set_pool (m_net_io_pool r) false else mret tt);;
        mret (Ret tt)
    | _ => mret Terminate
    end) (running q (Some (new_pool n)) true (4 + k) [ev_timer_queue_shutdown]) = Done (Ret tt) r ∧
    events r = [ev_timer_queue_shutdown] ++ (ev_executor_shutdown <$> seq 2 (4 + k)) ++ [ev_net_io_pool_stop; ev_net_io_pool_join] ∧
    m_executors r = [] ∧ runner_joinable r = false ∧ m_timer_queue r = Some q.
Proof.
  intros Hs. erewrite comp_bind_done.
  2:{ apply shutdown_all_done. intros e He. split; [|by apply Hs]. apply elem_of_seq in He. lia. }
  destruct (stop (new_pool n)) as [[] p'| |] eqn:Hp; [|done..]. destruct (run_until_stopped n (new_pool n) p' eq_refl Hp) as [_ Hrun].
  rewrite get_state_bind. cbn [m_net_io_pool running runner_joinable].
  rewrite (comp_bind_done _ _ _ tt (Runtime [] (Some q) (Some p') true (2 + (4 + k)) (([ev_timer_queue_shutdown] ++ (ev_executor_shutdown <$> seq 2 (4 + k))) ++ [ev_net_io_pool_stop]))).
  2:{ erewrite comp_bind_done; [|by eapply on_pool_done]. done. }
  eexists. split; [erewrite comp_bind_done; [reflexivity|]; (erewrite comp_bind_done; [|by eapply on_pool_done]); reflexivity|].
  cbn [events m_executors runner_joinable m_timer_queue]. by rewrite <- !app_assoc.
Qed.


(** A queue with a worker, whose timer has been requested. *)
Definition queue_in_use : tqueue := match add_timer 7 100 tq_init with Ret q => q | _ => tq_init end.
Lemma queue_in_use_reachable : tq_reachable (λ _, false) queue_in_use.
Proof. eapply reachable_step; [by apply reachable_init|]. apply (step_add _ 7 100); [apply not_elem_of_nil|reflexivity]. Qed.

