(* ===== verification/Generator.v ===== *)
(** * [generator.h] and [impl/generator_state.h]: synchronous generators

    The body of a generator is an argument: a state and what a resumption does.
    The coroutine frames are a heap, generator objects own frames and iterators
    point to them. *)

From S2P Require Import Prelude Conc.
From stdpp Require Import options.

(** What the body does between two suspensions. *)
Inductive gen_step (B V : Type) : Type :=
  | Yield (v : V) (b : B)
  | Return
  | Raise (e : exn).
Arguments Yield {B V} v b.
Arguments Return {B V}.
Arguments Raise {B V} e.

(** [m_value]: null, the object of the present [co_yield], or an object that is
    gone. *)
Inductive value_ptr (V : Type) : Type := vp_null | vp_at (v : V) | vp_dangling.
Arguments vp_null {V}.
Arguments vp_at {V} v.
Arguments vp_dangling {V}.

(** A frame; [g_code] is [None] at the final suspension. *)
Record generator_state (B V : Type) : Type := GeneratorState {
  g_code : option B;
  m_value : value_ptr V;
  m_exception : option exn }.
Arguments GeneratorState {B V} g_code m_value m_exception.
Arguments g_code {B V} _.
Arguments m_value {B V} _.
Arguments m_exception {B V} _.

(** The frames, and the generator objects with their handles. *)
Record gheap (B V : Type) : Type := GHeap {
  frames : gmap nat (generator_state B V);
  generators : gmap nat (option nat) }.
Arguments GHeap {B V} frames generators.
Arguments frames {B V} _.
Arguments generators {B V} _.

Section generator.
Context {B V : Type} (resume_body : B → gen_step B V).
Notation heap := (gheap B V).

Definition set_frames (f : gmap nat (generator_state B V) → gmap nat (generator_state B V)) : comp heap unit :=
  modify (λ s, GHeap (f (frames s)) (generators s)).
Definition set_object (x : nat) (h : option nat) : comp heap unit :=
  modify (λ s, GHeap (frames s) (<[x := h]> (generators s))).

(** The frame of a handle, which has to exist. *)
Definition promise (h : nat) : comp heap (generator_state B V) :=
  s ← get_state; match frames s !! h with Some f => mret f | None => abort_with use_after_free end.
Definition handle_done (h : nat) : comp heap bool := f ← promise h; mret (bool_decide (g_code f = None)).
(** The handle of an object that exists. *)
Definition object (x : nat) : comp heap (option nat) :=
  s ← get_state; match generators s !! x with Some h => mret h | None => abort_with use_after_free end.

(** [m_coro_handle.resume()], up to the next [yield_value], [return_void] or
    [unhandled_exception]. *)
Definition left_value (p : value_ptr V) : value_ptr V := match p with vp_null => vp_null | _ => vp_dangling end.
Definition resume_frame (f : generator_state B V) (b : B) : generator_state B V :=
  match resume_body b with
  | Yield v b => GeneratorState (Some b) (vp_at v) (m_exception f)
  | Return => GeneratorState None (left_value (m_value f)) (m_exception f)
  | Raise e => GeneratorState None (left_value (m_value f)) (Some e)
  end.
Definition resume (h : nat) : comp heap unit :=
  f ← promise h;
  match g_code f with
  | None => abort_with bad_resume
  | Some b => set_frames <[h := resume_frame f b]>
  end.

(** [destroy()] of a handle *)
Definition destroy_frame (h : nat) : comp heap unit := promise h;; set_frames (delete h).

Definition throw_if_exception (h : nat) : comp heap (outcome unit) :=
  f ← promise h; mret (match m_exception f with Some e => Throw e | None => Ret tt end).

(** ** [generator] *)

(** A call of the coroutine: [get_return_object] and the initial suspension. *)
Definition new_generator (b : B) (x : nat) : comp heap unit :=
  s ← get_state;
  let h := fresh (dom (frames s)) in
  set_frames <[h := GeneratorState (Some b) vp_null None]>;; set_object x (Some h).

Definition move_generator (rhs x : nat) : comp heap unit := h ← object rhs; set_object rhs None;; set_object x h.

Definition destroy_generator (x : nat) : comp heap unit :=
  h ← object x;
  (match h with Some h => destroy_frame h | None => mret tt end);;
  modify (λ s, GHeap (frames s) (delete x (generators s))).

(** After the resumption in [begin] and [++]. *)
Definition advanced (h : nat) : comp heap (outcome unit) :=
  d ← handle_done h; if (d : bool) then throw_if_exception h else mret (Ret tt).

(** [begin]: the iterator is the handle. *)
Definition begin (x : nat) : comp heap (outcome nat) :=
  h ← object x;
  match h with
  | None => mret (Throw empty_generator)
  | Some h =>
      d ← handle_done h; assert (negb d);;
      resume h;;
      r ← advanced h; mret (outcome_bind r (λ _, Ret h))
  end.

(** ** [generator_iterator] *)

Definition iterator_next (h : nat) : comp heap (outcome unit) :=
  d ← handle_done h; assert (negb d);; resume h;; advanced h.

Definition iterator_deref (h : nat) : comp heap V :=
  f ← promise h;
  assert (match m_value f with vp_null => false | _ => true end);;
  match m_value f with vp_at v => mret v | _ => abort_with use_after_free end.

Definition at_end (h : nat) : comp heap bool := handle_done h.

(** ** A loop over a generator

    [for (auto& v : gen)], with the values that its body sees; after [limit] of
    them it leaves the loop by a [break]. *)
Fixpoint loop (limit : nat) (h : nat) : comp heap (list V * outcome unit) :=
  e ← at_end h;
  if (e : bool) then mret ([], Ret tt)
  else
    match limit with
    | 0 => mret ([], Ret tt)
    | S limit =>
        v ← iterator_deref h;
        r ← iterator_next h;
        match r with
        | Ret _ => '(vs, o) ← loop limit h; mret (v :: vs, o)
        | r => mret ([v], r)
        end
    end.
Definition range_for (limit x : nat) : comp heap (list V * outcome unit) :=
  it ← begin x;
  match it with
  | Ret h => loop limit h
  | Throw e => mret ([], Throw e)
  | Terminate => mret ([], Terminate)
  end.

(** ** What the body would yield *)

Fixpoint yields (limit : nat) (b : B) : list V * outcome unit :=
  match resume_body b with
  | Return => ([], Ret tt)
  | Raise e => ([], Throw e)
  | Yield v b =>
      match limit with
      | 0 => ([], Ret tt)
      | S limit => let '(vs, o) := yields limit b in (v :: vs, o)
      end
  end.

(** ** Loops *)

Definition with_frame (s : heap) (h : nat) (f : generator_state B V) : heap := GHeap (<[h := f]> (frames s)) (generators s).

Lemma with_frame_twice s h f f' : with_frame (with_frame s h f) h f' = with_frame s h f'.
Proof. unfold with_frame. simpl. by rewrite insert_insert_eq. Qed.
Lemma with_frame_lookup s h f : frames (with_frame s h f) !! h = Some f.
Proof. apply lookup_insert_eq. Qed.

Lemma promise_done s h f : frames s !! h = Some f → promise h s = Done f s.
Proof. intros Hf. unfold promise. rewrite get_state_bind. by rewrite Hf. Qed.
Lemma handle_done_done s h f : frames s !! h = Some f → handle_done h s = Done (bool_decide (g_code f = None)) s.
Proof. intros Hf. unfold handle_done. by rewrite (comp_bind_done _ _ _ _ _ (promise_done _ _ _ Hf)). Qed.

(** A resumption of a frame that is not done, and what follows it. *)
Lemma iterator_next_done s h f b :
  frames s !! h = Some f → g_code f = Some b → m_exception f = None →
  iterator_next h s =
  Done (match resume_body b with Raise e => Throw e | _ => Ret tt end) (with_frame s h (resume_frame f b)).
Proof.
  intros Hf Hb He. unfold iterator_next. rewrite (comp_bind_done _ _ _ _ _ (handle_done_done _ _ _ Hf)), Hb.
  rewrite assert_bind by done. rewrite (comp_bind_done _ _ s tt (with_frame s h (resume_frame f b))).
  - unfold advanced. rewrite (comp_bind_done _ _ _ _ _ (handle_done_done _ _ _ (with_frame_lookup _ _ _))). unfold resume_frame.
    destruct (resume_body b) as [v b'| |e] eqn:Hs; cbn [g_code]; [done|..]; rewrite bool_decide_true by done; unfold throw_if_exception;
      by rewrite (comp_bind_done _ _ _ _ _ (promise_done _ _ _ (with_frame_lookup _ _ _))); cbn [m_exception]; rewrite ?He.
  - unfold resume. rewrite (comp_bind_done _ _ _ _ _ (promise_done _ _ _ Hf)), Hb. done.
Qed.

(** The part of a loop after the first resumption. *)
Definition rest_of_loop (limit : nat) (s : gen_step B V) : list V * outcome unit :=
  match s with
  | Return => ([], Ret tt)
  | Raise e => ([], Throw e)
  | Yield v b =>
      match limit with
      | 0 => ([], Ret tt)
      | S limit => let '(vs, o) := yields limit b in (v :: vs, o)
      end
  end.
Lemma yields_eq limit b : yields limit b = rest_of_loop limit (resume_body b).
Proof. by destruct limit. Qed.

Lemma loop_done limit s h f : frames s !! h = Some f → g_code f = None → loop limit h s = Done ([], Ret tt) s.
Proof.
  intros Hf Hd. destruct limit; cbn [loop]; unfold at_end; rewrite (comp_bind_done _ _ _ _ _ (handle_done_done _ _ _ Hf));
    by rewrite bool_decide_true.
Qed.

Lemma loop_yields limit s h v b :
  frames s !! h = Some (GeneratorState (Some b) (vp_at v) None) →
  ∃ f, loop limit h s = Done (rest_of_loop limit (Yield v b)) (with_frame s h f).
Proof.
  revert s v b. induction limit as [|limit IH]; intros s v b Hf; cbn [loop]; unfold at_end at 1;
    rewrite (comp_bind_done _ _ _ _ _ (handle_done_done _ _ _ Hf)); cbn [g_code].
  - eexists. rewrite bool_decide_false by done. unfold with_frame. rewrite insert_id by done. by destruct s.
  - rewrite bool_decide_false by done. rewrite (comp_bind_done _ _ s v s).
    2:{ unfold iterator_deref. by rewrite (comp_bind_done _ _ _ _ _ (promise_done _ _ _ Hf)). }
    rewrite (comp_bind_done _ _ _ _ _ (iterator_next_done _ _ _ _ Hf eq_refl eq_refl)). unfold rest_of_loop. rewrite yields_eq.
    set (s1 := with_frame s h _). assert (frames s1 !! h = Some (resume_frame (GeneratorState (Some b) (vp_at v) None) b)) as H1
      by apply with_frame_lookup. unfold resume_frame in H1. destruct (resume_body b) as [v' b'| |e] eqn:Hs.
    + destruct (IH s1 v' b' H1) as (f & Hl). exists f. rewrite (comp_bind_done _ _ _ _ _ Hl). unfold s1. rewrite with_frame_twice.
      by destruct (rest_of_loop limit (Yield v' b')).
    + eexists. by rewrite (comp_bind_done _ _ _ _ _ (loop_done limit s1 h _ H1 eq_refl)).
    + by eexists.
Qed.

Lemma begin_next s x h :
  generators s !! x = Some (Some h) → begin x s = (r ← iterator_next h; mret (outcome_bind r (λ _, Ret h))) s.
Proof.
  intros Hx. unfold begin, object, get_state, iterator_next, mbind, comp_bind, mret, comp_ret. rewrite Hx.
  destruct (handle_done h s) as [d s1| |]; [|done..]. destruct (assert (negb d) s1) as [[] s2| |]; [|done..].
  destruct (resume h s2) as [[] s3| |]; [|done..]. by destruct (advanced h s3).
Qed.

Lemma range_for_yields limit x s h b :
  generators s !! x = Some (Some h) → frames s !! h = Some (GeneratorState (Some b) vp_null None) →
  ∃ f, range_for limit x s = Done (yields limit b) (with_frame s h f).
Proof.
  intros Hx Hf. unfold range_for, mbind at 1, comp_bind at 1. rewrite (begin_next s x h Hx).
  rewrite (comp_bind_done _ _ _ _ _ (iterator_next_done _ _ _ _ Hf eq_refl eq_refl)). rewrite yields_eq.
  set (s1 := with_frame s h _). assert (frames s1 !! h = Some (resume_frame (GeneratorState (Some b) vp_null None) b)) as H1
    by apply with_frame_lookup. unfold resume_frame in H1. destruct (resume_body b) as [v b'| |e] eqn:Hs.
  - destruct (loop_yields limit s1 h v b' H1) as (f & Hl). exists f. cbn [outcome_bind mret comp_ret].
    rewrite Hl. unfold s1. by rewrite with_frame_twice.
  - eexists. cbn [outcome_bind mret comp_ret]. by rewrite (loop_done limit s1 h _ H1 eq_refl).
  - by eexists.
Qed.

(** A generator from its creation to its destruction. *)
Definition use_generator (limit : nat) (b : B) (x : nat) : comp heap (list V * outcome unit) :=
  new_generator b x;; r ← range_for limit x; destroy_generator x;; mret r.

Lemma fresh_frame (s : heap) : frames s !! fresh (dom (frames s)) = None.
Proof. apply not_elem_of_dom. apply is_fresh. Qed.

(** C28: a loop over a generator sees the values that its body yields, in order and
    each once, until the body returns, throws (and the loop ends by that exception
    after the last value), or the loop is left by a [break]; no assertion fails, no
    value is used after it is gone, and the destruction of the generator leaves
    nothing behind, wherever the body was suspended. *)
Theorem generator_yields_in_order limit b x s :
  generators s !! x = None → use_generator limit b x s = Done (yields limit b) s.
Proof.
  intros Hx. unfold use_generator, mbind at 1, comp_bind at 1. unfold new_generator, get_state, set_frames, set_object, modify, mbind at 1, comp_bind at 1.
  unfold mbind at 1, comp_bind at 1. set (h := fresh _). simpl. set (s1 := GHeap _ _).
  destruct (range_for_yields limit x s1 h b) as (f & Hr); [apply lookup_insert_eq|apply lookup_insert_eq|].
  rewrite (comp_bind_done _ _ _ _ _ Hr). unfold destroy_generator, object, mbind, comp_bind, get_state, mret, comp_ret.
  cbn [with_frame generators s1]. rewrite lookup_insert_eq. unfold destroy_frame, mbind, comp_bind.
  rewrite (promise_done _ _ _ (with_frame_lookup _ _ _)). unfold set_frames, modify, s1. cbn [frames generators with_frame].
  rewrite !insert_insert_eq, !delete_insert_id; [by destruct s|done|apply fresh_frame].
Qed.

(** ** Ownership *)

Definition absent (x : nat) : comp heap unit := s ← get_state; if decide (generators s !! x = None) then mret tt else block.

(** What an application does: a new object is put where none is. *)
Inductive gen_op : Type :=
  | op_new (b : B) (x : nat)
  | op_move (rhs x : nat)
  | op_destroy (x : nat)
  | op_begin (x : nat)
  | op_next (h : nat)
  | op_deref (h : nat).

Definition run_op (o : gen_op) : comp heap unit :=
  match o with
  | op_new b x => absent x;; new_generator b x
  | op_move rhs x => absent x;; move_generator rhs x
  | op_destroy x => destroy_generator x
  | op_begin x => begin x;; mret tt
  | op_next h => iterator_next h;; mret tt
  | op_deref h => iterator_deref h;; mret tt
  end.
Fixpoint run_ops (os : list gen_op) : comp heap unit :=
  match os with [] => mret tt | o :: os => run_op o;; run_ops os end.

(** Each frame is owned by exactly one generator. *)
Record owned (s : heap) : Prop := Owned {
  ow_exists x h : generators s !! x = Some (Some h) → is_Some (frames s !! h);
  ow_unique x y h : generators s !! x = Some (Some h) → generators s !! y = Some (Some h) → x = y;
  ow_owner h : is_Some (frames s !! h) → ∃ x, generators s !! x = Some (Some h) }.

Lemma owned_frame s h f : owned s → is_Some (frames s !! h) → owned (with_frame s h f).
Proof.
  intros [H1 H2 H3] Hh. split; unfold with_frame; simpl.
  - intros x h' Hx. destruct (decide (h' = h)) as [->|Hn]; [by rewrite lookup_insert_eq|]. rewrite lookup_insert_ne by done. by eapply H1.
  - apply H2.
  - intros h' Hh'. apply H3. destruct (decide (h' = h)) as [->|Hn]; [done|]. by rewrite lookup_insert_ne in Hh' by done.
Qed.

Lemma owned_new s x b :
  owned s → generators s !! x = None →
  owned (GHeap (<[fresh (dom (frames s)) := GeneratorState (Some b) vp_null None]> (frames s))
               (<[x := Some (fresh (dom (frames s)))]> (generators s))).
Proof.
  intros [H1 H2 H3] Hx. pose proof (fresh_frame s) as Hf. set (h := fresh _) in *.
  assert (∀ y, generators s !! y ≠ Some (Some h)) as Hn by (intros y Hy; destruct (H1 _ _ Hy); congruence). split; simpl.
  - intros y h'. destruct (decide (h' = h)) as [->|Hh]; [by rewrite lookup_insert_eq|]. rewrite (lookup_insert_ne (frames s)) by done.
    rewrite lookup_insert_Some. intros [[_ ?]|[_ Hy]]; [congruence|by eapply H1].
  - intros y z h'. rewrite !lookup_insert_Some. intros [[<- ?]|[_ Hy]] [[<- ?]|[_ Hz]]; simplify_eq; try done; [by destruct (Hn z)|by destruct (Hn y)|by eapply H2].
  - intros h'. destruct (decide (h' = h)) as [->|Hh]; [intros _; exists x; apply lookup_insert_eq|].
    rewrite lookup_insert_ne by done. intros [y Hy]%H3. exists y. rewrite lookup_insert_ne; [done|congruence].
Qed.

Lemma owned_move s x y h :
  owned s → generators s !! x = Some h → generators s !! y = None → owned (GHeap (frames s) (<[y := h]> (<[x := None]> (generators s)))).
Proof.
  intros [H1 H2 H3] Hx Hy. assert (x ≠ y) as Hn by congruence. split; simpl.
  - intros z h'. rewrite !lookup_insert_Some. intros [[-> ->]|[_ [[_ ?]|[_ Hz]]]]; [|done|]; by eapply H1.
  - intros z z' h'. rewrite !lookup_insert_Some. intros [[<- E]|[? [[? ?]|[? Hz]]]] [[<- E']|[? [[? ?]|[? Hz']]]]; simplify_eq; try done;
      [by destruct (H2 _ _ _ Hx Hz')|by destruct (H2 _ _ _ Hx Hz)|by eapply H2].
  - intros h' [z Hz]%H3. destruct (decide (z = x)) as [->|Hzx].
    + exists y. rewrite lookup_insert_eq. congruence.
    + exists z. rewrite lookup_insert_ne by congruence. by rewrite lookup_insert_ne.
Qed.

Lemma owned_destroy s x h :
  owned s → generators s !! x = Some h →
  owned (GHeap (match h with Some h => delete h (frames s) | None => frames s end) (delete x (generators s))).
Proof.
  intros [H1 H2 H3] Hx. split; simpl.
  - intros y h'. rewrite lookup_delete_Some. intros [Hn Hy]. destruct h as [h|]; [|by eapply H1].
    rewrite lookup_delete_ne; [by eapply H1|]. intros ->. by destruct Hn; eapply H2.
  - intros y z h'. rewrite !lookup_delete_Some. intros [_ ?] [_ ?]. by eapply H2.
  - intros h' Hh'. assert (is_Some (frames s !! h') ∧ h ≠ Some h') as [[y Hy]%H3 Hn].
    { destruct h as [h|]; [|done]. destruct Hh' as [f [? ?]%lookup_delete_Some]. split; [by eexists|congruence]. }
    exists y. rewrite lookup_delete_ne; [done|congruence].
Qed.

Lemma promise_inv h s f s' : promise h s = Done f s' → s' = s ∧ frames s !! h = Some f.
Proof. unfold promise. rewrite get_state_bind. destruct (frames s !! h); [by intros [= <- <-]|done]. Qed.
Lemma object_inv x s h s' : object x s = Done h s' → s' = s ∧ generators s !! x = Some h.
Proof. unfold object. rewrite get_state_bind. destruct (generators s !! x); [by intros [= <- <-]|done]. Qed.
Lemma handle_done_inv h s d s' : handle_done h s = Done d s' → s' = s.
Proof. intros (f & s1 & [-> _]%promise_inv & [= <- <-])%bind_done. done. Qed.
Lemma advanced_inv h s r s' : advanced h s = Done r s' → s' = s.
Proof.
  intros (d & s1 & ->%handle_done_inv & H)%bind_done. destruct d; [|by injection H as <- <-].
  by apply bind_done in H as (f & s2 & [-> _]%promise_inv & [= <- <-]).
Qed.

Lemma iterator_next_inv h s r s' : iterator_next h s = Done r s' → ∃ f, is_Some (frames s !! h) ∧ s' = with_frame s h f.
Proof.
  intros (d & s1 & ->%handle_done_inv & (u & s2 & [_ ->]%assert_done & (u' & s3 & H & ->%advanced_inv)%bind_done)%bind_done)%bind_done.
  apply bind_done in H as (f & s4 & [-> Hf]%promise_inv & H). destruct (g_code f); [|done]. injection H as _ <-. by eexists.
Qed.

Lemma absent_inv x s u s' : absent x s = Done u s' → s' = s ∧ generators s !! x = None.
Proof. unfold absent. rewrite get_state_bind. case_decide; [by intros [= _ <-]|done]. Qed.

Lemma destroy_generator_inv x s u s' :
  destroy_generator x s = Done u s' →
  ∃ h, generators s !! x = Some h ∧
    s' = GHeap (match h with Some h => delete h (frames s) | None => frames s end) (delete x (generators s)).
Proof.
  intros (h & s1 & [-> Hx]%object_inv & (u1 & s2 & H & ->%modify_done)%bind_done)%bind_done. exists h. split; [done|].
  destruct h as [h|]; [|by injection H as _ <-]. by apply bind_done in H as (f & s3 & [-> _]%promise_inv & ->%modify_done).
Qed.

Lemma begin_inv x s r s' :
  begin x s = Done r s' → s' = s ∨ ∃ h f, is_Some (frames s !! h) ∧ s' = with_frame s h f.
Proof.
  intros H. pose proof H as (h & s1 & [-> Hx]%object_inv & H1)%bind_done. destruct h as [h|]; [|injection H1 as _ <-; by left].
  rewrite (begin_next s x h Hx) in H. apply bind_done in H as (r' & s2 & (f & ? & ->)%iterator_next_inv & [= _ <-]). right. eauto.
Qed.

Lemma run_op_owned o s u s' : owned s → run_op o s = Done u s' → owned s'.
Proof.
  intros Ho. destruct o as [b x|x y|x|x|h|h]; simpl.
  - intros (u1 & s1 & [-> Hx]%absent_inv & [= _ <-])%bind_done. by apply owned_new.
  - intros (u1 & s1 & [-> Hy]%absent_inv & (h & s2 & [-> Hx]%object_inv & [= _ <-])%bind_done)%bind_done. by apply owned_move.
  - intros (h & Hx & ->)%destroy_generator_inv. by apply owned_destroy.
  - intros (r & s1 & [->|(h & f & Hh & ->)]%begin_inv & [= _ <-])%bind_done; [done|by apply owned_frame].
  - intros (r & s1 & (f & Hh & ->)%iterator_next_inv & [= _ <-])%bind_done. by apply owned_frame.
  - intros (v & s1 & (f & s2 & [-> _]%promise_inv & (u2 & s3 & [_ ->]%assert_done & H)%bind_done)%bind_done & [= _ <-])%bind_done.
    destruct (m_value f); [done|by injection H as _ <-|done].
Qed.

Lemma run_ops_owned os s u s' : owned s → run_ops os s = Done u s' → owned s'.
Proof.
  revert s. induction os as [|o os IH]; intros s Ho; simpl; [by intros [= _ <-]|].
  intros (u1 & s1 & H1 & H2)%bind_done. eapply IH; [|exact H2]. by eapply run_op_owned.
Qed.

(** Whatever an application does with its generators and iterators, each
    frame that exists is owned by exactly one generator: a generator that exists
    can be destroyed, which frees its frame and no other; one that was moved from
    is empty and its [begin] throws; and when there are no generators left there
    are no frames left. *)
Theorem generator_frames_owned os s :
  run_ops os (GHeap ∅ ∅) = Done tt s →
  (∀ x h, generators s !! x = Some h →
     destroy_generator x s =
     Done tt (GHeap (match h with Some h => delete h (frames s) | None => frames s end) (delete x (generators s)))) ∧
  (∀ x, generators s !! x = Some None → begin x s = Done (Throw empty_generator) s) ∧
  (generators s = ∅ → frames s = ∅).
Proof.
  intros H. assert (owned s) as [H1 _ H3].
  { eapply run_ops_owned, H. split; simpl; [intros x h; by rewrite lookup_empty|intros x y h; by rewrite lookup_empty|].
    intros h [f Hf]. by rewrite lookup_empty in Hf. }
  split_and!.
  - intros x h Hx. unfold destroy_generator, object, mbind, comp_bind, get_state, mret, comp_ret. rewrite Hx.
    destruct h as [h|]; [|done]. destruct (H1 _ _ Hx) as [f Hf]. unfold destroy_frame, mbind, comp_bind.
    by rewrite (promise_done _ _ _ Hf).
  - intros x Hx. unfold begin, object, mbind, comp_bind, get_state, mret, comp_ret. by rewrite Hx.
  - intros He. apply map_empty. intros h. destruct (frames s !! h) as [f|] eqn:Hf; [|done].
    destruct (H3 h) as [x Hx]; [by eexists|]. by rewrite He, lookup_empty in Hx.
Qed.
End generator.

(** The numbers from [n] to 3, and then an exception. *)
Definition count_to_three (n : nat) : gen_step nat nat := if decide (n < 3) then Yield n (S n) else Raise (user_exn 7).
Lemma generator_yields_in_order_witness :
  use_generator count_to_three 9 0 5 (GHeap ∅ ∅) = Done ([0; 1; 2], Throw (user_exn 7)) (GHeap ∅ ∅).
Proof. apply (generator_yields_in_order count_to_three 9 0 5 (GHeap ∅ ∅)). reflexivity. Defined.

Lemma generator_frames_owned_witness :
  ∃ s, run_ops count_to_three [op_new 0 1; op_begin 1; op_move 1 2] (GHeap ∅ ∅) = Done tt s ∧
    begin count_to_three 1 s = Done (Throw empty_generator) s.
Proof.
  eexists. split; [vm_compute; reflexivity|].
  apply (proj1 (proj2 (generator_frames_owned count_to_three [op_new 0 1; op_begin 1; op_move 1 2] _ eq_refl))). reflexivity.
Defined.
