(* ===== verification/Lazy.v ===== *)
(** * [lazy_result.h]: coroutines that start when they are awaited

    The coroutine frames are a heap; a coroutine that awaits another hands control
    to it, and gets it back at its end, by symmetric transfer.  The bodies of the
    coroutines are programs over the operations of [lazy_result].  A direct
    evaluation of these programs, in which a lazy result is a computation that has
    not been made yet or its outcome, is what the coroutines implement. *)

From S2P Require Import Prelude Conc.
From stdpp Require Import options.

Inductive lazy_status : Type := ls_idle | ls_value | ls_exception.

Section lazy.
Context {V : Type}.

(** The body of a coroutine of type [lazy_result<V>]; [p_new] calls such a
    coroutine, [p_trace] stands for all other effects. *)
Inductive prog : Type :=
  | p_return (v : V)
  | p_throw (e : exn)
  | p_trace (n : nat) (k : prog)
  | p_new (child : prog) (k : nat → prog)
  | p_status (x : nat) (k : outcome lazy_status → prog)
  | p_await (x : nat) (k : outcome V → prog)
  | p_resolve (x : nat) (k : outcome nat → prog)
  | p_move (rhs : nat) (k : nat → prog)
  | p_assign (x rhs : nat) (k : prog)
  | p_destroy (x : nat) (k : prog).

(** ** Frames *)

(** [m_caller_handle] *)
Inductive caller : Type := null | outside | caller_frame (h : nat).

(** Where a coroutine is: before its body, running, in [co_await] of a lazy result
    whose frame the awaitable owns, or at its final suspension. *)
Inductive point : Type :=
  | at_start (p : prog)
  | at_running
  | at_await (h : nat) (k : outcome V → prog)
  | at_resolve (h : nat) (k : outcome nat → prog)
  | at_final.

Record lazy_result_state : Type := LazyState {
  l_point : point;
  m_caller_handle : caller;
  m_producer : option (outcome V) }.

(** The frames, the [lazy_result] objects with their handles, and the trace. *)
Record lheap : Type := LHeap {
  lframes : gmap nat lazy_result_state;
  lobjects : gmap nat (option nat);
  ltrace : list nat }.

(** Who has control. *)
Inductive control : Type :=
  | running (h : nat) (p : prog)
  | transfer (c : caller).

Definition set_lframe (h : nat) (f : lazy_result_state) : comp lheap unit :=
  modify (λ s, LHeap (<[h := f]> (lframes s)) (lobjects s) (ltrace s)).
Definition set_lobject (x : nat) (o : option nat) : comp lheap unit :=
  modify (λ s, LHeap (lframes s) (<[x := o]> (lobjects s)) (ltrace s)).
Definition lframe (h : nat) : comp lheap lazy_result_state :=
  s ← get_state; match lframes s !! h with Some f => mret f | None => abort_with use_after_free end.
Definition lobject (x : nat) : comp lheap (option nat) :=
  s ← get_state; match lobjects s !! x with Some h => mret h | None => abort_with use_after_free end.

Definition destroy_lframe (h : nat) : comp lheap unit :=
  lframe h;; modify (λ s, LHeap (delete h (lframes s)) (lobjects s) (ltrace s)).

(** A new object with the handle [h]. *)
Definition new_object (h : option nat) : comp lheap nat :=
  s ← get_state; let x := fresh (dom (lobjects s)) in set_lobject x h;; mret x.

(** [get_return_object] and [initial_suspend] *)
Definition new_coroutine (p : prog) : comp lheap nat :=
  s ← get_state; let h := fresh (dom (lframes s)) in set_lframe h (LazyState (at_start p) null None);; mret h.

Definition is_done (f : lazy_result_state) : bool := match l_point f with at_final => true | _ => false end.

(** [producer_context::get] *)
Definition lazy_get (h : nat) : comp lheap (outcome V) :=
  f ← lframe h; match m_producer f with Some o => mret o | None => abort_with assert_failed end.

(** [set_result] or [unhandled_exception], and the final suspension, whose awaiter
    returns the handle of the caller. *)
Definition complete (h : nat) (o : outcome V) : comp lheap control :=
  f ← lframe h;
  assert (match m_producer f with None => true | _ => false end);;
  set_lframe h (LazyState at_final (m_caller_handle f) (Some o));;
  mret (transfer (m_caller_handle f)).

(** [lazy_result_state_base::await]: the caller is suspended, and the frame [h] is
    given control. *)
Definition await_on (self : nat) (here : point) (h : nat) : comp lheap control :=
  fs ← lframe self;
  set_lframe self (LazyState here (m_caller_handle fs) (m_producer fs));;
  f ← lframe h;
  set_lframe h (LazyState (l_point f) (caller_frame self) (m_producer f));;
  mret (transfer (caller_frame h)).

(** [lazy_awaitable::await_resume] and its destructor *)
Definition await_resumed (h : nat) : comp lheap (outcome V) := o ← lazy_get h; destroy_lframe h;; mret o.
(** [lazy_resolve_awaitable::await_resume] *)
Definition resolve_resumed (h : nat) : comp lheap nat := new_object (Some h).

Definition status_of (o : option (outcome V)) : lazy_status :=
  match o with None => ls_idle | Some (Ret _) => ls_value | Some _ => ls_exception end.

(** ** Steps *)

Definition step_prog (self : nat) (p : prog) : comp lheap control :=
  match p with
  | p_return v => complete self (Ret v)
  | p_throw e => complete self (Throw e)
  | p_trace n k => modify (λ s, LHeap (lframes s) (lobjects s) (ltrace s ++ [n]));; mret (running self k)
  | p_new child k => h ← new_coroutine child; x ← new_object (Some h); mret (running self (k x))
  | p_status x k =>
      h ← lobject x;
      match h with
      | None => mret (running self (k (Throw empty_result)))
      | Some h => f ← lframe h; mret (running self (k (Ret (status_of (m_producer f)))))
      end
  | p_await x k =>
      h ← lobject x;
      match h with
      | None => mret (running self (k (Throw empty_result)))
      | Some h =>
          set_lobject x None;;
          f ← lframe h;
          if is_done f then o ← await_resumed h; mret (running self (k o)) else await_on self (at_await h k) h
      end
  | p_resolve x k =>
      h ← lobject x;
      match h with
      | None => mret (running self (k (Throw empty_result)))
      | Some h =>
          set_lobject x None;;
          f ← lframe h;
          if is_done f then y ← resolve_resumed h; mret (running self (k (Ret y))) else await_on self (at_resolve h k) h
      end
  | p_move rhs k => h ← lobject rhs; set_lobject rhs None;; y ← new_object h; mret (running self (k y))
  | p_assign x rhs k =>
      if decide (rhs = x) then mret (running self k)
      else
        h ← lobject x;
        (match h with Some h => destroy_lframe h | None => mret tt end);;
        h' ← lobject rhs; set_lobject rhs None;; set_lobject x h';; mret (running self k)
  | p_destroy x k =>
      h ← lobject x;
      (match h with Some h => destroy_lframe h | None => mret tt end);;
      modify (λ s, LHeap (lframes s) (delete x (lobjects s)) (ltrace s));; mret (running self k)
  end.

(** [resume] of a handle: at its start, or after what it awaited. *)
Definition set_running (h : nat) (f : lazy_result_state) : comp lheap unit :=
  set_lframe h (LazyState at_running (m_caller_handle f) (m_producer f)).
Definition resume_lazy (h : nat) : comp lheap control :=
  f ← lframe h;
  match l_point f with
  | at_start p => set_running h f;; mret (running h p)
  | at_await h' k => set_running h f;; o ← await_resumed h'; mret (running h (k o))
  | at_resolve h' k => set_running h f;; y ← resolve_resumed h'; mret (running h (k (Ret y)))
  | at_running | at_final => abort_with bad_resume
  end.

(** Until control is given back to the outside. *)
Fixpoint drive (fuel : nat) (c : control) : comp lheap unit :=
  match fuel with
  | 0 => abort_with out_of_fuel
  | S fuel =>
      match c with
      | running h p => c ← step_prog h p; drive fuel c
      | transfer (caller_frame h) => c ← resume_lazy h; drive fuel c
      | transfer outside => mret tt
      | transfer null => abort_with bad_resume
      end
  end.

(** ** Direct evaluation *)

(** A lazy result: not yet computed, or its outcome. *)
Inductive lazy : Type := thunk (p : prog) | forced (o : outcome V).

Record store : Type := Store { sobjects : gmap nat (option lazy); strace : list nat }.

Definition put (x : nat) (l : option lazy) (st : store) : store := Store (<[x := l]> (sobjects st)) (strace st).
Definition lazy_state (l : lazy) : lazy_status := match l with thunk _ => ls_idle | forced o => status_of (Some o) end.

Fixpoint eval (fuel : nat) (p : prog) (st : store) : option (outcome V * store) :=
  match fuel with
  | 0 => None
  | S fuel =>
      (* the outcome of a lazy result *)
      let force l st := match l with thunk p => eval fuel p st | forced o => Some (o, st) end in
      match p with
      | p_return v => Some (Ret v, st)
      | p_throw e => Some (Throw e, st)
      | p_trace n k => eval fuel k (Store (sobjects st) (strace st ++ [n]))
      | p_new child k => let x := fresh (dom (sobjects st)) in eval fuel (k x) (put x (Some (thunk child)) st)
      | p_status x k =>
          o ← sobjects st !! x;
          eval fuel (k (match o with None => Throw empty_result | Some l => Ret (lazy_state l) end)) st
      | p_await x k =>
          o ← sobjects st !! x;
          match o with
          | None => eval fuel (k (Throw empty_result)) st
          | Some l => '(r, st) ← force l (put x None st); eval fuel (k r) st
          end
      | p_resolve x k =>
          o ← sobjects st !! x;
          match o with
          | None => eval fuel (k (Throw empty_result)) st
          | Some l =>
              '(r, st) ← force l (put x None st);
              let y := fresh (dom (sobjects st)) in eval fuel (k (Ret y)) (put y (Some (forced r)) st)
          end
      | p_move rhs k =>
          o ← sobjects st !! rhs;
          let st := put rhs None st in
          let y := fresh (dom (sobjects st)) in eval fuel (k y) (put y o st)
      | p_assign x rhs k =>
          if decide (rhs = x) then eval fuel k st
          else _ ← sobjects st !! x; o ← sobjects st !! rhs; eval fuel k (put x o (put rhs None st))
      | p_destroy x k => _ ← sobjects st !! x; eval fuel k (Store (delete x (sobjects st)) (strace st))
      end
  end.

(** ** What relates the two *)

Definition frame_is (s : lheap) (h : nat) (l : lazy) : Prop :=
  match l with
  | thunk p => lframes s !! h = Some (LazyState (at_start p) null None)
  | forced o => ∃ c, lframes s !! h = Some (LazyState at_final c (Some o))
  end.

Definition object_is (s : lheap) (o : option (option nat)) (o' : option (option lazy)) : Prop :=
  match o, o' with
  | None, None | Some None, Some None => True
  | Some (Some h), Some (Some l) => frame_is s h l
  | _, _ => False
  end.

(** [act]: the frames that are owned by no object: those that run or wait. *)
Record related (act : gset nat) (s : lheap) (st : store) : Prop := Related {
  re_objects x : object_is s (lobjects s !! x) (sobjects st !! x);
  re_unique x y h : lobjects s !! x = Some (Some h) → lobjects s !! y = Some (Some h) → x = y;
  re_active h : h ∈ act → is_Some (lframes s !! h) ∧ ∀ x, lobjects s !! x ≠ Some (Some h);
  re_owned h : is_Some (lframes s !! h) → h ∈ act ∨ ∃ x, lobjects s !! x = Some (Some h);
  re_trace : ltrace s = strace st }.

Lemma related_dom act s st : related act s st → dom (lobjects s) = dom (sobjects st).
Proof.
  intros H. apply set_eq. intros x. rewrite !elem_of_dom. pose proof (re_objects _ _ _ H x) as Hx. unfold object_is in Hx.
  destruct (lobjects s !! x) as [[]|], (sobjects st !! x) as [[]|]; try done; split; intros []; eauto; by eexists.
Qed.

Lemma frame_is_ext s s' h l : lframes s' !! h = lframes s !! h → frame_is s h l → frame_is s' h l.
Proof. unfold frame_is. by intros ->. Qed.

(** An active frame changes. *)
Lemma related_frame act s st h f :
  related act s st → h ∈ act → related act (LHeap (<[h := f]> (lframes s)) (lobjects s) (ltrace s)) st.
Proof.
  intros [H1 H2 H3 H4 H5] Hh. destruct (H3 h Hh) as [He Hn]. split; simpl; [|done| | |done].
  - intros x. specialize (H1 x). unfold object_is in *. destruct (lobjects s !! x) as [[h'|]|] eqn:E, (sobjects st !! x) as [[l|]|]; try done.
    eapply frame_is_ext; [|exact H1]. simpl. rewrite lookup_insert_ne; [done|]. intros ->. by destruct (Hn x).
  - intros h' Hh'. split; [|by apply H3]. destruct (decide (h' = h)) as [->|?]; [by rewrite lookup_insert_eq|].
    rewrite lookup_insert_ne by done. by apply H3.
  - intros h'. destruct (decide (h' = h)) as [->|?]; [by left|]. rewrite lookup_insert_ne by done. apply H4.
Qed.

(** The frame of an object becomes active. *)
Lemma related_take act s st x h :
  related act s st → lobjects s !! x = Some (Some h) →
  related ({[h]} ∪ act) (LHeap (lframes s) (<[x := None]> (lobjects s)) (ltrace s)) (put x None st) ∧ h ∉ act.
Proof.
  intros [H1 H2 H3 H4 H5] Hx. assert (h ∉ act) as Hn by (intros Ha; by destruct (proj2 (H3 h Ha) x)). split; [|done]. split; simpl; [| | | |done].
  - intros y. destruct (decide (y = x)) as [->|Hy]; [by rewrite !lookup_insert_eq|]. rewrite !lookup_insert_ne by done. apply H1.
  - intros y z h'. rewrite !lookup_insert_Some. intros [[_ ?]|[_ ?]] [[_ ?]|[_ ?]]; try done. by eapply H2.
  - intros h' [->%elem_of_singleton|Ha]%elem_of_union.
    + split; [|intros y [[_ ?]|[Hy Hy']]%lookup_insert_Some; [done|by destruct Hy; eapply H2]].
      specialize (H1 x). rewrite Hx in H1. unfold object_is in H1. destruct (sobjects st !! x) as [[[]|]|]; try done; by destruct H1.
    + split; [by apply H3|]. intros y [[_ ?]|[_ ?]]%lookup_insert_Some; [done|]. by destruct (proj2 (H3 h' Ha) y).
  - intros h' Hh'. destruct (decide (h' = h)) as [->|Hne]; [left; set_solver|]. destruct (H4 h' Hh') as [?|[y Hy]]; [left; set_solver|].
    right. exists y. rewrite lookup_insert_ne; [done|congruence].
Qed.

(** An active frame is destroyed. *)
Lemma related_drop act s st h :
  related ({[h]} ∪ act) s st → h ∉ act → related act (LHeap (delete h (lframes s)) (lobjects s) (ltrace s)) st.
Proof.
  intros [H1 H2 H3 H4 H5] Hn. assert (h ∈ {[h]} ∪ act) as Hh by set_solver. destruct (H3 h Hh) as [_ Ho]. split; simpl; [|done| | |done].
  - intros x. specialize (H1 x). unfold object_is in *. destruct (lobjects s !! x) as [[h'|]|] eqn:E, (sobjects st !! x) as [[l|]|]; try done.
    eapply frame_is_ext; [|exact H1]. simpl. rewrite lookup_delete_ne; [done|]. intros ->. by destruct (Ho x).
  - intros h' Hh'. split; [|apply H3; set_solver]. rewrite lookup_delete_ne; [apply H3; set_solver|by intros ->].
  - intros h' Hh'. destruct (decide (h' = h)) as [->|Hne]; [rewrite lookup_delete_eq in Hh'; by destruct Hh'|].
    rewrite lookup_delete_ne in Hh' by done. destruct (H4 h' Hh') as [?|?]; [left; set_solver|by right].
Qed.

(** An active frame is given to an object that has none. *)
Lemma related_give act s st y h l :
  related ({[h]} ∪ act) s st → h ∉ act → frame_is s h l → (∀ h', lobjects s !! y ≠ Some (Some h')) →
  related act (LHeap (lframes s) (<[y := Some h]> (lobjects s)) (ltrace s)) (put y (Some l) st).
Proof.
  intros [H1 H2 H3 H4 H5] Hn Hl Hy. assert (h ∈ {[h]} ∪ act) as Hh by set_solver. destruct (H3 h Hh) as [He Ho]. split; simpl; [| | | |done].
  - intros x. destruct (decide (x = y)) as [->|Hx]; [by rewrite !lookup_insert_eq|]. rewrite !lookup_insert_ne by done. apply H1.
  - intros x z h'. rewrite !lookup_insert_Some. intros [[<- E]|[_ Hx]] [[<- E']|[_ Hz]]; simplify_eq; try done;
      [by destruct (Ho z)|by destruct (Ho x)|by eapply H2].
  - intros h' Hh'. destruct (H3 h') as [? Hno]; [set_solver|]. split; [done|]. intros x [[_ ?]|[_ ?]]%lookup_insert_Some; [congruence|by destruct (Hno x)].
  - intros h' Hh'. destruct (H4 h' Hh') as [[->%elem_of_singleton|?]%elem_of_union|[x Hx]]; [right; exists y; apply lookup_insert_eq|by left|].
    right. exists x. rewrite lookup_insert_ne; [done|]. intros ->. by destruct (Hy h').
Qed.

(** A new frame is active. *)
Lemma related_fresh act s st f :
  related act s st →
  related ({[fresh (dom (lframes s))]} ∪ act) (LHeap (<[fresh (dom (lframes s)) := f]> (lframes s)) (lobjects s) (ltrace s)) st ∧
  fresh (dom (lframes s)) ∉ act.
Proof.
  intros [H1 H2 H3 H4 H5]. assert (lframes s !! fresh (dom (lframes s)) = None) as Hf by apply not_elem_of_dom, is_fresh.
  set (h := fresh _) in *. assert (∀ x, lobjects s !! x ≠ Some (Some h)) as Ho.
  { intros x Hx. specialize (H1 x). rewrite Hx in H1. unfold object_is, frame_is in H1.
    destruct (sobjects st !! x) as [[[]|]|]; try done; [congruence|destruct H1; congruence]. }
  assert (h ∉ act) as Ha by (intros Ha; destruct (H3 h Ha) as [[? ?] _]; congruence). split; [|done]. split; simpl; [|done| | |done].
  - intros x. specialize (H1 x). unfold object_is in *. destruct (lobjects s !! x) as [[h'|]|] eqn:E, (sobjects st !! x) as [[l|]|]; try done.
    eapply frame_is_ext; [|exact H1]. simpl. rewrite lookup_insert_ne; [done|]. intros <-. by destruct (Ho x).
  - intros h' [->%elem_of_singleton|Hh']%elem_of_union; [by rewrite lookup_insert_eq|]. destruct (H3 h' Hh') as [He ?]. split; [|done].
    rewrite lookup_insert_ne; [done|congruence].
  - intros h' Hh'. destruct (decide (h' = h)) as [->|Hne]; [left; set_solver|]. rewrite lookup_insert_ne in Hh' by done.
    destruct (H4 h' Hh') as [?|?]; [left; set_solver|by right].
Qed.

(** An object without a frame comes or goes. *)
Lemma related_empty act s st x :
  related act s st → (∀ h, lobjects s !! x ≠ Some (Some h)) →
  related act (LHeap (lframes s) (<[x := None]> (lobjects s)) (ltrace s)) (put x None st) ∧
  related act (LHeap (lframes s) (delete x (lobjects s)) (ltrace s)) (Store (delete x (sobjects st)) (strace st)).
Proof.
  intros [H1 H2 H3 H4 H5] Hx. split; split; simpl; try done.
  - intros y. destruct (decide (y = x)) as [->|Hy]; [by rewrite !lookup_insert_eq|]. rewrite !lookup_insert_ne by done. apply H1.
  - intros y z h. rewrite !lookup_insert_Some. intros [[_ ?]|[_ ?]] [[_ ?]|[_ ?]]; try done. by eapply H2.
  - intros h Hh. split; [by apply H3|]. intros y [[_ ?]|[_ ?]]%lookup_insert_Some; [done|]. by destruct (proj2 (H3 h Hh) y).
  - intros h [?|[y Hy]]%H4; [by left|]. right. exists y. rewrite lookup_insert_ne; [done|congruence].
  - intros y. destruct (decide (y = x)) as [->|Hy]; [by rewrite !lookup_delete_eq|]. rewrite !lookup_delete_ne by done. apply H1.
  - intros y z h. rewrite !lookup_delete_Some. intros [_ ?] [_ ?]. by eapply H2.
  - intros h Hh. split; [by apply H3|]. intros y [_ ?]%lookup_delete_Some. by destruct (proj2 (H3 h Hh) y).
  - intros h [?|[y Hy]]%H4; [by left|]. right. exists y. rewrite lookup_delete_ne; [done|congruence].
Qed.

(** ** The simulation *)

Definition lstep (c : control) : comp lheap control :=
  match c with
  | running h p => step_prog h p
  | transfer (caller_frame h) => resume_lazy h
  | transfer _ => block
  end.
Definition steps_to (x y : control * lheap) : Prop := lstep x.1 x.2 = Done y.1 y.2.

Definition same_frames (act : gset nat) (h : nat) (s s' : lheap) : Prop :=
  ∀ h', h' ∈ act → h' ≠ h → lframes s' !! h' = lframes s !! h'.

(** The coroutine [h] ends with the outcome [o] and gives control to its caller [c]. *)
Definition finishes (act : gset nat) (h : nat) (c : caller) (o : outcome V) (st : store) (x : control * lheap) : Prop :=
  ∃ s', rtc steps_to x (transfer c, s') ∧ related act s' st ∧
    lframes s' !! h = Some (LazyState at_final c (Some o)) ∧ same_frames act h x.2 s'.

Lemma finishes_step act h c o st x y :
  steps_to x y → same_frames act h x.2 y.2 → finishes act h c o st y → finishes act h c o st x.
Proof.
  intros Hs Hf (s' & Hr & Hre & Hh & Hsame). exists s'. split_and!; [by eapply rtc_l|done|done|].
  intros h' H1 H2. rewrite (Hsame h' H1 H2). by apply Hf.
Qed.

Lemma lframe_done s h f : lframes s !! h = Some f → lframe h s = Done f s.
Proof. intros Hf. unfold lframe. rewrite get_state_bind. by rewrite Hf. Qed.
Lemma lobject_done s x o : lobjects s !! x = Some o → lobject x s = Done o s.
Proof. intros Hf. unfold lobject. rewrite get_state_bind. by rewrite Hf. Qed.

Definition with_lframe (s : lheap) (h : nat) (f : lazy_result_state) : lheap := LHeap (<[h := f]> (lframes s)) (lobjects s) (ltrace s).

Lemma await_on_done s self fs here h f :
  lframes s !! self = Some fs → lframes s !! h = Some f → self ≠ h →
  await_on self here h s =
  Done (transfer (caller_frame h))
    (with_lframe (with_lframe s self (LazyState here (m_caller_handle fs) (m_producer fs))) h (LazyState (l_point f) (caller_frame self) (m_producer f))).
Proof.
  intros Hs Hh Hn. unfold await_on. rewrite (comp_bind_done _ _ _ _ _ (lframe_done _ _ _ Hs)). unfold set_lframe, modify, mbind, comp_bind.
  rewrite (lframe_done _ h f); [done|]. simpl. by rewrite lookup_insert_ne.
Qed.

(** The coroutine [h] waits while the one with the frame [hc] runs. *)
Lemma child_runs act h c hc p r st st' s here :
  (∀ act s, related act s st → hc ∈ act → lframes s !! hc = Some (LazyState at_running (caller_frame h) None) →
     finishes act hc (caller_frame h) r st' (running hc p, s)) →
  related ({[hc]} ∪ act) s st → h ∈ act → hc ∉ act →
  lframes s !! h = Some (LazyState at_running c None) → lframes s !! hc = Some (LazyState (at_start p) null None) →
  ∃ s1 s', await_on h here hc s = Done (transfer (caller_frame hc)) s1 ∧
    rtc steps_to (transfer (caller_frame hc), s1) (transfer (caller_frame h), s') ∧
    related ({[hc]} ∪ act) s' st' ∧ lframes s' !! hc = Some (LazyState at_final (caller_frame h) (Some r)) ∧
    lframes s' !! h = Some (LazyState here c None) ∧ same_frames act h s s'.
Proof.
  intros IH Hre Hh Hhc Hfh Hfc. assert (h ≠ hc) as Hne by (by intros ->). eexists. 
  set (s2 := with_lframe (with_lframe s h (LazyState here c None)) hc (LazyState at_running (caller_frame h) None)).
  assert (related ({[hc]} ∪ act) s2 st) as H2 by (unfold s2, with_lframe; apply related_frame; [apply related_frame|]; set_solver).
  destruct (IH ({[hc]} ∪ act) s2 H2) as (s' & Hr & Hre' & Hf' & Hsame); [set_solver|apply lookup_insert_eq|].
  exists s'. split; [by apply await_on_done|]. split_and!; [|done|done| |].
  - eapply rtc_l; [|exact Hr]. unfold steps_to. simpl. unfold resume_lazy.
    erewrite comp_bind_done by (apply lframe_done, lookup_insert_eq). cbn [l_point].
    unfold set_running, set_lframe, modify, mbind, comp_bind, mret, comp_ret. unfold s2, with_lframe. simpl. by rewrite !insert_insert_eq.
  - rewrite (Hsame h) by set_solver. unfold s2, with_lframe. simpl. by rewrite lookup_insert_ne, lookup_insert_eq.
  - intros h' H1 Hn. rewrite (Hsame h') by set_solver. unfold s2, with_lframe. simpl.
    rewrite !lookup_insert_ne; [done|congruence|set_solver].
Qed.

Lemma related_object act s st x o :
  related act s st → sobjects st !! x = Some o → ∃ ho, lobjects s !! x = Some ho ∧ object_is s (Some ho) (Some o).
Proof.
  intros H Hx. pose proof (re_objects _ _ _ H x) as Ho. rewrite Hx in Ho. destruct (lobjects s !! x) as [ho|]; [|by destruct o]. eauto.
Qed.

(** What an object has goes to another. *)
Lemma related_move act s st x y ho o :
  related act s st → lobjects s !! x = Some ho → sobjects st !! x = Some o →
  (∀ h, <[x := None]> (lobjects s) !! y ≠ Some (Some h)) →
  related act (LHeap (lframes s) (<[y := ho]> (<[x := None]> (lobjects s))) (ltrace s)) (put y o (put x None st)).
Proof.
  intros H Hx Ho Hy. destruct (related_object _ _ _ _ _ H Ho) as (ho' & Hx' & Hob). rewrite Hx in Hx'. injection Hx' as <-.
  destruct ho as [h|], o as [l|]; try done.
  - destruct (related_take _ _ _ _ _ H Hx) as [H1 Hn]. by apply (related_give act _ _ y h l) in H1.
  - destruct (related_empty _ _ _ x H) as [H1 _]; [by rewrite Hx|]. by apply (related_empty _ _ _ y) in H1 as [H2 _].
Qed.

(** The frame of an object, if any, is destroyed. *)
Lemma release_done act s st x ho :
  related act s st → lobjects s !! x = Some ho →
  ∃ fs, (match ho with Some h => destroy_lframe h | None => mret tt end : comp lheap unit) s = Done tt (LHeap fs (lobjects s) (ltrace s)) ∧
    related act (LHeap fs (<[x := None]> (lobjects s)) (ltrace s)) (put x None st) ∧
    ∀ h, h ∈ act → fs !! h = lframes s !! h.
Proof.
  intros H Hx. destruct ho as [h|].
  - destruct (related_take _ _ _ _ _ H Hx) as [H1 Hn]. destruct (re_active _ _ _ H1 h) as [[f Hf] _]; [set_solver|].
    eexists. split; [unfold destroy_lframe; rewrite (comp_bind_done _ _ _ _ _ (lframe_done s h f Hf)); done|].
    split; [by apply related_drop in H1|]. intros h' Hh'. rewrite lookup_delete_ne; [done|]. by intros ->.
  - exists (lframes s). split; [by destruct s|]. split; [|done]. apply related_empty; [done|]. by rewrite Hx.
Qed.

Section simulation.
Context (fuel : nat).
Context (IH : ∀ p st o st' act s h c, eval fuel p st = Some (o, st') → related act s st → h ∈ act →
  lframes s !! h = Some (LazyState at_running c None) → finishes act h c o st' (running h p, s)).

(** A step of [h] that leaves the frames of the others. *)
Lemma sim_step p s p' s1 st o st' act h c :
  step_prog h p s = Done (running h p') s1 → (∀ h', h' ∈ act → lframes s1 !! h' = lframes s !! h') →
  eval fuel p' st = Some (o, st') → related act s1 st → h ∈ act → lframes s !! h = Some (LazyState at_running c None) →
  finishes act h c o st' (running h p, s).
Proof using IH.
  intros Hs Hf He Hre Hh Hr. eapply (finishes_step _ _ _ _ _ _ (running h p', s1)); [done|intros h' ? _; by apply Hf|].
  eapply IH; [done..|]. by rewrite Hf.
Qed.

Lemma sim_complete p s h c o st act :
  step_prog h p = complete h o → related act s st → h ∈ act → lframes s !! h = Some (LazyState at_running c None) →
  finishes act h c o st (running h p, s).
Proof using Type.
  intros Hp Hre Hh Hr. exists (with_lframe s h (LazyState at_final c (Some o))). split_and!.
  - apply rtc_once. unfold steps_to. simpl. rewrite Hp. unfold complete. by rewrite (comp_bind_done _ _ _ _ _ (lframe_done _ _ _ Hr)).
  - by apply related_frame.
  - apply lookup_insert_eq.
  - intros h' _ Hn. apply lookup_insert_ne. congruence.
Qed.

Lemma sim_new child k s h c o st st' act :
  eval (S fuel) (p_new child k) st = Some (o, st') → related act s st → h ∈ act → lframes s !! h = Some (LazyState at_running c None) →
  finishes act h c o st' (running h (p_new child k), s).
Proof using IH.
  intros He Hre Hh Hr. cbn [eval] in He. destruct (related_fresh act s st (LazyState (at_start child) null None) Hre) as [H1 Hn].
  set (hc := fresh (dom (lframes s))) in *. rewrite <- (related_dom _ _ _ Hre) in He. set (x := fresh (dom (lobjects s))) in *.
  assert (lobjects s !! x = None) as Hx by apply not_elem_of_dom, is_fresh.
  eapply sim_step; [simpl; unfold new_coroutine, new_object, get_state, set_lframe, set_lobject, modify, mbind, comp_bind, mret, comp_ret; reflexivity| |exact He| |done|done].
  - intros h' Hh'. simpl. apply lookup_insert_ne. fold hc. by intros <-.
  - apply (related_give act _ _ x hc (thunk child)) in H1; [done|done|apply lookup_insert_eq|]. simpl. by rewrite Hx.
Qed.

Lemma await_resumed_done s h c r :
  lframes s !! h = Some (LazyState at_final c (Some r)) →
  await_resumed h s = Done r (LHeap (delete h (lframes s)) (lobjects s) (ltrace s)).
Proof using Type.
  intros Hf. unfold await_resumed. rewrite (comp_bind_done _ _ s r s).
  - unfold destroy_lframe, mbind, comp_bind. by rewrite (lframe_done _ _ _ Hf).
  - unfold lazy_get. by rewrite (comp_bind_done _ _ _ _ _ (lframe_done _ _ _ Hf)).
Qed.

(** After the end of what [h] awaited. *)
Lemma sim_await_resume k s h c hc c' r o st st' act :
  eval fuel (k r) st = Some (o, st') → related ({[hc]} ∪ act) s st → h ∈ act → hc ∉ act →
  lframes s !! h = Some (LazyState (at_await hc k) c None) → lframes s !! hc = Some (LazyState at_final c' (Some r)) →
  finishes act h c o st' (transfer (caller_frame h), s).
Proof using IH.
  intros He Hre Hh Hhc Hfh Hfc. assert (h ≠ hc) as Hne by (by intros ->).
  set (s1 := with_lframe s h (LazyState at_running c None)).
  set (s2 := LHeap (delete hc (lframes s1)) (lobjects s1) (ltrace s1)).
  assert (related act s2 st) as H2 by (apply related_drop; [apply related_frame; [done|set_solver]|done]).
  assert (∀ h', h' ≠ h → h' ≠ hc → lframes s2 !! h' = lframes s !! h') as Hs.
  { intros h' H1 H3. unfold s2, s1, with_lframe. simpl. by rewrite lookup_delete_ne, lookup_insert_ne. }
  eapply (finishes_step _ _ _ _ _ _ (running h (k r), s2)).
  - unfold steps_to. simpl. unfold resume_lazy. rewrite (comp_bind_done _ _ _ _ _ (lframe_done _ _ _ Hfh)). cbn [l_point m_caller_handle m_producer].
    rewrite (comp_bind_done _ _ s tt s1) by done. rewrite (comp_bind_done _ _ s1 r s2); [done|]. eapply await_resumed_done.
    unfold s1, with_lframe. simpl. rewrite lookup_insert_ne by done. exact Hfc.
  - intros h' H1 H3. simpl. apply Hs; [done|]. by intros ->.
  - eapply IH; [done..|]. unfold s2, s1, with_lframe. simpl. by rewrite lookup_delete_ne, lookup_insert_eq.
Qed.

Lemma sim_resolve_resume k s h c hc c' r o st st' act :
  eval fuel (k (Ret (fresh (dom (sobjects st))))) (put (fresh (dom (sobjects st))) (Some (forced r)) st) = Some (o, st') →
  related ({[hc]} ∪ act) s st → h ∈ act → hc ∉ act →
  lframes s !! h = Some (LazyState (at_resolve hc k) c None) → lframes s !! hc = Some (LazyState at_final c' (Some r)) →
  finishes act h c o st' (transfer (caller_frame h), s).
Proof using IH.
  intros He Hre Hh Hhc Hfh Hfc. assert (h ≠ hc) as Hne by (by intros ->). rewrite <- (related_dom _ _ _ Hre) in He.
  set (y := fresh _) in *. assert (lobjects s !! y = None) as Hy by apply not_elem_of_dom, is_fresh.
  set (s1 := with_lframe s h (LazyState at_running c None)).
  set (s2 := LHeap (lframes s1) (<[y := Some hc]> (lobjects s1)) (ltrace s1)).
  assert (related act s2 (put y (Some (forced r)) st)) as H2.
  { apply related_give; [apply related_frame; [done|set_solver]|done| |].
    - exists c'. unfold s1, with_lframe. simpl. by rewrite lookup_insert_ne.
    - intros h'. unfold s1, with_lframe. simpl. by rewrite Hy. }
  eapply (finishes_step _ _ _ _ _ _ (running h (k (Ret y)), s2)).
  - unfold steps_to. simpl. unfold resume_lazy. rewrite (comp_bind_done _ _ _ _ _ (lframe_done _ _ _ Hfh)). done.
  - intros h' H1 H3. unfold s2, s1, with_lframe. simpl. by apply lookup_insert_ne.
  - eapply IH; [done..|]. unfold s2, s1, with_lframe. simpl. apply lookup_insert_eq.
Qed.

(** From the child back to [h], which waits at [here]. *)
Lemma sim_child p here s0 s h c hc r o st st1 st' act x :
  step_prog h x s0 = await_on h here hc s → lframes s = lframes s0 →
  eval fuel p st = Some (r, st1) → related ({[hc]} ∪ act) s st → h ∈ act → hc ∉ act →
  lframes s !! h = Some (LazyState at_running c None) → lframes s !! hc = Some (LazyState (at_start p) null None) →
  (∀ s', related ({[hc]} ∪ act) s' st1 → lframes s' !! h = Some (LazyState here c None) →
     lframes s' !! hc = Some (LazyState at_final (caller_frame h) (Some r)) → finishes act h c o st' (transfer (caller_frame h), s')) →
  finishes act h c o st' (running h x, s0).
Proof using IH.
  intros Hx Hfs He Hre Hh Hhc Hfh Hfc Hk.
  destruct (child_runs act h c hc p r st st1 s here) as (s1 & s2 & Ha & Hr & Hre2 & Hc2 & Hh2 & Hsame); [|done..|].
  { intros act' s' H1 H2 H3. by eapply IH. }
  destruct (Hk s2 Hre2 Hh2 Hc2) as (s' & Hr' & Hre' & Hf' & Hs'). exists s'. split_and!; [|done|done|].
  - eapply rtc_l; [|etrans; [exact Hr|exact Hr']]. unfold steps_to. simpl. by rewrite Hx.
  - intros h' H1 H2. rewrite (Hs' h' H1 H2). simpl. rewrite <- Hfs. by apply Hsame.
Qed.

Lemma sim_await x k s h c o st st' act :
  eval (S fuel) (p_await x k) st = Some (o, st') → related act s st → h ∈ act → lframes s !! h = Some (LazyState at_running c None) →
  finishes act h c o st' (running h (p_await x k), s).
Proof using IH.
  intros He Hre Hh Hr. cbn [eval] in He. apply bind_Some in He as (ol & Hx & He).
  destruct (related_object _ _ _ _ _ Hre Hx) as (ho & Hlx & Hob). destruct ho as [hc|], ol as [l|]; try done; last first.
  { eapply sim_step; [|done|exact He|done..]. simpl. by rewrite (comp_bind_done _ _ _ _ _ (lobject_done _ _ _ Hlx)). }
  apply bind_Some in He as ([r st1] & Hl & He). destruct (related_take _ _ _ _ _ Hre Hlx) as [H1 Hn].
  assert (h ≠ hc) as Hne by (by intros ->). set (s1 := LHeap _ _ _) in H1.
  assert (step_prog h (p_await x k) s = (f ← lframe hc; if is_done f then o ← await_resumed hc; mret (running h (k o)) else await_on h (at_await hc k) hc) s1)
    as Hs by (simpl; by rewrite (comp_bind_done _ _ _ _ _ (lobject_done _ _ _ Hlx))).
  destruct l as [p|r'].
  - rewrite (comp_bind_done _ _ _ _ _ (lframe_done s1 hc _ Hob)) in Hs. eapply (sim_child p (at_await hc k) s s1); [exact Hs|done|exact Hl|done..|].
    intros s2 H2 H3 H4. by eapply sim_await_resume.
  - injection Hl as <- <-. destruct Hob as [c' Hc']. rewrite (comp_bind_done _ _ _ _ _ (lframe_done s1 hc _ Hc')) in Hs. cbn [is_done l_point] in Hs.
    eapply sim_step; [rewrite Hs; by rewrite (comp_bind_done _ _ _ _ _ (await_resumed_done s1 _ _ _ Hc'))| |exact He|by apply related_drop|done|done].
    intros h' Hh'. simpl. rewrite lookup_delete_ne; [done|]. by intros ->.
Qed.

Lemma sim_resolve x k s h c o st st' act :
  eval (S fuel) (p_resolve x k) st = Some (o, st') → related act s st → h ∈ act → lframes s !! h = Some (LazyState at_running c None) →
  finishes act h c o st' (running h (p_resolve x k), s).
Proof using IH.
  intros He Hre Hh Hr. cbn [eval] in He. apply bind_Some in He as (ol & Hx & He).
  destruct (related_object _ _ _ _ _ Hre Hx) as (ho & Hlx & Hob). destruct ho as [hc|], ol as [l|]; try done; last first.
  { eapply sim_step; [|done|exact He|done..]. simpl. by rewrite (comp_bind_done _ _ _ _ _ (lobject_done _ _ _ Hlx)). }
  apply bind_Some in He as ([r st1] & Hl & He). destruct (related_take _ _ _ _ _ Hre Hlx) as [H1 Hn].
  assert (h ≠ hc) as Hne by (by intros ->). set (s1 := LHeap _ _ _) in H1.
  assert (step_prog h (p_resolve x k) s = (f ← lframe hc; if is_done f then y ← resolve_resumed hc; mret (running h (k (Ret y))) else await_on h (at_resolve hc k) hc) s1)
    as Hs by (simpl; by rewrite (comp_bind_done _ _ _ _ _ (lobject_done _ _ _ Hlx))).
  destruct l as [p|r'].
  - rewrite (comp_bind_done _ _ _ _ _ (lframe_done s1 hc _ Hob)) in Hs. eapply (sim_child p (at_resolve hc k) s s1); [exact Hs|done|exact Hl|done..|].
    intros s2 H2 H3 H4. by eapply sim_resolve_resume.
  - injection Hl as <- <-. destruct Hob as [c' Hc']. rewrite (comp_bind_done _ _ _ _ _ (lframe_done s1 hc _ Hc')) in Hs. cbn [is_done l_point] in Hs.
    rewrite <- (related_dom _ _ _ H1) in He. set (y := fresh _) in He.
    assert (lobjects s1 !! y = None) as Hy by apply not_elem_of_dom, is_fresh.
    eapply sim_step; [exact Hs|done|exact He| |done|done]. apply related_give; [done|done|by exists c'|]. fold y. by rewrite Hy.
Qed.

Lemma sim_status x k s h c o st st' act :
  eval (S fuel) (p_status x k) st = Some (o, st') → related act s st → h ∈ act → lframes s !! h = Some (LazyState at_running c None) →
  finishes act h c o st' (running h (p_status x k), s).
Proof using IH.
  intros He Hre Hh Hr. cbn [eval] in He. apply bind_Some in He as (ol & Hx & He).
  destruct (related_object _ _ _ _ _ Hre Hx) as (ho & Hlx & Hob).
  eapply sim_step; [|done|exact He|done..]. simpl. rewrite (comp_bind_done _ _ _ _ _ (lobject_done _ _ _ Hlx)).
  destruct ho as [hc|], ol as [[p|r]|]; try done; simpl in Hob; [|destruct Hob as [c' Hob]];
    by rewrite (comp_bind_done _ _ _ _ _ (lframe_done s hc _ Hob)).
Qed.

Lemma sim_move rhs k s h c o st st' act :
  eval (S fuel) (p_move rhs k) st = Some (o, st') → related act s st → h ∈ act → lframes s !! h = Some (LazyState at_running c None) →
  finishes act h c o st' (running h (p_move rhs k), s).
Proof using IH.
  intros He Hre Hh Hr. cbn [eval] in He. apply bind_Some in He as (ol & Hx & He). cbn [put sobjects] in He.
  destruct (related_object _ _ _ _ _ Hre Hx) as (ho & Hlx & Hob).
  assert (dom (<[rhs := None]> (sobjects st)) = dom (<[rhs := None]> (lobjects s))) as Hd by (by rewrite !dom_insert_L, (related_dom _ _ _ Hre)).
  rewrite Hd in He. set (y := fresh _) in He.
  assert (<[rhs := None]> (lobjects s) !! y = None) as Hy by apply not_elem_of_dom, is_fresh.
  eapply sim_step; [simpl; rewrite (comp_bind_done _ _ _ _ _ (lobject_done _ _ _ Hlx)); reflexivity|done|exact He| |done|done].
  apply (related_move act s st rhs y ho ol); [done..|]. intros h'. by rewrite Hy.
Qed.

Lemma sim_destroy x k s h c o st st' act :
  eval (S fuel) (p_destroy x k) st = Some (o, st') → related act s st → h ∈ act → lframes s !! h = Some (LazyState at_running c None) →
  finishes act h c o st' (running h (p_destroy x k), s).
Proof using IH.
  intros He Hre Hh Hr. cbn [eval] in He. apply bind_Some in He as (ol & Hx & He).
  destruct (related_object _ _ _ _ _ Hre Hx) as (ho & Hlx & Hob). destruct (release_done _ _ _ _ _ Hre Hlx) as (fs & Hfs & H1 & Hact).
  eapply sim_step; [simpl; rewrite (comp_bind_done _ _ _ _ _ (lobject_done _ _ _ Hlx)); by rewrite (comp_bind_done _ _ _ _ _ Hfs)|done|exact He| |done|done].
  apply (related_empty _ _ _ x) in H1 as [_ H1]; [|intros h'; simpl; by rewrite lookup_insert_eq].
  simpl in H1. by rewrite !delete_insert_eq in H1.
Qed.

Lemma sim_assign x rhs k s h c o st st' act :
  eval (S fuel) (p_assign x rhs k) st = Some (o, st') → related act s st → h ∈ act → lframes s !! h = Some (LazyState at_running c None) →
  finishes act h c o st' (running h (p_assign x rhs k), s).
Proof using IH.
  intros He Hre Hh Hr. cbn [eval] in He. destruct (decide (rhs = x)) as [Heq|Hne].
  { eapply sim_step; [|done|exact He|done..]. simpl. by rewrite decide_True. }
  apply bind_Some in He as (ol & Hx & He). apply bind_Some in He as (ol' & Hx' & He).
  destruct (related_object _ _ _ _ _ Hre Hx) as (ho & Hlx & _). destruct (related_object _ _ _ _ _ Hre Hx') as (ho' & Hlx' & _).
  destruct (release_done _ _ _ _ _ Hre Hlx) as (fs & Hfs & H1 & Hact).
  eapply sim_step; [simpl; rewrite decide_False by done; rewrite (comp_bind_done _ _ _ _ _ (lobject_done _ _ _ Hlx)), (comp_bind_done _ _ _ _ _ Hfs);
    rewrite (comp_bind_done _ _ _ _ _ (lobject_done (LHeap fs (lobjects s) (ltrace s)) rhs ho' Hlx')); reflexivity|done|exact He| |done|done].
  apply (related_move _ _ _ rhs x ho' ol') in H1; simpl in *.
  - unfold put in *. simpl in *. by rewrite !(insert_insert_ne _ rhs x), !insert_insert_eq in H1.
  - by rewrite lookup_insert_ne.
  - by rewrite lookup_insert_ne.
  - intros h'. by rewrite lookup_insert_ne, lookup_insert_eq.
Qed.
End simulation.

Lemma simulates fuel p st o st' act s h c :
  eval fuel p st = Some (o, st') → related act s st → h ∈ act → lframes s !! h = Some (LazyState at_running c None) →
  finishes act h c o st' (running h p, s).
Proof.
  revert p st o st' act s h c. induction fuel as [|fuel IH]; intros p st o st' act s h c He Hre Hh Hr; [done|].
  destruct p as [v|e|n k|child k|x k|x k|x k|rhs k|x rhs k|x k].
  - injection He as <- <-. by apply sim_complete.
  - injection He as <- <-. by apply sim_complete.
  - eapply (sim_step fuel IH); [reflexivity|done|exact He| |done|done]. destruct Hre. split; simpl; [done..|congruence].
  - by eapply (sim_new fuel IH).
  - by eapply (sim_status fuel IH).
  - by eapply (sim_await fuel IH).
  - by eapply (sim_resolve fuel IH).
  - by eapply (sim_move fuel IH).
  - by eapply (sim_assign fuel IH).
  - by eapply (sim_destroy fuel IH).
Qed.

Lemma drive_steps c s s' : rtc steps_to (c, s) (transfer outside, s') → ∃ fuel, drive fuel c s = Done tt s'.
Proof.
  intros H. remember (c, s) as x eqn:Hx. remember (transfer outside, s') as y eqn:Hy. revert c s Hx.
  induction H as [x|x [c1 s1] z Hs _ IH]; intros c s ->.
  - injection Hy as -> ->. by exists 1.
  - destruct (IH Hy c1 s1 eq_refl) as [fuel Hf]. exists (S fuel). unfold steps_to in Hs. simpl in Hs.
    destruct c as [h p|[| |h]]; simpl in *; try done; unfold mbind, comp_bind; by rewrite Hs.
Qed.

(** ** [run]

    The coroutine of [run_impl], which is not lazy, awaits the lazy result: control
    comes back to it, and with it to the outside. *)
Definition run_lazy (fuel x : nat) : comp lheap (outcome (outcome V)) :=
  h ← lobject x;
  match h with
  | None => mret (Throw empty_result)
  | Some h =>
      set_lobject x None;;
      f ← lframe h;
      (if is_done f then mret tt
       else set_lframe h (LazyState (l_point f) outside (m_producer f));; drive fuel (transfer (caller_frame h)));;
      o ← await_resumed h; mret (Ret o)
  end.

Lemma run_lazy_evaluates n x p o st s st' :
  related ∅ s st → sobjects st !! x = Some (Some (thunk p)) → eval n p (put x None st) = Some (o, st') →
  ∃ fuel s', run_lazy fuel x s = Done (Ret o) s' ∧ related ∅ s' st'.
Proof.
  intros Hre Hx He. destruct (related_object _ _ _ _ _ Hre Hx) as (ho & Hlx & Hob). destruct ho as [h|]; [|done]. simpl in Hob.
  destruct (related_take _ _ _ _ _ Hre Hlx) as [H1 Hn]. set (s1 := LHeap _ _ _) in H1.
  set (s2 := with_lframe s1 h (LazyState at_running outside None)).
  assert (related ({[h]} ∪ ∅) s2 (put x None st)) as H2 by (apply related_frame; [done|set_solver]).
  destruct (simulates n p _ o st' _ s2 h outside He H2) as (s3 & Hr & H3 & Hf & _); [set_solver|apply lookup_insert_eq|].
  destruct (drive_steps (transfer (caller_frame h)) (with_lframe s1 h (LazyState (at_start p) outside None)) s3) as [fuel Hd].
  { eapply rtc_l; [|exact Hr]. unfold steps_to. simpl. unfold resume_lazy. erewrite comp_bind_done by (apply lframe_done, lookup_insert_eq).
    simpl. unfold set_running, set_lframe, modify, mbind, comp_bind, mret, comp_ret. simpl. unfold s2, with_lframe. simpl. by rewrite insert_insert_eq. }
  exists fuel. eexists. split; [|by apply related_drop in H3].
  unfold run_lazy. rewrite (comp_bind_done _ _ _ _ _ (lobject_done _ _ _ Hlx)). rewrite (comp_bind_done _ _ s tt s1) by done.
  rewrite (comp_bind_done _ _ _ _ _ (lframe_done s1 h _ Hob)). simpl. rewrite (comp_bind_done _ _ s1 tt s3) by exact Hd.
  by rewrite (comp_bind_done _ _ _ _ _ (await_resumed_done s3 _ _ _ Hf)).
Qed.

(** A lazy coroutine that is called, and run from the outside. *)
Definition call_and_run (fuel : nat) (p : prog) : comp lheap (outcome (outcome V)) :=
  h ← new_coroutine p; x ← new_object (Some h); run_lazy fuel x.
Definition first_object : nat := fresh (dom (∅ : gmap nat (option nat))).

(** C10: the coroutines implement a direct evaluation.  When the program of a lazy
    coroutine, evaluated with its lazy results as computations that are made when they
    are first awaited, gives an outcome, then the coroutine, run from the outside,
    ends with this outcome and has had the same effects in the same order; no
    coroutine is resumed that is not suspended, none is used after it was destroyed,
    control always comes back to the caller; and the frames that are left are those
    of the lazy results that are left. *)
Theorem lazy_refines_evaluation n p o st :
  eval n p (Store {[first_object := None]} []) = Some (o, st) →
  ∃ fuel s, call_and_run fuel p (LHeap ∅ ∅ []) = Done (Ret o) s ∧ ltrace s = strace st ∧
    (∀ x, lobjects s !! x = None ↔ sobjects st !! x = None) ∧
    ∀ h, is_Some (lframes s !! h) → ∃ x, lobjects s !! x = Some (Some h).
Proof.
  intros He. set (s0 := LHeap ∅ ∅ [] : lheap). set (st0 := Store ∅ []).
  assert (related ∅ s0 st0) as H0.
  { split; simpl; [intros; by rewrite !lookup_empty|intros *; by rewrite lookup_empty|set_solver|intros h [f Hf]; by rewrite lookup_empty in Hf|done]. }
  destruct (related_fresh ∅ s0 st0 (LazyState (at_start p) null None) H0) as [H1 Hn].
  apply (related_give ∅ _ _ first_object _ (thunk p)) in H1; [|done|apply lookup_insert_eq|intros h'; simpl; by rewrite lookup_empty].
  destruct (run_lazy_evaluates n first_object p o _ _ st H1) as (fuel & s & Hr & Hre); [apply lookup_insert_eq| |].
  { unfold put. simpl. by rewrite insert_insert_eq. }
  exists fuel, s. split; [exact Hr|]. split; [apply Hre|]. split.
  - intros x. pose proof (related_dom _ _ _ Hre) as Hd. rewrite <- !not_elem_of_dom. by rewrite Hd.
  - intros h Hh. destruct (re_owned _ _ _ Hre h Hh) as [Hc|Hc]; [set_solver|done].
Qed.
End lazy.
Arguments prog : clear implicits.
Arguments lazy_result_state : clear implicits.
Arguments lheap : clear implicits.

(** A coroutine that calls another, does something, and then awaits it, twice. *)
Definition lazy_child : prog nat := p_trace 1 (p_throw (user_exn 4)).
Definition lazy_parent : prog nat :=
  p_new lazy_child (λ x, p_trace 2 (p_await x (λ o, p_trace 3 (p_await x (λ o', p_destroy x
    (match o, o' with Throw (user_exn n), Throw empty_result => p_return n | _, _ => p_return 0 end)))))).

Lemma lazy_refines_evaluation_witness :
  ∃ fuel s, call_and_run fuel lazy_parent (LHeap ∅ ∅ []) = Done (Ret (Ret 4)) s ∧ ltrace s = [2; 1; 3].
Proof.
  destruct (lazy_refines_evaluation 20 lazy_parent (Ret 4) (Store {[first_object := None]} [2; 1; 3])) as (fuel & s & H1 & H2 & _).
  - vm_compute. reflexivity.
  - exists fuel, s. split; [exact H1|exact H2].
Defined.
